(* ===== verification/_CoqProject ===== *)
-Q . S2P
Prelude.v
RustText.v
RustNet.v
Dns.v
Nibble.v
ConfigError.v
Config.v
Parse.v
Compile.v
Sample.v
Zones.v
Rrl.v
Upstream.v
Handler.v
Server.v
ConfigSpec.v
ParseSpec.v
Grammar.v
CompileSpec.v
Accept.v
NetText.v
Display.v
ZoneSpec.v
RrlSpec.v
RrlMemory.v
UpstreamSpec.v
HandlerSpec.v
Journal.v
ServerSpec.v
Contract.v
Concurrent.v
ConcurrentLog.v
Process.v
ConcurrentSpec.v
RrlService.v
ConcurrentLogSpec.v
ProcessSpec.v
Progress.v
Alone.v
Vectors.v
Acceptance.v
