(* ===== verification/Prelude.v ===== *)
(** * PanoptiDNS: a verification library

    PanoptiDNS is an authoritative DNS server that holds no zone data.  Its
    configuration names IPv6 networks and, for each, a pattern of host names; from
    these two it computes the PTR record of every address of a network and the
    AAAA record of every such name.  This library models the server from its
    configuration parser to its sockets and proves what makes it correct.  All
    paths below are under [src/src/].

    ** How the program works, and where it is modelled

    - [config/parse.rs] splits the file into lines and recognises the directives
      of one table; every line becomes a raw value or a diagnostic.  [Parse.v]:
      [DIRECTIVES], [match_words], [strip_keyword], [parse_line], [parse].
    - [config/compile.rs] validates the raw values and builds the configuration,
      accumulating every diagnostic.  [Compile.v]: [compile_network],
      [compile_template], [compile_zone], [compile_globals], [compile],
      [Config_parse].  The list of errors is threaded through each function the
      way the code threads [&mut errors].
    - [config/mod.rs] is the data: [Config.v] with [Zone], [FwdTemplate],
      [Config], and [parent], [render], [apexes], [warnings].
      [config/error.rs], the diagnostics and their display, is [ConfigError.v].
    - [nibble.rs] converts between a 128-bit address, its [ip6.arpa] name and the
      digits of a host name.  [Nibble.v] holds the definitions and their theory.
    - [zone/lookup.rs], [zone/synth.rs] and [zone/mod.rs] answer a question from
      (configuration, address) alone.  [Zones.v]: the Modules [Lookup] and
      [Synth], [Outcome] and [resolve].
    - [rrl.rs] limits UDP responses per client network.  [Rrl.v]: [ClientKey_new],
      [decide], [sweep], which sweeps the two limiters one after the other, each at
      its own instant, and [rrl_step], the interleaving of the atomic accesses of
      concurrent requests.
    - [upstream.rs] asks a foreign server for a PTR override.  [Upstream.v]:
      [filter_upstream], the Module [Breaker], and [lookup_ptr], cut at its only
      await point into [lookup_begin] and [lookup_end]; [up_step] interleaves
      lookups, completions and cancellations.
    - [server/handler.rs] is the request handler.  [Handler.v]: [Zones_new],
      [decide_reply] ([Handler::decide]), [send], [handle_inner],
      [handle_request] with its panic guard (the type [outcome]).  [Journal.v] has
      the same functions with the lines they log, query logging included.
    - [server/bind.rs] and the shared part of [main.rs] are [Server.v]: the Module
      [Bind], a computation that records its system calls; [load_config],
      [effective_listen], [run], [serve_state], and [process_event], what a
      SIGHUP, a sweeper tick or a request does to the running server.
    - [main.rs] from its command line to its exit code is [Process.v]: [main] is
      the sequence of effects (output, log, sockets, tasks, responses, shutdown) of
      a process in a [World] that answers system calls and sends events;
      [healthcheck] is [probe].  What [serve] does itself is [serve_actions]; each
      of these actions may start something ([set_off]: a registered socket lets
      requests in, a spawned task runs), and what is running goes on between them
      ([happen], [live], [interleave]), from the first registered socket to the end
      of the shutdown.  Its requests are those of [Concurrent.v].
    - The requests in flight of [handler.rs], [upstream.rs] and [rrl.rs] together
      are [Concurrent.v]: a request is a [Thread] that stops between any two
      accesses to shared state ([advance], by [Stage]), and [exec] is one step of a
      server with any number of them, reloads, sweeps, cancellation and a clock.
      [ConcurrentLog.v] has what each of these steps logs ([advance_log] before it
      sends, [failure_log] after).
    - The [#[cfg(test)]] modules are [Vectors.v], and the tests under [src/tests/]
      are [Acceptance.v] (Modules [ConfigTests], [ZoneTests], [ServerTests]), as
      definitions that evaluate to true.

    A request flows [handle_request] -> [handle_inner] -> [decide_reply] ->
    [resolve] -> [match_ptr] / [match_forward] -> [Nibble]; the configuration it
    reads comes from [Config_parse] at the start or at a reload.  The invariant
    that crosses this boundary is [config_wf] ([ConfigSpec.v]): the compiler
    establishes it ([CompileSpec.v]) and zones, handler and process are proved
    from it.

    [RustText.v] and [RustNet.v] model what the source uses of the Rust standard
    library: UTF-8 and its [str] methods, decimal and hexadecimal printing and
    parsing, [Ipv6Addr] and [SocketAddr] text, [Duration] arithmetic.  This file
    has the shared notation, byte and bit lemmas, results, integer widths and
    tactics.

    ** Interfaces

    Code outside the repository is a typeclass of operations and, where the
    theorems rely on its behaviour, a class of laws:

    - [DnsOps] / [DnsLaws] ([Dns.v]): names and records of the hickory crates.
      The laws are RFC 1035 limits, case-insensitive comparison and suffixes, and
      the label count that discounts a leading [*].
    - [LimiterOps] / [LimiterLaws] ([Rrl.v], [RrlSpec.v]): the keyed limiter of
      governor.  The law is that a key's answers depend on that key's requests.
    - [LimiterStore] ([RrlMemory.v]): which keys that limiter holds, and which of them
      its [retain_recent] drops.
    - [ResolverOps] ([Upstream.v]): building a resolver for an address; what a
      lookup returns is part of the environment and unconstrained.
    - [MessageOps] / [MessageLaws] ([Handler.v]): response headers.
    - [Bind.SocketOps] ([Server.v]): sockets; an operating system is an arbitrary
      function from the calls made so far to the next outcome.

    Each is instantiated by a concrete model ([LabelName], [TokenBucket],
    [EchoResolver], [EchoMessages], [counting_sockets]), on which every theorem
    with hypotheses is applied to a concrete input; [Sample.v] is the
    configuration most of these instances use.

    ** What the theorems show

    - [Nibble.v]: the query parser is the exact inverse of the name builder, the
      digit decoder of the digit printer, and membership in the PTR zone is
      membership in the network.
    - [ParseSpec.v], [Grammar.v]: each line is accounted for exactly once; a
      declarative grammar of lines and files ([writes], [read_items]) that the
      parser accepts exactly, with one error for every line outside it.  It is the
      documented grammar ([documented_item]) and two things more that the code
      accepts ([tolerated_item]): a flag given again, and a [listen] after a network.
    - [CompileSpec.v]: an accepted configuration is well-formed and keeps every
      zone; diagnostics point inside the file; exact characterisations of network
      and template validation.
    - [Accept.v]: what a file means ([file_means]), without the order of checks,
      and that [Config_parse] accepts exactly the files that mean something.
    - [NetText.v]: addresses survive printing and parsing, so the network that a
      diagnostic suggests is accepted.
    - [Display.v]: the caret line of a diagnostic stands under the marked span.
    - [ZoneSpec.v]: forward matching is exactly the inverse of synthesis;
      longest-prefix lookup; the agreement of PTR and AAAA; which names are served
      and what a record may contain; three corner cases of templates and types.
      Templates that begin with the label [*] are included: the label count of
      hickory discounts it, so their host names have one label more than they
      should ([spare_labels], [names_host], [stray]).
    - [RrlSpec.v]: what a client is, isolation of budgets, and the slip schedule
      under every interleaving.  [RrlMemory.v]: what a limiter holds after any
      checks and sweeps: quiet clients are forgotten, and served again.
      [RrlService.v]: the same of the limiter that the requests of the running
      server share, whose checks are all made for requests that arrived.
    - [UpstreamSpec.v]: the allowlist, permits and cooldown of every reachable
      state, and when overlapping lookups trip the breaker.
    - [HandlerSpec.v]: when a reply is authoritative, that a PTR answer is never
      lost to an upstream, what the sections of a reply may hold, SOA records on
      negative answers, one well-formed response per request, and that the panic
      guard's only trigger, the payload clamp, cannot fire.
    - [Journal.v]: logging does not change how a request is handled, and its log is
      [truthful]: it says what happened.  [ConcurrentLogSpec.v]: so it is when
      requests are interleaved.
    - [ServerSpec.v]: the invariant of the running process under reloads, the
      choice of addresses, and the socket calls.
    - [Contract.v]: an abstract server whose state is its configuration, with what
      it may answer stated on labels and addresses ([spec_reply], [abs_step]); the
      handler and the process refine it.
    - [ConcurrentSpec.v]: the contract under every interleaving of requests.
    - [ProcessSpec.v]: the whole program keeps the contract, with its requests
      interleaved, and its log tells what each of them sent; its exit code; the order
      of what [main] does, and what each effect of its tasks must be preceded by; and
      the health check against a server with given addresses.
    - [Progress.v]: each request takes a bounded number of steps and passes each of
      its stages once, permits are conserved and deadlines do not move, and every
      request ends under fairness even if upstreams are silent.
    - [Alone.v]: [handle_request] is the interleaved request without interference, in
      both directions.
    - [Vectors.v]: the repository's property tests for every input.
    - [Acceptance.v]: its end-to-end test with hostile queries for every query:
      whatever a server has handled, it answers as before.

    ** Integers, fuel and assumptions

    Machine integers are [N] with the wrap-around of the width written out where
    the code can reach it ([u8_mul], [u8_sub], [wrap 64]); shifts of addresses
    truncate to 128 bits ([u128_shl], [u128_not]).  Loops of the source are
    structural recursion on the list or on the count they iterate over.  Fuel is
    used in four places, each with a bound that cannot be exhausted: UTF-8 decoding
    takes the byte length (each step consumes a byte), decimal and hexadecimal
    printing 39 and 32 digits (a 128-bit number has no more), and the trimming
    of prefixes the length of the text.  A file is assumed to be no longer than
    [usize_MAX] bytes, which every [String] is.

    ** Concurrency

    [Handler.v] and [Server.v] run a request without interruption but for reloads
    at its second load of the configuration; their theorems are about one request.
    [Concurrent.v] cuts it at every access to shared state, each access being
    atomic (an [ArcSwap] load, a mutex, a semaphore, a bucket, a counter).  It
    assumes that a send completes, that the wait for an upstream ends at its
    deadline once the clock has reached it ([tokio::time::timeout]), and that a
    request is cancelled only where it awaits.  [handle_request_alone] connects the
    two.  In [Process.v] an action of [serve] and an event of a task are atomic
    against each other; [abort] and the shutdown stop no task at once, since it runs
    on until it next waits, and the model allows it to until the process ends.

    ** What is not modelled

    The derive-generated command line (the parsed [Cli] is an input), the filter
    syntax and output of tracing (a log line is an effect of [main], whatever the
    filter does with it), the asynchronous runtime, the
    wire format and the server loop of the hickory crates: code outside the
    repository.  A signal that arrives before its handler is installed ends the
    process and is not modelled.  Of the
    end-to-end tests the sockets are left out, and the one with datagrams that are
    no messages, since the decoder is hickory's; shell scripts and packaging are
    not part of the program. *)

From Stdlib Require Export NArith ZArith Lia Strings.Byte.
From stdpp Require Export base list gmap strings option numbers sorting list_numbers.

#[export] Set Default Goal Selector "!".
#[export] Set Warnings "-clear-no-such-hyp".
#[global] Open Scope N_scope.

(** [lia] knows quotients and remainders by constants. *)
#[global] Ltac Zify.zify_post_hook ::= Z.to_euclidean_division_equations.

(** ** Bytes and byte strings *)

Abbreviation byte := Byte.byte.

(** A Rust [Vec<u8>], [&[u8]] or (as its UTF-8 encoding) a [String]. *)
Abbreviation bytes := (list byte).

(** The bytes of a literal of the source. *)
Definition bs (s : string) : bytes := String.list_byte_of_string s.

#[export] Instance byte_eq_dec : EqDecision byte := Byte.byte_eq_dec.

#[export] Instance byte_countable : Countable byte.
Proof.
  refine (inj_countable Byte.to_N Byte.of_N _). intros b. apply Byte.of_to_N.
Defined.

(** The length of a slice as a [usize]. *)
Definition len {A} (l : list A) : N := N.of_nat (length l).

(** Evaluate a property of a single byte on all 256 bytes. *)
Ltac all_bytes b := destruct b; try reflexivity; try discriminate.

(** Close an equation of closed terms by evaluating both sides. *)
Ltac vm_refl := match goal with |- _ = ?b => vm_cast_no_check (eq_refl b) end.

(** ** Case folding: [u8::to_ascii_lowercase], [<[u8]>::eq_ignore_ascii_case] *)

Definition lower_byte (b : byte) : byte :=
  let n := Byte.to_N b in
  if (65 <=? n) && (n <=? 90)
  then match Byte.of_N (n + 32) with Some b' => b' | None => b end
  else b.

Definition to_ascii_lowercase (s : bytes) : bytes := lower_byte <$> s.

Definition eq_ignore_ascii_case (a b : bytes) : bool :=
  bool_decide (to_ascii_lowercase a = to_ascii_lowercase b).

(** Equality up to ASCII case, of byte strings. *)
Definition ci_eq (a b : bytes) : Prop :=
  to_ascii_lowercase a = to_ascii_lowercase b.

Declare Scope pdns_scope.
Delimit Scope pdns_scope with pdns.
Infix "≡ci" := ci_eq (at level 70, no associativity) : pdns_scope.
#[global] Open Scope pdns_scope.

#[export] Instance ci_eq_dec a b : Decision (a ≡ci b).
Proof. unfold ci_eq. apply _. Defined.

#[export] Instance ci_eq_equiv : Equivalence ci_eq.
Proof. split; unfold ci_eq; congruence. Qed.

Lemma lower_byte_idemp b : lower_byte (lower_byte b) = lower_byte b.
Proof. all_bytes b. Qed.

Lemma eq_ignore_ascii_case_spec a b : eq_ignore_ascii_case a b = true ↔ a ≡ci b.
Proof. unfold eq_ignore_ascii_case. by rewrite bool_decide_eq_true. Qed.

Lemma to_ascii_lowercase_app a b :
  to_ascii_lowercase (a ++ b) = to_ascii_lowercase a ++ to_ascii_lowercase b.
Proof. apply fmap_app. Qed.

Lemma length_to_ascii_lowercase s : length (to_ascii_lowercase s) = length s.
Proof. apply length_fmap. Qed.

Lemma to_ascii_lowercase_idemp s :
  to_ascii_lowercase (to_ascii_lowercase s) = to_ascii_lowercase s.
Proof.
  unfold to_ascii_lowercase. rewrite <- list_fmap_compose.
  apply list_fmap_ext. intros _ b _. apply lower_byte_idemp.
Qed.

Lemma ci_eq_lower s : to_ascii_lowercase s ≡ci s.
Proof. apply to_ascii_lowercase_idemp. Qed.

Lemma ci_eq_length a b : a ≡ci b → length a = length b.
Proof.
  intros H. rewrite <- (length_to_ascii_lowercase a), H.
  apply length_to_ascii_lowercase.
Qed.

#[export] Instance app_ci_proper : Proper (ci_eq ==> ci_eq ==> ci_eq) app.
Proof.
  intros a a' Ha b b' Hb. unfold ci_eq in *.
  rewrite !to_ascii_lowercase_app. congruence.
Qed.

Lemma ci_eq_app_inv a a' b b' :
  length a = length a' → a ++ b ≡ci a' ++ b' → a ≡ci a' ∧ b ≡ci b'.
Proof.
  unfold ci_eq. rewrite !to_ascii_lowercase_app. intros Hlen H.
  apply app_inj_1 in H; [done|]. by rewrite !length_to_ascii_lowercase.
Qed.

(** ** [split_at_checked], [saturating_*] and other slice and integer helpers *)

(** [s.split_at_checked(mid)]: [None] when [mid] lies past the end. *)
Definition split_at_checked {A} (s : list A) (mid : N) : option (list A * list A) :=
  if mid <=? len s
  then Some (take (N.to_nat mid) s, drop (N.to_nat mid) s)
  else None.

Lemma split_at_checked_Some {A} (s h t : list A) mid :
  split_at_checked s mid = Some (h, t) ↔ s = h ++ t ∧ len h = mid.
Proof.
  unfold split_at_checked, len. split.
  - case_match eqn:E; [|done]. apply N.leb_le in E. intros [= <- <-].
    rewrite take_drop, length_take. split; [done|lia].
  - intros [-> Hl]. subst mid. rewrite length_app, Nat2N.id.
    rewrite (proj2 (N.leb_le _ _)) by lia. by rewrite take_app_length, drop_app_length.
Qed.

Lemma split_at_checked_app {A} (h t : list A) mid :
  len h = mid → split_at_checked (h ++ t) mid = Some (h, t).
Proof. intros <-. by apply split_at_checked_Some. Qed.

Lemma len_app {A} (a b : list A) : len (a ++ b) = len a + len b.
Proof. unfold len. rewrite length_app. lia. Qed.

Lemma len_nil {A} : len (@nil A) = 0.
Proof. done. Qed.

Lemma len_0 {A} (l : list A) : len l = 0 → l = [].
Proof. by destruct l. Qed.

Lemma len_cons {A} (a : A) l : len (a :: l) = 1 + len l.
Proof. unfold len. simpl length. lia. Qed.

Lemma forallb_Forall_true {A} (f : A → bool) l : forallb f l = true → Forall (λ x, f x = true) l.
Proof. induction l as [|a l IH]; [done|]. simpl. intros [? ?]%andb_true_iff. constructor; auto. Qed.

Lemma len_filter_insert {A} (f : A → bool) l i x y :
  l !! i = Some x →
  len (List.filter f (<[i := y]> l)) + N.b2n (f x) = len (List.filter f l) + N.b2n (f y).
Proof.
  revert i. induction l as [|a l IH]; intros [|i]; simpl; try done.
  - intros [= ->]. destruct (f x), (f y); rewrite ?len_cons; simpl; lia.
  - intros H%IH. destruct (f a); rewrite ?len_cons; lia.
Qed.

(** Cut a list at the place of an element of a list of the same length. *)
Lemma app_length_inv {A B} (l : list A) (t1 : list B) (b : B) (t2 : list B) :
  length l = length (t1 ++ b :: t2) →
  ∃ l1 a l2, l = l1 ++ a :: l2 ∧ length l1 = length t1 ∧ length l2 = length t2.
Proof.
  revert l. induction t1 as [|c t1 IH]; intros [|a l] Hl; try done; injection Hl as Hl.
  - by exists [], a, l.
  - apply IH in Hl as (l1 & x & l2 & -> & H1 & H2). exists (a :: l1), x, l2.
    simpl. by rewrite H1.
Qed.

(** ** Integers at their width *)

(** [w]-bit wrap-around. *)
Definition wrap (w x : N) : N := x mod 2 ^ w.

Definition u8_mul (a b : N) : N := wrap 8 (a * b).
Definition u8_sub (a b : N) : N := wrap 8 (2 ^ 8 + a - b).
Definition u64_add (a b : N) : N := wrap 64 (a + b).

Definition u8_MAX : N := N.ones 8.
Definition u16_MAX : N := N.ones 16.
Definition u32_MAX : N := N.ones 32.
Definition i32_MAX : N := N.ones 31.
Definition usize_MAX : N := N.ones 64.
Definition u128_MAX : N := N.ones 128.

Definition u32_saturating_add (a b : N) : N := N.min (a + b) u32_MAX.
Definition usize_saturating_add (a b : N) : N := N.min (a + b) usize_MAX.

(** [a & b], [a | b], [!a], [a << s] and [a >> s] on [u128], [s < 128]. *)
Definition u128_not (a : N) : N := N.lnot a 128.
Definition u128_shl (a s : N) : N := wrap 128 (N.shiftl a s).
Definition u128_shr (a s : N) : N := N.shiftr a s.

Definition is_multiple_of (a b : N) : bool :=
  if b =? 0 then a =? 0 else a mod b =? 0.

Lemma wrap_small w x : x < 2 ^ w → wrap w x = x.
Proof. apply N.mod_small. Qed.

Lemma wrap_lt w x : wrap w x < 2 ^ w.
Proof. apply N.mod_lt. by apply N.pow_nonzero. Qed.

Lemma wrap_bits w x i : N.testbit (wrap w x) i = (i <? w) && N.testbit x i.
Proof.
  unfold wrap. rewrite <- N.land_ones, N.land_spec, andb_comm. f_equal.
  destruct (N.ltb_spec i w).
  - by apply N.ones_spec_low.
  - by apply N.ones_spec_high.
Qed.

Lemma ones_bits n i : N.testbit (N.ones n) i = (i <? n).
Proof.
  destruct (N.ltb_spec i n).
  - by apply N.ones_spec_low.
  - by apply N.ones_spec_high.
Qed.

Lemma shiftl_bits a s i :
  N.testbit (N.shiftl a s) i = (s <=? i) && N.testbit a (i - s).
Proof.
  destruct (N.leb_spec s i).
  - by rewrite N.shiftl_spec_high' by done.
  - by rewrite N.shiftl_spec_low by done.
Qed.

Lemma shiftr_bits a s i : N.testbit (N.shiftr a s) i = N.testbit a (i + s).
Proof. apply N.shiftr_spec'. Qed.

Lemma lnot_bits a n i :
  N.testbit (N.lnot a n) i = if i <? n then negb (N.testbit a i) else N.testbit a i.
Proof.
  destruct (N.ltb_spec i n).
  - by apply N.lnot_spec_low.
  - by apply N.lnot_spec_high.
Qed.

(** Bits at and above the width of a bounded number are clear. *)
Lemma bits_above a w i : a < 2 ^ w → w <= i → N.testbit a i = false.
Proof.
  intros Ha Hi. rewrite <- (N.mod_small a (2 ^ w)) by done.
  by apply N.mod_pow2_bits_high.
Qed.

Lemma lt_pow2_bits a w : (∀ i, w <= i → N.testbit a i = false) → a < 2 ^ w.
Proof.
  intros H. replace a with (a mod 2 ^ w); [apply N.mod_lt; by apply N.pow_nonzero|].
  apply N.bits_inj. intros i. destruct (N.ltb_spec i w).
  - by apply N.mod_pow2_bits_low.
  - rewrite N.mod_pow2_bits_high, H; done.
Qed.

Create Rewrite HintDb bits.
#[export] Hint Rewrite N.land_spec N.lor_spec N.lxor_spec N.ldiff_spec
  wrap_bits ones_bits shiftl_bits shiftr_bits lnot_bits N.bits_0 : bits.

(** Decide the comparisons of bit positions that a goal mentions. *)
Ltac bit_cases :=
  repeat match goal with
  | |- context [?a <? ?b] => destruct (N.ltb_spec a b)
  | |- context [?a <=? ?b] => destruct (N.leb_spec a b)
  end.

(** Prove an equation of bitwise expressions, bit by bit. *)
Ltac bitwise :=
  apply N.bits_inj; let i := fresh "i" in intros i;
  unfold u128_not, u128_shl, u128_shr, u128_MAX in *;
  autorewrite with bits; bit_cases; simpl; rewrite ?andb_true_r, ?andb_false_r,
    ?orb_false_r, ?orb_true_r; try done; try lia.

(** The values of the Rust range [lo..hi]. *)
Fixpoint count_from (lo : N) (n : nat) : list N :=
  match n with
  | O => []
  | S n => lo :: count_from (lo + 1) n
  end.

Definition range (lo hi : N) : list N := count_from lo (N.to_nat (hi - lo)).

(** ** [Result] *)

Inductive result (A E : Type) : Type :=
  | Ok (a : A)
  | Err (e : E).
Arguments Ok {A E} a.
Arguments Err {A E} e.

Definition result_ok {A E} (r : result A E) : option A :=
  match r with Ok a => Some a | Err _ => None end.

Definition result_map {A B E} (f : A → B) (r : result A E) : result B E :=
  match r with Ok a => Ok (f a) | Err e => Err e end.

Definition result_map_err {A E F} (f : E → F) (r : result A E) : result A F :=
  match r with Ok a => Ok a | Err e => Err (f e) end.

(** The [?] operator on [Result]. *)
Definition result_bind {A B E} (r : result A E) (f : A → result B E) : result B E :=
  match r with Ok a => f a | Err e => Err e end.

Notation "'let?' x ':=' r 'in' k" := (result_bind r (λ x, k))
  (at level 200, x pattern, r at level 100, k at level 200) : pdns_scope.

(** ** Finding in lists: [Iterator::find] and [Iterator::find_map] *)

Definition iter_find {A} (p : A → bool) : list A → option A :=
  fix go l := match l with
              | [] => None
              | a :: l => if p a then Some a else go l
              end.

Definition iter_find_map {A B} (f : A → option B) : list A → option B :=
  fix go l := match l with
              | [] => None
              | a :: l => match f a with Some b => Some b | None => go l end
              end.

Lemma iter_find_Some {A} (p : A → bool) l a :
  iter_find p l = Some a ↔
  ∃ l1 l2, l = l1 ++ a :: l2 ∧ p a = true ∧ Forall (λ x, p x = false) l1.
Proof.
  split.
  - induction l as [|x l IH]; simpl; [done|]. destruct (p x) eqn:E.
    + intros [= ->]. by exists [], l.
    + intros (l1 & l2 & -> & ? & ?)%IH. exists (x :: l1), l2. by auto.
  - intros (l1 & l2 & -> & Ha & Hl). induction Hl as [|x l1 Hx _ IH]; simpl.
    + by rewrite Ha.
    + by rewrite Hx.
Qed.

Lemma iter_find_None {A} (p : A → bool) l :
  iter_find p l = None ↔ Forall (λ x, p x = false) l.
Proof.
  induction l as [|x l IH]; simpl; [by split; auto|].
  rewrite Forall_cons. destruct (p x); naive_solver.
Qed.

Lemma iter_find_map_Some {A B} (f : A → option B) l b :
  iter_find_map f l = Some b ↔
  ∃ l1 a l2, l = l1 ++ a :: l2 ∧ f a = Some b ∧ Forall (λ x, f x = None) l1.
Proof.
  split.
  - induction l as [|x l IH]; simpl; [done|]. destruct (f x) eqn:E.
    + intros [= ->]. by exists [], x, l.
    + intros (l1 & a & l2 & -> & ? & ?)%IH. exists (x :: l1), a, l2. by auto.
  - intros (l1 & a & l2 & -> & Ha & Hl). induction Hl as [|x l1 Hx _ IH]; simpl.
    + by rewrite Ha.
    + by rewrite Hx.
Qed.

Lemma iter_find_map_None {A B} (f : A → option B) l :
  iter_find_map f l = None ↔ Forall (λ x, f x = None) l.
Proof.
  induction l as [|x l IH]; simpl; [by split; auto|].
  rewrite Forall_cons. destruct (f x); naive_solver.
Qed.
