(* ===== verification/RustText.v ===== *)
(** * Text and byte-slice routines of the Rust standard library

    The functions of [str], [<[u8]>] and [format!] that the source calls, as
    executable functions on byte strings: UTF-8 validation, ASCII trimming,
    line splitting, substring search, lowercase hexadecimal and decimal
    printing, and decimal parsing of [u32]. *)

From S2P Require Import Prelude.

(** ** ASCII whitespace and trimming *)

(** [u8::is_ascii_whitespace]: space, tab, line feed, form feed, carriage
    return. *)
Definition is_ascii_whitespace (b : byte) : bool :=
  let n := Byte.to_N b in
  (n =? 32) || (n =? 9) || (n =? 10) || (n =? 12) || (n =? 13).

(** [<[u8]>::trim_ascii_start], [trim_ascii_end] and [trim_ascii]. *)
Fixpoint trim_ascii_start (s : bytes) : bytes :=
  match s with
  | b :: s' => if is_ascii_whitespace b then trim_ascii_start s' else s
  | [] => []
  end.

Definition trim_ascii_end (s : bytes) : bytes := rev (trim_ascii_start (rev s)).

Definition trim_ascii (s : bytes) : bytes := trim_ascii_end (trim_ascii_start s).

(** ** Prefixes, suffixes and substrings *)

Fixpoint starts_with (s p : bytes) : bool :=
  match p, s with
  | [], _ => true
  | c :: p', b :: s' => bool_decide (b = c) && starts_with s' p'
  | _ :: _, [] => false
  end.

(** [str::strip_suffix] with a one-byte suffix. *)
Definition strip_suffix_byte (c : byte) (s : bytes) : option bytes :=
  match rev s with
  | b :: r => if bool_decide (b = c) then Some (rev r) else None
  | [] => None
  end.

(** [str::find]: the offset of the first occurrence. *)
Fixpoint str_find (s pat : bytes) : option N :=
  if starts_with s pat then Some 0 else
  match s with
  | _ :: s' => match str_find s' pat with Some i => Some (1 + i) | None => None end
  | [] => None
  end.

(** [str::match_indices(pat).count()] for a non-empty pattern: occurrences are
    found left to right and do not overlap, so after a match the search resumes
    behind it ([skip] bytes are still to be passed over). *)
Fixpoint match_count_from (skip : nat) (s pat : bytes) : N :=
  match s with
  | [] => 0
  | _ :: s' =>
      match skip with
      | S k => match_count_from k s' pat
      | O => if starts_with s pat
             then 1 + match_count_from (pred (length pat)) s' pat
             else match_count_from O s' pat
      end
  end.

Definition match_count (s pat : bytes) : N := match_count_from O s pat.

(** [str::split(c)] for an ASCII character: the segments between separators;
    the empty string has one empty segment. *)
Fixpoint split_byte (c : byte) (s : bytes) : list bytes :=
  match s with
  | [] => [[]]
  | b :: s' =>
      if bool_decide (b = c) then [] :: split_byte c s'
      else match split_byte c s' with
           | seg :: segs => (b :: seg) :: segs
           | [] => [[b]]
           end
  end.

(** [str::split_once(c)] for an ASCII character. *)
Fixpoint split_once_byte (c : byte) (s : bytes) : option (bytes * bytes) :=
  match s with
  | [] => None
  | b :: s' =>
      if bool_decide (b = c) then Some ([], s')
      else match split_once_byte c s' with
           | Some (h, t) => Some (b :: h, t)
           | None => None
           end
  end.

(** [str::lines]: split after each line feed; a line's terminator is removed,
    and a carriage return immediately before the line feed with it.  Text after
    the last line feed is a line when it is not empty. *)
Fixpoint split_newlines (s : bytes) (acc : bytes) : list bytes :=
  match s with
  | [] => match acc with [] => [] | _ :: _ => [rev acc] end
  | b :: s' =>
      if bool_decide (b = "010"%byte)
      then rev (match acc with
                | c :: acc' => if bool_decide (c = "013"%byte) then acc' else acc
                | [] => []
                end) :: split_newlines s' []
      else split_newlines s' (b :: acc)
  end.

Definition str_lines (s : bytes) : list bytes := split_newlines s [].

(** ** [str::trim] *)

(** The UTF-8 encodings of the characters with the property White_Space. *)
Definition white_space : list bytes :=
  ((λ b, [b]) <$> [x09; x0a; x0b; x0c; x0d; x20]) ++
  [[xc2; x85]; [xc2; xa0]; [xe1; x9a; x80]] ++
  ((λ b, [xe2; x80; b]) <$>
     [x80; x81; x82; x83; x84; x85; x86; x87; x88; x89; x8a; xa8; xa9; xaf]) ++
  [[xe2; x81; x9f]; [xe3; x80; x80]].

(** Strip prefixes from the list; every round removes a byte or stops. *)
Fixpoint trim_prefixes (fuel : nat) (ws : list bytes) (s : bytes) : bytes :=
  match fuel with
  | O => s
  | S fuel =>
      match iter_find (λ w, starts_with s w) ws with
      | Some w => trim_prefixes fuel ws (drop (length w) s)
      | None => s
      end
  end.

Definition str_trim (s : bytes) : bytes :=
  let s := trim_prefixes (length s) white_space s in
  rev (trim_prefixes (length s) (@rev byte <$> white_space) (rev s)).

(** ** UTF-8: [str::from_utf8] *)

Definition in_range (lo hi : N) (b : byte) : bool :=
  (lo <=? Byte.to_N b) && (Byte.to_N b <=? hi).

Definition utf8_cont : byte → bool := in_range 128 191.

(** One scalar value at the head of the input, and the rest. *)
Definition utf8_step (s : bytes) : option bytes :=
  match s with
  | [] => None
  | b0 :: s1 =>
      let n := Byte.to_N b0 in
      if n <=? 127 then Some s1
      else match s1 with
      | [] => None
      | b1 :: s2 =>
          if (194 <=? n) && (n <=? 223) then
            if utf8_cont b1 then Some s2 else None
          else match s2 with
          | [] => None
          | b2 :: s3 =>
              if (224 <=? n) && (n <=? 239) then
                if (if n =? 224 then in_range 160 191 b1
                    else if n =? 237 then in_range 128 159 b1
                    else utf8_cont b1) && utf8_cont b2
                then Some s3 else None
              else match s3 with
              | [] => None
              | b3 :: s4 =>
                  if (240 <=? n) && (n <=? 244) then
                    if (if n =? 240 then in_range 144 191 b1
                        else if n =? 244 then in_range 128 143 b1
                        else utf8_cont b1) && utf8_cont b2 && utf8_cont b3
                    then Some s4 else None
                  else None
              end
          end
      end
  end.

Fixpoint utf8_valid_fuel (fuel : nat) (s : bytes) : bool :=
  match s with
  | [] => true
  | _ => match fuel with
         | O => false
         | S fuel => match utf8_step s with
                     | Some rest => utf8_valid_fuel fuel rest
                     | None => false
                     end
         end
  end.

(** Every step consumes a byte, so the length of the input is enough fuel. *)
Definition utf8_valid (s : bytes) : bool := utf8_valid_fuel (length s) s.

(** [str::from_utf8(s)] and [String::from_utf8(s)], up to the error value. *)
Definition from_utf8 (s : bytes) : option bytes :=
  if utf8_valid s then Some s else None.

(** The length of the longest prefix of an ill-formed sequence that
    [String::from_utf8_lossy] replaces as one unit. *)
Definition utf8_bad_len (s : bytes) : nat :=
  match s with
  | [] => 0
  | b0 :: s1 =>
      let n := Byte.to_N b0 in
      let second_ok :=
        match s1 with
        | b1 :: _ =>
            if n =? 224 then in_range 160 191 b1
            else if n =? 237 then in_range 128 159 b1
            else if n =? 240 then in_range 144 191 b1
            else if n =? 244 then in_range 128 143 b1
            else (225 <=? n) && (n <=? 244) && utf8_cont b1
        | [] => false
        end in
      let third_ok := match s1 with _ :: b2 :: _ => utf8_cont b2 | _ => false end in
      if second_ok then
        if (240 <=? n) && third_ok then 3 else 2
      else 1
  end.

(** [String::from_utf8_lossy]: each ill-formed unit becomes U+FFFD. *)
Fixpoint lossy_fuel (fuel : nat) (s : bytes) : bytes :=
  match s, fuel with
  | [], _ | _, O => []
  | _, S fuel =>
      match utf8_step s with
      | Some rest => take (length s - length rest) s ++ lossy_fuel fuel rest
      | None => [xef; xbf; xbd] ++ lossy_fuel fuel (drop (utf8_bad_len s) s)
      end
  end.

Definition from_utf8_lossy (s : bytes) : bytes := lossy_fuel (length s) s.

Definition is_ascii (b : byte) : bool := Byte.to_N b <=? 127.

Lemma utf8_valid_ascii s : Forall (λ b, is_ascii b = true) s → utf8_valid s = true.
Proof.
  unfold utf8_valid. induction 1 as [|b s Hb _ IH]; [done|]. simpl.
  unfold is_ascii in Hb. by rewrite Hb.
Qed.

(** ** Hexadecimal and decimal text *)

(** The [i]-th lowercase hexadecimal digit, for [i < 16]. *)
Definition hex_digit (v : N) : byte :=
  match Byte.of_N (if v <? 10 then 48 + v else 87 + v) with
  | Some b => b
  | None => "0"%byte
  end.

(** The digits of [x] in base [2^4] or [10], most significant first and at
    least one; [fuel] bounds the digit count. *)
Fixpoint digits_rev (fuel : nat) (base : N) (x : N) : list N :=
  match fuel with
  | O => []
  | S fuel => x mod base :: (if x <? base then [] else digits_rev fuel base (x / base))
  end.

(** [x.to_string()] of an integer below [2^128] (at most 39 digits). *)
Definition to_decimal (x : N) : bytes :=
  hex_digit <$> rev (digits_rev 39 10 x).

(** [format!("{x:x}")] of an integer below [2^128] (at most 32 digits). *)
Definition lower_hex (x : N) : bytes :=
  hex_digit <$> rev (digits_rev 32 16 x).

(** [format!("{x:0width$x}")]: [width] is a minimum, and pads with zeros. *)
Definition lower_hex_padded (width : N) (x : N) : bytes :=
  let s := lower_hex x in
  replicate (N.to_nat (width - len s)) "0"%byte ++ s.

(** [char::to_digit(10)] on a byte. *)
Definition dec_val (b : byte) : option N :=
  if in_range 48 57 b then Some (Byte.to_N b - 48) else None.

(** [u32::from_str]: an optional [+], then at least one digit, with overflow
    reported. *)
Fixpoint u32_digits (s : bytes) (acc : N) : option N :=
  match s with
  | [] => Some acc
  | b :: s' =>
      match dec_val b with
      | Some d => let acc' := acc * 10 + d in
                  if acc' <=? u32_MAX then u32_digits s' acc' else None
      | None => None
      end
  end.

Definition u32_from_str (s : bytes) : option N :=
  match s with
  | [] => None
  | b :: s' =>
      if bool_decide (b = "+"%byte)
      then match s' with [] => None | _ => u32_digits s' 0 end
      else u32_digits s 0
  end.

Example u32_from_str_vectors :
  u32_from_str (bs "4294967295") = Some 4294967295 ∧
  u32_from_str (bs "4294967296") = None ∧ u32_from_str (bs "+7") = Some 7 ∧
  u32_from_str (bs "-7") = None ∧ u32_from_str (bs "+") = None ∧
  u32_from_str (bs "") = None ∧ u32_from_str (bs "064") = Some 64.
Proof. by vm_compute. Qed.

Example text_vectors :
  str_lines (bs "ab

c") = [bs "ab"; []; bs "c"] ∧
  split_byte "." (bs "a..b") = [bs "a"; []; bs "b"] ∧
  match_count (bs "%x%%x%") (bs "%x%") = 2 ∧
  match_count (bs "%x%x%") (bs "%x%") = 1 ∧
  str_find (bs "ipv6-%x%") (bs "%x%") = Some 5 ∧
  lower_hex_padded 6 0xab01 = bs "00ab01" ∧ to_decimal 120 = bs "120" ∧
  trim_ascii (bs "  a b ") = bs "a b" ∧ str_trim ([xe3; x80; x80] ++ bs " a b" ++ [xc2; xa0]) = bs "a b" ∧
  from_utf8_lossy [x61; xe2; x82; x61; xff] = [x61; xef; xbf; xbd; x61; xef; xbf; xbd].
Proof. by vm_compute. Qed.

(** ** Lemmas *)

Lemma hex_digit_ascii v : v < 16 → is_ascii (hex_digit v) = true.
Proof.
  intros Hv. rewrite <- (N2Nat.id v) in *. revert Hv. generalize (N.to_nat v). clear v.
  intros n Hn. do 16 (destruct n as [|n]; [done|]). lia.
Qed.

Lemma u32_digits_bound s acc n :
  acc <= u32_MAX → u32_digits s acc = Some n → n <= u32_MAX.
Proof.
  revert acc. induction s as [|b s IH]; intros acc Hacc; simpl.
  - by intros [= <-].
  - destruct (dec_val b); [|done]. case_match eqn:E; [|done].
    apply N.leb_le in E. by apply IH.
Qed.

Lemma u32_from_str_bound s n : u32_from_str s = Some n → n <= u32_MAX.
Proof.
  destruct s as [|b s]; [done|]. unfold u32_from_str.
  case_bool_decide; [destruct s; [done|]|]; by apply u32_digits_bound.
Qed.
