(* ===== verification/RustNet.v ===== *)
(** * IP addresses of the Rust standard library

    [IpAddr], [SocketAddr], the parsers behind their [from_str] and the printer
    of [Ipv6Addr], as the source uses them.  Every parser takes the remaining
    input and returns the value read and the input after it; a failed read
    leaves the input where it was, which is what [read_atomically] does. *)

From S2P Require Import Prelude RustText.

Inductive IpAddr := V4 (bits : N) | V6 (bits : N).

#[export] Instance IpAddr_eq_dec : EqDecision IpAddr.
Proof. solve_decision. Defined.

#[export] Instance IpAddr_countable : Countable IpAddr.
Proof.
  refine (inj_countable'
    (λ a, match a with V4 n => inl n | V6 n => inr n end)
    (λ s, match s with inl n => V4 n | inr n => V6 n end) _).
  by intros [].
Defined.

Record SocketAddr := mkSocketAddr { ip : IpAddr; port : N }.

(** ** Parsing *)

Definition reader (A : Type) := bytes → option (A * bytes).

Definition read_given_char (c : byte) : reader unit := λ s,
  match s with
  | b :: s => if bool_decide (b = c) then Some (tt, s) else None
  | [] => None
  end.

(** [char::to_digit(radix)] for radix 10 and 16. *)
Definition to_digit (radix : N) (b : byte) : option N :=
  let v := if in_range 48 57 b then Some (Byte.to_N b - 48)
           else if in_range 97 102 b then Some (Byte.to_N b - 87)
           else if in_range 65 70 b then Some (Byte.to_N b - 55)
           else None in
  d ← v; if d <? radix then Some d else None.

(** The digit loop of [read_number]: stops at the first non-digit, fails when a
    digit exceeds the allowed count, if there is one. *)
Fixpoint read_digits (radix : N) (max_digits : option N) (s : bytes)
    (result digit_count : N) : option (N * N * bytes) :=
  match s with
  | [] => Some (result, digit_count, [])
  | b :: s' =>
      match to_digit radix b with
      | None => Some (result, digit_count, s)
      | Some d =>
          let digit_count := digit_count + 1 in
          if match max_digits with Some m => m <? digit_count | None => false end
          then None
          else read_digits radix max_digits s' (result * radix + d) digit_count
      end
  end.

(** [read_number::<T>], [T::MAX] being [max_value]. *)
Definition read_number (radix : N) (max_digits : option N)
    (allow_zero_prefix : bool) (max_value : N) : reader N := λ s,
  let has_leading_zero := match s with b :: _ => bool_decide (b = "0"%byte) | [] => false end in
  '(result, digit_count, rest) ← read_digits radix max_digits s 0 0;
  if digit_count =? 0 then None
  else if negb allow_zero_prefix && has_leading_zero && (1 <? digit_count) then None
  else if result <=? max_value then Some (result, rest) else None.

Definition read_separator {A} (sep : byte) (index : N) (inner : reader A) : reader A := λ s,
  if 0 <? index then
    '(_, s) ← read_given_char sep s; inner s
  else inner s.

Fixpoint read_octets (n : nat) (i : N) (acc : N) : reader N := λ s,
  match n with
  | O => Some (acc, s)
  | S n =>
      '(octet, s) ← read_separator "." i (read_number 10 (Some 3) false u8_MAX) s;
      read_octets n (i + 1) (acc * 256 + octet) s
  end.

Definition read_ipv4_addr : reader N := read_octets 4 0 0.

(** [read_groups] on an array of [n] more groups, of [limit] in all, [i] of them
    read already: the groups read, whether an embedded IPv4 address ended them,
    and the rest of the input. *)
Fixpoint read_groups (n : nat) (i limit : N) (s : bytes) : list N * bool * bytes :=
  match n with
  | O => ([], false, s)
  | S n =>
      match (if i <? limit - 1 then read_separator ":" i read_ipv4_addr s else None) with
      | Some (v4, s) => ([v4 / 65536; v4 mod 65536], true, s)
      | None =>
          match read_separator ":" i (read_number 16 (Some 4) true u16_MAX) s with
          | Some (g, s) =>
              let '(gs, v4, s) := read_groups n (i + 1) limit s in (g :: gs, v4, s)
          | None => ([], false, s)
          end
      end
  end.

(** [Ipv6Addr::from([u16; 8])] as a [u128]. *)
Definition join_groups (gs : list N) : N := foldl (λ acc g, acc * 65536 + g) 0 gs.

Definition read_ipv6_addr : reader N := λ s,
  let '(head, head_ipv4, s) := read_groups 8 0 8 s in
  if len head =? 8 then Some (join_groups head, s)
  else if (head_ipv4 : bool) then None
  else
    '(_, s) ← read_given_char ":" s;
    '(_, s) ← read_given_char ":" s;
    let limit := 8 - (len head + 1) in
    let '(tail, _, s) := read_groups (N.to_nat limit) 0 limit s in
    let zeros := replicate (8 - length head - length tail) 0 in
    Some (join_groups (head ++ zeros ++ tail), s).

Definition read_port : reader N := λ s,
  '(_, s) ← read_given_char ":" s; read_number 10 None true u16_MAX s.

Definition read_scope_id : reader N := λ s,
  '(_, s) ← read_given_char "%" s; read_number 10 None true u32_MAX s.

Definition read_socket_addr_v4 : reader SocketAddr := λ s,
  '(a, s) ← read_ipv4_addr s;
  '(p, s) ← read_port s;
  Some (mkSocketAddr (V4 a) p, s).

Definition read_socket_addr_v6 : reader SocketAddr := λ s,
  '(_, s) ← read_given_char "[" s;
  '(a, s) ← read_ipv6_addr s;
  let s := match read_scope_id s with Some (_, s) => s | None => s end in
  '(_, s) ← read_given_char "]" s;
  '(p, s) ← read_port s;
  Some (mkSocketAddr (V6 a) p, s).

(** [parse_with]: the whole input must be consumed. *)
Definition parse_all {A} (r : reader A) (s : bytes) : option A :=
  match r s with Some (a, []) => Some a | _ => None end.

Definition Ipv6Addr_from_str : bytes → option N := parse_all read_ipv6_addr.

Definition IpAddr_from_str : bytes → option IpAddr := parse_all (λ s,
  match read_ipv4_addr s with
  | Some (a, s) => Some (V4 a, s)
  | None => match read_ipv6_addr s with
            | Some (a, s) => Some (V6 a, s)
            | None => None
            end
  end).

Definition SocketAddr_from_str : bytes → option SocketAddr := parse_all (λ s,
  match read_socket_addr_v4 s with
  | Some r => Some r
  | None => read_socket_addr_v6 s
  end).

(** ** Printing an IPv6 address *)

Definition segments (a : N) : list N :=
  (λ i, a / 65536 ^ (7 - i) mod 65536) <$> [0; 1; 2; 3; 4; 5; 6; 7].

(** The first longest run of zero segments, as start and length. *)
Fixpoint longest_zeros (i : N) (gs : list N) (longest current : N * N) : N * N :=
  match gs with
  | [] => longest
  | g :: gs =>
      if g =? 0 then
        let current := if snd current =? 0 then (i, 1) else (fst current, snd current + 1) in
        longest_zeros (i + 1) gs
          (if snd longest <? snd current then current else longest) current
      else longest_zeros (i + 1) gs longest (0, 0)
  end.

Fixpoint fmt_subslice (gs : list N) : bytes :=
  match gs with
  | [] => []
  | [g] => lower_hex g
  | g :: gs => lower_hex g ++ bs ":" ++ fmt_subslice gs
  end.

Definition Ipv4Addr_to_string (a : N) : bytes :=
  to_decimal (a / 16777216 mod 256) ++ bs "." ++ to_decimal (a / 65536 mod 256) ++ bs "." ++
  to_decimal (a / 256 mod 256) ++ bs "." ++ to_decimal (a mod 256).

(** An IPv4-mapped address prints its IPv4 part in dotted form. *)
Definition Ipv6Addr_to_string (a : N) : bytes :=
  let gs := segments a in
  if a / 2 ^ 32 =? 0xFFFF then bs "::ffff:" ++ Ipv4Addr_to_string (a mod 2 ^ 32)
  else
    let '(start, n) := longest_zeros 0 gs (0, 0) (0, 0) in
    if 1 <? n then
      fmt_subslice (take (N.to_nat start) gs) ++ bs "::" ++
      fmt_subslice (drop (N.to_nat (start + n)) gs)
    else fmt_subslice gs.

Definition IpAddr_to_string (a : IpAddr) : bytes :=
  match a with V4 n => Ipv4Addr_to_string n | V6 n => Ipv6Addr_to_string n end.

(** [SocketAddr] as text, without a scope. *)
Definition SocketAddr_to_string (s : SocketAddr) : bytes :=
  match ip s with
  | V4 n => Ipv4Addr_to_string n ++ bs ":" ++ to_decimal (port s)
  | V6 n => bs "[" ++ Ipv6Addr_to_string n ++ bs "]:" ++ to_decimal (port s)
  end.

Example address_vectors :
  Ipv6Addr_from_str (bs "2001:db8::1") = Some 0x20010db8000000000000000000000001 ∧
  Ipv6Addr_from_str (bs "::") = Some 0 ∧
  Ipv6Addr_from_str (bs "::ffff:1.2.3.4") = Some 0xffff01020304 ∧
  Ipv6Addr_from_str (bs "2a00:15a0::192:") = None ∧
  Ipv6Addr_from_str (bs "1:2:3:4:5:6:7::8") = None ∧
  Ipv6Addr_from_str (bs "1:2:3:4:5:6:7::") = Some 0x00010002000300040005000600070000 ∧
  IpAddr_from_str (bs "198.51.100.53") = Some (V4 0xC6336435) ∧
  IpAddr_from_str (bs "01.2.3.4") = None ∧
  SocketAddr_from_str (bs "[::]:5353") = Some (mkSocketAddr (V6 0) 5353) ∧
  SocketAddr_from_str (bs "1.2.3.4:53") = Some (mkSocketAddr (V4 0x01020304) 53) ∧
  SocketAddr_from_str (bs "1.2.3.4:65536") = None ∧
  Ipv6Addr_to_string 0x20010db8000000000000000000000001 = bs "2001:db8::1" ∧
  Ipv6Addr_to_string 0x2a0015a0000200000000000001920001 = bs "2a00:15a0:2::192:1" ∧
  Ipv6Addr_to_string 0 = bs "::".
Proof. by vm_compute. Qed.

(** ** Bounds of parsed addresses *)

Lemma read_number_bound radix m z mx s n rest :
  read_number radix m z mx s = Some (n, rest) → n <= mx.
Proof.
  unfold read_number. destruct (read_digits _ _ _ _ _) as [[[r c] s']|]; [|done]. simpl.
  destruct (c =? 0); [done|]. destruct (_ && _); [done|].
  destruct (N.leb_spec r mx); [|done]. by intros [= <- <-].
Qed.

Lemma read_separator_Some {A} sep i (inner : reader A) s a rest :
  read_separator sep i inner s = Some (a, rest) → ∃ s', inner s' = Some (a, rest).
Proof.
  unfold read_separator. destruct (0 <? i); [|eauto].
  destruct (read_given_char sep s) as [[[] s']|]; [|done]. simpl. eauto.
Qed.

Lemma read_octets_bound n i acc s a rest :
  read_octets n i acc s = Some (a, rest) →
  a < (acc + 1) * 256 ^ N.of_nat n.
Proof.
  revert i acc s. induction n as [|n IH]; intros i acc s.
  - cbn [read_octets]. intros [= <- <-]. simpl. lia.
  - cbn [read_octets]. destruct (read_separator _ _ _ s) as [[o s']|] eqn:E; [|done].
    cbn [mbind option_bind]. intros H%IH.
    apply read_separator_Some in E as [s'' E]. apply read_number_bound in E.
    unfold u8_MAX in E. change (N.ones 8) with 255 in E.
    rewrite Nat2N.inj_succ, N.pow_succ_r'. nia.
Qed.

Lemma read_groups_spec n i limit s gs v4 rest :
  N.of_nat n + i = limit →
  read_groups n i limit s = (gs, v4, rest) →
  (length gs <= n)%nat ∧ Forall (λ g, g < 65536) gs.
Proof.
  revert i s gs v4 rest. induction n as [|n IH]; intros i s gs v4 rest Hn; cbn [read_groups].
  { by intros [= <- <- <-]. }
  destruct (if i <? limit - 1 then _ else None) as [[a s']|] eqn:E.
  - intros [= <- <- <-]. destruct (N.ltb_spec i (limit - 1)); [|done].
    split; [simpl; lia|].
    apply read_separator_Some in E as [s'' E]. apply read_octets_bound in E.
    simpl in E. repeat constructor; lia.
  - destruct (read_separator _ _ (read_number _ _ _ _) s) as [[g s']|] eqn:Eg.
    + destruct (read_groups n (i + 1) limit s') as [[gs' v4'] s''] eqn:Er.
      intros [= <- <- <-]. apply IH in Er as [Hl Hg]; [|lia].
      split; [simpl; lia|]. constructor; [|done].
      apply read_separator_Some in Eg as [? Eg]. apply read_number_bound in Eg.
      unfold u16_MAX in Eg. change (N.ones 16) with 65535 in Eg. lia.
    + intros [= <- <- <-]. split; [simpl; lia|constructor].
Qed.

Lemma join_groups_bound gs :
  Forall (λ g, g < 65536) gs → join_groups gs < 65536 ^ len gs.
Proof.
  unfold join_groups, len. induction gs as [|g gs IH] using rev_ind; [done|].
  rewrite Forall_app, Forall_singleton. intros [H1 H2].
  rewrite foldl_app, length_app, Nat.add_comm. cbn [foldl length Nat.add].
  rewrite Nat2N.inj_succ, N.pow_succ_r'. specialize (IH H1). lia.
Qed.

Lemma read_ipv6_bound s a rest : read_ipv6_addr s = Some (a, rest) → a < 2 ^ 128.
Proof.
  assert (∀ gs, Forall (λ g, g < 65536) gs → length gs = 8%nat →
    join_groups gs < 2 ^ 128) as Hjoin.
  { intros gs Hgs Hlen%(f_equal N.of_nat). apply join_groups_bound in Hgs.
    unfold len in Hgs. rewrite Hlen in Hgs. exact Hgs. }
  unfold read_ipv6_addr. destruct (read_groups 8 0 8 s) as [[head v4] s1] eqn:Eh.
  apply read_groups_spec in Eh as [Hl Hh]; [|done].
  destruct (N.eqb_spec (len head) 8) as [H8|H8].
  - intros [= <- <-]. apply Hjoin; [done|]. unfold len in H8. lia.
  - destruct v4; [done|]. destruct (read_given_char ":" s1) as [[[] s2]|]; [|done]. simpl.
    destruct (read_given_char ":" s2) as [[[] s3]|]; [|done]. simpl.
    destruct (read_groups _ 0 _ s3) as [[tail v4'] s4] eqn:Et.
    apply read_groups_spec in Et as [Htl Ht]; [|lia]. intros [= <- <-].
    unfold len in *. apply Hjoin.
    + rewrite !Forall_app. split; [done|]. split; [|done]. by apply Forall_replicate.
    + rewrite !length_app, length_replicate. lia.
Qed.

Lemma Ipv6Addr_from_str_bound s a : Ipv6Addr_from_str s = Some a → a < 2 ^ 128.
Proof.
  unfold Ipv6Addr_from_str, parse_all.
  destruct (read_ipv6_addr s) as [[a' [|]]|] eqn:E; try done.
  intros [= <-]. by eapply read_ipv6_bound.
Qed.
