(* ===== verification/Dns.v ===== *)
(** * The DNS library the server is written against

    PanoptiDNS takes its domain names and resource records from the crate
    [hickory-proto], which is not part of the repository.  This file states
    what the repository uses of it: the enumerations whose constructors the
    source names, the operations on [Name] and [Record] as the class [DnsOps],
    and the documented behaviour the source relies on as the class [DnsLaws].
    [LabelName] is a small model of that interface (a name is a list of labels
    and an absolute flag); it shows the laws can hold together, and concrete
    queries are evaluated on it. *)

From S2P Require Import Prelude.

(** ** Enumerations of the library that the source matches on *)

Module RecordType.
Inductive t := A | AAAA | ANY | AXFR | IXFR | NS | PTR | SOA | CNAME | Other (code : N).
#[global] Instance t_eq_dec : EqDecision t.
Proof. solve_decision. Defined.
End RecordType.

Module DNSClass.
Inductive t := IN | CH | HS | NONE | ANY | Other (code : N).
#[global] Instance t_eq_dec : EqDecision t.
Proof. solve_decision. Defined.
End DNSClass.

Module RData.
(** [SOA::new] takes the three interval fields as signed integers, and both
    integer fields around them unsigned. *)
Inductive t (Name : Type) :=
  | PTR (target : Name)
  | AAAA (addr : N)
  | NS (target : Name)
  | SOA (mname rname : Name) (serial refresh retry expire minimum : N)
  | Other (type : RecordType.t) (wire : bytes).
Arguments PTR {Name}.
Arguments AAAA {Name}.
Arguments NS {Name}.
Arguments SOA {Name}.
Arguments Other {Name}.

(** [RData::record_type]. *)
Definition record_type {Name} (d : t Name) : RecordType.t :=
  match d with
  | PTR _ => RecordType.PTR
  | AAAA _ => RecordType.AAAA
  | NS _ => RecordType.NS
  | SOA _ _ _ _ _ _ _ => RecordType.SOA
  | Other ty _ => ty
  end.
End RData.

(** The public fields of a resource record. *)
Record DnsRecord (Name : Type) := mkRecord {
  rec_name : Name;
  rec_class : DNSClass.t;
  rec_ttl : N;
  rec_data : RData.t Name;
}.
Arguments mkRecord {Name}.
Arguments rec_name {Name}.
Arguments rec_class {Name}.
Arguments rec_ttl {Name}.
Arguments rec_data {Name}.

(** ** The operations *)

Class DnsOps := {
  Name : Type;
  ProtoError : Type;
  proto_error_to_string : ProtoError → bytes;
  (** [Name::iter]: the labels, leftmost first. *)
  labels : Name → list bytes;
  (** [Name::num_labels], a [u8]. *)
  num_labels : Name → N;
  (** [Name::from_labels]. *)
  from_labels : list bytes → result Name ProtoError;
  (** [Name::is_fqdn] and [Name::set_fqdn]. *)
  is_fqdn : Name → bool;
  set_fqdn : bool → Name → Name;
  (** [<Name as PartialEq>::eq]. *)
  name_eq : Name → Name → bool;
  (** [Name::zone_of]: [zone_of a n] when [n] is at or below [a]. *)
  zone_of : Name → Name → bool;
  (** [Name::append_label]. *)
  append_label : bytes → Name → result Name ProtoError;
  (** [Name::from_str_relaxed]. *)
  from_str_relaxed : bytes → result Name ProtoError;
  (** [Record::from_rdata(..).into_record_of_rdata()]. *)
  from_rdata : Name → N → RData.t Name → DnsRecord Name;
}.

Abbreviation DName := Name.
Abbreviation DRecord := (DnsRecord Name).

(** ** Their documented behaviour *)

(** The label count of a name discounts a leading wildcard label. *)
Definition label_count_of (ls : list bytes) : N :=
  match ls with
  | l :: ls' => if bool_decide (l = bs "*") then len ls' else len ls
  | [] => 0
  end.

(** RFC 1035: a label holds 1 to 63 bytes, and a name at most 255 bytes on the
    wire (each label and its length byte, and the root). *)
Definition valid_label (l : bytes) : bool := (1 <=? len l) && (len l <=? 63).

Definition wire_len (ls : list bytes) : N :=
  foldr (λ l acc, 1 + len l + acc) 1 ls.

Definition valid_labels (ls : list bytes) : bool :=
  forallb valid_label ls && (wire_len ls <=? 255).

(** Label lists equal up to ASCII case. *)
Definition labels_ci : list bytes → list bytes → Prop := Forall2 ci_eq.

#[export] Instance labels_ci_equiv : Equivalence labels_ci.
Proof.
  unfold labels_ci. split; apply _.
Qed.

(** [suffix_ci a n]: the labels [a] are the last labels of [n], up to case. *)
Definition suffix_ci (a n : list bytes) : Prop :=
  ∃ pre suf, n = pre ++ suf ∧ labels_ci suf a.

Class DnsLaws (D : DnsOps) : Prop := {
  num_labels_spec n : num_labels n = label_count_of (labels n);
  from_labels_labels ls n : from_labels ls = Ok n → labels n = ls;
  from_labels_valid ls : (∃ n, from_labels ls = Ok n) ↔ valid_labels ls = true;
  set_fqdn_labels b n : labels (set_fqdn b n) = labels n;
  set_fqdn_is_fqdn b n : is_fqdn (set_fqdn b n) = b;
  name_eq_spec a b :
    is_fqdn a = true → is_fqdn b = true →
    name_eq a b = true ↔ labels_ci (labels a) (labels b);
  zone_of_spec a n : zone_of a n = true ↔ suffix_ci (labels a) (labels n);
  append_label_labels l n n' :
    append_label l n = Ok n' → labels n' = labels n ++ [l] ∧ is_fqdn n' = is_fqdn n;
  append_label_valid l n :
    (∃ n', append_label l n = Ok n') ↔
    valid_label l = true ∧ wire_len (labels n ++ [l]) <= 255;
  from_rdata_name n t d : rec_name (from_rdata n t d) = n;
  from_rdata_class n t d : rec_class (from_rdata n t d) = DNSClass.IN;
  from_rdata_ttl n t d : rec_ttl (from_rdata n t d) = t;
  from_rdata_data n t d : rec_data (from_rdata n t d) = d;
}.

Create Rewrite HintDb dns.
#[export] Hint Rewrite @set_fqdn_labels @set_fqdn_is_fqdn @from_rdata_name
  @from_rdata_class @from_rdata_ttl @from_rdata_data using typeclasses eauto : dns.

(** ** Facts shared by the components *)

Lemma labels_ci_length a b : labels_ci a b → length a = length b.
Proof. apply Forall2_length. Qed.

Lemma label_count_of_ci a b : labels_ci a b → label_count_of a = label_count_of b.
Proof.
  destruct 1 as [|x y a b Hxy Hab]; [done|]. simpl.
  assert (x = bs "*" ↔ y = bs "*") as Hstar.
  { assert (∀ z w, z ≡ci w → z = bs "*" → w = bs "*") as Hone.
    { intros z w Hzw ->. unfold ci_eq in Hzw. destruct w as [|c [|? ?]]; try done.
      injection Hzw as Hc. f_equal. revert Hc. all_bytes c. }
    split; [by apply Hone|]. by apply Hone. }
  unfold len. rewrite !length_cons, (Forall2_length _ _ _ Hab).
  repeat case_bool_decide; naive_solver.
Qed.

Lemma wire_len_app a b : wire_len (a ++ b) = wire_len a + wire_len b - 1.
Proof.
  induction a as [|l a IH]; simpl; [lia|]. rewrite IH.
  assert (1 <= wire_len b); [|lia]. destruct b; simpl; lia.
Qed.

(** Only the lengths of the labels decide whether a name can be built. *)
Lemma valid_labels_lengths a b :
  Forall2 (λ x y, length x = length y) a b → valid_labels a = valid_labels b.
Proof.
  intros H. unfold valid_labels. f_equal.
  - induction H as [|x y a b Hxy _ IH]; [done|]. simpl. rewrite IH.
    unfold valid_label, len. by rewrite Hxy.
  - f_equal. induction H as [|x y a b Hxy _ IH]; [done|]. simpl. rewrite IH.
    unfold len. by rewrite Hxy.
Qed.

Lemma suffix_ci_refl a : suffix_ci a a.
Proof. exists [], a. done. Qed.

(** ** A model of the interface *)

Module LabelName.
Record t := mk { lbls : list bytes; fqdn : bool }.

#[export] Instance t_eq_dec : EqDecision t.
Proof. solve_decision. Defined.

Definition of_labels (ls : list bytes) : result t bytes :=
  if valid_labels ls then Ok (mk ls true) else Err (bs "label or name too long").

Definition labels_ci_b (a b : list bytes) : bool :=
  bool_decide (to_ascii_lowercase <$> a = to_ascii_lowercase <$> b).

Definition eqb (a b : t) : bool :=
  Bool.eqb (fqdn a) (fqdn b) && labels_ci_b (lbls a) (lbls b).

Definition zone_of (a n : t) : bool :=
  (len (lbls a) <=? len (lbls n)) &&
  labels_ci_b (drop (length (lbls n) - length (lbls a)) (lbls n)) (lbls a).

Definition append (l : bytes) (n : t) : result t bytes :=
  if valid_label l && (wire_len (lbls n ++ [l]) <=? 255)
  then Ok (mk (lbls n ++ [l]) (fqdn n)) else Err (bs "name too long").

(** Dot-separated text, without escapes. *)
Fixpoint split_dots (s : bytes) (acc : bytes) : list bytes :=
  match s with
  | [] => match acc with [] => [] | _ => [rev acc] end
  | c :: s => if bool_decide (c = "."%byte) then rev acc :: split_dots s []
              else split_dots s (c :: acc)
  end.

Definition parse (s : bytes) : result t bytes := of_labels (split_dots s []).

#[export] Instance ops : DnsOps := {
  Name := t;
  ProtoError := bytes;
  proto_error_to_string := λ e, e;
  labels := lbls;
  num_labels := λ n, label_count_of (lbls n);
  from_labels := of_labels;
  is_fqdn := fqdn;
  set_fqdn := λ b n, mk (lbls n) b;
  name_eq := eqb;
  Dns.zone_of := zone_of;
  append_label := append;
  from_str_relaxed := parse;
  from_rdata := λ n t d, mkRecord n DNSClass.IN t d;
}.

Lemma labels_ci_b_spec a b : labels_ci_b a b = true ↔ labels_ci a b.
Proof.
  unfold labels_ci_b. rewrite bool_decide_eq_true. unfold labels_ci. split.
  - revert b. induction a as [|x a IH]; intros [|y b] H; try done.
    injection H as Hx Ha. constructor; [done|]. by apply IH.
  - induction 1 as [|x y a b Hxy _ IH]; [done|]. rewrite !fmap_cons. by f_equal.
Qed.

Lemma zone_of_suffix a n : zone_of a n = true ↔ suffix_ci (lbls a) (lbls n).
Proof.
  unfold zone_of. rewrite andb_true_iff, labels_ci_b_spec, N.leb_le. split.
  - intros [_ H]. eexists _, _. split; [|exact H]. symmetry. apply take_drop.
  - intros (pre & suf & Hn & Hs). pose proof (labels_ci_length _ _ Hs) as Hl.
    rewrite Hn. unfold len. rewrite length_app, Hl. split; [lia|].
    replace (length pre + length (lbls a) - length (lbls a))%nat
      with (length pre) by lia.
    by rewrite drop_app_length.
Qed.

#[export] Instance laws : DnsLaws ops.
Proof.
  split; simpl; try done.
  - intros ls n. unfold of_labels. case_match; [|done]. by intros [= <-].
  - intros ls. unfold of_labels. case_match; split; try done; [eauto|].
    by intros [n ?].
  - intros a b Ha Hb. unfold eqb. rewrite Ha, Hb. simpl. apply labels_ci_b_spec.
  - apply zone_of_suffix.
  - intros l n n'. unfold append. case_match; [|done]. by intros [= <-].
  - intros l n. unfold append. rewrite <- N.leb_le, <- andb_true_iff.
    case_match; split; try done; [eauto|]. by intros [n' ?].
Qed.
End LabelName.
