(* ===== verification/Nibble.v ===== *)
(** * [src/nibble.rs]: addresses, [ip6.arpa] names and host digits

    The pure conversions between a 128-bit address, its [ip6.arpa] name and the
    hexadecimal digits a synthesized host name carries.  The definitions follow
    the source; [nibbles n x], the [n] low nibbles of [x] from the least
    significant up, is the specification both directions are proved against. *)

From S2P Require Import Prelude RustText Dns.

(** ** Definitions *)

Definition ADDR_NIBBLES : N := 32.
Definition PTR_QUERY_LABELS : N := ADDR_NIBBLES + 2.
Definition HEX_LOWER : bytes := bs "0123456789abcdef".

Definition hex_val (b : byte) : option N :=
  if in_range 48 57 b then Some (Byte.to_N b - 48)
  else if in_range 97 102 b then Some (Byte.to_N b - 97 + 10)
  else if in_range 65 70 b then Some (Byte.to_N b - 65 + 10)
  else None.

Definition mask_bits (mask : N) : N :=
  if mask =? 0 then 0
  else if 128 <=? mask then u128_MAX
  else u128_not (u128_shr u128_MAX mask).

(** The loop of [ptr_name_to_addr]: [n] positions from [position] up.  Returns
    the accumulated address and the labels the iterator has left. *)
Fixpoint ptr_digits (n : nat) (position : N) (ls : list bytes) (addr : N)
    : option (N * list bytes) :=
  match n with
  | O => Some (addr, ls)
  | S n =>
      match ls with
      | [digit] :: ls =>
          match hex_val digit with
          | Some value =>
              ptr_digits n (position + 1) ls
                (N.lor addr (u128_shl value (u8_mul position 4)))
          | None => None
          end
      | _ => None
      end
  end.

Section Names.
Context {D : DnsOps}.

Definition ptr_name_to_addr (name : DName) : option N :=
  if negb (num_labels name =? PTR_QUERY_LABELS) then None else
  match ptr_digits (N.to_nat ADDR_NIBBLES) 0 (labels name) 0 with
  | None => None
  | Some (addr, ls) =>
      match ls with
      | [] => None
      | l :: ls =>
          if negb (eq_ignore_ascii_case l (bs "ip6")) then None else
          match ls with
          | [] => None
          | l :: _ =>
              if negb (eq_ignore_ascii_case l (bs "arpa")) then None
              else Some addr
          end
      end
  end.

Definition netmask_to_ptr_name (prefix mask : N) : option DName :=
  if (128 <? mask) || negb (is_multiple_of mask 4) then None else
  let ptr_nibbles := mask / 4 in
  digits ← mapM (λ position,
             let nibble := N.land (u128_shr prefix (u8_mul position 4)) 0xF in
             digit ← HEX_LOWER !! N.to_nat nibble;
             Some [digit])
           (range (u8_sub ADDR_NIBBLES ptr_nibbles) ADDR_NIBBLES);
  name ← result_ok (from_labels (digits ++ [bs "ip6"; bs "arpa"]));
  Some (set_fqdn true name).
End Names.

Definition host_digits (addr host_nibbles : N) : option bytes :=
  if ADDR_NIBBLES <? host_nibbles then None else
  let width := host_nibbles in
  if width =? 0 then Some [] else
  let host := N.land addr
                (u128_not (mask_bits (u8_sub 128 (u8_mul host_nibbles 4)))) in
  Some (lower_hex_padded width host).

(** The loop of [digits_to_host]. *)
Fixpoint host_loop (digits : bytes) (host : N) : option N :=
  match digits with
  | [] => Some host
  | byte :: digits =>
      match hex_val byte with
      | Some value => host_loop digits (N.lor (u128_shl host 4) value)
      | None => None
      end
  end.

Definition digits_to_host (digits : bytes) (host_nibbles : N) : option N :=
  if negb (len digits =? host_nibbles) then None else host_loop digits 0.

(** [<[T]>::chunks(4)]. *)
Fixpoint chunks4 (s : bytes) : list bytes :=
  match s with
  | [] => []
  | a :: b :: c :: d :: s => [a; b; c; d] :: chunks4 s
  | _ => [s]
  end.

(** The loop of [dash_group], over [bytes.chunks(4).enumerate()]. *)
Fixpoint dash_loop (i : N) (chunks : list bytes) (out : bytes) : bytes :=
  match chunks with
  | [] => out
  | chunk :: chunks =>
      let out := if 0 <? i then out ++ bs "-" else out in
      dash_loop (i + 1) chunks (out ++ default [] (from_utf8 chunk))
  end.

Definition dash_group (digits : bytes) : bytes := dash_loop 0 (chunks4 digits) [].

(** The loop of [undash_group]: [n] groups from group [g] up. *)
Fixpoint undash_loop (n : nat) (g groups : N) (input out : bytes) : option bytes :=
  match n with
  | O => if bool_decide (input = []) then Some out else None
  | S n =>
      '(chunk, rest) ← split_at_checked input 4;
      let out := out ++ chunk in
      if g + 1 <? groups then
        '(dash, rest) ← split_at_checked rest 1;
        if bool_decide (dash ≠ bs "-") then None
        else undash_loop n (g + 1) groups rest out
      else undash_loop n (g + 1) groups rest out
  end.

Definition undash_group (input : bytes) (host_nibbles : N) : option bytes :=
  let groups := host_nibbles / 4 in
  if groups =? 0 then None
  else undash_loop (N.to_nat groups) 0 groups input [].

(** ** Specification vocabulary *)

(** The [n] low nibbles of [x], least significant first. *)
Fixpoint nibbles (n : nat) (x : N) : list N :=
  match n with
  | O => []
  | S n => x mod 16 :: nibbles n (x / 16)
  end.

(** One label per nibble. *)
Definition nibble_labels (n : nat) (x : N) : list bytes :=
  (λ v, [hex_digit v]) <$> nibbles n x.

(** The labels of the [ip6.arpa] name of an address, and of a delegated prefix
    given by its [k] leading nibbles. *)
Definition arpa_suffix : list bytes := [bs "ip6"; bs "arpa"].
Definition addr_labels (a : N) : list bytes := nibble_labels 32 a ++ arpa_suffix.
Definition zone_labels (k : N) (prefix : N) : list bytes :=
  nibble_labels (N.to_nat k) (prefix / 16 ^ (32 - k)) ++ arpa_suffix.

(** The host part of [a] in [n] digits, most significant first. *)
Definition host_text (n : nat) (a : N) : bytes :=
  hex_digit <$> rev (nibbles n a).

(** Groups joined by dashes. *)
Fixpoint join_dashes (groups : list bytes) : bytes :=
  match groups with
  | [] => []
  | [g] => g
  | g :: groups => g ++ bs "-" ++ join_dashes groups
  end.

(** ** Nibbles and hexadecimal digits *)

Lemma hex_val_digit v : v < 16 → hex_val (hex_digit v) = Some v.
Proof.
  intros Hv. rewrite <- (N2Nat.id v) in *. revert Hv. generalize (N.to_nat v).
  intros n Hn. do 16 (destruct n as [|n]; [done|]). lia.
Qed.

Lemma hex_val_Some b v :
  hex_val b = Some v ↔ v < 16 ∧ lower_byte b = hex_digit v.
Proof.
  split.
  - destruct b; try discriminate; intros [= <-]; by vm_compute.
  - intros [Hv Hb]. assert (hex_val (lower_byte b) = Some v) as H.
    { rewrite Hb. by apply hex_val_digit. }
    revert H. clear. all_bytes b; done.
Qed.

Lemma hex_digit_inj v w : v < 16 → w < 16 → hex_digit v = hex_digit w → v = w.
Proof.
  intros Hv Hw H. apply hex_val_digit in Hv, Hw. congruence.
Qed.

Lemma hex_digit_lower v : v < 16 → lower_byte (hex_digit v) = hex_digit v.
Proof.
  intros Hv. pose proof (proj1 (hex_val_Some _ _) (hex_val_digit v Hv)). tauto.
Qed.

Lemma length_nibbles n x : length (nibbles n x) = n.
Proof. revert x. induction n; intros x; simpl; auto. Qed.

Lemma nibbles_lt n x : Forall (λ v, v < 16) (nibbles n x).
Proof.
  revert x. induction n as [|n IH]; intros x; simpl; constructor; [|apply IH].
  by apply N.mod_lt.
Qed.

Lemma nibbles_app m n x : nibbles (m + n) x = nibbles m x ++ nibbles n (x / 16 ^ N.of_nat m).
Proof.
  revert x. induction m as [|m IH]; intros x.
  - simpl. by rewrite N.div_1_r.
  - simpl nibbles. rewrite IH, Nat2N.inj_succ, N.pow_succ_r', N.Div0.div_div. done.
Qed.

Lemma nibbles_mod n x : nibbles n (x mod 16 ^ N.of_nat n) = nibbles n x.
Proof.
  revert x. induction n as [|n IH]; intros x; [done|]. simpl nibbles.
  rewrite Nat2N.inj_succ, N.pow_succ_r', N.Div0.mod_mul_r by done.
  f_equal.
  - rewrite (N.mul_comm 16), N.Div0.mod_add. apply N.Div0.mod_mod.
  - rewrite (N.mul_comm 16), N.div_add, (N.div_small (x mod 16)), N.add_0_l, IH; try done.
    by apply N.mod_lt.
Qed.

(** Bounded numbers are determined by their nibbles. *)
Lemma nibbles_inj n x y :
  x < 16 ^ N.of_nat n → y < 16 ^ N.of_nat n → nibbles n x = nibbles n y → x = y.
Proof.
  revert x y. induction n as [|n IH]; intros x y; [simpl; lia|].
  rewrite Nat2N.inj_succ, N.pow_succ_r'. intros Hx Hy [= H1 H2].
  rewrite (N.div_mod' x 16), (N.div_mod' y 16), H1. f_equal. f_equal.
  apply IH; try done; by apply N.Div0.div_lt_upper_bound.
Qed.

(** Case-insensitive equality with lowercase nibble labels is the decoding of
    the digits. *)
Lemma hex_labels_ci_inj vs ws :
  Forall (λ v, v < 16) vs → Forall (λ v, v < 16) ws →
  labels_ci ((λ v, [hex_digit v]) <$> vs) ((λ v, [hex_digit v]) <$> ws) → vs = ws.
Proof.
  intros Hv. revert ws. induction Hv as [|v vs Hv _ IH]; intros ws Hw H.
  - apply Forall2_length in H. destruct ws; [done|]. by rewrite length_fmap in H.
  - destruct Hw as [|w ws Hw Hws]; [by apply Forall2_length in H|].
    apply Forall2_cons in H as [Hc H]. unfold ci_eq in Hc. simpl in Hc.
    injection Hc as Hc. rewrite !hex_digit_lower in Hc by done.
    f_equal; [by apply hex_digit_inj|]. by apply IH.
Qed.

Lemma nibble_labels_ci_inj n x y :
  x < 16 ^ N.of_nat n → y < 16 ^ N.of_nat n →
  labels_ci (nibble_labels n x) (nibble_labels n y) → x = y.
Proof.
  intros Hx Hy H. apply (nibbles_inj n); [done..|].
  apply hex_labels_ci_inj; auto using nibbles_lt.
Qed.

Lemma length_nibble_labels n x : length (nibble_labels n x) = n.
Proof. unfold nibble_labels. by rewrite length_fmap, length_nibbles. Qed.

(** ** Masks *)

Lemma mask_bits_bits m i :
  m <= 128 → N.testbit (mask_bits m) i = (128 - m <=? i) && (i <? 128).
Proof.
  intros Hm. unfold mask_bits.
  destruct (N.eqb_spec m 0) as [->|]; [|destruct (N.leb_spec 128 m)].
  - rewrite N.bits_0. bit_cases; simpl; try done; lia.
  - unfold u128_MAX. autorewrite with bits. bit_cases; simpl; try done; lia.
  - unfold u128_not, u128_shr, u128_MAX. autorewrite with bits.
    bit_cases; simpl; try done; lia.
Qed.

Lemma host_mask m : m <= 128 → u128_not (mask_bits m) = N.ones (128 - m).
Proof.
  intros Hm. apply N.bits_inj. intros i. unfold u128_not.
  rewrite lnot_bits, ones_bits, mask_bits_bits by done.
  bit_cases; simpl; try done; lia.
Qed.

(** Masking keeps the part of the address above the host bits. *)
Lemma land_mask_bits a m :
  m <= 128 → a < 2 ^ 128 →
  N.land a (mask_bits m) = N.shiftl (N.shiftr a (128 - m)) (128 - m).
Proof.
  intros Hm Ha. apply N.bits_inj. intros i.
  rewrite N.land_spec, mask_bits_bits, shiftl_bits, shiftr_bits by done.
  destruct (N.leb_spec (128 - m) i); simpl; [|by rewrite andb_false_r].
  rewrite N.sub_add by done. destruct (N.ltb_spec i 128); [by rewrite andb_true_r|].
  by rewrite (bits_above a 128).
Qed.

Lemma same_network_div a p m :
  m <= 128 → a < 2 ^ 128 → p < 2 ^ 128 →
  N.land a (mask_bits m) = N.land p (mask_bits m) ↔
  a / 2 ^ (128 - m) = p / 2 ^ (128 - m).
Proof.
  intros Hm Ha Hp. rewrite !land_mask_bits, <- !N.shiftr_div_pow2 by done.
  split; [|by intros ->]. intros H%(f_equal (λ x, N.shiftr x (128 - m))).
  by rewrite !N.shiftr_shiftl_r, N.sub_diag, !N.shiftr_0_r in H by done.
Qed.

Lemma land_mask_lt a m : m <= 128 → N.land a (mask_bits m) < 2 ^ 128.
Proof.
  intros Hm. apply lt_pow2_bits. intros i Hi.
  rewrite N.land_spec, mask_bits_bits by done.
  rewrite (proj2 (N.ltb_ge i 128)) by done. by rewrite !andb_false_r.
Qed.

Lemma land_mask_idemp a m :
  N.land (N.land a (mask_bits m)) (mask_bits m) = N.land a (mask_bits m).
Proof. by rewrite <- N.land_assoc, N.land_diag. Qed.

(** A masked prefix and a host part below it do not overlap: OR-ing them keeps
    both, which is what rebuilds an address from a network and its digits. *)
Lemma prefix_lor_host p h m :
  m <= 128 → h < 2 ^ (128 - m) → N.land p (mask_bits m) = p →
  N.lor p h < 2 ^ 128 ∧ N.land (N.lor p h) (mask_bits m) = p ∧
  N.lor p h mod 2 ^ (128 - m) = h.
Proof.
  intros Hm Hh Hp. repeat split.
  - apply lt_pow2_bits. intros i Hi. rewrite N.lor_spec.
    rewrite (bits_above h (128 - m)), orb_false_r by (try done; lia).
    rewrite <- Hp. apply (bits_above _ 128); [by apply land_mask_lt|done].
  - rewrite <- Hp at 2. apply N.bits_inj. intros i.
    rewrite !N.land_spec, N.lor_spec, mask_bits_bits by done.
    destruct (N.leb_spec (128 - m) i); simpl; [|by rewrite !andb_false_r].
    by rewrite (bits_above h (128 - m)), orb_false_r by done.
  - rewrite <- N.land_ones. rewrite <- Hp. apply N.bits_inj. intros i.
    rewrite N.land_spec, N.lor_spec, N.land_spec, mask_bits_bits, ones_bits by done.
    destruct (N.ltb_spec i (128 - m)).
    + rewrite (proj2 (N.leb_gt _ _)) by done. simpl.
      by rewrite andb_false_r, andb_true_r.
    + rewrite andb_false_r. by rewrite (bits_above h (128 - m)).
Qed.

(** Conversely every address of a network is its prefix OR its host part. *)
Lemma lor_prefix_host a m :
  m <= 128 → a < 2 ^ 128 →
  N.lor (N.land a (mask_bits m)) (a mod 2 ^ (128 - m)) = a.
Proof.
  intros Hm Ha. rewrite <- N.land_ones. apply N.bits_inj. intros i.
  rewrite N.lor_spec, !N.land_spec, mask_bits_bits, ones_bits by done.
  destruct (N.testbit a i) eqn:E; [|done]. simpl.
  destruct (N.ltb_spec i (128 - m)); [by rewrite orb_true_r|].
  rewrite (proj2 (N.leb_le _ _)) by done.
  destruct (N.ltb_spec i 128); [done|]. by rewrite (bits_above a 128) in E.
Qed.

Lemma pow16 n : 16 ^ n = 2 ^ (4 * n).
Proof. by rewrite N.pow_mul_r. Qed.

(** ** Parsing the nibble labels *)

Lemma position_shift p : p < 32 → u8_mul p 4 = 4 * p.
Proof. intros Hp. unfold u8_mul. rewrite wrap_small; lia. Qed.

Lemma lor_nibble y v : v < 16 → N.lor (N.shiftl y 4) v = 16 * y + v.
Proof.
  intros Hv. assert (N.land (N.shiftl y 4) v = 0) as H0.
  { apply N.bits_inj. intros i. rewrite N.land_spec, shiftl_bits, N.bits_0.
    destruct (N.leb_spec 4 i); [|done]. rewrite (bits_above v 4) by done.
    by rewrite andb_false_r. }
  rewrite <- N.lxor_lor, <- N.add_nocarry_lxor by done.
  by rewrite N.shiftl_mul_pow2, (N.mul_comm 16).
Qed.

(** One step of the loop: the nibble at [p] goes below the nibbles above it. *)
Lemma ptr_acc addr p v y :
  p < 32 → v < 16 →
  N.lor (N.lor addr (u128_shl v (u8_mul p 4))) (N.shiftl y (4 * (p + 1))) =
  N.lor addr (N.shiftl (16 * y + v) (4 * p)).
Proof.
  intros Hp Hv. rewrite <- N.lor_assoc. f_equal.
  rewrite position_shift by done. unfold u128_shl. rewrite wrap_small.
  - replace (4 * (p + 1)) with (4 + 4 * p) by lia.
    by rewrite <- N.shiftl_shiftl, <- N.shiftl_lor, N.lor_comm, lor_nibble.
  - rewrite N.shiftl_mul_pow2. apply N.lt_le_trans with (2 ^ (4 + 4 * p)).
    + rewrite N.pow_add_r. apply N.mul_lt_mono_pos_r; [|done].
      apply N.neq_0_lt_0. by apply N.pow_nonzero.
    + apply N.pow_le_mono_r; lia.
Qed.

Lemma div_mod_nibble y v : v < 16 → (16 * y + v) mod 16 = v ∧ (16 * y + v) / 16 = y.
Proof.
  intros Hv. rewrite (N.mul_comm 16). split.
  - by rewrite N.add_comm, N.Div0.mod_add, N.mod_small.
  - by rewrite N.div_add_l, (N.div_small v), N.add_0_r.
Qed.

Lemma nibble_label_ci digit v :
  v < 16 → [digit] ≡ci [hex_digit v] ↔ hex_val digit = Some v.
Proof.
  intros Hv. rewrite hex_val_Some. unfold ci_eq. simpl.
  rewrite hex_digit_lower by done. split; [by intros [= ->]|]. by intros [_ ->].
Qed.

Lemma ptr_digits_sound n p ls addr r rest :
  p + N.of_nat n <= 32 → ptr_digits n p ls addr = Some (r, rest) →
  ∃ ds x, ls = ds ++ rest ∧ x < 16 ^ N.of_nat n ∧
          labels_ci ds (nibble_labels n x) ∧
          r = N.lor addr (N.shiftl x (4 * p)).
Proof.
  revert p ls addr. induction n as [|n IH]; intros p ls addr Hp; simpl.
  { intros [= -> ->]. exists [], 0. rewrite N.shiftl_0_l, N.lor_0_r.
    split; [done|]. split; [done|]. by split; [constructor|]. }
  rewrite Nat2N.inj_succ, N.pow_succ_r'.
  destruct ls as [|[|digit [|]] ls]; try done.
  destruct (hex_val digit) as [v|] eqn:Hd; [|done].
  pose proof (proj1 (hex_val_Some _ _) Hd) as [Hv _]. intros H.
  apply IH in H as (ds & y & -> & Hy & Hds & ->); [|lia].
  exists ([digit] :: ds), (16 * y + v).
  destruct (div_mod_nibble y v Hv) as [Hm Hq]. split; [done|]. split; [lia|].
  split; [|apply ptr_acc; lia].
  unfold nibble_labels. simpl. rewrite Hm, Hq. constructor; [|done].
  by apply nibble_label_ci.
Qed.

Lemma ptr_digits_complete n p ds rest addr x :
  p + N.of_nat n <= 32 → labels_ci ds (nibble_labels n x) →
  x < 16 ^ N.of_nat n →
  ptr_digits n p (ds ++ rest) addr = Some (N.lor addr (N.shiftl x (4 * p)), rest).
Proof.
  revert p ds addr x. induction n as [|n IH]; intros p ds addr x Hp Hds Hx; simpl.
  { apply labels_ci_length in Hds. destruct ds; [|done]. assert (x = 0) as -> by lia.
    by rewrite N.shiftl_0_l, N.lor_0_r. }
  rewrite Nat2N.inj_succ, N.pow_succ_r' in Hx.
  apply Forall2_cons_inv_r in Hds as (l & ds' & Hl & Hds & ->).
  assert (x mod 16 < 16) as Hv by by apply N.mod_lt.
  pose proof (ci_eq_length _ _ Hl) as Hlen. destruct l as [|digit [|]]; try done.
  simpl. apply nibble_label_ci in Hl as ->; [|done].
  rewrite (IH _ _ _ (x / 16)); [|lia|done|by apply N.Div0.div_lt_upper_bound].
  by rewrite ptr_acc, <- N.div_mod' by (done || lia).
Qed.

(** ** Names of addresses and of networks *)

Lemma hex_digit_not_star v : v < 16 → [hex_digit v] ≠ bs "*".
Proof. intros Hv [= H]. apply hex_val_digit in Hv. by rewrite H in Hv. Qed.

Lemma label_count_addr a : label_count_of (addr_labels a) = PTR_QUERY_LABELS.
Proof.
  unfold addr_labels, label_count_of, nibble_labels. simpl.
  rewrite bool_decide_eq_false_2; [done|]. apply hex_digit_not_star. by apply N.mod_lt.
Qed.

Lemma hex_lower_lookup v : v < 16 → HEX_LOWER !! N.to_nat v = Some (hex_digit v).
Proof.
  intros Hv. rewrite <- (N2Nat.id v) in *. rewrite Nat2N.id.
  revert Hv. generalize (N.to_nat v). intros n Hn.
  do 16 (destruct n as [|n]; [done|]). lia.
Qed.

Lemma shr_nibble x p : p < 32 → N.land (u128_shr x (u8_mul p 4)) 0xF = (x / 16 ^ p) mod 16.
Proof.
  intros Hp. unfold u128_shr. rewrite position_shift by done.
  change 0xF with (N.ones 4). by rewrite N.land_ones, N.shiftr_div_pow2, <- pow16.
Qed.

Lemma nibble_digits_mapM x n lo :
  lo + N.of_nat n <= 32 →
  mapM (λ position,
      let nibble := N.land (u128_shr x (u8_mul position 4)) 0xF in
      digit ← HEX_LOWER !! N.to_nat nibble; Some [digit])
    (count_from lo n) = Some (nibble_labels n (x / 16 ^ lo)).
Proof.
  revert lo. induction n as [|n IH]; intros lo Hlo; [done|]. simpl.
  rewrite shr_nibble, hex_lower_lookup by (try lia; by apply N.mod_lt). simpl.
  rewrite IH by lia. simpl. unfold nibble_labels at 2. simpl.
  by rewrite N.pow_add_r, N.pow_1_r, <- N.Div0.div_div.
Qed.

Lemma valid_zone_labels k x : (k <= 32)%nat → valid_labels (nibble_labels k x ++ arpa_suffix) = true.
Proof.
  intros Hk.
  rewrite (valid_labels_lengths _ (replicate k [x00] ++ arpa_suffix)).
  - do 33 (destruct k as [|k]; [by vm_compute|]). lia.
  - apply Forall2_app; [|by repeat constructor].
    unfold nibble_labels. generalize (length_nibbles k x).
    generalize (nibbles k x). intros vs <-. clear Hk.
    induction vs; simpl; [constructor|by constructor].
Qed.

Lemma zone_labels_128 a : zone_labels 32 a = addr_labels a.
Proof. unfold zone_labels, addr_labels. simpl (16 ^ _). by rewrite N.div_1_r. Qed.

(** Delegation by labels is equality of the network parts. *)
Lemma zone_labels_suffix mask a p ls :
  mask <= 128 → mask mod 4 = 0 → a < 2 ^ 128 → p < 2 ^ 128 →
  labels_ci ls (addr_labels a) →
  suffix_ci (zone_labels (mask / 4) p) ls ↔
  a / 2 ^ (128 - mask) = p / 2 ^ (128 - mask).
Proof.
  intros Hm H4 Ha Hp Hls. set (k := mask / 4).
  assert (k <= 32) as Hk by (unfold k; lia).
  replace (2 ^ (128 - mask)) with (16 ^ (32 - k)) by (rewrite pow16; f_equal; unfold k; lia).
  set (low := nibble_labels (N.to_nat (32 - k)) a).
  assert (addr_labels a = low ++ zone_labels k a) as Hsplit.
  { unfold addr_labels, zone_labels, low, nibble_labels.
    rewrite app_assoc, <- fmap_app. do 2 f_equal.
    replace 32%nat with (N.to_nat (32 - k) + N.to_nat k)%nat by lia.
    by rewrite nibbles_app, N2Nat.id. }
  assert (∀ x, x < 2 ^ 128 → x / 16 ^ (32 - k) < 16 ^ N.of_nat (N.to_nat k)) as Hlt.
  { intros x Hx. apply N.Div0.div_lt_upper_bound. rewrite N2Nat.id, <- N.pow_add_r.
    by replace (32 - k + k) with 32 by lia. }
  rewrite Hsplit in Hls. split.
  - intros (pre & suf & -> & Hs). apply (nibble_labels_ci_inj (N.to_nat k)); auto.
    assert (labels_ci pre low ∧ labels_ci suf (zone_labels k a)) as [_ Hz].
    { apply Forall2_app_inv; [|done]. apply labels_ci_length in Hs, Hls.
      unfold zone_labels in *. rewrite !length_app, !length_nibble_labels in *. lia. }
    assert (labels_ci (zone_labels k a) (zone_labels k p)) as H by by rewrite <- Hz.
    apply Forall2_app_inv in H as [H _]; [done|]. by rewrite !length_nibble_labels.
  - intros E. apply Forall2_app_inv_r in Hls as (pre & suf & _ & Hs & ->).
    exists pre, suf. split; [done|]. unfold zone_labels in *. by rewrite <- E.
Qed.

Lemma label_count_zone k p : label_count_of (zone_labels k p) = k + 2.
Proof.
  unfold zone_labels, label_count_of, nibble_labels, len.
  destruct (N.to_nat k) as [|n] eqn:E.
  - assert (k = 0) as -> by lia. done.
  - cbn [nibbles fmap list_fmap app]. rewrite bool_decide_eq_false_2.
    + cbn [length]. rewrite length_app, length_fmap, length_nibbles. simpl length. lia.
    + apply hex_digit_not_star. by apply N.mod_lt.
Qed.

Section NameLemmas.
Context {D : DnsOps} {L : DnsLaws D}.

Lemma netmask_to_ptr_name_valid prefix mask :
  mask <= 128 → mask mod 4 = 0 →
  ∃ n, netmask_to_ptr_name prefix mask = Some n ∧
       labels n = zone_labels (mask / 4) prefix ∧ is_fqdn n = true.
Proof.
  intros Hm H4. unfold netmask_to_ptr_name, is_multiple_of.
  rewrite (proj2 (N.ltb_ge 128 mask)) by done. simpl. rewrite H4. simpl.
  assert (mask / 4 <= 32) as Hk
    by (apply (N.Div0.div_le_mono mask 128 4 Hm)).
  assert (u8_sub ADDR_NIBBLES (mask / 4) = 32 - mask / 4) as ->.
  { unfold u8_sub, ADDR_NIBBLES, wrap.
    change (2 ^ 8) with 256.
    replace (256 + 32 - mask / 4) with (32 - mask / 4 + 1 * 256) by lia.
    rewrite N.Div0.mod_add. apply N.mod_small. lia. }
  unfold range, ADDR_NIBBLES.
  replace (32 - (32 - mask / 4)) with (mask / 4) by lia.
  rewrite nibble_digits_mapM by lia. simpl.
  destruct (proj2 (from_labels_valid (zone_labels (mask / 4) prefix))) as [n Hn].
  { apply valid_zone_labels. lia. }
  fold arpa_suffix. fold (zone_labels (mask / 4) prefix). rewrite Hn. simpl.
  exists (set_fqdn true n). autorewrite with dns.
  by rewrite (from_labels_labels _ _ Hn).
Qed.

Lemma netmask_to_ptr_name_None prefix mask :
  netmask_to_ptr_name prefix mask = None ↔ 128 < mask ∨ mask mod 4 ≠ 0.
Proof.
  destruct (decide (mask <= 128)) as [Hm|Hm]; [destruct (decide (mask mod 4 = 0)) as [H4|H4]|].
  - destruct (netmask_to_ptr_name_valid prefix mask) as (n & -> & _); [done..|].
    split; [done|]. lia.
  - unfold netmask_to_ptr_name, is_multiple_of. simpl.
    rewrite (proj2 (N.eqb_neq _ _)) by done. rewrite orb_true_r. split; auto.
  - unfold netmask_to_ptr_name. rewrite (proj2 (N.ltb_lt _ _)) by lia. split; auto. lia.
Qed.

Lemma ptr_name_to_addr_Some n a :
  ptr_name_to_addr n = Some a ↔ a < 2 ^ 128 ∧ labels_ci (labels n) (addr_labels a).
Proof.
  unfold ptr_name_to_addr. rewrite num_labels_spec. split.
  - destruct (N.eqb_spec (label_count_of (labels n)) PTR_QUERY_LABELS) as [Hc|]; [|done].
    simpl negb. cbv iota.
    destruct (ptr_digits _ 0 (labels n) 0) as [[x ls]|] eqn:E; [|done].
    apply ptr_digits_sound in E as (ds & x' & Hl & Hx & Hds & ->); [|done].
    rewrite N.lor_0_l, N.mul_0_r, N.shiftl_0_r in *.
    destruct ls as [|l1 ls]; [done|]. destruct (eq_ignore_ascii_case l1 _) eqn:E1; [|done].
    destruct ls as [|l2 ls]; [done|]. destruct (eq_ignore_ascii_case l2 _) eqn:E2; [|done].
    simpl. intros [= ->]. split; [done|]. apply eq_ignore_ascii_case_spec in E1, E2.
    assert (labels_ci (ds ++ [l1; l2]) (addr_labels a)) as Hci
      by (apply Forall2_app; [done|]; by repeat constructor).
    enough (ls = []) as -> by by rewrite Hl.
    assert (label_count_of (labels n) = 34 + len ls) as Hlen; [|destruct ls; [done|];
      rewrite Hc, len_cons in Hlen; unfold PTR_QUERY_LABELS, ADDR_NIBBLES in Hlen; lia].
    rewrite Hl. replace (ds ++ l1 :: l2 :: ls) with ((ds ++ [l1; l2]) ++ ls)
      by by rewrite <- app_assoc.
    rewrite (label_count_of_ci _ (addr_labels a ++ ls)) by by apply Forall2_app.
    unfold addr_labels, nibble_labels. simpl. rewrite bool_decide_eq_false_2.
    + unfold len. simpl length. lia.
    + apply hex_digit_not_star. by apply N.mod_lt.
  - intros [Ha Hci]. rewrite (label_count_of_ci _ _ Hci), label_count_addr.
    simpl negb. cbv iota. apply Forall2_app_inv_r in Hci as (ds & suf & Hds & Hsuf & ->).
    rewrite (ptr_digits_complete _ _ _ _ _ a) by done.
    rewrite N.lor_0_l, N.mul_0_r, N.shiftl_0_r.
    apply Forall2_cons_inv_r in Hsuf as (l1 & suf' & H1 & Hsuf & ->).
    apply Forall2_cons_inv_r in Hsuf as (l2 & suf'' & H2 & Hsuf & ->).
    by rewrite (proj2 (eq_ignore_ascii_case_spec _ _) H1),
      (proj2 (eq_ignore_ascii_case_spec _ _) H2).
Qed.
End NameLemmas.

(** ** Host digits *)

Lemma lower_hex_digits w fuel x :
  (w <= fuel)%nat → (1 <= w)%nat → x < 16 ^ N.of_nat w →
  let d := digits_rev fuel 16 x in
  d ++ replicate (w - length d) 0 = nibbles w x ∧ (length d <= w)%nat.
Proof.
  revert fuel x. induction w as [|w IH]; intros fuel x Hf Hw Hx; [lia|].
  destruct fuel as [|fuel]; [lia|]. rewrite Nat2N.inj_succ, N.pow_succ_r' in Hx.
  cbn [digits_rev nibbles]. destruct (N.ltb_spec x 16) as [Hs|Hs].
  - simpl. rewrite (N.div_small x) by done. split; [|lia]. f_equal.
    rewrite Nat.sub_0_r. clear. induction w; [done|]. simpl. by f_equal.
  - destruct w as [|w]; [simpl in Hx; lia|].
    destruct (IH fuel (x / 16)) as [IH1 IH2]; [lia..| |].
    { by apply N.Div0.div_lt_upper_bound. }
    simpl. split; [|simpl in IH2; lia]. f_equal. exact IH1.
Qed.

Lemma lower_hex_padded_text w x :
  (1 <= w <= 32)%nat → x < 16 ^ N.of_nat w →
  lower_hex_padded (N.of_nat w) x = host_text w x.
Proof.
  intros Hw Hx. destruct (lower_hex_digits w 32 x) as [H1 H2]; [lia..|done|].
  unfold lower_hex_padded, lower_hex, host_text, len.
  rewrite length_fmap, length_rev.
  replace (N.to_nat _) with (w - length (digits_rev 32 16 x))%nat by lia.
  rewrite <- H1, rev_app_distr, fmap_app. f_equal.
  generalize (w - length (digits_rev 32 16 x))%nat. clear. intros n.
  induction n as [|n IH]; [done|]. cbn [replicate rev]. rewrite fmap_app, <- IH.
  exact (replicate_S_end n "0"%byte).
Qed.

Lemma length_host_text n a : length (host_text n a) = n.
Proof. unfold host_text. by rewrite length_fmap, length_rev, length_nibbles. Qed.

Lemma host_text_mod n a : host_text n (a mod 16 ^ N.of_nat n) = host_text n a.
Proof. unfold host_text. by rewrite nibbles_mod. Qed.

Lemma host_text_lower n a : to_ascii_lowercase (host_text n a) = host_text n a.
Proof.
  unfold host_text, to_ascii_lowercase. rewrite <- list_fmap_compose.
  apply Forall_fmap_ext_1, Forall_rev. eapply Forall_impl; [apply nibbles_lt|].
  intros v Hv. by apply hex_digit_lower.
Qed.

Lemma host_text_ascii n a : Forall (λ b, is_ascii b = true) (host_text n a).
Proof.
  unfold host_text. apply Forall_fmap, Forall_rev.
  eapply Forall_impl; [apply nibbles_lt|]. intros v. apply hex_digit_ascii.
Qed.

Lemma host_loop_snoc s c h :
  host_loop (s ++ [c]) h =
  (x ← host_loop s h; v ← hex_val c; Some (N.lor (u128_shl x 4) v)).
Proof.
  revert h. induction s as [|b s IH]; intros h; simpl.
  - by destruct (hex_val c).
  - destruct (hex_val b); [|done]. apply IH.
Qed.

Lemma host_step x v n :
  n < 32 → x < 16 ^ n → v < 16 → N.lor (u128_shl x 4) v = 16 * x + v.
Proof.
  intros Hn Hx Hv. unfold u128_shl. rewrite wrap_small; [by apply lor_nibble|].
  rewrite N.shiftl_mul_pow2. change (2 ^ 4) with 16.
  apply N.lt_le_trans with (16 ^ N.succ n); [rewrite N.pow_succ_r'; lia|].
  change (2 ^ 128) with (16 ^ 32). apply N.pow_le_mono_r; lia.
Qed.

(** The digit loop decodes exactly the case variants of [host_text]. *)
Lemma host_loop_Some s h :
  (length s <= 32)%nat →
  host_loop s 0 = Some h ↔
  h < 16 ^ len s ∧ to_ascii_lowercase s = host_text (length s) h.
Proof.
  unfold len. revert h. induction s as [|c s IH] using rev_ind; intros h Hs.
  { simpl. split; [intros [= <-]; done|]. intros [? _]. f_equal. lia. }
  rewrite host_loop_snoc, length_app, Nat.add_comm in *. cbn [length Nat.add] in *.
  rewrite Nat2N.inj_succ, N.pow_succ_r', to_ascii_lowercase_app.
  unfold host_text in *. cbn [nibbles rev]. rewrite fmap_app. simpl. split.
  - destruct (host_loop s 0) as [x|] eqn:E; [|done]. simpl.
    destruct (hex_val c) as [v|] eqn:Ec; [|done]. intros [= <-].
    destruct (proj1 (IH x ltac:(lia)) eq_refl) as [Hx Htx]. apply hex_val_Some in Ec as [Hv Hc].
    rewrite (host_step x v (N.of_nat (length s))) by (done || lia).
    destruct (div_mod_nibble x v Hv) as [-> ->]. split; [lia|].
    by rewrite Htx, Hc.
  - intros [Hh Htx]. apply app_inj_2 in Htx as [Htx [= Hc]]; [|done].
    rewrite (proj2 (IH (h / 16) ltac:(lia))); simpl.
    2:{ split; [by apply N.Div0.div_lt_upper_bound|done]. }
    rewrite (proj2 (hex_val_Some c (h mod 16))); simpl.
    2:{ split; [by apply N.mod_lt|done]. }
    rewrite (host_step _ _ (N.of_nat (length s)));
      [|lia|by apply N.Div0.div_lt_upper_bound|by apply N.mod_lt].
    by rewrite <- N.div_mod'.
Qed.

Lemma host_width hn : hn <= 32 → u8_sub 128 (u8_mul hn 4) = 128 - 4 * hn.
Proof.
  intros Hn. unfold u8_sub, u8_mul, wrap. change (2 ^ 8) with 256.
  rewrite (N.mod_small (hn * 4)) by lia.
  replace (256 + 128 - hn * 4) with (128 - 4 * hn + 1 * 256) by lia.
  rewrite N.Div0.mod_add. apply N.mod_small. lia.
Qed.

Lemma host_digits_text a hn :
  hn <= 32 → host_digits a hn = Some (host_text (N.to_nat hn) a).
Proof.
  intros Hn. unfold host_digits, ADDR_NIBBLES.
  rewrite (proj2 (N.ltb_ge 32 hn)) by done.
  destruct (N.eqb_spec hn 0) as [->|H0]; [done|].
  rewrite host_width, host_mask by lia.
  replace (128 - (128 - 4 * hn)) with (4 * hn) by lia.
  rewrite N.land_ones, <- pow16. rewrite <- (host_text_mod (N.to_nat hn) a), N2Nat.id.
  rewrite <- (N2Nat.id hn) at 1. rewrite lower_hex_padded_text; [done|lia|].
  rewrite N2Nat.id. apply N.mod_lt. by apply N.pow_nonzero.
Qed.

Lemma digits_to_host_Some s hn h :
  hn <= 32 →
  digits_to_host s hn = Some h ↔
  len s = hn ∧ h < 16 ^ hn ∧ to_ascii_lowercase s = host_text (N.to_nat hn) h.
Proof.
  intros Hn. unfold digits_to_host. destruct (N.eqb_spec (len s) hn) as [<-|]; simpl.
  - unfold len in *. rewrite host_loop_Some, Nat2N.id by lia. tauto.
  - split; [done|]. by intros [? _].
Qed.

(** ** Dash grouping *)

Lemma length_ge_4 (s : bytes) :
  (4 <= length s)%nat → ∃ a b c d t, s = a :: b :: c :: d :: t.
Proof. destruct s as [|a [|b [|c [|d t]]]]; simpl; try lia. naive_solver. Qed.

Lemma dash_loop_join i chunks out :
  Forall (λ c, utf8_valid c = true) chunks →
  dash_loop i chunks out =
  out ++ match chunks with
         | [] => []
         | _ => (if 0 <? i then bs "-" else []) ++ join_dashes chunks
         end.
Proof.
  intros H. revert i out. induction H as [|c cs Hc _ IH]; intros i out; simpl.
  - by rewrite app_nil_r.
  - rewrite IH. unfold from_utf8. rewrite Hc. simpl.
    rewrite (proj2 (N.ltb_lt 0 (i + 1))) by lia.
    destruct (0 <? i); destruct cs; rewrite <- ?app_assoc, ?app_nil_r; done.
Qed.

Lemma chunks4_ascii s :
  Forall (λ b, is_ascii b = true) s → Forall (λ c, utf8_valid c = true) (chunks4 s).
Proof.
  induction s as [s IH] using (induction_ltof1 _ length). unfold ltof in IH. intros Hs.
  destruct s as [|a [|b [|c [|d s]]]]; simpl; try constructor;
    try (by apply utf8_valid_ascii); try constructor.
  - apply utf8_valid_ascii. rewrite !Forall_cons in *. naive_solver.
  - apply IH; [simpl; lia|]. rewrite !Forall_cons in Hs. naive_solver.
Qed.

(** On ASCII text, [dash_group] joins the groups of four with dashes. *)
Lemma dash_group_join s :
  Forall (λ b, is_ascii b = true) s → dash_group s = join_dashes (chunks4 s).
Proof.
  intros Hs. unfold dash_group. rewrite dash_loop_join by by apply chunks4_ascii.
  by destruct (chunks4 s).
Qed.

Lemma undash_loop_sound n g groups input out d :
  g + N.of_nat n = groups → undash_loop n g groups input out = Some d →
  ∃ t, d = out ++ t ∧ length t = (4 * n)%nat ∧ input = join_dashes (chunks4 t).
Proof.
  revert g input out. induction n as [|n IH]; intros g input out Hg; simpl.
  { case_bool_decide as H; [|done]. intros [= <-]. exists []. by rewrite app_nil_r. }
  destruct (split_at_checked input 4) as [[c rest]|] eqn:E; [|done]. simpl.
  apply split_at_checked_Some in E as [-> Hc]. unfold len in Hc.
  destruct (length_ge_4 c) as (x & y & z & w & [|? ?] & ->); [lia| |simpl in Hc; lia].
  destruct (N.ltb_spec (g + 1) groups) as [Hlt|Hge].
  - destruct (split_at_checked rest 1) as [[dash rest']|] eqn:E; [|done]. simpl.
    apply split_at_checked_Some in E as [-> Hd].
    destruct (decide (dash = bs "-")) as [->|Hdash];
      [|by rewrite bool_decide_eq_true_2 by done].
    rewrite bool_decide_eq_false_2 by auto.
    intros H. apply IH in H as (t & -> & Ht & ->); [|lia].
    exists ([x; y; z; w] ++ t). rewrite app_assoc, length_app. split; [done|].
    split; [simpl; lia|]. destruct n as [|n]; [lia|].
    destruct (length_ge_4 t) as (? & ? & ? & ? & ? & ->); [lia|]. done.
  - intros H. apply IH in H as (t & -> & Ht & ->); [|lia].
    exists ([x; y; z; w] ++ t). rewrite app_assoc, length_app. split; [done|].
    split; [simpl; lia|]. destruct t; [done|simpl in Ht; lia].
Qed.

Lemma join_chunks4_step x y z w t :
  join_dashes (chunks4 (x :: y :: z :: w :: t)) =
  [x; y; z; w] ++ (if bool_decide (t = []) then []
                   else bs "-" ++ join_dashes (chunks4 t)).
Proof. destruct t as [|a [|b [|c [|d t]]]]; done. Qed.

Lemma undash_loop_complete n g groups out t :
  g + N.of_nat n = groups → length t = (4 * n)%nat →
  undash_loop n g groups (join_dashes (chunks4 t)) out = Some (out ++ t).
Proof.
  revert g out t. induction n as [|n IH]; intros g out t Hg Ht.
  { destruct t; [|done]. simpl. by rewrite app_nil_r. }
  destruct (length_ge_4 t) as (x & y & z & w & t' & ->); [lia|].
  cbn [length] in Ht. rewrite join_chunks4_step. cbn [undash_loop].
  rewrite (split_at_checked_app [x; y; z; w]) by done. cbn [mbind option_bind].
  destruct (N.ltb_spec (g + 1) groups) as [Hlt|Hge].
  - rewrite bool_decide_eq_false_2 by (intros ->; simpl in Ht; lia).
    rewrite (split_at_checked_app (bs "-")) by done. cbn [mbind option_bind].
    rewrite bool_decide_eq_false_2 by auto.
    rewrite IH by lia. by rewrite <- app_assoc.
  - assert (n = O) as -> by lia. assert (t' = []) as -> by (destruct t'; [done|simpl in *; lia]).
    done.
Qed.

(** [undash_group] accepts exactly the dash-joined groups, and returns the
    digits. *)
Lemma undash_group_Some input hn d :
  undash_group input hn = Some d ↔
  hn / 4 ≠ 0 ∧ len d = 4 * (hn / 4) ∧ input = join_dashes (chunks4 d).
Proof.
  unfold undash_group. destruct (N.eqb_spec (hn / 4) 0) as [H0|H0].
  { split; [done|]. tauto. }
  unfold len. split.
  - intros H. apply undash_loop_sound in H as (t & -> & Ht & ->); [|lia].
    simpl. split; [done|]. split; [lia|done].
  - intros (_ & Hd & ->). rewrite undash_loop_complete; [done|lia|lia].
Qed.

Lemma lower_join_chunks s :
  to_ascii_lowercase (join_dashes (chunks4 s)) =
  join_dashes (chunks4 (to_ascii_lowercase s)).
Proof.
  induction s as [s IH] using (induction_ltof1 _ length). unfold ltof in IH.
  destruct s as [|a [|b [|c [|d s]]]]; try done.
  change (to_ascii_lowercase (a :: b :: c :: d :: s)) with
    (lower_byte a :: lower_byte b :: lower_byte c :: lower_byte d :: to_ascii_lowercase s).
  rewrite !join_chunks4_step, to_ascii_lowercase_app. f_equal.
  destruct s as [|e s]; [done|].
  rewrite !bool_decide_eq_false_2 by done.
  rewrite to_ascii_lowercase_app, IH by (simpl; lia). done.
Qed.

(** ** Properties *)

(** [mask_bits m] is the address bits from [128 - m] up, for every [u8]
    value: a mask wider than 128 saturates to the full mask. *)
Theorem mask_bits_spec (m i : N) :
  N.testbit (mask_bits m) i = (128 - m <=? i) && (i <? 128).
Proof.
  destruct (N.leb_spec m 128); [by apply mask_bits_bits|].
  unfold mask_bits. rewrite (proj2 (N.eqb_neq m 0)), (proj2 (N.leb_le 128 m)) by lia.
  unfold u128_MAX. rewrite ones_bits. by rewrite (proj2 (N.leb_le (128 - m) i)) by lia.
Qed.

(** [host_digits] prints the host part at its full width: exactly
    [host_nibbles] lowercase digits, which depend on the host part only and
    decode back to it; wider than an address it declines. *)
Theorem host_digits_roundtrip (a hn : N) :
  match host_digits a hn with
  | Some d => hn <= 32 ∧ len d = hn ∧ to_ascii_lowercase d = d ∧
              digits_to_host d hn = Some (a mod 2 ^ (4 * hn)) ∧
              host_digits (a mod 2 ^ (4 * hn)) hn = Some d
  | None => 32 < hn
  end.
Proof.
  destruct (N.leb_spec hn 32) as [Hn|Hn].
  - rewrite !host_digits_text, <- pow16 by done.
    assert (host_text (N.to_nat hn) (a mod 16 ^ hn) = host_text (N.to_nat hn) a) as E.
    { rewrite <- (host_text_mod (N.to_nat hn) a). by rewrite N2Nat.id. }
    assert (len (host_text (N.to_nat hn) a) = hn) as El.
    { unfold len. rewrite length_host_text. lia. }
    rewrite digits_to_host_Some, E, host_text_lower, El by done.
    repeat split; try done. apply N.mod_lt. by apply N.pow_nonzero.
  - unfold host_digits. by rewrite (proj2 (N.ltb_lt _ _)) by done.
Qed.

(** [digits_to_host] accepts exactly the case variants of what
    [host_digits] prints: the length and the digits are checked together. *)
Theorem digits_to_host_exact (s : bytes) (hn h : N) :
  hn <= 32 →
  digits_to_host s hn = Some h ↔
  h < 2 ^ (4 * hn) ∧ ∃ d, host_digits h hn = Some d ∧ s ≡ci d.
Proof.
  intros Hn. rewrite digits_to_host_Some, host_digits_text, pow16 by done. split.
  - intros (_ & Hh & Hs). split; [done|]. eexists. split; [done|].
    unfold ci_eq. by rewrite host_text_lower.
  - intros (Hh & d & [= <-] & Hs). split; [|split; [done|]].
    + apply ci_eq_length in Hs. unfold len. rewrite Hs, length_host_text. lia.
    + unfold ci_eq in Hs. by rewrite host_text_lower in Hs.
Qed.

(** Dash grouping inverts exactly: on a host part of a multiple of four
    digits, [undash_group] returns the digits for the text [dash_group] prints
    and for no other input, so a missing, misplaced, doubled or trailing dash is
    refused. *)
Theorem undash_group_exact (a hn : N) (d input : bytes) :
  hn ≠ 0 → hn mod 4 = 0 → host_digits a hn = Some d →
  undash_group input hn = Some d ↔ input = dash_group d.
Proof.
  intros H0 H4 Hd. assert (hn <= 32) as Hn.
  { unfold host_digits, ADDR_NIBBLES in Hd. by destruct (N.ltb_spec 32 hn). }
  rewrite host_digits_text in Hd by done. injection Hd as <-.
  rewrite undash_group_Some, dash_group_join by apply host_text_ascii.
  unfold len. rewrite length_host_text. split; [tauto|]. intros ->.
  split; [lia|]. split; [lia|done].
Qed.

Section Properties.
Context {D : DnsOps} {L : DnsLaws D}.

(** C25.  The strict query parser is the exact inverse of the name builder, up
    to DNS name equality: [ptr_name_to_addr] accepts a name with the address
    [a] exactly when [a] is a 128-bit address whose [ip6.arpa] name, built by
    [netmask_to_ptr_name], equals the name.  In particular every address
    survives the round trip and nothing but a full address is accepted. *)
Theorem ptr_name_to_addr_exact (n : DName) (a : N) :
  is_fqdn n = true →
  ptr_name_to_addr n = Some a ↔
  a < 2 ^ 128 ∧ ∃ z, netmask_to_ptr_name a 128 = Some z ∧ name_eq z n = true.
Proof.
  intros Hn. rewrite ptr_name_to_addr_Some. apply and_iff_compat_l.
  destruct (netmask_to_ptr_name_valid a 128) as (z & -> & Hz & Hf); [done..|].
  change (128 / 4) with 32 in Hz. rewrite zone_labels_128 in Hz. split.
  - intros H. exists z. split; [done|]. apply name_eq_spec; [done..|]. by rewrite Hz.
  - intros (z' & [= <-] & H). apply name_eq_spec in H; [|done..]. by rewrite <- Hz.
Qed.

(** C27.  Matching an address against a network arithmetically is matching its
    name against the delegated zone: for the zone name built from a prefix and
    a mask and a name that parses to [a], the zone contains the name exactly
    when [a] lies in the network. *)
Theorem ptr_zone_is_network (prefix mask a : N) (z n : DName) :
  prefix < 2 ^ 128 →
  netmask_to_ptr_name prefix mask = Some z →
  ptr_name_to_addr n = Some a →
  zone_of z n = true ↔
  N.land a (mask_bits mask) = N.land prefix (mask_bits mask).
Proof.
  intros Hp Hz Hn. apply ptr_name_to_addr_Some in Hn as [Ha Hn].
  assert (mask <= 128 ∧ mask mod 4 = 0) as [Hm H4].
  { destruct (decide (mask <= 128 ∧ mask mod 4 = 0)); [done|].
    assert (netmask_to_ptr_name prefix mask = None) as H; [|congruence].
    apply netmask_to_ptr_name_None. lia. }
  destruct (netmask_to_ptr_name_valid prefix mask Hm H4) as (z' & Hz' & Hl & _).
  assert (z' = z) as -> by congruence.
  rewrite same_network_div, zone_of_spec, Hl by done.
  by apply zone_labels_suffix.
Qed.

(** [netmask_to_ptr_name] is total on nibble-aligned masks up to 128 and
    refuses every other mask; the name it builds is absolute and has one label
    per network nibble plus [ip6.arpa]. *)
Theorem netmask_to_ptr_name_total (prefix mask : N) :
  match netmask_to_ptr_name prefix mask with
  | Some z => mask <= 128 ∧ mask mod 4 = 0 ∧ is_fqdn z = true ∧
              num_labels z = mask / 4 + 2
  | None => 128 < mask ∨ mask mod 4 ≠ 0
  end.
Proof.
  destruct (netmask_to_ptr_name prefix mask) as [z|] eqn:E.
  - assert (mask <= 128 ∧ mask mod 4 = 0) as [Hm H4].
    { destruct (decide (mask <= 128 ∧ mask mod 4 = 0)); [done|].
      rewrite (proj2 (netmask_to_ptr_name_None prefix mask)) in E by lia. done. }
    destruct (netmask_to_ptr_name_valid prefix mask Hm H4) as (z' & Hz' & Hl & Hf).
    assert (z' = z) as -> by congruence. split; [done|]. split; [done|]. split; [done|].
    rewrite num_labels_spec, Hl, label_count_zone. lia.
  - by apply netmask_to_ptr_name_None in E.
Qed.
End Properties.

(** ** Instances at a concrete address *)

Module NibbleSample.
#[local] Existing Instance LabelName.ops.
#[local] Existing Instance LabelName.laws.

(** 2001:db8:1:2::c0ff:ee, its reverse name in mixed case, and the name of the
    network 2001:db8:1:2::/64. *)
Definition addr : N := 0x20010db8000100020000000000c0ffee.

Definition reverse : DName :=
  LabelName.mk (LabelName.split_dots
    (bs "E.e.F.f.0.C.0.0.0.0.0.0.0.0.0.0.2.0.0.0.1.0.0.0.8.B.d.0.1.0.0.2.IP6.arpa") []) true.

Definition network : DName :=
  LabelName.mk (LabelName.split_dots
    (bs "2.0.0.0.1.0.0.0.8.b.d.0.1.0.0.2.ip6.arpa") []) true.

Lemma network_built : netmask_to_ptr_name addr 64 = Some network.
Proof. vm_refl. Qed.

Lemma reverse_parses : ptr_name_to_addr reverse = Some addr.
Proof. vm_refl. Qed.

Lemma ptr_name_to_addr_exact_witness :
  addr < 2 ^ 128 ∧ ∃ z, netmask_to_ptr_name addr 128 = Some z ∧ name_eq z reverse = true.
Proof.
  apply (ptr_name_to_addr_exact reverse addr); [done|]. exact reverse_parses.
Defined.

Lemma ptr_zone_is_network_witness : zone_of network reverse = true.
Proof.
  apply (ptr_zone_is_network addr 64 addr network reverse);
    [done|exact network_built|exact reverse_parses|done].
Defined.

Lemma digits_to_host_exact_witness :
  0xc0ffee < 2 ^ (4 * 8) ∧
  ∃ d, host_digits 0xc0ffee 8 = Some d ∧ bs "00C0ffEE" ≡ci d.
Proof. apply (digits_to_host_exact (bs "00C0ffEE") 8 0xc0ffee); done. Defined.
End NibbleSample.
