(* ===== verification/ConfigError.v ===== *)
(** * [src/config/error.rs]: line-numbered configuration diagnostics *)

From S2P Require Import Prelude RustText.

Inductive ConfigErrorKind :=
  | NotUtf8
  | UnknownDirective (keyword : bytes)
  | MissingValue (keyword : bytes)
  | DirectiveBeforeNetwork (keyword : bytes)
  | GlobalAfterNetwork (keyword : bytes)
  | InvalidNumber (what allowed : bytes)
  | InvalidDnsName (what : bytes)
  | InvalidChoice (what allowed : bytes)
  | MissingCompanionDirective (missing present : bytes)
  | DuplicateDirective (keyword : bytes) (first_line : N)
  | MissingResolvesTo
  | NetworkMissingPrefixLen
  | NetworkInvalidAddress
  | NetworkPrefixLenNotANumber
  | NetworkPrefixLenOutOfRange (mask : N)
  | NetworkPrefixNotNibbleAligned (mask : N)
  | NetworkHostBitsSet (suggestion : bytes)
  | NetworkPrefixTooShort (mask : N)
  | NetworkIsSingleAddress
  | DuplicateNetwork (first_line : N)
  | PlaceholderMissing
  | PlaceholderRepeated (count : N)
  | DashedDigitsNotNibbleMultipleOfFour (host_nibbles : N)
  | ResolvesToInvalidName (reason : bytes)
  | ForwardNameTooLong (reason : bytes)
  | DuplicateForwardPattern (first_line : N)
  | InvalidListenAddress
  | InvalidUpstreamAddress.

(** [span] is a byte range of [snippet], its end excluded. *)
Record ConfigError := mkConfigError {
  line : N;
  snippet : bytes;
  span : option (N * N);
  kind : ConfigErrorKind;
}.

#[export] Instance ConfigErrorKind_eq_dec : EqDecision ConfigErrorKind.
Proof. solve_decision. Defined.
#[export] Instance ConfigError_eq_dec : EqDecision ConfigError.
Proof. solve_decision. Defined.

Definition quoted (s : bytes) : bytes := bs "`" ++ s ++ bs "`".

(** [ConfigErrorKind::message]. *)
Definition message (k : ConfigErrorKind) : bytes :=
  match k with
  | NotUtf8 => bs "line is not valid UTF-8"
  | UnknownDirective keyword => bs "unknown directive " ++ quoted keyword
  | MissingValue keyword => quoted keyword ++ bs " requires a value"
  | DirectiveBeforeNetwork keyword =>
      quoted keyword ++ bs " appears before any `network` directive"
  | GlobalAfterNetwork keyword =>
      quoted keyword ++
      bs " is a global setting and must appear before the first `network`"
  | InvalidNumber what _ => quoted what ++ bs " is not a valid number"
  | InvalidDnsName what => quoted what ++ bs " is not a valid DNS name"
  | InvalidChoice what _ => bs "invalid value for " ++ quoted what
  | MissingCompanionDirective missing present =>
      quoted present ++ bs " is set but " ++ quoted missing ++
      bs " is missing; a SOA record needs both"
  | DuplicateDirective keyword first_line =>
      bs "duplicate " ++ quoted keyword ++
      bs " for this network (first set on line " ++ to_decimal first_line ++ bs ")"
  | MissingResolvesTo => bs "this `network` has no `resolves to` directive"
  | NetworkMissingPrefixLen => bs "network is missing a prefix length, e.g. `/64`"
  | NetworkInvalidAddress => bs "not a valid IPv6 address"
  | NetworkPrefixLenNotANumber => bs "prefix length is not a number"
  | NetworkPrefixLenOutOfRange mask =>
      bs "prefix length /" ++ to_decimal mask ++ bs " is out of range (0-128)"
  | NetworkPrefixNotNibbleAligned mask =>
      bs "prefix length /" ++ to_decimal mask ++
      bs " is not nibble-aligned (must be a multiple of 4)"
  | NetworkHostBitsSet _ => bs "network has bits set below its prefix length"
  | NetworkPrefixTooShort mask =>
      bs "prefix length /" ++ to_decimal mask ++
      bs " would make this server authoritative for all of ip6.arpa"
  | NetworkIsSingleAddress =>
      bs "/128 is a single address, leaving no digits for %DIGITS%"
  | DuplicateNetwork first_line =>
      bs "network is already configured on line " ++ to_decimal first_line
  | PlaceholderMissing => bs "`resolves to` must contain %DIGITS% or %DIGITS-DASHED%"
  | PlaceholderRepeated count =>
      bs "`resolves to` contains %DIGITS%/%DIGITS-DASHED% " ++ to_decimal count ++
      bs " times, expected exactly once"
  | DashedDigitsNotNibbleMultipleOfFour host_nibbles =>
      bs "%DIGITS-DASHED% needs a host part that is a multiple of 4 hex digits wide, but this network's is "
      ++ to_decimal host_nibbles
  | ResolvesToInvalidName reason =>
      bs "`resolves to` is not a valid DNS name: " ++ reason
  | ForwardNameTooLong reason =>
      bs "the widest name this template can produce is invalid: " ++ reason
  | DuplicateForwardPattern first_line =>
      bs "this `resolves to` pattern is already used on line " ++ to_decimal first_line
  | InvalidListenAddress => bs "not a valid IP address or address:port"
  | InvalidUpstreamAddress => bs "not a valid IP address"
  end.

(** [ConfigErrorKind::hint]. *)
Definition hint (k : ConfigErrorKind) : option bytes :=
  match k with
  | NetworkMissingPrefixLen =>
      Some (bs "a `network` without a prefix length is what made AllKnowingDNS claim the whole ip6.arpa namespace")
  | NetworkPrefixNotNibbleAligned _ => Some (bs "expected /0, /4, /8, … /128")
  | NetworkHostBitsSet suggestion => Some (bs "did you mean " ++ quoted suggestion ++ bs "?")
  | PlaceholderMissing => Some (bs "e.g. `resolves to ipv6-%DIGITS%.example.net`")
  | DashedDigitsNotNibbleMultipleOfFour _ =>
      Some (bs "prefix length must leave a multiple of 4 hex digits, e.g. /48, /96")
  | InvalidListenAddress =>
      Some (bs "e.g. `listen 2001:db8::1`, `listen 0.0.0.0`, `listen [::]:5353`")
  | InvalidNumber _ allowed | InvalidChoice _ allowed => Some (bs "expected " ++ allowed)
  | InvalidDnsName _ => Some (bs "e.g. `ns1.example.net.` (a trailing dot is optional)")
  | GlobalAfterNetwork _ =>
      Some (bs "indentation is decorative in this format, so globals are recognised by position")
  | _ => None
  end.

(** [ConfigErrors]: all problems of one file, and the file they were read from. *)
Record ConfigErrors := mkConfigErrors { path : option bytes; errors : list ConfigError }.

Definition ConfigErrors_new (errors : list ConfigError) : ConfigErrors :=
  mkConfigErrors None errors.

Definition with_path (p : bytes) (e : ConfigErrors) : ConfigErrors :=
  mkConfigErrors (Some p) (errors e).

Definition ConfigErrors_is_empty (e : ConfigErrors) : bool := len (errors e) =? 0.
Definition ConfigErrors_len (e : ConfigErrors) : N := len (errors e).

(** [<ConfigError as Display>::fmt]. *)
Definition ConfigError_to_string (e : ConfigError) : bytes := message (kind e).

(** ** Rendering: [<ConfigErrors as Display>::fmt] *)

Definition newline : bytes := ["010"%byte].
Definition writeln (parts : list bytes) : bytes := concat parts ++ newline.
Definition repeat_str (s : bytes) (n : N) : bytes := concat (replicate (N.to_nat n) s).

(** The padding up to the caret and the caret line itself: tabs of the source
    are mirrored so that the caret lines up. *)
Definition caret_pad (err : ConfigError) : bytes * bytes :=
  match span err with
  | Some (start, stop) =>
      ((λ b, if bool_decide (b = "009"%byte) then "009"%byte else " "%byte)
         <$> take (N.to_nat start) (snippet err),
       repeat_str (bs "^") (N.max (stop - start) 1))
  | None => ([], repeat_str (bs "^") (N.max (len (snippet err)) 1))
  end.

Definition render_error (path : bytes) (i : N) (err : ConfigError) : bytes :=
  let num := to_decimal (line err) in
  let gutter := repeat_str (bs " ") (len num) in
  let '(pad, carets) := caret_pad err in
  (if 0 <? i then newline else []) ++
  writeln [bs "error: "; message (kind err)] ++
  writeln [gutter; bs "--> "; path; bs ":"; num] ++
  writeln [gutter; bs " |"] ++
  writeln [num; bs " | "; snippet err] ++
  match hint (kind err) with
  | Some hint => writeln [gutter; bs " | "; pad; carets; bs " "; hint]
  | None => writeln [gutter; bs " | "; pad; carets]
  end.

Fixpoint render_from (path : bytes) (i : N) (errs : list ConfigError) : bytes :=
  match errs with
  | [] => []
  | err :: errs => render_error path i err ++ render_from path (i + 1) errs
  end.

Definition ConfigErrors_to_string (e : ConfigErrors) : bytes :=
  let path := match path e with Some p => from_utf8_lossy p | None => bs "<config>" end in
  let n := len (errors e) in
  let plural := if n =? 1 then bs "error" else bs "errors" in
  render_from path 0 (errors e) ++
  newline ++ bs "aborting due to " ++ to_decimal n ++ bs " configuration " ++ plural.

(** The example of the documentation comment on [Display]. *)
Example render_vector :
  ConfigErrors_to_string
    (with_path (bs "/etc/panoptidns/panoptidns.conf")
      (ConfigErrors_new
        [mkConfigError 12 (bs "    network 2001:db8::/63") (Some (23, 25))
           (NetworkPrefixNotNibbleAligned 63)])) =
  bs "error: prefix length /63 is not nibble-aligned (must be a multiple of 4)
  --> /etc/panoptidns/panoptidns.conf:12
   |
12 |     network 2001:db8::/63
   |                        ^^ expected /0, /4, /8, … /128

aborting due to 1 configuration error".
Proof. by vm_compute. Qed.
