(* ===== verification/Config.v ===== *)
(** * [src/config/mod.rs]: the configuration model

    The data a validated configuration consists of, the forward-name template
    with its rendering, and the queries on a configuration.  [Config::parse]
    is in [Compile], after the parser and the validator it composes. *)

From S2P Require Import Prelude RustNet Dns Nibble.

Definition DEFAULT_TTL : N := 3600.
Definition DEFAULT_PORT : N := 53.

Record ListenAddr := mkListenAddr { listen_addr : IpAddr; listen_port : N }.

Inductive FwdLabel :=
  | Literal (verbatim lower : bytes)
  | Digits (pre pre_lower post post_lower : bytes) (dashed : bool).

Record FwdTemplate := mkFwdTemplate { fwd_labels : list FwdLabel; digits_at : N }.

Definition label_count (t : FwdTemplate) : N := len (fwd_labels t).

(** The label as it is written, without digits. *)
Definition plain_label (l : FwdLabel) : bytes :=
  match l with
  | Literal verbatim _ => verbatim
  | Digits pre _ post _ _ => pre ++ post
  end.

(** The label with [digits] substituted. *)
Definition render_label (digits : bytes) (l : FwdLabel) : bytes :=
  match l with
  | Literal verbatim _ => verbatim
  | Digits pre _ post _ dashed =>
      pre ++ (if dashed then dash_group digits else digits) ++ post
  end.

Inductive OutOfZonePolicy := Refused | NxDomain.

(** [core::time::Duration], in nanoseconds. *)
Definition from_millis (ms : N) : N := ms * 1000000.
Definition from_secs (s : N) : N := s * 1000000000.

Record RrlParams := mkRrlParams {
  enabled : bool;
  responses_per_second : N;
  burst : N;
  slip : N;
  ipv4_prefix : N;
  ipv6_prefix : N;
}.

Definition RrlParams_default : RrlParams := {|
  enabled := true; responses_per_second := 20; burst := 50; slip := 2;
  ipv4_prefix := 24; ipv6_prefix := 64 |}.

Record ServerParams := mkServerParams {
  out_of_zone : OutOfZonePolicy;
  max_udp_payload : N;
  upstream_timeout : N;
  rrl : RrlParams;
}.

Definition ServerParams_default : ServerParams := {|
  out_of_zone := Refused; max_udp_payload := 1232;
  upstream_timeout := from_millis 300; rrl := RrlParams_default |}.

Section Model.
Context {D : DnsOps}.

(** [FwdTemplate::parent] and [FwdTemplate::render]. *)
Definition parent (t : FwdTemplate) : result DName ProtoError :=
  let tail := plain_label <$>
    drop (N.to_nat (usize_saturating_add (digits_at t) 1)) (fwd_labels t) in
  let? name := from_labels tail in
  Ok (set_fqdn true name).

Definition render (t : FwdTemplate) (digits : bytes) : result DName ProtoError :=
  let? name := from_labels (render_label digits <$> fwd_labels t) in
  Ok (set_fqdn true name).

Record Zone := mkZone {
  src_line : N;
  prefix : N;
  mask : N;
  host_nibbles : N;
  ptr_zone : DName;
  resolves_to : bytes;
  fwd : FwdTemplate;
  fwd_parent : DName;
  ttl : N;
  upstream : option IpAddr;
}.

Definition set_ttl (t : N) (z : Zone) : Zone :=
  mkZone (src_line z) (prefix z) (mask z) (host_nibbles z) (ptr_zone z)
    (resolves_to z) (fwd z) (fwd_parent z) t (upstream z).

Record SoaParams := mkSoaParams {
  primary : DName;
  hostmaster : DName;
  serial : N;
  refresh : N;
  retry : N;
  expire : N;
  minimum : N;
}.

Record Config := mkConfig {
  listen : list ListenAddr;
  zones : list Zone;
  soa : option SoaParams;
  nameservers : list DName;
  params : ServerParams;
}.

(** [Config::default()]. *)
Definition Config_default : Config := {|
  listen := []; zones := []; soa := None; nameservers := [];
  params := ServerParams_default |}.

Definition has_zones (c : Config) : bool :=
  match zones c with [] => false | _ => true end.

Definition warnings (c : Config) : list bytes :=
  (match soa c with
   | None => [bs "no `primary`/`hostmaster` configured: serving without apex SOA/NS records, so resolvers cannot cache negative answers (set both to fix)"]
   | Some _ => []
   end) ++
  (if negb (enabled (rrl (params c))) then [bs "response rate limiting is disabled"] else []) ++
  (match zones c with
   | [] => [bs "no `network` configured: every query will be declined"]
   | _ => []
   end).

(** [Vec::contains] on names. *)
Definition name_in (n : DName) (l : list DName) : bool :=
  existsb (λ m, name_eq m n) l.

Definition push_apex (out : list DName) (n : DName) : list DName :=
  if negb (name_in n out) then out ++ [n] else out.

Definition apexes (c : Config) : list DName :=
  foldl (λ out z, foldl push_apex out [ptr_zone z; fwd_parent z]) [] (zones c).
End Model.
