(* ===== verification/Parse.v ===== *)
(** * [src/config/parse.rs]: the line-oriented parser

    Splits a configuration file into directives and values, without validating
    the values.  [parse_line] is the body of the loop of [parse]; its state is
    the configuration and the errors collected so far. *)

From S2P Require Import Prelude RustText ConfigError.

(** ** Data *)

Record RawValue := mkRawValue {
  raw_line_no : N;
  raw_line : bytes;
  raw_span : N * N;
  raw_value : bytes;
}.

(** [RawValue::error] and [RawValue::error_at]. *)
Definition error (v : RawValue) (kind : ConfigErrorKind) : ConfigError :=
  mkConfigError (raw_line_no v) (raw_line v) (Some (raw_span v)) kind.

Definition error_at (v : RawValue) (offset length : N) (kind : ConfigErrorKind) : ConfigError :=
  let start := N.min (usize_saturating_add (fst (raw_span v)) offset) (snd (raw_span v)) in
  let stop := N.min (usize_saturating_add start length) (N.max (snd (raw_span v)) start) in
  mkConfigError (raw_line_no v) (raw_line v) (Some (start, stop)) kind.

Record RawZone := mkRawZone {
  raw_network : RawValue;
  raw_resolves_to : option RawValue;
  raw_upstream : option RawValue;
}.

Inductive GlobalKey :=
  | Primary | Hostmaster | Ns | Ttl | OutOfZone | MaxUdpPayload | UpstreamTimeout
  | RrlOff | RrlRps | RrlBurst | RrlSlip.

#[export] Instance GlobalKey_eq_dec : EqDecision GlobalKey.
Proof. solve_decision. Defined.

Record RawGlobal := mkRawGlobal { key : GlobalKey; global_value : RawValue }.

Record RawConfig := mkRawConfig {
  raw_listen : list RawValue;
  raw_zones : list RawZone;
  raw_globals : list RawGlobal;
}.

Definition RawConfig_default : RawConfig := mkRawConfig [] [] [].

Inductive Scope := GlobalScope | ZoneScope | Anywhere.

Inductive Target :=
  | Listen | Network | ResolvesTo | Upstream | Global (key : GlobalKey).

Record Directive := mkDirective {
  words : list bytes;
  display : bytes;
  scope : Scope;
  target : Target;
  lowercase : bool;
}.

Definition DIRECTIVES : list Directive := [
  mkDirective [bs "resolves"; bs "to"] (bs "resolves to") ZoneScope ResolvesTo false;
  mkDirective [bs "with"; bs "upstream"] (bs "with upstream") ZoneScope Upstream true;
  mkDirective [bs "rrl"; bs "responses-per-second"] (bs "rrl responses-per-second")
    GlobalScope (Global RrlRps) true;
  mkDirective [bs "rrl"; bs "burst"] (bs "rrl burst") GlobalScope (Global RrlBurst) true;
  mkDirective [bs "rrl"; bs "slip"] (bs "rrl slip") GlobalScope (Global RrlSlip) true;
  mkDirective [bs "upstream-timeout"] (bs "upstream-timeout")
    GlobalScope (Global UpstreamTimeout) true;
  mkDirective [bs "max-udp-payload"] (bs "max-udp-payload")
    GlobalScope (Global MaxUdpPayload) true;
  mkDirective [bs "out-of-zone"] (bs "out-of-zone") GlobalScope (Global OutOfZone) true;
  mkDirective [bs "hostmaster"] (bs "hostmaster") GlobalScope (Global Hostmaster) true;
  mkDirective [bs "primary"] (bs "primary") GlobalScope (Global Primary) true;
  mkDirective [bs "network"] (bs "network") Anywhere Network true;
  mkDirective [bs "listen"] (bs "listen") Anywhere Listen true;
  mkDirective [bs "ttl"] (bs "ttl") GlobalScope (Global Ttl) true;
  mkDirective [bs "ns"] (bs "ns") GlobalScope (Global Ns) true
].

Definition FLAGS : list (list bytes * bytes * GlobalKey) :=
  [([bs "rrl"; bs "off"], bs "rrl off", RrlOff)].

(** ** Matching keywords *)

(** The loop of [match_words]: [i] words are matched already. *)
Fixpoint match_words_from (i : N) (ws : list bytes) (consumed : N) (rest : bytes)
    : option (N * bytes) :=
  match ws with
  | [] => Some (consumed, rest)
  | word :: ws =>
      '(consumed, rest) ←
        (if 0 <? i then
           let trimmed := trim_ascii_start rest in
           if len trimmed =? len rest then None
           else Some (usize_saturating_add consumed (len rest - len trimmed), trimmed)
         else Some (consumed, rest));
      '(head, tail) ← split_at_checked rest (len word);
      if negb (eq_ignore_ascii_case head word) then None
      else match_words_from (i + 1) ws (usize_saturating_add consumed (len word)) tail
  end.

Definition match_words (line : bytes) (ws : list bytes) : option (N * bytes) :=
  match_words_from 0 ws 0 line.

Definition strip_keyword (line : bytes) (ws : list bytes) : option (N * bytes) :=
  '(consumed, rest) ← match_words line ws;
  let trimmed := trim_ascii_start rest in
  if len trimmed =? len rest then None else
  let consumed := usize_saturating_add consumed (len rest - len trimmed) in
  let value := trim_ascii_end trimmed in
  match value with
  | [] => None
  | _ => Some (consumed, value)
  end.

Definition matches_flag (line : bytes) (ws : list bytes) : bool :=
  match match_words line ws with
  | Some (_, rest) => match trim_ascii rest with [] => true | _ => false end
  | None => false
  end.

Definition starts_with_word (line word : bytes) : bool :=
  match split_at_checked line (len word) with
  | Some (head, tail) =>
      eq_ignore_ascii_case head word &&
      match tail with [] => true | b :: _ => is_ascii_whitespace b end
  | None => false
  end.

(** [body.split(u8::is_ascii_whitespace).next()]. *)
Fixpoint first_word (body : bytes) : bytes :=
  match body with
  | [] => []
  | b :: body => if is_ascii_whitespace b then [] else b :: first_word body
  end.

Definition unmatched_line_error (line_no : N) (raw : bytes) (indent : N) (body : bytes)
    : ConfigError :=
  let known := iter_find
    (λ p : bytes * list bytes,
       match snd p with w :: _ => starts_with_word body w | [] => false end)
    (((λ d, (display d, words d)) <$> DIRECTIVES) ++
     ((λ f : list bytes * bytes * GlobalKey, (snd (fst f), fst (fst f))) <$> FLAGS)) in
  let word := first_word body in
  let word_len := N.max (len word) 1 in
  mkConfigError line_no raw (Some (indent, usize_saturating_add indent word_len))
    match known with
    | Some (display, _) => MissingValue display
    | None => UnknownDirective (from_utf8_lossy word)
    end.

(** ** The parser *)

(** [Vec::last_mut]: update the last zone. *)
Fixpoint update_last {A} (f : A → A) (l : list A) : list A :=
  match l with
  | [] => []
  | [a] => [f a]
  | a :: l => a :: update_last f l
  end.

Definition no_zones (cfg : RawConfig) : bool :=
  match raw_zones cfg with [] => true | _ => false end.

Definition push_global (g : RawGlobal) (cfg : RawConfig) : RawConfig :=
  mkRawConfig (raw_listen cfg) (raw_zones cfg) (raw_globals cfg ++ [g]).

(** What a matched directive does with its value, once in scope. *)
Definition apply_target (d : Directive) (value : RawValue)
    (cfg : RawConfig) (errors : list ConfigError) : RawConfig * list ConfigError :=
  match target d with
  | Listen =>
      (mkRawConfig (raw_listen cfg ++ [value]) (raw_zones cfg) (raw_globals cfg), errors)
  | Network =>
      (mkRawConfig (raw_listen cfg) (raw_zones cfg ++ [mkRawZone value None None])
         (raw_globals cfg), errors)
  | ResolvesTo | Upstream =>
      let is_resolves := match target d with ResolvesTo => true | _ => false end in
      match last (raw_zones cfg) with
      | None => (cfg, errors)
      | Some zone =>
          let slot := if is_resolves then raw_resolves_to zone else raw_upstream zone in
          match slot with
          | Some first =>
              (cfg, errors ++
                 [error value (DuplicateDirective (display d) (raw_line_no first))])
          | None =>
              let set z :=
                if is_resolves
                then mkRawZone (raw_network z) (Some value) (raw_upstream z)
                else mkRawZone (raw_network z) (raw_resolves_to z) (Some value) in
              (mkRawConfig (raw_listen cfg) (update_last set (raw_zones cfg))
                 (raw_globals cfg), errors)
          end
      end
  | Global k =>
      let first := if bool_decide (k ≠ Ns)
                   then iter_find (λ g, bool_decide (key g = k)) (raw_globals cfg)
                   else None in
      match first with
      | Some first =>
          (cfg, errors ++
             [error value (DuplicateDirective (display d) (raw_line_no (global_value first)))])
      | None => (push_global (mkRawGlobal k value) cfg, errors)
      end
  end.

(** The loop body of [parse], on line [idx] (from 0). *)
Definition parse_line (idx : N) (raw : bytes) (cfg : RawConfig) (errors : list ConfigError)
    : RawConfig * list ConfigError :=
  let line_no := N.min (usize_saturating_add idx 1) u32_MAX in
  let raw := default raw (strip_suffix_byte "013" raw) in
  let body := trim_ascii_start raw in
  let indent := len raw - len body in
  if match body with [] => true | b :: _ => bool_decide (b = "#"%byte) end
  then (cfg, errors) else
  match iter_find (λ f : list bytes * bytes * GlobalKey, matches_flag body (fst (fst f))) FLAGS with
  | Some (_, display, key) =>
      let value := mkRawValue line_no raw (indent, len raw) [] in
      if negb (no_zones cfg)
      then (cfg, errors ++ [error value (GlobalAfterNetwork display)])
      else (push_global (mkRawGlobal key value) cfg, errors)
  | None =>
      match iter_find_map
              (λ d, '(off, value) ← strip_keyword body (words d); Some (d, off, value))
              DIRECTIVES with
      | None => (cfg, errors ++ [unmatched_line_error line_no raw indent body])
      | Some (directive, offset, value_bytes) =>
          let start := usize_saturating_add indent offset in
          match from_utf8 value_bytes with
          | None =>
              (cfg, errors ++ [mkConfigError line_no raw (Some (start, len raw)) NotUtf8])
          | Some text =>
              let text := if lowercase directive then to_ascii_lowercase text else text in
              let value := mkRawValue line_no raw
                             (start, usize_saturating_add start (len text)) text in
              match scope directive with
              | GlobalScope =>
                  if negb (no_zones cfg)
                  then (cfg, errors ++ [error value (GlobalAfterNetwork (display directive))])
                  else apply_target directive value cfg errors
              | ZoneScope =>
                  if no_zones cfg
                  then (cfg, errors ++ [error value (DirectiveBeforeNetwork (display directive))])
                  else apply_target directive value cfg errors
              | Anywhere => apply_target directive value cfg errors
              end
          end
      end
  end.

(** The loop, over the lines from [idx] on. *)
Fixpoint parse_lines (idx : N) (ls : list bytes) (cfg : RawConfig) (errors : list ConfigError)
    : RawConfig * list ConfigError :=
  match ls with
  | [] => (cfg, errors)
  | raw :: ls =>
      let '(cfg, errors) := parse_line idx raw cfg errors in
      parse_lines (idx + 1) ls cfg errors
  end.

Definition parse (input : bytes) : RawConfig * list ConfigError :=
  parse_lines 0 (str_lines input) RawConfig_default [].

Example parse_vector :
  let '(cfg, errs) := parse (bs "# comment
Primary  NS1.Example.NET.
network 2001:DB8::/64
	Resolves   To  Ipv6-%DIGITS%.Example.net
rrl off
netwrok 1
network
") in
  (raw_value ∘ global_value <$> raw_globals cfg) = [bs "ns1.example.net."] ∧
  ((λ z, (raw_value (raw_network z), raw_value <$> raw_resolves_to z)) <$> raw_zones cfg) =
    [(bs "2001:db8::/64", Some (bs "Ipv6-%DIGITS%.Example.net"))] ∧
  ((λ e, (line e, span e, kind e)) <$> errs) =
    [(5, Some (0, 7), GlobalAfterNetwork (bs "rrl off"));
     (6, Some (0, 7), UnknownDirective (bs "netwrok"));
     (7, Some (0, 7), MissingValue (bs "network"))].
Proof. by vm_compute. Qed.
