(* ===== verification/Compile.v ===== *)
(** * [src/config/compile.rs] and [Config::parse]: validation

    From raw directives to a checked [Config].  Every function of the source
    that takes [errors: &mut Vec<ConfigError>] is a [Check]: it threads the
    vector, to which it can only push. *)

From S2P Require Import Prelude RustText RustNet ConfigError Dns Nibble Config Parse.

(** ** Computations that push errors *)

Definition Check (A : Type) := list ConfigError → A * list ConfigError.

Definition check_ret {A} (a : A) : Check A := λ es, (a, es).

Definition check_bind {A B} (m : Check A) (f : A → Check B) : Check B := λ es,
  let '(a, es) := m es in f a es.

(** The early return of a function whose result is an [Option]. *)
Definition check_try {A B} (m : Check (option A)) (f : A → Check (option B)) : Check (option B) :=
  check_bind m (λ o, match o with Some a => f a | None => check_ret None end).

Definition push (e : ConfigError) : Check unit := λ es, (tt, es ++ [e]).

(** [errors.push(e); return None]. *)
Definition reject {A} (e : ConfigError) : Check (option A) :=
  check_bind (push e) (λ _, check_ret None).

Definition accept {A} (a : A) : Check (option A) := check_ret (Some a).

Notation "'let!' x ':=' m 'in' k" := (check_bind m (λ x, k))
  (at level 10, x pattern, m at level 100, k at level 200) : pdns_scope.
Notation "'try!' x ':=' m 'in' k" := (check_try m (λ x, k))
  (at level 10, x pattern, m at level 100, k at level 200) : pdns_scope.

Fixpoint check_filter_map {A B} (f : A → Check (option B)) (l : list A) : Check (list B) :=
  match l with
  | [] => check_ret []
  | a :: l =>
      let! o := f a in
      let! rest := check_filter_map f l in
      check_ret (match o with Some b => b :: rest | None => rest end)
  end.

Fixpoint check_fold {A S} (f : A → S → Check S) (l : list A) (s : S) : Check S :=
  match l with
  | [] => check_ret s
  | a :: l => let! s := f a s in check_fold f l s
  end.

(** ** Networks *)

Definition PLACEHOLDER : bytes := bs "%digits%".
Definition PLACEHOLDER_DASHED : bytes := bs "%digits-dashed%".

Definition compile_network (v : RawValue) : Check (option (N * N)) :=
  match split_once_byte "/" (raw_value v) with
  | None => reject (error v NetworkMissingPrefixLen)
  | Some (addr_part, mask_part) =>
      match Ipv6Addr_from_str addr_part with
      | None => reject (error_at v 0 (len addr_part) NetworkInvalidAddress)
      | Some addr =>
          let mask_offset := usize_saturating_add (len addr_part) 1 in
          let at_mask k := error_at v mask_offset (len mask_part) k in
          match u32_from_str mask_part with
          | None => reject (at_mask NetworkPrefixLenNotANumber)
          | Some mask_u32 =>
              if 128 <? mask_u32
              then reject (at_mask (NetworkPrefixLenOutOfRange mask_u32)) else
              let mask := if mask_u32 <=? u8_MAX then mask_u32 else 128 in
              if negb (is_multiple_of mask 4)
              then reject (at_mask (NetworkPrefixNotNibbleAligned mask)) else
              if mask =? 0 then reject (at_mask (NetworkPrefixTooShort mask)) else
              if mask =? 128 then reject (error v NetworkIsSingleAddress) else
              let prefix := N.land addr (mask_bits mask) in
              if negb (addr =? prefix)
              then reject (error v (NetworkHostBitsSet
                     (Ipv6Addr_to_string prefix ++ bs "/" ++ to_decimal mask)))
              else accept (prefix, mask)
          end
      end
  end.

(** ** Forward templates *)

(** One segment between dots: the label it becomes, and whether it is dashed if
    it holds the placeholder.  [None] stands for the [malformed placeholder]
    error. *)
Definition compile_segment (segment : bytes) : option (FwdLabel * option bool) :=
  let seg_lower := to_ascii_lowercase segment in
  let hit := match str_find seg_lower PLACEHOLDER_DASHED with
             | Some at_ => Some (at_, PLACEHOLDER_DASHED, true)
             | None => match str_find seg_lower PLACEHOLDER with
                       | Some at_ => Some (at_, PLACEHOLDER, false)
                       | None => None
                       end
             end in
  match hit with
  | Some (at_, placeholder, dashed) =>
      '(pre, rest) ← split_at_checked segment at_;
      '(_, post) ← split_at_checked rest (len placeholder);
      Some (Digits pre (to_ascii_lowercase pre) post (to_ascii_lowercase post) dashed,
            Some dashed)
  | None => Some (Literal segment seg_lower, None)
  end.

(** The segment loop: [idx] is the segment's index; the state is the labels
    pushed so far, [digits_at] and [dashed_used]. *)
Fixpoint compile_segments (v : RawValue) (idx : N) (segs : list bytes)
    (ls : list FwdLabel) (digits_at : option N) (dashed_used : bool)
    : Check (option (list FwdLabel * option N * bool)) :=
  match segs with
  | [] => accept (ls, digits_at, dashed_used)
  | segment :: segs =>
      match segment with
      | [] => reject (error v (ResolvesToInvalidName (bs "empty label")))
      | _ =>
          match compile_segment segment with
          | None => reject (error v (ResolvesToInvalidName (bs "malformed placeholder")))
          | Some (l, Some dashed) =>
              compile_segments v (idx + 1) segs (ls ++ [l]) (Some idx) dashed
          | Some (l, None) =>
              compile_segments v (idx + 1) segs (ls ++ [l]) digits_at dashed_used
          end
      end
  end.

Section Compile.
Context {D : DnsOps}.

Definition compile_template (v : RawValue) (host_nibbles : N) : Check (option FwdTemplate) :=
  let lowered := to_ascii_lowercase (raw_value v) in
  let hits := match_count lowered PLACEHOLDER + match_count lowered PLACEHOLDER_DASHED in
  if hits =? 0 then reject (error v PlaceholderMissing) else
  if negb (hits =? 1) then reject (error v (PlaceholderRepeated hits)) else
  let template := default (raw_value v) (strip_suffix_byte "." (raw_value v)) in
  try! r := compile_segments v 0 (split_byte "." template) [] None false in
  let '(ls, digits_at, dashed_used) := r in
  match digits_at with
  | None => reject (error v (ResolvesToInvalidName
              (bs "placeholder does not lie within a single label")))
  | Some digits_at =>
      if dashed_used && negb (is_multiple_of host_nibbles 4)
      then reject (error v (DashedDigitsNotNibbleMultipleOfFour host_nibbles)) else
      let template := mkFwdTemplate ls digits_at in
      let widest := replicate (N.to_nat (N.min host_nibbles ADDR_NIBBLES)) "f"%byte in
      match render template widest with
      | Err e => reject (error v (ForwardNameTooLong (proto_error_to_string e)))
      | Ok _ => accept template
      end
  end.

(** ** Zones *)

Abbreviation seen_map K := (gmap K N).

(** The maps of seen networks and patterns change only when a zone is
    accepted; they are returned with it. *)
Definition compile_zone (raw : RawZone) (seen_networks : seen_map (N * N))
    (seen_patterns : seen_map bytes)
    : Check (option (Zone * seen_map (N * N) * seen_map bytes)) :=
  try! (prefix, mask) := compile_network (raw_network raw) in
  match seen_networks !! (prefix, mask) with
  | Some first_line => reject (error (raw_network raw) (DuplicateNetwork first_line))
  | None =>
  match raw_resolves_to raw with
  | None => reject (error (raw_network raw) MissingResolvesTo)
  | Some resolves_to =>
  let host_nibbles := (128 - mask) / 4 in
  try! fwd := compile_template resolves_to host_nibbles in
  let pattern_key := to_ascii_lowercase (raw_value resolves_to) in
  match seen_patterns !! pattern_key with
  | Some first_line => reject (error resolves_to (DuplicateForwardPattern first_line))
  | None =>
  try! upstream :=
    match raw_upstream raw with
    | Some v => match IpAddr_from_str (raw_value v) with
                | Some addr => accept (Some addr)
                | None => reject (error v InvalidUpstreamAddress)
                end
    | None => accept None
    end in
  match netmask_to_ptr_name prefix mask with
  | None => reject (error (raw_network raw) (NetworkPrefixNotNibbleAligned mask))
  | Some ptr_zone =>
  match parent fwd with
  | Err e => reject (error resolves_to (ResolvesToInvalidName (proto_error_to_string e)))
  | Ok fwd_parent =>
      accept
        (mkZone (raw_line_no (raw_network raw)) prefix mask host_nibbles ptr_zone
           (raw_value resolves_to) fwd fwd_parent DEFAULT_TTL upstream,
         <[(prefix, mask) := raw_line_no (raw_network raw)]> seen_networks,
         <[pattern_key := raw_line_no resolves_to]> seen_patterns)
  end end end end end.

(** ** Global settings *)

Definition parse_name (v : RawValue) (what : bytes) : Check (option DName) :=
  match from_str_relaxed (raw_value v) with
  | Ok name => accept (set_fqdn true name)
  | Err _ => reject (error v (InvalidDnsName what))
  end.

Definition parse_u32 (v : RawValue) (what allowed : bytes) : Check (option N) :=
  match u32_from_str (raw_value v) with
  | Some n => accept n
  | None => reject (error v (InvalidNumber what allowed))
  end.

Definition compile_listen (v : RawValue) : Check (option ListenAddr) :=
  match SocketAddr_from_str (raw_value v) with
  | Some sock => accept (mkListenAddr (ip sock) (port sock))
  | None =>
      match IpAddr_from_str (raw_value v) with
      | Some addr => accept (mkListenAddr addr DEFAULT_PORT)
      | None => reject (error v InvalidListenAddress)
      end
  end.

(** The local variables of [compile_globals]. *)
Record GlobalState := mkGlobalState {
  g_ttl : N;
  g_params : ServerParams;
  g_primary : option DName;
  g_hostmaster : option DName;
  g_nameservers : list DName;
}.

Definition with_params (p : ServerParams) (st : GlobalState) : GlobalState :=
  mkGlobalState (g_ttl st) p (g_primary st) (g_hostmaster st) (g_nameservers st).

Definition with_rrl (f : RrlParams → RrlParams) (st : GlobalState) : GlobalState :=
  let p := g_params st in
  with_params (mkServerParams (out_of_zone p) (max_udp_payload p) (upstream_timeout p)
                 (f (rrl p))) st.

(** A number in range is stored; one that does not parse, or is out of range,
    pushes an error and leaves the state alone. *)
Definition number_setting (v : RawValue) (what allowed : bytes) (in_range : N → bool)
    (set : N → GlobalState → GlobalState) (st : GlobalState) : Check GlobalState :=
  let! o := parse_u32 v what allowed in
  match o with
  | None => check_ret st
  | Some n =>
      if in_range n then check_ret (set n st)
      else let! _ := push (error v (InvalidNumber what allowed)) in check_ret st
  end.

(** The loop body of [compile_globals]. *)
Definition compile_global (g : RawGlobal) (st : GlobalState) : Check GlobalState :=
  let v := global_value g in
  let p := g_params st in
  match key g with
  | Primary =>
      let! o := parse_name v (bs "primary") in
      check_ret (mkGlobalState (g_ttl st) p o (g_hostmaster st) (g_nameservers st))
  | Hostmaster =>
      let! o := parse_name v (bs "hostmaster") in
      check_ret (mkGlobalState (g_ttl st) p (g_primary st) o (g_nameservers st))
  | Ns =>
      let! o := parse_name v (bs "ns") in
      check_ret match o with
        | Some name => mkGlobalState (g_ttl st) p (g_primary st) (g_hostmaster st)
                         (g_nameservers st ++ [name])
        | None => st
        end
  | Ttl =>
      number_setting v (bs "ttl") (bs "a TTL in seconds (0-2147483647)")
        (λ n, negb (0x7FFFFFFF <? n))
        (λ n st, mkGlobalState n (g_params st) (g_primary st) (g_hostmaster st)
                   (g_nameservers st)) st
  | OutOfZone =>
      let set o := with_params (mkServerParams o (max_udp_payload p)
                                  (upstream_timeout p) (rrl p)) st in
      if bool_decide (raw_value v = bs "refused") then check_ret (set Refused) else
      if bool_decide (raw_value v = bs "nxdomain") then check_ret (set NxDomain) else
      let! _ := push (error v (InvalidChoice (bs "out-of-zone")
                                 (bs "`refused` or `nxdomain`"))) in
      check_ret st
  | MaxUdpPayload =>
      number_setting v (bs "max-udp-payload") (bs "512-65535 bytes")
        (λ n, (n <=? u16_MAX) && (512 <=? n))
        (λ n st, with_params (mkServerParams (out_of_zone p) n (upstream_timeout p)
                                (rrl p)) st) st
  | UpstreamTimeout =>
      number_setting v (bs "upstream-timeout") (bs "1-10000 milliseconds")
        (λ n, (1 <=? n) && (n <=? 10000))
        (λ n st, with_params (mkServerParams (out_of_zone p) (max_udp_payload p)
                                (from_millis n) (rrl p)) st) st
  | RrlOff =>
      check_ret (with_rrl (λ r, mkRrlParams false (responses_per_second r) (burst r)
                                  (slip r) (ipv4_prefix r) (ipv6_prefix r)) st)
  | RrlRps =>
      number_setting v (bs "rrl responses-per-second") (bs "at least 1")
        (λ n, 1 <=? n)
        (λ n, with_rrl (λ r, mkRrlParams (enabled r) n (burst r)
                               (slip r) (ipv4_prefix r) (ipv6_prefix r))) st
  | RrlBurst =>
      number_setting v (bs "rrl burst") (bs "at least 1")
        (λ n, 1 <=? n)
        (λ n, with_rrl (λ r, mkRrlParams (enabled r) (responses_per_second r) n
                               (slip r) (ipv4_prefix r) (ipv6_prefix r))) st
  | RrlSlip =>
      number_setting v (bs "rrl slip") (bs "0 (always drop) or more")
        (λ _, true)
        (λ n, with_rrl (λ r, mkRrlParams (enabled r) (responses_per_second r) (burst r)
                               n (ipv4_prefix r) (ipv6_prefix r))) st
  end.

Definition missing_pair_error (raw : RawConfig) (missing present : bytes) : ConfigError :=
  let anchor := iter_find
    (λ g, match key g with Primary | Hostmaster => true | _ => false end)
    (raw_globals raw) in
  let kind := MissingCompanionDirective missing present in
  match anchor with
  | Some g => error (global_value g) kind
  | None => mkConfigError 1 [] None kind
  end.

Record Globals := mkGlobals {
  globals_ttl : N;
  globals_soa : option SoaParams;
  globals_nameservers : list DName;
  globals_params : ServerParams;
}.

Definition compile_globals (raw : RawConfig) : Check Globals :=
  let! st := check_fold compile_global (raw_globals raw)
               (mkGlobalState DEFAULT_TTL ServerParams_default None None []) in
  let! soa :=
    match g_primary st, g_hostmaster st with
    | Some primary, Some hostmaster =>
        accept (mkSoaParams primary hostmaster 1 604800 86400 2419200 60)
    | Some _, None => reject (missing_pair_error raw (bs "hostmaster") (bs "primary"))
    | None, Some _ => reject (missing_pair_error raw (bs "primary") (bs "hostmaster"))
    | None, None => check_ret None
    end in
  check_ret (mkGlobals (g_ttl st) soa (g_nameservers st) (g_params st)).

(** ** The whole configuration *)

(** The zone loop of [compile]. *)
Fixpoint compile_zones (raw : list RawZone) (ttl : N)
    (seen_networks : seen_map (N * N)) (seen_patterns : seen_map bytes)
    (zones : list Zone) : Check (list Zone) :=
  match raw with
  | [] => check_ret zones
  | z :: raw =>
      let! o := compile_zone z seen_networks seen_patterns in
      match o with
      | Some (compiled, seen_networks, seen_patterns) =>
          compile_zones raw ttl seen_networks seen_patterns
            (zones ++ [set_ttl ttl compiled])
      | None => compile_zones raw ttl seen_networks seen_patterns zones
      end
  end.

(** [sort_by_key(|z| Reverse(z.mask))]: the standard library's sort is stable,
    so zones of one mask keep their order. *)
Fixpoint insert_zone (z : Zone) (l : list Zone) : list Zone :=
  match l with
  | [] => [z]
  | y :: l' => if mask y <=? mask z then z :: l else y :: insert_zone z l'
  end.

Definition sort_zones (l : list Zone) : list Zone := foldr insert_zone [] l.

Definition compile (raw : RawConfig) : Check Config :=
  let! listen := check_filter_map compile_listen (raw_listen raw) in
  let! globals := compile_globals raw in
  let! zones := compile_zones (raw_zones raw) (globals_ttl globals) ∅ ∅ [] in
  check_ret (mkConfig listen (sort_zones zones) (globals_soa globals)
               (globals_nameservers globals) (globals_params globals)).

(** [Config::parse]. *)
Definition Config_parse (input : bytes) : result Config ConfigErrors :=
  let '(raw, errors) := parse input in
  let '(config, errors) := compile raw errors in
  match errors with
  | [] => Ok config
  | _ => Err (ConfigErrors_new errors)
  end.
End Compile.
