(* ===== verification/Sample.v ===== *)
(** * A sample configuration

    A small file with two nested networks, on the model [LabelName] of the name
    library.  The instances that accompany the theorems are evaluated on it. *)

From S2P Require Import Prelude RustNet Dns Config Parse Compile.

#[local] Existing Instance LabelName.ops.

Definition sample_input : bytes := bs "# two nested networks
listen [::1]:5353
primary ns1.example.net
hostmaster hostmaster.example.net.
ns ns1.example.net
ttl 300
network 2001:db8::/32
  resolves to ipv6-%DIGITS%.wide.example.net
network 2001:db8:1:2::/64
  resolves to h%DIGITS-DASHED%.lan.example.net
  with upstream 192.0.2.1
".

Definition config_of (input : bytes) : Config :=
  match Config_parse input with Ok c => c | Err _ => Config_default end.

Definition sample_config : Config := config_of sample_input.

Lemma sample_parses : Config_parse sample_input = Ok sample_config.
Proof. vm_refl. Qed.

(** The first zone of a configuration that has one. *)
Definition first_zone (c : Config) : Zone :=
  match zones c with
  | z :: _ => z
  | [] => mkZone 0 0 0 0 (LabelName.mk [] true) [] (mkFwdTemplate [] 0) (LabelName.mk [] true) 0 None
  end.

(** The longer prefix comes first. *)
Definition sample_zone : Zone := first_zone sample_config.

(** 2001:db8:1:2::c0ff:ee *)
Definition sample_addr : N := 0x20010db8000100020000000000c0ffee.

Definition sample_reverse : LabelName.t :=
  LabelName.mk (LabelName.split_dots
    (bs "e.e.f.f.0.c.0.0.0.0.0.0.0.0.0.0.2.0.0.0.1.0.0.0.8.b.d.0.1.0.0.2.ip6.arpa") []) true.

Definition sample_forward : LabelName.t :=
  LabelName.mk [bs "H0000-0000-00c0-ffee"; bs "lan"; bs "Example"; bs "NET"] true.

Lemma sample_zone_first : zones sample_config !! 0%nat = Some sample_zone.
Proof. vm_refl. Qed.
