(* ===== verification/Zones.v ===== *)
(** * [src/zone/]: pure resolution, query name in, records out

    [Lookup] is [zone/lookup.rs], [Synth] is [zone/synth.rs] and [resolve] is
    [zone/mod.rs].  The theorems about them are in [ZoneSpec]. *)

From S2P Require Import Prelude RustText Dns Nibble Config.

(** ** Matching a query name against the configured zones *)

Module Lookup.
Definition strip_prefix_ci (label prefix : bytes) : option bytes :=
  '(head, tail) ← split_at_checked label (len prefix);
  if eq_ignore_ascii_case head prefix then Some tail else None.

(** [checked_sub] guards the split position. *)
Definition strip_suffix_ci (label suffix : bytes) : option bytes :=
  if len label <? len suffix then None else
  let split := len label - len suffix in
  '(head, tail) ← split_at_checked label split;
  if eq_ignore_ascii_case tail suffix then Some head else None.

Section Lookup.
Context {D : DnsOps}.

Definition zone_for_addr (config : Config) (addr : N) : option Zone :=
  iter_find (λ zone, N.land addr (mask_bits (mask zone)) =? prefix zone) (zones config).

Definition match_ptr (config : Config) (qname : DName) : option (Zone * N) :=
  addr ← ptr_name_to_addr qname;
  (λ zone, (zone, addr)) <$> zone_for_addr config addr.

(** The digits of one label: both checks, length and alphabet, are here. *)
Definition match_digits (host_nibbles : N) (dashed : bool) (middle : bytes) : option N :=
  if dashed then
    undashed ← undash_group middle host_nibbles;
    digits_to_host undashed host_nibbles
  else digits_to_host middle host_nibbles.

(** The loop of [match_zone_forward] over the zipped labels; the inner option
    is the variable [host], the outer one the early return. *)
Fixpoint match_labels (host_nibbles : N) (ls : list bytes) (ts : list FwdLabel)
    (host : option N) : option (option N) :=
  match ls, ts with
  | label :: ls, template :: ts =>
      match template with
      | Literal _ lower =>
          if negb (eq_ignore_ascii_case label lower) then None
          else match_labels host_nibbles ls ts host
      | Digits _ pre_lower _ post_lower dashed =>
          rest ← strip_prefix_ci label pre_lower;
          middle ← strip_suffix_ci rest post_lower;
          h ← match_digits host_nibbles dashed middle;
          match_labels host_nibbles ls ts (Some h)
      end
  | _, _ => Some host
  end.

Definition match_zone_forward (zone : Zone) (qname : DName) : option N :=
  if negb (num_labels qname =? label_count (fwd zone)) then None else
  host ← match_labels (host_nibbles zone) (labels qname) (fwd_labels (fwd zone)) None;
  (λ host, N.lor (prefix zone) host) <$> host.

Definition match_forward (config : Config) (qname : DName) : option (Zone * N) :=
  iter_find_map
    (λ zone, (λ addr, (zone, addr)) <$> match_zone_forward zone qname) (zones config).

Definition zone_containing (config : Config) (qname : DName) : option Zone :=
  iter_find (λ zone, zone_of (ptr_zone zone) qname || zone_of (fwd_parent zone) qname)
    (zones config).
End Lookup.
End Lookup.

(** ** Building the records of an answer *)

Module Synth.
Section Synth.
Context {D : DnsOps}.

Definition forward_name (zone : Zone) (addr : N) : option DName :=
  digits ← host_digits addr (host_nibbles zone);
  result_ok (render (fwd zone) digits).

Definition ptr_record (zone : Zone) (qname : DName) (addr : N) : option DRecord :=
  target ← forward_name zone addr;
  Some (from_rdata qname (ttl zone) (RData.PTR target)).

Definition aaaa_record (zone : Zone) (qname : DName) (addr : N) : DRecord :=
  from_rdata qname (ttl zone) (RData.AAAA addr).
End Synth.

Definition forward_has_type (qtype : RecordType.t) : bool :=
  match qtype with RecordType.AAAA | RecordType.ANY => true | _ => false end.

Definition reverse_has_type (qtype : RecordType.t) : bool :=
  match qtype with RecordType.PTR | RecordType.ANY => true | _ => false end.
End Synth.

(** ** Resolution *)

Section Resolve.
Context {D : DnsOps}.

Inductive Outcome :=
  | Answer (zone : Zone) (records : list DRecord)
  | NoName (zone : Zone)
  | NoZone.

Definition resolve (config : Config) (qname : DName) (qtype : RecordType.t) : Outcome :=
  let reverse := if Synth.reverse_has_type qtype
                 then Lookup.match_ptr config qname else None in
  match reverse with
  | Some (zone, addr) =>
      Answer zone (match Synth.ptr_record zone qname addr with Some r => [r] | None => [] end)
  | None =>
      match Lookup.match_forward config qname with
      | Some (zone, addr) =>
          Answer zone (if Synth.forward_has_type qtype
                       then [Synth.aaaa_record zone qname addr] else [])
      | None =>
          match Lookup.zone_containing config qname with
          | Some zone => NoName zone
          | None => NoZone
          end
      end
  end.
End Resolve.
