(* ===== verification/Rrl.v ===== *)
(** * [src/rrl.rs]: response rate limiting

    The keyed token buckets come from the crate [governor] and are the class
    [LimiterOps]; its documented behaviour is [LimiterLaws].  [decide] is the
    source's [Rrl::decide] with the clock reading as an argument.  Requests of
    many threads share one [Rrl]: [rrl_step] interleaves their two atomic
    accesses to it, the bucket check and the [fetch_add] on the counter. *)

From S2P Require Import Prelude RustNet Config.

(** ** Client keys *)

Inductive ClientKey := K4 (prefix : N) | K6 (prefix : N).

#[export] Instance ClientKey_eq_dec : EqDecision ClientKey.
Proof. solve_decision. Defined.

#[export] Instance ClientKey_countable : Countable ClientKey.
Proof.
  refine (inj_countable'
    (λ k, match k with K4 n => inl n | K6 n => inr n end)
    (λ s, match s with inl n => K4 n | inr n => K6 n end) _).
  by intros [].
Defined.

(** [ClientKey::new]. *)
Definition ClientKey_new (addr : IpAddr) (ipv4_prefix ipv6_prefix : N) : ClientKey :=
  match addr with
  | V4 bits =>
      let shift := 32 - N.min ipv4_prefix 32 in
      K4 (if 32 <=? shift then 0
          else wrap 32 (N.shiftl (N.shiftr bits shift) shift))
  | V6 v6 =>
      let high := wrap 64 (N.shiftr v6 64) in
      let prefix := N.min ipv6_prefix 64 in
      let shift := 64 - prefix in
      K6 (if 64 <=? shift then 0
          else wrap 64 (N.shiftl (N.shiftr high shift) shift))
  end.

Inductive Kind := AnswerKind | Negative.
Inductive Decision := Allow | Drop | Truncate.

#[export] Instance Kind_eq_dec : EqDecision Kind.
Proof. solve_decision. Defined.
#[export] Instance Decision_eq_dec : EqDecision Decision.
Proof. solve_decision. Defined.

(** ** The limiter crate *)

Class LimiterOps := {
  Quota : Type;
  Limiter : Type;
  (** [Quota::per_second] and [Quota::allow_burst], on non-zero values. *)
  per_second : N → Quota;
  allow_burst : N → Quota → Quota;
  (** [RateLimiter::keyed]. *)
  keyed : Quota → Limiter;
  (** [check_key(k).is_ok()] at the given instant, and the limiter after it. *)
  check_key : N → ClientKey → Limiter → bool * Limiter;
  (** [retain_recent] at the given instant, and [len]. *)
  retain_recent : N → Limiter → Limiter;
  limiter_len : Limiter → N;
  (** Two limiters hold the same state for a key. *)
  same_bucket : ClientKey → Limiter → Limiter → Prop;
}.

(** Every key has a state of its own: a check reads and writes the state of its
    key only. *)
Class LimiterLaws (G : LimiterOps) : Prop := {
  same_bucket_equiv k :: Equivalence (same_bucket k);
  check_key_local t k l l' :
    same_bucket k l l' →
    fst (check_key t k l) = fst (check_key t k l') ∧
    same_bucket k (snd (check_key t k l)) (snd (check_key t k l'));
  check_key_other t k k' l :
    k ≠ k' → same_bucket k' (snd (check_key t k l)) l;
}.

(** ** The rate limiter *)

Section Rrl.
Context {G : LimiterOps}.

Record Rrl := mkRrl {
  rrl_params : RrlParams;
  answers : Limiter;
  negatives : Limiter;
  suppressed : N;
}.

Definition quota (params : RrlParams) : Quota :=
  let rps := if responses_per_second params =? 0 then 1 else responses_per_second params in
  let b := if burst params =? 0 then rps else burst params in
  allow_burst b (per_second rps).

Definition Rrl_new (params : RrlParams) : Rrl :=
  let q := quota params in
  mkRrl params (keyed q) (keyed q) 0.

(** [Rrl::enabled]. *)
Definition Rrl_enabled (r : Rrl) : bool := enabled (rrl_params r).

Definition client_key (r : Rrl) (addr : IpAddr) : ClientKey :=
  ClientKey_new addr (ipv4_prefix (rrl_params r)) (ipv6_prefix (rrl_params r)).

Definition limiter_of (kind : Kind) (r : Rrl) : Limiter :=
  match kind with AnswerKind => answers r | Negative => negatives r end.

Definition set_limiter (kind : Kind) (l : Limiter) (r : Rrl) : Rrl :=
  match kind with
  | AnswerKind => mkRrl (rrl_params r) l (negatives r) (suppressed r)
  | Negative => mkRrl (rrl_params r) (answers r) l (suppressed r)
  end.

(** The first atomic access: [limiter.check_key(&key)]. *)
Definition check_limit (now : N) (addr : IpAddr) (kind : Kind) (r : Rrl) : bool * Rrl :=
  let '(ok, l) := check_key now (client_key r addr) (limiter_of kind r) in
  (ok, set_limiter kind l r).

(** The second: [self.suppressed.fetch_add(1, Relaxed)]; returns the value
    before it. *)
Definition count_suppressed (r : Rrl) : N * Rrl :=
  (suppressed r,
   mkRrl (rrl_params r) (answers r) (negatives r) (u64_add (suppressed r) 1)).

(** What becomes of the [n]-th suppressed response. *)
Definition slip_decision (params : RrlParams) (n : N) : Decision :=
  if slip params =? 0 then Drop
  else if is_multiple_of n (slip params) then Truncate else Drop.

Definition exempt (r : Rrl) (is_tcp : bool) : bool :=
  negb (enabled (rrl_params r)) || is_tcp.

(** [Rrl::decide]. *)
Definition decide (now : N) (addr : IpAddr) (kind : Kind) (is_tcp : bool) (r : Rrl)
    : Decision * Rrl :=
  if exempt r is_tcp then (Allow, r) else
  let '(ok, r) := check_limit now addr kind r in
  if ok then (Allow, r) else
  let '(n, r) := count_suppressed r in
  (slip_decision (rrl_params r) n, r).

(** One [retain_recent], which reads the clock by itself. *)
Definition sweep_limiter (now : N) (kind : Kind) (r : Rrl) : Rrl :=
  set_limiter kind (retain_recent now (limiter_of kind r)) r.

(** [Rrl::sweep] and [Rrl::tracked]. *)
Definition sweep (now now' : N) (r : Rrl) : Rrl :=
  sweep_limiter now' Negative (sweep_limiter now AnswerKind r).

Definition tracked (r : Rrl) : N :=
  N.min (limiter_len (answers r) + limiter_len (negatives r)) usize_MAX.

(** ** Concurrent requests *)

(** A request in flight: not started, denied by its bucket and about to count
    itself, or decided. *)
Inductive Phase :=
  | Arrived (addr : IpAddr) (kind : Kind) (is_tcp : bool)
  | Denied
  | Decided (d : Decision).

(** One atomic access of one request, at some instant. *)
Inductive rrl_step : Rrl * list Phase → Rrl * list Phase → Prop :=
  | step_exempt r pre post addr kind is_tcp :
      exempt r is_tcp = true →
      rrl_step (r, pre ++ Arrived addr kind is_tcp :: post)
               (r, pre ++ Decided Allow :: post)
  | step_check r pre post addr kind is_tcp now ok r' :
      exempt r is_tcp = false →
      check_limit now addr kind r = (ok, r') →
      rrl_step (r, pre ++ Arrived addr kind is_tcp :: post)
               (r', pre ++ (if ok then Decided Allow else Denied) :: post)
  | step_count r pre post n r' :
      count_suppressed r = (n, r') →
      rrl_step (r, pre ++ Denied :: post)
               (r', pre ++ Decided (slip_decision (rrl_params r) n) :: post)
  | step_sweep r now kind phases :
      rrl_step (r, phases) (sweep_limiter now kind r, phases).

Definition is_decided (d : Decision) (p : Phase) : bool :=
  match p with Decided d' => bool_decide (d' = d) | _ => false end.

Definition count_decided (d : Decision) (ps : list Phase) : N :=
  len (List.filter (is_decided d) ps).
End Rrl.
