(* ===== verification/Upstream.v ===== *)
(** * [src/upstream.rs]: optional upstream PTR lookups

    [filter_upstream] is the allowlist on a foreign answer section, [Breaker]
    the consecutive-failure circuit breaker, and [lookup_ptr] the whole lookup
    of one request.  The resolver crate is not part of the repository: what a
    lookup returns is the argument [LookupOutcome], and the clock readings are
    arguments too.  Requests overlap while they wait for the resolver;
    [up_step] is the transition system of one upstream with any number of
    lookups in flight. *)

From S2P Require Import Prelude RustNet Dns Config.

Definition MAX_RELAYED_RECORDS : N := 8.
Definition MIN_RELAY_TTL : N := 30.
Definition MAX_RELAY_TTL : N := 3600.
Definition MAX_INFLIGHT : N := 64.
Definition BREAKER_THRESHOLD : N := 8.
Definition BREAKER_COOLDOWN : N := from_secs 10.
Definition UPSTREAM_LABEL : bytes := bs "upstream".

(** ** The allowlist *)

(** [u32::clamp]. *)
Definition clamp (lo hi x : N) : N := N.max lo (N.min hi x).

Section Filter.
Context {D : DnsOps}.

Definition relayable (up_qname : DName) (record : DRecord) : bool :=
  bool_decide (rec_class record = DNSClass.IN) &&
  bool_decide (RData.record_type (rec_data record) = RecordType.PTR) &&
  name_eq (rec_name record) up_qname &&
  match rec_data record with RData.PTR _ => true | _ => false end.

Definition relay (qname : DName) (record : DRecord) : DRecord :=
  from_rdata qname (clamp MIN_RELAY_TTL MAX_RELAY_TTL (rec_ttl record)) (rec_data record).

Definition filter_upstream (qname up_qname : DName) (answers : list DRecord) : list DRecord :=
  relay qname <$>
    take (N.to_nat MAX_RELAYED_RECORDS) (List.filter (relayable up_qname) answers).

Definition upstream_qname (qname : DName) : option DName :=
  result_ok (append_label UPSTREAM_LABEL qname).
End Filter.

(** ** The circuit breaker *)

Module Breaker.
Record BreakerState := mkState {
  consecutive_failures : N;
  open_until : option N;
}.

(** The state behind its mutex; a thread that panicked while holding the lock
    leaves it poisoned. *)
Record t := mkBreaker { state : BreakerState; poisoned : bool }.

Definition default : t := mkBreaker (mkState 0 None) false.

(** [is_open] recovers the state of a poisoned lock. *)
Definition is_open (now : N) (b : t) : bool * t :=
  match open_until (state b) with
  | Some until =>
      if now <? until then (true, b)
      else (false, mkBreaker (mkState 0 None) (poisoned b))
  | None => (false, b)
  end.

Definition record_success (b : t) : t :=
  if poisoned b then b else mkBreaker (mkState 0 None) false.

Definition record_failure (now : N) (b : t) : bool * t :=
  if poisoned b then (false, b) else
  let failures := u32_saturating_add (consecutive_failures (state b)) 1 in
  if (BREAKER_THRESHOLD <=? failures) &&
     bool_decide (open_until (state b) = None)
  then (true, mkBreaker (mkState failures (Some (now + BREAKER_COOLDOWN))) false)
  else (false, mkBreaker (mkState failures (open_until (state b))) false).
End Breaker.

(** ** An upstream and its lookups *)

(** The resolver options the source sets. *)
Record ResolverSettings := mkResolverSettings {
  opt_timeout : N;
  opt_attempts : N;
  opt_recursion_desired : bool;
  opt_edns0 : bool;
  opt_cache_size : N;
  opt_try_tcp_on_error : bool;
  opt_num_concurrent_reqs : N;
}.

Definition resolver_settings (timeout : N) : ResolverSettings :=
  mkResolverSettings timeout 0 false true 4096 false 1.

(** [Resolver::builder_with_config(..).with_options(..).build()] for a single
    name server. *)
Class ResolverOps := {
  Resolver : Type;
  build_resolver : IpAddr → ResolverSettings → result Resolver bytes;
}.

Section Lookup.
Context {D : DnsOps} {R : ResolverOps}.

(** [inflight] is the number of permits the semaphore has left. *)
Record Upstream := mkUpstream {
  up_addr : IpAddr;
  resolver : Resolver;
  inflight : N;
  breaker : Breaker.t;
  timeout : N;
}.

Definition Upstream_new (addr : IpAddr) (timeout : N) : result Upstream bytes :=
  match build_resolver addr (resolver_settings timeout) with
  | Ok resolver => Ok (mkUpstream addr resolver MAX_INFLIGHT Breaker.default timeout)
  | Err e => Err (bs "cannot build upstream resolver for " ++ IpAddr_to_string addr ++ bs ": " ++ e)
  end.

Definition set_breaker (b : Breaker.t) (u : Upstream) : Upstream :=
  mkUpstream (up_addr u) (resolver u) (inflight u) b (timeout u).
Definition set_inflight (n : N) (u : Upstream) : Upstream :=
  mkUpstream (up_addr u) (resolver u) n (breaker u) (timeout u).

(** What the timed resolver call yields: an answer section, a resolver error
    (a negative answer among them), or the deadline. *)
Inductive LookupOutcome :=
  | Found (answers : list DRecord)
  | Failed
  | Elapsed.

(** The part of [lookup_ptr] before the [await]: the name to ask for, with a
    permit held, or nothing. *)
Definition lookup_begin (now : N) (qname : DName) (u : Upstream) : option DName * Upstream :=
  let '(is_open, b) := Breaker.is_open now (breaker u) in
  let u := set_breaker b u in
  if is_open then (None, u) else
  (* [try_acquire_owned] *)
  if inflight u =? 0 then (None, u) else
  let u := set_inflight (inflight u - 1) u in
  match upstream_qname qname with
  | None => (None, set_inflight (inflight u + 1) u)
  | Some up_qname => (Some up_qname, u)
  end.

(** The part after it; the permit is released when the function returns. *)
Definition lookup_end (now : N) (qname up_qname : DName) (outcome : LookupOutcome)
    (u : Upstream) : list DRecord * Upstream :=
  let '(kept, b) :=
    match outcome with
    | Found answers =>
        (filter_upstream qname up_qname answers, Breaker.record_success (breaker u))
    | Failed => ([], Breaker.record_success (breaker u))
    | Elapsed => ([], snd (Breaker.record_failure now (breaker u)))
    end in
  (kept, set_inflight (inflight u + 1) (set_breaker b u)).

(** The clock at the start and at the end of one lookup, and its outcome. *)
Record LookupEnv := mkLookupEnv {
  env_begin : N;
  env_end : N;
  env_outcome : DName → LookupOutcome;
}.

(** [Upstream::lookup_ptr], with no other request in between. *)
Definition lookup_ptr (e : LookupEnv) (qname : DName) (u : Upstream)
    : list DRecord * Upstream :=
  match lookup_begin (env_begin e) qname u with
  | (None, u) => ([], u)
  | (Some up_qname, u) => lookup_end (env_end e) qname up_qname (env_outcome e up_qname) u
  end.

(** ** Overlapping lookups *)

(** The waiting lookups, each with its query and the name it asked for, and
    the clock. *)
Record World := mkWorld {
  w_upstream : Upstream;
  w_waiting : list (DName * DName);
  w_now : N;
}.

(** [up_step w result w']: time passes; a lookup begins (and waits, or returns
    nothing at once); one returns its records; one is dropped at its [await],
    which releases its permit. *)
Inductive up_step : World → option (list DRecord) → World → Prop :=
  | step_tick u ws now now' :
      now <= now' →
      up_step (mkWorld u ws now) None (mkWorld u ws now')
  | step_begin u ws now qname up_qname u' :
      lookup_begin now qname u = (Some up_qname, u') →
      up_step (mkWorld u ws now) None (mkWorld u' ((qname, up_qname) :: ws) now)
  | step_skip u ws now qname u' :
      lookup_begin now qname u = (None, u') →
      up_step (mkWorld u ws now) (Some []) (mkWorld u' ws now)
  | step_end u pre qname up_qname post now outcome kept u' :
      lookup_end now qname up_qname outcome u = (kept, u') →
      up_step (mkWorld u (pre ++ (qname, up_qname) :: post) now) (Some kept)
              (mkWorld u' (pre ++ post) now)
  | step_cancel u pre q post now :
      up_step (mkWorld u (pre ++ q :: post) now) None
              (mkWorld (set_inflight (inflight u + 1) u) (pre ++ post) now).

Inductive up_reachable (u0 : Upstream) : World → Prop :=
  | reach_init now : up_reachable u0 (mkWorld u0 [] now)
  | reach_step w r w' : up_reachable u0 w → up_step w r w' → up_reachable u0 w'.
End Lookup.
