(* ===== verification/Handler.v ===== *)
(** * [src/server/handler.rs]: the request handler

    [decide] chooses the reply, [handle_inner] adds the protocol checks, the
    rate limiter and the response construction, and [handle_request] is the
    entry point with its panic guard.  The message types of the server crate are
    not part of the repository: a response is what the handler hands to the
    response builder, and sending it is the argument [transport]. *)

From S2P Require Import Prelude RustNet Dns Nibble Config Zones Rrl Upstream.

Module ResponseCode.
Inductive t := NoError | FormErr | ServFail | NXDomain | NotImp | Refused | BADVERS
  | Other (code : N).
#[global] Instance t_eq_dec : EqDecision t.
Proof. solve_decision. Defined.
End ResponseCode.

Module OpCode.
Inductive t := Query | Status | Notify | Update | Other (code : N).
#[global] Instance t_eq_dec : EqDecision t.
Proof. solve_decision. Defined.
End OpCode.

(** The header of a message. *)
Record Metadata := mkMetadata {
  id : N;
  is_response : bool;
  op_code : OpCode.t;
  authoritative : bool;
  truncation : bool;
  recursion_desired : bool;
  recursion_available : bool;
  authentic_data : bool;
  checking_disabled : bool;
  response_code : ResponseCode.t;
}.

(** ** Server state: [Zones] *)

Section Handler.
Context {D : DnsOps} {R : ResolverOps} {G : LimiterOps}.

Record Zones := mkZones {
  config : Config;
  upstreams : gmap IpAddr Upstream;
}.

(** [Zones::new]: one client per distinct upstream address. *)
Fixpoint build_upstreams (zs : list Zone) (timeout : N) (m : gmap IpAddr Upstream)
    : result (gmap IpAddr Upstream) bytes :=
  match zs with
  | [] => Ok m
  | zone :: zs =>
      match upstream zone with
      | None => build_upstreams zs timeout m
      | Some addr =>
          match m !! addr with
          | Some _ => build_upstreams zs timeout m
          | None =>
              let? u := Upstream_new addr timeout in
              build_upstreams zs timeout (<[addr := u]> m)
          end
      end
  end.

Definition Zones_new (c : Config) : result Zones bytes :=
  let? m := build_upstreams (zones c) (upstream_timeout (params c)) ∅ in
  Ok (mkZones c m).

(** ** Replies *)

Record Reply := mkReply {
  code : ResponseCode.t;
  reply_authoritative : bool;
  reply_answers : list DRecord;
  authority : list DRecord;
  reply_kind : Kind;
}.

Definition Reply_refused : Reply := mkReply ResponseCode.Refused false [] [] Negative.
Definition Reply_error (code : ResponseCode.t) : Reply := mkReply code false [] [] Negative.

(** [i32::try_from(x).unwrap_or(i32::MAX)]. *)
Definition to_i32 (x : N) : N := if x <=? i32_MAX then x else i32_MAX.

Definition soa_record (apex : DName) (soa : SoaParams) (ttl : N) : DRecord :=
  let rdata := RData.SOA (primary soa) (hostmaster soa) (serial soa)
                 (to_i32 (refresh soa)) (to_i32 (retry soa)) (to_i32 (expire soa))
                 (minimum soa) in
  from_rdata apex (N.min ttl (minimum soa)) rdata.

Definition ns_records (apex : DName) (c : Config) (ttl : N) : list DRecord :=
  (λ ns, from_rdata apex ttl (RData.NS ns)) <$> nameservers c.

(** SOA for the authority section of a NODATA answer. *)
Definition negative_authority (c : Config) (qname : DName) (kind : Kind) : list DRecord :=
  if bool_decide (kind ≠ Negative) then [] else
  match soa c with
  | None => []
  | Some soa =>
      default []
        (iter_find_map
           (λ zone,
              iter_find_map
                (λ apex, if zone_of apex qname
                         then Some [soa_record apex soa (ttl zone)] else None)
                [ptr_zone zone; fwd_parent zone])
           (zones c))
  end.

(** ** [Handler::decide] *)

Definition is_soa_or_any (t : RecordType.t) : bool :=
  match t with RecordType.SOA | RecordType.ANY => true | _ => false end.
Definition is_ns_or_any (t : RecordType.t) : bool :=
  match t with RecordType.NS | RecordType.ANY => true | _ => false end.

(** The apex branch. *)
Definition apex_reply (c : Config) (qname : DName) (qtype : RecordType.t) : option Reply :=
  if negb (is_soa_or_any qtype || is_ns_or_any qtype) then None else
  apex ← iter_find (λ a, name_eq a qname) (apexes c);
  let ttl := match zones c with z :: _ => ttl z | [] => 3600 end in
  let answers :=
    (if is_soa_or_any qtype
     then match soa c with Some soa => [soa_record apex soa ttl] | None => [] end
     else []) ++
    (if is_ns_or_any qtype then ns_records apex c ttl else []) in
  let kind := match answers with [] => Negative | _ => AnswerKind end in
  Some (mkReply ResponseCode.NoError true answers [] kind).

(** The upstream's override of a synthesized PTR, and the upstream after it. *)
Definition override_ptr (e : LookupEnv) (zs : Zones) (zone : Zone) (qname : DName)
    (qtype : RecordType.t) (records : list DRecord) : list DRecord * Zones :=
  match records with
  | [] => (records, zs)
  | _ =>
      if negb (bool_decide (qtype = RecordType.PTR)) then (records, zs) else
      match upstream zone with
      | None => (records, zs)
      | Some addr =>
          match upstreams zs !! addr with
          | None => (records, zs)
          | Some u =>
              let '(relayed, u) := lookup_ptr e qname u in
              let zs := mkZones (config zs) (<[addr := u]> (upstreams zs)) in
              (match relayed with [] => records | _ => relayed end, zs)
          end
      end
  end.

Definition decide_reply (e : LookupEnv) (zs : Zones) (qname : DName) (qtype : RecordType.t)
    (qclass : DNSClass.t) : Reply * Zones :=
  let c := config zs in
  if negb (match qclass with DNSClass.IN | DNSClass.ANY => true | _ => false end)
  then (Reply_refused, zs) else
  if match qtype with RecordType.AXFR | RecordType.IXFR => true | _ => false end
  then (Reply_refused, zs) else
  match apex_reply c qname qtype with
  | Some reply => (reply, zs)
  | None =>
      match resolve c qname qtype with
      | Answer zone records =>
          let '(records, zs) := override_ptr e zs zone qname qtype records in
          let kind := match records with [] => Negative | _ => AnswerKind end in
          (mkReply ResponseCode.NoError true records (negative_authority c qname kind) kind,
           zs)
      | NoName zone =>
          let apex := if zone_of (ptr_zone zone) qname then ptr_zone zone
                      else fwd_parent zone in
          let authority := match soa c with
                           | Some soa => [soa_record apex soa (ttl zone)]
                           | None => []
                           end in
          (mkReply ResponseCode.NXDomain true [] authority Negative, zs)
      | NoZone =>
          (match out_of_zone (params c) with
           | Refused => Reply_refused
           | NxDomain => mkReply ResponseCode.NXDomain false [] [] Negative
           end, zs)
      end
  end.
End Handler.

(** ** Requests and responses *)

(** [Metadata::response_from_request] and [Metadata::new(id, Response, op)] of
    the message library. *)
Class MessageOps := {
  response_from_request : Metadata → Metadata;
  metadata_new : N → OpCode.t → Metadata;
  ResponseInfo : Type;
  (** [ResponseInfo::from(Header { metadata, .. })]. *)
  response_info : Metadata → ResponseInfo;
}.

(** A response header repeats the request's id and operation and reports
    success until it is told otherwise. *)
Class MessageLaws (M : MessageOps) : Prop := {
  response_is_response m : is_response (response_from_request m) = true;
  response_id m : id (response_from_request m) = id m;
  response_truncation m : truncation (response_from_request m) = false;
  metadata_new_id i o : id (metadata_new i o) = i;
  metadata_new_response i o : is_response (metadata_new i o) = true;
}.

(** A computation that may panic. *)
Inductive outcome (A : Type) := Returned (a : A) | Panicked.
Arguments Returned {A} a.
Arguments Panicked {A}.

Section Request.
Context {D : DnsOps} {R : ResolverOps} {G : LimiterOps} {M : MessageOps}.

Record RequestInfo := mkRequestInfo {
  src : IpAddr;
  is_tcp : bool;
  query_name : DName;
  query_type : RecordType.t;
  query_class : DNSClass.t;
}.

(** A decoded request: [request_info] fails on a malformed one.  [edns] is the
    version and payload size of the OPT record, if there is one. *)
Record Request := mkRequest {
  req_info : result RequestInfo bytes;
  req_metadata : Metadata;
  req_edns : option (N * N);
  max_payload : N;
}.

(** [Request::version]. *)
Definition version (r : Request) : N :=
  match req_edns r with Some (v, _) => v | None => 0 end.

(** What the handler passes to the response builder: header, answer and
    authority sections, and the payload size and version of the OPT record. *)
Record Response := mkResponse {
  resp_metadata : Metadata;
  resp_answers : list DRecord;
  resp_authority : list DRecord;
  resp_edns : option (N * N);
}.

(** [u16::clamp], which panics when its bounds are out of order. *)
Definition clamp_checked (x lo hi : N) : outcome N :=
  if hi <? lo then Panicked else Returned (clamp lo hi x).

(** The responses sent, and the handler's result. *)
Definition Sent (A : Type) : Type := list Response * outcome A.

(** [response_handle.send_response(response)]. *)
Definition send_response (transport : Response → result ResponseInfo bytes)
    (response : Response) : Sent (result ResponseInfo bytes) :=
  ([response],
   Returned (result_map_err (λ e, bs "send failed: " ++ e) (transport response))).

(** [Handler::send], on the configuration it loads. *)
Definition send (transport : Response → result ResponseInfo bytes) (zs : Zones)
    (request_meta : Metadata) (reply : Reply) (request : Request) (is_tcp : bool)
    : Sent (result ResponseInfo bytes) :=
  let m := response_from_request request_meta in
  let metadata := mkMetadata (id m) (is_response m) (op_code m)
    (reply_authoritative reply) (truncation m) (recursion_desired m) false false
    (checking_disabled m) (code reply) in
  let respond edns := send_response transport
    (mkResponse metadata (reply_answers reply) (authority reply) edns) in
  match req_edns request with
  | None => respond None
  | Some _ =>
      let max := max_udp_payload (params (config zs)) in
      match (if (is_tcp : bool) then Returned max
             else clamp_checked (max_payload request) 512 max) with
      | Panicked => ([], Panicked)
      | Returned advertised => respond (Some (advertised, 0))
      end
  end.

(** The environment of one request: the clock of the rate limiter, the
    upstream lookup, the transport, and the configuration that the second load
    finds, which a reload may have replaced. *)
Record Env := mkEnv {
  env_now : N;
  env_lookup : LookupEnv;
  env_transport : Response → result ResponseInfo bytes;
  env_reloaded : Zones → Zones;
}.

(** The server's shared state. *)
Record ServerState := mkServerState {
  st_zones : Zones;
  st_rrl : Rrl;
}.

(** The response that makes a client come back over TCP. *)
Definition truncated_response (request_meta : Metadata) : Response :=
  let m := response_from_request request_meta in
  let metadata := mkMetadata (id m) (is_response m) (op_code m)
    (authoritative m) true (recursion_desired m) (recursion_available m)
    (authentic_data m) (checking_disabled m) (response_code m) in
  mkResponse metadata [] [] None.

(** [Handler::handle_inner]. *)
Definition handle_inner (e : Env) (request : Request) (st : ServerState)
    : Sent (result ResponseInfo bytes) * ServerState :=
  match req_info request with
  | Err reason => (([], Returned (Err (bs "malformed request: " ++ reason))), st)
  | Ok info =>
      let meta := req_metadata request in
      let respond zs reply :=
        send (env_transport e) zs meta reply request (is_tcp info) in
      if negb (bool_decide (op_code meta = OpCode.Query)) then
        (respond (st_zones st) (Reply_error ResponseCode.NotImp), st)
      else if 0 <? version request then
        (respond (st_zones st) (Reply_error ResponseCode.BADVERS), st)
      else
        let '(reply, zs) := decide_reply (env_lookup e) (st_zones st)
                              (query_name info) (query_type info) (query_class info) in
        let zs := env_reloaded e zs in
        let '(decision, rrl) := decide (env_now e) (src info) (reply_kind reply)
                                  (is_tcp info) (st_rrl st) in
        let st := mkServerState zs rrl in
        match decision with
        | Allow => (respond zs reply, st)
        | Drop =>
            (([], Returned (Ok (response_info (response_from_request meta)))), st)
        | Truncate =>
            (send_response (env_transport e) (truncated_response meta), st)
        end
  end.

(** [servfail]. *)
Definition servfail (transport : Response → result ResponseInfo bytes) (request : Request)
    : list Response * ResponseInfo :=
  let m := metadata_new (id (req_metadata request)) OpCode.Query in
  let metadata := mkMetadata (id m) (is_response m) (op_code m)
    (authoritative m) (truncation m) (recursion_desired m) (recursion_available m)
    (authentic_data m) (checking_disabled m) ResponseCode.ServFail in
  let response := mkResponse metadata [] [] None in
  ([response],
   match transport response with
   | Ok info => info
   | Err _ => response_info metadata
   end).

(** [Handler::handle_request]: a failure and a panic both become SERVFAIL. *)
Definition handle_request (e : Env) (request : Request) (st : ServerState)
    : list Response * ResponseInfo * ServerState :=
  let '((sent, guarded), st) := handle_inner e request st in
  match guarded with
  | Returned (Ok info) => (sent, info, st)
  | Returned (Err _) | Panicked =>
      let '(more, info) := servfail (env_transport e) request in (sent ++ more, info, st)
  end.
End Request.
