(* ===== verification/Server.v ===== *)
(** * [src/server/bind.rs] and [src/main.rs]: sockets and the process

    [Bind] is the socket set-up, on an operating system that answers each call
    as a function of the calls before it ([SocketOps]).  The rest is the process:
    reading the configuration, choosing the addresses, starting, and what
    signals, timer ticks and requests do to the running server. *)

From S2P Require Import Prelude RustText RustNet ConfigError Dns Config Compile Rrl Upstream Handler.

Module Bind.
Inductive SockType := DGRAM | STREAM.
Inductive SockProtocol := UDP | TCP.
Inductive Domain := IPV4 | IPV6.
Inductive ErrorKind := PermissionDenied | AddrNotAvailable | OtherError (code : N).

#[export] Instance ErrorKind_eq_dec : EqDecision ErrorKind.
Proof. solve_decision. Defined.

(** What the operating system and the socket crates provide. *)
Class SocketOps := {
  Socket : Type;
  IoError : Type;
  io_kind : IoError → ErrorKind;
  io_to_string : IoError → bytes;
}.

Definition TCP_BACKLOG : N := 128.

Section Bind.
Context {S : SocketOps}.

(** The system calls, in the order they are made. *)
Inductive Call :=
  | CNew (domain : Domain) (kind : SockType) (proto : SockProtocol)
  | COnlyV6 (s : Socket)
  | CReuseAddress (s : Socket)
  | CNonblocking (s : Socket)
  | CBind (s : Socket) (addr : SocketAddr)
  | CListen (s : Socket) (backlog : N)
  | CRegisterUdp (s : Socket)
  | CRegisterTcp (s : Socket)
  | CLocalAddr (s : Socket).

(** The outcome of a call, given the calls before it: a new socket, nothing,
    or an address. *)
Record Os := mkOs {
  os_socket : list Call → Call → result Socket IoError;
  os_unit : list Call → Call → result unit IoError;
  os_addr : list Call → Call → result SocketAddr IoError;
}.

(** A computation that makes calls and can fail with a message. *)
Definition Io (A : Type) : Type := list Call → result A bytes * list Call.

Definition io_ret {A} (a : A) : Io A := λ h, (Ok a, h).
Definition io_bind {A B} (m : Io A) (f : A → Io B) : Io B := λ h,
  match m h with
  | (Ok a, h) => f a h
  | (Err e, h) => (Err e, h)
  end.

(** One call, its error turned into a message. *)
Definition call {A} (answer : list Call → Call → result A IoError)
    (c : Call) (message : IoError → bytes) : Io A := λ h,
  (result_map_err message (answer h c), h ++ [c]).

Notation "'io!' x ':=' m 'in' k" := (io_bind m (λ x, k))
  (at level 10, x pattern, m at level 100, k at level 200).

Definition bind_error (addr : SocketAddr) (e : IoError) : bytes :=
  let hint :=
    match io_kind e with
    | PermissionDenied =>
        if port addr <? 1024 then
          bs " (binding a port below 1024 needs CAP_NET_BIND_SERVICE, or run with --sysctl net.ipv4.ip_unprivileged_port_start=0, or pick a high port and publish it)"
        else []
    | AddrNotAvailable =>
        bs " (the address does not exist on this host — a config copied from elsewhere often hardcodes addresses; override with --listen)"
    | OtherError _ => []
    end in
  bs "cannot bind " ++ SocketAddr_to_string addr ++ bs ": " ++ io_to_string e ++ hint.

(** [cannot <what> <addr>: <e>]. *)
Definition failed (what : bytes) (addr : SocketAddr) (e : IoError) : bytes :=
  bs "cannot " ++ what ++ bs " " ++ SocketAddr_to_string addr ++ bs ": " ++ io_to_string e.

Definition is_ipv6 (addr : SocketAddr) : bool := match ip addr with V6 _ => true | V4 _ => false end.

Definition configure (os : Os) (addr : SocketAddr) (kind : SockType) (proto : SockProtocol)
    : Io Socket :=
  let domain := match ip addr with V4 _ => IPV4 | V6 _ => IPV6 end in
  io! socket := call (os_socket os) (CNew domain kind proto) (failed (bs "create socket for") addr) in
  io! _ := (if is_ipv6 addr
            then call (os_unit os) (COnlyV6 socket) (failed (bs "set IPV6_V6ONLY on") addr)
            else io_ret tt) in
  io! _ := call (os_unit os) (CReuseAddress socket) (failed (bs "set SO_REUSEADDR on") addr) in
  io! _ := call (os_unit os) (CNonblocking socket) (failed (bs "set O_NONBLOCK on") addr) in
  io! _ := call (os_unit os) (CBind socket addr) (bind_error addr) in
  io_ret socket.

(** The sockets handed to the server, and the addresses actually bound. *)
Record Bound := mkBound {
  udp : list Socket;
  tcp : list Socket;
  addrs : list SocketAddr;
}.

(** The loop of [bind_all]. *)
Fixpoint bind_targets (os : Os) (listen : list ListenAddr) (bound : Bound) : Io Bound :=
  match listen with
  | [] => io_ret bound
  | target :: listen =>
      let requested := mkSocketAddr (listen_addr target) (listen_port target) in
      io! udp_socket := configure os requested DGRAM UDP in
      io! _ := call (os_unit os) (CRegisterUdp udp_socket)
                 (failed (bs "register UDP socket for") requested) in
      io! actual := call (os_addr os) (CLocalAddr udp_socket)
                      (failed (bs "read local address of") requested) in
      let tcp_target := mkSocketAddr (listen_addr target) (port actual) in
      io! tcp_socket := configure os tcp_target STREAM TCP in
      io! _ := call (os_unit os) (CListen tcp_socket TCP_BACKLOG)
                 (failed (bs "listen on") tcp_target) in
      io! _ := call (os_unit os) (CRegisterTcp tcp_socket)
                 (failed (bs "register TCP listener for") tcp_target) in
      bind_targets os listen
        (mkBound (udp bound ++ [udp_socket]) (tcp bound ++ [tcp_socket]) (addrs bound ++ [actual]))
  end.

Definition bind_all (os : Os) (listen : list ListenAddr) : Io Bound :=
  bind_targets os listen (mkBound [] [] []).
End Bind.

Definition default_listen (port : N) : list ListenAddr :=
  [mkListenAddr (V4 0) port; mkListenAddr (V6 0) port].
End Bind.

(** ** The command line and the configuration file *)

Record Cli := mkCli {
  cli_config : bytes;
  check_config : bool;
  cli_listen : list bytes;
  querylog : bool;
  log_json : bool;
  healthcheck : bool;
  healthcheck_port : N;
}.

Section Process.
Context {D : DnsOps} {R : ResolverOps} {G : LimiterOps} {M : MessageOps}.

(** [fs::read_to_string]: the text of the file, or the text of the error. *)
Definition FileResult : Type := result bytes bytes.

Definition load_config (path : bytes) (read : FileResult) : result Config bytes :=
  let? body := result_map_err
    (λ e, bs "cannot read " ++ from_utf8_lossy path ++ bs ": " ++ e) read in
  result_map_err (λ errors, ConfigErrors_to_string (with_path path errors)) (Config_parse body).

Definition parse_listen (s : bytes) : result ListenAddr bytes :=
  match SocketAddr_from_str s with
  | Some sock => Ok (mkListenAddr (ip sock) (port sock))
  | None =>
      match IpAddr_from_str s with
      | Some addr => Ok (mkListenAddr addr DEFAULT_PORT)
      | None => Err (bs "--listen " ++ s ++ bs ": not an IP address or address:port")
      end
  end.

(** [collect::<Result<Vec<_>, _>>()]: the first error, or all values. *)
Fixpoint collect_results {A B E} (f : A → result B E) (l : list A) : result (list B) E :=
  match l with
  | [] => Ok []
  | a :: l => let? b := f a in let? rest := collect_results f l in Ok (b :: rest)
  end.

Definition effective_listen (cli : Cli) (c : Config) : result (list ListenAddr) bytes :=
  match cli_listen cli with
  | _ :: _ => collect_results (λ s, parse_listen (str_trim s)) (cli_listen cli)
  | [] => match listen c with
          | _ :: _ => Ok (listen c)
          | [] => Ok (Bind.default_listen DEFAULT_PORT)
          end
  end.

(** What [run] does once the runtime is there. *)
Inductive Action :=
  | RunHealthcheck (port : N)
  | Report (err : list bytes) (out : bytes)
  | Serve (config : Config).

Definition run (cli : Cli) (read : FileResult) : result Action bytes :=
  if healthcheck cli then Ok (RunHealthcheck (healthcheck_port cli)) else
  let? config := load_config (cli_config cli) read in
  if check_config cli then
    Ok (Report ((λ w, bs "warning: " ++ w) <$> warnings config)
          (from_utf8_lossy (cli_config cli) ++ bs ": OK — " ++
           to_decimal (len (zones config)) ++ bs " zone(s), " ++
           to_decimal (len (listen config)) ++ bs " listen address(es)"))
  else Ok (Serve config).

(** The start of [serve], up to binding: the addresses and the shared state. *)
Definition serve_state (cli : Cli) (c : Config) : result (list ListenAddr * ServerState) bytes :=
  let? listen := effective_listen cli c in
  let rrl_params := rrl (params c) in
  let? zs := Zones_new c in
  Ok (listen, mkServerState zs (Rrl_new rrl_params)).

(** The SIGHUP handler on the file as it is then. *)
Definition reload (path : bytes) (read : FileResult) (zs : Zones) : Zones :=
  match result_bind (load_config path read) Zones_new with
  | Ok next => next
  | Err _ => zs
  end.

(** What happens to a running server: a SIGHUP, a tick of the sweeper, or a
    request, during which any number of reloads may land. *)
Inductive Event :=
  | Hangup (read : FileResult)
  | Tick (now now' : N)
  | Query (e : Env) (reloads : list FileResult) (request : Request).

Definition reloads (path : bytes) (reads : list FileResult) (zs : Zones) : Zones :=
  foldl (λ zs read, reload path read zs) zs reads.

Definition with_reloads (path : bytes) (reads : list FileResult) (e : Env) : Env :=
  mkEnv (env_now e) (env_lookup e) (env_transport e) (reloads path reads).

(** One event: the responses it causes and the state after it. *)
Definition process_event (path : bytes) (ev : Event) (st : ServerState)
    : list Response * ServerState :=
  match ev with
  | Hangup read => ([], mkServerState (reload path read (st_zones st)) (st_rrl st))
  | Tick now now' => ([], mkServerState (st_zones st) (sweep now now' (st_rrl st)))
  | Query e reads request =>
      let '(sent, _, st) := handle_request (with_reloads path reads e) request st in (sent, st)
  end.

Fixpoint process_events (path : bytes) (evs : list Event) (st : ServerState) : ServerState :=
  match evs with
  | [] => st
  | ev :: evs => process_events path evs (snd (process_event path ev st))
  end.
End Process.

(** ** The health check *)

(** What waiting for the answer of a running instance yields. *)
Inductive Received := GotBytes (n : N) | ReceiveFailed (e : bytes) | TimedOut.

Definition healthcheck_verdict (r : Received) : result unit bytes :=
  match r with
  | GotBytes n => if 0 <? n then Ok tt else Err (bs "health check got an empty response")
  | ReceiveFailed e => Err (bs "health check receive failed: " ++ e)
  | TimedOut => Err (bs "health check timed out")
  end.
