(* ===== verification/ConfigSpec.v ===== *)
(** * What a validated configuration guarantees

    The invariants [template_wf], [zone_wf] and [config_wf] that validation
    establishes (proved in [CompileSpec]) and resolution relies on (used in
    [ZoneSpec] and [HandlerSpec]), and the lemmas on rendering a template. *)

From S2P Require Import Prelude RustText RustNet Dns Nibble Config.

(** ** Invariants *)

(** The lowercase copies of a label are the lowercase of its text. *)
Definition label_wf (l : FwdLabel) : Prop :=
  match l with
  | Literal verbatim lower => lower = to_ascii_lowercase verbatim
  | Digits pre pre_lower post post_lower _ =>
      pre_lower = to_ascii_lowercase pre ∧ post_lower = to_ascii_lowercase post
  end.

Definition is_literal (l : FwdLabel) : bool :=
  match l with Literal _ _ => true | Digits _ _ _ _ _ => false end.

(** The digits a template is validated with. *)
Definition widest (host_nibbles : N) : bytes := replicate (N.to_nat host_nibbles) "f"%byte.

(** A template for [hn] host digits: exactly one digits label, where [digits_at]
    says, dashed only if the digits fall into groups of four, and short enough
    that its widest rendering is a valid name. *)
Record template_wf (hn : N) (t : FwdTemplate) : Prop := {
  twf_labels : Forall label_wf (fwd_labels t);
  twf_digits : ∃ before pre pre_lower post post_lower dashed after,
    fwd_labels t = before ++ Digits pre pre_lower post post_lower dashed :: after ∧
    Forall (λ l, is_literal l = true) before ∧
    Forall (λ l, is_literal l = true) after ∧
    digits_at t = len before ∧
    (dashed = true → hn mod 4 = 0);
  twf_widest : valid_labels (render_label (widest hn) <$> fwd_labels t) = true;
}.

Definition in_network (a p m : N) : Prop := a < 2 ^ 128 ∧ N.land a (mask_bits m) = p.

Section Wf.
Context {D : DnsOps}.

Record zone_wf (z : Zone) : Prop := {
  zwf_mask : 0 < mask z < 128;
  zwf_aligned : mask z mod 4 = 0;
  zwf_prefix : in_network (prefix z) (prefix z) (mask z);
  zwf_host : host_nibbles z = (128 - mask z) / 4;
  zwf_ptr : netmask_to_ptr_name (prefix z) (mask z) = Some (ptr_zone z);
  zwf_fwd : template_wf (host_nibbles z) (fwd z);
  zwf_parent : parent (fwd z) = Ok (fwd_parent z);
  zwf_ttl : ttl z <= 0x7FFFFFFF;
}.

Record params_wf (p : ServerParams) : Prop := {
  pwf_payload : 512 <= max_udp_payload p <= u16_MAX;
  pwf_timeout : from_millis 1 <= upstream_timeout p <= from_millis 10000;
  pwf_rps : 1 <= responses_per_second (rrl p) <= u32_MAX;
  pwf_burst : 1 <= burst (rrl p) <= u32_MAX;
  pwf_slip : slip (rrl p) <= u32_MAX;
  pwf_v4 : ipv4_prefix (rrl p) = 24;
  pwf_v6 : ipv6_prefix (rrl p) = 64;
}.

(** Longest prefix first. *)
Definition by_mask (x y : Zone) : Prop := mask y <= mask x.

Record config_wf (c : Config) : Prop := {
  cwf_zones : Forall zone_wf (zones c);
  cwf_sorted : StronglySorted by_mask (zones c);
  cwf_networks : NoDup ((λ z, (prefix z, mask z)) <$> zones c);
  cwf_patterns : NoDup ((λ z, to_ascii_lowercase (resolves_to z)) <$> zones c);
  cwf_params : params_wf (params c);
}.

Lemma zwf_host_range z : zone_wf z → 1 <= host_nibbles z <= 31 ∧ 4 * host_nibbles z = 128 - mask z.
Proof. intros [H1 H2 _ -> _ _ _ _]. lia. Qed.
End Wf.

(** ** Rendering *)

(** Where the digits of a label go, by the template alone. *)
Definition digit_text (dashed : bool) (d : bytes) : bytes :=
  if dashed then dash_group d else d.

Lemma length_join_chunks (a b : bytes) :
  length a = length b →
  length (join_dashes (chunks4 a)) = length (join_dashes (chunks4 b)).
Proof.
  revert b. induction a as [a IH] using (induction_ltof1 _ length). unfold ltof in IH.
  intros b Hl.
  destruct a as [|a1 [|a2 [|a3 [|a4 a]]]], b as [|b1 [|b2 [|b3 [|b4 b]]]]; try done.
  rewrite !join_chunks4_step, !length_app. f_equal.
  destruct a as [|a5 a], b as [|b5 b]; try done.
  rewrite !bool_decide_eq_false_2 by done. rewrite !length_app. f_equal.
  apply IH; simpl in *; lia.
Qed.

Definition ascii_text (s : bytes) : Prop := Forall (λ b, is_ascii b = true) s.

Lemma widest_ascii hn : ascii_text (widest hn).
Proof. by apply Forall_replicate. Qed.

Lemma length_render_label d d' l :
  ascii_text d → ascii_text d' → length d = length d' →
  length (render_label d l) = length (render_label d' l).
Proof.
  intros Hd Hd' Hl. destruct l as [|? ? ? ? dashed]; [done|]. simpl.
  rewrite !length_app. do 2 f_equal. destruct dashed; [|done].
  rewrite !dash_group_join by done. by apply length_join_chunks.
Qed.

(** Every digit string of the validated width renders to valid labels, because
    only lengths matter. *)
Lemma render_valid hn t d :
  template_wf hn t → ascii_text d → len d = hn →
  valid_labels (render_label d <$> fwd_labels t) = true.
Proof.
  intros Ht Hd Hl. rewrite <- (twf_widest _ _ Ht). apply valid_labels_lengths.
  apply Forall2_fmap_2, Forall2_same_length_lookup_2; [done|].
  intros i l l' Hl1 Hl2. assert (l = l') as -> by congruence.
  apply length_render_label; auto using widest_ascii.
  unfold widest. rewrite length_replicate. unfold len in Hl. lia.
Qed.

(** ** The labels behind the digits *)

Lemma wire_len_ge ls : forallb valid_label ls = true → 2 * len ls + 1 <= wire_len ls.
Proof.
  induction ls as [|l ls IH]; simpl; [done|]. rewrite andb_true_iff.
  unfold valid_label at 1. rewrite andb_true_iff, !N.leb_le. intros [[Hl1 _] Hls].
  specialize (IH Hls). rewrite len_cons. lia.
Qed.

Lemma template_labels_bound hn t : template_wf hn t → label_count t <= 127.
Proof.
  intros Ht. pose proof (twf_widest _ _ Ht) as Hv. unfold valid_labels in Hv.
  apply andb_true_iff in Hv as [H1 H2]. apply wire_len_ge in H1. apply N.leb_le in H2.
  unfold label_count, len in *. rewrite length_fmap in H1. lia.
Qed.

Lemma plain_literals d ls :
  Forall (λ l, is_literal l = true) ls → render_label d <$> ls = plain_label <$> ls.
Proof.
  intros H. apply Forall_fmap_ext_1. eapply Forall_impl; [exact H|]. by intros [] ?.
Qed.

(** What [parent] takes of a template. *)
Lemma labels_behind_digits hn t :
  template_wf hn t →
  ∃ before digits after,
    fwd_labels t = before ++ digits :: after ∧ len before = digits_at t ∧
    Forall (λ l, is_literal l = true) after ∧
    drop (N.to_nat (usize_saturating_add (digits_at t) 1)) (fwd_labels t) = after.
Proof.
  intros Ht.
  destruct (twf_digits _ _ Ht) as (bef & pre & prl & post & pol & d & aft & E & _ & Ha & Hat & _).
  exists bef, (Digits pre prl post pol d), aft. do 3 (split; [done|]).
  rewrite E, Hat. pose proof (template_labels_bound _ _ Ht) as Hb.
  unfold label_count in Hb. rewrite E, len_app, len_cons in Hb.
  unfold usize_saturating_add, usize_MAX. change (N.ones 64) with 18446744073709551615.
  replace (N.to_nat (N.min (len bef + 1) 18446744073709551615)) with (length (bef ++ [Digits pre prl post pol d])).
  - rewrite (cons_middle _ bef aft), app_assoc, drop_app_length. done.
  - rewrite length_app. unfold len in *. simpl. lia.
Qed.

Lemma valid_labels_suffix a b : valid_labels (a ++ b) = true → valid_labels b = true.
Proof.
  unfold valid_labels. rewrite !andb_true_iff, !N.leb_le, forallb_app, andb_true_iff.
  intros [[_ Hb] Hw]. split; [done|]. induction a as [|l a IH]; [done|]. apply IH. simpl in Hw. lia.
Qed.

Section Render.
Context {D : DnsOps} {L : DnsLaws D}.

Lemma render_Ok hn t d :
  template_wf hn t → ascii_text d → len d = hn →
  ∃ n, render t d = Ok n ∧ labels n = render_label d <$> fwd_labels t ∧ is_fqdn n = true.
Proof.
  intros Ht Hd Hl. destruct (proj2 (from_labels_valid _) (render_valid _ _ _ Ht Hd Hl)) as [n Hn].
  exists (set_fqdn true n). unfold render. rewrite Hn. autorewrite with dns.
  by rewrite (from_labels_labels _ _ Hn).
Qed.

Lemma parent_labels t n :
  parent t = Ok n →
  labels n = plain_label <$> drop (N.to_nat (usize_saturating_add (digits_at t) 1)) (fwd_labels t)
  ∧ is_fqdn n = true.
Proof.
  unfold parent. destruct (from_labels _) as [m|] eqn:E; [|done]. intros [= <-].
  autorewrite with dns. by rewrite (from_labels_labels _ _ E).
Qed.

(** The apex of a valid template is a valid name. *)
Lemma parent_Ok hn t : template_wf hn t → ∃ n, parent t = Ok n.
Proof.
  intros Ht. destruct (labels_behind_digits _ _ Ht) as (bef & d & aft & E & _ & Ha & Hd).
  unfold parent. rewrite Hd, <- (plain_literals (widest hn)) by done.
  destruct (proj2 (from_labels_valid (render_label (widest hn) <$> aft))) as [n ->]; [|by eexists].
  pose proof (twf_widest _ _ Ht) as Hv. rewrite E, (cons_middle d bef aft), fmap_app in Hv.
  rewrite fmap_app in Hv. by do 2 apply valid_labels_suffix in Hv.
Qed.
End Render.
