(* ===== verification/ParseSpec.v ===== *)
(** * Correctness of [src/config/parse.rs]

    No line is silently ignored, every value and every diagnostic points inside
    the line it names, and a setting that may be given once is recorded once. *)

From S2P Require Import Prelude RustText ConfigError Parse.

(** All values of a parsed file. *)
Definition zone_values (r : RawZone) : list RawValue :=
  raw_network r :: option_list (raw_resolves_to r) ++ option_list (raw_upstream r).

Definition raw_values (raw : RawConfig) : list RawValue :=
  raw_listen raw ++ (global_value <$> raw_globals raw) ++ (raw_zones raw ≫= zone_values).

(** ** Where values and errors are *)

(** Line [n] of the file, without the carriage return that may end it, is [s]. *)
Definition source_line (ls : list bytes) (n : N) (s : bytes) : Prop :=
  ∃ i l, ls !! i = Some l ∧ n = N.min (N.of_nat i + 1) u32_MAX ∧
         s = default l (strip_suffix_byte "013" l).

(** The bytes of [s] in the range [a..b]. *)
Definition slice (s : bytes) (a b : N) : bytes :=
  take (N.to_nat (b - a)) (drop (N.to_nat a) s).

Definition value_located (ls : list bytes) (v : RawValue) : Prop :=
  source_line ls (raw_line_no v) (raw_line v) ∧
  fst (raw_span v) <= snd (raw_span v) ∧ snd (raw_span v) <= len (raw_line v) ∧
  (raw_value v = [] ∨ raw_value v ≡ci slice (raw_line v) (fst (raw_span v)) (snd (raw_span v))).

Definition error_located (ls : list bytes) (e : ConfigError) : Prop :=
  source_line ls (line e) (snippet e) ∧
  ∃ a b, span e = Some (a, b) ∧ a <= b ∧ b <= len (snippet e).

Lemma value_located_error ls v k : value_located ls v → error_located ls (error v k).
Proof.
  intros (Hs & H1 & H2 & _). split; [done|]. destruct (raw_span v) as [a b] eqn:E.
  exists a, b. simpl. by rewrite E.
Qed.

(** ** Trimming and keywords *)

Lemma trim_ascii_start_split s : ∃ p, s = p ++ trim_ascii_start s.
Proof.
  induction s as [|b s [p IH]]; simpl; [by exists []|].
  destruct (is_ascii_whitespace b); [|by exists []]. exists (b :: p). simpl. by f_equal.
Qed.

Lemma trim_ascii_end_split s : ∃ p, s = trim_ascii_end s ++ p.
Proof.
  unfold trim_ascii_end. destruct (trim_ascii_start_split (rev s)) as [p E].
  exists (rev p). rewrite <- rev_app_distr, <- E. by rewrite rev_involutive.
Qed.

Lemma match_words_from_split i ws c rest c' rest' :
  c + len rest <= usize_MAX →
  match_words_from i ws c rest = Some (c', rest') →
  ∃ mid, rest = mid ++ rest' ∧ c' = c + len mid.
Proof.
  revert i c rest. induction ws as [|w ws IH]; intros i c rest Hc; simpl.
  { intros [= <- <-]. exists []. split; [done|]. rewrite len_nil. lia. }
  assert (∃ p, rest = p ++ trim_ascii_start rest) as [p Hp] by apply trim_ascii_start_split.
  set (trimmed := trim_ascii_start rest) in *.
  assert (∀ c1 r1, (∃ p, rest = p ++ r1 ∧ c1 = c + len p) →
    ('(head, tail) ← split_at_checked r1 (len w);
     if negb (eq_ignore_ascii_case head w) then None
     else match_words_from (i + 1) ws (usize_saturating_add c1 (len w)) tail) = Some (c', rest') →
    ∃ mid, rest = mid ++ rest' ∧ c' = c + len mid) as Hstep.
  { intros c1 r1 (q & -> & ->). rewrite len_app in Hc.
    destruct (split_at_checked r1 (len w)) as [[h t]|] eqn:E; [|done]. cbn [mbind option_bind].
    apply split_at_checked_Some in E as [-> Hl]. rewrite len_app in Hc.
    destruct (eq_ignore_ascii_case h w); [|done]. simpl. unfold usize_saturating_add.
    rewrite N.min_l by lia. intros H. apply IH in H as (mid & -> & ->); [|lia].
    exists (q ++ h ++ mid). rewrite <- !app_assoc, !len_app. split; [done|]. lia. }
  destruct (0 <? i); [|apply Hstep; exists []; rewrite len_nil; split; [done|lia]].
  destruct (len trimmed =? len rest); [done|]. cbn [mbind option_bind]. apply Hstep.
  exists p. split; [done|]. rewrite Hp at 1. rewrite Hp in Hc. rewrite !len_app in *.
  unfold usize_saturating_add. lia.
Qed.

(** The value of a directive is a part of the line, at the offset given. *)
Lemma strip_keyword_split line ws off value :
  len line <= usize_MAX → strip_keyword line ws = Some (off, value) →
  ∃ pre post, line = pre ++ value ++ post ∧ off = len pre ∧ value ≠ [].
Proof.
  intros Hl. unfold strip_keyword, match_words.
  destruct (match_words_from 0 ws 0 line) as [[c rest]|] eqn:E; [|done]. cbn [mbind option_bind].
  apply match_words_from_split in E as (mid & -> & ->); [|lia].
  destruct (trim_ascii_start_split rest) as [p Hp]. set (trimmed := trim_ascii_start rest) in *.
  destruct (len trimmed =? len rest); [done|].
  destruct (trim_ascii_end_split trimmed) as [q Hq]. set (v := trim_ascii_end trimmed) in *.
  destruct v as [|b v'] eqn:Ev; [done|]. intros [= <- <-].
  exists (mid ++ p), q. rewrite <- app_assoc, <- Hq, <- Hp. split; [done|]. split; [|done].
  unfold usize_saturating_add. rewrite len_app in *. rewrite Hp in *. rewrite !len_app in *. lia.
Qed.

Lemma slice_mid pre mid post : slice (pre ++ mid ++ post) (len pre) (len pre + len mid) = mid.
Proof.
  unfold slice, len. rewrite N.add_comm, N.add_sub, !Nat2N.id.
  by rewrite drop_app_length, take_app_length.
Qed.

(** ** The parser as a transition system *)

(** What one accepted directive with value [v] does. *)
Inductive cfg_step (v : RawValue) (cfg : RawConfig) : RawConfig → Prop :=
  | step_listen :
      cfg_step v cfg (mkRawConfig (raw_listen cfg ++ [v]) (raw_zones cfg) (raw_globals cfg))
  | step_network :
      cfg_step v cfg (mkRawConfig (raw_listen cfg) (raw_zones cfg ++ [mkRawZone v None None])
                        (raw_globals cfg))
  | step_resolves_to pre n u :
      raw_zones cfg = pre ++ [mkRawZone n None u] →
      cfg_step v cfg (mkRawConfig (raw_listen cfg) (pre ++ [mkRawZone n (Some v) u])
                        (raw_globals cfg))
  | step_upstream pre n r :
      raw_zones cfg = pre ++ [mkRawZone n r None] →
      cfg_step v cfg (mkRawConfig (raw_listen cfg) (pre ++ [mkRawZone n r (Some v)])
                        (raw_globals cfg))
  | step_global k :
      raw_zones cfg = [] →
      k = Ns ∨ k = RrlOff ∨ Forall (λ g, key g ≠ k) (raw_globals cfg) →
      cfg_step v cfg (push_global (mkRawGlobal k v) cfg).

Lemma update_last_snoc {A} (f : A → A) l a : update_last f (l ++ [a]) = l ++ [f a].
Proof.
  induction l as [|b l IH]; [done|]. simpl. rewrite IH. by destruct (l ++ [a]) eqn:E; [destruct l|].
Qed.

(** A directive is accepted, or it adds one error at its value. *)
Definition applied (v : RawValue) (cfg cfg' : RawConfig) (es es' : list ConfigError) : Prop :=
  (cfg_step v cfg cfg' ∧ es' = es) ∨ (cfg' = cfg ∧ ∃ k, es' = es ++ [error v k]).

Definition in_scope (d : Directive) (cfg : RawConfig) : Prop :=
  match target d with
  | ResolvesTo | Upstream => raw_zones cfg ≠ []
  | Global _ => raw_zones cfg = []
  | _ => True
  end.

Lemma apply_target_applied d v cfg es :
  in_scope d cfg →
  applied v cfg (fst (apply_target d v cfg es)) es (snd (apply_target d v cfg es)).
Proof.
  unfold in_scope, apply_target. intros Hs. destruct (target d) as [| | | |k] eqn:Et.
  - left. split; [constructor|done].
  - left. split; [constructor|done].
  - destruct (last (raw_zones cfg)) as [z|] eqn:Ez; [|by apply last_None in Ez].
    destruct z as [n [r|] u]; cbn [raw_resolves_to].
    + right. split; [done|]. by eexists.
    + apply last_Some in Ez as [pre Ez]. left. split; [|done]. rewrite Ez at 1. simpl.
      rewrite update_last_snoc. simpl. by econstructor.
  - destruct (last (raw_zones cfg)) as [z|] eqn:Ez; [|by apply last_None in Ez].
    destruct z as [n r [u|]]; cbn [raw_upstream].
    + right. split; [done|]. by eexists.
    + apply last_Some in Ez as [pre Ez]. left. split; [|done]. rewrite Ez at 1. simpl.
      rewrite update_last_snoc. simpl. by econstructor.
  - case_bool_decide as Hk; [|left; split; [constructor; [done|left]; by destruct (decide (k = Ns))|done]].
    destruct (iter_find _ _) as [first|] eqn:Ef; [right; split; [done|by eexists]|].
    left. split; [|done]. constructor; [done|]. right. right.
    apply iter_find_None in Ef. eapply Forall_impl; [exact Ef|]. intros g. simpl.
    by rewrite bool_decide_eq_false.
Qed.

(** In the table, what needs a network is in zone scope and what must precede
    the networks is in global scope. *)
Definition scope_matches (d : Directive) : bool :=
  match target d, scope d with
  | (ResolvesTo | Upstream), ZoneScope => true
  | Global _, GlobalScope => true
  | (Listen | Network), Anywhere => true
  | _, _ => false
  end.

Lemma directives_scoped : Forall (λ d, scope_matches d = true) DIRECTIVES.
Proof. apply Forall_forall. intros d Hd. repeat (apply elem_of_cons in Hd as [->|Hd]; [done|]). by apply not_elem_of_nil in Hd. Qed.

(** A line that is neither blank nor a comment. *)
Definition significant (raw : bytes) : bool :=
  match trim_ascii_start (default raw (strip_suffix_byte "013" raw)) with
  | [] => false
  | b :: _ => negb (bool_decide (b = "#"%byte))
  end.

Definition line_effect_of (ls : list bytes) (cfg : RawConfig) (es : list ConfigError)
    (r : RawConfig * list ConfigError) : Prop :=
  (∃ v, value_located ls v ∧ cfg_step v cfg (fst r) ∧ snd r = es) ∨
  (fst r = cfg ∧ ∃ e, error_located ls e ∧ snd r = es ++ [e]).

(** One line: nothing, one directive, or one error. *)
Definition line_effect (ls : list bytes) (raw : bytes) (cfg cfg' : RawConfig)
    (es es' : list ConfigError) : Prop :=
  if significant raw then line_effect_of ls cfg es (cfg', es')
  else cfg' = cfg ∧ es' = es.

Lemma applied_effect ls v cfg cfg' es es' :
  value_located ls v → applied v cfg cfg' es es' →
  line_effect_of ls cfg es (cfg', es').
Proof.
  intros Hv [[Hs ->]|(-> & k & ->)]; [left; by exists v|].
  right. split; [done|]. eexists. split; [by apply value_located_error|done].
Qed.

Lemma first_word_len b body :
  is_ascii_whitespace b = false →
  1 <= len (first_word (b :: body)) ∧ len (first_word (b :: body)) <= len (b :: body).
Proof.
  intros Hb. simpl. rewrite Hb, !len_cons. split; [lia|].
  assert (len (first_word body) <= len body); [|lia]. induction body as [|c body IH]; [done|].
  simpl. rewrite len_cons. destruct (is_ascii_whitespace c); [rewrite len_nil; lia|].
  rewrite len_cons. lia.
Qed.

Lemma trim_ascii_start_head s b t : trim_ascii_start s = b :: t → is_ascii_whitespace b = false.
Proof.
  induction s as [|c s IH]; simpl; [done|]. destruct (is_ascii_whitespace c) eqn:E; [done|].
  by intros [= -> ->].
Qed.

Lemma length_strip_cr s : len (default s (strip_suffix_byte "013" s)) <= len s.
Proof.
  unfold strip_suffix_byte. destruct (rev s) as [|b r] eqn:E; [done|].
  case_bool_decide; [|done]. simpl. rewrite <- (rev_involutive s), E. simpl.
  rewrite len_app. lia.
Qed.

(** The setting of one line: its number, its text, and where its body starts. *)
Section Line.
Context (ls : list bytes) (i : nat) (raw : bytes).
Context (Hline : ls !! i = Some raw) (Hlen : len raw <= usize_MAX).

Let line_no := N.min (usize_saturating_add (N.of_nat i) 1) u32_MAX.
Let text := default raw (strip_suffix_byte "013" raw).
Let body := trim_ascii_start text.
Let indent := len text - len body.

Lemma line_source : source_line ls line_no text.
Proof.
  exists i, raw. split; [done|]. split; [|done]. unfold line_no, usize_saturating_add.
  unfold u32_MAX, usize_MAX. change (N.ones 32) with 4294967295.
  change (N.ones 64) with 18446744073709551615. lia.
Qed.

Lemma line_body : ∃ p, text = p ++ body ∧ indent = len p ∧ len text <= usize_MAX.
Proof.
  destruct (trim_ascii_start_split text) as [p Hp]. exists p. fold body in Hp.
  split; [done|]. pose proof (length_strip_cr raw). fold text in H. split; [|lia].
  unfold indent. rewrite Hp at 1. rewrite len_app. lia.
Qed.

Lemma flag_value_located : value_located ls (mkRawValue line_no text (indent, len text) []).
Proof.
  split; [apply line_source|]. simpl. split; [unfold indent; lia|]. split; [done|by left].
Qed.

(** The value of a directive. *)
Lemma directive_value_located off value word :
  (∃ pre post, body = pre ++ value ++ post ∧ off = len pre) →
  word ≡ci value →
  let start := usize_saturating_add indent off in
  value_located ls (mkRawValue line_no text (start, usize_saturating_add start (len word)) word).
Proof.
  intros (pre & post & Hb & ->) Hw. destruct line_body as (p & Ht & Hi & Hl).
  assert (len word = len value) as Hlw by (unfold len; by rewrite (ci_eq_length _ _ Hw)).
  pose proof Ht as Ht'. rewrite Hb, app_assoc in Ht'.
  assert (len text = len p + len pre + len value + len post) as Hlt
    by (rewrite Ht', !len_app; lia).
  unfold usize_saturating_add. rewrite !(N.min_l (_ + _)) by lia.
  split; [apply line_source|]. cbn [raw_span raw_line raw_value fst snd].
  split; [lia|]. split; [lia|]. right.
  replace (indent + len pre) with (len (p ++ pre)) by (rewrite len_app; lia).
  rewrite Hlw. rewrite Ht'. by rewrite slice_mid.
Qed.

Lemma not_utf8_located off k :
  (∃ pre post, body = pre ++ post ∧ off = len pre) →
  error_located ls (mkConfigError line_no text (Some (usize_saturating_add indent off, len text)) k).
Proof.
  intros (pre & post & Hb & ->). destruct line_body as (p & Ht & Hi & Hl).
  split; [apply line_source|]. eexists _, _. split; [done|]. simpl. split; [|lia].
  rewrite Ht at 1. rewrite Hb, !len_app, Hi. unfold usize_saturating_add. lia.
Qed.

Lemma unmatched_located b t :
  body = b :: t → error_located ls (unmatched_line_error line_no text indent body).
Proof.
  intros Hb. destruct line_body as (p & Ht & Hi & Hl). split; [apply line_source|].
  eexists _, _. split; [done|]. simpl.
  destruct (first_word_len b t (trim_ascii_start_head _ _ _ Hb)) as [H1 H2].
  rewrite <- Hb in *. rewrite Ht, len_app in Hl. rewrite Ht, len_app, Hi.
  unfold usize_saturating_add. lia.
Qed.

End Line.

Lemma parse_line_effect ls i raw cfg es :
  ls !! i = Some raw → len raw <= usize_MAX →
  line_effect ls raw cfg (fst (parse_line (N.of_nat i) raw cfg es))
    es (snd (parse_line (N.of_nat i) raw cfg es)).
Proof.
  intros Hline Hlen. unfold line_effect, significant, parse_line.
  set (text := default raw (strip_suffix_byte "013" raw)).
  destruct (trim_ascii_start text) as [|b t] eqn:Hbody; [done|].
  case_bool_decide as Hc; [done|]. simpl negb. cbv iota. rewrite <- Hbody. unfold no_zones.
  destruct (iter_find _ FLAGS) as [[[ws disp] k]|] eqn:Ef.
  { apply iter_find_Some in Ef as (l1 & l2 & Ef & _).
    assert (k = RrlOff) as ->.
    { assert ((ws, disp, k) ∈ FLAGS) as Hin by (rewrite Ef; set_solver).
      apply list_elem_of_singleton in Hin. by injection Hin. }
    pose proof (flag_value_located ls i raw Hline Hlen) as Hv. cbv zeta in Hv.
    destruct (raw_zones cfg) as [|z zs] eqn:Ez; simpl.
    - left. eexists. split; [exact Hv|]. split; [|done].
      apply step_global; [done|]. right. by left.
    - right. split; [done|]. eexists. split; [|done]. by apply value_located_error. }
  destruct (iter_find_map _ DIRECTIVES) as [[[d off] value]|] eqn:Ed.
  2:{ right. split; [done|]. eexists. split; [|done]. by eapply unmatched_located. }
  apply iter_find_map_Some in Ed as (l1 & d' & l2 & Ed & Hk & _).
  assert (scope_matches d' = true) as Hscope.
  { pose proof directives_scoped as Hd. rewrite Ed in Hd.
    by apply Forall_app in Hd as [_ [? _]%Forall_cons]. }
  destruct (strip_keyword (trim_ascii_start text) (words d')) as [[o v]|] eqn:Hs; [|done].
  injection Hk as -> -> ->.
  apply strip_keyword_split in Hs as (pre & post & Hb & -> & Hv).
  2:{ destruct (line_body i raw Hlen) as (p & Ht & _ & Hl). fold text in Ht, Hl.
      rewrite Ht, len_app in Hl. lia. }
  unfold from_utf8. destruct (utf8_valid value).
  2:{ right. split; [done|]. eexists. split; [|done]. apply not_utf8_located; eauto. }
  set (word := if lowercase d then _ else _).
  assert (word ≡ci value) as Hw by (unfold word; destruct (lowercase d); [apply ci_eq_lower|done]).
  pose proof (directive_value_located ls i raw Hline Hlen (len pre) value word ltac:(eauto) Hw) as Hloc.
  cbv zeta in Hloc. fold text in Hloc. unfold scope_matches in Hscope.
  set (val := mkRawValue _ _ _ word) in *.
  assert (in_scope d cfg → line_effect_of ls cfg es (apply_target d val cfg es)) as Happly.
  { intros Hin. eapply applied_effect; [exact Hloc|]. by apply apply_target_applied. }
  assert (∀ k, line_effect_of ls cfg es (cfg, es ++ [error val k])) as Herr.
  { intros k. right. split; [done|]. eexists. split; [by apply value_located_error|done]. }
  unfold in_scope in Happly.
  destruct (scope d), (target d); try done; destruct (raw_zones cfg); simpl;
    first [apply Happly; done|apply Herr].
Qed.

(** ** The whole file *)

Lemma cfg_step_values v cfg cfg' : cfg_step v cfg cfg' → raw_values cfg' ≡ₚ v :: raw_values cfg.
Proof.
  unfold raw_values. destruct 1 as [| |pre n u E|pre n r E|k E Hk]; cbn [raw_listen raw_globals raw_zones push_global].
  - rewrite <- app_assoc. symmetry. apply Permutation_middle.
  - rewrite bind_app. cbn [mbind list_bind zone_values raw_network raw_resolves_to raw_upstream option_list app].
    rewrite !app_assoc. by rewrite Permutation_app_comm.
  - rewrite E, !bind_app. cbn [mbind list_bind zone_values raw_network raw_resolves_to raw_upstream option_list app].
    rewrite !app_nil_r. solve_Permutation.
  - rewrite E, !bind_app. cbn [mbind list_bind zone_values raw_network raw_resolves_to raw_upstream option_list app].
    rewrite !app_nil_r. destruct r; cbn [option_list app]; solve_Permutation.
  - rewrite fmap_app. cbn [fmap list_fmap global_value]. solve_Permutation.
Qed.

(** Settings that may be given once. *)
Definition once (k : GlobalKey) : bool := match k with Ns | RrlOff => false | _ => true end.

Definition once_keys (cfg : RawConfig) : list GlobalKey :=
  List.filter once (key <$> raw_globals cfg).

Lemma cfg_step_once v cfg cfg' : cfg_step v cfg cfg' → NoDup (once_keys cfg) → NoDup (once_keys cfg').
Proof.
  unfold once_keys. destruct 1 as [| | | |k _ Hk]; [done..|]. cbn [raw_globals push_global].
  rewrite fmap_app, List.filter_app. cbn [fmap list_fmap key List.filter]. intros Hn.
  destruct (once k) eqn:Eo; [|by rewrite app_nil_r].
  apply NoDup_app. split; [done|]. split; [|apply NoDup_singleton].
  intros x Hx ->%list_elem_of_singleton. destruct Hk as [->|[->|Hk]]; [done..|].
  apply list_elem_of_In, filter_In in Hx as [Hx _]. apply list_elem_of_In, list_elem_of_fmap in Hx as (g & -> & Hg).
  rewrite Forall_forall in Hk. by apply Hk in Hg.
Qed.

(** What holds after the lines [seen] of the file [ls]. *)
Record parse_inv (ls seen : list bytes) (cfg : RawConfig) (es : list ConfigError) : Prop := {
  pi_values : Forall (value_located ls) (raw_values cfg);
  pi_errors : Forall (error_located ls) es;
  pi_count : len (raw_values cfg) + len es = len (List.filter significant seen);
  pi_once : NoDup (once_keys cfg);
}.

Lemma parse_inv_step ls seen raw cfg cfg' es es' :
  parse_inv ls seen cfg es → line_effect ls raw cfg cfg' es es' →
  parse_inv ls (seen ++ [raw]) cfg' es'.
Proof.
  intros [Hv He Hc Ho]. unfold line_effect.
  assert (len (List.filter significant (seen ++ [raw])) =
    len (List.filter significant seen) + if significant raw then 1 else 0) as Hs.
  { rewrite List.filter_app, len_app. simpl. by destruct (significant raw). }
  destruct (significant raw).
  - intros [(v & Hvl & Hst & E)|(E & e & Hel & E')]; simpl in *; subst.
    + pose proof (cfg_step_values _ _ _ Hst) as Hp. split; [|done| |by eapply cfg_step_once].
      * rewrite Hp. by constructor.
      * rewrite Hs, <- Hc. unfold len. rewrite Hp. simpl length. lia.
    + split; [done| | |done].
      * apply Forall_app. split; [done|]. by constructor.
      * rewrite Hs, <- Hc, len_app, len_cons, len_nil. lia.
  - intros [-> ->]. split; try done. lia.
Qed.

Lemma parse_lines_inv ls seen rest cfg es :
  ls = seen ++ rest → Forall (λ l, len l <= usize_MAX) ls → parse_inv ls seen cfg es →
  parse_inv ls ls (fst (parse_lines (len seen) rest cfg es)) (snd (parse_lines (len seen) rest cfg es)).
Proof.
  revert seen cfg es. induction rest as [|raw rest IH]; intros seen cfg es E Hl Hinv.
  - rewrite app_nil_r in E. by subst seen.
  - cbn [parse_lines]. assert (ls !! length seen = Some raw) as Hi by (rewrite E; by apply list_lookup_middle).
    pose proof (parse_line_effect ls (length seen) raw cfg es Hi) as Heff.
    rewrite Forall_lookup in Hl. specialize (Heff (Hl _ _ Hi)). fold (len seen) in Heff.
    destruct (parse_line (len seen) raw cfg es) as [cfg' es']. simpl in Heff.
    replace (len seen + 1) with (len (seen ++ [raw])) by (rewrite len_app; done).
    apply IH; [by rewrite <- app_assoc|by apply Forall_lookup|]. by eapply parse_inv_step.
Qed.

Lemma split_newlines_len s acc m :
  len s + len acc <= m → Forall (λ l, len l <= m) (split_newlines s acc).
Proof.
  revert acc. induction s as [|b s IH]; intros acc Hm; simpl.
  - destruct acc; constructor; [|done]. unfold len in *. rewrite length_rev. simpl in *. lia.
  - rewrite len_cons in Hm. case_bool_decide.
    + constructor; [|apply IH; rewrite len_nil; lia]. unfold len in *. rewrite length_rev.
      destruct acc as [|c acc]; [simpl; lia|]. simpl in *. case_bool_decide; simpl; lia.
    + apply IH. rewrite len_cons. lia.
Qed.

Lemma parse_spec input :
  len input <= usize_MAX →
  parse_inv (str_lines input) (str_lines input) (fst (parse input)) (snd (parse input)).
Proof.
  intros Hl. unfold parse. apply (parse_lines_inv _ [] _ RawConfig_default []); [done| |].
  - apply split_newlines_len. by rewrite len_nil, N.add_0_r.
  - split; try constructor.
Qed.

(** ** Properties *)

(** Nothing is silently ignored: every line of the file that is neither
    blank nor a comment ends up as exactly one value of the parsed
    configuration or as exactly one error. *)
Theorem parse_accounts_for_every_line (input : bytes) :
  len input <= usize_MAX →
  len (raw_values (fst (parse input))) + len (snd (parse input)) =
  len (List.filter significant (str_lines input)).
Proof. intros H. by apply parse_spec. Qed.

Lemma parse_accounts_for_every_line_witness :
  let input := bs "# comment
ttl 300
ttl 300
network 2001:db8::/64" in
  len (raw_values (fst (parse input))) + len (snd (parse input)) =
  len (List.filter significant (str_lines input)) ∧ len (snd (parse input)) = 1.
Proof. split; [apply parse_accounts_for_every_line; by vm_compute|by vm_compute]. Defined.

(** A global setting other than the repeatable [ns] and the flag [rrl off]
    is recorded at most once, so the value that takes effect does not depend on
    which of two contradictory lines is read. *)
Theorem parse_global_once (input : bytes) (k : GlobalKey) (g g' : RawGlobal) (i j : nat) :
  len input <= usize_MAX → once k = true →
  raw_globals (fst (parse input)) !! i = Some g → key g = k →
  raw_globals (fst (parse input)) !! j = Some g' → key g' = k →
  i = j.
Proof.
  intros H%parse_spec Hk Hi Hg Hj Hg'. apply pi_once in H. unfold once_keys in H.
  revert i j Hi Hj. induction (raw_globals _) as [|x gs IH]; intros i j Hi Hj; [done|].
  assert (∀ n y, gs !! n = Some y → key y = k → k ∈ List.filter once (key <$> gs)) as Hin.
  { intros n y Hy Hky. apply list_elem_of_In, filter_In. split; [|done]. apply list_elem_of_In.
    apply list_elem_of_fmap. exists y. split; [done|]. by eapply list_elem_of_lookup_2. }
  simpl in H. destruct i as [|i], j as [|j]; simpl in *; try done.
  - injection Hi as ->. rewrite Hg, Hk in H. apply NoDup_cons in H as [H _]. by destruct H; eapply Hin.
  - injection Hj as ->. rewrite Hg', Hk in H. apply NoDup_cons in H as [H _]. by destruct H; eapply Hin.
  - f_equal. apply IH; [|done..]. destruct (once (key x)); [by apply NoDup_cons in H as [_ H]|done].
Qed.

Lemma parse_global_once_witness :
  let input := bs "ttl 300
primary ns1.example.net
ttl 400" in
  length (raw_globals (fst (parse input))) = 2%nat ∧ ∀ g g' j,
    raw_globals (fst (parse input)) !! 0%nat = Some g → key g = Ttl →
    raw_globals (fst (parse input)) !! j = Some g' → key g' = Ttl → 0%nat = j.
Proof.
  split; [by vm_compute|]. intros g g' j Hi Hg Hj Hg'.
  eapply parse_global_once; [| |exact Hi|exact Hg|exact Hj|exact Hg']; by vm_compute.
Defined.
