(* ===== verification/Grammar.v ===== *)
(** * The language of configuration files

    A grammar for the lines of a file and an abstract reader over it, both
    independent of how the parser scans: [writes] relates a line to the item it
    denotes, with any indentation, spacing and letter case of the keywords, and
    [documented_item] says, as the head of [src/config/parse.rs] and the example
    configuration do, what an item adds to a file or that it must not stand there.
    The code tolerates two items that the documentation does not ([tolerated_item]):
    [listen] after a network, and a flag that is repeated; both together are
    [read_item].  The theorem is that [parse] accepts exactly the files the grammar
    and this reader accept, and returns the values they state. *)

From S2P Require Import Prelude RustText ConfigError Parse ParseSpec.

(** ** Lines *)

Definition blank (s : bytes) : Prop := Forall (λ b, is_ascii_whitespace b = true) s.

(** At least one whitespace byte. *)
Definition gap (s : bytes) : Prop := s ≠ [] ∧ blank s.

(** The words, in any letter case, with gaps between them. *)
Inductive keyword : list bytes → bytes → Prop :=
  | keyword_one w k : k ≡ci w → keyword [w] k
  | keyword_more w ws k g rest :
      k ≡ci w → gap g → keyword ws rest → keyword (w :: ws) (k ++ g ++ rest).

(** Text that neither begins nor ends with whitespace, is not empty, and is
    UTF-8. *)
Definition value_text (v : bytes) : Prop :=
  (∃ b s, v = b :: s ∧ is_ascii_whitespace b = false) ∧
  (∃ s b, v = s ++ [b] ∧ is_ascii_whitespace b = false) ∧
  utf8_valid v = true.

Inductive Item :=
  | Nothing
  | Flag (k : GlobalKey)
  | Line (d : Directive) (v : bytes).

Inductive writes : bytes → Item → Prop :=
  | writes_blank s : blank s → writes s Nothing
  | writes_comment indent s : blank indent → writes (indent ++ "#"%byte :: s) Nothing
  | writes_flag indent ws display k kw trail :
      (ws, display, k) ∈ FLAGS → blank indent → keyword ws kw → blank trail →
      writes (indent ++ kw ++ trail) (Flag k)
  | writes_line d indent kw g v trail :
      d ∈ DIRECTIVES → blank indent → keyword (words d) kw → gap g → value_text v → blank trail →
      writes (indent ++ kw ++ g ++ v ++ trail) (Line d v).

(** ** Files *)

Record FileZone := mkFileZone {
  fz_network : bytes;
  fz_resolves_to : option bytes;
  fz_upstream : option bytes;
}.

Record File := mkFile {
  f_listen : list bytes;
  f_zones : list FileZone;
  f_globals : list (GlobalKey * bytes);
}.

Definition empty_file : File := mkFile [] [] [].

(** The zone a zone directive belongs to is the last one. *)
Definition amend_last (f : FileZone → option FileZone) (l : list FileZone) : option (list FileZone) :=
  match rev l with
  | [] => None
  | z :: before => z ← f z; Some (rev before ++ [z])
  end.

Definition add_listen (v : bytes) (f : File) : File :=
  mkFile (f_listen f ++ [v]) (f_zones f) (f_globals f).

Definition add_global (k : GlobalKey) (v : bytes) (f : File) : File :=
  mkFile (f_listen f) (f_zones f) (f_globals f ++ [(k, v)]).

(** The documented grammar: global settings, [listen] among them, come before the
    first network; all but [listen] and [ns] at most once; the directives of a
    zone at most once per zone. *)
Definition documented_item (i : Item) (f : File) : option File :=
  let single k v := if bool_decide (k ≠ Ns ∧ k ∈ (fst <$> f_globals f)) then None else Some (add_global k v f) in
  match i with
  | Nothing => Some f
  | Flag k => match f_zones f with [] => single k [] | _ => None end
  | Line d v =>
      let v := if lowercase d then to_ascii_lowercase v else v in
      match target d with
      | Listen => match f_zones f with [] => Some (add_listen v f) | _ => None end
      | Network => Some (mkFile (f_listen f) (f_zones f ++ [mkFileZone v None None]) (f_globals f))
      | ResolvesTo =>
          zs ← amend_last (λ z, if fz_resolves_to z then None
                 else Some (mkFileZone (fz_network z) (Some v) (fz_upstream z))) (f_zones f);
          Some (mkFile (f_listen f) zs (f_globals f))
      | Upstream =>
          zs ← amend_last (λ z, if fz_upstream z then None
                 else Some (mkFileZone (fz_network z) (fz_resolves_to z) (Some v))) (f_zones f);
          Some (mkFile (f_listen f) zs (f_globals f))
      | Global k => match f_zones f with [] => single k v | _ => None end
      end
  end.

(** What the code takes beyond it: a [listen] anywhere, and a flag again. *)
Definition tolerated_item (i : Item) (f : File) : option File :=
  match i with
  | Flag k => match f_zones f with [] => Some (add_global k [] f) | _ => None end
  | Line d v =>
      match target d with
      | Listen => Some (add_listen (if lowercase d then to_ascii_lowercase v else v) f)
      | _ => None
      end
  | Nothing => None
  end.

Definition read_item (i : Item) (f : File) : option File :=
  match documented_item i f with Some f => Some f | None => tolerated_item i f end.

Fixpoint documented_items (items : list Item) (f : File) : option File :=
  match items with
  | [] => Some f
  | i :: items => f ← documented_item i f; documented_items items f
  end.

Fixpoint read_items (items : list Item) (f : File) : option File :=
  match items with
  | [] => Some f
  | i :: items => f ← read_item i f; read_items items f
  end.

(** The item is one that the documentation does not allow after [f]. *)
Definition departs (i : Item) (f : File) : Prop :=
  (∃ k, i = Flag k ∧ k ∈ (fst <$> f_globals f)) ∨
  (∃ d v, i = Line d v ∧ target d = Listen ∧ f_zones f ≠ []).

Lemma read_item_flag k f :
  k ≠ Ns → read_item (Flag k) f = match f_zones f with [] => Some (add_global k [] f) | _ => None end.
Proof.
  intros Hk. unfold read_item. simpl. destruct (f_zones f); [|done]. by case_bool_decide.
Qed.

Lemma read_item_line d v f :
  read_item (Line d v) f =
  match target d with
  | Listen => Some (add_listen (if lowercase d then to_ascii_lowercase v else v) f)
  | _ => documented_item (Line d v) f
  end.
Proof.
  unfold read_item. destruct (documented_item (Line d v) f) as [f'|] eqn:E.
  - destruct (target d) eqn:Et; try done. simpl in E. rewrite Et in E. by destruct (f_zones f).
  - simpl. by destruct (target d).
Qed.

Lemma documented_read i f f' : documented_item i f = Some f' → read_item i f = Some f'.
Proof. unfold read_item. by intros ->. Qed.

Lemma documented_items_read items f f' : documented_items items f = Some f' → read_items items f = Some f'.
Proof.
  revert f. induction items as [|i items IH]; intros f; [done|]. simpl.
  destruct (documented_item i f) as [f1|] eqn:E; [|done]. rewrite (documented_read i f f1 E). apply IH.
Qed.

Lemma tolerated_departs i f : documented_item i f = None → read_item i f ≠ None → departs i f.
Proof.
  unfold read_item. intros E. rewrite E. destruct i as [|k|d v]; [done|..].
  - simpl in *. destruct (f_zones f); [|done]. case_bool_decide as H; [|done]. intros _. left. exists k. naive_solver.
  - simpl in *. destruct (target d) eqn:Et; try done. destruct (f_zones f) eqn:Ez; [done|]. intros _. right.
    exists d, v. by rewrite Ez.
Qed.

(** A file that is read but not documented has a first item that departs. *)
Lemma first_departure items f :
  read_items items f ≠ None → documented_items items f = None →
  ∃ before i after f0, items = before ++ i :: after ∧ documented_items before f = Some f0 ∧ departs i f0.
Proof.
  revert f. induction items as [|i items IH]; intros f; [done|]. simpl.
  destruct (documented_item i f) as [f1|] eqn:E.
  - rewrite (documented_read i f f1 E). intros Hr Hn. destruct (IH f1 Hr Hn) as (before & j & after & f0 & -> & Hd & Hj).
    exists (i :: before), j, after, f0. split; [done|]. split; [|done]. simpl. by rewrite E.
  - intros Hr _. exists [], i, items, f. do 2 (split; [done|]).
    apply tolerated_departs; [done|]. by destruct (read_item i f).
Qed.

(** What a parsed configuration states, without the positions. *)
Definition zone_of_raw (z : RawZone) : FileZone :=
  mkFileZone (raw_value (raw_network z)) (raw_value <$> raw_resolves_to z)
    (raw_value <$> raw_upstream z).

Definition file_of (cfg : RawConfig) : File :=
  mkFile (raw_value <$> raw_listen cfg) (zone_of_raw <$> raw_zones cfg)
    ((λ g, (key g, raw_value (global_value g))) <$> raw_globals cfg).

(** ** Trimming *)

Lemma trim_start_blank s r : blank s → trim_ascii_start (s ++ r) = trim_ascii_start r.
Proof. induction 1 as [|b s Hb _ IH]; [done|]. simpl. by rewrite Hb. Qed.

Lemma trim_start_split s :
  ∃ p, blank p ∧ s = p ++ trim_ascii_start s ∧
    (trim_ascii_start s = [] ∨
     ∃ b t, trim_ascii_start s = b :: t ∧ is_ascii_whitespace b = false).
Proof.
  induction s as [|b s (p & Hp & E & Ht)]; simpl; [exists []; split; [constructor|by auto]|].
  destruct (is_ascii_whitespace b) eqn:Hb.
  - exists (b :: p). split; [by constructor|]. split; [simpl; by f_equal|done].
  - exists []. split; [constructor|]. split; [done|]. right. by exists b, s.
Qed.

Lemma blank_rev s : blank s → blank (rev s).
Proof. unfold blank. rewrite !Forall_forall. intros H b Hb%list_elem_of_In. apply H, list_elem_of_In. by apply in_rev. Qed.

Lemma trim_end_text s b t : is_ascii_whitespace b = false → blank t → trim_ascii_end ((s ++ [b]) ++ t) = s ++ [b].
Proof.
  intros Hb Ht. unfold trim_ascii_end. rewrite rev_app_distr, trim_start_blank by by apply blank_rev.
  rewrite rev_app_distr. simpl. rewrite Hb. simpl. by rewrite rev_involutive.
Qed.

Lemma trim_end_split s :
  ∃ p, blank p ∧ s = trim_ascii_end s ++ p ∧
    (trim_ascii_end s = [] ∨
     ∃ t b, trim_ascii_end s = t ++ [b] ∧ is_ascii_whitespace b = false).
Proof.
  unfold trim_ascii_end. destruct (trim_start_split (rev s)) as (p & Hp & E & Ht). exists (rev p).
  split; [by apply blank_rev|]. split; [by rewrite <- rev_app_distr, <- E, rev_involutive|].
  destruct Ht as [-> |(b & t & -> & Hb)]; [by left|]. right. exists (rev t), b. done.
Qed.

Lemma trim_nil s : trim_ascii_start s = [] ↔ blank s.
Proof.
  destruct (trim_start_split s) as (p & Hp & E & _). split.
  - intros H. by rewrite E, H, app_nil_r.
  - intros H. rewrite <- (app_nil_r s) at 1. by rewrite trim_start_blank.
Qed.

(** A gap is what trimming shortens a text by. *)
Lemma trim_shorter s : len (trim_ascii_start s) ≠ len s → ∃ g, gap g ∧ s = g ++ trim_ascii_start s.
Proof.
  destruct (trim_start_split s) as (p & Hp & E & _). intros Hn. exists p. split; [|done].
  split; [|done]. intros ->. by rewrite E in Hn at 2.
Qed.

Lemma trim_gap g b s :
  gap g → is_ascii_whitespace b = false →
  trim_ascii_start (g ++ b :: s) = b :: s ∧ len (b :: s) ≠ len (g ++ b :: s).
Proof.
  intros [Hg Hb] Hw. rewrite trim_start_blank by done. simpl. rewrite Hw. split; [done|].
  destruct g as [|c g]; [done|]. unfold len. rewrite length_app. simpl. lia.
Qed.

(** ** Keywords *)

(** The words of the tables are not empty, without whitespace and hash signs. *)
Definition keyword_byte (b : byte) : bool :=
  negb (is_ascii_whitespace b) && negb (bool_decide (b = "#"%byte)).

Definition word_text (w : bytes) : bool :=
  match w with [] => false | _ => forallb keyword_byte w end.

Definition plain (w : bytes) : Prop := w ≠ [] ∧ Forall (λ b, keyword_byte b = true) w.

Lemma word_text_plain w : word_text w = true → plain w.
Proof.
  destruct w as [|b w]; [done|]. intros H. split; [done|]. apply Forall_forall.
  intros c Hc%list_elem_of_In. unfold word_text in H. rewrite forallb_forall in H. by apply H.
Qed.

Lemma keyword_byte_lower b : keyword_byte (lower_byte b) = keyword_byte b.
Proof. by all_bytes b. Qed.

Lemma keyword_byte_text b : keyword_byte b = true → is_ascii_whitespace b = false ∧ b ≠ "#"%byte.
Proof. unfold keyword_byte. rewrite andb_true_iff, !negb_true_iff, bool_decide_eq_false. done. Qed.

Lemma plain_ci w k : k ≡ci w → plain w → plain k.
Proof.
  unfold ci_eq, to_ascii_lowercase. intros E [Hn Hw]. split; [intros ->; by destruct w|].
  assert (Forall (λ b, keyword_byte b = true) (lower_byte <$> k)) as H.
  { rewrite E. apply Forall_fmap. eapply Forall_impl; [exact Hw|]. intros b. simpl. by rewrite keyword_byte_lower. }
  apply Forall_fmap in H. eapply Forall_impl; [exact H|]. intros b. simpl. by rewrite keyword_byte_lower.
Qed.

Lemma plain_head k : plain k → ∃ b s, k = b :: s ∧ is_ascii_whitespace b = false ∧ b ≠ "#"%byte.
Proof.
  intros [Hn Hk]. destruct k as [|b s]; [done|]. exists b, s. split; [done|].
  inversion Hk. by apply keyword_byte_text.
Qed.

Lemma keyword_head ws kw : Forall plain ws → keyword ws kw → ∃ b s, kw = b :: s ∧ is_ascii_whitespace b = false ∧ b ≠ "#"%byte.
Proof.
  intros Hw. destruct 1 as [w k Hk|w ws k g rest Hk _ _]; inversion Hw as [|? ? Hp _]; subst;
    apply plain_ci in Hk; try done; apply plain_head in Hk as (b & s & -> & Hb); [by exists b, s|].
  by exists b, (s ++ g ++ rest).
Qed.

Lemma keyword_last ws kw : Forall plain ws → keyword ws kw → ∃ s b, kw = s ++ [b] ∧ is_ascii_whitespace b = false.
Proof.
  intros Hw. induction 1 as [w k Hk|w ws k g rest _ _ _ IH]; inversion Hw as [|? ? Hp Hws]; subst.
  - apply plain_ci in Hk as [Hn Hk]; [|done]. destruct k as [|b k _] using rev_ind; [done|].
    exists k, b. split; [done|]. apply Forall_app in Hk as [_ Hk]. inversion Hk. by apply keyword_byte_text.
  - destruct (IH Hws) as (s & b & -> & Hb). exists (k ++ g ++ s), b. by rewrite <- !app_assoc.
Qed.

(** A word is matched against exactly its length of the text. *)
Lemma split_word k w rest :
  k ≡ci w → split_at_checked (k ++ rest) (len w) = Some (k, rest) ∧ eq_ignore_ascii_case k w = true.
Proof.
  intros H. split; [|by apply eq_ignore_ascii_case_spec].
  assert (len w = len k) as -> by (unfold len; by rewrite (ci_eq_length _ _ H)).
  by apply split_at_checked_app.
Qed.

(** [match_words] finds keywords, and each time the same rest. *)
Lemma match_words_sound i ws c text c' rest :
  ws ≠ [] → match_words_from i ws c text = Some (c', rest) →
  ∃ kw, keyword ws kw ∧
    if 0 <? i then ∃ g, gap g ∧ text = g ++ kw ++ rest else text = kw ++ rest.
Proof.
  revert i c text. induction ws as [|w ws IH]; intros i c text Hne; [done|]. cbn [match_words_from].
  assert (∀ c1 text1,
    ('(head, tail) ← split_at_checked text1 (len w);
     if negb (eq_ignore_ascii_case head w) then None
     else match_words_from (i + 1) ws (usize_saturating_add c1 (len w)) tail) = Some (c', rest) →
    ∃ kw, keyword (w :: ws) kw ∧ text1 = kw ++ rest) as Hstep.
  { intros c1 text1. destruct (split_at_checked text1 (len w)) as [[k tail]|] eqn:E; [|done].
    cbn [mbind option_bind]. apply split_at_checked_Some in E as [-> _].
    destruct (eq_ignore_ascii_case k w) eqn:Ek; [|done]. apply eq_ignore_ascii_case_spec in Ek. cbn [negb].
    destruct ws as [|w' ws].
    - cbn [match_words_from]. intros [= _ ->]. exists k. split; [by constructor|done].
    - intros (kw & Hkw & Ht)%IH; [|done]. replace (0 <? i + 1) with true in Ht by (symmetry; apply N.ltb_lt; lia).
      destruct Ht as (g & Hg & ->). exists (k ++ g ++ kw). split; [by constructor|]. by rewrite <- !app_assoc. }
  destruct (0 <? i); [|intros (kw & Hkw & ->)%Hstep; by exists kw].
  destruct (len (trim_ascii_start text) =? len text) eqn:El; [done|]. cbn [mbind option_bind].
  apply N.eqb_neq, trim_shorter in El as (g & Hg & E). intros (kw & Hkw & Et)%Hstep.
  exists kw. split; [done|]. exists g. split; [done|]. by rewrite <- Et.
Qed.

Lemma match_words_complete ws kw rest :
  Forall plain ws → keyword ws kw →
  ∀ i c, (∀ g, gap g → 0 < i → ∃ c', match_words_from i ws c (g ++ kw ++ rest) = Some (c', rest)) ∧
         (i = 0 → ∃ c', match_words_from i ws c (kw ++ rest) = Some (c', rest)).
Proof.
  intros Hw Hk. induction Hk as [w k Hk|w ws k g' kw Hk Hg' Hkw IH]; intros i c.
  - destruct (split_word k w rest Hk) as [H1 H2]. destruct (plain_head k) as (b & s & -> & Hb & _);
      [inversion Hw; by eapply plain_ci|]. split.
    + intros g Hg Hi. cbn [match_words_from]. rewrite (proj2 (N.ltb_lt 0 i)) by done.
      destruct (trim_gap g b (s ++ rest) Hg Hb) as [Ht Hl]. cbn [app] in *. rewrite Ht.
      rewrite (proj2 (N.eqb_neq _ _) Hl). cbn [mbind option_bind]. rewrite H1. cbn [mbind option_bind].
      rewrite H2. by eexists.
    + intros ->. cbn [match_words_from N.ltb N.compare]. cbn [mbind option_bind]. rewrite H1.
      cbn [mbind option_bind]. rewrite H2. by eexists.
  - inversion Hw as [|? ? Hp Hws]; subst. specialize (IH Hws).
    destruct (split_word k w (g' ++ kw ++ rest) Hk) as [H1 H2].
    destruct (plain_head k) as (b & s & -> & Hb & _); [by eapply plain_ci|].
    rewrite <- !app_assoc. split.
    + intros g Hg Hi. cbn [match_words_from]. rewrite (proj2 (N.ltb_lt 0 i)) by done.
      destruct (trim_gap g b (s ++ g' ++ kw ++ rest) Hg Hb) as [Ht Hl]. cbn [app] in *. rewrite Ht.
      rewrite (proj2 (N.eqb_neq _ _) Hl). cbn [mbind option_bind]. rewrite H1. cbn [mbind option_bind].
      rewrite H2. apply IH; [done|lia].
    + intros ->. cbn [match_words_from N.ltb N.compare]. cbn [mbind option_bind]. rewrite H1.
      cbn [mbind option_bind]. rewrite H2. apply IH; [done|lia].
Qed.

(** ** Reading a line is unambiguous *)

Definition stops (p : byte → bool) (s : bytes) : Prop :=
  match s with [] => True | b :: _ => p b = false end.

Lemma span_unique (p : byte → bool) a a' x x' :
  Forall (λ b, p b = true) a → Forall (λ b, p b = true) a' → stops p x → stops p x' →
  a ++ x = a' ++ x' → a = a' ∧ x = x'.
Proof.
  intros Ha. revert a'. induction Ha as [|b a Hb _ IH]; intros a' Ha' Hx Hx' E; simpl in E.
  - destruct Ha' as [|b' a' Hb' _]; [done|]. subst x. simpl in Hx. congruence.
  - destruct Ha' as [|b' a' Hb' Ha']; simpl in E; [subst x'; simpl in Hx'; congruence|].
    injection E as -> E. by destruct (IH a' Ha' Hx Hx' E) as [-> ->].
Qed.

Definition word_byte (b : byte) : bool := negb (is_ascii_whitespace b).

Lemma plain_word_bytes k : plain k → Forall (λ b, word_byte b = true) k.
Proof. intros [_ H]. eapply Forall_impl; [exact H|]. intros b [Hb _]%keyword_byte_text.
  unfold word_byte. by rewrite Hb.
Qed.

Lemma gap_stops g s : gap g → stops word_byte (g ++ s).
Proof. intros [Hn Hb]. destruct Hb as [|b g Hb _]; [done|]. simpl. unfold word_byte. by rewrite Hb. Qed.

Lemma blank_stops s : blank s → stops word_byte s.
Proof. destruct 1 as [|b s Hb _]; [done|]. simpl. unfold word_byte. by rewrite Hb. Qed.

(** One list of words continues the other. *)
Fixpoint compatible (ws ws' : list bytes) : bool :=
  match ws, ws' with
  | w :: ws, w' :: ws' => eq_ignore_ascii_case w w' && compatible ws ws'
  | _, _ => true
  end.

Lemma keywords_compatible ws ws' kw kw' r r' :
  Forall plain ws → Forall plain ws' → keyword ws kw → keyword ws' kw' →
  stops word_byte r → stops word_byte r' → kw ++ r = kw' ++ r' → compatible ws ws' = true.
Proof.
  intros Hw Hw' Hk. revert ws' kw' Hw'.
  assert (∀ k k' x x' w w', k ≡ci w → k' ≡ci w' → plain w → plain w' →
    stops word_byte x → stops word_byte x' → k ++ x = k' ++ x' →
    eq_ignore_ascii_case w w' = true ∧ x = x') as Hfirst.
  { intros k k' x x' w w' Hk1 Hk2 Hp Hp' Hx Hx' E.
    apply (span_unique word_byte) in E as [-> ->];
      [|by eapply plain_word_bytes, plain_ci..|done|done].
    split; [|done]. apply eq_ignore_ascii_case_spec. by rewrite <- Hk1. }
  induction Hk as [w k Hk|w ws k g kw Hk Hg Hkw IH]; intros ws' kw' Hw' Hk' Hr Hr' E;
    inversion Hw as [|? ? Hp Hws]; subst;
    destruct Hk' as [w' k' Hk'|w' ws' k' g' kw' Hk' Hg' Hkw']; inversion Hw' as [|? ? Hp' Hws']; subst;
    rewrite <- ?app_assoc in E; cbn [compatible];
    (eapply Hfirst in E as [-> E]; [|done..|first [done|by apply gap_stops]|first [done|by apply gap_stops]]);
    cbn [andb]; [done|done|by destruct ws|].
  destruct (keyword_head ws kw) as (b & s & -> & Hb & _); [done..|].
  destruct (keyword_head ws' kw') as (b' & s' & -> & Hb' & _); [done..|].
  apply (span_unique is_ascii_whitespace) in E as [_ E]; [|apply Hg|apply Hg'|done|done].
  by eapply IH.
Qed.

Lemma directives_plain : Forall (λ d, words d ≠ [] ∧ Forall plain (words d)) DIRECTIVES.
Proof.
  assert (Forall (λ d, words d ≠ [] ∧ Forall (λ w, word_text w = true) (words d)) DIRECTIVES) as H
    by (repeat constructor; done).
  eapply Forall_impl; [exact H|]. intros d [Hn Hd]. split; [done|].
  eapply Forall_impl; [exact Hd|]. exact word_text_plain.
Qed.

Lemma flags_plain : Forall (λ f : list bytes * bytes * GlobalKey, fst (fst f) ≠ [] ∧ Forall plain (fst (fst f))) FLAGS.
Proof. repeat constructor; try done; by apply word_text_plain. Qed.

(** No directive is the beginning of another, nor of a flag. *)
Lemma directives_distinct d d' :
  d ∈ DIRECTIVES → d' ∈ DIRECTIVES → compatible (words d) (words d') = true → d = d'.
Proof.
  intros Hd Hd'. unfold DIRECTIVES in *.
  repeat (apply elem_of_cons in Hd as [-> |Hd]; [|]); [..|by apply not_elem_of_nil in Hd];
  repeat (apply elem_of_cons in Hd' as [-> |Hd']; [try done|]); by apply not_elem_of_nil in Hd'.
Qed.

Lemma flags_directives_distinct ws display k d :
  (ws, display, k) ∈ FLAGS → d ∈ DIRECTIVES → compatible ws (words d) = false.
Proof.
  intros [= -> -> ->]%list_elem_of_singleton Hd. unfold DIRECTIVES in Hd.
  repeat (apply elem_of_cons in Hd as [-> |Hd]; [done|]); by apply not_elem_of_nil in Hd.
Qed.

(** ** Directives and flags in a line *)

(** Text that neither begins nor ends with whitespace. *)
Definition trimmed_text (v : bytes) : Prop :=
  (∃ b s, v = b :: s ∧ is_ascii_whitespace b = false) ∧
  (∃ s b, v = s ++ [b] ∧ is_ascii_whitespace b = false).

Lemma strip_keyword_iff body ws v :
  ws ≠ [] → Forall plain ws →
  (∃ off, strip_keyword body ws = Some (off, v)) ↔
  ∃ kw g trail, body = kw ++ g ++ v ++ trail ∧ keyword ws kw ∧ gap g ∧ trimmed_text v ∧ blank trail.
Proof.
  intros Hne Hw. unfold strip_keyword, match_words. split.
  - intros (off & H). destruct (match_words_from 0 ws 0 body) as [[c rest]|] eqn:E; [|done].
    cbn [mbind option_bind] in H. apply match_words_sound in E as (kw & Hkw & ->); [|done].
    destruct (N.eqb_spec (len (trim_ascii_start rest)) (len rest)) as [|Hlen]; [done|].
    apply trim_shorter in Hlen as (g & Hg & Er).
    destruct (trim_start_split rest) as (_ & _ & _ & [Hs|(b & s & Hs & Hb)]); [by rewrite Hs in H|].
    destruct (trim_end_split (trim_ascii_start rest)) as (trail & Ht & Et & Hend).
    destruct (trim_ascii_end (trim_ascii_start rest)) as [|b' v'] eqn:Ev; [done|].
    injection H as _ <-. exists kw, g, trail. rewrite Er at 1. rewrite Et at 1.
    split; [done|]. split; [done|]. split; [done|]. split; [|done]. split.
    + exists b', v'. split; [done|]. rewrite Hs in Et. by injection Et as <- _.
    + destruct Hend as [?|(t & b'' & E' & Hb'')]; [done|]. by exists t, b''.
  - intros (kw & g & trail & -> & Hkw & Hg & ((b & s & -> & Hb) & (t & b' & E & Hb')) & Ht).
    destruct (match_words_complete ws kw (g ++ (b :: s) ++ trail) Hw Hkw 0 0) as [_ (c & ->)]; [done|].
    cbn [mbind option_bind]. destruct (trim_gap g b (s ++ trail) Hg Hb) as [H1 H2]. cbn [app] in *.
    rewrite H1, (proj2 (N.eqb_neq _ _) H2). rewrite app_comm_cons, E, trim_end_text by done.
    rewrite <- E. by eexists.
Qed.

Lemma matches_flag_iff body ws :
  ws ≠ [] → Forall plain ws →
  matches_flag body ws = true ↔ ∃ kw trail, body = kw ++ trail ∧ keyword ws kw ∧ blank trail.
Proof.
  intros Hne Hw. unfold matches_flag, match_words. assert (∀ s, trim_ascii s = [] ↔ blank s) as Htrim.
  { intros s. unfold trim_ascii. rewrite <- trim_nil. split; [|by intros ->]. intros H.
    destruct (trim_end_split (trim_ascii_start s)) as (p & Hp & E & _). rewrite H in E. simpl in E.
    destruct (trim_start_split s) as (_ & _ & _ & [Hs|(b & t & Hs & Hb)]); [done|].
    rewrite E in Hs. subst p. by inversion Hp as [|? ? Hb' _]; congruence. }
  split.
  - destruct (match_words_from 0 ws 0 body) as [[c rest]|] eqn:E; [|done].
    apply match_words_sound in E as (kw & Hkw & ->); [|done]. intros H.
    exists kw, rest. split; [done|]. split; [done|]. apply Htrim. by destruct (trim_ascii rest).
  - intros (kw & trail & -> & Hkw & Ht).
    destruct (match_words_complete ws kw trail Hw Hkw 0 0) as [_ (c & ->)]; [done|].
    by apply Htrim in Ht as ->.
Qed.

(** The scan of the tables, decided by what the line says. *)
Lemma scan_flag body kw trail ws display k :
  (ws, display, k) ∈ FLAGS → body = kw ++ trail → keyword ws kw → blank trail →
  iter_find (λ f : list bytes * bytes * GlobalKey, matches_flag body (fst (fst f))) FLAGS = Some (ws, display, k).
Proof.
  intros [= -> -> ->]%list_elem_of_singleton Hb Hk Ht.
  pose proof flags_plain as Hp. apply Forall_singleton in Hp as [Hne Hp]. cbn [fst] in Hne, Hp.
  unfold FLAGS. cbn [iter_find fst]. by rewrite (proj2 (matches_flag_iff _ _ Hne Hp)) by by exists kw, trail.
Qed.

Lemma scan_flag_None body d kw g v trail :
  d ∈ DIRECTIVES → body = kw ++ g ++ v ++ trail → keyword (words d) kw → gap g →
  iter_find (λ f : list bytes * bytes * GlobalKey, matches_flag body (fst (fst f))) FLAGS = None.
Proof.
  intros Hd Hb Hk Hg. apply iter_find_None. apply Forall_forall. intros [[ws display] k] Hf. cbn [fst].
  pose proof flags_plain as Hp. rewrite Forall_forall in Hp. destruct (Hp _ Hf) as [Hne Hw]. cbn [fst] in Hne, Hw.
  pose proof directives_plain as Hdp. rewrite Forall_forall in Hdp. destruct (Hdp _ Hd) as [_ Hwd].
  apply not_true_is_false. intros (kw' & trail' & E & Hk' & Ht')%matches_flag_iff; [|done..].
  pose proof (flags_directives_distinct _ _ _ _ Hf Hd) as Hdist.
  rewrite (keywords_compatible ws (words d) kw' kw trail' (g ++ v ++ trail)) in Hdist; try done.
  - by apply blank_stops.
  - by apply gap_stops.
  - by rewrite <- E.
Qed.

Lemma scan_directive body d kw g v trail :
  d ∈ DIRECTIVES → body = kw ++ g ++ v ++ trail → keyword (words d) kw → gap g → trimmed_text v →
  blank trail →
  ∃ off, iter_find_map (λ d, '(off, value) ← strip_keyword body (words d); Some (d, off, value))
           DIRECTIVES = Some (d, off, v).
Proof.
  intros Hd Hb Hk Hg Hv Ht. pose proof directives_plain as Hp. rewrite Forall_forall in Hp.
  destruct (Hp _ Hd) as [Hne Hw].
  destruct (proj2 (strip_keyword_iff body (words d) v Hne Hw)) as [off Hs]; [by exists kw, g, trail|].
  destruct (iter_find_map _ DIRECTIVES) as [[[d' off'] v']|] eqn:E.
  - apply iter_find_map_Some in E as (l1 & y & l2 & El & Hy & _).
    assert (y ∈ DIRECTIVES) as Hin by (rewrite El; set_solver). destruct (Hp _ Hin) as [Hne' Hw'].
    destruct (strip_keyword body (words y)) as [[o u]|] eqn:Ey; [|done]. injection Hy as -> -> ->.
    destruct (proj1 (strip_keyword_iff body (words d') v' Hne' Hw')) as (kw' & g' & tr' & E' & Hk' & Hg' & _);
      [by eexists|].
    assert (d' = d) as ->; [|exists off'; congruence].
    apply directives_distinct; [done..|].
    apply (keywords_compatible _ _ kw' kw (g' ++ v' ++ tr') (g ++ v ++ trail));
      [done..|by apply gap_stops|by apply gap_stops|].
    by rewrite <- E', Hb.
  - exfalso. rewrite iter_find_map_None, Forall_forall in E. specialize (E d Hd). by rewrite Hs in E.
Qed.

(** ** A line and its text *)

(** The line without the carriage return that may end it. *)
Definition line_text (raw : bytes) : bytes := default raw (strip_suffix_byte "013" raw).

Lemma strip_suffix_snoc c s b : strip_suffix_byte c (s ++ [b]) = if bool_decide (b = c) then Some s else None.
Proof. unfold strip_suffix_byte. rewrite rev_app_distr. simpl. by rewrite rev_involutive. Qed.

Lemma line_text_raw raw : ∃ cr, blank cr ∧ raw = line_text raw ++ cr.
Proof.
  unfold line_text. destruct raw as [|b raw _] using rev_ind; [exists []; by split; [constructor|]|].
  rewrite strip_suffix_snoc. case_bool_decide as Hb; simpl;
    [|exists []; split; [constructor|by rewrite app_nil_r]].
  exists [b]. split; [|done]. subst. constructor; [done|constructor].
Qed.

Lemma line_text_blank_end s b trail :
  is_ascii_whitespace b = false → blank trail →
  ∃ trail', blank trail' ∧ line_text ((s ++ [b]) ++ trail) = (s ++ [b]) ++ trail'.
Proof.
  intros Hb Ht. unfold line_text. destruct trail as [|c trail _] using rev_ind.
  - exists []. split; [done|]. rewrite app_nil_r, strip_suffix_snoc. by rewrite bool_decide_eq_false_2 by by intros ->.
  - rewrite app_assoc, strip_suffix_snoc. apply Forall_app in Ht as [Ht Hc].
    case_bool_decide; simpl; [by exists trail|]. exists (trail ++ [c]). rewrite <- !app_assoc.
    split; [by apply Forall_app|done].
Qed.

Lemma line_text_comment indent s : ∃ s', line_text (indent ++ "#"%byte :: s) = indent ++ "#"%byte :: s'.
Proof.
  unfold line_text. destruct s as [|c s _] using rev_ind.
  - exists []. by rewrite strip_suffix_snoc.
  - rewrite app_comm_cons, app_assoc, strip_suffix_snoc. case_bool_decide; simpl; [by exists s|].
    exists (s ++ [c]). by rewrite <- app_assoc.
Qed.

Definition skipped (body : bytes) : bool :=
  match body with [] => true | b :: _ => bool_decide (b = "#"%byte) end.

(** What the scan of a line finds. *)
Definition scans (raw : bytes) (i : Item) : Prop :=
  let body := trim_ascii_start (line_text raw) in
  let flag := iter_find (λ f : list bytes * bytes * GlobalKey, matches_flag body (fst (fst f))) FLAGS in
  match i with
  | Nothing => skipped body = true
  | Flag k => skipped body = false ∧ ∃ ws display, flag = Some (ws, display, k)
  | Line d v =>
      skipped body = false ∧ flag = None ∧ utf8_valid v = true ∧
      ∃ off, iter_find_map (λ d, '(off, value) ← strip_keyword body (words d); Some (d, off, value))
               DIRECTIVES = Some (d, off, v)
  end.

(** The body of a line that begins with a keyword. *)
Lemma body_keyword indent ws kw rest s b trail :
  blank indent → Forall plain ws → keyword ws kw → kw ++ rest = s ++ [b] →
  is_ascii_whitespace b = false → blank trail →
  ∃ trail', blank trail' ∧
    trim_ascii_start (line_text (indent ++ (kw ++ rest) ++ trail)) = (kw ++ rest) ++ trail' ∧
    skipped ((kw ++ rest) ++ trail') = false.
Proof.
  intros Hi Hw Hk E Hb Ht.
  destruct (line_text_blank_end (indent ++ s) b trail Hb Ht) as (trail' & Ht' & El).
  exists trail'. split; [done|]. rewrite E, !app_assoc, El.
  destruct (keyword_head ws kw Hw Hk) as (c & t & -> & Hc & Hh).
  rewrite <- !app_assoc, trim_start_blank by done.
  assert (∃ u, s ++ [b] ++ trail' = c :: u) as (u & Eu).
  { rewrite app_assoc, <- E. by eexists. }
  rewrite Eu. simpl. rewrite Hc. split; [done|]. by apply bool_decide_eq_false.
Qed.

Lemma writes_scans raw i : writes raw i → scans raw i.
Proof.
  destruct 1 as [s Hs|indent s Hi|indent ws display k kw trail Hf Hi Hk Ht
                |d indent kw g v trail Hd Hi Hk Hg (Hv1 & Hv2 & Hu) Ht]; unfold scans.
  - destruct (line_text_raw s) as (cr & _ & E). rewrite E in Hs. apply Forall_app in Hs as [Hs _].
    by rewrite (proj2 (trim_nil _) Hs).
  - destruct (line_text_comment indent s) as [s' ->]. by rewrite trim_start_blank.
  - pose proof flags_plain as Hp. rewrite Forall_forall in Hp. destruct (Hp _ Hf) as [_ Hw]. cbn [fst] in Hw.
    destruct (keyword_last ws kw Hw Hk) as (s & b & E & Hb).
    destruct (body_keyword indent ws kw [] s b trail) as (trail' & Ht' & Eb & Hsk); try done;
      [by rewrite app_nil_r|]. rewrite app_nil_r in Eb, Hsk. rewrite Eb. split; [done|].
    exists ws, display. by eapply scan_flag.
  - pose proof directives_plain as Hp. rewrite Forall_forall in Hp. destruct (Hp _ Hd) as [_ Hw].
    destruct Hv2 as (s & b & E & Hb).
    destruct (body_keyword indent (words d) kw (g ++ v) (kw ++ g ++ s) b trail) as (trail' & Ht' & Eb & Hsk);
      try done; [by rewrite E, <- !app_assoc|]. rewrite <- !app_assoc in Eb. rewrite <- !app_assoc in Hsk.
    rewrite Eb. split; [done|]. split; [by eapply scan_flag_None|]. split; [done|].
    eapply scan_directive; try done. by split; [|exists s, b].
Qed.

Lemma scans_writes raw i : scans raw i → writes raw i.
Proof.
  destruct (line_text_raw raw) as (cr & Hcr & Er).
  destruct (trim_start_split (line_text raw)) as (p & Hp & Et & _).
  assert (raw = p ++ trim_ascii_start (line_text raw) ++ cr) as Eraw
    by (rewrite app_assoc, <- Et; exact Er). clear Er Et.
  unfold scans. set (body := trim_ascii_start (line_text raw)) in *. clearbody body. subst raw.
  destruct i as [|k|d v].
  - destruct body as [|b body]; simpl.
    + intros _. apply writes_blank. by apply Forall_app.
    + intros ->%bool_decide_eq_true. by apply (writes_comment p (body ++ cr)).
  - intros (_ & ws & display & Hf). apply iter_find_Some in Hf as (l1 & l2 & E & Hm & _). cbn [fst] in Hm.
    assert ((ws, display, k) ∈ FLAGS) as Hin by (rewrite E; set_solver).
    pose proof flags_plain as Hpl. rewrite Forall_forall in Hpl. destruct (Hpl _ Hin) as [Hne Hw].
    apply matches_flag_iff in Hm as (kw & trail & -> & Hk & Ht); [|done..].
    rewrite <- app_assoc. eapply writes_flag; try done. by apply Forall_app.
  - intros (_ & _ & Hu & off & Hs). apply iter_find_map_Some in Hs as (l1 & y & l2 & E & Hy & _).
    assert (y ∈ DIRECTIVES) as Hin by (rewrite E; set_solver).
    pose proof directives_plain as Hpl. rewrite Forall_forall in Hpl. destruct (Hpl _ Hin) as [Hne Hw].
    destruct (strip_keyword body (words y)) as [[o u]|] eqn:Ey; [|done]. injection Hy as -> -> ->.
    destruct (proj1 (strip_keyword_iff body (words d) v Hne Hw)) as (kw & g & trail & -> & Hk & Hg & [Hv1 Hv2] & Ht);
      [by eexists|].
    rewrite <- !app_assoc. apply writes_line; try done. by apply Forall_app.
Qed.

(** ** One line *)

(** The parser's answer to an item: what the reader makes of it, or one error. *)
Definition answers_to (i : Item) (cfg : RawConfig) (es : list ConfigError)
    (r : RawConfig * list ConfigError) : Prop :=
  match read_item i (file_of cfg) with
  | Some f => file_of (fst r) = f ∧ snd r = es
  | None => ∃ e, r = (cfg, es ++ [e])
  end.

Lemma no_zones_file cfg : no_zones cfg = match f_zones (file_of cfg) with [] => true | _ => false end.
Proof. unfold no_zones. simpl. by destruct (raw_zones cfg). Qed.

Lemma amend_last_snoc f zs z : amend_last f (zs ++ [z]) = (λ z', zs ++ [z']) <$> f z.
Proof. unfold amend_last. rewrite rev_app_distr. simpl. rewrite rev_involutive. by destruct (f z). Qed.

Lemma file_of_zones cfg pre z :
  raw_zones cfg = pre ++ [z] → f_zones (file_of cfg) = (zone_of_raw <$> pre) ++ [zone_of_raw z].
Proof. intros E. simpl. by rewrite E, fmap_app. Qed.

(** A directive that stands where it may. *)
Lemma apply_target_answers d val v cfg es :
  in_scope d cfg → raw_value val = (if lowercase d then to_ascii_lowercase v else v) →
  answers_to (Line d v) cfg es (apply_target d val cfg es).
Proof.
  intros Hs Hv. unfold answers_to, apply_target, in_scope in *. rewrite read_item_line, <- Hv. unfold documented_item. rewrite <- Hv.
  destruct (target d) as [| | | |k].
  - simpl. split; [|done]. unfold file_of. simpl. by rewrite fmap_app.
  - simpl. split; [|done]. unfold file_of. simpl. by rewrite fmap_app.
  - destruct (last (raw_zones cfg)) as [z|] eqn:Ez; [|by apply last_None in Ez].
    apply last_Some in Ez as [pre Ez]. rewrite (file_of_zones cfg pre z Ez), amend_last_snoc, Ez. destruct z as [n [x|] u]; simpl; [by eexists|].
    split; [|done]. unfold file_of. simpl. by rewrite update_last_snoc, fmap_app.
  - destruct (last (raw_zones cfg)) as [z|] eqn:Ez; [|by apply last_None in Ez].
    apply last_Some in Ez as [pre Ez]. rewrite (file_of_zones cfg pre z Ez), amend_last_snoc, Ez. destruct z as [n x [u|]]; simpl; [by eexists|].
    split; [|done]. unfold file_of. simpl. by rewrite update_last_snoc, fmap_app.
  - simpl. rewrite Hs. simpl. assert (∀ l, ((λ g, (key g, raw_value (global_value g))) <$> l).*1 = key <$> l) as Hk.
    { intros l. rewrite <- list_fmap_compose. by apply list_fmap_ext. }
    rewrite Hk. destruct (decide (k = Ns)) as [-> |Hns].
    + rewrite bool_decide_eq_false_2 by tauto. simpl. split; [|done].
      unfold file_of. simpl. by rewrite Hs, fmap_app.
    + rewrite (bool_decide_eq_true_2 (k ≠ Ns)) by done.
      destruct (iter_find _ _) as [g|] eqn:Ef.
      * apply iter_find_Some in Ef as (l1 & l2 & E & Hg%bool_decide_eq_true & _).
        rewrite bool_decide_eq_true_2; [by eexists|]. split; [done|]. rewrite E, fmap_app. set_solver.
      * rewrite iter_find_None, Forall_forall in Ef. rewrite bool_decide_eq_false_2.
        { split; [|done]. unfold file_of. simpl. by rewrite Hs, fmap_app. }
        intros [_ (g & -> & Hg)%list_elem_of_fmap]. apply Ef in Hg. by rewrite bool_decide_eq_false in Hg.
Qed.

Lemma out_of_scope_answers d v cfg :
  ¬ in_scope d cfg → read_item (Line d v) (file_of cfg) = None.
Proof.
  unfold in_scope. rewrite read_item_line. unfold documented_item. destruct (target d) as [| | | |k]; simpl; intros Hs; try tauto.
  - destruct (raw_zones cfg); [done|]. by destruct Hs.
  - destruct (raw_zones cfg); [done|]. by destruct Hs.
  - by destruct (raw_zones cfg).
Qed.

Lemma flags_single : Forall (λ f : list bytes * bytes * GlobalKey, snd f ≠ Ns) FLAGS.
Proof. by repeat constructor. Qed.

(** A line is read as the item it writes; a line that writes none is an error. *)
Lemma parse_line_answers idx raw cfg es :
  (∃ i, writes raw i ∧ answers_to i cfg es (parse_line idx raw cfg es)) ∨
  (∀ i, ¬ writes raw i) ∧ ∃ e, parse_line idx raw cfg es = (cfg, es ++ [e]).
Proof.
  unfold parse_line. set (body := trim_ascii_start (default raw (strip_suffix_byte "013" raw))).
  destruct (match body with [] => true | b :: _ => bool_decide (b = "#"%byte) end) eqn:Hsk.
  { left. exists Nothing. split; [apply scans_writes; exact Hsk|done]. }
  destruct (iter_find _ FLAGS) as [[[ws disp] k]|] eqn:Ef.
  { left. exists (Flag k). split; [apply scans_writes; split; [exact Hsk|by exists ws, disp]|].
    assert (k ≠ Ns) as Hk.
    { apply iter_find_Some in Ef as (l1 & l2 & E & _). pose proof flags_single as H. rewrite E in H.
      by apply Forall_app in H as [_ [H _]%Forall_cons]. }
    unfold answers_to. rewrite no_zones_file, read_item_flag by done. simpl.
    destruct (raw_zones cfg) as [|z zs] eqn:Ez; simpl; [|by eexists].
    split; [|done]. unfold file_of. simpl. by rewrite Ez, fmap_app. }
  destruct (iter_find_map _ DIRECTIVES) as [[[d off] value]|] eqn:Ed.
  2:{ right. split; [|by eexists]. intros [|k|d v] Hw%writes_scans; unfold scans in Hw; fold body in Hw.
      - unfold skipped in Hw. unfold line_text in Hw. fold body in Hw. congruence.
      - destruct Hw as (_ & ws & disp & Hf). unfold line_text in Hf. fold body in Hf. congruence.
      - destruct Hw as (_ & _ & _ & off & Hd). unfold line_text in Hd. fold body in Hd. congruence. }
  unfold from_utf8. destruct (utf8_valid value) eqn:Hu.
  2:{ right. split; [|by eexists]. intros [|k|d' v] Hw%writes_scans; unfold scans, line_text in Hw; fold body in Hw.
      - unfold skipped in Hw. congruence.
      - destruct Hw as (_ & ws & disp & Hf). congruence.
      - destruct Hw as (_ & _ & Hv & off' & Hd). congruence. }
  left. exists (Line d value).
  split; [apply scans_writes; unfold scans, line_text; fold body; split; [exact Hsk|by eauto]|].
  apply iter_find_map_Some in Ed as (l1 & d' & l2 & El & Hy & _).
  destruct (strip_keyword body (words d')) as [[o u]|]; [|done]. injection Hy as -> -> ->.
  assert (scope_matches d = true) as Hscope.
  { pose proof directives_scoped as Hd. rewrite El in Hd.
    by apply Forall_app in Hd as [_ [? _]%Forall_cons]. }
  set (val := mkRawValue _ _ _ _).
  assert (in_scope d cfg → answers_to (Line d value) cfg es (apply_target d val cfg es)) as Happly
    by (intros H; by apply apply_target_answers).
  assert (¬ in_scope d cfg → ∀ e, answers_to (Line d value) cfg es (cfg, es ++ [e])) as Hreject.
  { intros H%(out_of_scope_answers d value) e. unfold answers_to. rewrite H. by eexists. }
  unfold scope_matches, in_scope, no_zones in *.
  destruct (scope d), (target d); try done; destruct (raw_zones cfg); simpl;
    first [apply Happly; done|apply Hreject; naive_solver].
Qed.

Lemma writes_functional raw i i' : writes raw i → writes raw i' → i = i'.
Proof.
  intros H%writes_scans H'%writes_scans. unfold scans in *.
  destruct i as [|k|d v], i' as [|k'|d' v']; naive_solver congruence.
Qed.

(** ** The lines of a file *)

Lemma parse_line_errors idx raw cfg es : ∃ more, snd (parse_line idx raw cfg es) = es ++ more.
Proof.
  destruct (parse_line_answers idx raw cfg es) as [(i & _ & Ha)|(_ & e & ->)]; [|by exists [e]].
  unfold answers_to in Ha. destruct (read_item i (file_of cfg)).
  - exists []. rewrite app_nil_r. apply Ha.
  - destruct Ha as [e ->]. by exists [e].
Qed.

Lemma parse_lines_errors idx ls cfg es : ∃ more, snd (parse_lines idx ls cfg es) = es ++ more.
Proof.
  revert idx cfg es. induction ls as [|raw ls IH]; intros idx cfg es; cbn [parse_lines].
  - exists []. by rewrite app_nil_r.
  - destruct (parse_line_errors idx raw cfg es) as [more E].
    destruct (parse_line idx raw cfg es) as [cfg' es']. simpl in E. subst es'.
    destruct (IH (idx + 1) cfg' (es ++ more)) as [more' ->]. exists (more ++ more'). by rewrite app_assoc.
Qed.

Lemma snoc_app_ne {A} (l more : list A) a : (l ++ [a]) ++ more ≠ l.
Proof. rewrite <- app_assoc. intros H. rewrite <- (app_nil_r l) in H at 2. by apply app_inv_head in H. Qed.

Lemma parse_lines_reads idx ls cfg es f :
  (snd (parse_lines idx ls cfg es) = es ∧ file_of (fst (parse_lines idx ls cfg es)) = f) ↔
  ∃ items, Forall2 writes ls items ∧ read_items items (file_of cfg) = Some f.
Proof.
  revert idx cfg es. induction ls as [|raw ls IH]; intros idx cfg es; cbn [parse_lines].
  { split.
    - intros [_ Hf]. exists []. split; [constructor|]. simpl. by f_equal.
    - intros (items & Hw & Hr). inversion Hw; subst. by injection Hr. }
  pose proof (parse_line_answers idx raw cfg es) as Ha.
  destruct (parse_line idx raw cfg es) as [cfg' es'].
  assert (∀ e, (cfg', es') = (cfg, es ++ [e]) →
    snd (parse_lines (idx + 1) ls cfg' es') = es → False) as Herr.
  { intros e [= -> ->]. destruct (parse_lines_errors (idx + 1) ls cfg (es ++ [e])) as [more ->].
    apply snoc_app_ne. }
  destruct Ha as [(i & Hi & Ha)|(Hno & e & E)].
  2:{ split; [intros [H _]; by destruct (Herr e E)|]. intros (items & Hw & _).
      inversion Hw as [|? i ? ? Hi]; subst. by apply Hno in Hi. }
  unfold answers_to in Ha. destruct (read_item i (file_of cfg)) as [f'|] eqn:Er.
  - cbn [fst snd] in Ha. destruct Ha as [Hf' ->]. rewrite (IH (idx + 1) cfg' es). split.
    + intros (items & Hw & Hr). exists (i :: items). split; [by constructor|]. simpl. rewrite Er. simpl.
      by rewrite <- Hf'.
    + intros (items & Hw & Hr). inversion Hw as [|? i' ? items' Hi' Hw']; subst.
      rewrite (writes_functional raw i' i) in Hr by done. simpl in Hr. rewrite Er in Hr.
      by exists items'.
  - destruct Ha as [e E]. split; [intros [H _]; by destruct (Herr e E)|].
    intros (items & Hw & Hr). inversion Hw as [|? i' ? items' Hi' Hw']; subst.
    rewrite (writes_functional raw i' i) in Hr by done. simpl in Hr. by rewrite Er in Hr.
Qed.

Lemma Forall2_unique {A B} (P : A → B → Prop) l :
  (∀ a x y, P a x → P a y → x = y) → ∀ x y, Forall2 P l x → Forall2 P l y → x = y.
Proof.
  intros Hu xs ys Hx. revert ys. induction Hx; intros ys Hy; inversion Hy; subst; [done|]. f_equal; eauto.
Qed.

Lemma writes_lines_functional ls items items' :
  Forall2 writes ls items → Forall2 writes ls items' → items = items'.
Proof. apply Forall2_unique, writes_functional. Qed.

(** ** Properties *)

(** C10.  The parser accepts exactly the language of its grammar: it reports no
    error precisely when every line writes an item, in any indentation, spacing
    and letter case, and every item stands where it may; and it then returns what
    the items state, in order.  This language is the documented one and two
    departures from it: every file that the documentation allows is accepted and
    read as documented; and the first item, if any, of an accepted file that the
    documentation does not allow is a flag that was given before, or a [listen]
    after a network. *)
Theorem parse_accepts_grammar (input : bytes) (f : File) :
  ((snd (parse input) = [] ∧ file_of (fst (parse input)) = f) ↔
   ∃ items, Forall2 writes (str_lines input) items ∧ read_items items empty_file = Some f) ∧
  (∀ items, Forall2 writes (str_lines input) items → documented_items items empty_file = Some f →
   snd (parse input) = [] ∧ file_of (fst (parse input)) = f) ∧
  (∀ items, Forall2 writes (str_lines input) items → snd (parse input) = [] →
   documented_items items empty_file = None →
   ∃ before i after f0, items = before ++ i :: after ∧ documented_items before empty_file = Some f0 ∧
     departs i f0).
Proof.
  pose proof (λ f, parse_lines_reads 0 (str_lines input) RawConfig_default [] f) as Hp. fold (parse input) in Hp.
  split; [apply Hp|]. split.
  - intros items Hw Hd%documented_items_read. apply Hp. by exists items.
  - intros items Hw He. apply first_departure.
    destruct (proj1 (Hp (file_of (fst (parse input)))) (conj He eq_refl)) as (items' & Hw' & Hr).
    change (file_of RawConfig_default) with empty_file in Hr. by rewrite (writes_lines_functional _ items items' Hw Hw'), Hr.
Qed.

(** C16.  One bad line costs one error, and only its own: a line that writes no
    item, or one that must not stand there, adds exactly one error and leaves the
    configuration as it was; every other line adds none and has the effect of its
    item.  The items that may stand there are those that the documentation allows,
    and two departures from it that are read as written: a flag given again, and a
    [listen] after a network. *)
Theorem parse_line_exact (idx : N) (raw : bytes) (cfg : RawConfig) (es : list ConfigError) :
  (∃ i f, writes raw i ∧
     (documented_item i (file_of cfg) = Some f ∨
      documented_item i (file_of cfg) = None ∧ departs i (file_of cfg) ∧ tolerated_item i (file_of cfg) = Some f) ∧
     file_of (fst (parse_line idx raw cfg es)) = f ∧ snd (parse_line idx raw cfg es) = es) ∨
  (∀ i, writes raw i → documented_item i (file_of cfg) = None ∧ tolerated_item i (file_of cfg) = None) ∧
     ∃ e, parse_line idx raw cfg es = (cfg, es ++ [e]).
Proof.
  destruct (parse_line_answers idx raw cfg es) as [(i & Hi & Ha)|(Hno & He)].
  - unfold answers_to in Ha. destruct (read_item i (file_of cfg)) as [f|] eqn:Er.
    + left. exists i, f. split; [done|]. split; [|done].
      destruct (documented_item i (file_of cfg)) as [f'|] eqn:Ed;
        [left; apply documented_read in Ed; congruence|right].
      split; [done|]. split; [by apply tolerated_departs; rewrite ?Er|]. unfold read_item in Er. by rewrite Ed in Er.
    + right. split; [|done]. intros i' Hi'. rewrite (writes_functional raw i' i) by done.
      unfold read_item in Er. by destruct (documented_item i (file_of cfg)).
  - right. split; [|done]. intros i Hi. by apply Hno in Hi.
Qed.

(** A file in the grammar, with odd spacing and letter case, and with both
    departures from the documentation. *)
Definition odd_input : bytes := bs "# comment
	RRL  Off
rrl off
PRIMARY  NS1.Example.net
Network 2001:DB8::/64
	Resolves   TO  Ipv6-%DIGITS%.Example.net
listen ::1
".

Definition odd_file : File :=
  mkFile [bs "::1"] [mkFileZone (bs "2001:db8::/64") (Some (bs "Ipv6-%DIGITS%.Example.net")) None]
    [(RrlOff, []); (RrlOff, []); (Primary, bs "ns1.example.net")].

Lemma parse_accepts_grammar_witness :
  ∃ items, Forall2 writes (str_lines odd_input) items ∧ read_items items empty_file = Some odd_file.
Proof. apply (proj1 (parse_accepts_grammar odd_input odd_file)). by vm_compute. Defined.
