(* ===== verification/CompileSpec.v ===== *)
(** * Correctness of [src/config/compile.rs]

    Validation establishes the invariants of [ConfigSpec], accepts exactly the
    documented networks, keeps the text of a template, and pushes exactly one
    error for every rejected item. *)

From S2P Require Import Prelude RustText RustNet ConfigError Dns Nibble Config ConfigSpec Parse ParseSpec Compile Sample.

(** ** A logic for [Check] *)

(** The computation accepts a value with [P] and pushes nothing, or rejects with
    a single error with [Q]. *)
Definition yields {A} (m : Check (option A)) (P : A → Prop) (Q : ConfigError → Prop) : Prop :=
  (∃ a, P a ∧ ∀ es, m es = (Some a, es)) ∨
  (∃ e, Q e ∧ ∀ es, m es = (None, es ++ [e])).

Lemma yields_accept {A} (a : A) (P : A → Prop) Q : P a → yields (accept a) P Q.
Proof. intros Ha. left. by exists a. Qed.

Lemma yields_reject {A} (e : ConfigError) (P : A → Prop) (Q : ConfigError → Prop) :
  Q e → yields (reject e) P Q.
Proof. intros He. right. by exists e. Qed.

Lemma yields_try {A B} (m : Check (option A)) (f : A → Check (option B)) P P' Q :
  yields m P' Q → (∀ a, P' a → yields (f a) P Q) → yields (check_try m f) P Q.
Proof.
  intros [(a & Ha & Hm)|(e & He & Hm)] Hf.
  - destruct (Hf a Ha) as [(b & Hb & Hr)|(e & He & Hr)].
    + left. exists b. split; [done|]. intros es. unfold check_try, check_bind. by rewrite Hm.
    + right. exists e. split; [done|]. intros es. unfold check_try, check_bind. by rewrite Hm.
  - right. exists e. split; [done|]. intros es. unfold check_try, check_bind. by rewrite Hm.
Qed.

Lemma yields_mono {A} (m : Check (option A)) (P P' : A → Prop) (Q Q' : ConfigError → Prop) :
  yields m P Q → (∀ a, P a → P' a) → (∀ e, Q e → Q' e) → yields m P' Q'.
Proof.
  intros [(a & Ha & Hm)|(e & He & Hm)] HP HQ; [left; exists a|right; exists e]; auto.
Qed.

Lemma yields_run {A} (m : Check (option A)) P Q es :
  yields m P Q →
  (∃ a, P a ∧ m es = (Some a, es)) ∨ (∃ e, Q e ∧ m es = (None, es ++ [e])).
Proof. intros [(a & Ha & Hm)|(e & He & Hm)]; [left; exists a|right; exists e]; auto. Qed.

Create HintDb checks.
#[export] Hint Resolve yields_accept yields_reject : checks.

(** The error names the line of the value and a part of the text up to the
    value's end. *)
Definition anchored (v : RawValue) (e : ConfigError) : Prop :=
  line e = raw_line_no v ∧ snippet e = raw_line v ∧
  (fst (raw_span v) <= snd (raw_span v) →
   ∃ a b, span e = Some (a, b) ∧ a <= b ∧ b <= snd (raw_span v)).

Lemma anchored_error v k : anchored v (error v k).
Proof.
  split; [done|]. split; [done|]. intros H. exists (fst (raw_span v)), (snd (raw_span v)).
  simpl. by destruct (raw_span v).
Qed.

Lemma anchored_error_at v o n k : anchored v (error_at v o n k).
Proof.
  split; [done|]. split; [done|]. intros H. eexists _, _. split; [done|].
  unfold usize_saturating_add. lia.
Qed.
#[export] Hint Resolve anchored_error anchored_error_at : checks.

(** ** Networks *)

(** The text of a network directive that validation accepts: an IPv6 address
    with no bits below the prefix, and a prefix length strictly between 0 and
    128 that is a multiple of 4. *)
Definition valid_network (text : bytes) (p m : N) : Prop :=
  ∃ addr_part mask_part,
    split_once_byte "/" text = Some (addr_part, mask_part) ∧
    Ipv6Addr_from_str addr_part = Some p ∧ u32_from_str mask_part = Some m ∧
    0 < m < 128 ∧ m mod 4 = 0 ∧ N.land p (mask_bits m) = p.

(** Reject, and read off why no network is denoted. *)
Ltac reject_network :=
  apply yields_reject; split; [auto with checks|];
  intros ? ? (? & ? & ? & ? & ? & ? & ? & ?); simplify_eq.

Lemma compile_network_yields v :
  yields (compile_network v) (λ '(p, m), valid_network (raw_value v) p m)
    (λ e, anchored v e ∧ ∀ p m, ¬ valid_network (raw_value v) p m).
Proof.
  unfold compile_network, valid_network.
  destruct (split_once_byte _ _) as [[a mt]|]; [|reject_network].
  destruct (Ipv6Addr_from_str a) as [addr|] eqn:Ea; [|reject_network].
  destruct (u32_from_str mt) as [n|] eqn:En; [|reject_network].
  destruct (N.ltb_spec 128 n) as [|Hn]; [reject_network; lia|].
  assert ((if n <=? u8_MAX then n else 128) = n) as ->.
  { unfold u8_MAX. change (N.ones 8) with 255. by rewrite (proj2 (N.leb_le n 255)) by lia. }
  unfold is_multiple_of. simpl. destruct (N.eqb_spec (n mod 4) 0) as [H4|]; simpl; [|reject_network; lia].
  destruct (N.eqb_spec n 0) as [|H0]; [reject_network; lia|].
  destruct (N.eqb_spec n 128) as [|H128]; [reject_network; lia|].
  destruct (N.eqb_spec addr (N.land addr (mask_bits n))) as [Hp|Hp]; simpl.
  - apply yields_accept. exists a, mt. rewrite <- Hp. repeat split; auto; lia.
  - by reject_network.
Qed.

(** ** Searching for the placeholder *)

Lemma starts_with_true s p : starts_with s p = true ↔ ∃ t, s = p ++ t.
Proof.
  revert s. induction p as [|c p IH]; intros s; simpl; [split; [by exists s|by destruct s]|].
  destruct s as [|b s]; [split; [done|by intros [? ?]]|].
  simpl. rewrite andb_true_iff, bool_decide_eq_true, IH. naive_solver.
Qed.

Lemma str_find_Some s p i :
  str_find s p = Some i → ∃ a t, s = a ++ p ++ t ∧ len a = i.
Proof.
  revert i. induction s as [|b s IH]; intros i.
  - cbn [str_find]. destruct (starts_with [] p) eqn:E; [|done]. intros [= <-].
    apply starts_with_true in E as [t E]. by exists [], t.
  - cbn [str_find]. destruct (starts_with (b :: s) p) eqn:E.
    { intros [= <-]. apply starts_with_true in E as [t E]. by exists [], t. }
    destruct (str_find s p) as [j|] eqn:Ej; [|done]. intros [= <-].
    destruct (IH j eq_refl) as (a & t & -> & Ha). exists (b :: a), t.
    split; [done|]. rewrite len_cons. lia.
Qed.

(** A found pattern is counted. *)
Lemma str_find_count s p i :
  p ≠ [] → str_find s p = Some i → 1 <= match_count s p.
Proof.
  intros Hp. unfold match_count. revert i. induction s as [|b s IH]; intros i.
  - destruct p; [done|]. by simpl.
  - cbn [str_find match_count_from]. destruct (starts_with (b :: s) p); [lia|].
    destruct (str_find s p) eqn:E; [|done]. intros _. by eapply IH.
Qed.

Lemma str_find_None s p : p ≠ [] → str_find s p = None → match_count s p = 0.
Proof.
  intros Hp. unfold match_count. induction s as [|b s IH]; [done|].
  cbn [str_find match_count_from]. destruct (starts_with (b :: s) p); [done|].
  destruct (str_find s p); [done|]. auto.
Qed.

(** Occurrences do not cross a separator that the pattern does not contain. *)
Lemma starts_with_sep (c : byte) a b p :
  c ∉ p → starts_with (a ++ c :: b) p = starts_with a p.
Proof.
  intros Hc. revert a. induction p as [|d p IH]; intros a; [by destruct a|].
  apply not_elem_of_cons in Hc as [Hd Hc]. destruct a as [|x a]; simpl.
  - by rewrite bool_decide_eq_false_2.
  - by rewrite IH.
Qed.

Lemma match_count_sep (c : byte) a b p skip :
  c ∉ p → p ≠ [] → (skip <= length a)%nat →
  match_count_from skip (a ++ c :: b) p = match_count_from skip a p + match_count b p.
Proof.
  intros Hc Hp. revert skip. induction a as [|x a IH]; intros skip Hs.
  - destruct skip; [|simpl in Hs; lia]. simpl.
    pose proof (starts_with_sep c [] b p Hc) as E. simpl in E. rewrite E.
    by destruct p.
  - simpl in Hs. destruct skip as [|skip]; cbn [app match_count_from]; [|apply IH; lia].
    pose proof (starts_with_sep c (x :: a) b p Hc) as E. simpl app in E. rewrite E.
    destruct (starts_with (x :: a) p) eqn:Ex; [|apply IH; lia].
    apply starts_with_true in Ex as [t Et].
    rewrite IH; [lia|]. apply (f_equal length) in Et. rewrite length_app in Et.
    simpl in Et. lia.
Qed.

(** ** Splitting at separators *)

Fixpoint join_byte (c : byte) (segs : list bytes) : bytes :=
  match segs with
  | [] => []
  | [s] => s
  | s :: segs => s ++ c :: join_byte c segs
  end.

Lemma split_byte_not_nil c s : split_byte c s ≠ [].
Proof. destruct s as [|b s]; simpl; [done|]. case_bool_decide; [done|]. by destruct (split_byte c s). Qed.

Lemma split_byte_join c s : join_byte c (split_byte c s) = s.
Proof.
  induction s as [|b s IH]; [done|]. simpl. case_bool_decide as Hb.
  - subst b. pose proof (split_byte_not_nil c s). simpl.
    destruct (split_byte c s); [done|]. by rewrite IH.
  - destruct (split_byte c s) as [|seg [|g segs]] eqn:E; simpl in *; by rewrite <- IH.
Qed.

Lemma join_byte_cons c s g segs : join_byte c (s :: g :: segs) = s ++ c :: join_byte c (g :: segs).
Proof. done. Qed.

(** The count of a pattern is the sum of its counts in the segments. *)
Definition sum_counts (f : bytes → N) (segs : list bytes) : N :=
  foldr (λ s acc, f s + acc) 0 segs.

Lemma match_count_join (c : byte) p segs :
  c ∉ p → p ≠ [] →
  match_count (join_byte c segs) p = sum_counts (λ s, match_count s p) segs.
Proof.
  intros Hc Hp. induction segs as [|s [|g segs] IH]; [done|simpl; lia|].
  rewrite join_byte_cons. unfold match_count at 1. rewrite match_count_sep by (done || lia).
  rewrite IH. done.
Qed.

Lemma lower_join_byte c segs :
  lower_byte c = c →
  to_ascii_lowercase (join_byte c segs) = join_byte c (to_ascii_lowercase <$> segs).
Proof.
  intros Hc. induction segs as [|s [|g segs] IH]; [done|done|].
  rewrite join_byte_cons, to_ascii_lowercase_app. rewrite !fmap_cons, join_byte_cons.
  f_equal. simpl. rewrite Hc. f_equal. apply IH.
Qed.

Lemma join_byte_ci c segs segs' :
  Forall2 ci_eq segs segs' → join_byte c segs ≡ci join_byte c segs'.
Proof.
  induction 1 as [|s s' segs segs' Hs H IH]; [done|].
  destruct H as [|g g' segs segs' Hg H]; [done|]. rewrite !join_byte_cons.
  apply app_ci_proper; [done|]. unfold ci_eq in *. simpl. by f_equal.
Qed.

(** Placeholders of either kind, in lowercase text. *)
Definition placeholders (s : bytes) : N :=
  match_count s PLACEHOLDER + match_count s PLACEHOLDER_DASHED.

Lemma dot_not_in : "."%byte ∉ PLACEHOLDER ∧ "."%byte ∉ PLACEHOLDER_DASHED.
Proof. refine (bool_decide_unpack _ _). by vm_compute. Qed.

Lemma placeholders_split s :
  placeholders (to_ascii_lowercase s) =
  sum_counts (λ seg, placeholders (to_ascii_lowercase seg)) (split_byte "." s).
Proof.
  unfold placeholders. rewrite <- (split_byte_join "." s) at 1 2.
  rewrite !lower_join_byte, !match_count_join by (done || apply dot_not_in).
  unfold sum_counts. induction (split_byte "." s) as [|g segs IH]; [done|]. rewrite !fmap_cons. cbn [foldr]. lia.
Qed.

Lemma placeholders_trailing_dot s :
  placeholders (to_ascii_lowercase (s ++ bs ".")) = placeholders (to_ascii_lowercase s).
Proof.
  rewrite to_ascii_lowercase_app. change (to_ascii_lowercase (bs ".")) with ("."%byte :: []).
  unfold placeholders, match_count at 1 2.
  rewrite !match_count_sep by (done || lia || apply dot_not_in).
  unfold match_count. simpl. lia.
Qed.

(** ** Labels of a template *)

(** The text a label was read from, with its placeholder. *)
Definition label_text (l : FwdLabel) : bytes :=
  match l with
  | Literal verbatim _ => verbatim
  | Digits pre _ post _ dashed =>
      pre ++ (if dashed then PLACEHOLDER_DASHED else PLACEHOLDER) ++ post
  end.

Definition template_text (t : FwdTemplate) : bytes := join_byte "." (label_text <$> fwd_labels t).

Definition digits_dashed (l : FwdLabel) (dashed : bool) : Prop :=
  match l with Digits _ _ _ _ d => d = dashed | Literal _ _ => False end.

(** Cut a text where its lowercase copy has the placeholder. *)
Lemma split_placeholder s ph i :
  to_ascii_lowercase ph = ph → str_find (to_ascii_lowercase s) ph = Some i →
  ∃ pre rest mid post,
    split_at_checked s i = Some (pre, rest) ∧
    split_at_checked rest (len ph) = Some (mid, post) ∧
    pre ++ ph ++ post ≡ci s.
Proof.
  intros Hph H. apply str_find_Some in H as (a & t & Hs & <-).
  assert (length s = (length a + (length ph + length t))%nat) as Hl.
  { rewrite <- (length_to_ascii_lowercase s), Hs, !length_app. lia. }
  exists (take (length a) s), (drop (length a) s),
    (take (length ph) (drop (length a) s)), (drop (length ph) (drop (length a) s)).
  assert (length (take (length a) s) = length a) as Ha by (rewrite length_take; lia).
  assert (length (take (length ph) (drop (length a) s)) = length ph) as Hm
    by (rewrite length_take, length_drop; lia).
  split; [apply split_at_checked_Some; rewrite take_drop; unfold len; split; [done|lia]|].
  split; [apply split_at_checked_Some; rewrite take_drop; unfold len; split; [done|lia]|].
  pose proof Hs as Hall. rewrite <- (take_drop (length a) s) in Hs at 1.
  rewrite <- (take_drop (length ph) (drop (length a) s)) in Hs at 1.
  rewrite !to_ascii_lowercase_app in Hs.
  apply app_inj_1 in Hs as [H1 H2]; [|by rewrite length_to_ascii_lowercase].
  apply app_inj_1 in H2 as [H2 H3]; [|by rewrite length_to_ascii_lowercase].
  unfold ci_eq. by rewrite Hall, !to_ascii_lowercase_app, Hph, H1, H3.
Qed.

(** The two [malformed placeholder] branches are never taken. *)
Lemma compile_segment_spec seg :
  ∃ l o, compile_segment seg = Some (l, o) ∧ label_wf l ∧ label_text l ≡ci seg ∧
    match o with
    | Some d => digits_dashed l d ∧ 1 <= placeholders (to_ascii_lowercase seg)
    | None => is_literal l = true ∧ placeholders (to_ascii_lowercase seg) = 0
    end.
Proof.
  unfold compile_segment, placeholders.
  destruct (str_find _ PLACEHOLDER_DASHED) as [i|] eqn:Ed.
  - destruct (split_placeholder seg PLACEHOLDER_DASHED i) as (pre & rest & mid & post & Hs & Hr & Hc);
      [by vm_compute|done|].
    cbv zeta iota beta. rewrite Hs. cbn [mbind option_bind]. rewrite Hr. cbn [mbind option_bind].
    eexists _, _. split; [done|]. split; [done|]. split; [done|]. split; [done|].
    apply str_find_count in Ed; [lia|done].
  - destruct (str_find _ PLACEHOLDER) as [i|] eqn:Ep.
    + destruct (split_placeholder seg PLACEHOLDER i) as (pre & rest & mid & post & Hs & Hr & Hc);
        [by vm_compute|done|].
      cbv zeta iota beta. rewrite Hs. cbn [mbind option_bind]. rewrite Hr. cbn [mbind option_bind].
      eexists _, _. split; [done|]. split; [done|]. split; [done|]. split; [done|].
      apply str_find_count in Ep; [lia|done].
    + eexists _, _. split; [done|]. split; [done|]. split; [done|]. split; [done|].
      by rewrite !str_find_None.
Qed.

(** How many labels hold digits. *)
Definition digits_labels (ls : list FwdLabel) : N := len (List.filter (λ l, negb (is_literal l)) ls).

Lemma digits_labels_app a b : digits_labels (a ++ b) = digits_labels a + digits_labels b.
Proof. unfold digits_labels. by rewrite List.filter_app, len_app. Qed.

Lemma digits_labels_0 ls : digits_labels ls = 0 → Forall (λ l, is_literal l = true) ls.
Proof.
  unfold digits_labels. induction ls as [|l ls IH]; [constructor|]. simpl.
  destruct (is_literal l) eqn:E; simpl; [by constructor; auto|]. rewrite len_cons. lia.
Qed.

(** The last digits label of a list, at the index and of the kind recorded. *)
Definition last_digits (new : list FwdLabel) (idx : N) (at_ : option N) (d : bool)
    (at0 : option N) (d0 : bool) : Prop :=
  (at_ = at0 ∧ d = d0 ∧ Forall (λ l, is_literal l = true) new) ∨
  ∃ bef l aft, new = bef ++ l :: aft ∧ digits_dashed l d ∧ at_ = Some (idx + len bef) ∧
    Forall (λ l, is_literal l = true) aft.

Definition empty_label_error (v : RawValue) (e : ConfigError) : Prop :=
  e = error v (ResolvesToInvalidName (bs "empty label")).

Lemma compile_segments_yields v segs idx ls at0 d0 :
  yields (compile_segments v idx segs ls at0 d0)
    (λ '(ls', at_, d), ∃ new, ls' = ls ++ new ∧
       Forall2 ci_eq (label_text <$> new) segs ∧ Forall label_wf new ∧
       digits_labels new <= sum_counts (λ s, placeholders (to_ascii_lowercase s)) segs ∧
       (Forall (λ l, is_literal l = true) new →
        sum_counts (λ s, placeholders (to_ascii_lowercase s)) segs = 0) ∧
       last_digits new idx at_ d at0 d0)
    (empty_label_error v).
Proof.
  revert idx ls at0 d0. induction segs as [|seg segs IH]; intros idx ls at0 d0.
  - apply yields_accept. exists []. rewrite app_nil_r. do 3 (split; [done|]).
    split; [done|]. split; [done|]. by left.
  - cbn [compile_segments]. destruct seg as [|b seg]; [by apply yields_reject|].
    set (s := b :: seg). destruct (compile_segment_spec s) as (l & o & -> & Hw & Ht & Ho).
    destruct o as [d|].
    + destruct Ho as [Hd Hc]. eapply yields_mono; [apply IH| |done].
      intros [[ls' at_] d'] (new & -> & Hci & Hwf & Hn & Hz & Hlast). exists (l :: new).
      rewrite <- app_assoc. split; [done|]. split; [by constructor|]. split; [by constructor|].
      split.
      { change (l :: new) with ([l] ++ new). rewrite digits_labels_app. cbn [sum_counts foldr].
        assert (digits_labels [l] <= 1); [|unfold sum_counts in Hn; lia].
        unfold digits_labels. simpl. by destruct (negb _). }
      split. { intros [Hl _]%Forall_cons. by destruct l. }
      right. destruct Hlast as [(-> & -> & Hlit)|(bef & m & aft & -> & Hm & -> & Hlit)].
      * exists [], l, new. split; [done|]. split; [done|]. split; [|done]. f_equal. rewrite len_nil. lia.
      * exists (l :: bef), m, aft. split; [done|]. split; [done|]. split; [|done].
        f_equal. rewrite len_cons. lia.
    + destruct Ho as [Ho H0]. eapply yields_mono; [apply IH| |done].
      intros [[ls' at_] d'] (new & -> & Hci & Hwf & Hn & Hz & Hlast). exists (l :: new).
      rewrite <- app_assoc. split; [done|]. split; [by constructor|]. split; [by constructor|].
      split.
      { unfold digits_labels in *. simpl. rewrite Ho. simpl. unfold sum_counts in *. simpl. lia. }
      split. { intros [_ Hl]%Forall_cons. unfold sum_counts in *. cbn [foldr]. rewrite Hz by done. fold s. by rewrite H0. }
      destruct Hlast as [(-> & -> & Hlit)|(bef & m & aft & -> & Hm & -> & Hlit)].
      * left. split; [done|]. split; [done|]. by constructor.
      * right. exists (l :: bef), m, aft. split; [done|]. split; [done|]. split; [|done].
        f_equal. rewrite len_cons. lia.
Qed.

(** ** Templates *)

(** The text without the one trailing dot that marks an absolute name. *)
Definition undotted (s : bytes) : bytes := default s (strip_suffix_byte "." s).

Lemma undotted_placeholders s :
  placeholders (to_ascii_lowercase (undotted s)) = placeholders (to_ascii_lowercase s).
Proof.
  unfold undotted, strip_suffix_byte. destruct (rev s) as [|b r] eqn:E; [done|].
  case_bool_decide as Hb; [|done]. simpl. subst b.
  rewrite <- (rev_involutive s), E. simpl. by rewrite placeholders_trailing_dot.
Qed.

(** Every way a template is rejected. *)
Inductive template_error (v : RawValue) (hn : N) : ConfigError → Prop :=
  | err_missing :
      placeholders (to_ascii_lowercase (raw_value v)) = 0 →
      template_error v hn (error v PlaceholderMissing)
  | err_repeated n :
      placeholders (to_ascii_lowercase (raw_value v)) = n → 2 <= n →
      template_error v hn (error v (PlaceholderRepeated n))
  | err_empty_label :
      template_error v hn (error v (ResolvesToInvalidName (bs "empty label")))
  | err_dashed :
      hn mod 4 ≠ 0 → template_error v hn (error v (DashedDigitsNotNibbleMultipleOfFour hn))
  | err_too_long reason :
      template_error v hn (error v (ForwardNameTooLong reason)).

Section Templates.
Context {D : DnsOps} {L : DnsLaws D}.

Definition template_of (v : RawValue) (hn : N) (t : FwdTemplate) : Prop :=
  template_wf hn t ∧ template_text t ≡ci undotted (raw_value v).

Lemma render_Ok_inv t d n :
  render t d = Ok n → valid_labels (render_label d <$> fwd_labels t) = true.
Proof.
  unfold render. destruct (from_labels _) as [m|] eqn:E; [|done]. intros _.
  apply from_labels_valid. by exists m.
Qed.

(** One digits label is all there can be when the text has one placeholder. *)
Lemma single_digits ls at_ d :
  digits_labels ls <= 1 → Forall label_wf ls → last_digits ls 0 (Some at_) d None false →
  ∃ before pre pre_lower post post_lower after,
    ls = before ++ Digits pre pre_lower post post_lower d :: after ∧
    Forall (λ l, is_literal l = true) before ∧
    Forall (λ l, is_literal l = true) after ∧ at_ = len before.
Proof.
  intros Hn Hwf [(? & _)|(bef & l & aft & -> & Hd & [= ->] & Ha)]; [done|].
  destruct l as [|pre prl post pol d']; [done|]. simpl in Hd. subst d'.
  exists bef, pre, prl, post, pol, aft. split; [done|]. split; [|done].
  apply digits_labels_0. change (Digits pre prl post pol d :: aft) with
    ([Digits pre prl post pol d] ++ aft) in Hn.
  rewrite !digits_labels_app in Hn. change (digits_labels [Digits pre prl post pol d]) with 1 in Hn.
  lia.
Qed.

Lemma compile_template_yields v hn :
  hn <= 32 → yields (compile_template v hn) (template_of v hn) (template_error v hn).
Proof.
  intros Hhn. unfold compile_template. fold (placeholders (to_ascii_lowercase (raw_value v))).
  destruct (N.eqb_spec (placeholders (to_ascii_lowercase (raw_value v))) 0) as [H0|H0].
  { by apply yields_reject, err_missing. }
  destruct (N.eqb_spec (placeholders (to_ascii_lowercase (raw_value v))) 1) as [H1|H1]; simpl negb; cbv iota.
  2:{ apply yields_reject. apply err_repeated; [done|]. lia. }
  fold (undotted (raw_value v)). rewrite <- undotted_placeholders, placeholders_split in H1.
  eapply yields_try.
  { eapply yields_mono; [apply compile_segments_yields|done|]. intros e ->. apply err_empty_label. }
  intros [[ls at_] d] (new & -> & Hci & Hwf & Hn & Hz & Hlast). rewrite H1 in *.
  destruct at_ as [at_|]; [|by destruct Hlast as [(_ & _ & H)|(? & ? & ? & _ & _ & ? & _)]; [apply Hz in H|]].
  destruct (single_digits new at_ d Hn Hwf Hlast) as (bef & pre & prl & post & pol & aft & E & Hb & Ha & ->).
  simpl app. destruct (d && negb (is_multiple_of hn 4)) eqn:Ed.
  { apply yields_reject, err_dashed. apply andb_true_iff in Ed as [_ Ed].
    by apply negb_true_iff, N.eqb_neq in Ed. }
  rewrite N.min_l by (unfold ADDR_NIBBLES; lia). fold (widest hn).
  destruct (render _ (widest hn)) as [n|e] eqn:Er; [|apply yields_reject, err_too_long].
  apply yields_accept. apply render_Ok_inv in Er. split.
  - split; [done| |done]. exists bef, pre, prl, post, pol, d, aft.
    split; [done|]. do 3 (split; [done|]). intros ->. simpl in Ed.
    by apply negb_false_iff, N.eqb_eq in Ed.
  - unfold template_text. rewrite <- (split_byte_join "." (undotted (raw_value v))).
    by apply join_byte_ci.
Qed.
End Templates.

(** ** Zones *)

(** Every way a zone is rejected; the two defensive branches of the source, a
    network without a PTR zone and a template without a parent, are not among
    them. *)
Inductive zone_error (raw : RawZone) (nets : gmap (N * N) N) (pats : gmap bytes N)
    : ConfigError → Prop :=
  | zerr_network e :
      anchored (raw_network raw) e →
      (∀ p m, ¬ valid_network (raw_value (raw_network raw)) p m) →
      zone_error raw nets pats e
  | zerr_duplicate_network p m first_line :
      valid_network (raw_value (raw_network raw)) p m → nets !! (p, m) = Some first_line →
      zone_error raw nets pats (error (raw_network raw) (DuplicateNetwork first_line))
  | zerr_missing_resolves_to :
      raw_resolves_to raw = None →
      zone_error raw nets pats (error (raw_network raw) MissingResolvesTo)
  | zerr_template p m v e :
      valid_network (raw_value (raw_network raw)) p m → raw_resolves_to raw = Some v →
      template_error v ((128 - m) / 4) e →
      zone_error raw nets pats e
  | zerr_duplicate_pattern v first_line :
      raw_resolves_to raw = Some v →
      pats !! to_ascii_lowercase (raw_value v) = Some first_line →
      zone_error raw nets pats (error v (DuplicateForwardPattern first_line))
  | zerr_upstream v :
      raw_upstream raw = Some v → IpAddr_from_str (raw_value v) = None →
      zone_error raw nets pats (error v InvalidUpstreamAddress).

Section Zones.
Context {D : DnsOps} {L : DnsLaws D}.

Definition denotes_upstream (v : option RawValue) (u : option IpAddr) : Prop :=
  match v with
  | Some v => ∃ a, IpAddr_from_str (raw_value v) = Some a ∧ u = Some a
  | None => u = None
  end.

(** The zone is what the directives say. *)
Record zone_of_raw (raw : RawZone) (z : Zone) : Prop := {
  zr_line : src_line z = raw_line_no (raw_network raw);
  zr_network : valid_network (raw_value (raw_network raw)) (prefix z) (mask z);
  zr_template : ∃ v, raw_resolves_to raw = Some v ∧ resolves_to z = raw_value v ∧
    template_text (fwd z) ≡ci undotted (raw_value v);
  zr_upstream : denotes_upstream (raw_upstream raw) (upstream z);
}.

(** The keys of the duplicate maps. *)
Definition network_key (z : Zone) : N * N := (prefix z, mask z).
Definition pattern_key (z : Zone) : bytes := to_ascii_lowercase (resolves_to z).

Lemma compile_zone_yields raw nets pats :
  yields (compile_zone raw nets pats)
    (λ '(z, nets', pats'), zone_wf z ∧ zone_of_raw raw z ∧
       nets !! network_key z = None ∧ pats !! pattern_key z = None ∧
       dom nets' = {[network_key z]} ∪ dom nets ∧ dom pats' = {[pattern_key z]} ∪ dom pats)
    (zone_error raw nets pats).
Proof.
  unfold compile_zone. eapply yields_try.
  { eapply yields_mono; [apply compile_network_yields|done|]. intros e [? ?]. by apply zerr_network. }
  intros [p m] Hnet. pose proof Hnet as (ap & mp & _ & Hp & _ & Hm & H4 & Hpp).
  apply Ipv6Addr_from_str_bound in Hp.
  destruct (nets !! (p, m)) as [fl|] eqn:En; [by eapply yields_reject, zerr_duplicate_network|].
  destruct (raw_resolves_to raw) as [v|] eqn:Ev; [|by apply yields_reject, zerr_missing_resolves_to].
  eapply yields_try.
  { eapply yields_mono; [apply compile_template_yields; lia|intros t Ht; exact Ht|].
    intros e He. by eapply zerr_template. }
  intros t [Ht Htext].
  destruct (pats !! to_ascii_lowercase (raw_value v)) as [fl|] eqn:Epat.
  { by apply yields_reject, zerr_duplicate_pattern. }
  eapply (yields_try _ _ _ (denotes_upstream (raw_upstream raw))).
  { destruct (raw_upstream raw) as [w|] eqn:Eu; [|by apply yields_accept].
    destruct (IpAddr_from_str (raw_value w)) eqn:Ea; [|by apply yields_reject, zerr_upstream].
    apply yields_accept. by eexists. }
  intros u Hu.
  destruct (netmask_to_ptr_name_valid p m) as (ptr & Hptr & _); [lia|done|]. rewrite Hptr.
  destruct (parent_Ok _ _ Ht) as [par Hpar]. rewrite Hpar. apply yields_accept.
  split; [|split; [|split; [done|split; [done|split; apply dom_insert_L]]]].
  - split; simpl; try done; lia.
  - split; simpl; try done. by exists v.
Qed.
End Zones.

(** ** What a computation may push *)

(** Errors are only ever added, and all that are added satisfy [Q]. *)
Definition emits {A} (m : Check A) (Q : ConfigError → Prop) : Prop :=
  ∀ es, ∃ new, snd (m es) = es ++ new ∧ Forall Q new.

Lemma emits_ret {A} (a : A) Q : emits (check_ret a) Q.
Proof. intros es. exists []. by rewrite app_nil_r. Qed.

Lemma emits_push e (Q : ConfigError → Prop) : Q e → emits (push e) Q.
Proof. intros He es. exists [e]. split; [done|]. by constructor. Qed.

Lemma emits_bind {A B} (m : Check A) (f : A → Check B) Q :
  emits m Q → (∀ a, emits (f a) Q) → emits (check_bind m f) Q.
Proof.
  intros Hm Hf es. unfold check_bind. destruct (Hm es) as (new & E & Hn).
  destruct (m es) as [a es']. simpl in E. subst es'.
  destruct (Hf a (es ++ new)) as (new' & -> & Hn'). exists (new ++ new').
  rewrite app_assoc. split; [done|]. by apply Forall_app.
Qed.

Lemma emits_yields {A} (m : Check (option A)) P Q : yields m P Q → emits m Q.
Proof.
  intros Hm es. destruct (yields_run _ _ _ es Hm) as [(a & _ & ->)|(e & He & ->)].
  - exists []. by rewrite app_nil_r.
  - exists [e]. split; [done|]. by constructor.
Qed.

Lemma emits_fold {A S} (f : A → S → Check S) l s (Q : ConfigError → Prop) :
  (∀ a s, a ∈ l → emits (f a s) Q) → emits (check_fold f l s) Q.
Proof.
  revert s. induction l as [|a l IH]; intros s Hf; [apply emits_ret|].
  apply emits_bind; [apply Hf; left|]. intros s'. apply IH. intros. apply Hf. by right.
Qed.

Lemma emits_filter_map {A B} (f : A → Check (option B)) l (Q : ConfigError → Prop) :
  (∀ a, a ∈ l → emits (f a) Q) → emits (check_filter_map f l) Q.
Proof.
  induction l as [|a l IH]; intros Hf; [apply emits_ret|].
  apply emits_bind; [apply Hf; left|]. intros o. apply emits_bind; [|intros; apply emits_ret].
  apply IH. intros. apply Hf. by right.
Qed.

Lemma emits_bind_post {A B} (m : Check A) (f : A → Check B) (P : A → Prop) Q :
  (∀ es, P (fst (m es))) → emits m Q → (∀ a, P a → emits (f a) Q) → emits (check_bind m f) Q.
Proof.
  intros HP Hm Hf es. unfold check_bind. pose proof (HP es) as Ha.
  destruct (Hm es) as (new & E & Hn). destruct (m es) as [a es']. simpl in E, Ha. subst es'.
  destruct (Hf a Ha (es ++ new)) as (new' & -> & Hn'). exists (new ++ new').
  rewrite app_assoc. split; [done|]. by apply Forall_app.
Qed.

(** A property of the state that every step keeps. *)
Lemma fold_invariant {A S} (f : A → S → Check S) (I : S → Prop) l s es :
  (∀ a s es, a ∈ l → I s → I (fst (f a s es))) → I s → I (fst (check_fold f l s es)).
Proof.
  revert s es. induction l as [|a l IH]; intros s es Hf Hs; [done|].
  simpl. unfold check_bind. pose proof (Hf a s es (list_elem_of_here a l) Hs) as H.
  destruct (f a s es) as [s' es']. apply IH; [|done]. intros. apply Hf; [by right|done].
Qed.

#[export] Hint Resolve emits_ret emits_push emits_bind : checks.

(** ** Global settings *)

Section Globals.
Context {D : DnsOps}.

Lemma parse_u32_yields v what allowed :
  yields (parse_u32 v what allowed)
    (λ n, u32_from_str (raw_value v) = Some n)
    (λ e, e = error v (InvalidNumber what allowed) ∧ u32_from_str (raw_value v) = None).
Proof.
  unfold parse_u32. destruct (u32_from_str _) eqn:E; [by apply yields_accept|by apply yields_reject].
Qed.

Lemma parse_name_yields v what :
  yields (parse_name v what) (λ _, True) (λ e, e = error v (InvalidDnsName what)).
Proof.
  unfold parse_name. destruct (from_str_relaxed _); [by apply yields_accept|by apply yields_reject].
Qed.

Lemma compile_listen_yields v :
  yields (compile_listen v) (λ _, True) (λ e, e = error v InvalidListenAddress).
Proof.
  unfold compile_listen. destruct (SocketAddr_from_str _); [by apply yields_accept|].
  destruct (IpAddr_from_str _); [by apply yields_accept|by apply yields_reject].
Qed.

(** A numeric setting is stored exactly when the text is a number in range, and
    is otherwise left alone with one error. *)
Lemma number_setting_run v what allowed in_range set st es :
  number_setting v what allowed in_range set st es =
  match u32_from_str (raw_value v) with
  | Some n => if in_range n then (set n st, es)
              else (st, es ++ [error v (InvalidNumber what allowed)])
  | None => (st, es ++ [error v (InvalidNumber what allowed)])
  end.
Proof.
  unfold number_setting, check_bind, parse_u32.
  destruct (u32_from_str _) as [n|]; [|done]. simpl. by destruct (in_range n).
Qed.

Lemma number_setting_emits v what allowed in_range set st :
  emits (number_setting v what allowed in_range set st)
    (λ e, e = error v (InvalidNumber what allowed)).
Proof.
  intros es. rewrite number_setting_run.
  destruct (u32_from_str _) as [n|]; [destruct (in_range n)|];
    [exists []; by rewrite app_nil_r|..]; eexists; (split; [done|by constructor]).
Qed.

(** The settings are within their documented bounds. *)
Definition global_wf (st : GlobalState) : Prop :=
  g_ttl st <= 0x7FFFFFFF ∧ params_wf (g_params st).

Lemma number_setting_keeps v what allowed in_range set (I : GlobalState → Prop) st es :
  (∀ n, n <= u32_MAX → in_range n = true → I (set n st)) → I st →
  I (fst (number_setting v what allowed in_range set st es)).
Proof.
  intros Hset Hst. rewrite number_setting_run.
  destruct (u32_from_str _) as [n|] eqn:E; [|done]. apply u32_from_str_bound in E.
  destruct (in_range n) eqn:Er; [|done]. by apply Hset.
Qed.

Lemma compile_global_keeps g st es :
  global_wf st → global_wf (fst (compile_global g st es)).
Proof.
  intros [Ht Hp]. pose proof Hp as [H1 H2 H3 H4 H5 H6 H7].
  unfold compile_global. destruct (key g);
    try (apply number_setting_keeps; [|done]; intros n Hn Hr; split; [|split]; simpl in *; auto;
         rewrite ?andb_true_iff, ?negb_true_iff, ?N.leb_le, ?N.ltb_ge in Hr; auto;
         unfold from_millis; lia).
  - unfold check_bind. destruct (parse_name _ _ es) as [o es']. done.
  - unfold check_bind. destruct (parse_name _ _ es) as [o es']. done.
  - unfold check_bind. destruct (parse_name _ _ es) as [[o|] es']; done.
  - repeat case_bool_decide; [|done..]; split; try done; split; done.
  - split; [done|]. by split.
Qed.

Lemma compile_global_emits g st :
  emits (compile_global g st) (anchored (global_value g)).
Proof.
  assert (∀ what allowed r set, emits (number_setting (global_value g) what allowed r set st)
            (anchored (global_value g))) as Hnum.
  { intros what allowed r set es. destruct (number_setting_emits (global_value g) what allowed r set st es)
      as (new & -> & Hn). exists new. split; [done|]. eapply Forall_impl; [exact Hn|].
    intros e ->. apply anchored_error. }
  assert (∀ what, emits (parse_name (global_value g) what) (anchored (global_value g))) as Hname.
  { intros what. eapply emits_yields, yields_mono; [apply parse_name_yields|done|].
    intros e ->. apply anchored_error. }
  unfold compile_global. destruct (key g); auto; try (apply emits_bind; auto with checks).
  - repeat case_bool_decide; auto with checks.
  - apply emits_ret.
Qed.

(** Only the two SOA directives set the SOA names. *)
Definition soa_directive (g : RawGlobal) : bool :=
  match key g with Primary | Hostmaster => true | _ => false end.

Definition soa_source (gs : list RawGlobal) (st : GlobalState) : Prop :=
  is_Some (g_primary st) ∨ is_Some (g_hostmaster st) → ∃ g, g ∈ gs ∧ soa_directive g = true.

Lemma compile_global_soa gs g st es :
  g ∈ gs → soa_source gs st → soa_source gs (fst (compile_global g st es)).
Proof.
  intros Hg Hst. destruct (soa_directive g) eqn:E; [intros _; by exists g|].
  unfold soa_directive in E. unfold compile_global.
  destruct (key g); try done; try (by apply number_setting_keeps).
  - unfold check_bind. destruct (parse_name _ _ es) as [[o|] es']; done.
  - by repeat case_bool_decide.
Qed.

Definition globals_fold (raw : RawConfig) : Check GlobalState :=
  check_fold compile_global (raw_globals raw)
    (mkGlobalState DEFAULT_TTL ServerParams_default None None []).

Lemma globals_fold_wf raw es :
  global_wf (fst (globals_fold raw es)) ∧
  soa_source (raw_globals raw) (fst (globals_fold raw es)).
Proof.
  unfold globals_fold. split; apply fold_invariant.
  - intros g st es' _. apply compile_global_keeps.
  - split; [done|]. by repeat split.
  - intros g st es' Hg. by apply compile_global_soa.
  - by intros [[? ?]|[? ?]].
Qed.

Lemma missing_pair_anchored gs ls zs m p :
  (∃ g, g ∈ gs ∧ soa_directive g = true) →
  ∃ g, g ∈ gs ∧ anchored (global_value g) (missing_pair_error (mkRawConfig ls zs gs) m p).
Proof.
  intros (g & Hg & Hs). unfold missing_pair_error. cbn [raw_globals].
  destruct (iter_find _ gs) as [g'|] eqn:E.
  - apply iter_find_Some in E as (l1 & l2 & -> & _). exists g'. split; [set_solver|].
    apply anchored_error.
  - rewrite iter_find_None, Forall_forall in E. apply E in Hg. unfold soa_directive in Hs. simpl in Hg. congruence.
Qed.

Definition values_of (raw : RawConfig) : list RawValue := global_value <$> raw_globals raw.

Lemma compile_globals_wf raw es :
  globals_ttl (fst (compile_globals raw es)) <= 0x7FFFFFFF ∧
  params_wf (globals_params (fst (compile_globals raw es))).
Proof.
  destruct (globals_fold_wf raw es) as [[H1 H2] _]. unfold compile_globals. fold (globals_fold raw).
  unfold check_bind. destruct (globals_fold raw es) as [st es']. simpl in *.
  destruct (g_primary st), (g_hostmaster st); done.
Qed.

Lemma compile_globals_emits raw :
  emits (compile_globals raw) (λ e, ∃ v, v ∈ values_of raw ∧ anchored v e).
Proof.
  destruct raw as [ls zs gs]. set (raw := mkRawConfig ls zs gs).
  assert (∀ g, g ∈ raw_globals raw → global_value g ∈ values_of raw) as Hv
    by (intros; by apply list_elem_of_fmap_2).
  unfold compile_globals. fold (globals_fold raw).
  eapply emits_bind_post; [intros es; apply globals_fold_wf|..].
  - apply emits_fold. intros g st Hg es. destruct (compile_global_emits g st es) as (new & -> & Hn).
    exists new. split; [done|]. eapply Forall_impl; [exact Hn|]. intros e He.
    exists (global_value g). by auto.
  - intros st Hsoa. unfold soa_source in Hsoa. apply emits_bind; [|intros; apply emits_ret].
    destruct (g_primary st), (g_hostmaster st); try apply emits_ret;
      (apply emits_bind; [apply emits_push|intros; apply emits_ret]).
    + destruct (missing_pair_anchored gs ls zs (bs "hostmaster") (bs "primary")) as (g & Hg & He);
        [apply Hsoa; by left|]. exists (global_value g). by auto.
    + destruct (missing_pair_anchored gs ls zs (bs "primary") (bs "hostmaster")) as (g & Hg & He);
        [apply Hsoa; by right|]. exists (global_value g). by auto.
Qed.
End Globals.

(** ** The zone loop and the sort *)

Lemma NoDup_snoc {A} (l : list A) a : NoDup l → a ∉ l → NoDup (l ++ [a]).
Proof.
  intros Hl Ha. apply NoDup_app. split; [done|]. split; [|apply NoDup_singleton].
  by intros x Hx ->%list_elem_of_singleton.
Qed.

Section Sort.
Context {D : DnsOps}.

Lemma insert_zone_perm z l : insert_zone z l ≡ₚ z :: l.
Proof.
  induction l as [|y l IH]; simpl; [done|]. destruct (mask y <=? mask z); [done|].
  rewrite IH. constructor.
Qed.

Lemma sort_zones_perm l : sort_zones l ≡ₚ l.
Proof. induction l as [|z l IH]; simpl; [done|]. by rewrite insert_zone_perm, IH. Qed.

Lemma insert_zone_sorted z l :
  StronglySorted by_mask l → StronglySorted by_mask (insert_zone z l).
Proof.
  unfold by_mask. induction 1 as [|y l Hs IH Hy]; simpl; [by repeat constructor|].
  destruct (N.leb_spec (mask y) (mask z)) as [Hle|Hlt].
  - repeat constructor; auto. eapply Forall_impl; [exact Hy|]. simpl. lia.
  - constructor; [done|]. rewrite insert_zone_perm. constructor; [lia|done].
Qed.

Lemma sort_zones_sorted l : StronglySorted by_mask (sort_zones l).
Proof. induction l as [|z l IH]; [constructor|]. by apply insert_zone_sorted. Qed.

Definition zones_of_mask (m : N) (l : list Zone) : list Zone :=
  List.filter (λ z, mask z =? m) l.

Lemma insert_zone_stable m z l :
  zones_of_mask m (insert_zone z l) = zones_of_mask m (z :: l).
Proof.
  induction l as [|y l IH]; [done|]. simpl. destruct (N.leb_spec (mask y) (mask z)); [done|].
  unfold zones_of_mask in *. simpl in *. rewrite IH.
  destruct (N.eqb_spec (mask y) m), (N.eqb_spec (mask z) m); try done. lia.
Qed.

Lemma sort_zones_stable m l : zones_of_mask m (sort_zones l) = zones_of_mask m l.
Proof.
  induction l as [|z l IH]; [done|]. simpl. rewrite insert_zone_stable.
  unfold zones_of_mask in *. simpl. by rewrite IH.
Qed.
End Sort.

Section Loop.
Context {D : DnsOps} {L : DnsLaws D}.

(** The state of the zone loop: the zones are valid and distinct, and the maps
    hold their keys. *)
Record loop_inv (nets : gmap (N * N) N) (pats : gmap bytes N) (zs : list Zone) : Prop := {
  li_wf : Forall zone_wf zs;
  li_nets : NoDup (network_key <$> zs);
  li_pats : NoDup (pattern_key <$> zs);
  li_dom_nets : dom nets = list_to_set (network_key <$> zs);
  li_dom_pats : dom pats = list_to_set (pattern_key <$> zs);
}.

Lemma set_ttl_wf t z : t <= 0x7FFFFFFF → zone_wf z → zone_wf (set_ttl t z).
Proof. intros Ht [? ? ? ? ? ? ? ?]. by split. Qed.

Lemma loop_inv_push nets pats zs z nets' pats' ttl :
  ttl <= 0x7FFFFFFF → loop_inv nets pats zs → zone_wf z →
  nets !! network_key z = None → pats !! pattern_key z = None →
  dom nets' = {[network_key z]} ∪ dom nets → dom pats' = {[pattern_key z]} ∪ dom pats →
  loop_inv nets' pats' (zs ++ [set_ttl ttl z]).
Proof.
  intros Ht [Hwf Hn Hp Hdn Hdp] Hz Hnn Hpn En Ep.
  apply not_elem_of_dom in Hnn, Hpn. rewrite Hdn, elem_of_list_to_set in Hnn.
  rewrite Hdp, elem_of_list_to_set in Hpn.
  split; rewrite ?fmap_app; cbn [fmap list_fmap];
    change (network_key (set_ttl ttl z)) with (network_key z);
    change (pattern_key (set_ttl ttl z)) with (pattern_key z).
  - apply Forall_app. split; [done|]. constructor; [by apply set_ttl_wf|done].
  - by apply NoDup_snoc.
  - by apply NoDup_snoc.
  - rewrite En, Hdn, list_to_set_app_L. set_solver.
  - rewrite Ep, Hdp, list_to_set_app_L. set_solver.
Qed.

(** Every raw zone becomes a zone or an error, in order. *)
Lemma compile_zones_spec raw ttl nets pats zs es :
  ttl <= 0x7FFFFFFF → loop_inv nets pats zs →
  ∃ nets' pats' new errs,
    compile_zones raw ttl nets pats zs es = (zs ++ new, es ++ errs) ∧
    loop_inv nets' pats' (zs ++ new) ∧
    len new + len errs = len raw ∧
    Forall (λ e, ∃ r n p, r ∈ raw ∧ zone_error r n p e) errs ∧
    (errs = [] → Forall2 zone_of_raw raw new).
Proof.
  intros Ht. revert nets pats zs es. induction raw as [|r raw IH]; intros nets pats zs es Hinv.
  - exists nets, pats, [], []. rewrite !app_nil_r. split; [done|]. split; [done|]. by split.
  - cbn [compile_zones]. unfold check_bind.
    destruct (yields_run _ _ _ es (compile_zone_yields r nets pats))
      as [([[z n'] p'] & (Hz & Hr & Hn & Hp & En & Ep) & ->)|(e & He & ->)].
    + destruct (IH n' p' (zs ++ [set_ttl ttl z]) es) as (n2 & p2 & new & errs & -> & Hi & Hl & Hf & Hall);
        [by eapply loop_inv_push|].
      exists n2, p2, (set_ttl ttl z :: new), errs. rewrite <- app_assoc in *. split; [done|].
      split; [done|]. split; [rewrite !len_cons; lia|]. split.
      * eapply Forall_impl; [exact Hf|]. intros e (r' & n & p & ? & ?). exists r', n, p.
        split; [by right|done].
      * intros He. constructor; [|auto]. destruct Hr. by split.
    + destruct (IH nets pats zs (es ++ [e])) as (n2 & p2 & new & errs & -> & Hi & Hl & Hf & Hall); [done|].
      exists n2, p2, new, (e :: errs). rewrite <- app_assoc. split; [done|]. split; [done|].
      split; [rewrite !len_cons; lia|]. split; [|done]. constructor.
      * exists r, nets, pats. split; [left|done].
      * eapply Forall_impl; [exact Hf|]. intros e' (r' & n & p & ? & ?). exists r', n, p.
        split; [by right|done].
Qed.

Lemma loop_inv_init : loop_inv ∅ ∅ [].
Proof. split; try done; try constructor; by rewrite dom_empty_L. Qed.
End Loop.

(** ** The whole configuration *)

Lemma template_error_anchored v hn e : template_error v hn e → anchored v e.
Proof. destruct 1; auto with checks. Qed.

Lemma zone_error_anchored r n p e :
  zone_error r n p e → ∃ v, v ∈ zone_values r ∧ anchored v e.
Proof.
  unfold zone_values. destruct 1 as [e He _| | |? ? v ? ? Hr He%template_error_anchored|v ? Hr|v Hr].
  - exists (raw_network r). split; [left|done].
  - exists (raw_network r). split; [left|auto with checks].
  - exists (raw_network r). split; [left|auto with checks].
  - exists v. rewrite Hr. split; [set_solver|done].
  - exists v. rewrite Hr. split; [set_solver|auto with checks].
  - exists v. rewrite Hr. split; [set_solver|auto with checks].
Qed.

Section Whole.
Context {D : DnsOps} {L : DnsLaws D}.

(** What validation returns, whether or not it found errors. *)
Lemma compile_spec raw es :
  ∃ c errs zs (zerrs : list ConfigError),
    compile raw es = (c, es ++ errs) ∧ config_wf c ∧ zones c = sort_zones zs ∧
    len zs + len zerrs = len (raw_zones raw) ∧ (errs = [] → zerrs = []) ∧
    (zerrs = [] → Forall2 zone_of_raw (raw_zones raw) zs) ∧
    Forall (λ e, ∃ v, v ∈ raw_values raw ∧ anchored v e) errs.
Proof.
  unfold compile, check_bind.
  destruct (emits_filter_map compile_listen (raw_listen raw)
    (λ e, ∃ v, v ∈ raw_listen raw ∧ anchored v e)) with (es := es) as (e1 & E1 & F1).
  { intros v Hv. eapply emits_yields, yields_mono; [apply compile_listen_yields|done|].
    intros e ->. exists v. auto with checks. }
  destruct (check_filter_map _ _ es) as [ls es1]. simpl in E1. subst es1.
  destruct (compile_globals_emits raw (es ++ e1)) as (e2 & E2 & F2).
  destruct (compile_globals_wf raw (es ++ e1)) as [Httl Hpar].
  destruct (compile_globals raw (es ++ e1)) as [g es2]. simpl in E2, Httl, Hpar. subst es2.
  destruct (compile_zones_spec (raw_zones raw) (globals_ttl g) ∅ ∅ [] ((es ++ e1) ++ e2) Httl loop_inv_init)
    as (n & p & zs & e3 & -> & [Hwf Hn Hp _ _] & Hl & F3 & Hall).
  simpl app in *. eexists _, (e1 ++ e2 ++ e3), zs, e3. rewrite !app_assoc. split; [done|].
  split; [|split; [done|split; [done|split; [|split; [done|]]]]].
  - pose proof (sort_zones_perm zs) as Hperm. split; simpl; [..|done].
    + by rewrite Hperm.
    + apply sort_zones_sorted.
    + unfold network_key in Hn. by rewrite Hperm.
    + unfold pattern_key in Hp. by rewrite Hperm.
  - intros H. by destruct (app_eq_nil _ _ H).
  - unfold raw_values, values_of in *. rewrite !Forall_app. split; [split|].
    + eapply Forall_impl; [exact F1|]. set_solver.
    + eapply Forall_impl; [exact F2|]. set_solver.
    + eapply Forall_impl; [exact F3|]. intros e (r & n' & p' & Hr & He).
      apply zone_error_anchored in He as (v & Hv & He). exists v. split; [|done].
      do 2 (apply elem_of_app; right). apply list_elem_of_bind. by exists r.
Qed.
End Whole.

(** ** Properties *)

Section Properties.
Context {D : DnsOps} {L : DnsLaws D}.

Lemma Config_parse_Ok input c :
  Config_parse input = Ok c ↔
  snd (parse input) = [] ∧ compile (fst (parse input)) [] = (c, []).
Proof.
  unfold Config_parse. destruct (parse input) as [raw es]. simpl.
  destruct (compile_spec raw es) as (c' & errs & zs & ze & E & _). rewrite E. split.
  - destruct (es ++ errs) as [|e l] eqn:Ee; [|done]. intros [= ->].
    apply app_eq_nil in Ee as [-> ->]. by rewrite E.
  - intros [-> Hc]. rewrite Hc in E. injection E as <- <-. done.
Qed.

Lemma Config_parse_wf input c : Config_parse input = Ok c → config_wf c.
Proof.
  intros [_ H]%Config_parse_Ok.
  destruct (compile_spec (fst (parse input)) []) as (c' & errs & zs & ze & E & Hwf & _).
  rewrite H in E. by injection E as <- _.
Qed.

(** C9.  Validation establishes the invariant that the request path relies on:
    every configuration that [Config_parse] returns is well-formed.  Its zones
    are nibble-aligned proper networks without host bits, each with its PTR
    zone, one digits label that fits, a representable widest name and a legal
    TTL; no two zones share a network or a pattern; the zones are sorted by
    descending prefix length; and every server parameter is in its range. *)
Theorem Config_parse_well_formed (input : bytes) (c : Config) :
  Config_parse input = Ok c → config_wf c.
Proof. apply Config_parse_wf. Qed.

(** Validation loses nothing: in an accepted file, every [network]
    directive has become exactly one zone that carries the network, the
    template and the upstream its directives state. *)
Theorem Config_parse_keeps_every_zone (input : bytes) (c : Config) :
  Config_parse input = Ok c →
  ∃ zs, zones c = sort_zones zs ∧ zs ≡ₚ zones c ∧
        Forall2 zone_of_raw (raw_zones (fst (parse input))) zs.
Proof.
  intros [_ H]%Config_parse_Ok.
  destruct (compile_spec (fst (parse input)) []) as (c' & errs & zs & ze & E & _ & Hz & _ & Hze & Hall & _).
  rewrite H in E. injection E as <- <-. exists zs. split; [done|]. split; [|auto].
  by rewrite Hz, sort_zones_perm.
Qed.

(** Errors are anchored to the file. *)
Lemma Config_parse_located input errs :
  len input <= usize_MAX → Config_parse input = Err errs →
  errors errs ≠ [] ∧ Forall (error_located (str_lines input)) (errors errs).
Proof.
  intros Hl. pose proof (parse_spec input Hl) as [Hv He _ _]. unfold Config_parse.
  destruct (parse input) as [raw es]. simpl in Hv, He.
  destruct (compile_spec raw es) as (c' & new & zs & ze & -> & _ & _ & _ & _ & _ & Hnew).
  destruct (es ++ new) as [|e l] eqn:E; [done|]. intros [= <-]. rewrite <- E. simpl.
  split; [by rewrite E|]. apply Forall_app. split; [done|].
  eapply Forall_impl; [exact Hnew|]. intros x (v & Hin & Hline & Hsnip & Hspan).
  rewrite Forall_forall in Hv. destruct (Hv v Hin) as (Hs & H1 & H2 & _).
  split; [by rewrite Hline, Hsnip|]. destruct (Hspan H1) as (a & b & Hsp & Hab & Hb).
  exists a, b. rewrite Hsnip. split; [done|]. split; [done|]. lia.
Qed.

(** C35.  Every diagnostic can be shown: an error names an existing line of the
    file, quotes that line, and marks a span inside it, so the caret line
    never points past the text. *)
Theorem Config_parse_errors_located (input : bytes) (errs : ConfigErrors) :
  len input <= usize_MAX → Config_parse input = Err errs →
  errors errs ≠ [] ∧ Forall (error_located (str_lines input)) (errors errs).
Proof. apply Config_parse_located. Qed.

(** Every rejected zone has its error: validation of the zones reports
    exactly one error for each [network] that does not become a zone. *)
Theorem compile_zones_one_error_each (raw : list RawZone) (ttl : N) (es : list ConfigError) :
  ttl <= 0x7FFFFFFF →
  let '(zs, es') := compile_zones raw ttl ∅ ∅ [] es in
  ∃ errs, es' = es ++ errs ∧ len zs + len errs = len raw ∧
    Forall (λ e, ∃ r nets pats, r ∈ raw ∧ zone_error r nets pats e) errs.
Proof.
  intros Ht. destruct (compile_zones_spec raw ttl ∅ ∅ [] es Ht loop_inv_init)
    as (n & p & new & errs & -> & _ & Hl & Hf & _). by exists errs.
Qed.

(** A template is accepted only with exactly one digits label, which is
    where [digits_at] says and dashed only for a host part in groups of four,
    only if its widest name is a valid DNS name, and without losing text: its
    labels, joined by dots and with the placeholder put back, are the value of
    the directive (up to case and one trailing dot).  Otherwise exactly one
    error is reported, and never one of the messages for the cases the code
    deems impossible. *)
Theorem compile_template_spec (v : RawValue) (hn : N) (es : list ConfigError) :
  hn <= 32 →
  (∃ t, compile_template v hn es = (Some t, es) ∧ template_wf hn t ∧
        template_text t ≡ci undotted (raw_value v)) ∨
  (∃ e, compile_template v hn es = (None, es ++ [e]) ∧ template_error v hn e).
Proof.
  intros Hn. destruct (yields_run _ _ _ es (compile_template_yields v hn Hn)) as [(t & [? ?] & H)|(e & ? & H)];
    [left; by exists t|right; by exists e].
Qed.
End Properties.

(** Networks: exactly the documented set is accepted, an IPv6 address with
    no bit set below a prefix length that is a multiple of 4 strictly between 0
    and 128, and anything else is rejected with exactly one error on its line. *)
Theorem compile_network_exact (v : RawValue) (es : list ConfigError) :
  (∃ p m, compile_network v es = (Some (p, m), es) ∧ valid_network (raw_value v) p m) ∨
  (∃ e, compile_network v es = (None, es ++ [e]) ∧ anchored v e ∧
        ∀ p m, ¬ valid_network (raw_value v) p m).
Proof.
  destruct (yields_run _ _ _ es (compile_network_yields v)) as [([p m] & H & E)|(e & H & E)];
    [left; by exists p, m|right; by exists e].
Qed.

(** The zone list is sorted by descending prefix length, is a permutation
    of the zones, and keeps zones of one prefix length in configuration order. *)
Theorem sort_zones_stable_sort `{D : DnsOps} (zs : list Zone) :
  StronglySorted by_mask (sort_zones zs) ∧ sort_zones zs ≡ₚ zs ∧
  ∀ m, List.filter (λ z, mask z =? m) (sort_zones zs) = List.filter (λ z, mask z =? m) zs.
Proof.
  split; [apply sort_zones_sorted|]. split; [apply sort_zones_perm|].
  intros m. apply sort_zones_stable.
Qed.

(** ** Instances *)

#[local] Existing Instance LabelName.ops.
#[local] Existing Instance LabelName.laws.

Lemma sample_wf : config_wf sample_config.
Proof. apply (Config_parse_wf sample_input), sample_parses. Qed.

Lemma Config_parse_well_formed_witness :
  Config_parse sample_input = Ok sample_config ∧ config_wf sample_config.
Proof.
  split; [apply sample_parses|]. apply (Config_parse_well_formed sample_input), sample_parses.
Defined.

Lemma Config_parse_keeps_every_zone_witness :
  length (zones sample_config) = 2%nat ∧
  ∃ zs, zones sample_config = sort_zones zs ∧ zs ≡ₚ zones sample_config ∧
        Forall2 zone_of_raw (raw_zones (fst (parse sample_input))) zs.
Proof.
  split; [vm_refl|].
  apply (Config_parse_keeps_every_zone sample_input sample_config), sample_parses.
Defined.

(** A file with three mistakes. *)
Definition broken_input : bytes := bs "ttl 99999999999
network 2001:db8::1/64
  resolves to %DIGITS%.example.net
netwrok 2001:db8::/64
".

Definition broken_errors : ConfigErrors :=
  match Config_parse broken_input with Ok _ => ConfigErrors_new [] | Err e => e end.

Lemma Config_parse_errors_located_witness :
  Config_parse broken_input = Err broken_errors ∧ length (errors broken_errors) = 3%nat ∧
  errors broken_errors ≠ [] ∧ Forall (error_located (str_lines broken_input)) (errors broken_errors).
Proof.
  assert (Config_parse broken_input = Err broken_errors) as H by vm_refl.
  split; [exact H|]. split; [vm_refl|].
  apply (Config_parse_errors_located broken_input broken_errors); [by vm_compute|exact H].
Defined.

Lemma compile_zones_one_error_each_witness :
  let raw := raw_zones (fst (parse broken_input)) in
  let '(zs, es) := compile_zones raw 300 ∅ ∅ [] [] in
  ∃ errs, es = [] ++ errs ∧ len zs + len errs = len raw ∧
    Forall (λ e, ∃ r nets pats, r ∈ raw ∧ zone_error r nets pats e) errs.
Proof. apply (compile_zones_one_error_each (raw_zones (fst (parse broken_input))) 300 []). lia. Defined.

Definition sample_value (text : bytes) : RawValue := mkRawValue 1 text (0, len text) text.

Lemma compile_template_spec_witness :
  let v := sample_value (bs "a-%DIGITS%.Example.net.") in
  (∃ t, compile_template v 16 [] = (Some t, []) ∧ template_wf 16 t ∧
        template_text t ≡ci undotted (raw_value v)) ∨
  (∃ e, compile_template v 16 [] = (None, [] ++ [e]) ∧ template_error v 16 e).
Proof. apply (compile_template_spec (sample_value (bs "a-%DIGITS%.Example.net.")) 16 []). lia. Defined.
