(* ===== verification/Accept.v ===== *)
(** * Which configuration files are accepted, and what they mean

    [file_means] says, of the items of a file and without the order of the checks,
    the maps of seen keys or the error vector, which configurations a file
    denotes: what each setting must look like and what the last one of a kind
    sets, which networks and templates there are, and that no two zones collide.
    The theorem is that [Config_parse] computes exactly this relation. *)

From S2P Require Import Prelude RustText RustNet ConfigError Dns Nibble Config ConfigSpec Parse ParseSpec Grammar Compile Sample CompileSpec.

(** ** Computations that either accept quietly or complain *)

(** The computation returns the one value with [P] and pushes nothing, or there is
    no such value and it pushes at least one error. *)
Definition decides {A} (m : Check A) (P : A → Prop) : Prop :=
  (∃ a, P a ∧ ∀ es, m es = (a, es)) ∨
  (∀ a, ¬ P a) ∧ ∀ es, ∃ e new, snd (m es) = es ++ e :: new.

Definition append_only {A} (m : Check A) : Prop := emits m (λ _, True).

Lemma emits_append {A} (m : Check A) Q : emits m Q → append_only m.
Proof. intros H es. destruct (H es) as (new & E & _). exists new. split; [done|]. by apply Forall_true. Qed.

Lemma append_more (l new : list ConfigError) e : l ++ e :: new ≠ l.
Proof. intros H. rewrite <- (app_nil_r l) in H at 2. by apply app_inv_head in H. Qed.

Lemma decides_exact {A} (m : Check A) (P : A → Prop) a :
  decides m P → (∀ x y, P x → P y → x = y) → m [] = (a, []) ↔ P a.
Proof.
  intros [(b & Hb & Hm)|[Hn Hm]] Hf.
  - rewrite Hm. split; [by intros [= ->]|]. intros Ha. by rewrite (Hf a b).
  - split; [|by intros Ha%Hn]. intros E. destruct (Hm []) as (e & new & H). by rewrite E in H.
Qed.

Lemma decides_iff {A} (m : Check A) (P P' : A → Prop) : (∀ a, P a ↔ P' a) → decides m P → decides m P'.
Proof. intros Hi [(a & Ha & Hm)|[Hn Hm]]; [left; exists a; naive_solver|right; naive_solver]. Qed.

Lemma decides_ret {A} (a : A) : decides (check_ret a) (λ b, b = a).
Proof. left. by exists a. Qed.

Lemma decides_append {A} (m : Check A) P : decides m P → append_only m.
Proof.
  intros [(a & _ & Hm)|[_ Hm]] es.
  - exists []. rewrite Hm, app_nil_r. by split.
  - destruct (Hm es) as (e & new & ->). exists (e :: new). split; [done|]. by apply Forall_true.
Qed.

Lemma decides_bind {A B} (m : Check A) (f : A → Check B) (P : A → Prop) (P' : A → B → Prop) :
  decides m P → (∀ x y, P x → P y → x = y) →
  (∀ a, P a → decides (f a) (P' a)) → (∀ a, append_only (f a)) →
  decides (check_bind m f) (λ b, ∃ a, P a ∧ P' a b).
Proof.
  intros [(a & Ha & Hm)|[Hn Hm]] Huniq Hf Happ; unfold check_bind.
  - destruct (Hf a Ha) as [(b & Hb & Hr)|[Hn Hr]].
    + left. exists b. split; [by exists a|]. intros es. by rewrite Hm.
    + right. split; [|intros es; rewrite Hm; apply Hr]. intros b (a' & Ha' & Hb).
      rewrite (Huniq a' a) in Hb by done. by apply Hn in Hb.
  - right. split; [naive_solver|]. intros es. destruct (Hm es) as (e & new & E).
    destruct (m es) as [a es']. simpl in E. subst es'. destruct (Happ a (es ++ e :: new)) as (new' & -> & _).
    exists e, (new ++ new'). by rewrite <- app_assoc.
Qed.

(** An optional value or one error. *)
Lemma decides_yields {A} (m : Check (option A)) (P : A → Prop) :
  yields m P (λ _, ∀ a, ¬ P a) → decides m (λ o, ∃ a, o = Some a ∧ P a).
Proof.
  intros [(a & Ha & Hm)|(e & Hn & Hm)].
  - left. exists (Some a). split; [by exists a|done].
  - right. split; [intros o (a & _ & Ha); by apply Hn in Ha|]. intros es. exists e, []. by rewrite Hm.
Qed.

Lemma decides_filter_map {A B} (f : A → Check (option B)) (P : A → B → Prop) l :
  (∀ a, decides (f a) (λ o, ∃ b, o = Some b ∧ P a b)) → (∀ a x y, P a x → P a y → x = y) →
  decides (check_filter_map f l) (Forall2 P l).
Proof.
  intros Hf Hu. induction l as [|a l IH].
  { eapply decides_iff; [|apply decides_ret]. intros b. split; [by intros ->|by inversion 1]. }
  cbn [check_filter_map]. eapply decides_iff; [|eapply decides_bind; [apply Hf| |intros o Ho; eapply decides_bind; [exact IH| |intros; apply decides_ret|]|]].
  - intros bs. split.
    + intros (o & (b & -> & Hb) & rest & Hr & ->). by constructor.
    + inversion 1; subst. eexists. split; [by eexists|]. by eexists.
  - intros x y (b & -> & Hb) (b' & -> & Hb'). f_equal. by eapply Hu.
  - by apply Forall2_unique.
  - intros rest. by eapply decides_append, decides_ret.
  - intros o. eapply emits_bind; [by eapply decides_append|]. intros. by eapply decides_append, decides_ret.
Qed.

(** ** Settings *)

Section Settings.
Context {D : DnsOps}.

Definition name_of (v : bytes) : option DName := set_fqdn true <$> result_ok (from_str_relaxed v).

(** The values of a setting, and the one that counts: the last. *)
Definition values_for (k : GlobalKey) (gs : list (GlobalKey * bytes)) : list bytes :=
  snd <$> List.filter (λ g, bool_decide (fst g = k)) gs.

Definition setting {A} (k : GlobalKey) (read : bytes → option A) (unset : A)
    (gs : list (GlobalKey * bytes)) : A :=
  default unset (last (values_for k gs) ≫= read).

Definition number_in (lo hi : N) (v : bytes) : Prop := ∃ n, u32_from_str v = Some n ∧ lo <= n <= hi.

(** What the value of each setting must look like. *)
Definition setting_valid (g : GlobalKey * bytes) : Prop :=
  let '(k, v) := g in
  match k with
  | Primary | Hostmaster | Ns => is_Some (name_of v)
  | Ttl => number_in 0 0x7FFFFFFF v
  | OutOfZone => v = bs "refused" ∨ v = bs "nxdomain"
  | MaxUdpPayload => number_in 512 65535 v
  | UpstreamTimeout => number_in 1 10000 v
  | RrlOff => True
  | RrlRps | RrlBurst => number_in 1 u32_MAX v
  | RrlSlip => number_in 0 u32_MAX v
  end.

(** What the settings of a file say. *)
Definition ttl_of (gs : list (GlobalKey * bytes)) : N := setting Ttl u32_from_str 3600 gs.

Definition soa_name (k : GlobalKey) (gs : list (GlobalKey * bytes)) : option DName :=
  setting k (λ v, Some <$> name_of v) None gs.

Definition soa_of (gs : list (GlobalKey * bytes)) : option SoaParams :=
  p ← soa_name Primary gs; h ← soa_name Hostmaster gs;
  Some (mkSoaParams p h 1 604800 86400 2419200 60).

Definition nameservers_of (gs : list (GlobalKey * bytes)) : list DName := omap name_of (values_for Ns gs).

Definition policy_of (v : bytes) : option OutOfZonePolicy :=
  Some (if bool_decide (v = bs "refused") then Refused else NxDomain).

Definition params_of (gs : list (GlobalKey * bytes)) : ServerParams :=
  mkServerParams (setting OutOfZone policy_of Refused gs)
    (setting MaxUdpPayload u32_from_str 1232 gs)
    (from_millis (setting UpstreamTimeout u32_from_str 300 gs))
    (mkRrlParams (setting RrlOff (λ _, Some false) true gs) (setting RrlRps u32_from_str 20 gs)
       (setting RrlBurst u32_from_str 50 gs) (setting RrlSlip u32_from_str 2 gs) 24 64).

(** Either both names of the SOA are given, or none is. *)
Definition soa_paired (gs : list (GlobalKey * bytes)) : Prop :=
  values_for Primary gs = [] ↔ values_for Hostmaster gs = [].

Definition entry (g : RawGlobal) : GlobalKey * bytes := (key g, raw_value (global_value g)).

(** The state of the settings loop after the settings of a list. *)
Definition settled (gs : list (GlobalKey * bytes)) : GlobalState :=
  mkGlobalState (ttl_of gs) (params_of gs) (soa_name Primary gs) (soa_name Hostmaster gs) (nameservers_of gs).

Lemma values_for_snoc k gs g :
  values_for k (gs ++ [g]) = values_for k gs ++ (if bool_decide (fst g = k) then [snd g] else []).
Proof.
  unfold values_for. rewrite List.filter_app, fmap_app. simpl. by case_bool_decide.
Qed.

Lemma setting_snoc {A} k (read : bytes → option A) unset gs k' v :
  setting k read unset (gs ++ [(k', v)]) =
  if bool_decide (k' = k) then default unset (read v) else setting k read unset gs.
Proof.
  unfold setting. rewrite values_for_snoc. simpl. case_bool_decide; [by rewrite last_snoc|by rewrite app_nil_r].
Qed.

Lemma settled_nil : settled [] = mkGlobalState DEFAULT_TTL ServerParams_default None None [].
Proof. done. Qed.

(** Compute what one more setting changes. *)
Ltac settle :=
  unfold settled, ttl_of, params_of, soa_name, nameservers_of;
  rewrite !setting_snoc, ?values_for_snoc;
  repeat first [rewrite bool_decide_eq_true_2 by done|rewrite bool_decide_eq_false_2 by done];
  cbn [default fst snd g_ttl g_params g_primary g_hostmaster g_nameservers];
  rewrite ?app_nil_r, ?omap_app.

(** A directive with a name. *)
Lemma name_decides v what (set : option DName → GlobalState) st :
  (∀ n, name_of (raw_value v) = Some n → set (Some n) = st) →
  decides (let! o := parse_name v what in check_ret (set o)) (λ st', is_Some (name_of (raw_value v)) ∧ st' = st).
Proof.
  intros Hset. unfold check_bind, parse_name, name_of in *. destruct (from_str_relaxed (raw_value v)) as [n|e].
  - left. exists (set (Some (set_fqdn true n))). split; [|done]. split; [by eexists|]. by apply Hset.
  - right. split; [by intros a [[? ?] _]|]. intros es. by exists (error v (InvalidDnsName what)), [].
Qed.

(** A directive with a number. *)
Lemma number_decides v what allowed lo hi in_range set st st' :
  (∀ n, n <= u32_MAX → in_range n = true ↔ lo <= n <= hi) →
  (∀ n, u32_from_str (raw_value v) = Some n → set n st = st') →
  decides (number_setting v what allowed in_range set st) (λ x, number_in lo hi (raw_value v) ∧ x = st').
Proof.
  intros Hr Hset. unfold decides, number_in. setoid_rewrite number_setting_run.
  destruct (u32_from_str (raw_value v)) as [n|] eqn:En.
  - specialize (Hr n (u32_from_str_bound _ _ En)). destruct (in_range n).
    + left. exists (set n st). split; [|done]. split; [exists n; split; [done|by apply Hr]|by apply Hset].
    + right. split; [|intros es; by eexists _, []]. intros a [(m & [= <-] & Hm) _]. by apply Hr in Hm.
  - right. split; [by intros a [(m & ? & _) _]|]. intros es. by eexists _, [].
Qed.

(** One directive: it sets its field, or is invalid. *)
Lemma compile_global_decides g gs :
  decides (compile_global g (settled gs)) (λ st, setting_valid (entry g) ∧ st = settled (gs ++ [entry g])).
Proof.
  destruct g as [k v]. unfold entry, compile_global. cbn [key global_value].
  destruct k; cbn [setting_valid];
    try (apply number_decides;
      [intros n Hn; rewrite ?andb_true_iff, ?negb_true_iff, ?N.leb_le, ?N.ltb_ge;
       try change u16_MAX with 65535; lia
      |intros n Hn; settle; by rewrite Hn]).
  - apply (name_decides v (bs "primary") (λ o, mkGlobalState _ _ o _ _)). intros n Hn. settle. by rewrite Hn.
  - apply (name_decides v (bs "hostmaster") (λ o, mkGlobalState _ _ _ o _)). intros n Hn. settle. by rewrite Hn.
  - apply (name_decides v (bs "ns") (λ o, match o with Some name => _ | None => _ end)).
    intros n Hn. settle. cbn [fmap list_fmap]. simpl. by rewrite Hn.
  - unfold decides. destruct (bool_decide (raw_value v = bs "refused")) eqn:E1.
    + apply bool_decide_eq_true in E1. left. eexists. split; [|done]. split; [by left|]. settle. by rewrite E1.
    + apply bool_decide_eq_false in E1. destruct (bool_decide (raw_value v = bs "nxdomain")) eqn:E2.
      * apply bool_decide_eq_true in E2. left. eexists. split; [|done]. split; [by right|]. settle. by rewrite E2.
      * apply bool_decide_eq_false in E2. right. split; [by intros ? [[?|?] _]|]. intros es. by eexists _, [].
  - left. eexists. split; [|done]. split; [done|]. by settle.
Qed.

Lemma settings_decides raws gs :
  decides (check_fold compile_global raws (settled gs))
    (λ st, Forall setting_valid (entry <$> raws) ∧ st = settled (gs ++ (entry <$> raws))).
Proof.
  revert gs. induction raws as [|g raws IH]; intros gs.
  - eapply decides_iff; [|apply decides_ret]. intros st. simpl. rewrite app_nil_r. naive_solver.
  - cbn [check_fold]. eapply decides_iff; [|eapply (decides_bind _ _ _ (λ _ st, Forall setting_valid (entry <$> raws) ∧
      st = settled ((gs ++ [entry g]) ++ (entry <$> raws)))); [apply compile_global_decides| |intros st [_ ->]; apply IH|]].
    + intros st. rewrite fmap_cons, Forall_cons, <- app_assoc. simpl. naive_solver.
    + naive_solver.
    + intros st. apply (emits_append _ (λ _, True)), emits_fold. intros a s _. eapply emits_append, compile_global_emits.
Qed.

Lemma last_setting_valid k gs v :
  Forall setting_valid gs → last (values_for k gs) = Some v → setting_valid (k, v).
Proof.
  intros Hv [l El]%last_Some. assert (v ∈ values_for k gs) as Hin by (rewrite El; set_solver).
  unfold values_for in Hin. apply list_elem_of_fmap in Hin as ([k' v'] & -> & Hin).
  apply list_elem_of_In, filter_In in Hin as [Hin Hk%bool_decide_eq_true].
  apply list_elem_of_In in Hin. rewrite Forall_forall in Hv. specialize (Hv _ Hin). simpl in Hk. by subst k'.
Qed.

(** A valid setting has a value exactly when the file has one. *)
Lemma soa_name_given k gs :
  k = Primary ∨ k = Hostmaster → Forall setting_valid gs →
  soa_name k gs = None ↔ values_for k gs = [].
Proof.
  intros Hk Hv. unfold soa_name, setting. destruct (last (values_for k gs)) as [v|] eqn:El.
  - apply last_setting_valid in El as Hok; [|done].
    assert (is_Some (name_of v)) as [n Hn] by (by destruct Hk as [-> | ->]).
    simpl. rewrite Hn. split; [done|]. intros E. by rewrite E in El.
  - apply last_None in El. by rewrite El.
Qed.

Lemma ttl_of_bound gs : Forall setting_valid gs → ttl_of gs <= 0x7FFFFFFF.
Proof.
  intros Hv. unfold ttl_of, setting. destruct (last (values_for Ttl gs)) as [v|] eqn:El; [|done].
  apply last_setting_valid in El as (n & Hn & _ & Hle); [|done]. simpl. by rewrite Hn.
Qed.

Definition globals_of (gs : list (GlobalKey * bytes)) : Globals :=
  mkGlobals (ttl_of gs) (soa_of gs) (nameservers_of gs) (params_of gs).

Lemma compile_globals_decides raw :
  let gs := entry <$> raw_globals raw in
  decides (compile_globals raw) (λ g, (Forall setting_valid gs ∧ soa_paired gs) ∧ g = globals_of gs).
Proof.
  intros gs. unfold compile_globals. rewrite <- settled_nil.
  eapply decides_iff; [|eapply (decides_bind _ _ _ (λ _ g, soa_paired gs ∧ g = globals_of gs));
    [apply settings_decides|naive_solver| |]].
  - intros g. simpl app. naive_solver.
  - intros st [Hv ->]. simpl app. fold gs in Hv |- *. cbn [settled g_primary g_hostmaster g_ttl g_nameservers g_params].
    pose proof (soa_name_given Primary gs (or_introl eq_refl) Hv) as Hp.
    pose proof (soa_name_given Hostmaster gs (or_intror eq_refl) Hv) as Hh.
    assert (soa_paired gs ↔ (soa_name Primary gs = None ↔ soa_name Hostmaster gs = None)) as Hpair
      by (unfold soa_paired; tauto).
    apply (decides_iff _ (λ g, (soa_name Primary gs = None ↔ soa_name Hostmaster gs = None) ∧ g = globals_of gs));
      [intros g; tauto|]. unfold decides, globals_of, soa_of.
    destruct (soa_name Primary gs) as [p|], (soa_name Hostmaster gs) as [h|].
    + left. by eexists.
    + right. split; [naive_solver|]. intros es. by eexists _, [].
    + right. split; [naive_solver|]. intros es. by eexists _, [].
    + left. by eexists.
  - intros st. apply (emits_append _ (λ _, True)), emits_bind; [|intros; apply emits_ret].
    destruct (g_primary st), (g_hostmaster st); try apply emits_ret;
      (apply emits_bind; [by apply emits_push|intros; apply emits_ret]).
Qed.

Lemma listen_decides v :
  decides (compile_listen v) (λ o, ∃ a, o = Some a ∧
    match SocketAddr_from_str (raw_value v) with
    | Some sock => a = mkListenAddr (ip sock) (port sock)
    | None => ∃ b, IpAddr_from_str (raw_value v) = Some b ∧ a = mkListenAddr b DEFAULT_PORT
    end).
Proof.
  apply decides_yields. unfold compile_listen.
  destruct (SocketAddr_from_str _) as [sock|]; [by apply yields_accept|].
  destruct (IpAddr_from_str _) as [b|]; [apply yields_accept; by exists b|].
  apply yields_reject. by intros a (b & ? & _).
Qed.
End Settings.

(** ** Templates *)

Definition placeholder (dashed : bool) : bytes := if dashed then PLACEHOLDER_DASHED else PLACEHOLDER.

(** A segment between dots and its label: verbatim, or cut at the first
    placeholder, in any letter case. *)
Inductive label_reads (seg : bytes) : FwdLabel → Prop :=
  | reads_literal :
      placeholders (to_ascii_lowercase seg) = 0 → label_reads seg (Literal seg (to_ascii_lowercase seg))
  | reads_digits pre mid post dashed :
      seg = pre ++ mid ++ post → mid ≡ci placeholder dashed →
      (∀ pre' mid' post', seg = pre' ++ mid' ++ post' → mid' ≡ci placeholder dashed → len pre <= len pre') →
      label_reads seg (Digits pre (to_ascii_lowercase pre) post (to_ascii_lowercase post) dashed).

(** The text has one placeholder, and the labels are those of its segments. *)
Definition template_reads (text : bytes) (t : FwdTemplate) : Prop :=
  placeholders (to_ascii_lowercase text) = 1 ∧
  Forall2 label_reads (split_byte "." (undotted text)) (fwd_labels t).

Lemma str_find_occurs s a p t : s = a ++ p ++ t → ∃ i, str_find s p = Some i ∧ i <= len a.
Proof.
  revert s. induction a as [|x a IH]; intros s ->.
  - exists 0. split; [|lia]. assert (starts_with (p ++ t) p = true) as H by (apply starts_with_true; by exists t).
    cbn [app]. destruct (p ++ t); cbn [str_find]; by rewrite H.
  - cbn [app str_find]. destruct (starts_with (x :: a ++ p ++ t) p); [exists 0; split; [done|lia]|].
    destruct (IH _ eq_refl) as (i & -> & Hi). exists (1 + i). split; [done|]. rewrite len_cons. lia.
Qed.

Lemma lower_occurs seg pre mid post ph :
  seg = pre ++ mid ++ post → mid ≡ci ph → to_ascii_lowercase ph = ph →
  ∃ i, str_find (to_ascii_lowercase seg) ph = Some i ∧ i <= len pre.
Proof.
  intros -> Hm Hp. replace (len pre) with (len (to_ascii_lowercase pre)) by (unfold len; by rewrite length_to_ascii_lowercase).
  apply (str_find_occurs _ _ _ (to_ascii_lowercase post)). rewrite !to_ascii_lowercase_app.
  unfold ci_eq in Hm. by rewrite Hm, Hp.
Qed.

Lemma placeholder_lower d : to_ascii_lowercase (placeholder d) = placeholder d ∧ placeholder d ≠ [].
Proof. by destruct d. Qed.

Lemma digits_counted seg pre mid post d :
  seg = pre ++ mid ++ post → mid ≡ci placeholder d → 1 <= match_count (to_ascii_lowercase seg) (placeholder d).
Proof.
  intros Hs Hm. destruct (placeholder_lower d) as [Hl Hn].
  destruct (lower_occurs _ _ _ _ _ Hs Hm Hl) as (i & Hi & _). by eapply str_find_count.
Qed.

Lemma label_reads_unique seg l l' :
  placeholders (to_ascii_lowercase seg) <= 1 → label_reads seg l → label_reads seg l' → l = l'.
Proof.
  unfold placeholders. intros Hc Hl Hl'.
  assert (∀ pre mid post d, seg = pre ++ mid ++ post → mid ≡ci placeholder d → placeholders (to_ascii_lowercase seg) ≠ 0) as Hone.
  { intros pre mid post d Hs Hm. pose proof (digits_counted _ _ _ _ _ Hs Hm). unfold placeholders. destruct d; simpl in *; lia. }
  destruct Hl as [H0|pre mid post d Hs Hm Hf], Hl' as [H0'|pre' mid' post' d' Hs' Hm' Hf'];
    [done|by destruct (Hone _ _ _ _ Hs' Hm')|by destruct (Hone _ _ _ _ Hs Hm)|].
  pose proof (digits_counted _ _ _ _ _ Hs Hm) as H1. pose proof (digits_counted _ _ _ _ _ Hs' Hm') as H2.
  assert (d = d') as <- by (destruct d, d'; simpl in *; try done; lia).
  pose proof (Hf _ _ _ Hs' Hm'). pose proof (Hf' _ _ _ Hs Hm). unfold len in *.
  rewrite Hs in Hs'. apply app_inj_1 in Hs' as [<- E]; [|lia].
  apply app_inj_1 in E as [_ <-]; [done|]. apply ci_eq_length in Hm, Hm'. congruence.
Qed.

Lemma compile_segment_reads seg l o : compile_segment seg = Some (l, o) → label_reads seg l.
Proof.
  assert (∀ d i, str_find (to_ascii_lowercase seg) (placeholder d) = Some i →
    ∀ pre rest mid post, split_at_checked seg i = Some (pre, rest) →
    split_at_checked rest (len (placeholder d)) = Some (mid, post) →
    label_reads seg (Digits pre (to_ascii_lowercase pre) post (to_ascii_lowercase post) d)) as Hd.
  { intros d i Hf pre rest mid post Hs Hr. destruct (placeholder_lower d) as [Hl _].
    destruct (split_placeholder seg (placeholder d) i Hl Hf) as (pre' & rest' & mid' & post' & Hs' & Hr' & Hc).
    rewrite Hs in Hs'. injection Hs' as <- <-. rewrite Hr in Hr'. injection Hr' as <- <-.
    apply split_at_checked_Some in Hs as [-> Hlen], Hr as [-> Hlen'].
    apply (reads_digits _ pre mid post d); [done| |].
    - apply ci_eq_app_inv in Hc as [_ Hc]; [|done]. apply ci_eq_app_inv in Hc as [Hc _]; [done|]. unfold len in *. lia.
    - intros p m q E Hm. destruct (lower_occurs _ _ _ _ _ E Hm Hl) as (j & Hj & Hle). rewrite Hf in Hj.
      injection Hj as <-. lia. }
  unfold compile_segment. destruct (str_find _ PLACEHOLDER_DASHED) as [i|] eqn:Ed.
  - specialize (Hd true i Ed). destruct (split_at_checked seg i) as [[pre rest]|]; [|done]. cbn [mbind option_bind].
    destruct (split_at_checked rest _) as [[mid post]|] eqn:Er; [|done]. intros [= <- <-]. by eapply Hd.
  - destruct (str_find _ PLACEHOLDER) as [i|] eqn:Ep.
    + specialize (Hd false i Ep). destruct (split_at_checked seg i) as [[pre rest]|]; [|done]. cbn [mbind option_bind].
      destruct (split_at_checked rest _) as [[mid post]|] eqn:Er; [|done]. intros [= <- <-]. by eapply Hd.
    + intros [= <- <-]. apply reads_literal. unfold placeholders. by rewrite !str_find_None.
Qed.

Lemma compile_segments_reads v segs idx ls at0 d0 :
  yields (compile_segments v idx segs ls at0 d0)
    (λ '(ls', _, _), ∃ new, ls' = ls ++ new ∧ Forall2 label_reads segs new) (λ _, [] ∈ segs).
Proof.
  revert idx ls at0 d0. induction segs as [|seg segs IH]; intros idx ls at0 d0.
  - apply yields_accept. exists []. by rewrite app_nil_r.
  - cbn [compile_segments]. destruct seg as [|b seg]; [apply yields_reject; left|].
    destruct (compile_segment_spec (b :: seg)) as (l & o & E & _). rewrite E.
    apply compile_segment_reads in E.
    destruct o as [d|]; (eapply yields_mono; [apply IH| |by right]);
      intros [[ls' at_] d'] (new & -> & Hn); exists (l :: new); rewrite <- app_assoc; (split; [done|by constructor]).
Qed.

Lemma yields_and {A} (m : Check (option A)) P P' Q Q' :
  yields m P Q → yields m P' Q' → yields m (λ a, P a ∧ P' a) (λ e, Q e ∧ Q' e).
Proof.
  intros [(a & Ha & Hm)|(e & He & Hm)] [(a' & Ha' & Hm')|(e' & He' & Hm')];
    pose proof (Hm []) as E; rewrite Hm' in E; [left|done..|right]; injection E as ->; eexists; by split.
Qed.

(** Each segment has at most the one placeholder. *)
Lemma sum_counts_each f segs : sum_counts f segs <= 1 → Forall (λ s, f s <= 1) segs.
Proof.
  unfold sum_counts. induction segs as [|s segs IH]; [done|]. cbn [foldr]. intros H.
  constructor; [lia|]. apply IH. lia.
Qed.

Lemma labels_unique segs ls ls' :
  sum_counts (λ s, placeholders (to_ascii_lowercase s)) segs <= 1 →
  Forall2 label_reads segs ls → Forall2 label_reads segs ls' → ls = ls'.
Proof.
  intros Hc%sum_counts_each H. revert ls'. induction H as [|seg l segs ls Hl Hr IH]; intros ls' Hs;
    inversion Hs; subst; [done|]. apply Forall_cons in Hc as [Hc1 Hc2].
  f_equal; [by eapply label_reads_unique|by apply IH].
Qed.

(** An empty segment is not the text of a label that can be rendered. *)
Lemma empty_segment_unread hn t segs :
  template_wf hn t → Forall2 label_reads segs (fwd_labels t) → [] ∉ segs.
Proof.
  intros Ht H Hin. pose proof (twf_widest _ _ Ht) as Hv. unfold valid_labels in Hv.
  apply andb_true_iff in Hv as [Hv _]. rewrite forallb_forall in Hv.
  apply list_elem_of_lookup in Hin as [i Hi]. destruct (Forall2_lookup_l _ _ _ _ _ H Hi) as (l & Hl & Hr).
  inversion Hr as [|pre mid post d E Hm Hf]; subst.
  - assert (valid_label [] = true) as Hbad; [|done]. apply Hv. apply list_elem_of_In, list_elem_of_fmap.
    eexists. split; [|by apply (list_elem_of_lookup_2 _ i)]. done.
  - symmetry in E. apply app_eq_nil in E as [_ [-> _]%app_eq_nil]. apply ci_eq_length in Hm. by destruct d.
Qed.

Section Templates.
Context {D : DnsOps} {L : DnsLaws D}.

Definition template_means (hn : N) (text : bytes) (t : FwdTemplate) : Prop :=
  template_wf hn t ∧ template_reads text t.

Lemma template_sum text :
  placeholders (to_ascii_lowercase text) = 1 →
  sum_counts (λ s, placeholders (to_ascii_lowercase s)) (split_byte "." (undotted text)) = 1.
Proof. intros H. by rewrite <- placeholders_split, undotted_placeholders. Qed.

(** The one digits label, in two decompositions of a list. *)
Lemma digits_label_unique b b' a a' pre prl post pol d pre' prl' post' pol' d' :
  b ++ Digits pre prl post pol d :: a = b' ++ Digits pre' prl' post' pol' d' :: a' →
  Forall (λ l, is_literal l = true) b → Forall (λ l, is_literal l = true) b' → len b = len b' ∧ d = d'.
Proof.
  intros E Hb. revert b' E. induction Hb as [|l b Hl _ IH]; intros [|l' b'] E Hb'; simplify_eq/=.
  - by split.
  - by apply Forall_cons in Hb' as [? _].
  - apply Forall_cons in Hb' as [_ Hb']. destruct (IH b') as [H1 H2]; [done..|]. rewrite !len_cons. by split; [f_equal|].
Qed.

Lemma template_means_unique hn text t t' : template_means hn text t → template_means hn text t' → t = t'.
Proof.
  intros [Hw [Hc Hr]] [Hw' [_ Hr']]. pose proof (template_sum _ Hc) as Hs.
  assert (fwd_labels t = fwd_labels t') as E by (eapply labels_unique; [|done..]; by rewrite Hs).
  destruct (twf_digits _ _ Hw) as (b & pre & prl & post & pol & d & a & E1 & Hb & _ & Hat & _).
  destruct (twf_digits _ _ Hw') as (b' & pre' & prl' & post' & pol' & d' & a' & E2 & Hb' & _ & Hat' & _).
  destruct t as [ls at_], t' as [ls' at']. simpl in *. subst ls'. f_equal. rewrite Hat, Hat'.
  rewrite E1 in E2. by apply digits_label_unique in E2 as [? _].
Qed.

Lemma compile_template_exactly v hn :
  hn <= 32 → yields (compile_template v hn) (template_means hn (raw_value v)) (λ _, ∀ t, ¬ template_means hn (raw_value v) t).
Proof.
  intros Hhn. unfold compile_template. fold (placeholders (to_ascii_lowercase (raw_value v))).
  destruct (N.eqb_spec (placeholders (to_ascii_lowercase (raw_value v))) 0) as [H0|H0].
  { apply yields_reject. intros t [_ [H _]]. lia. }
  destruct (N.eqb_spec (placeholders (to_ascii_lowercase (raw_value v))) 1) as [H1|H1]; simpl negb; cbv iota.
  2:{ apply yields_reject. by intros t [_ [H _]]. }
  fold (undotted (raw_value v)). pose proof (template_sum _ H1) as Hsum.
  eapply yields_try.
  { eapply yields_mono; [apply yields_and; [apply compile_segments_yields|apply compile_segments_reads]| |].
    - intros r Hr. exact Hr.
    - intros e [_ Hin] t [Hw [_ Hr]]. by apply (empty_segment_unread hn t _ Hw Hr). }
  intros [[ls at_] d] [(new & -> & Hci & Hwf & Hn & Hz & Hlast) (new' & E0 & Hreads)].
  simpl app in *. subst new'.
  rewrite Hsum in *. assert (∀ t, template_means hn (raw_value v) t → fwd_labels t = new) as Huniq.
  { intros t [_ [_ Hr]]. eapply labels_unique; [|done..]. by rewrite Hsum. }
  destruct at_ as [at_|]; [|by destruct Hlast as [(_ & _ & H)|(? & ? & ? & _ & _ & ? & _)]; [apply Hz in H|]].
  destruct (single_digits new at_ d Hn Hwf Hlast) as (bef & pre & prl & post & pol & aft & E & Hb & Ha & ->).
  destruct (d && negb (is_multiple_of hn 4)) eqn:Ed.
  { apply yields_reject. intros t Ht. apply andb_true_iff in Ed as [-> Ed%negb_true_iff%N.eqb_neq].
    pose proof (Huniq t Ht) as Et. destruct Ht as [Hw _].
    destruct (twf_digits _ _ Hw) as (b & pre' & prl' & post' & pol' & d' & a & E' & Hb' & _ & _ & Hd).
    rewrite Et, E in E'. apply digits_label_unique in E' as [_ <-]; [|done..]. by apply Ed, Hd. }
  rewrite N.min_l by (unfold ADDR_NIBBLES; lia). fold (widest hn).
  destruct (render _ (widest hn)) as [n|e] eqn:Er.
  - apply yields_accept. apply render_Ok_inv in Er. split; [|by split].
    split; [done| |done]. exists bef, pre, prl, post, pol, d, aft.
    split; [done|]. do 3 (split; [done|]). intros ->. simpl in Ed. by apply negb_false_iff, N.eqb_eq in Ed.
  - apply yields_reject. intros t Ht. pose proof (Huniq t Ht) as Et. destruct Ht as [Hw _].
    pose proof (twf_widest _ _ Hw) as Hv. rewrite Et in Hv. apply from_labels_valid in Hv as [m Hm].
    unfold render in Er. simpl in Er. by rewrite Hm in Er.
Qed.
End Templates.

(** ** Zones *)

Section Zones.
Context {D : DnsOps} {L : DnsLaws D}.

(** The zone that a network directive and those below it denote. *)
Definition zone_means (ttl : N) (fz : FileZone) (z : Zone) : Prop :=
  zone_wf z ∧ valid_network (fz_network fz) (prefix z) (mask z) ∧
  fz_resolves_to fz = Some (resolves_to z) ∧ template_reads (resolves_to z) (fwd z) ∧
  match fz_upstream fz with
  | Some v => ∃ a, IpAddr_from_str v = Some a ∧ upstream z = Some a
  | None => upstream z = None
  end ∧ Config.ttl z = ttl.

(** A zone without the line it came from. *)
Definition unlined_zone (z : Zone) : Zone :=
  mkZone 0 (prefix z) (mask z) (host_nibbles z) (ptr_zone z) (resolves_to z) (fwd z) (fwd_parent z)
    (ttl z) (upstream z).

Lemma valid_network_unique text p m p' m' : valid_network text p m → valid_network text p' m' → (p, m) = (p', m').
Proof. intros (a & b & E1 & E2 & E3 & _) (a' & b' & F1 & F2 & F3 & _). congruence. Qed.

Lemma zone_means_unique t fz z z' : zone_means t fz z → zone_means t fz z' → unlined_zone z = unlined_zone z'.
Proof.
  intros (Hw & Hn & Hr & Ht & Hu & Httl) (Hw' & Hn' & Hr' & Ht' & Hu' & Httl').
  pose proof (valid_network_unique _ _ _ _ _ Hn Hn') as [= Ep Em].
  assert (resolves_to z = resolves_to z') as Er by congruence.
  assert (host_nibbles z = host_nibbles z') as Eh by (rewrite (zwf_host z Hw), (zwf_host z' Hw'); congruence).
  assert (ptr_zone z = ptr_zone z') as Eptr.
  { pose proof (zwf_ptr z Hw) as H. pose proof (zwf_ptr z' Hw') as H'. congruence. }
  assert (fwd z = fwd z') as Ef.
  { apply (template_means_unique (host_nibbles z) (resolves_to z)); (split; [|congruence]); [apply Hw|].
    rewrite Eh. apply Hw'. }
  assert (fwd_parent z = fwd_parent z') as Epar.
  { pose proof (zwf_parent z Hw) as H. pose proof (zwf_parent z' Hw') as H'. congruence. }
  assert (upstream z = upstream z') as Eu.
  { destruct (fz_upstream fz); [|congruence]. destruct Hu as (a & ? & ?), Hu' as (a' & ? & ?). congruence. }
  unfold unlined_zone. congruence.
Qed.

(** The zone of raw directives, with its line. *)
Definition zone_reads (ttl : N) (raw : RawZone) (z : Zone) : Prop :=
  zone_means ttl (Grammar.zone_of_raw raw) z ∧ src_line z = raw_line_no (raw_network raw).

Lemma zone_reads_unique t raw z z' : zone_reads t raw z → zone_reads t raw z' → z = z'.
Proof.
  intros [H Hl] [H' Hl']. pose proof (zone_means_unique _ _ _ _ H H') as E.
  destruct z, z'. unfold unlined_zone in E. simpl in *. congruence.
Qed.

(** A zone that collides with none before it, and the maps after it. *)
Definition zone_accepts (raw : RawZone) (nets : gmap (N * N) N) (pats : gmap bytes N)
    (r : Zone * gmap (N * N) N * gmap bytes N) : Prop :=
  let '(z, nets', pats') := r in
  zone_reads DEFAULT_TTL raw z ∧ nets !! network_key z = None ∧ pats !! pattern_key z = None ∧
  nets' = <[network_key z := raw_line_no (raw_network raw)]> nets ∧
  pats' = <[pattern_key z := default 0 (raw_line_no <$> raw_resolves_to raw)]> pats.

Lemma zone_accepts_unique raw nets pats r r' :
  zone_accepts raw nets pats r → zone_accepts raw nets pats r' → r = r'.
Proof.
  destruct r as [[z n] p], r' as [[z' n'] p']. intros (Hz & _ & _ & -> & ->) (Hz' & _ & _ & -> & ->).
  by rewrite (zone_reads_unique _ _ _ _ Hz Hz').
Qed.

Lemma compile_zone_exactly raw nets pats :
  yields (compile_zone raw nets pats) (zone_accepts raw nets pats) (λ _, ∀ r, ¬ zone_accepts raw nets pats r).
Proof.
  unfold compile_zone. eapply yields_try.
  { eapply yields_mono; [apply compile_network_yields|intros r Hr; exact Hr|].
    intros e [_ Hno] [[z n] p] ((( _ & Hv & _) & _) & _). by apply Hno in Hv. }
  intros [p m] Hnet. pose proof Hnet as (ap & mp & _ & Hp & _ & Hm & H4 & Hpp).
  apply Ipv6Addr_from_str_bound in Hp.
  (* What any accepted zone says of the network and the template. *)
  assert (∀ z n' p', zone_accepts raw nets pats (z, n', p') → network_key z = (p, m) ∧ host_nibbles z = (128 - m) / 4 ∧
    (∃ v, raw_resolves_to raw = Some v ∧ resolves_to z = raw_value v)) as Hacc.
  { intros z n' p' [[(Hw & Hv & Hr & _) _] _]. pose proof (valid_network_unique _ _ _ _ _ Hnet Hv) as [= E1 E2].
    split; [unfold network_key; congruence|]. split; [rewrite (zwf_host z Hw); congruence|].
    simpl in Hr. destruct (raw_resolves_to raw) as [v|]; [|done]. injection Hr as Hr. by exists v. }
  destruct (nets !! (p, m)) as [fl|] eqn:En.
  { apply yields_reject. intros [[z n'] p'] Hz. destruct (Hacc _ _ _ Hz) as [Hk _].
    destruct Hz as (_ & Hn & _). rewrite Hk in Hn. congruence. }
  destruct (raw_resolves_to raw) as [v|] eqn:Ev.
  2:{ apply yields_reject. intros [[z n'] p'] Hz. by destruct (Hacc _ _ _ Hz) as (_ & _ & v & ? & _). }
  eapply yields_try.
  { eapply yields_mono; [apply compile_template_exactly; lia|intros t Ht; exact Ht|].
    intros e Hno [[z n'] p'] Hz. destruct (Hacc _ _ _ Hz) as (_ & Hh & v' & [= <-] & Hr).
    destruct Hz as [[(Hw & _ & _ & Ht & _) _] _]. apply (Hno (fwd z)). rewrite <- Hh, <- Hr. split; [apply Hw|done]. }
  intros t [Ht Htext].
  destruct (pats !! to_ascii_lowercase (raw_value v)) as [fl|] eqn:Epat.
  { apply yields_reject. intros [[z n'] p'] Hz. destruct (Hacc _ _ _ Hz) as (_ & _ & v' & [= <-] & Hr).
    destruct Hz as (_ & _ & Hpat & _). unfold pattern_key in Hpat. rewrite Hr in Hpat. congruence. }
  eapply (yields_try _ _ _ (denotes_upstream (raw_upstream raw))).
  { destruct (raw_upstream raw) as [w|] eqn:Eu; [|by apply yields_accept].
    destruct (IpAddr_from_str (raw_value w)) eqn:Ea; [apply yields_accept; by eexists|].
    apply yields_reject. intros [[z n'] p'] [[(_ & _ & _ & _ & Hu & _) _] _].
    simpl in Hu. rewrite Eu in Hu. simpl in Hu. destruct Hu as (a & ? & _). congruence. }
  intros u Hu.
  destruct (netmask_to_ptr_name_valid p m) as (ptr & Hptr & _); [lia|done|]. rewrite Hptr.
  destruct (parent_Ok _ _ Ht) as [par Hpar]. rewrite Hpar. apply yields_accept.
  split; [split; [|done]|split; [done|split; [done|by rewrite Ev]]]. split; [split; simpl; try done; lia|].
  split; [done|]. split; [simpl; by rewrite Ev|]. split; [done|]. split; [|done].
  unfold denotes_upstream in Hu. simpl. by destruct (raw_upstream raw).
Qed.

(** The zones of a list, without collisions with the maps and each other. *)
Definition zones_accept (ttl : N) (raws : list RawZone) (nets : gmap (N * N) N) (pats : gmap bytes N)
    (zs : list Zone) : Prop :=
  Forall2 (zone_reads ttl) raws zs ∧
  NoDup (network_key <$> zs) ∧ NoDup (pattern_key <$> zs) ∧
  Forall (λ z, nets !! network_key z = None ∧ pats !! pattern_key z = None) zs.

Lemma zone_reads_set_ttl t t' raw z : t <= 0x7FFFFFFF → zone_reads t' raw z → zone_reads t raw (set_ttl t z).
Proof.
  intros Ht [(Hw & Hn & Hr & Htr & Hu & _) Hl]. split; [|done]. split; [by apply set_ttl_wf|]. by split.
Qed.

Lemma zones_accept_cons ttl raw raws nets pats zs :
  ttl <= 0x7FFFFFFF →
  zones_accept ttl (raw :: raws) nets pats zs ↔
  ∃ z nets' pats' rest, zone_accepts raw nets pats (z, nets', pats') ∧
    zones_accept ttl raws nets' pats' rest ∧ zs = set_ttl ttl z :: rest.
Proof.
  intros Ht. split.
  - intros (Hf & Hn & Hp & Hm). inversion Hf as [|? y ? rest Hy Hrest]; subst. simpl in Hn, Hp.
    apply NoDup_cons in Hn as [Hn1 Hn2], Hp as [Hp1 Hp2]. apply Forall_cons in Hm as [[Hm1 Hm2] Hm3].
    eexists (set_ttl DEFAULT_TTL y), _, _, rest. split; [split; [|split; [done|split; [done|split; reflexivity]]]|].
    { by apply (zone_reads_set_ttl _ ttl). }
    split.
    + split; [done|]. split; [done|]. split; [done|]. apply Forall_forall. intros x Hx.
      rewrite Forall_forall in Hm3. destruct (Hm3 x Hx). change (network_key (set_ttl DEFAULT_TTL y)) with (network_key y).
      change (pattern_key (set_ttl DEFAULT_TTL y)) with (pattern_key y). rewrite !lookup_insert_ne; [done|..].
      * intros E. apply Hp1. rewrite E. by apply list_elem_of_fmap_2.
      * intros E. apply Hn1. rewrite E. by apply list_elem_of_fmap_2.
    + destruct Hy as [(_ & _ & _ & _ & _ & Hyt) _]. destruct y. simpl in *. by subst.
  - intros (z & nets' & pats' & rest & (Hz & Hn & Hp & -> & ->) & (Hf & Hnn & Hnp & Hm) & ->).
    split; [constructor; [by eapply zone_reads_set_ttl|done]|]. rewrite Forall_forall in Hm. simpl.
    change (network_key (set_ttl ttl z)) with (network_key z). change (pattern_key (set_ttl ttl z)) with (pattern_key z).
    split; [|split].
    + constructor; [|done]. intros (x & E & Hx)%list_elem_of_fmap. destruct (Hm x Hx) as [H _].
      by rewrite <- E, lookup_insert_eq in H.
    + constructor; [|done]. intros (x & E & Hx)%list_elem_of_fmap. destruct (Hm x Hx) as [_ H].
      by rewrite <- E, lookup_insert_eq in H.
    + constructor; [done|]. apply Forall_forall. intros x Hx. destruct (Hm x Hx) as [H1 H2].
      apply lookup_insert_None in H1 as [? _], H2 as [? _]. done.
Qed.

Lemma compile_zones_append raws ttl nets pats acc : append_only (compile_zones raws ttl nets pats acc).
Proof.
  revert nets pats acc. induction raws as [|raw raws IH]; intros nets pats acc; [eapply emits_append, (emits_ret _ (λ _, True))|].
  cbn [compile_zones]. apply emits_bind; [eapply emits_append, emits_yields, compile_zone_exactly|].
  intros [[[z n] p]|]; apply IH.
Qed.

Lemma compile_zones_decides raws ttl nets pats acc :
  ttl <= 0x7FFFFFFF →
  decides (compile_zones raws ttl nets pats acc) (λ out, ∃ zs, out = acc ++ zs ∧ zones_accept ttl raws nets pats zs).
Proof.
  intros Ht. revert nets pats acc. induction raws as [|raw raws IH]; intros nets pats acc.
  - eapply decides_iff; [|apply decides_ret]. intros out. split.
    + intros ->. exists []. rewrite app_nil_r. split; [done|]. repeat split; constructor.
    + intros (zs & -> & Hf & _). inversion Hf; subst. by rewrite app_nil_r.
  - cbn [compile_zones]. eapply decides_iff; [|eapply (decides_bind _ _ _ (λ o out, ∃ z n p rest,
      o = Some (z, n, p) ∧ zones_accept ttl raws n p rest ∧ out = acc ++ set_ttl ttl z :: rest));
      [apply decides_yields, compile_zone_exactly| | |]].
    + intros out. split.
      * intros (o & ([[z n] p] & -> & Hz) & z' & n' & p' & rest & [= <- <- <-] & Hr & ->).
        exists (set_ttl ttl z :: rest). split; [done|]. apply zones_accept_cons; [done|]. by exists z, n, p, rest.
      * intros (zs & -> & (z & n & p & rest & Hz & Hr & ->)%zones_accept_cons); [|done].
        exists (Some (z, n, p)). split; [by eexists|]. by exists z, n, p, rest.
    + intros x y (a & -> & Ha) (b & -> & Hb). f_equal. by eapply zone_accepts_unique.
    + intros o ([[z n] p] & -> & _). eapply decides_iff; [|apply IH]. intros out. split.
      * intros (zs & -> & Hz). exists z, n, p, zs. rewrite <- app_assoc. by split.
      * intros (z' & n' & p' & rest & [= <- <- <-] & Hr & ->). exists rest. rewrite <- app_assoc. by split.
    + intros [[[z n] p]|]; apply compile_zones_append.
Qed.
End Zones.

(** ** The whole file *)

Section Files.
Context {D : DnsOps} {L : DnsLaws D}.

Definition listen_means (v : bytes) (a : ListenAddr) : Prop :=
  match SocketAddr_from_str v with
  | Some sock => a = mkListenAddr (ip sock) (port sock)
  | None => ∃ b, IpAddr_from_str v = Some b ∧ a = mkListenAddr b 53
  end.

Lemma listen_means_unique v x y : listen_means v x → listen_means v y → x = y.
Proof.
  unfold listen_means. destruct (SocketAddr_from_str v); [congruence|].
  intros (b & ? & ->) (b' & ? & ->). congruence.
Qed.

(** The configuration without line numbers. *)
Definition unlined (c : Config) : Config :=
  mkConfig (listen c) (unlined_zone <$> zones c) (soa c) (nameservers c) (params c).

(** The configuration a file denotes: its addresses; its settings, all of them
    valid and the two names of the SOA together or not at all; and its zones, each
    what its directives say, no two with one network or one pattern, those with
    longer prefixes first. *)
Definition file_means (f : File) (m : Config) : Prop :=
  let gs := f_globals f in
  Forall2 listen_means (f_listen f) (listen m) ∧
  Forall setting_valid gs ∧ soa_paired gs ∧
  soa m = soa_of gs ∧ nameservers m = nameservers_of gs ∧ params m = params_of gs ∧
  ∃ zs, Forall2 (zone_means (ttl_of gs)) (f_zones f) zs ∧
    NoDup (network_key <$> zs) ∧ NoDup (pattern_key <$> zs) ∧
    zones m = sort_zones (unlined_zone <$> zs).

(** The same for raw directives, with lines. *)
Definition raw_means (raw : RawConfig) (c : Config) : Prop :=
  let gs := entry <$> raw_globals raw in
  Forall2 listen_means (raw_value <$> raw_listen raw) (listen c) ∧
  (Forall setting_valid gs ∧ soa_paired gs) ∧
  ∃ zs, zones_accept (ttl_of gs) (raw_zones raw) ∅ ∅ zs ∧
    c = mkConfig (listen c) (sort_zones zs) (soa_of gs) (nameservers_of gs) (params_of gs).

Lemma compile_decides raw : decides (compile raw) (raw_means raw).
Proof.
  unfold compile. set (gs := entry <$> raw_globals raw).
  eapply decides_iff; [|eapply (decides_bind _ _ _ (λ ls c, ∃ g, ((Forall setting_valid gs ∧ soa_paired gs) ∧
      g = globals_of gs) ∧ ∃ zs, (∃ zs', zs = [] ++ zs' ∧ zones_accept (globals_ttl g) (raw_zones raw) ∅ ∅ zs') ∧
      c = mkConfig ls (sort_zones zs) (globals_soa g) (globals_nameservers g) (globals_params g)));
    [apply decides_filter_map; [apply listen_decides|]| |intros ls Hls; eapply decides_bind;
      [apply compile_globals_decides|naive_solver|intros g [[Hv _] ->]; eapply decides_bind;
        [apply compile_zones_decides; by apply ttl_of_bound| |intros; apply decides_ret|]|]|]].
  - intros c. unfold raw_means. fold gs. rewrite Forall2_fmap_l. split.
    + intros (ls & Hls & g & [Hv ->] & zs & (zs' & -> & Hz) & ->). split; [done|]. split; [done|]. by exists zs'.
    + intros (Hls & Hv & zs & Hz & E). exists (listen c). split; [done|]. exists (globals_of gs). split; [done|].
      exists zs. split; [by exists zs|done].
  - intros v. apply listen_means_unique.
  - apply Forall2_unique. intros v. apply listen_means_unique.
  - intros x y (zs & -> & Hz & _) (zs' & -> & Hz' & _). f_equal.
    eapply Forall2_unique; [|done..]. intros r a b. apply zone_reads_unique.
  - intros. eapply emits_append, (emits_ret _ (λ _, True)).
  - intros g. apply emits_bind; [apply compile_zones_append|]. intros; apply emits_ret.
  - intros ls. apply emits_bind; [eapply decides_append, compile_globals_decides|]. intros g.
    apply emits_bind; [apply compile_zones_append|]. intros; apply emits_ret.
Qed.

Lemma raw_means_unique raw c c' : raw_means raw c → raw_means raw c' → c = c'.
Proof.
  intros (Hl & _ & zs & (Hz & _) & ->) (Hl' & _ & zs' & (Hz' & _) & ->). simpl in *. f_equal.
  - eapply Forall2_unique; [apply listen_means_unique|done..].
  - f_equal. eapply Forall2_unique; [|done..]. intros r a b. apply zone_reads_unique.
Qed.

(** Lines make no difference. *)
Lemma sort_unlined zs : unlined_zone <$> sort_zones zs = sort_zones (unlined_zone <$> zs).
Proof.
  assert (∀ z l, unlined_zone <$> insert_zone z l = insert_zone (unlined_zone z) (unlined_zone <$> l)) as Hi.
  { intros z l. induction l as [|y l IH]; [done|]. simpl. destruct (mask y <=? mask z); [done|]. by rewrite fmap_cons, IH. }
  induction zs as [|z zs IH]; [done|]. simpl. by rewrite Hi, IH.
Qed.

Definition set_line (n : N) (z : Zone) : Zone :=
  mkZone n (prefix z) (mask z) (host_nibbles z) (ptr_zone z) (resolves_to z) (fwd z) (fwd_parent z)
    (ttl z) (upstream z).

Lemma zone_means_line t fz z n : zone_means t fz z → zone_means t fz (set_line n z).
Proof. intros (Hw & H). split; [destruct Hw; by split|exact H]. Qed.

Lemma zones_means_reads t raws zs :
  Forall2 (zone_means t) (Grammar.zone_of_raw <$> raws) zs →
  ∃ zs', Forall2 (zone_reads t) raws zs' ∧ unlined_zone <$> zs' = unlined_zone <$> zs.
Proof.
  revert zs. induction raws as [|raw raws IH]; intros zs H; inversion H as [|? z ? rest Hz Hr]; subst.
  - by exists [].
  - destruct (IH _ Hr) as (zs' & Hf & E). exists (set_line (raw_line_no (raw_network raw)) z :: zs').
    split; [|by rewrite !fmap_cons, E]. constructor; [|done]. split; [by apply zone_means_line|done].
Qed.

Lemma unlined_keys (zs zs' : list Zone) :
  unlined_zone <$> zs' = unlined_zone <$> zs →
  network_key <$> zs' = network_key <$> zs ∧ pattern_key <$> zs' = pattern_key <$> zs.
Proof.
  intros E. split.
  - apply (f_equal (fmap network_key)) in E. rewrite <- !list_fmap_compose in E. exact E.
  - apply (f_equal (fmap pattern_key)) in E. rewrite <- !list_fmap_compose in E. exact E.
Qed.

Lemma file_of_means raw m : (∃ c, raw_means raw c ∧ unlined c = m) ↔ file_means (file_of raw) m.
Proof.
  assert (f_globals (file_of raw) = entry <$> raw_globals raw) as Eg by done. unfold file_means, raw_means. rewrite Eg.
  split.
  - intros (c & (Hl & [Hv Hp] & zs & (Hz & Hn & Hpat & _) & ->) & <-). simpl. split; [done|]. do 5 (split; [done|]).
    exists zs. split; [|split; [done|split; [done|apply sort_unlined]]].
    apply Forall2_fmap_l. eapply Forall2_impl; [exact Hz|]. by intros r z [? _].
  - intros (Hl & Hv & Hp & Hs & Hns & Hpar & zs & Hz & Hn & Hpat & Hzs).
    destruct (zones_means_reads _ _ _ Hz) as (zs' & Hz' & E). destruct (unlined_keys _ _ E) as [E1 E2].
    exists (mkConfig (listen m) (sort_zones zs') (soa m) (nameservers m) (params m)). split.
    + split; [done|]. split; [done|]. exists zs'. split.
      * split; [done|]. rewrite E1, E2. do 2 (split; [done|]). apply Forall_true. done.
      * simpl. by rewrite Hs, Hns, Hpar.
    + unfold unlined. simpl. rewrite sort_unlined, E, <- Hzs. by destruct m.
Qed.

(** C6.  Which configuration files are accepted, and what they mean.
    [Config_parse] returns a configuration precisely when every line of the file
    writes an item, every item stands where it may, and the file denotes a
    configuration; and what it returns is that configuration, up to the line
    numbers it keeps for messages.  So no valid file is rejected, no invalid one
    accepted, and nothing in the result comes from anywhere but the file: the
    settings are the stated ones or the documented defaults, and the zones are the
    stated networks with their templates and upstreams, longest prefix first.
    Where items may stand is as documented, with two exceptions: files in the
    documented grammar are accepted with the documented meaning, and an accepted
    file outside it has a flag given again or a [listen] after a network. *)
Theorem Config_parse_exact (input : bytes) (m : Config) :
  ((∃ c, Config_parse input = Ok c ∧ unlined c = m) ↔
   ∃ items f, Forall2 writes (str_lines input) items ∧ read_items items empty_file = Some f ∧ file_means f m) ∧
  (∀ items f, Forall2 writes (str_lines input) items → documented_items items empty_file = Some f →
   file_means f m → ∃ c, Config_parse input = Ok c ∧ unlined c = m) ∧
  (∀ items c, Forall2 writes (str_lines input) items → Config_parse input = Ok c →
   documented_items items empty_file = None →
   ∃ before i after f0, items = before ++ i :: after ∧ documented_items before empty_file = Some f0 ∧
     departs i f0).
Proof.
  pose proof (λ f, parse_lines_reads 0 (str_lines input) RawConfig_default [] f) as Hp. fold (parse input) in Hp.
  assert (∀ items f, Forall2 writes (str_lines input) items → read_items items empty_file = Some f →
    file_means f m → ∃ c, Config_parse input = Ok c ∧ unlined c = m) as Hread.
  { intros items f Hw Hr Hm. destruct (proj2 (Hp f)) as [Hs <-]; [by exists items|].
    apply file_of_means in Hm as (c & Hc & <-). exists c. split; [|done]. apply Config_parse_Ok. split; [done|].
    by apply (decides_exact _ _ _ (compile_decides _) (raw_means_unique _)). }
  split; [split|split].
  - intros (c & [Hs Hc]%Config_parse_Ok & <-).
    apply (decides_exact _ _ _ (compile_decides _) (raw_means_unique _)) in Hc.
    destruct (proj1 (Hp (file_of (fst (parse input)))) (conj Hs eq_refl)) as (items & Hw & Hr).
    exists items, (file_of (fst (parse input))). do 2 (split; [done|]). apply file_of_means. by exists c.
  - intros (items & f & Hw & Hr & Hm). by apply (Hread items f).
  - intros items f Hw Hd%documented_items_read. by apply (Hread items f).
  - intros items c Hw [Hs _]%Config_parse_Ok. apply first_departure.
    destruct (proj1 (Hp (file_of (fst (parse input)))) (conj Hs eq_refl)) as (items' & Hw' & Hr).
    change (file_of RawConfig_default) with empty_file in Hr. by rewrite (writes_lines_functional _ items items' Hw Hw'), Hr.
Qed.
End Files.

(** ** Instances *)

#[local] Existing Instance LabelName.ops.
#[local] Existing Instance LabelName.laws.

Lemma Config_parse_exact_witness :
  length (str_lines sample_input) ≠ 0%nat ∧
  ∃ items f, Forall2 writes (str_lines sample_input) items ∧ read_items items empty_file = Some f ∧
    file_means f (unlined sample_config).
Proof.
  split; [done|]. apply (proj1 (proj1 (Config_parse_exact sample_input (unlined sample_config)))).
  exists sample_config. split; [vm_refl|reflexivity].
Defined.
