(* ===== verification/NetText.v ===== *)
(** * Addresses as text

    Printing an address and reading it back: the forms of [to_string] are among
    those of [from_str], with the compression of zeros, the embedded IPv4 form and
    the leading-zero rule of each.  Diagnostics quote addresses in this form, so
    what a message suggests can be put into the file. *)

From S2P Require Import Prelude RustText RustNet ConfigError Dns Nibble Config ConfigSpec Parse Compile Sample CompileSpec Grammar Accept.

(** ** Numbers *)

Definition number_value (radix : N) (ds : list N) (acc : N) : N := foldl (λ a d, a * radix + d) acc ds.

(** The next byte, if any, ends a number. *)
Definition ends_number (radix : N) (rest : bytes) : Prop :=
  match rest with [] => True | b :: _ => to_digit radix b = None end.

Lemma to_digit_hex radix d : d < radix → radix <= 16 → to_digit radix (hex_digit d) = Some d.
Proof.
  intros Hd Hr. assert (to_digit 16 (hex_digit d) = Some d) as H.
  { assert (d < 16) as Hlt by lia. clear Hd Hr. rewrite <- (N2Nat.id d) in *. generalize dependent (N.to_nat d).
    intros n Hn. do 16 (destruct n as [|n]; [done|]). lia. }
  unfold to_digit in *. destruct (if in_range 48 57 _ then _ else _) as [v|]; [|done]. cbn [mbind option_bind] in *.
  destruct (v <? 16); [|done]. injection H as ->. by rewrite (proj2 (N.ltb_lt _ _)).
Qed.

Lemma read_digits_app radix m ds rest acc count :
  radix <= 16 → Forall (λ d, d < radix) ds → ends_number radix rest →
  (∀ n, m = Some n → count + len ds <= n) →
  read_digits radix m ((hex_digit <$> ds) ++ rest) acc count =
  Some (number_value radix ds acc, count + len ds, rest).
Proof.
  intros Hr Hds Hrest. revert acc count. induction Hds as [|d ds Hd _ IH]; intros acc count Hm.
  - rewrite len_nil, N.add_0_r. destruct rest as [|b rest]; [done|]. simpl in *. by rewrite Hrest.
  - rewrite fmap_cons, len_cons in *. cbn [app read_digits]. rewrite to_digit_hex by done.
    assert ((match m with Some n => n <? count + 1 | None => false end) = false) as ->.
    { destruct m as [n|]; [|done]. specialize (Hm n eq_refl). apply N.ltb_ge. lia. }
    rewrite IH by (intros n Hn; specialize (Hm n Hn); lia). simpl. by rewrite N.add_assoc.
Qed.

Lemma read_number_app radix m azp mx ds rest v :
  radix <= 16 → Forall (λ d, d < radix) ds → ends_number radix rest → ds ≠ [] →
  (∀ n, m = Some n → len ds <= n) → number_value radix ds 0 = v → v <= mx →
  (azp = true ∨ len ds = 1 ∨ head ds ≠ Some 0) →
  read_number radix m azp mx ((hex_digit <$> ds) ++ rest) = Some (v, rest).
Proof.
  intros Hr Hds Hrest Hne Hm Hv Hle Hz. unfold read_number. rewrite read_digits_app, Hv by done.
  cbn [mbind option_bind]. destruct ds as [|d ds]; [done|]. rewrite N.add_0_l, len_cons.
  rewrite (proj2 (N.eqb_neq _ _)) by lia. rewrite (proj2 (N.leb_le _ _)) by done.
  assert (negb azp && bool_decide (hex_digit d = "0"%byte) && (1 <? 1 + len ds) = false) as Hlead; [|by rewrite fmap_cons; simpl; rewrite Hlead].
  destruct Hz as [-> |[Hl|Hz]]; [done| |].
  - rewrite len_cons in Hl. rewrite (proj2 (N.ltb_ge _ _)) by lia. by rewrite andb_false_r.
  - rewrite bool_decide_eq_false_2; [by rewrite andb_false_r|]. intros H0.
    apply Forall_cons in Hds as [Hd _]. pose proof (to_digit_hex radix d Hd Hr) as Ht. rewrite H0 in Ht.
    change (to_digit radix "0"%byte) with (if 0 <? radix then Some 0 else None) in Ht.
    destruct (0 <? radix); [|done]. injection Ht as <-. by apply Hz.
Qed.

(** The digits of a number. *)
Definition digits_of (base : N) (x : N) : list N := rev (digits_rev (if base =? 10 then 39 else 32) base x).

Lemma digits_rev_spec fuel base x :
  2 <= base → x < base ^ N.of_nat fuel →
  Forall (λ d, d < base) (digits_rev fuel base x) ∧ number_value base (rev (digits_rev fuel base x)) 0 = x.
Proof.
  intros Hb. revert x. induction fuel as [|fuel IH]; intros x Hx; [simpl in *; split; [constructor|lia]|].
  cbn [digits_rev]. unfold number_value. cbn [rev]. rewrite foldl_app. cbn [foldl].
  pose proof (N.mod_lt x base ltac:(lia)). pose proof (N.div_mod' x base).
  destruct (N.ltb_spec x base) as [Hlt|Hge].
  - rewrite N.mod_small by done. split; [by repeat constructor|]. simpl. lia.
  - rewrite Nat2N.inj_succ, N.pow_succ_r' in Hx.
    destruct (IH (x / base)) as [H1 H2]; [apply N.Div0.div_lt_upper_bound; lia|].
    split; [by constructor|]. unfold number_value in H2. rewrite H2. lia.
Qed.

Lemma digits_rev_len fuel base x k :
  2 <= base → x < base ^ N.of_nat (S k) → (length (digits_rev fuel base x) <= S k)%nat.
Proof.
  intros Hb. revert x k. induction fuel as [|fuel IH]; intros x k Hx; simpl; [lia|].
  destruct (N.ltb_spec x base) as [Hlt|Hge]; [simpl; lia|]. destruct k as [|k]; [simpl in Hx; lia|].
  rewrite Nat2N.inj_succ, N.pow_succ_r' in Hx. apply le_n_S, IH. apply N.Div0.div_lt_upper_bound; lia.
Qed.

(** A group of an address, in hexadecimal. *)
Lemma read_group_text g rest :
  g < 65536 → ends_number 16 rest → read_number 16 (Some 4) true u16_MAX (lower_hex g ++ rest) = Some (g, rest).
Proof.
  intros Hg Hrest. unfold lower_hex.
  destruct (digits_rev_spec 32 16 g) as [Hd Hv]; [lia|change (16 ^ N.of_nat 32) with (2 ^ 128); lia|].
  pose proof (digits_rev_len 32 16 g 3 ltac:(lia) ltac:(change (16 ^ N.of_nat 4) with 65536; lia)) as Hl.
  assert (digits_rev 32 16 g ≠ []) as Hne by (cbn [digits_rev]; discriminate).
  generalize dependent (digits_rev 32 16 g). intros ds Hd Hv Hl Hne.
  apply read_number_app; [lia|by apply Forall_rev|exact Hrest| | |exact Hv| |by left].
  - intros E. apply Hne. by rewrite <- (rev_involutive ds), E.
  - intros n [= <-]. unfold len. rewrite length_rev. lia.
  - unfold u16_MAX. change (N.ones 16) with 65535. lia.
Qed.

(** An octet, in decimal and without leading zeros. *)
Definition octet_text_ok (o : N) : bool :=
  let ds := rev (digits_rev 39 10 o) in
  forallb (λ d, d <? 10) ds && (1 <=? len ds) && (len ds <=? 3) && (number_value 10 ds 0 =? o) &&
  ((len ds =? 1) || negb (bool_decide (head ds = Some 0))).

Lemma octets_ok : forallb (λ n, octet_text_ok (N.of_nat n)) (seq 0 256) = true.
Proof. by vm_compute. Qed.

Lemma read_octet_text o rest :
  o < 256 → ends_number 10 rest → read_number 10 (Some 3) false u8_MAX (to_decimal o ++ rest) = Some (o, rest).
Proof.
  intros Ho Hrest. pose proof octets_ok as H. rewrite forallb_forall in H.
  specialize (H (N.to_nat o)). rewrite N2Nat.id in H. unfold octet_text_ok in H.
  rewrite !andb_true_iff, orb_true_iff, !N.leb_le, !N.eqb_eq, negb_true_iff, bool_decide_eq_false in H.
  destruct H as ((((Hd & Hn) & Hl) & Hv) & Hz); [apply in_seq; lia|]. unfold to_decimal.
  generalize dependent (rev (digits_rev 39 10 o)). intros ds Hd Hn Hl Hv Hz.
  apply read_number_app; [lia| |exact Hrest| | |exact Hv| |by right].
  - rewrite forallb_forall in Hd. apply Forall_forall. intros d Hd'%list_elem_of_In. by apply N.ltb_lt, Hd.
  - intros E. subst ds. rewrite len_nil in Hn. lia.
  - by intros n [= <-].
  - unfold u8_MAX. change (N.ones 8) with 255. lia.
Qed.

(** ** IPv4 *)

Lemma read_separator_0 {A} sep (inner : reader A) s : read_separator sep 0 inner s = inner s.
Proof. done. Qed.

Lemma read_separator_pos {A} sep i (inner : reader A) s :
  0 < i → read_separator sep i inner (sep :: s) = inner s.
Proof.
  intros Hi. unfold read_separator. rewrite (proj2 (N.ltb_lt _ _)) by done.
  simpl. by rewrite bool_decide_eq_true_2.
Qed.

Lemma read_separator_other {A} sep i (inner : reader A) s :
  0 < i → head s ≠ Some sep → read_separator sep i inner s = None.
Proof.
  intros Hi Hs. unfold read_separator. rewrite (proj2 (N.ltb_lt _ _)) by done.
  destruct s as [|b s]; [done|]. simpl in *. rewrite bool_decide_eq_false_2; [done|congruence].
Qed.

Lemma read_octets_text o1 o2 o3 o4 rest :
  o1 < 256 → o2 < 256 → o3 < 256 → o4 < 256 → ends_number 10 rest →
  read_ipv4_addr (to_decimal o1 ++ "."%byte :: to_decimal o2 ++ "."%byte :: to_decimal o3 ++ "."%byte :: to_decimal o4 ++ rest)
  = Some (((o1 * 256 + o2) * 256 + o3) * 256 + o4, rest).
Proof.
  intros H1 H2 H3 H4 Hr. unfold read_ipv4_addr. cbn [read_octets].
  rewrite read_separator_0, read_octet_text by done. cbn [mbind option_bind].
  rewrite read_separator_pos, read_octet_text by done. cbn [mbind option_bind].
  rewrite read_separator_pos, read_octet_text by done. cbn [mbind option_bind].
  rewrite read_separator_pos, read_octet_text by done. done.
Qed.

Lemma read_ipv4_text a rest :
  a < 2 ^ 32 → ends_number 10 rest → read_ipv4_addr (Ipv4Addr_to_string a ++ rest) = Some (a, rest).
Proof.
  intros Ha Hr. unfold Ipv4Addr_to_string. rewrite <- !app_assoc. change (bs ".") with ["."%byte]. simpl app.
  rewrite read_octets_text; [|lia..|done]. do 2 f_equal.
  change (2 ^ 32) with 4294967296 in Ha. lia.
Qed.

(** A dotted address has a dot. *)
Lemma read_digits_suffix radix m s acc c r c' rest :
  read_digits radix m s acc c = Some (r, c', rest) → ∃ p, s = p ++ rest.
Proof.
  revert acc c. induction s as [|b s IH]; intros acc c; cbn [read_digits].
  - intros [= _ _ <-]. by exists [].
  - destruct (to_digit radix b); [|intros [= _ _ <-]; by exists []].
    destruct (match m with Some n => _ | None => _ end); [done|]. intros [p ->]%IH. by exists (b :: p).
Qed.

Lemma read_number_suffix radix m z mx s n rest :
  read_number radix m z mx s = Some (n, rest) → ∃ p, s = p ++ rest.
Proof.
  unfold read_number. destruct (read_digits _ _ _ _ _) as [[[r c] s']|] eqn:E; [|done]. cbn [mbind option_bind].
  destruct (c =? 0); [done|]. destruct (_ && _); [done|]. destruct (r <=? mx); [|done].
  intros [= _ <-]. by eapply read_digits_suffix.
Qed.

Lemma read_ipv4_dot s : "."%byte ∉ s → read_ipv4_addr s = None.
Proof.
  intros Hd. unfold read_ipv4_addr. cbn [read_octets]. rewrite read_separator_0.
  destruct (read_number 10 _ _ _ s) as [[o s']|] eqn:E; [|done]. cbn [mbind option_bind].
  apply read_number_suffix in E as [p ->]. rewrite read_separator_other; [done|lia|].
  destruct s' as [|b s']; [done|]. simpl. set_solver.
Qed.

(** ** Groups of an IPv6 address *)

Definition fmt_tail (gs : list N) : bytes := concat ((λ g, ":"%byte :: lower_hex g) <$> gs).

Lemma fmt_subslice_cons g gs : fmt_subslice (g :: gs) = lower_hex g ++ fmt_tail gs.
Proof.
  revert g. induction gs as [|h gs IH]; intros g; [unfold fmt_tail; simpl; by rewrite app_nil_r|].
  change (fmt_subslice (g :: h :: gs)) with (lower_hex g ++ bs ":" ++ fmt_subslice (h :: gs)).
  by rewrite IH.
Qed.

Lemma fmt_tail_cons g gs rest : fmt_tail (g :: gs) ++ rest = ":"%byte :: lower_hex g ++ fmt_tail gs ++ rest.
Proof. unfold fmt_tail. rewrite fmap_cons. simpl. by rewrite <- app_assoc. Qed.

(** A byte that is neither a hexadecimal digit nor a colon. *)
Definition foreign (c : byte) : Prop := to_digit 16 c = None ∧ c ≠ ":"%byte.

Lemma lower_hex_foreign c g : foreign c → c ∉ lower_hex g.
Proof.
  intros [Hc _]. unfold lower_hex. intros (d & E & Hd)%list_elem_of_fmap.
  assert (Forall (λ d, d < 16) (digits_rev 32 16 g)) as Hf.
  { generalize 32%nat g. intros n. induction n as [|n IH]; intros x; [constructor|]. cbn [digits_rev].
    constructor; [lia|]. by destruct (x <? 16). }
  apply list_elem_of_In, in_rev, list_elem_of_In in Hd. rewrite Forall_forall in Hf. apply Hf in Hd.
  pose proof (to_digit_hex 16 d Hd ltac:(lia)) as H. rewrite <- E in H. congruence.
Qed.

Lemma fmt_tail_foreign c gs : foreign c → c ∉ fmt_tail gs.
Proof.
  intros Hc. unfold fmt_tail. induction gs as [|g gs IH]; [set_solver|]. rewrite fmap_cons. cbn [concat].
  rewrite elem_of_app, elem_of_cons. pose proof (lower_hex_foreign c g Hc). destruct Hc. tauto.
Qed.

Lemma fmt_subslice_foreign c gs : foreign c → c ∉ fmt_subslice gs.
Proof.
  intros Hc. destruct gs as [|g gs]; [set_solver|]. rewrite fmt_subslice_cons, elem_of_app.
  pose proof (lower_hex_foreign c g Hc). pose proof (fmt_tail_foreign c gs Hc). tauto.
Qed.

Lemma dot_foreign : foreign "."%byte.
Proof. done. Qed.

(** What follows the groups: nothing, or the sign for zeros. *)
Definition ends_groups (rest : bytes) : Prop := rest = [] ∨ ∃ t, rest = bs "::" ++ t.

Lemma ends_groups_number rest : ends_groups rest → ends_number 16 rest.
Proof. by intros [->|[t ->]]. Qed.

Lemma tail_ends_number gs rest : ends_groups rest → ends_number 16 (fmt_tail gs ++ rest).
Proof. destruct gs as [|g gs]; [apply ends_groups_number|]. by rewrite fmt_tail_cons. Qed.

Lemma no_ipv4_group i limit s :
  "."%byte ∉ s → (if i <? limit - 1 then read_separator ":" i read_ipv4_addr s else None) = None.
Proof.
  intros Hs. destruct (i <? limit - 1); [|done]. destruct (N.eq_0_gt_0_cases i) as [->|Hi].
  - rewrite read_separator_0. by apply read_ipv4_dot.
  - destruct (base.decide (head s = Some ":"%byte)) as [Hh|Hh]; [|by apply read_separator_other].
    destruct s as [|b s]; [done|]. simpl in Hh. injection Hh as ->. rewrite read_separator_pos by done.
    apply read_ipv4_dot. set_solver.
Qed.

(** No further group can be read. *)
Lemma no_group i rest : ends_groups rest → read_separator ":" i (read_number 16 (Some 4) true u16_MAX) rest = None.
Proof.
  intros [->|[t ->]]; destruct (N.eq_0_gt_0_cases i) as [->|Hi].
  - done.
  - by apply read_separator_other.
  - done.
  - change (bs "::" ++ t) with (":"%byte :: ":"%byte :: t). by rewrite read_separator_pos.
Qed.

Lemma read_groups_tail n i limit gs rest :
  0 < i → (length gs <= n)%nat → Forall (λ g, g < 65536) gs → ends_groups rest → "."%byte ∉ rest →
  read_groups n i limit (fmt_tail gs ++ rest) = (gs, false, rest).
Proof.
  intros Hi Hn Hgs Hr Hd. revert i gs Hi Hn Hgs. induction n as [|n IH]; intros i gs Hi Hn Hgs.
  - by destruct gs; [|simpl in Hn; lia].
  - cbn [read_groups]. rewrite no_ipv4_group.
    2:{ pose proof (fmt_tail_foreign "."%byte gs dot_foreign). rewrite elem_of_app. tauto. }
    destruct gs as [|g gs]; [by rewrite no_group|]. apply Forall_cons in Hgs as [Hg Hgs].
    rewrite fmt_tail_cons, read_separator_pos, read_group_text by (done || by apply tail_ends_number).
    rewrite IH; [done|lia| |done]. simpl in Hn. lia.
Qed.

Lemma read_groups_text n limit gs rest :
  (length gs <= n)%nat → Forall (λ g, g < 65536) gs → ends_groups rest → "."%byte ∉ rest →
  read_groups n 0 limit (fmt_subslice gs ++ rest) = (gs, false, rest).
Proof.
  intros Hn Hgs Hr Hd. destruct n as [|n]; [by destruct gs; [|simpl in Hn; lia]|].
  cbn [read_groups]. rewrite no_ipv4_group.
  2:{ pose proof (fmt_subslice_foreign "."%byte gs dot_foreign). rewrite elem_of_app. tauto. }
  destruct gs as [|g gs]; [by rewrite no_group|]. apply Forall_cons in Hgs as [Hg Hgs].
  rewrite fmt_subslice_cons, <- app_assoc, read_separator_0, read_group_text by (done || by apply tail_ends_number).
  rewrite read_groups_tail; [done|lia| |done..]. simpl in Hn. lia.
Qed.

(** ** The run of zeros *)

(** The run lies within the list and is zero. *)
Definition zero_run (gs : list N) (r : N * N) : Prop :=
  snd r = 0 ∨ fst r + snd r <= len gs ∧
    take (N.to_nat (snd r)) (drop (N.to_nat (fst r)) gs) = replicate (N.to_nat (snd r)) 0.

Definition zero_run_b (gs : list N) : bool :=
  let '(start, n) := longest_zeros 0 gs (0, 0) (0, 0) in
  (n =? 0) || ((start + n <=? len gs) &&
    bool_decide (take (N.to_nat n) (drop (N.to_nat start) gs) = replicate (N.to_nat n) 0)).

(** Only which groups are zero matters. *)
Definition shape (g : N) : N := if g =? 0 then 0 else 1.

Lemma longest_zeros_shape i gs l c : longest_zeros i (shape <$> gs) l c = longest_zeros i gs l c.
Proof.
  revert i l c. induction gs as [|g gs IH]; intros i l c; [done|]. rewrite fmap_cons. cbn [longest_zeros].
  assert ((shape g =? 0) = (g =? 0)) as -> by (unfold shape; by destruct (g =? 0)). by rewrite !IH.
Qed.

Fixpoint shapes (n : nat) : list (list N) :=
  match n with O => [[]] | S n => ((λ s, 0 :: s) <$> shapes n) ++ ((λ s, 1 :: s) <$> shapes n) end.

Lemma shape_in gs n : length gs = n → (shape <$> gs) ∈ shapes n.
Proof.
  revert n. induction gs as [|g gs IH]; intros [|n] Hn; try done; [set_solver|]. rewrite fmap_cons. simpl in *.
  unfold shape at 1. apply elem_of_app. destruct (g =? 0); [left|right]; apply list_elem_of_fmap; eexists; (split; [done|]);
    apply IH; lia.
Qed.

Lemma shapes_ok : forallb zero_run_b (shapes 8) = true.
Proof. by vm_compute. Qed.

Lemma longest_zeros_run gs : length gs = 8%nat → zero_run gs (longest_zeros 0 gs (0, 0) (0, 0)).
Proof.
  intros Hl. pose proof shapes_ok as H. rewrite forallb_forall in H.
  specialize (H (shape <$> gs)). unfold zero_run_b in H. rewrite longest_zeros_shape in H.
  destruct (longest_zeros 0 gs (0, 0) (0, 0)) as [start n]. unfold zero_run. simpl.
  rewrite orb_true_iff, andb_true_iff, N.eqb_eq, N.leb_le, bool_decide_eq_true in H.
  destruct H as [?|[Hle Hz]]; [by apply list_elem_of_In, shape_in|by left|]. right.
  unfold len in *. rewrite length_fmap in Hle. split; [done|].
  rewrite <- fmap_drop, <- fmap_take in Hz.
  assert (∀ l k, shape <$> l = replicate k 0 → l = replicate k 0) as Hs; [|by apply Hs].
  intros l. induction l as [|g l IH]; intros [|k]; try done. rewrite fmap_cons. simpl.
  intros [= Hg Hk]. unfold shape in Hg. destruct (N.eqb_spec g 0) as [->|]; [|done]. f_equal. by apply IH.
Qed.

(** ** IPv6 *)

Lemma segments_join a : a < 2 ^ 128 → join_groups (segments a) = a.
Proof.
  intros Ha. unfold join_groups, segments. cbn [fmap list_fmap foldl].
  assert (∀ k, a / 65536 ^ (k + 1) = a / 65536 ^ k / 65536) as Hd.
  { intros k. rewrite N.pow_add_r, N.pow_1_r. symmetry. apply N.Div0.div_div. }
  assert (∀ x, x / 65536 * 65536 + x mod 65536 = x) as Hm by (intros x; lia).
  assert (a / 65536 ^ 7 < 65536) as Ht.
  { apply N.Div0.div_lt_upper_bound. exact Ha. }
  change (7 - 0) with 7. change (7 - 1) with 6. change (7 - 2) with 5. change (7 - 3) with 4.
  change (7 - 4) with 3. change (7 - 5) with 2. change (7 - 6) with 1. change (7 - 7) with 0.
  rewrite (N.mod_small _ _ Ht), N.mul_0_l, N.add_0_l.
  pose proof (Hd 6) as H6. pose proof (Hd 5) as H5. pose proof (Hd 4) as H4. pose proof (Hd 3) as H3.
  pose proof (Hd 2) as H2. pose proof (Hd 1) as H1. pose proof (Hd 0) as H0.
  change (6 + 1) with 7 in H6. change (5 + 1) with 6 in H5. change (4 + 1) with 5 in H4. change (3 + 1) with 4 in H3.
  change (2 + 1) with 3 in H2. change (1 + 1) with 2 in H1. change (0 + 1) with 1 in H0.
  rewrite H6, Hm, H5, Hm, H4, Hm, H3, Hm, H2, Hm, H1, Hm, H0, Hm. by rewrite N.pow_0_r, N.div_1_r.
Qed.

Lemma segments_bound a : Forall (λ g, g < 65536) (segments a) ∧ length (segments a) = 8%nat.
Proof. split; [|done]. unfold segments. apply Forall_fmap, Forall_true. intros i. simpl. lia. Qed.

Lemma read_ipv6_full gs rest :
  length gs = 8%nat → Forall (λ g, g < 65536) gs → ends_groups rest → "."%byte ∉ rest →
  read_ipv6_addr (fmt_subslice gs ++ rest) = Some (join_groups gs, rest).
Proof.
  intros Hl Hg Hr Hd. unfold read_ipv6_addr. rewrite read_groups_text by (done || lia).
  by rewrite (proj2 (N.eqb_eq _ _)) by (unfold len; lia).
Qed.

Lemma read_ipv6_compressed head tail :
  (length head + length tail <= 7)%nat → Forall (λ g, g < 65536) head → Forall (λ g, g < 65536) tail →
  read_ipv6_addr (fmt_subslice head ++ bs "::" ++ fmt_subslice tail) =
  Some (join_groups (head ++ replicate (8 - length head - length tail) 0 ++ tail), []).
Proof.
  intros Hl Hh Ht. unfold read_ipv6_addr.
  rewrite read_groups_text; [|lia|done|right; by eexists|].
  2:{ rewrite elem_of_app. pose proof (fmt_subslice_foreign "."%byte tail dot_foreign). intros [H'|?]; [|done]. by vm_compute in H'; set_solver. }
  rewrite (proj2 (N.eqb_neq _ _)) by (unfold len; lia).
  change (bs "::" ++ fmt_subslice tail) with (":"%byte :: ":"%byte :: fmt_subslice tail).
  cbn [read_given_char]. rewrite bool_decide_eq_true_2 by done. cbn [mbind option_bind read_given_char].
  rewrite bool_decide_eq_true_2 by done. cbn [mbind option_bind].
  rewrite <- (app_nil_r (fmt_subslice tail)), read_groups_text; [done|unfold len; lia|done|by left|set_solver].
Qed.

(** An address without an embedded IPv4 address. *)
Lemma read_ipv6_groups a :
  a < 2 ^ 128 → a / 2 ^ 32 ≠ 0xFFFF → read_ipv6_addr (Ipv6Addr_to_string a) = Some (a, []).
Proof.
  intros Ha Hm. unfold Ipv6Addr_to_string. rewrite (proj2 (N.eqb_neq _ _)) by done.
  destruct (segments_bound a) as [Hg Hl]. pose proof (longest_zeros_run (segments a) Hl) as Hz.
  pose proof (segments_join a Ha) as Hj.
  destruct (longest_zeros 0 (segments a) (0, 0) (0, 0)) as [start n]. unfold zero_run in Hz. simpl in Hz.
  generalize dependent (segments a). intros gs Hg Hl Hz Hj. destruct (N.ltb_spec 1 n) as [Hn|Hn].
  - destruct Hz as [?|[Hle Hz]]; [lia|]. unfold len in Hle.
    rewrite read_ipv6_compressed; [|rewrite length_take, length_drop; lia|by apply Forall_take|by apply Forall_drop].
    rewrite length_take, length_drop. do 2 f_equal. rewrite <- Hj. f_equal.
    replace (8 - N.to_nat start `min` length gs - (length gs - N.to_nat (start + n)))%nat with (N.to_nat n) by lia.
    transitivity (take (N.to_nat start) gs ++ drop (N.to_nat start) gs); [|by rewrite take_drop]. f_equal.
    rewrite <- Hz. rewrite <- (take_drop (N.to_nat n) (drop (N.to_nat start) gs)) at 2. f_equal.
    rewrite drop_drop. f_equal. lia.
  - rewrite <- (app_nil_r (fmt_subslice gs)), read_ipv6_full; [by rewrite Hj|done|done|by left|set_solver].
Qed.

(** An IPv4-mapped address. *)
Lemma read_ipv6_mapped a :
  a / 2 ^ 32 = 0xFFFF → read_ipv6_addr (Ipv6Addr_to_string a) = Some (a, []).
Proof.
  intros Hm. unfold Ipv6Addr_to_string. rewrite (proj2 (N.eqb_eq _ _)) by done.
  set (v4 := a mod 2 ^ 32). assert (v4 < 2 ^ 32) as Hv by (unfold v4; lia).
  assert (read_ipv4_addr (Ipv4Addr_to_string v4) = Some (v4, [])) as H4.
  { rewrite <- (app_nil_r (Ipv4Addr_to_string v4)). by apply read_ipv4_text. }
  set (text := Ipv4Addr_to_string v4) in *.
  change (bs "::ffff:" ++ text) with (":"%byte :: ":"%byte :: bs "ffff" ++ ":"%byte :: text).
  assert (read_ipv6_addr (":"%byte :: ":"%byte :: bs "ffff" ++ ":"%byte :: text) =
    match read_groups 7 0 7 (bs "ffff" ++ ":"%byte :: text) with
    | (tail, _, s) => Some (join_groups (replicate (8 - length tail) 0 ++ tail), s)
    end) as -> by done.
  cbn [read_groups]. rewrite read_separator_0.
  assert (∀ s, read_ipv4_addr (bs "ffff" ++ s) = None) as Hno by done. simpl (0 <? 7 - 1). cbv iota. rewrite Hno.
  rewrite read_separator_0. change (bs "ffff") with (lower_hex 0xFFFF). rewrite read_group_text by done.
  simpl (0 + 1 <? 7 - 1). cbv iota. rewrite read_separator_pos, H4 by lia.
  cbn [length replicate app]. do 2 f_equal.
  change (join_groups _) with ((65535 * 65536 + v4 / 65536) * 65536 + v4 mod 65536).
  clear H4 Hno text. unfold v4 in *. change (2 ^ 32) with 4294967296 in *. lia.
Qed.

Lemma read_ipv6_text a : a < 2 ^ 128 → read_ipv6_addr (Ipv6Addr_to_string a) = Some (a, []).
Proof.
  intros Ha. destruct (base.decide (a / 2 ^ 32 = 0xFFFF)); [by apply read_ipv6_mapped|by apply read_ipv6_groups].
Qed.

Lemma Ipv6Addr_text a : a < 2 ^ 128 → Ipv6Addr_from_str (Ipv6Addr_to_string a) = Some a.
Proof. intros Ha. unfold Ipv6Addr_from_str, parse_all. by rewrite read_ipv6_text. Qed.

Lemma to_decimal_foreign c x : to_digit 10 c = None → c ∉ to_decimal x.
Proof.
  intros Hc. unfold to_decimal. intros (d & E & Hd)%list_elem_of_fmap.
  assert (Forall (λ d, d < 10) (digits_rev 39 10 x)) as Hf.
  { generalize 39%nat x. intros n. induction n as [|n IH]; intros y; [constructor|]. cbn [digits_rev].
    constructor; [lia|]. by destruct (y <? 10). }
  apply list_elem_of_In, in_rev, list_elem_of_In in Hd. rewrite Forall_forall in Hf. apply Hf in Hd.
  pose proof (to_digit_hex 10 d Hd ltac:(lia)) as H. rewrite <- E in H. congruence.
Qed.

Lemma Ipv6Addr_text_slash a : "/"%byte ∉ Ipv6Addr_to_string a.
Proof.
  assert (foreign "/"%byte) as Hf by done. assert (to_digit 10 "/"%byte = None) as Hd by done.
  unfold Ipv6Addr_to_string. destruct (_ =? _).
  - unfold Ipv4Addr_to_string. rewrite !elem_of_app. pose proof (λ x, to_decimal_foreign "/"%byte x Hd) as Hx.
    assert ("/"%byte ∉ bs "." ∧ "/"%byte ∉ bs "::ffff:") as [H1 H2] by (split; refine (bool_decide_unpack _ _); by vm_compute).
    naive_solver.
  - destruct (longest_zeros _ _ _ _) as [start n]. destruct (1 <? n); [|by apply fmt_subslice_foreign].
    rewrite !elem_of_app. pose proof (λ gs, fmt_subslice_foreign "/"%byte gs Hf) as Hx.
    assert ("/"%byte ∉ bs "::") by (refine (bool_decide_unpack _ _); by vm_compute). naive_solver.
Qed.

(** ** Networks as text *)

Lemma split_once_text c a b : c ∉ a → split_once_byte c (a ++ c :: b) = Some (a, b).
Proof.
  induction a as [|x a IH]; intros Hc; simpl.
  - by rewrite bool_decide_eq_true_2.
  - apply not_elem_of_cons in Hc as [Hx Hc]. rewrite bool_decide_eq_false_2 by done. by rewrite IH.
Qed.

Lemma mask_texts_ok : forallb (λ n, bool_decide (u32_from_str (to_decimal (N.of_nat n)) = Some (N.of_nat n))) (seq 0 256) = true.
Proof. by vm_compute. Qed.

Lemma u32_mask_text m : m < 256 → u32_from_str (to_decimal m) = Some m.
Proof.
  intros Hm. pose proof mask_texts_ok as H. rewrite forallb_forall in H. specialize (H (N.to_nat m)).
  rewrite N2Nat.id in H. apply bool_decide_eq_true in H; [done|]. apply in_seq. lia.
Qed.

Definition network_text (p m : N) : bytes := Ipv6Addr_to_string p ++ bs "/" ++ to_decimal m.

Lemma network_text_valid p m :
  p < 2 ^ 128 → 0 < m < 128 → m mod 4 = 0 → N.land p (mask_bits m) = p → valid_network (network_text p m) p m.
Proof.
  intros Hp Hm H4 Hl. exists (Ipv6Addr_to_string p), (to_decimal m).
  split; [apply split_once_text, Ipv6Addr_text_slash|]. split; [by apply Ipv6Addr_text|].
  split; [apply u32_mask_text; lia|]. done.
Qed.

(** ** Properties *)

(** C39.  The suggestion in the message for a network with host bits set is right:
    if a network directive is rejected that way, then a directive with the
    suggested text is accepted, and denotes the network of the address that was
    written, with the prefix length that was written. *)
Theorem network_hint_accepted (v v' : RawValue) (es es' : list ConfigError) (hint : bytes) :
  compile_network v es = (None, es ++ [error v (NetworkHostBitsSet hint)]) → raw_value v' = hint →
  ∃ addr_part mask_part addr m,
    split_once_byte "/" (raw_value v) = Some (addr_part, mask_part) ∧
    Ipv6Addr_from_str addr_part = Some addr ∧ u32_from_str mask_part = Some m ∧
    compile_network v' es' = (Some (N.land addr (mask_bits m), m), es').
Proof.
  intros Hc Hv. assert (∀ e, (None, es ++ [e]) = (None, es ++ [error v (NetworkHostBitsSet hint)]) :> option (N * N) * _ →
    kind e = NetworkHostBitsSet hint) as Hk.
  { intros e [= E]. apply app_inv_head in E. by injection E as ->. }
  unfold compile_network in Hc.
  destruct (split_once_byte _ _) as [[ap mp]|]; [|by apply Hk in Hc].
  destruct (Ipv6Addr_from_str ap) as [addr|] eqn:Ea; [|by apply Hk in Hc].
  destruct (u32_from_str mp) as [n|] eqn:En; [|by apply Hk in Hc].
  destruct (N.ltb_spec 128 n) as [|Hn]; [by apply Hk in Hc|].
  assert ((if n <=? u8_MAX then n else 128) = n) as E.
  { unfold u8_MAX. change (N.ones 8) with 255. by rewrite (proj2 (N.leb_le n 255)) by lia. }
  rewrite E in Hc. unfold is_multiple_of in Hc. simpl in Hc.
  destruct (N.eqb_spec (n mod 4) 0) as [H4|]; simpl in Hc; [|by apply Hk in Hc].
  destruct (N.eqb_spec n 0) as [|H0]; [by apply Hk in Hc|].
  destruct (N.eqb_spec n 128) as [|H128]; [by apply Hk in Hc|].
  destruct (negb _); [|done]. apply Hk in Hc. simpl in Hc. injection Hc as Hh. rewrite <- Hv in Hh.
  exists ap, mp, addr, n. do 3 (split; [done|]). apply Ipv6Addr_from_str_bound in Ea.
  assert (N.land (N.land addr (mask_bits n)) (mask_bits n) = N.land addr (mask_bits n)) as Hidem
    by (by rewrite <- N.land_assoc, N.land_diag).
  assert (valid_network (raw_value v') (N.land addr (mask_bits n)) n) as Hvalid.
  { rewrite <- Hh. apply network_text_valid; [|lia|done|done].
    apply lt_pow2_bits. intros i Hi. by rewrite N.land_spec, (bits_above addr 128 i Ea Hi). }
  destruct (yields_run _ _ _ es' (compile_network_yields v')) as [([p m] & H & ->)|(e & [_ H] & _)].
  - by rewrite (valid_network_unique _ _ _ _ _ H Hvalid).
  - by apply H in Hvalid.
Qed.

(** ** Instances *)

Lemma network_hint_accepted_witness :
  let v := sample_value (bs "2001:DB8:0:0::1/64") in
  let v' := sample_value (bs "2001:db8::/64") in
  compile_network v [] = (None, [] ++ [error v (NetworkHostBitsSet (bs "2001:db8::/64"))]) ∧
  ∃ addr_part mask_part addr m,
    split_once_byte "/" (raw_value v) = Some (addr_part, mask_part) ∧
    Ipv6Addr_from_str addr_part = Some addr ∧ u32_from_str mask_part = Some m ∧
    compile_network v' [] = (Some (N.land addr (mask_bits m), m), []).
Proof.
  cbv zeta. assert (compile_network (sample_value (bs "2001:DB8:0:0::1/64")) [] = (None, [] ++
    [error (sample_value (bs "2001:DB8:0:0::1/64")) (NetworkHostBitsSet (bs "2001:db8::/64"))])) as H by vm_refl.
  split; [exact H|].
  apply (network_hint_accepted _ (sample_value (bs "2001:db8::/64")) [] [] _ H). done.
Defined.
