(* ===== verification/Display.v ===== *)
(** * How diagnostics are shown

    The caret line of a rendered diagnostic marks exactly the span of the line
    above it, whatever tabs and line numbers stand before it. *)

From S2P Require Import Prelude RustText RustNet ConfigError Dns Nibble Config ConfigSpec Parse ParseSpec Compile Sample CompileSpec.

(** The column behind a text, one per character, on a terminal with tab stops
    every eight columns: continuation bytes of UTF-8 take no room. *)
Definition advance (col : N) (b : byte) : N :=
  if bool_decide (b = "009"%byte) then (col / 8 + 1) * 8
  else if in_range 128 191 b then col else col + 1.

Definition column (s : bytes) : N := foldl advance 0 s.

(** ASCII without tabs. *)
Definition plain_byte (b : byte) : Prop := b ≠ "009"%byte ∧ is_ascii b = true.

Lemma advance_plain col b : plain_byte b → advance col b = col + 1.
Proof.
  intros [Ht Ha]. unfold advance. rewrite bool_decide_eq_false_2 by done.
  unfold is_ascii, in_range in *. apply N.leb_le in Ha. by rewrite (proj2 (N.leb_gt 128 _)) by lia.
Qed.

Lemma column_plain col s : Forall plain_byte s → foldl advance col s = col + len s.
Proof.
  intros Hs. revert col. induction Hs as [|b s Hb _ IH]; intros col; cbn [foldl]; [rewrite len_nil; lia|].
  rewrite IH, len_cons, advance_plain by done. lia.
Qed.

(** Tabs are kept, every other byte becomes a space. *)
Definition mirror (s : bytes) : bytes :=
  (λ b, if bool_decide (b = "009"%byte) then "009"%byte else " "%byte) <$> s.

(** The padding takes the same columns as the ASCII text it stands under. *)
Lemma column_mirror col s :
  Forall (λ b, is_ascii b = true) s → foldl advance col (mirror s) = foldl advance col s.
Proof.
  intros Hs. revert col. induction Hs as [|b s Hb _ IH]; intros col; [done|].
  unfold mirror. rewrite fmap_cons. cbn [foldl]. fold (mirror s). rewrite IH. f_equal.
  case_bool_decide as Ht; [by subst|]. by rewrite !advance_plain by done.
Qed.

Lemma hex_digit_no_tab v : hex_digit v ≠ "009"%byte.
Proof.
  unfold hex_digit. set (n := if v <? 10 then 48 + v else 87 + v).
  assert (48 <= n) as Hn by (unfold n; destruct (v <? 10); lia).
  destruct (Byte.of_N n) as [b|] eqn:E; [|done]. apply Byte.to_of_N in E. intros ->. simpl in E. lia.
Qed.

Lemma digits_rev_lt fuel x v : v ∈ digits_rev fuel 10 x → v < 10.
Proof.
  revert x. induction fuel as [|fuel IH]; intros x; cbn [digits_rev]; [by intros ?%not_elem_of_nil|].
  intros [-> |Hv]%elem_of_cons; [by apply N.mod_lt|].
  destruct (x <? 10); [by apply not_elem_of_nil in Hv|by eapply IH].
Qed.

Lemma to_decimal_plain x : Forall plain_byte (to_decimal x).
Proof.
  apply Forall_fmap, Forall_forall. intros v Hv. split; [apply hex_digit_no_tab|].
  apply hex_digit_ascii. apply list_elem_of_In, in_rev, list_elem_of_In in Hv.
  assert (v < 10); [by eapply digits_rev_lt|lia].
Qed.

Lemma repeat_byte b n : repeat_str [b] n = replicate (N.to_nat n) b.
Proof. unfold repeat_str. induction (N.to_nat n) as [|m IH]; [done|]. cbn [replicate concat app]. by rewrite IH. Qed.

(** Two prefixes without tabs and of equal length, and a text and its mirror. *)
Lemma aligned p q s :
  Forall plain_byte p → Forall plain_byte q → length p = length q → Forall (λ b, is_ascii b = true) s →
  column (p ++ s) =
  column (q ++ mirror s).
Proof.
  intros Hp Hq Hl Hs. unfold column. rewrite !foldl_app, column_mirror, (column_plain 0 p), (column_plain 0 q) by done.
  unfold len. by rewrite Hl.
Qed.

(** The parts of a rendered diagnostic with a span. *)
Lemma render_error_parts path i e a b :
  span e = Some (a, b) → a <= b → b <= len (snippet e) →
  ∃ before head marked tail hint,
    snippet e = head ++ marked ++ tail ∧ len head = a ∧ len marked = b - a ∧
    render_error path i e =
      before ++ ((to_decimal (line e) ++ bs " | ") ++ head ++ marked ++ tail) ++ newline ++
      (((replicate (length (to_decimal (line e))) " "%byte ++ bs " | ") ++ mirror head) ++
       replicate (Nat.max (length marked) 1) "^"%byte ++ hint) ++ newline.
Proof.
  intros Hs Hab Hb. set (head := take (N.to_nat a) (snippet e)).
  set (rest := drop (N.to_nat a) (snippet e)).
  assert (snippet e = head ++ take (N.to_nat (b - a)) rest ++ drop (N.to_nat (b - a)) rest) as E
    by (unfold head, rest; by rewrite !take_drop).
  assert (len head = a) as Hh by (unfold head, len in *; rewrite length_take; lia).
  assert (len (take (N.to_nat (b - a)) rest) = b - a) as Hm
    by (unfold rest, len in *; rewrite length_take, length_drop; lia).
  set (gutter := repeat_str (bs " ") (len (to_decimal (line e)))).
  assert (gutter = replicate (length (to_decimal (line e))) " "%byte) as Hg.
  { unfold gutter. change (bs " ") with [" "%byte]. rewrite repeat_byte. unfold len. by rewrite Nat2N.id. }
  exists ((if 0 <? i then newline else []) ++ writeln [bs "error: "; message (kind e)] ++
    writeln [gutter; bs "--> "; path; bs ":"; to_decimal (line e)] ++ writeln [gutter; bs " |"]), head,
    (take (N.to_nat (b - a)) rest), (drop (N.to_nat (b - a)) rest),
    (match hint (kind e) with Some h => bs " " ++ h | None => [] end).
  split; [done|]. split; [done|]. split; [done|]. rewrite <- E, <- Hg.
  unfold render_error, caret_pad. rewrite Hs. fold gutter head (mirror head).
  change (bs "^") with ["^"%byte]. rewrite repeat_byte.
  replace (N.to_nat (N.max (b - a) 1)) with (Nat.max (length (take (N.to_nat (b - a)) rest)) 1)
    by (unfold len in Hm; lia).
  unfold writeln. cbn [concat]. rewrite !app_nil_r. destruct (hint (kind e)); by rewrite <- ?app_assoc, ?app_nil_l.
Qed.

(** ** Properties *)

(** C36.  Every diagnostic points at the right place on the screen: when a file of
    ASCII lines is rejected, the text shown for each error has the line it is
    about, and below it a row of carets that begins in the column where the marked
    text begins and is as long as it (at least one). *)
Theorem rendered_caret_under_span {D : DnsOps} {L : DnsLaws D} (input path : bytes) (errs : ConfigErrors)
    (i : N) (e : ConfigError) :
  len input <= usize_MAX → Config_parse input = Err errs → e ∈ errors errs →
  Forall (λ b, is_ascii b = true) (snippet e) →
  ∃ before source head marked tail pad hint,
    source_line (str_lines input) (line e) source ∧ source = head ++ marked ++ tail ∧
    span e = Some (len head, len head + len marked) ∧
    render_error path i e =
      before ++ ((to_decimal (line e) ++ bs " | " ++ head) ++ marked ++ tail) ++ newline ++
      (pad ++ replicate (Nat.max (length marked) 1) "^"%byte ++ hint) ++ newline ∧
    column pad = column (to_decimal (line e) ++ bs " | " ++ head).
Proof.
  intros Hl Hp He Ha. destruct (Config_parse_located input errs Hl Hp) as [_ Hall].
  rewrite Forall_forall in Hall. destruct (Hall e He) as (Hsrc & a & b & Hspan & Hab & Hb).
  destruct (render_error_parts path i e a b Hspan Hab Hb)
    as (before & head & marked & tail & hint & E & Hh & Hm & Er).
  exists before, (snippet e), head, marked, tail,
    ((replicate (length (to_decimal (line e))) " "%byte ++ bs " | ") ++ mirror head), hint.
  split; [done|]. split; [done|]. split; [by rewrite Hspan, Hh, Hm; do 2 f_equal; lia|].
  split; [by rewrite Er, <- !app_assoc|]. rewrite app_assoc. symmetry. apply aligned.
  - apply Forall_app. split; [apply to_decimal_plain|]. by repeat constructor.
  - apply Forall_app. split; [by apply Forall_replicate|]. by repeat constructor.
  - by rewrite !length_app, length_replicate.
  - rewrite E in Ha. by apply Forall_app in Ha as [Ha _].
Qed.

(** ** An instance *)

#[local] Existing Instance LabelName.ops.
#[local] Existing Instance LabelName.laws.

(** The second error reported for [broken_input]: the value of [ttl]. *)
Definition broken_error : ConfigError :=
  default (mkConfigError 0 [] None NotUtf8) (errors broken_errors !! 1%nat).

Lemma rendered_caret_under_span_witness :
  (line broken_error, span broken_error) = (1, Some (4, 15)) ∧
  ∃ before source head marked tail pad hint,
    source_line (str_lines broken_input) (line broken_error) source ∧ source = head ++ marked ++ tail ∧
    span broken_error = Some (len head, len head + len marked) ∧
    render_error (bs "<config>") 0 broken_error =
      before ++ ((to_decimal (line broken_error) ++ bs " | " ++ head) ++ marked ++ tail) ++ newline ++
      (pad ++ replicate (Nat.max (length marked) 1) "^"%byte ++ hint) ++ newline ∧
    column pad = column (to_decimal (line broken_error) ++ bs " | " ++ head).
Proof.
  split; [vm_refl|].
  apply (rendered_caret_under_span broken_input (bs "<config>") broken_errors 0 broken_error).
  - by vm_compute.
  - vm_refl.
  - apply (list_elem_of_lookup_2 _ 1%nat). vm_refl.
  - apply Forall_forall. intros b Hb. assert (forallb is_ascii (snippet broken_error) = true) as H by vm_refl.
    rewrite forallb_forall in H. by apply H, list_elem_of_In.
Defined.
