(* ===== verification/ZoneSpec.v ===== *)
(** * Correctness of [src/zone/]

    Forward matching is the exact inverse of synthesis, reverse matching is
    longest-prefix match, and what [resolve] answers follows from the two. *)

From S2P Require Import Prelude RustText RustNet Dns Nibble Config ConfigSpec Parse Compile Sample CompileSpec Zones.
Import Lookup Synth.

(** ** Stripping the text around the digits *)

Lemma strip_prefix_ci_Some label p rest :
  strip_prefix_ci label p = Some rest ↔ ∃ h, label = h ++ rest ∧ h ≡ci p.
Proof.
  unfold strip_prefix_ci. split.
  - destruct (split_at_checked label (len p)) as [[h t]|] eqn:E; [|done]. simpl.
    apply split_at_checked_Some in E as [-> Hl].
    destruct (eq_ignore_ascii_case h p) eqn:Ep; [|done]. intros [= ->].
    exists h. by rewrite <- eq_ignore_ascii_case_spec.
  - intros (h & -> & Hp). rewrite split_at_checked_app.
    + simpl. by rewrite (proj2 (eq_ignore_ascii_case_spec _ _) Hp).
    + unfold len. by rewrite (ci_eq_length _ _ Hp).
Qed.

Lemma strip_suffix_ci_Some label s head :
  strip_suffix_ci label s = Some head ↔ ∃ t, label = head ++ t ∧ t ≡ci s.
Proof.
  unfold strip_suffix_ci. split.
  - destruct (N.ltb_spec (len label) (len s)) as [|Hle]; [done|].
    destruct (split_at_checked label _) as [[h t]|] eqn:E; [|done]. simpl.
    apply split_at_checked_Some in E as [-> Hl].
    destruct (eq_ignore_ascii_case t s) eqn:Es; [|done]. intros [= ->].
    exists t. by rewrite <- eq_ignore_ascii_case_spec.
  - intros (t & -> & Hs). assert (len t = len s) as Hl.
    { unfold len. by rewrite (ci_eq_length _ _ Hs). }
    rewrite len_app, Hl. rewrite (proj2 (N.ltb_ge _ _)) by lia.
    rewrite split_at_checked_app by lia. simpl.
    by rewrite (proj2 (eq_ignore_ascii_case_spec _ _) Hs).
Qed.

(** ** One digits label *)

Lemma lower_cons_inv s c t :
  to_ascii_lowercase s = c :: t → ∃ b s', s = b :: s' ∧ lower_byte b = c ∧ to_ascii_lowercase s' = t.
Proof. destruct s as [|b s']; [done|]. intros [= <- <-]. by exists b, s'. Qed.

Lemma lower_dash b : lower_byte b = "-"%byte → b = "-"%byte.
Proof. all_bytes b. Qed.

(** A case variant of grouped digits groups a case variant of the digits. *)
Lemma lower_join_inv t m :
  to_ascii_lowercase m = join_dashes (chunks4 t) →
  ∃ d, to_ascii_lowercase d = t ∧ m = join_dashes (chunks4 d).
Proof.
  revert m. induction t as [t IH] using (induction_ltof1 _ length). unfold ltof in IH.
  intros m Hm. destruct (decide (length t < 4)%nat) as [Hs|Hs].
  { exists m. destruct t as [|a [|b [|c [|d t]]]]; simpl in Hs; try lia;
      simpl in Hm; (split; [done|]);
      apply (f_equal length) in Hm; rewrite length_to_ascii_lowercase in Hm;
      destruct m as [|? [|? [|? [|? ?]]]]; done. }
  destruct (length_ge_4 t) as (x & y & z & w & t' & ->); [lia|].
  rewrite join_chunks4_step in Hm. simpl app in Hm.
  apply lower_cons_inv in Hm as (x' & m1 & -> & <- & Hm).
  apply lower_cons_inv in Hm as (y' & m2 & -> & <- & Hm).
  apply lower_cons_inv in Hm as (z' & m3 & -> & <- & Hm).
  apply lower_cons_inv in Hm as (w' & m4 & -> & <- & Hm).
  case_bool_decide as Ht.
  - subst t'. destruct m4; [|done]. by exists [x'; y'; z'; w'].
  - simpl app in Hm. apply lower_cons_inv in Hm as (b & m5 & -> & ->%lower_dash & Hm).
    apply IH in Hm as (d & <- & ->); [|simpl; lia].
    exists (x' :: y' :: z' :: w' :: d). split; [done|].
    rewrite join_chunks4_step, bool_decide_eq_false_2; [done|]. by intros ->.
Qed.

(** The digits of a label decode to [h] exactly when they are a case variant of
    what synthesis writes for [h]. *)
Lemma match_digits_Some hn dashed m h :
  hn ≠ 0 → hn <= 32 → (dashed = true → hn mod 4 = 0) →
  match_digits hn dashed m = Some h ↔
  h < 16 ^ hn ∧ to_ascii_lowercase m = digit_text dashed (host_text (N.to_nat hn) h).
Proof.
  intros H0 Hn Hd. unfold match_digits, digit_text. destruct dashed.
  - specialize (Hd eq_refl). rewrite dash_group_join by apply host_text_ascii. split.
    + destruct (undash_group m hn) as [d|] eqn:E; [|done]. simpl.
      apply undash_group_Some in E as (_ & _ & ->).
      rewrite digits_to_host_Some, lower_join_chunks by done. by intros (_ & ? & ->).
    + intros [Hh Hm]. apply lower_join_inv in Hm as (d & Hd' & ->).
      assert (len d = hn) as Hl.
      { unfold len. rewrite <- (length_to_ascii_lowercase d), Hd', length_host_text. lia. }
      rewrite (proj2 (undash_group_Some _ hn d)); [simpl|split; [lia|]; split; [lia|done]].
      by rewrite digits_to_host_Some.
  - rewrite digits_to_host_Some by done. split; [tauto|]. intros [Hh Hm].
    split; [|done]. unfold len.
    rewrite <- (length_to_ascii_lowercase m), Hm, length_host_text. lia.
Qed.

Lemma digit_text_lower hn dashed h :
  to_ascii_lowercase (digit_text dashed (host_text hn h)) = digit_text dashed (host_text hn h).
Proof.
  unfold digit_text. destruct dashed; [|apply host_text_lower].
  rewrite dash_group_join by apply host_text_ascii.
  by rewrite lower_join_chunks, host_text_lower.
Qed.

(** A digits label matches exactly the case variants of its rendering. *)
Lemma match_digits_label hn pre post dashed label h :
  hn ≠ 0 → hn <= 32 → (dashed = true → hn mod 4 = 0) →
  (rest ← strip_prefix_ci label (to_ascii_lowercase pre);
   middle ← strip_suffix_ci rest (to_ascii_lowercase post);
   match_digits hn dashed middle) = Some h ↔
  h < 16 ^ hn ∧
  label ≡ci pre ++ digit_text dashed (host_text (N.to_nat hn) h) ++ post.
Proof.
  intros H0 Hn Hd. set (T := digit_text dashed (host_text (N.to_nat hn) h)).
  assert (to_ascii_lowercase T = T) as HT by apply digit_text_lower. split.
  - destruct (strip_prefix_ci _ _) as [rest|] eqn:Ep; [|done]. simpl.
    destruct (strip_suffix_ci _ _) as [m|] eqn:Es; [|done]. simpl.
    apply strip_prefix_ci_Some in Ep as (p & -> & Hp).
    apply strip_suffix_ci_Some in Es as (s & -> & Hs).
    rewrite match_digits_Some by done. intros [Hh Hm]. split; [done|].
    rewrite Hp, Hs, !ci_eq_lower. unfold ci_eq at 1.
    by rewrite !to_ascii_lowercase_app, Hm, HT.
  - intros [Hh Hl]. pose proof (ci_eq_length _ _ Hl) as Hlen.
    rewrite !length_app in Hlen.
    rewrite <- (take_drop (length pre) label) in Hl.
    apply ci_eq_app_inv in Hl as [Hp Hl]; [|rewrite length_take; lia].
    rewrite (proj2 (strip_prefix_ci_Some label _ (drop (length pre) label))).
    2:{ exists (take (length pre) label). by rewrite take_drop, ci_eq_lower. }
    simpl. set (rest := drop (length pre) label) in *.
    assert (length rest = (length T + length post)%nat) as Hr
      by (unfold rest; rewrite length_drop; lia).
    rewrite <- (take_drop (length T) rest) in Hl.
    apply ci_eq_app_inv in Hl as [Hm Hs]; [|rewrite length_take; lia].
    rewrite (proj2 (strip_suffix_ci_Some rest _ (take (length T) rest))).
    2:{ exists (drop (length T) rest). by rewrite take_drop, ci_eq_lower. }
    simpl. apply match_digits_Some; [done..|]. split; [done|].
    unfold ci_eq in Hm. by rewrite Hm.
Qed.

(** ** All labels of a template *)

Lemma match_labels_app hn l1 l2 t1 t2 host :
  length l1 = length t1 →
  match_labels hn (l1 ++ l2) (t1 ++ t2) host =
  (r ← match_labels hn l1 t1 host; match_labels hn l2 t2 r).
Proof.
  revert t1 host. induction l1 as [|l l1 IH]; intros [|t t1] host Hl; try done.
  injection Hl as Hl. simpl. destruct t.
  - destruct (eq_ignore_ascii_case _ _); [|done]. simpl. by apply IH.
  - destruct (strip_prefix_ci _ _) as [rest|]; [|done]. simpl.
    destruct (strip_suffix_ci _ _) as [m|]; [|done]. simpl.
    destruct (match_digits _ _ _); [|done]. simpl. by apply IH.
Qed.

(** Labels behind the end of the template are not looked at. *)
Lemma match_labels_extra hn ls extra ts host :
  length ls = length ts →
  match_labels hn (ls ++ extra) ts host = match_labels hn ls ts host.
Proof.
  intros Hl. rewrite <- (app_nil_r ts) at 1. rewrite match_labels_app by done.
  destruct (match_labels hn ls ts host); [|done]. by destruct extra.
Qed.

Lemma match_labels_literals hn ls ts host r d :
  Forall (λ l, is_literal l = true) ts → Forall label_wf ts → length ls = length ts →
  match_labels hn ls ts host = Some r ↔
  r = host ∧ labels_ci ls (render_label d <$> ts).
Proof.
  intros Hlit. revert ls. induction Hlit as [|t ts Ht _ IH]; intros [|l ls] Hwf Hl; try done.
  - simpl. split; [by intros [= ->]|]. by intros [-> _].
  - destruct t as [v lo|]; [|done]. apply Forall_cons in Hwf as [-> Hwf].
    injection Hl as Hl. simpl.
    assert (l ≡ci to_ascii_lowercase v ↔ l ≡ci v) as Hv by by rewrite ci_eq_lower.
    destruct (eq_ignore_ascii_case _ _) eqn:E; simpl.
    + apply eq_ignore_ascii_case_spec, Hv in E. rewrite IH by done.
      unfold labels_ci. rewrite Forall2_cons. tauto.
    + split; [done|]. intros [_ H]. apply Forall2_cons in H as [H _].
      by apply Hv, eq_ignore_ascii_case_spec in H; rewrite E in H.
Qed.

Lemma render_literals d d' ts :
  Forall (λ l, is_literal l = true) ts → render_label d <$> ts = render_label d' <$> ts.
Proof.
  intros H. apply Forall_fmap_ext_1. eapply Forall_impl; [exact H|].
  by intros [] ?.
Qed.

(** From the digits label on. *)
Lemma match_digits_cons hn pre post dashed l ls aft host r :
  hn ≠ 0 → hn <= 32 → (dashed = true → hn mod 4 = 0) →
  Forall (λ l, is_literal l = true) aft → Forall label_wf aft → length ls = length aft →
  match_labels hn (l :: ls)
    (Digits pre (to_ascii_lowercase pre) post (to_ascii_lowercase post) dashed :: aft) host
    = Some r ↔
  ∃ h, r = Some h ∧ h < 16 ^ hn ∧
       l ≡ci pre ++ digit_text dashed (host_text (N.to_nat hn) h) ++ post ∧
       labels_ci ls (render_label (host_text (N.to_nat hn) h) <$> aft).
Proof.
  intros H0 Hn Hd Ha Hwa Hl. pose proof (match_digits_label hn pre post dashed l) as Hm.
  cbn [match_labels].
  destruct (strip_prefix_ci _ _) as [rest|]; cbn [mbind option_bind] in *.
  2:{ split; [done|]. intros (h & _ & Hh & Hl' & _).
      discriminate (proj2 (Hm h H0 Hn Hd) (conj Hh Hl')). }
  destruct (strip_suffix_ci _ _) as [m|]; cbn [mbind option_bind] in *.
  2:{ split; [done|]. intros (h & _ & Hh & Hl' & _).
      discriminate (proj2 (Hm h H0 Hn Hd) (conj Hh Hl')). }
  destruct (match_digits _ _ _) as [h|]; cbn [mbind option_bind] in *.
  2:{ split; [done|]. intros (h & _ & Hh & Hl' & _).
      discriminate (proj2 (Hm h H0 Hn Hd) (conj Hh Hl')). }
  rewrite (match_labels_literals hn ls aft (Some h) r (host_text (N.to_nat hn) h)) by done.
  destruct (proj1 (Hm h H0 Hn Hd) eq_refl) as [Hh Hlab]. split.
  - intros [-> H]. by exists h.
  - intros (h' & -> & Hh' & Hlab' & H').
    pose proof (proj2 (Hm h' H0 Hn Hd) (conj Hh' Hlab')). by simplify_eq.
Qed.

(** A template matches exactly the case variants of its renderings. *)
Lemma match_template_Some hn t ls r :
  template_wf hn t → hn ≠ 0 → hn <= 32 → length ls = length (fwd_labels t) →
  match_labels hn ls (fwd_labels t) None = Some r ↔
  ∃ h, r = Some h ∧ h < 16 ^ hn ∧
       labels_ci ls (render_label (host_text (N.to_nat hn) h) <$> fwd_labels t).
Proof.
  intros Ht H0 Hn Hl. pose proof (twf_labels _ _ Ht) as Hwf.
  destruct (twf_digits _ _ Ht) as (bef & pre & prl & post & pol & dashed & aft & E & Hb & Ha & _ & Hd).
  rewrite E in *. rewrite Forall_app, Forall_cons in Hwf. destruct Hwf as (Hwb & [-> ->] & Hwa).
  destruct (app_length_inv ls bef (Digits pre _ post _ dashed) aft Hl) as (l1 & l & l2 & -> & Hl1 & Hl2).
  rewrite match_labels_app by done. setoid_rewrite fmap_app. setoid_rewrite fmap_cons.
  split.
  - destruct (match_labels hn l1 bef None) as [r1|] eqn:E1; [|done]. cbn [mbind option_bind].
    destruct (proj1 (match_labels_literals hn l1 bef None r1 [] Hb Hwb Hl1) E1) as [-> H1].
    rewrite match_digits_cons by done. intros (h & -> & Hh & Hlab & H2).
    exists h. split; [done|]. split; [done|]. rewrite (render_literals _ [] bef) by done.
    apply Forall2_app; [done|]. by constructor.
  - intros (h & -> & Hh & H). apply Forall2_app_inv in H as [H1 H2]; [|by rewrite length_fmap].
    apply Forall2_cons in H2 as [Hlab H2].
    rewrite (proj2 (match_labels_literals hn l1 bef None None _ Hb Hwb Hl1) (conj eq_refl H1)).
    cbn [mbind option_bind]. apply match_digits_cons; [done..|]. by exists h.
Qed.

(** ** One zone *)

(** The first label of the template is not the bare wildcard label. *)
Definition wildcard_free (t : FwdTemplate) : Prop :=
  match fwd_labels t with
  | Literal verbatim _ :: _ => verbatim ≠ bs "*"
  | _ => True
  end.

Definition wildcard_free_b (t : FwdTemplate) : bool :=
  match fwd_labels t with
  | Literal verbatim _ :: _ => bool_decide (verbatim ≠ bs "*")
  | _ => true
  end.

Lemma wildcard_free_spec t : wildcard_free_b t = true → wildcard_free t.
Proof.
  unfold wildcard_free, wildcard_free_b. destruct (fwd_labels t) as [|[] ?]; try done.
  by rewrite bool_decide_eq_true.
Qed.

(** The label count of a name leaves out a leading [*], that of a template does
    not: the labels a name must have behind those of the template. *)
Definition spare_labels (t : FwdTemplate) : nat :=
  if wildcard_free_b t then 0 else 1.

Lemma spare_free t : wildcard_free t → spare_labels t = 0%nat.
Proof.
  unfold wildcard_free, spare_labels, wildcard_free_b. destruct (fwd_labels t) as [|[] ?]; try done.
  intros H. by rewrite bool_decide_eq_true_2.
Qed.

Lemma wildcard_head t : ¬ wildcard_free t → ∃ lo ts, fwd_labels t = Literal (bs "*") lo :: ts.
Proof.
  unfold wildcard_free. destruct (fwd_labels t) as [|[v lo|] ts]; intros H; [by destruct H| |by destruct H].
  destruct (base.decide (v = bs "*")) as [->|]; [by exists lo, ts|done].
Qed.

Lemma wildcard_free_dec t : Decision (wildcard_free t).
Proof. unfold wildcard_free. destruct (fwd_labels t) as [|[] ?]; apply _. Defined.
#[export] Existing Instance wildcard_free_dec.

Lemma spare_wildcard t : ¬ wildcard_free t → spare_labels t = 1%nat.
Proof.
  intros (lo & ts & E)%wildcard_head. unfold spare_labels, wildcard_free_b. by rewrite E.
Qed.

Lemma star_ci l : bs "*" ≡ci l → l = bs "*".
Proof.
  unfold ci_eq. destruct l as [|c [|? ?]]; try done. intros [= Hc]. f_equal.
  revert Hc. all_bytes c.
Qed.

Lemma digit_text_head dashed n h :
  ∃ c s, digit_text dashed (host_text (S n) h) = c :: s ∧ hex_val c ≠ None.
Proof.
  pose proof (length_host_text (S n) h) as Hl.
  assert (Forall (λ c, hex_val c ≠ None) (host_text (S n) h)) as Hx.
  { unfold host_text. apply Forall_fmap, Forall_rev.
    eapply Forall_impl; [apply nibbles_lt|]. intros v Hv. simpl. by rewrite hex_val_digit. }
  assert (ascii_text (host_text (S n) h)) as Ha by apply host_text_ascii.
  destruct (host_text (S n) h) as [|c s]; [done|]. apply Forall_cons in Hx as [Hc _].
  unfold digit_text. destruct dashed; [|by eauto]. rewrite dash_group_join by done.
  destruct s as [|x [|y [|z s]]]; try (eexists _, _; split; [done|exact Hc]).
  rewrite join_chunks4_step. eexists _, _. split; [done|exact Hc].
Qed.

Lemma digits_label_not_star pre d n h post :
  n ≠ 0 → pre ++ digit_text d (host_text (N.to_nat n) h) ++ post ≠ bs "*".
Proof.
  intros Hn Hs. replace (N.to_nat n) with (S (pred (N.to_nat n))) in Hs by lia.
  destruct (digit_text_head d (pred (N.to_nat n)) h) as (c & s & Hc & Hx). rewrite Hc in Hs.
  destruct pre as [|b [|? ?]]; [|done..]. by injection Hs as -> _.
Qed.

(** No rendering of a wildcard-free template starts with the wildcard label. *)
Lemma render_not_star hn h t ls :
  wildcard_free t → hn ≠ 0 →
  render_label (host_text (N.to_nat hn) h) <$> fwd_labels t ≠ bs "*" :: ls.
Proof.
  unfold wildcard_free. intros Hw Hn.
  destruct (fwd_labels t) as [|[v lo|pre prl post pol d] ts]; [done|by intros [= -> _]|].
  rewrite fmap_cons. intros [= Hs _]. by apply (digits_label_not_star pre d hn h post Hn).
Qed.

Lemma label_count_of_render hn h t :
  wildcard_free t → hn ≠ 0 →
  label_count_of (render_label (host_text (N.to_nat hn) h) <$> fwd_labels t) = label_count t.
Proof.
  intros Hw Hn. unfold label_count, len. rewrite <- (length_fmap (render_label (host_text (N.to_nat hn) h))).
  destruct (_ <$> _) as [|l ls] eqn:E; [done|]. simpl.
  rewrite bool_decide_eq_false_2; [done|]. intros ->. by apply render_not_star in E.
Qed.

(** Nor does such a template match a name that does. *)
Lemma match_labels_star hn t ls :
  template_wf hn t → wildcard_free t → hn ≠ 0 → hn <= 32 →
  match_labels hn (bs "*" :: ls) (fwd_labels t) None = None.
Proof.
  intros Ht Hw H0 Hn. pose proof (twf_labels _ _ Ht) as Hwf. unfold wildcard_free in Hw.
  destruct (twf_digits _ _ Ht) as (bef & pre & prl & post & pol & d & aft & E & Hb & _ & _ & Hd).
  rewrite E in *. destruct bef as [|[v lo|] bef]; simpl in *.
  - apply Forall_cons in Hwf as [[-> ->] _].
    pose proof (match_digits_label hn pre post d (bs "*")) as Hm.
    destruct (strip_prefix_ci _ _) as [rest|]; [|done]. cbn [mbind option_bind] in *.
    destruct (strip_suffix_ci _ _) as [m|]; [|done]. cbn [mbind option_bind] in *.
    destruct (match_digits _ _ _) as [h|]; [|done].
    destruct (proj1 (Hm h H0 Hn Hd) eq_refl) as [_ Hs%star_ci].
    by apply digits_label_not_star in Hs.
  - apply Forall_cons in Hwf as [-> _].
    destruct (eq_ignore_ascii_case _ _) eqn:Es; [|done].
    apply eq_ignore_ascii_case_spec in Es. rewrite ci_eq_lower in Es.
    by apply star_ci in Es.
  - apply Forall_cons in Hb as [? _]. done.
Qed.

Section OneZone.
Context {D : DnsOps} {L : DnsLaws D}.

(** The name synthesized for an address of a valid zone. *)
Lemma forward_name_labels z a :
  zone_wf z →
  ∃ n, forward_name z a = Some n ∧ is_fqdn n = true ∧
       labels n = render_label (host_text (N.to_nat (host_nibbles z)) a) <$> fwd_labels (fwd z).
Proof.
  intros Hz. destruct (zwf_host_range z Hz) as [Hh _].
  unfold forward_name. rewrite host_digits_text by lia. cbn [mbind option_bind].
  destruct (render_Ok (host_nibbles z) (fwd z) (host_text (N.to_nat (host_nibbles z)) a))
    as (n & -> & Hl & Hf); [apply Hz|apply host_text_ascii| |by exists n].
  unfold len. rewrite length_host_text. lia.
Qed.

(** The labels of the host name for the host part [h]. *)
Definition rendered (z : Zone) (h : N) : list bytes :=
  render_label (host_text (N.to_nat (host_nibbles z)) h) <$> fwd_labels (fwd z).

Lemma length_rendered z h : length (rendered z h) = length (fwd_labels (fwd z)).
Proof. apply length_fmap. Qed.

(** With as many labels as the template, and as the count requires. *)
Lemma match_zone_forward_count z q a ls extra :
  zone_wf z → labels q = ls ++ extra → length ls = length (fwd_labels (fwd z)) →
  label_count_of (labels q) = label_count (fwd z) →
  match_zone_forward z q = Some a ↔
  ∃ h, a = N.lor (prefix z) h ∧ h < 16 ^ host_nibbles z ∧ labels_ci ls (rendered z h).
Proof.
  intros Hz Hq Hl Hc. destruct (zwf_host_range z Hz) as [Hh _].
  unfold match_zone_forward. rewrite num_labels_spec, Hc, N.eqb_refl. cbn [negb].
  rewrite Hq, match_labels_extra by done. split.
  - destruct (match_labels _ _ _ _) as [host|] eqn:E; [|done]. cbn [mbind option_bind].
    apply (match_template_Some _ _ _ _ (zwf_fwd z Hz)) in E as (h & -> & Hhlt & Hci); [|lia..|done].
    intros [= <-]. by exists h.
  - intros (h & -> & Hhlt & Hci).
    rewrite (proj2 (match_template_Some _ _ _ (Some h) (zwf_fwd z Hz) ltac:(lia) ltac:(lia) Hl)); [done|].
    by exists h.
Qed.

Lemma match_zone_forward_uncounted z q a :
  label_count_of (labels q) ≠ label_count (fwd z) → match_zone_forward z q ≠ Some a.
Proof.
  intros Hn. unfold match_zone_forward. rewrite num_labels_spec. by rewrite (proj2 (N.eqb_neq _ _) Hn).
Qed.

(** The counts agree exactly for the names with the spare labels. *)
Lemma counted_labels z ls :
  zone_wf z → label_count_of ls = label_count (fwd z) →
  length ls = (length (fwd_labels (fwd z)) + spare_labels (fwd z))%nat ∨
  length ls = length (fwd_labels (fwd z)) ∧ hd [] ls ≠ bs "*" ∧ ¬ wildcard_free (fwd z) ∨
  hd [] ls = bs "*" ∧ wildcard_free (fwd z).
Proof.
  intros Hz. unfold label_count, len. destruct ls as [|l ls]; simpl.
  - intros H. assert (length (fwd_labels (fwd z)) = 0%nat) as H0 by lia.
    apply nil_length_inv in H0. destruct (twf_digits _ _ (zwf_fwd z Hz)) as (bef & ? & ? & ? & ? & ? & ? & E & _).
    rewrite E in H0. by destruct bef.
  - intros Hc. destruct (base.decide (wildcard_free (fwd z))) as [Hw|Hw];
      [rewrite spare_free by done|rewrite spare_wildcard by done]; case_bool_decide as Hs;
      [by auto|left; unfold len in Hc; cbn [length] in *; lia|left; unfold len in Hc; cbn [length] in *; lia|].
    right; left. split; [unfold len in Hc; cbn [length] in *; lia|done].
Qed.

Lemma match_zone_forward_Some z q a :
  zone_wf z →
  match_zone_forward z q = Some a ↔
  ∃ h extra, a = N.lor (prefix z) h ∧ h < 16 ^ host_nibbles z ∧
       length extra = spare_labels (fwd z) ∧ labels_ci (labels q) (rendered z h ++ extra).
Proof.
  intros Hz. destruct (zwf_host_range z Hz) as [Hh _].
  assert (host_nibbles z ≠ 0 ∧ host_nibbles z <= 32) as [H0 Hn] by lia. split.
  - intros Hm. destruct (N.eq_dec (label_count_of (labels q)) (label_count (fwd z))) as [Hc|Hc];
      [|by apply match_zone_forward_uncounted in Hm].
    destruct (counted_labels z (labels q) Hz Hc) as [Hl|[(Hl & Hs & Hw)|[Hs Hw]]].
    + pose proof (take_drop (length (fwd_labels (fwd z))) (labels q)) as Hq. symmetry in Hq.
      apply (match_zone_forward_count z q a _ _ Hz Hq) in Hm as (h & -> & Hlt & Hci); [|rewrite length_take; lia|done].
      exists h, (drop (length (fwd_labels (fwd z))) (labels q)). do 2 (split; [done|]).
      split; [rewrite length_drop; lia|]. rewrite Hq at 1. by apply Forall2_app.
    + apply (match_zone_forward_count z q a (labels q) [] Hz) in Hm as (h & _ & _ & Hci);
        [|by rewrite app_nil_r|done..].
      apply wildcard_head in Hw as (lo & ts & E). unfold rendered in Hci. rewrite E, fmap_cons in Hci.
      apply Forall2_cons_inv_r in Hci as (l & ls & Hl' & _ & Eq). rewrite Eq in Hs. simpl in Hs, Hl'.
      symmetry in Hl'. by apply star_ci in Hl'.
    + unfold match_zone_forward in Hm. destruct (negb _); [done|].
      destruct (labels q) as [|l ls] eqn:Eq; [done|]. simpl in Hs. subst l.
      by rewrite match_labels_star in Hm by (done || apply Hz).
  - intros (h & extra & -> & Hlt & Hl & Hci).
    assert (label_count_of (labels q) = label_count (fwd z)) as Hc.
    { rewrite (label_count_of_ci _ _ Hci). destruct (base.decide (wildcard_free (fwd z))) as [Hw|Hw].
      - rewrite spare_free in Hl by done. destruct extra; [|done]. rewrite app_nil_r.
        by apply label_count_of_render.
      - rewrite spare_wildcard in Hl by done. apply wildcard_head in Hw as (lo & ts & E).
        unfold rendered, label_count. rewrite E. simpl. rewrite len_app, !len_cons. unfold len.
        rewrite length_fmap, Hl. lia. }
    apply Forall2_app_inv_r in Hci as (ls & extra' & Hci & _ & Hq).
    apply (match_zone_forward_count z q _ ls extra' Hz Hq); [|done|by exists h].
    apply labels_ci_length in Hci. by rewrite length_rendered in Hci.
Qed.
End OneZone.

(** ** Zones and configurations *)

Section Zones.
Context {D : DnsOps} {L : DnsLaws D}.

(** The host part of an address of a zone, as digits and as bits. *)
Lemma host_part_mod z a :
  zone_wf z →
  host_text (N.to_nat (host_nibbles z)) (a mod 2 ^ (128 - mask z)) =
  host_text (N.to_nat (host_nibbles z)) a.
Proof.
  intros Hz. destruct (zwf_host_range z Hz) as [_ <-]. rewrite <- pow16.
  rewrite <- (N2Nat.id (host_nibbles z)) at 2. apply host_text_mod.
Qed.

Lemma in_network_host z a :
  zone_wf z → in_network a (prefix z) (mask z) →
  a = N.lor (prefix z) (a mod 2 ^ (128 - mask z)).
Proof.
  intros Hz [Ha Hp]. rewrite <- Hp. symmetry. apply lor_prefix_host; [|done].
  pose proof (zwf_mask z Hz). lia.
Qed.

Lemma host_in_network z h :
  zone_wf z → h < 16 ^ host_nibbles z →
  in_network (N.lor (prefix z) h) (prefix z) (mask z) ∧
  N.lor (prefix z) h mod 2 ^ (128 - mask z) = h.
Proof.
  intros Hz Hh. destruct (zwf_host_range z Hz) as [_ E]. rewrite pow16, E in Hh.
  pose proof (zwf_mask z Hz). destruct (zwf_prefix z Hz) as [_ Hp].
  destruct (prefix_lor_host (prefix z) h (mask z)) as (H1 & H2 & H3); [lia|done..|].
  done.
Qed.

(** [q] is the host name [n] of a template, up to the letter case, with the labels
    behind it that a template with a leading [*] takes. *)
Definition names_host (z : Zone) (n q : DName) : Prop :=
  ∃ extra, length extra = spare_labels (fwd z) ∧ labels_ci (labels q) (labels n ++ extra).

(** Without a leading [*] it is the name. *)
Lemma names_host_eq z n q :
  wildcard_free (fwd z) → is_fqdn n = true → is_fqdn q = true → names_host z n q ↔ name_eq n q = true.
Proof.
  intros Hw Hn Hq. unfold names_host. rewrite spare_free by done. split.
  - intros (extra & H%nil_length_inv & Hci). subst extra. rewrite app_nil_r in Hci. by apply name_eq_spec.
  - intros H%name_eq_spec; [|done..]. exists []. rewrite app_nil_r. by split.
Qed.

(** A zone matches a name with an address exactly when the address is in its
    network and synthesis gives that name. *)
Lemma match_zone_forward_names z q a :
  zone_wf z →
  match_zone_forward z q = Some a ↔
  in_network a (prefix z) (mask z) ∧ ∃ n, forward_name z a = Some n ∧ is_fqdn n = true ∧ names_host z n q.
Proof.
  intros Hz. rewrite match_zone_forward_Some by done. split.
  - intros (h & extra & -> & Hh & Hl & Hci).
    destruct (host_in_network z h Hz Hh) as [Hin Hmod]. split; [done|].
    destruct (forward_name_labels z (N.lor (prefix z) h) Hz) as (n & Hn & Hf & Hln).
    exists n. do 2 (split; [done|]). exists extra. split; [done|].
    by rewrite Hln, <- (host_part_mod z) by done; rewrite Hmod.
  - intros (Hin & n & Hn & _ & extra & Hl & Hci). exists (a mod 2 ^ (128 - mask z)), extra.
    split; [by apply in_network_host|].
    destruct (forward_name_labels z a Hz) as (n' & Hn' & Hf & Hln). assert (n' = n) as -> by congruence.
    unfold rendered. rewrite host_part_mod, <- Hln by done.
    split; [|done]. destruct (zwf_host_range z Hz) as [_ E].
    rewrite pow16, E. apply N.mod_lt. by apply N.pow_nonzero.
Qed.

Lemma match_zone_forward_iff z q a :
  zone_wf z → wildcard_free (fwd z) → is_fqdn q = true →
  match_zone_forward z q = Some a ↔
  in_network a (prefix z) (mask z) ∧
  ∃ n, forward_name z a = Some n ∧ name_eq n q = true.
Proof.
  intros Hz Hw Hq. rewrite match_zone_forward_names by done. apply and_iff_compat_l. split.
  - intros (n & Hn & Hf & H%names_host_eq); [|done..]. by exists n.
  - intros (n & Hn & He). destruct (forward_name_labels z a Hz) as (n' & Hn' & Hf & _).
    assert (n' = n) as -> by congruence. exists n. do 2 (split; [done|]). by apply names_host_eq.
Qed.

(** A name of a template without a leading [*] is of no template with one. *)
Lemma names_host_wildcards z z' n n' a a' :
  zone_wf z → zone_wf z' → wildcard_free (fwd z) → forward_name z a = Some n → forward_name z' a' = Some n' →
  names_host z' n' n → wildcard_free (fwd z').
Proof.
  intros Hz Hz' Hw Hn Hn' (extra & _ & Hci). destruct (base.decide (wildcard_free (fwd z'))) as [|Hno]; [done|].
  apply wildcard_head in Hno as (lo & ts & E).
  destruct (forward_name_labels z a Hz) as (m & Hm & _ & Hl). assert (m = n) as -> by congruence.
  destruct (forward_name_labels z' a' Hz') as (m & Hm' & _ & Hl'). assert (m = n') as -> by congruence.
  rewrite Hl, Hl', E, fmap_cons in Hci. apply Forall2_cons_inv_r in Hci as (l & ls & Hs & _ & El).
  symmetry in Hs. apply star_ci in Hs. subst l. destruct (zwf_host_range z Hz) as [Hh _].
  exfalso. revert El. apply render_not_star; [done|lia].
Qed.

(** A template with a leading [*] does not match the names it produces. *)
Lemma own_name_unmatched z n a :
  zone_wf z → ¬ wildcard_free (fwd z) → forward_name z a = Some n → match_zone_forward z n = None.
Proof.
  intros Hz Hw Hn. destruct (match_zone_forward z n) as [b|] eqn:E; [|done].
  apply match_zone_forward_Some in E as (h & extra & _ & _ & Hl & Hci%labels_ci_length); [|done].
  destruct (forward_name_labels z a Hz) as (n' & Hn' & _ & Hln). assert (n' = n) as -> by congruence.
  rewrite spare_wildcard in Hl by done.
  rewrite length_app, length_rendered, Hln, length_fmap, Hl in Hci. lia.
Qed.

Lemma zone_for_addr_Some c a z :
  zone_for_addr c a = Some z →
  z ∈ zones c ∧ N.land a (mask_bits (mask z)) = prefix z ∧
  (StronglySorted by_mask (zones c) →
   ∀ z', z' ∈ zones c → N.land a (mask_bits (mask z')) = prefix z' → mask z' <= mask z).
Proof.
  unfold zone_for_addr. intros (l1 & l2 & E & Hz & Hl)%iter_find_Some.
  apply N.eqb_eq in Hz. rewrite E. split; [set_solver|]. split; [done|].
  intros Hs z' Hin Hz'. apply elem_of_app in Hin as [Hin|Hin].
  - rewrite Forall_forall in Hl. apply Hl in Hin. by apply N.eqb_neq in Hin.
  - apply StronglySorted_app_1_r in Hs.
    apply elem_of_cons in Hin as [->|Hin]; [done|].
    apply StronglySorted_inv in Hs as [_ Hs]. rewrite Forall_forall in Hs.
    by apply Hs.
Qed.

Lemma zone_for_addr_None c a :
  zone_for_addr c a = None →
  ∀ z, z ∈ zones c → N.land a (mask_bits (mask z)) ≠ prefix z.
Proof.
  unfold zone_for_addr. intros H%iter_find_None z Hin. rewrite Forall_forall in H.
  apply H in Hin. by apply N.eqb_neq in Hin.
Qed.

Lemma match_ptr_Some c q z a :
  match_ptr c q = Some (z, a) ↔
  ptr_name_to_addr q = Some a ∧ zone_for_addr c a = Some z.
Proof.
  unfold match_ptr. destruct (ptr_name_to_addr q) as [b|]; simpl.
  - destruct (zone_for_addr c b) eqn:E; simpl; split; try done.
    + by intros [= <- <-].
    + intros [[= ->] H]. by simplify_eq.
    + intros [[= ->] H]. congruence.
  - split; [done|]. by intros [? _].
Qed.

Lemma match_forward_Some c q z a :
  match_forward c q = Some (z, a) →
  z ∈ zones c ∧ match_zone_forward z q = Some a.
Proof.
  unfold match_forward. intros (l1 & x & l2 & E & Hx & _)%iter_find_map_Some.
  destruct (match_zone_forward x q) eqn:Em; simpl in Hx; [|done].
  injection Hx as -> ->. rewrite E. split; [set_solver|done].
Qed.

Lemma match_forward_total c q z a :
  z ∈ zones c → match_zone_forward z q = Some a →
  ∃ z' a', match_forward c q = Some (z', a') ∧
    ((∀ y, y ∈ zones c → is_Some (match_zone_forward y q) → y = z) → z' = z ∧ a' = a).
Proof.
  intros Hin Hz. destruct (match_forward c q) as [[z' a']|] eqn:E.
  - exists z', a'. split; [done|]. intros Hu.
    apply match_forward_Some in E as [Hin' Hm]. rewrite (Hu z') in * by eauto.
    split; [done|]. congruence.
  - unfold match_forward in E. rewrite iter_find_map_None, Forall_forall in E.
    apply E in Hin. by rewrite Hz in Hin.
Qed.

(** Every address of a valid zone has a PTR record. *)
Lemma ptr_record_total z q a :
  zone_wf z →
  ∃ n, forward_name z a = Some n ∧ is_fqdn n = true ∧
       ptr_record z q a = Some (from_rdata q (ttl z) (RData.PTR n)).
Proof.
  intros Hz. destruct (forward_name_labels z a Hz) as (n & Hn & Hf & _).
  exists n. split; [done|]. split; [done|]. unfold ptr_record. by rewrite Hn.
Qed.
End Zones.

(** ** Apexes *)

Section Apexes.
Context {D : DnsOps} {L : DnsLaws D}.

(** The forward apex is the literal labels behind the digits label. *)
Lemma fwd_parent_labels z :
  zone_wf z →
  ∃ before digits after,
    fwd_labels (fwd z) = before ++ digits :: after ∧ len before = digits_at (fwd z) ∧
    Forall (λ l, is_literal l = true) after ∧
    labels (fwd_parent z) = plain_label <$> after ∧ is_fqdn (fwd_parent z) = true.
Proof.
  intros Hz. pose proof (zwf_fwd z Hz) as Ht.
  destruct (labels_behind_digits _ _ Ht) as (bef & d & aft & E & Hb & Ha & Hd).
  exists bef, d, aft. do 3 (split; [done|]).
  destruct (parent_labels _ _ (zwf_parent z Hz)) as [Hl Hf]. by rewrite Hl, Hd.
Qed.

Lemma match_forward_in_parent z q a :
  zone_wf z → wildcard_free (fwd z) →
  match_zone_forward z q = Some a → zone_of (fwd_parent z) q = true.
Proof.
  intros Hz Hw H. apply match_zone_forward_Some in H as (h & extra & _ & _ & Hx & Hci); [|done].
  rewrite spare_free in Hx by done. destruct extra; [|done]. rewrite app_nil_r in Hci. unfold rendered in Hci.
  destruct (fwd_parent_labels z Hz) as (bef & d & aft & E & _ & Hlit & Hl & _).
  apply zone_of_spec. rewrite Hl, E, fmap_app, fmap_cons in *.
  apply Forall2_app_inv_r in Hci as (pre & suf & _ & Hs & ->).
  apply Forall2_cons_inv_r in Hs as (l & suf' & _ & Hs & ->).
  exists (pre ++ [l]), suf'. rewrite <- app_assoc. split; [done|].
  by rewrite (plain_literals _ _ Hlit) in Hs.
Qed.

Lemma match_ptr_in_apex c q z a :
  config_wf c → match_ptr c q = Some (z, a) → z ∈ zones c ∧ zone_of (ptr_zone z) q = true.
Proof.
  intros Hc [Hq Hz]%match_ptr_Some. apply zone_for_addr_Some in Hz as (Hin & Hz & _).
  split; [done|]. pose proof (cwf_zones c Hc) as Hwf. rewrite Forall_forall in Hwf.
  specialize (Hwf z Hin). pose proof (zwf_prefix z Hwf) as [Hp Hpp].
  apply ptr_name_to_addr_Some in Hq as [Ha Hq].
  pose proof (zwf_mask z Hwf). pose proof (zwf_aligned z Hwf).
  destruct (netmask_to_ptr_name_valid (prefix z) (mask z)) as (n & Hn & Hl & _); [lia|done|].
  assert (n = ptr_zone z) as -> by (pose proof (zwf_ptr z Hwf); congruence).
  apply zone_of_spec. rewrite Hl. apply (zone_labels_suffix (mask z) a); try done; [lia|].
  apply same_network_div; [lia|done..|]. congruence.
Qed.

(** The name lies at or below no apex of the configuration. *)
Definition below_none (c : Config) (q : DName) : Prop :=
  ∀ z, z ∈ zones c → zone_of (ptr_zone z) q = false ∧ zone_of (fwd_parent z) q = false.

(** The name is a host name with a label too many, of a template with a leading
    [*]. *)
Definition stray (c : Config) (q : DName) : Prop :=
  ∃ z a n x, z ∈ zones c ∧ ¬ wildcard_free (fwd z) ∧ in_network a (prefix z) (mask z) ∧
    forward_name z a = Some n ∧ labels_ci (labels q) (labels n ++ [x]).

Lemma match_forward_stray c q z a :
  config_wf c → match_forward c q = Some (z, a) →
  z ∈ zones c ∧ (zone_of (fwd_parent z) q = true ∨ stray c q).
Proof.
  intros Hc [Hin Hm]%match_forward_Some. split; [done|].
  pose proof (cwf_zones c Hc) as Hz. rewrite Forall_forall in Hz. specialize (Hz z Hin).
  destruct (base.decide (wildcard_free (fwd z))) as [Hw|Hw]; [left; by eapply match_forward_in_parent|right].
  apply match_zone_forward_names in Hm as (Hnet & n & Hn & _ & extra & Hl & Hci); [|done].
  rewrite spare_wildcard in Hl by done. destruct extra as [|x [|]]; [done| |done]. by exists z, a, n, x.
Qed.

Lemma stray_match_forward c q : config_wf c → stray c q → match_forward c q ≠ None.
Proof.
  intros Hc (z & a & n & x & Hin & Hw & Hnet & Hn & Hci) H.
  pose proof (cwf_zones c Hc) as Hz. rewrite Forall_forall in Hz. specialize (Hz z Hin).
  destruct (forward_name_labels z a Hz) as (n' & Hn' & Hf & _). assert (n' = n) as -> by congruence.
  assert (match_zone_forward z q = Some a) as Hm.
  { apply match_zone_forward_names; [done|]. split; [done|]. exists n. do 2 (split; [done|]).
    exists [x]. by rewrite spare_wildcard. }
  destruct (match_forward_total c q z a Hin Hm) as (? & ? & E & _). congruence.
Qed.

Lemma resolve_NoZone (c : Config) (q : DName) (t : RecordType.t) :
  config_wf c → resolve c q t = NoZone ↔ below_none c q ∧ ¬ stray c q.
Proof.
  intros Hc. unfold resolve. split.
  - destruct (if reverse_has_type t then _ else _) as [[? ?]|]; [done|].
    destruct (match_forward c q) as [[? ?]|] eqn:Ef; [done|].
    destruct (zone_containing c q) eqn:E; [done|]. intros _.
    split; [|intros Hs; by eapply stray_match_forward]. intros z Hin.
    unfold zone_containing in E. rewrite iter_find_None, Forall_forall in E.
    by apply E, orb_false_iff in Hin.
  - intros [Hout Hns]. destruct (if reverse_has_type t then _ else _) as [[z a]|] eqn:E.
    { destruct (reverse_has_type t); [|done].
      apply match_ptr_in_apex in E as [Hin H]; [|done]. apply Hout in Hin as [? _]. congruence. }
    destruct (match_forward c q) as [[z a]|] eqn:Ef.
    { apply match_forward_stray in Ef as [Hin [Hm|Hs]]; [|by destruct Hns|done].
      apply Hout in Hin as [_ ?]. congruence. }
    destruct (zone_containing c q) as [z|] eqn:Ez; [|done].
    unfold zone_containing in Ez. apply iter_find_Some in Ez as (l1 & l2 & El & Hzq & _).
    destruct (Hout z) as [H1 H2]; [rewrite El; set_solver|]. by rewrite H1, H2 in Hzq.
Qed.

Lemma no_stray c q : Forall (λ z, wildcard_free (fwd z)) (zones c) → ¬ stray c q.
Proof. rewrite Forall_forall. intros Hw (z & a & n & x & Hin & Hno & _). by destruct Hno; apply Hw. Qed.
End Apexes.

(** ** Properties *)

Section Properties.
Context {D : DnsOps} {L : DnsLaws D}.

(** C5.  Forward matching is the exact inverse of synthesis.  A valid zone matches
    a name with the address [a] exactly when [a] lies in its network and the labels
    of the name are those of the name synthesized for [a], up to letter case,
    followed by one more label if the template begins with the label [*], and by
    none otherwise.  So without a leading [*] an absolute name matches exactly if
    it is the synthesized one: no suffix, no wrong digit count and no foreign byte
    ever matches.  With one, the synthesized name itself never matches. *)
Theorem match_zone_forward_exact (z : Zone) (q : DName) (a : N) :
  zone_wf z →
  (match_zone_forward z q = Some a ↔
   in_network a (prefix z) (mask z) ∧
   ∃ n extra, forward_name z a = Some n ∧ labels_ci (labels q) (labels n ++ extra) ∧
     length extra = if base.decide (wildcard_free (fwd z)) then 0%nat else 1%nat) ∧
  (wildcard_free (fwd z) → is_fqdn q = true →
   match_zone_forward z q = Some a ↔
   in_network a (prefix z) (mask z) ∧ ∃ n, forward_name z a = Some n ∧ name_eq n q = true) ∧
  (¬ wildcard_free (fwd z) → forward_name z a = Some q → match_zone_forward z q = None).
Proof.
  intros Hz. assert (∀ x : nat, x = spare_labels (fwd z) ↔
    x = if base.decide (wildcard_free (fwd z)) then 0%nat else 1%nat) as Hx.
  { intros x. destruct (base.decide _); [by rewrite spare_free|by rewrite spare_wildcard]. }
  split; [|split; [intros; by apply match_zone_forward_iff|]].
  - rewrite match_zone_forward_names by done. apply and_iff_compat_l. split.
    + intros (n & Hn & _ & extra & Hl%Hx & Hci). by exists n, extra.
    + intros (n & extra & Hn & Hci & Hl%Hx). destruct (forward_name_labels z a Hz) as (n' & Hn' & Hf & _).
      assert (n' = n) as -> by congruence. exists n. do 2 (split; [done|]). by exists extra.
  - intros Hw Hq. by apply (own_name_unmatched z q a).
Qed.

(** C8.  Longest prefix match: in a valid configuration [zone_for_addr] returns
    the zone with the longest mask among those whose network contains the
    address, and nothing exactly when no network contains it. *)
Theorem zone_for_addr_longest_prefix (c : Config) (a : N) :
  config_wf c → a < 2 ^ 128 →
  match zone_for_addr c a with
  | Some z => z ∈ zones c ∧ in_network a (prefix z) (mask z) ∧
              ∀ z', z' ∈ zones c → in_network a (prefix z') (mask z') →
                    mask z' <= mask z ∧ (mask z' = mask z → prefix z' = prefix z)
  | None => ∀ z, z ∈ zones c → ¬ in_network a (prefix z) (mask z)
  end.
Proof.
  intros Hc Ha. destruct (zone_for_addr c a) as [z|] eqn:E.
  - apply zone_for_addr_Some in E as (Hin & Hz & Hmax). split; [done|]. split; [done|].
    intros z' Hin' [_ Hz']. split; [by apply Hmax; [apply Hc|..]|]. congruence.
  - intros z Hin [_ Hz]. by eapply zone_for_addr_None.
Qed.

(** C17.  Reverse and forward answers agree.  For a reverse query that denotes
    the address [a] of a configured network, the answer is one PTR record with
    the name synthesized for [a].  If the template of that network does not begin
    with the label [*], whatever the others do, asking for the AAAA of that name is
    answered by one address, whose synthesized name is the name asked for, and
    which is [a] again unless another zone's template also produces the name.  If
    it does begin with [*], the zone does not find its own name again. *)
Theorem ptr_then_aaaa (c : Config) (q : DName) (z : Zone) (a : N) :
  config_wf c → match_ptr c q = Some (z, a) →
  ∃ n, forward_name z a = Some n ∧
    resolve c q RecordType.PTR = Answer z [from_rdata q (ttl z) (RData.PTR n)] ∧
    (¬ wildcard_free (fwd z) → match_zone_forward z n = None) ∧
    (wildcard_free (fwd z) → ∃ z' a' n',
      resolve c n RecordType.AAAA = Answer z' [from_rdata n (ttl z') (RData.AAAA a')] ∧
      z' ∈ zones c ∧ in_network a' (prefix z') (mask z') ∧
      forward_name z' a' = Some n' ∧ name_eq n' n = true ∧
      ((∀ y, y ∈ zones c → is_Some (match_zone_forward y n) → y = z) → z' = z ∧ a' = a)).
Proof.
  intros Hc Hm. pose proof (cwf_zones c Hc) as Hz. rewrite Forall_forall in Hz.
  pose proof (proj1 (match_ptr_Some c q z a) Hm) as [Hq Hza].
  apply zone_for_addr_Some in Hza as (Hin & Hnet & _).
  destruct (ptr_record_total z q a (Hz z Hin)) as (n & Hn & Hf & Hr).
  exists n. split; [done|]. split; [unfold resolve; simpl; by rewrite Hm, Hr|].
  split; [intros Hw; by apply (own_name_unmatched z n a (Hz z Hin))|]. intros Hw.
  apply ptr_name_to_addr_Some in Hq as [Ha _].
  assert (match_zone_forward z n = Some a) as Hback.
  { apply match_zone_forward_iff; auto. split; [done|]. exists n. split; [done|].
    by apply name_eq_spec. }
  destruct (match_forward_total c n z a Hin Hback) as (z' & a' & Hf' & Hu).
  pose proof (match_forward_Some _ _ _ _ Hf') as [Hin' Hm'].
  apply match_zone_forward_names in Hm' as (Hnet' & n' & Hn' & Hfn & He); [|by apply Hz].
  exists z', a', n'. split; [unfold resolve; simpl; by rewrite Hf'|]. do 3 (split; [done|]). split; [|done].
  apply (names_host_eq z'); [|done..].
  by apply (names_host_wildcards z z' n n' a a' (Hz z Hin) (Hz z' Hin') Hw Hn Hn').
Qed.

(** C24.  What an answer may contain, for every accepted configuration and name:
    every record is owned by the name asked for, carries the zone's TTL, and holds
    either the name synthesized for the address that a reverse name denotes, or an
    address of the zone whose synthesized name the name asked for is: with one
    label more if the template begins with [*], and otherwise, if absolute, equal
    to it.  Nothing of the query but that address reaches the data of a record. *)
Theorem resolve_records_derived (c : Config) (q : DName) (t : RecordType.t) (z : Zone)
    (rs : list DRecord) :
  config_wf c → resolve c q t = Answer z rs →
  z ∈ zones c ∧
  ∃ a, in_network a (prefix z) (mask z) ∧
    ∀ r, r ∈ rs →
      rec_name r = q ∧ rec_class r = DNSClass.IN ∧ rec_ttl r = ttl z ∧
      ∃ n, forward_name z a = Some n ∧
        (rec_data r = RData.PTR n ∧ ptr_name_to_addr q = Some a ∨
         rec_data r = RData.AAAA a ∧ names_host z n q ∧
           (wildcard_free (fwd z) → is_fqdn q = true → name_eq n q = true)).
Proof.
  intros Hc. pose proof (cwf_zones c Hc) as Hz. rewrite Forall_forall in Hz.
  unfold resolve. destruct (if reverse_has_type t then _ else _) as [[z1 a1]|] eqn:E.
  - destruct (reverse_has_type t); [|done]. apply match_ptr_Some in E as [Hp Ha].
    apply zone_for_addr_Some in Ha as (Hin & Hnet & _).
    destruct (ptr_record_total z1 q a1 (Hz z1 Hin)) as (n & Hn & _ & ->).
    intros [= <- <-]. split; [done|]. exists a1.
    pose proof (proj1 (ptr_name_to_addr_Some q a1) Hp) as [Hlt _]. split; [done|].
    intros r ->%list_elem_of_singleton. autorewrite with dns.
    do 3 (split; [done|]). exists n. by auto.
  - destruct (match_forward c q) as [[z1 a1]|] eqn:Ef.
    + apply match_forward_Some in Ef as [Hin Hm].
      apply match_zone_forward_names in Hm as (Hnet & n & Hn & Hfn & He); [|by apply Hz].
      intros [= <- <-]. split; [done|]. exists a1. split; [done|]. intros r Hr.
      destruct (forward_has_type t); [|by apply not_elem_of_nil in Hr].
      apply list_elem_of_singleton in Hr as ->. unfold aaaa_record. autorewrite with dns.
      do 3 (split; [done|]). exists n. split; [done|]. right. do 2 (split; [done|]).
      intros Hw Hq. by apply (names_host_eq z1).
    + by destruct (zone_containing c q).
Qed.

(** The namespace served: a valid configuration declines a name exactly
    when it lies below none of its apexes. *)
Theorem resolve_NoZone_iff (c : Config) (q : DName) (t : RecordType.t) :
  config_wf c → Forall (λ z, wildcard_free (fwd z)) (zones c) →
  resolve c q t = NoZone ↔
  ∀ z, z ∈ zones c → zone_of (ptr_zone z) q = false ∧ zone_of (fwd_parent z) q = false.
Proof.
  intros Hc Hw. rewrite resolve_NoZone by done. split; [by intros [H _]|]. intros H. split; [done|by apply no_stray].
Qed.

(** A template whose digits label is its last label has the root as its
    forward apex, and a configuration with such a zone declines no name at
    all, whatever the out-of-zone policy says. *)
Theorem last_label_template_claims_all (c : Config) (z : Zone) (q : DName) (t : RecordType.t) :
  zone_wf z → z ∈ zones c → digits_at (fwd z) + 1 = label_count (fwd z) →
  resolve c q t ≠ NoZone.
Proof.
  intros Hz Hin Hlast. destruct (fwd_parent_labels z Hz) as (bef & d & aft & E & Hl & _ & Hp & _).
  unfold label_count in Hlast. rewrite E, len_app, len_cons, Hl in Hlast.
  assert (aft = []) as -> by (apply len_0; lia).
  unfold resolve. destruct (if reverse_has_type t then _ else _) as [[? ?]|]; [done|].
  destruct (match_forward c q) as [[? ?]|]; [done|].
  destruct (zone_containing c q) eqn:Ez; [done|]. unfold zone_containing in Ez.
  rewrite iter_find_None, Forall_forall in Ez. apply Ez, orb_false_iff in Hin as [_ Hin].
  rewrite (proj2 (zone_of_spec _ _)) in Hin; [done|].
  exists (labels q), []. rewrite app_nil_r, Hp. split; [done|]. constructor.
Qed.

(** A reverse name that has a PTR record is answered as non-existent for
    every other type: it is inside the zone, no template produces it, and
    [resolve] gives [NoName] instead of an empty answer. *)
Theorem reverse_name_other_type (c : Config) (q : DName) (z : Zone) (a : N) (t : RecordType.t) :
  config_wf c → match_ptr c q = Some (z, a) → match_forward c q = None →
  reverse_has_type t = false →
  (∃ r, resolve c q RecordType.PTR = Answer z [r]) ∧ ∃ z', resolve c q t = NoName z'.
Proof.
  intros Hc Hm Hf Ht. pose proof (match_ptr_in_apex c q z a Hc Hm) as [Hin Hapex].
  pose proof (cwf_zones c Hc) as Hz. rewrite Forall_forall in Hz. split.
  - destruct (ptr_record_total z q a (Hz z Hin)) as (n & _ & _ & Hr).
    unfold resolve. simpl. rewrite Hm, Hr. by eexists.
  - unfold resolve. rewrite Ht, Hf. destruct (zone_containing c q) as [z'|] eqn:E; [by exists z'|].
    unfold zone_containing in E. rewrite iter_find_None, Forall_forall in E.
    apply E, orb_false_iff in Hin as [? _]. congruence.
Qed.

(** A template that begins with the label [*] escapes the label count: the
    name synthesized for an address never matches back, but the same name with
    any one label appended does, outside the zone's own namespace. *)
Theorem wildcard_template_mismatch (z : Zone) (a : N) (n q : DName) (lower l : bytes)
    (rest : list FwdLabel) :
  zone_wf z → fwd_labels (fwd z) = Literal (bs "*") lower :: rest →
  in_network a (prefix z) (mask z) → forward_name z a = Some n →
  labels q = labels n ++ [l] →
  match_zone_forward z n = None ∧ match_zone_forward z q = Some a.
Proof.
  intros Hz E Hin Hn Hq. destruct (forward_name_labels z a Hz) as (n' & Hn' & _ & Hl).
  assert (n' = n) as -> by congruence. destruct (zwf_host_range z Hz) as [Hh Hm].
  set (ls := render_label (host_text (N.to_nat (host_nibbles z)) a) <$> fwd_labels (fwd z)) in *.
  assert (length ls = length (fwd_labels (fwd z))) as Hlen by apply length_fmap.
  assert (∃ ls', ls = bs "*" :: ls') as [ls' Els] by (unfold ls; rewrite E; by eexists).
  assert (label_count (fwd z) = 1 + len ls') as Hc.
  { unfold label_count, len. rewrite <- Hlen, Els. simpl length. lia. }
  unfold match_zone_forward. rewrite !num_labels_spec, Hq, Hl, Hc, Els. simpl app. simpl label_count_of.
  rewrite len_app, len_cons, len_nil. split.
  - rewrite (proj2 (N.eqb_neq _ _)); [done|lia].
  - rewrite (proj2 (N.eqb_eq _ _)) by lia. cbn [negb].
    change (bs "*" :: ls' ++ [l]) with ((bs "*" :: ls') ++ [l]). rewrite <- Els.
    rewrite match_labels_extra by done.
    rewrite (proj2 (match_template_Some (host_nibbles z) (fwd z) ls
      (Some (a mod 2 ^ (128 - mask z))) (zwf_fwd z Hz) ltac:(lia) ltac:(lia) Hlen)).
    { cbn [mbind option_bind]. simpl. by rewrite <- (in_network_host z a Hz Hin). }
    exists (a mod 2 ^ (128 - mask z)). split; [done|]. rewrite host_part_mod by done.
    split; [|done]. rewrite pow16, Hm. apply N.mod_lt. by apply N.pow_nonzero.
Qed.
End Properties.

(** ** Instances *)

#[local] Existing Instance LabelName.ops.
#[local] Existing Instance LabelName.laws.

Lemma sample_zones_wf : Forall zone_wf (zones sample_config).
Proof. apply sample_wf. Qed.

Lemma sample_zone_wf : zone_wf sample_zone.
Proof.
  eapply Forall_lookup_1; [apply sample_zones_wf|apply sample_zone_first].
Qed.

Lemma sample_wildcard_free : Forall (λ z, wildcard_free (fwd z)) (zones sample_config).
Proof.
  assert (forallb (λ z, wildcard_free_b (fwd z)) (zones sample_config) = true) as H by vm_refl.
  rewrite forallb_forall in H. apply Forall_forall. intros z Hz%list_elem_of_In.
  by apply wildcard_free_spec, H.
Qed.

Lemma sample_zone_in : sample_zone ∈ zones sample_config.
Proof. apply (list_elem_of_lookup_2 _ 0%nat), sample_zone_first. Qed.

Lemma zone_for_addr_longest_prefix_witness :
  zone_for_addr sample_config sample_addr = Some sample_zone ∧
  match zone_for_addr sample_config sample_addr with
  | Some z => z ∈ zones sample_config ∧ in_network sample_addr (prefix z) (mask z) ∧
              ∀ z', z' ∈ zones sample_config → in_network sample_addr (prefix z') (mask z') →
                    mask z' <= mask z ∧ (mask z' = mask z → prefix z' = prefix z)
  | None => ∀ z, z ∈ zones sample_config → ¬ in_network sample_addr (prefix z) (mask z)
  end.
Proof.
  split; [vm_refl|]. apply (zone_for_addr_longest_prefix sample_config sample_addr);
    [apply sample_wf|by vm_compute].
Defined.

Lemma ptr_then_aaaa_witness :
  ∃ n, forward_name sample_zone sample_addr = Some n ∧
    resolve sample_config sample_reverse RecordType.PTR =
      Answer sample_zone [from_rdata sample_reverse (ttl sample_zone) (RData.PTR n)] ∧
    wildcard_free (fwd sample_zone) ∧
    (¬ wildcard_free (fwd sample_zone) → match_zone_forward sample_zone n = None) ∧
    (wildcard_free (fwd sample_zone) → ∃ z' a' n',
      resolve sample_config n RecordType.AAAA = Answer z' [from_rdata n (ttl z') (RData.AAAA a')] ∧
      z' ∈ zones sample_config ∧ in_network a' (prefix z') (mask z') ∧
      forward_name z' a' = Some n' ∧ name_eq n' n = true ∧
      ((∀ y, y ∈ zones sample_config → is_Some (match_zone_forward y n) → y = sample_zone) →
       z' = sample_zone ∧ a' = sample_addr)).
Proof.
  destruct (ptr_then_aaaa sample_config sample_reverse sample_zone sample_addr) as (n & H1 & H2 & H3);
    [apply sample_wf|vm_refl|].
  exists n. split; [exact H1|]. split; [exact H2|]. split; [apply wildcard_free_spec; vm_refl|exact H3].
Defined.

Lemma resolve_records_derived_witness :
  ∃ rs, resolve sample_config sample_forward RecordType.AAAA = Answer sample_zone rs ∧
    length rs = 1%nat ∧ sample_zone ∈ zones sample_config ∧
    ∃ a, in_network a (prefix sample_zone) (mask sample_zone) ∧
      ∀ r, r ∈ rs →
        rec_name r = sample_forward ∧ rec_class r = DNSClass.IN ∧ rec_ttl r = ttl sample_zone ∧
        ∃ n, forward_name sample_zone a = Some n ∧
          (rec_data r = RData.PTR n ∧ ptr_name_to_addr sample_forward = Some a ∨
           rec_data r = RData.AAAA a ∧ names_host sample_zone n sample_forward ∧
             (wildcard_free (fwd sample_zone) → is_fqdn sample_forward = true →
              name_eq n sample_forward = true)).
Proof.
  exists [aaaa_record sample_zone sample_forward sample_addr]. split; [vm_refl|]. split; [vm_refl|].
  apply (resolve_records_derived sample_config sample_forward RecordType.AAAA sample_zone);
    [apply sample_wf|vm_refl].
Defined.

Lemma resolve_NoZone_iff_witness :
  resolve sample_config (LabelName.mk [bs "example"; bs "org"] true) RecordType.AAAA = NoZone ↔
  ∀ z, z ∈ zones sample_config →
    zone_of (ptr_zone z) (LabelName.mk [bs "example"; bs "org"] true) = false ∧
    zone_of (fwd_parent z) (LabelName.mk [bs "example"; bs "org"] true) = false.
Proof. apply resolve_NoZone_iff; [apply sample_wf|apply sample_wildcard_free]. Defined.

Lemma reverse_name_other_type_witness :
  (∃ r, resolve sample_config sample_reverse RecordType.PTR = Answer sample_zone [r]) ∧
  ∃ z', resolve sample_config sample_reverse RecordType.AAAA = NoName z'.
Proof.
  apply (reverse_name_other_type sample_config sample_reverse sample_zone sample_addr RecordType.AAAA);
    [apply sample_wf|vm_refl..].
Defined.

(** Two templates that validation accepts and that behave unexpectedly: one that
    is its digits label only, and one that begins with the wildcard label. *)
Definition bare_input : bytes := bs "network 2001:db8::/64
  resolves to %DIGITS%
".
Definition star_input : bytes := bs "network 2001:db8::/64
  resolves to *.%DIGITS%.example.net
".

Definition bare_config : Config := config_of bare_input.
Definition star_config : Config := config_of star_input.

Lemma bare_parses : Config_parse bare_input = Ok bare_config.
Proof. vm_refl. Qed.

Lemma star_parses : Config_parse star_input = Ok star_config.
Proof. vm_refl. Qed.

Lemma first_zone_wf input c :
  Config_parse input = Ok c → has_zones c = true →
  first_zone c ∈ zones c ∧ zone_wf (first_zone c).
Proof.
  intros H Hz. pose proof (cwf_zones _ (Config_parse_wf _ _ H)) as Hwf.
  unfold first_zone, has_zones in *. destruct (zones c) as [|z zs]; [done|].
  apply Forall_cons in Hwf as [? _]. split; [left|done].
Qed.

Lemma last_label_template_claims_all_witness :
  Config_parse bare_input = Ok bare_config ∧
  resolve bare_config (LabelName.mk [bs "example"; bs "org"] true) RecordType.AAAA ≠ NoZone.
Proof.
  split; [apply bare_parses|]. destruct (first_zone_wf _ _ bare_parses) as [Hin Hz]; [vm_refl|].
  apply (last_label_template_claims_all bare_config (first_zone bare_config)); [exact Hz|exact Hin|].
  vm_refl.
Defined.

(** The name synthesized for 2001:db8::1, and the same name with a label more. *)
Definition star_name : LabelName.t :=
  LabelName.mk [bs "*"; bs "0000000000000001"; bs "example"; bs "net"] true.
Definition star_extra : LabelName.t :=
  LabelName.mk [bs "*"; bs "0000000000000001"; bs "example"; bs "net"; bs "com"] true.

Lemma wildcard_template_mismatch_witness :
  Config_parse star_input = Ok star_config ∧
  match_zone_forward (first_zone star_config) star_name = None ∧
  match_zone_forward (first_zone star_config) star_extra = Some 0x20010db8000000000000000000000001.
Proof.
  split; [apply star_parses|]. destruct (first_zone_wf _ _ star_parses) as [Hin Hz]; [vm_refl|].
  apply (wildcard_template_mismatch (first_zone star_config) 0x20010db8000000000000000000000001
    star_name star_extra (bs "*") (bs "com") (tail (fwd_labels (fwd (first_zone star_config)))));
    [exact Hz|vm_refl|split; [by vm_compute|vm_refl]|vm_refl..].
Defined.

(** Of the template with the leading [*]. *)
Lemma match_zone_forward_exact_witness :
  let z := first_zone star_config in
  Config_parse star_input = Ok star_config ∧
  in_network 0x20010db8000000000000000000000001 (prefix z) (mask z) ∧
  ∃ n extra, forward_name z 0x20010db8000000000000000000000001 = Some n ∧
    labels_ci (labels star_extra) (labels n ++ extra) ∧
    length extra = if base.decide (wildcard_free (fwd z)) then 0%nat else 1%nat.
Proof.
  split; [apply star_parses|]. destruct (first_zone_wf _ _ star_parses) as [Hin Hz]; [vm_refl|].
  apply (proj1 (match_zone_forward_exact (first_zone star_config) star_extra 0x20010db8000000000000000000000001 Hz)). vm_refl.
Defined.
