(* ===== verification/RrlSpec.v ===== *)
(** * Correctness of [src/rrl.rs]

    Clients are keyed by their network; a client's budget depends on its own
    requests of one kind only; and the slip schedule holds under every
    interleaving of concurrent requests. *)

From S2P Require Import Prelude RustNet Config Rrl.

(** ** A token bucket *)

(** A small limiter with the interface of the crate: for each key the time at
    which its bucket would be full again. *)
Module TokenBucket.
Record quota := mkQuota { period : N; depth : N }.
Record limiter := mkLimiter { q : quota; full_at : gmap ClientKey N }.

Definition check (now : N) (k : ClientKey) (l : limiter) : bool * limiter :=
  let at_ := N.max now (default 0 (full_at l !! k)) in
  if at_ + period (q l) <=? now + depth (q l) * period (q l)
  then (true, mkLimiter (q l) (<[k := at_ + period (q l)]> (full_at l)))
  else (false, l).

#[export] Instance ops : LimiterOps := {
  Quota := quota;
  Limiter := limiter;
  per_second n := mkQuota (from_secs 1 / n) n;
  allow_burst b q := mkQuota (period q) b;
  keyed q := mkLimiter q ∅;
  check_key := check;
  retain_recent now l := mkLimiter (q l) (filter (λ p, now < snd p) (full_at l));
  limiter_len l := N.of_nat (size (full_at l));
  same_bucket k l l' := q l = q l' ∧ full_at l !! k = full_at l' !! k;
}.

#[export] Instance laws : LimiterLaws ops.
Proof.
  split; simpl.
  - intros k. split; [done|by intros ?? []|]. intros ??? [] []. split; congruence.
  - intros t k l l' [Hq Hk]. unfold check. rewrite <- Hq, <- Hk. case_match; [|done].
    simpl. split; [done|]. split; [done|]. by rewrite !lookup_insert_eq.
  - intros t k k' l Hk. unfold check. case_match; [|done]. simpl.
    split; [done|]. by rewrite lookup_insert_ne.
Qed.
End TokenBucket.

(** ** Client keys *)

Lemma shiftl_inj_shiftr a b s : N.shiftl (N.shiftr a s) s = N.shiftl (N.shiftr b s) s ↔
  N.shiftr a s = N.shiftr b s.
Proof.
  split; [|by intros ->]. intros H%(f_equal (λ x, N.shiftr x s)).
  by rewrite !N.shiftr_shiftl_r, N.sub_diag, !N.shiftr_0_r in H by done.
Qed.

Lemma wrap_shift_small w a s : a < 2 ^ w → wrap w (N.shiftl (N.shiftr a s) s) = N.shiftl (N.shiftr a s) s.
Proof.
  intros Ha. apply wrap_small, lt_pow2_bits. intros i Hi. autorewrite with bits.
  bit_cases; [|done]. simpl. rewrite N.sub_add by done. by apply (bits_above a w).
Qed.

(** The shifted-out prefix identifies the network, also for prefix 0. *)
Lemma prefix_key_inj w a b s :
  s <= w → a < 2 ^ w → b < 2 ^ w →
  (if w <=? s then 0 else wrap w (N.shiftl (N.shiftr a s) s)) =
  (if w <=? s then 0 else wrap w (N.shiftl (N.shiftr b s) s)) ↔
  N.shiftr a s = N.shiftr b s.
Proof.
  intros Hs Ha Hb. destruct (N.leb_spec w s) as [Hw|Hw].
  - assert (s = w) as -> by lia. rewrite !N.shiftr_div_pow2, !N.div_small by done. done.
  - by rewrite !wrap_shift_small, shiftl_inj_shiftr by done.
Qed.

Definition addr_wf (a : IpAddr) : Prop :=
  match a with V4 n => n < 2 ^ 32 | V6 n => n < 2 ^ 128 end.

(** The network of a client: its address above the host bits. *)
Definition same_client_network (p4 p6 : N) (a b : IpAddr) : Prop :=
  match a, b with
  | V4 x, V4 y => N.shiftr x (32 - p4) = N.shiftr y (32 - p4)
  | V6 x, V6 y => N.shiftr x (128 - N.min p6 64) = N.shiftr y (128 - N.min p6 64)
  | _, _ => False
  end.

Lemma ClientKey_new_eq p4 p6 a b :
  p4 <= 32 → addr_wf a → addr_wf b →
  ClientKey_new a p4 p6 = ClientKey_new b p4 p6 ↔ same_client_network p4 p6 a b.
Proof.
  intros H4 Ha Hb. destruct a as [x|x], b as [y|y]; simpl in *; try done.
  - rewrite N.min_l by done. rewrite <- (prefix_key_inj 32) by (done || lia).
    split; [by intros [= H]|intros H; by f_equal].
  - assert (∀ z, z < 2 ^ 128 → wrap 64 (N.shiftr z 64) = N.shiftr z 64 ∧ N.shiftr z 64 < 2 ^ 64) as Hz.
    { intros z Hz. assert (N.shiftr z 64 < 2 ^ 64); [|by split; [apply wrap_small|]].
      rewrite N.shiftr_div_pow2. apply N.Div0.div_lt_upper_bound. by rewrite <- N.pow_add_r. }
    destruct (Hz x Ha) as [-> Hx]. destruct (Hz y Hb) as [-> Hy].
    replace (128 - N.min p6 64) with (64 + (64 - N.min p6 64)) by lia.
    rewrite <- !N.shiftr_shiftr. rewrite <- (prefix_key_inj 64) by (done || lia).
    split; [by intros [= H]|intros H; by f_equal].
Qed.

(** ** Sequences of requests *)

Record RrlRequest := mkRrlRequest {
  rq_now : N;
  rq_addr : IpAddr;
  rq_kind : Kind;
  rq_tcp : bool;
}.

Definition allowed (d : Decision) : bool := bool_decide (d = Allow).

Section Runs.
Context {G : LimiterOps} {LL : LimiterLaws G}.

(** The decisions on the requests, in order. *)
Fixpoint run_decide (reqs : list RrlRequest) (r : Rrl) : list Decision :=
  match reqs with
  | [] => []
  | q :: reqs =>
      let '(d, r) := decide (rq_now q) (rq_addr q) (rq_kind q) (rq_tcp q) r in
      d :: run_decide reqs r
  end.

(** The UDP requests of one client network and kind. *)
Definition of_client (params : RrlParams) (k : ClientKey) (K : Kind) (q : RrlRequest) : bool :=
  negb (rq_tcp q) && bool_decide (rq_kind q = K) &&
  bool_decide (ClientKey_new (rq_addr q) (ipv4_prefix params) (ipv6_prefix params) = k).

(** Two limiters that agree on the budget of one client and kind. *)
Definition agree (k : ClientKey) (K : Kind) (r r' : Rrl) : Prop :=
  rrl_params r = rrl_params r' ∧ same_bucket k (limiter_of K r) (limiter_of K r').

Lemma decide_cases now addr kind tcp r :
  let '(d, r') := decide now addr kind tcp r in
  rrl_params r' = rrl_params r ∧
  if exempt r tcp then d = Allow ∧ r' = r else
  let '(ok, l) := check_key now (client_key r addr) (limiter_of kind r) in
  limiter_of kind r' = l ∧ allowed d = ok ∧
  ∀ K, K ≠ kind → limiter_of K r' = limiter_of K r.
Proof.
  unfold decide, check_limit, slip_decision. destruct (exempt r tcp); [done|].
  destruct (check_key _ _ _) as [ok l]. destruct ok; simpl.
  - destruct kind; (split; [done|split; [done|split; [done|by intros []]]]).
  - unfold allowed. repeat case_match; destruct kind; simpl;
      (split; [done|split; [done|split; [done|by intros []]]]).
Qed.

(** A request of another client or kind leaves the budget alone. *)
Lemma decide_other k K now addr kind tcp r r' :
  agree k K r r' → of_client (rrl_params r) k K (mkRrlRequest now addr kind tcp) = false →
  agree k K (snd (decide now addr kind tcp r)) r'.
Proof.
  intros [Hp Hs] Hc. pose proof (decide_cases now addr kind tcp r) as H.
  destruct (decide now addr kind tcp r) as [d r2]. simpl. destruct H as [Hp2 H].
  unfold agree. rewrite Hp2. split; [done|]. unfold of_client in Hc. simpl in Hc.
  unfold exempt in H. destruct tcp; simpl in H, Hc.
  { rewrite orb_true_r in H. by destruct H as [_ ->]. }
  rewrite orb_false_r in H. destruct (enabled (rrl_params r)); [|by destruct H as [_ ->]].
  simpl in H. destruct (check_key now (client_key r addr) (limiter_of kind r)) as [ok l] eqn:E.
  destruct H as (Hl & _ & Hother). destruct (decide_rel (=) kind K) as [->|Hk].
  - rewrite bool_decide_eq_true_2 in Hc by done. apply bool_decide_eq_false in Hc.
    rewrite Hl. pose proof (check_key_other now (client_key r addr) k (limiter_of K r) Hc) as Ho.
    rewrite E in Ho. by rewrite Ho.
  - rewrite Hother by done. done.
Qed.

(** A request of the client itself is decided alike. *)
Lemma decide_own k K now addr kind tcp r r' :
  agree k K r r' → of_client (rrl_params r) k K (mkRrlRequest now addr kind tcp) = true →
  allowed (fst (decide now addr kind tcp r)) = allowed (fst (decide now addr kind tcp r')) ∧
  agree k K (snd (decide now addr kind tcp r)) (snd (decide now addr kind tcp r')).
Proof.
  intros [Hp Hs] Hc. unfold of_client in Hc. simpl in Hc.
  rewrite !andb_true_iff, negb_true_iff, !bool_decide_eq_true in Hc. destruct Hc as [[-> ->] Hk].
  pose proof (decide_cases now addr K false r) as H. pose proof (decide_cases now addr K false r') as H'.
  destruct (decide now addr K false r) as [d r2], (decide now addr K false r') as [d' r2'].
  simpl. destruct H as [Hp2 H], H' as [Hp2' H']. unfold exempt in *. rewrite <- Hp in H'.
  unfold agree. rewrite Hp2, Hp2'.
  destruct (negb (enabled (rrl_params r)) || false).
  { destruct H as [-> ->], H' as [-> ->]. done. }
  assert (client_key r addr = k) as Hkr by done.
  assert (client_key r' addr = k) as Hkr' by (unfold client_key; by rewrite <- Hp).
  rewrite Hkr in H. rewrite Hkr' in H'. destruct (check_key_local now k _ _ Hs) as [H1 H2].
  destruct (check_key now k (limiter_of K r)) as [ok l], (check_key now k (limiter_of K r')) as [ok' l'].
  simpl in H1, H2. destruct H as (-> & -> & _), H' as (-> & -> & _). done.
Qed.

Lemma run_decide_agree k K params reqs r r' :
  rrl_params r = params → agree k K r r' →
  (λ p, allowed (snd p)) <$>
    List.filter (λ p : RrlRequest * Decision, of_client params k K (fst p)) (zip reqs (run_decide reqs r)) =
  allowed <$> run_decide (List.filter (of_client params k K) reqs) r'.
Proof.
  revert r r'. induction reqs as [|q reqs IH]; intros r r' Hr Ha; [done|].
  destruct q as [now addr kind tcp]. cbn [run_decide rq_now rq_addr rq_kind rq_tcp List.filter].
  pose proof (decide_cases now addr kind tcp r) as Hd.
  destruct (of_client params k K _) eqn:Ec.
  - rewrite <- Hr in Ec. pose proof (decide_own k K now addr kind tcp r r' Ha Ec) as [H1 H2].
    cbn [run_decide rq_now rq_addr rq_kind rq_tcp].
    destruct (decide now addr kind tcp r) as [d r2], (decide now addr kind tcp r') as [d' r2'].
    cbn [zip_with List.filter fst]. rewrite <- Hr at 1. rewrite Ec. cbn [fmap list_fmap snd].
    f_equal; [done|]. apply IH; [|done]. destruct Hd as [-> _]. done.
  - rewrite <- Hr in Ec. pose proof (decide_other k K now addr kind tcp r r' Ha Ec) as H.
    destruct (decide now addr kind tcp r) as [d r2].
    cbn [zip_with List.filter fst]. rewrite <- Hr at 1. rewrite Ec. apply IH; [|done].
    destruct Hd as [-> _]. done.
Qed.
End Runs.

(** ** The slip schedule *)

(** How many of the first [m] suppressed responses are truncated. *)
Definition truncations (params : RrlParams) (m : N) : N :=
  if slip params =? 0 then 0 else (m + slip params - 1) / slip params.

Lemma truncations_0 params : truncations params 0 = 0.
Proof.
  unfold truncations. destruct (N.eqb_spec (slip params) 0); [done|].
  rewrite N.add_0_l. apply N.div_small. lia.
Qed.

Lemma truncations_step params m :
  truncations params (m + 1) =
  truncations params m + if bool_decide (slip_decision params m = Truncate) then 1 else 0.
Proof.
  unfold truncations, slip_decision, is_multiple_of.
  destruct (N.eqb_spec (slip params) 0) as [|Hs]; [by rewrite bool_decide_eq_false_2|].
  set (s := slip params) in *. pose proof (N.div_mod m s Hs) as Hm.
  pose proof (N.mod_lt m s Hs) as Hlt. set (k := m / s) in *. set (j := m mod s) in *.
  destruct (N.eqb_spec j 0) as [Hj|Hj].
  - rewrite bool_decide_eq_true_2 by done.
    rewrite <- (N.div_unique (m + 1 + s - 1) s (k + 1) 0) by nia.
    rewrite <- (N.div_unique (m + s - 1) s k (s - 1)) by nia. done.
  - rewrite bool_decide_eq_false_2 by done.
    rewrite <- (N.div_unique (m + 1 + s - 1) s (k + 1) j) by nia.
    rewrite <- (N.div_unique (m + s - 1) s (k + 1) (j - 1)) by nia. lia.
Qed.

Section Slip.
Context {G : LimiterOps}.

Definition arrived (p : Phase) : bool := match p with Arrived _ _ _ => true | _ => false end.

Lemma count_decided_mid d pre p post :
  count_decided d (pre ++ p :: post) =
  count_decided d pre + (if is_decided d p then 1 else 0) + count_decided d post.
Proof.
  unfold count_decided. rewrite List.filter_app, len_app. simpl.
  destruct (is_decided d p); [rewrite len_cons|]; lia.
Qed.

Definition suppressed_count (ps : list Phase) : N := count_decided Drop ps + count_decided Truncate ps.

(** The counter counts the suppressed responses, and the truncated ones follow
    the schedule, whatever the interleaving. *)
Definition slip_inv (params : RrlParams) (s : Rrl * list Phase) : Prop :=
  rrl_params (fst s) = params ∧
  suppressed (fst s) = wrap 64 (suppressed_count (snd s)) ∧
  (suppressed_count (snd s) <= 2 ^ 64 →
   count_decided Truncate (snd s) = truncations params (suppressed_count (snd s))).

Lemma check_limit_keeps now addr kind r ok r' :
  check_limit now addr kind r = (ok, r') →
  rrl_params r' = rrl_params r ∧ suppressed r' = suppressed r.
Proof.
  unfold check_limit. destruct (check_key _ _ _) as [ok' l]. intros [= _ <-]. by destruct kind.
Qed.

Lemma slip_step params s s' : rrl_step s s' → slip_inv params s → slip_inv params s'.
Proof.
  unfold slip_inv, suppressed_count.
  destruct 1 as [r pre post addr kind tcp He|r pre post addr kind tcp now ok r' He Hc
                |r pre post n r' Hc|r now kind ps]; cbn [fst snd]; [..|by destruct kind].
  - intros (Hp & Hs & Ht). rewrite !count_decided_mid in *. simpl in *. done.
  - apply check_limit_keeps in Hc as [-> ->]. intros (Hp & Hs & Ht).
    rewrite !count_decided_mid in *. by destruct ok.
  - injection Hc as <- <-. cbn [rrl_params suppressed]. intros (Hp & Hs & Ht). split; [done|].
    rewrite !count_decided_mid in *. simpl in Hs, Ht. rewrite !N.add_0_r in Hs, Ht. rewrite Hs.
    set (nd := count_decided Drop pre + count_decided Drop post) in *.
    set (nt := count_decided Truncate pre + count_decided Truncate post) in *.
    set (m := nd + nt) in *. set (d := slip_decision (rrl_params r) (wrap 64 m)).
    assert (d = Drop ∨ d = Truncate) as Hd by (unfold d, slip_decision; repeat case_match; auto).
    assert (count_decided Drop pre + (if is_decided Drop (Decided d) then 1 else 0) + count_decided Drop post +
      (count_decided Truncate pre + (if is_decided Truncate (Decided d) then 1 else 0) + count_decided Truncate post)
      = m + 1) as ->.
    { unfold m, nd, nt. destruct Hd as [-> | ->]; simpl; lia. }
    split.
    { unfold u64_add, wrap. by rewrite N.Div0.add_mod_idemp_l. }
    intros Hm. rewrite truncations_step, <- Ht by lia. unfold d.
    rewrite (wrap_small 64 m), Hp by lia. simpl. unfold nt. lia.
Qed.

Lemma slip_inv_init params ps :
  Forall (λ p, arrived p = true) ps → slip_inv params (Rrl_new params, ps).
Proof.
  intros H. assert (∀ d, count_decided d ps = 0) as H0.
  { intros d. unfold count_decided. induction H as [|p ps Hp _ IH]; [done|].
    by destruct p. }
  unfold slip_inv, suppressed_count. cbn [fst snd]. rewrite !H0. split; [done|].
  split; [done|]. intros _. by rewrite truncations_0.
Qed.
End Slip.

(** ** Properties *)

(** C34.  A client is a network: with the configured prefix lengths, two
    addresses share a budget exactly when they are of one family and agree above
    the host bits; the low 64 bits of an IPv6 address never matter, and no IPv4
    client shares a budget with an IPv6 one. *)
Theorem ClientKey_new_networks (p4 p6 : N) (a b : IpAddr) :
  p4 <= 32 → addr_wf a → addr_wf b →
  ClientKey_new a p4 p6 = ClientKey_new b p4 p6 ↔ same_client_network p4 p6 a b.
Proof. apply ClientKey_new_eq. Qed.

Lemma ClientKey_new_networks_witness :
  (ClientKey_new (V4 0xC0000201) 24 64 = ClientKey_new (V4 0xC00002FE) 24 64 ↔
   same_client_network 24 64 (V4 0xC0000201) (V4 0xC00002FE)) ∧
  same_client_network 24 64 (V4 0xC0000201) (V4 0xC00002FE) ∧
  ¬ same_client_network 24 64 (V4 0xC0000201) (V4 0xC0000301).
Proof.
  split; [apply (ClientKey_new_networks 24 64 (V4 0xC0000201) (V4 0xC00002FE)); by vm_compute|].
  split; by vm_compute.
Defined.

(** C31.  Budgets are isolated: in any sequence of requests, which UDP requests of
    one client and kind are let through depends on those requests alone.  Other
    clients, TCP, and the client's own requests of the other kind neither use up
    nor refill its budget; in particular a flood of negative answers cannot
    suppress real ones. *)
Theorem rrl_budgets_isolated `{G : LimiterOps} `{!LimiterLaws G}
    (reqs : list RrlRequest) (r : Rrl) (k : ClientKey) (K : Kind) :
  (λ p, allowed (snd p)) <$>
    List.filter (λ p : RrlRequest * Decision, of_client (rrl_params r) k K (fst p))
      (zip reqs (run_decide reqs r)) =
  allowed <$> run_decide (List.filter (of_client (rrl_params r) k K) reqs) r.
Proof. by apply run_decide_agree. Qed.

#[local] Existing Instance TokenBucket.ops.
#[local] Existing Instance TokenBucket.laws.

(** Three answers of one client with a budget of two, between negatives of the
    same client and answers of another. *)
Definition sample_requests : list RrlRequest :=
  let a := V4 0xC0000201 in
  [mkRrlRequest 0 a AnswerKind false; mkRrlRequest 1 a Negative false;
   mkRrlRequest 2 (V4 0xC6336401) AnswerKind false; mkRrlRequest 3 a Negative false;
   mkRrlRequest 4 a AnswerKind false; mkRrlRequest 5 a AnswerKind true;
   mkRrlRequest 6 a AnswerKind false].

Definition sample_rrl_params : RrlParams := mkRrlParams true 1 2 2 24 64.

Lemma rrl_budgets_isolated_witness :
  let r := @Rrl_new TokenBucket.ops sample_rrl_params in
  let k := ClientKey_new (V4 0xC0000201) 24 64 in
  (λ p, allowed (snd p)) <$>
    List.filter (λ p : RrlRequest * Decision, of_client (rrl_params r) k AnswerKind (fst p))
      (zip sample_requests (run_decide sample_requests r)) =
  allowed <$> run_decide (List.filter (of_client (rrl_params r) k AnswerKind) sample_requests) r ∧
  run_decide sample_requests r = [Allow; Allow; Allow; Allow; Allow; Allow; Truncate].
Proof.
  split; [apply (rrl_budgets_isolated sample_requests)|vm_refl].
Defined.

(** C32.  The slip schedule survives concurrency: however the atomic accesses of
    any number of requests interleave with each other and with sweeps, of the
    first [m] suppressed responses exactly every [slip]-th, starting with the
    first, is truncated rather than dropped (none with [slip] 0), and the shared
    counter is [m] modulo 2^64. *)
Theorem rrl_slip_schedule `{G : LimiterOps} (params : RrlParams) (phases ps : list Phase) (r : Rrl) :
  Forall (λ p, arrived p = true) phases →
  rtc rrl_step (Rrl_new params, phases) (r, ps) →
  let m := count_decided Drop ps + count_decided Truncate ps in
  suppressed r = wrap 64 m ∧
  (m <= 2 ^ 64 →
   count_decided Truncate ps = if slip params =? 0 then 0 else (m + slip params - 1) / slip params).
Proof.
  intros Ha Hr. assert (slip_inv params (r, ps)) as (_ & H1 & H2).
  { revert Hr. apply (rtc_ind_r (slip_inv params)); [by apply slip_inv_init|].
    intros s s' _ Hst Hi. by eapply slip_step. }
  done.
Qed.

(** Three requests of one client with a budget of one: the second and the third
    are both denied before either counts itself. *)
Module SlipInstance.
Definition params := mkRrlParams true 1 1 2 24 64.
Definition a := V4 0xC0000201.
Definition req := Arrived a AnswerKind false.
Definition r0 : @Rrl TokenBucket.ops := Rrl_new params.
Definition r1 := snd (check_limit 0 a AnswerKind r0).
Definition r2 := snd (check_limit 1 a AnswerKind r1).
Definition r3 := snd (check_limit 2 a AnswerKind r2).
Definition r4 := snd (count_suppressed r3).
Definition r5 := snd (count_suppressed r4).
Definition final := [Decided Allow; Decided Drop; Decided Truncate].

Lemma slip_run : rtc rrl_step (r0, [req; req; req]) (r5, final).
Proof.
  eapply rtc_l; [by apply (step_check r0 [] [req; req] a AnswerKind false 0 true r1)|].
  eapply rtc_l; [by apply (step_check r1 [Decided Allow] [req] a AnswerKind false 1 false r2)|].
  eapply rtc_l; [by apply (step_check r2 [Decided Allow; Denied] [] a AnswerKind false 2 false r3)|].
  eapply rtc_l; [by apply (step_count r3 [Decided Allow; Denied] [] 0 r4)|].
  eapply rtc_l; [by apply (step_count r4 [Decided Allow] [Decided Truncate] 1 r5)|].
  apply rtc_refl.
Qed.

Lemma rrl_slip_schedule_witness :
  let m := count_decided Drop final + count_decided Truncate final in
  m = 2 ∧ suppressed r5 = wrap 64 m ∧
  (m <= 2 ^ 64 →
   count_decided Truncate final = if slip params =? 0 then 0 else (m + slip params - 1) / slip params).
Proof.
  split; [done|]. apply (rrl_slip_schedule params [req; req; req] final r5); [by repeat constructor|].
  apply slip_run.
Defined.
End SlipInstance.
