(* ===== verification/RrlMemory.v ===== *)
(** * The memory of the rate limiter

    [src/rrl.rs] keeps a bucket for every client it has seen, and nothing but
    [Rrl::sweep] removes any.  [LimiterStore] states what the crate documents about
    the buckets it holds; from it follows which clients can still have one, and
    that a client is answered again when it has been quiet for a while. *)

From S2P Require Import Prelude RustText RustNet Config Rrl RrlSpec.

(** What governor documents of its store: the keys it holds; that a check adds at
    most its own key, whose bucket is full again within a time that depends on the
    quota only; and that [retain_recent] drops the keys whose state cannot be told
    from a fresh one; and that a full bucket lets a response through, if its
    capacity is not zero. *)
Class LimiterStore (G : LimiterOps) := {
  stored : Limiter → gset ClientKey;
  (** The time in which a bucket that is not used becomes full. *)
  refill : Limiter → N;
  (** From when on the bucket of a key is full. *)
  full_from : Limiter → ClientKey → N;
  limiter_len_stored l : limiter_len l = N.of_nat (size (stored l));
  stored_keyed q : stored (keyed q) = ∅;
  stored_check t k l : stored (snd (check_key t k l)) ⊆ {[k]} ∪ stored l;
  stored_retain t l k : k ∈ stored (retain_recent t l) → k ∈ stored l ∧ t < full_from l k;
  refill_check t k l : refill (snd (check_key t k l)) = refill l;
  refill_retain t l : refill (retain_recent t l) = refill l;
  full_keyed q k : full_from (keyed q) k = 0;
  full_check t k l : full_from (snd (check_key t k l)) k <= N.max (full_from l k) (t + refill l);
  full_other t k k' l : k ≠ k' → full_from (snd (check_key t k l)) k' = full_from l k';
  full_retain t l k : full_from (retain_recent t l) k <= full_from l k;
  (** The bucket has a capacity: [Quota] wants non-zero values. *)
  admits : Limiter → Prop;
  admits_keyed b q : b ≠ 0 → admits (keyed (allow_burst b q));
  admits_check t k l : admits l → admits (snd (check_key t k l));
  admits_retain t l : admits l → admits (retain_recent t l);
  admits_full t k l : admits l → full_from l k <= t → fst (check_key t k l) = true;
}.

Section Memory.
Context {G : LimiterOps} {S : LimiterStore G}.

(** What is done to the limiter. *)
Inductive RrlOp :=
  | Decides (now : N) (addr : IpAddr) (kind : Kind) (is_tcp : bool)
  | Sweeps (now : N) (kind : Kind).

Definition apply_op (r : Rrl) (op : RrlOp) : Rrl :=
  match op with
  | Decides now addr kind is_tcp => snd (decide now addr kind is_tcp r)
  | Sweeps now kind => sweep_limiter now kind r
  end.

Definition run_ops (ops : list RrlOp) (r : Rrl) : Rrl := foldl apply_op r ops.

(** The clients whose responses were checked at an instant later than [t - window]. *)
Definition clients_since (params : RrlParams) (since : N → bool) (ops : list RrlOp) : gset ClientKey :=
  list_to_set (ops ≫= λ op,
    match op with
    | Decides now addr _ is_tcp =>
        if since now && negb (is_tcp || negb (enabled params))
        then [ClientKey_new addr (ipv4_prefix params) (ipv6_prefix params)] else []
    | Sweeps _ _ => []
    end).

Definition ever (_ : N) : bool := true.
Definition later_than (t window now : N) : bool := t <? now + window.

(** A limiter of one of the two kinds, and what its buckets can be. *)
Definition window (r : Rrl) : N := N.max (refill (answers r)) (refill (negatives r)).

(** What has been done explains the buckets and when they are full. *)
Record explained (params : RrlParams) (w : N) (ops : list RrlOp) (l : Limiter) : Prop := {
  ex_refill : refill l <= w;
  ex_full k t : t < full_from l k → k ∈ clients_since params (later_than t w) ops;
  ex_admits : admits l;
}.

Lemma clients_since_app params since a b :
  clients_since params since (a ++ b) = clients_since params since a ∪ clients_since params since b.
Proof. unfold clients_since. by rewrite bind_app, list_to_set_app_L. Qed.

Lemma clients_since_one params t w now addr kind is_tcp :
  is_tcp || negb (enabled params) = false → t < now + w →
  ClientKey_new addr (ipv4_prefix params) (ipv6_prefix params) ∈
    clients_since params (later_than t w) [Decides now addr kind is_tcp].
Proof.
  intros He Ht. unfold clients_since, later_than. simpl.
  rewrite (proj2 (N.ltb_lt _ _) Ht), He. simpl. set_solver.
Qed.

Lemma quota_admits params : admits (keyed (quota params)).
Proof. unfold quota. apply admits_keyed. repeat case_match; by try apply N.eqb_neq. Qed.

Lemma explained_new params w :
  refill (keyed (quota params)) <= w → explained params w [] (keyed (quota params)).
Proof. intros Hw. split; [done| |apply quota_admits]. intros k t. rewrite full_keyed. lia. Qed.

Lemma explained_weaken params w ops op l : explained params w ops l → explained params w (ops ++ [op]) l.
Proof. intros [H1 H2 H3]. split; [done| |done]. intros k t Ht. rewrite clients_since_app. apply elem_of_union_l. by apply H2. Qed.

Lemma explained_retain params w ops now kind t l :
  explained params w ops l → explained params w (ops ++ [Sweeps now kind]) (retain_recent t l).
Proof.
  intros [H1 H2 H3]. split; [by rewrite refill_retain| |by apply admits_retain].
  intros k t' Ht. rewrite clients_since_app.
  apply elem_of_union_l, H2. pose proof (full_retain t l k). lia.
Qed.

Lemma explained_check params w ops now addr kind is_tcp l :
  is_tcp || negb (enabled params) = false → explained params w ops l →
  explained params w (ops ++ [Decides now addr kind is_tcp])
    (snd (check_key now (ClientKey_new addr (ipv4_prefix params) (ipv6_prefix params)) l)).
Proof.
  intros He [H1 H2 H3]. set (key := ClientKey_new _ _ _). split; [by rewrite refill_check| |by apply admits_check].
  intros k t Ht. rewrite clients_since_app. destruct (base.decide (key = k)) as [<-|Hne].
  - pose proof (full_check now key l). destruct (N.lt_ge_cases t (full_from l key)) as [Hlt|Hge].
    + apply elem_of_union_l. by apply H2.
    + apply elem_of_union_r. apply clients_since_one; [done|lia].
  - rewrite full_other in Ht by done. apply elem_of_union_l. by apply H2.
Qed.

Record explains (params : RrlParams) (w : N) (ops : list RrlOp) (r : Rrl) : Prop := {
  es_params : rrl_params r = params;
  es_answers : explained params w ops (answers r);
  es_negatives : explained params w ops (negatives r);
}.

(** What a decision does to the limiters. *)
Lemma decide_limiters now addr kind is_tcp r :
  let key := client_key r addr in
  let r' := snd (decide now addr kind is_tcp r) in
  rrl_params r' = rrl_params r ∧
  if exempt r is_tcp then answers r' = answers r ∧ negatives r' = negatives r else
  match kind with
  | AnswerKind => answers r' = snd (check_key now key (answers r)) ∧ negatives r' = negatives r
  | Negative => answers r' = answers r ∧ negatives r' = snd (check_key now key (negatives r))
  end.
Proof.
  simpl. unfold decide. destruct (exempt r is_tcp); [done|]. unfold check_limit.
  destruct kind; simpl; destruct (check_key _ _ _) as [[] l]; done.
Qed.

Lemma explains_op params w ops op r :
  explains params w ops r → explains params w (ops ++ [op]) (apply_op r op).
Proof.
  intros [Hp Ha Hn]. destruct op as [now addr kind is_tcp|now kind]; simpl.
  - destruct (decide_limiters now addr kind is_tcp r) as [Hp' Hl]. unfold exempt, client_key in Hl. rewrite Hp in *.
    destruct (negb (enabled params) || is_tcp) eqn:He.
    + destruct Hl as [Ea En]. split; [done|rewrite Ea|rewrite En]; by apply explained_weaken.
    + rewrite orb_comm in He. destruct kind; destruct Hl as [Ea En];
        (split; [done|rewrite Ea|rewrite En]); by apply explained_check || by apply explained_weaken.
  - destruct kind; split; simpl; first [done|by apply explained_retain|by apply explained_weaken].
Qed.

Lemma explains_run params w ops r :
  explains params w [] r → explains params w ops (run_ops ops r).
Proof.
  intros H0. unfold run_ops. assert (∀ pre r, explains params w pre r → explains params w (pre ++ ops) (foldl apply_op r ops)) as H.
  { induction ops as [|op ops IH]; intros pre r' Hr; simpl; [by rewrite app_nil_r|].
    rewrite cons_middle, app_assoc. apply IH. by apply explains_op. }
  by apply (H []).
Qed.

(** The buckets after a sweep and some decisions: those swept ones that are not yet
    full, and those of the decisions. *)
Definition held_by (keys : gset ClientKey) (kind : Kind) (r : Rrl) : Prop := stored (limiter_of kind r) ⊆ keys.

Lemma grown (a b keys new : gset ClientKey) key :
  a ⊆ {[key]} ∪ b → b ⊆ keys → key ∈ new → a ⊆ keys ∪ new.
Proof. set_solver. Qed.

Lemma held_op params op keys k r :
  rrl_params r = params → held_by keys k r →
  held_by (keys ∪ clients_since params ever [op]) k (apply_op r op) ∧ rrl_params (apply_op r op) = params.
Proof.
  intros Hp Hr. unfold held_by in *. destruct op as [now addr kind is_tcp|now kind]; simpl.
  - destruct (decide_limiters now addr kind is_tcp r) as [Hp' Hl]. unfold exempt, client_key in Hl. rewrite Hp in *.
    split; [|done]. set (key := ClientKey_new _ _ _) in *.
    destruct (negb (enabled params) || is_tcp) eqn:He.
    + destruct Hl as [Ea En]. apply union_subseteq_l'. by destruct k; simpl in *; rewrite ?Ea, ?En.
    + assert (key ∈ clients_since params ever [Decides now addr kind is_tcp]) as Hk.
      { unfold clients_since, ever. rewrite orb_comm in He. simpl. rewrite He. simpl. set_solver. }
      destruct kind, k; destruct Hl as [Ea En]; cbn [limiter_of] in Hr |- *; rewrite ?Ea, ?En;
        first [by apply union_subseteq_l' | by eapply grown; [apply stored_check|..]].
  - split; [|by destruct kind]. apply union_subseteq_l'. destruct kind, k; simpl in *; try done;
      by intros x [Hx _]%stored_retain; apply Hr.
Qed.

Lemma held_run params ops keys k r :
  rrl_params r = params → held_by keys k r → held_by (keys ∪ clients_since params ever ops) k (run_ops ops r).
Proof.
  revert keys r. unfold run_ops. induction ops as [|op ops IH]; intros keys r Hp Hr.
  - unfold held_by in *. set_solver.
  - destruct (held_op params op keys k r Hp Hr) as [H1 H2].
    specialize (IH _ _ H2 H1). change (op :: ops) with ([op] ++ ops) at 1.
    by rewrite clients_since_app, assoc_L by apply _.
Qed.

Lemma run_params ops r : rrl_params (run_ops ops r) = rrl_params r.
Proof.
  unfold run_ops. revert r. induction ops as [|op ops IH]; intros r; [done|]. simpl. rewrite IH.
  destruct op as [now addr kind is_tcp|now kind]; [apply (decide_limiters now addr kind is_tcp r)|by destruct kind].
Qed.

Lemma held_tracked keys r : (∀ k, held_by keys k r) → tracked r <= 2 * N.of_nat (size keys).
Proof.
  intros H. pose proof (H AnswerKind) as Ha. pose proof (H Negative) as Hn. unfold tracked. rewrite !limiter_len_stored.
  pose proof (subseteq_size _ _ Ha). pose proof (subseteq_size _ _ Hn). simpl in *. lia.
Qed.

Lemma explains_start params ops :
  explains params (window (Rrl_new params)) ops (run_ops ops (Rrl_new params)).
Proof. apply explains_run. split; [done|..]; apply explained_new; unfold window; simpl; lia. Qed.

(** A client without a recent check finds its bucket full. *)
Lemma quiet_checked params w ops r t addr kind :
  explains params w ops r →
  ClientKey_new addr (ipv4_prefix params) (ipv6_prefix params) ∉ clients_since params (later_than t w) ops →
  fst (check_limit t addr kind r) = true.
Proof.
  intros [Hp Ha Hn] Hk.
  assert (∀ l, explained params w ops l → fst (check_key t (client_key r addr) l) = true) as H.
  { intros l [_ Hf Had]. apply admits_full; [done|]. unfold client_key. rewrite Hp.
    destruct (N.lt_ge_cases t (full_from l (ClientKey_new addr (ipv4_prefix params) (ipv6_prefix params)))); [|done].
    by destruct Hk; apply Hf. }
  unfold check_limit. destruct kind; simpl; [specialize (H _ Ha)|specialize (H _ Hn)];
    by destruct (check_key _ _ _) as [ok l].
Qed.

(** The buckets and the parameters, without the counter. *)
Definition same_buckets (r r' : Rrl) : Prop :=
  rrl_params r = rrl_params r' ∧ answers r = answers r' ∧ negatives r = negatives r'.

#[export] Instance same_buckets_equiv : Equivalence same_buckets.
Proof. split; unfold same_buckets; [done|intros ?? (?&?&?)|intros ??? (?&?&?) (?&?&?)]; split_and!; congruence. Qed.

#[export] Instance tracked_proper : Proper (same_buckets ==> eq) tracked.
Proof. intros r r' (_ & Ha & Hn). unfold tracked. by rewrite Ha, Hn. Qed.

#[export] Instance explains_proper params w ops : Proper (same_buckets ==> impl) (explains params w ops).
Proof. intros r r' (Hp & Ha & Hn) [H1 H2 H3]. split; [by rewrite <- Hp|by rewrite <- Ha|by rewrite <- Hn]. Qed.

Lemma same_buckets_op r r' op : same_buckets r r' → same_buckets (apply_op r op) (apply_op r' op).
Proof.
  destruct r as [p a n x], r' as [p' a' n' x']. intros (Hp & Ha & Hn). simpl in *. subst.
  destruct op as [now addr kind is_tcp|now kind]; simpl; [|by destruct kind].
  unfold decide, exempt, check_limit. simpl. destruct (_ || _); [done|].
  destruct (check_key _ _ _) as [[] l]; by destruct kind.
Qed.

#[export] Instance run_ops_proper ops : Proper (same_buckets ==> same_buckets) (run_ops ops).
Proof.
  unfold run_ops. induction ops as [|op ops IH]; [by intros ???|]. intros r r' H. simpl.
  by apply IH, same_buckets_op.
Qed.

(** A limiter that is swept holds recent clients only. *)
Lemma swept_held params w ops t k r :
  explains params w ops r → held_by (clients_since params (later_than t w) ops) k (sweep_limiter t k r).
Proof.
  intros [_ [_ Ha _] [_ Hn _]]. unfold held_by. destruct k; simpl; intros x [_ Hx]%stored_retain; [by apply Ha|by apply Hn].
Qed.

Lemma clients_since_mono params (p p' : N → bool) ops :
  (∀ n, p n = true → p' n = true) → clients_since params p ops ⊆ clients_since params p' ops.
Proof.
  intros Hp. unfold clients_since. intros x. rewrite !elem_of_list_to_set, !list_elem_of_bind.
  intros (op & Hx & Hop). exists op. split; [|done]. destruct op as [now addr ? is_tcp|]; [|done].
  destruct (p now) eqn:E; [|by apply not_elem_of_nil in Hx]. by rewrite (Hp now E).
Qed.

(** After a sweep, whose two halves may be apart, only recent clients have a
    bucket. *)
Lemma swept_bound params ops t mid t' ops' :
  t <= t' →
  tracked (run_ops (ops ++ Sweeps t AnswerKind :: mid ++ Sweeps t' Negative :: ops') (Rrl_new params)) <=
    2 * N.of_nat (size (clients_since params (later_than t (window (Rrl_new params))) ops ∪
                        clients_since params ever (mid ++ ops'))).
Proof.
  intros Ht. set (w := window (Rrl_new params)). set (r := run_ops ops (Rrl_new params)).
  set (r1 := sweep_limiter t AnswerKind r). set (r2 := run_ops mid r1).
  assert (explains params w ops r) as H0 by apply explains_start.
  assert (rrl_params r = params) as Hp by apply run_params.
  assert (explains params w (ops ++ Sweeps t AnswerKind :: mid) r2) as H2.
  { unfold r2, r1, r. pose proof (explains_start params (ops ++ Sweeps t AnswerKind :: mid)) as H.
    unfold run_ops in *. by rewrite foldl_app in H. }
  rewrite clients_since_app, assoc_L by apply _. set (keys := _ ∪ clients_since params ever mid).
  assert (run_ops (ops ++ Sweeps t AnswerKind :: mid ++ Sweeps t' Negative :: ops') (Rrl_new params) =
    run_ops ops' (sweep_limiter t' Negative r2)) as ->.
  { unfold r2, r1, r, run_ops. rewrite foldl_app. simpl. by rewrite foldl_app. }
  assert (rrl_params r2 = params) as Hp2 by (unfold r2; by rewrite run_params).
  apply held_tracked. intros k. apply (held_run params); [done|]. destruct k.
  - apply (held_run params mid _ AnswerKind r1 Hp). by apply swept_held.
  - unfold held_by. etrans; [by apply (swept_held params w (ops ++ Sweeps t AnswerKind :: mid) t' Negative r2)|].
    rewrite cons_middle, !clients_since_app. unfold keys. apply union_subseteq. split; [|apply union_subseteq; split].
    + apply union_subseteq_l', clients_since_mono. unfold later_than. intros n Hn%N.ltb_lt. apply N.ltb_lt. lia.
    + unfold clients_since at 1. simpl. set_solver.
    + apply union_subseteq_r', clients_since_mono. done.
Qed.

(** Quiet clients are forgotten, and served again.  Whatever responses were
    decided before, after a sweep at [t] and [t'] and any further decisions there are
    at most two buckets (answers and negatives) for each client network that was
    checked after [t], or less than the refill time of a bucket before [t]; TCP
    clients, or any with limiting off, never have a bucket.  And a response to a
    client network that was not checked for the refill time is let through,
    whatever the others did. *)
Theorem limiter_memory_bounded (params : RrlParams) (ops ops' : list RrlOp) (t t' : N) :
  t <= t' →
  let w := window (Rrl_new params) in
  tracked (run_ops ops' (sweep t t' (run_ops ops (Rrl_new params)))) <=
    2 * N.of_nat (size (clients_since params (later_than t w) ops ∪ clients_since params ever ops')) ∧
  ∀ addr kind is_tcp,
    ClientKey_new addr (ipv4_prefix params) (ipv6_prefix params) ∉ clients_since params (later_than t w) ops →
    fst (decide t addr kind is_tcp (run_ops ops (Rrl_new params))) = Allow.
Proof.
  intros Ht. cbv zeta. split.
  { pose proof (swept_bound params ops t [] t' ops' Ht) as H. unfold run_ops in *. by rewrite foldl_app in H. }
  intros addr kind is_tcp Hk.
  pose proof (quiet_checked _ _ _ _ _ _ kind (explains_start params ops) Hk) as H.
  unfold decide. destruct (exempt _ _); [done|]. destruct (check_limit _ _ _ _) as [ok r]. simpl in H. by subst ok.
Qed.
End Memory.

(** ** Instance *)

(** In [TokenBucket] a bucket is full again after [depth] periods. *)
#[export] Instance token_store : LimiterStore TokenBucket.ops.
Proof.
  refine {|
    stored (l : @Limiter TokenBucket.ops) := dom (TokenBucket.full_at l);
    refill (l : @Limiter TokenBucket.ops) := TokenBucket.depth (TokenBucket.q l) * TokenBucket.period (TokenBucket.q l);
    full_from (l : @Limiter TokenBucket.ops) k := default 0 (TokenBucket.full_at l !! k);
    admits (l : @Limiter TokenBucket.ops) := TokenBucket.depth (TokenBucket.q l) ≠ 0 |}; simpl.
  - intros l. by rewrite size_dom.
  - done.
  - intros t k l. unfold TokenBucket.check. case_match; simpl; set_solver.
  - intros t l k. rewrite elem_of_dom. intros [n [H1 H2]%map_lookup_filter_Some].
    rewrite elem_of_dom, H1. split; [by eexists|done].
  - intros t k l. unfold TokenBucket.check. by case_match.
  - done.
  - intros q k. by rewrite lookup_empty.
  - intros t k l. unfold TokenBucket.check. case_match eqn:E; simpl; [|lia].
    rewrite lookup_insert_eq. apply N.leb_le in E. simpl. lia.
  - intros t k k' l Hk. unfold TokenBucket.check. case_match; simpl; [|done]. by rewrite lookup_insert_ne.
  - intros t l k. destruct (filter _ _ !! k) as [n|] eqn:E; simpl; [|lia].
    apply map_lookup_filter_Some in E as [-> _]. simpl. lia.
  - done.
  - intros t k l Hl. unfold TokenBucket.check. by case_match.
  - done.
  - intros t k l Hl Hf. unfold TokenBucket.check. case_match eqn:E; [done|].
    apply N.leb_gt in E. nia.
Qed.

#[local] Existing Instance TokenBucket.ops.

(** Two clients, the first long gone when the sweep comes. *)
Definition gone : RrlOp := Decides 0 (V4 0xC0000201) AnswerKind false.
Definition recent : RrlOp := Decides (from_millis 100000) (V4 0xC6336401) Negative false.

Lemma limiter_memory_bounded_witness :
  let t := from_millis 100010 in
  let w := window (Rrl_new RrlParams_default) in
  tracked (run_ops [gone; recent] (Rrl_new RrlParams_default)) = 2 ∧
  tracked (sweep t (t + 1) (run_ops [gone; recent] (Rrl_new RrlParams_default))) = 1 ∧
  (tracked (sweep t (t + 1) (run_ops [gone; recent] (Rrl_new RrlParams_default))) <=
     2 * N.of_nat (size (clients_since RrlParams_default (later_than t w) [gone; recent] ∪
                         clients_since RrlParams_default ever [])) ∧
   ∀ addr kind is_tcp,
     ClientKey_new addr 24 64 ∉ clients_since RrlParams_default (later_than t w) [gone; recent] →
     fst (decide t addr kind is_tcp (run_ops [gone; recent] (Rrl_new RrlParams_default))) = Allow).
Proof.
  cbv zeta. split; [vm_refl|]. split; [vm_refl|].
  apply (limiter_memory_bounded RrlParams_default [gone; recent] [] (from_millis 100010) (from_millis 100010 + 1)).
  apply N.leb_le. vm_refl.
Defined.
