(* ===== verification/UpstreamSpec.v ===== *)
(** * Correctness of [src/upstream.rs]

    What may be relayed from a foreign answer, how the circuit breaker opens and
    closes, and what holds of an upstream under any number of overlapping
    lookups. *)

From S2P Require Import Prelude RustText RustNet Dns Nibble Config Upstream.

(** ** The allowlist *)

Section Filter.
Context {D : DnsOps} {L : DnsLaws D}.

(** The record answers the query with a PTR of the upstream's own, under the
    query's name and with a bounded TTL. *)
Definition safe_record (qname up_qname : DName) (answers : list DRecord) (r : DRecord) : Prop :=
  rec_name r = qname ∧ rec_class r = DNSClass.IN ∧
  MIN_RELAY_TTL <= rec_ttl r ∧ rec_ttl r <= MAX_RELAY_TTL ∧
  ∃ r0 target, r0 ∈ answers ∧ rec_class r0 = DNSClass.IN ∧ name_eq (rec_name r0) up_qname = true ∧
    rec_data r0 = RData.PTR target ∧ rec_data r = RData.PTR target ∧
    (MIN_RELAY_TTL <= rec_ttl r0 → rec_ttl r0 <= MAX_RELAY_TTL → rec_ttl r = rec_ttl r0).

Lemma relayable_spec up_qname r :
  relayable up_qname r = true ↔
  rec_class r = DNSClass.IN ∧ name_eq (rec_name r) up_qname = true ∧
  ∃ target, rec_data r = RData.PTR target.
Proof.
  unfold relayable. rewrite !andb_true_iff, !bool_decide_eq_true. split.
  - intros (((Hc & Ht) & Hn) & Hd). destruct (rec_data r); [eauto|done..].
  - intros (Hc & Hn & target & Hd). by rewrite Hd.
Qed.

Lemma clamp_bounds lo hi x : lo <= hi → lo <= clamp lo hi x ∧ clamp lo hi x <= hi.
Proof. unfold clamp. lia. Qed.

Lemma elem_of_take_in {A} n (l : list A) x : x ∈ take n l → x ∈ l.
Proof. rewrite <- (take_drop n l) at 2. set_solver. Qed.

Lemma filter_upstream_safe qname up_qname answers r :
  r ∈ filter_upstream qname up_qname answers → safe_record qname up_qname answers r.
Proof.
  unfold filter_upstream. intros (r0 & -> & H0)%list_elem_of_fmap.
  apply elem_of_take_in, list_elem_of_In, filter_In in H0 as [Hin Hr].
  apply list_elem_of_In in Hin. apply relayable_spec in Hr as (Hc & Hn & target & Ht).
  unfold relay. split; [by autorewrite with dns|]. split; [by autorewrite with dns|].
  rewrite !from_rdata_ttl, !from_rdata_data.
  destruct (clamp_bounds MIN_RELAY_TTL MAX_RELAY_TTL (rec_ttl r0)) as [H1 H2]; [done|].
  do 2 (split; [done|]). exists r0, target. do 5 (split; [done|]). unfold clamp. lia.
Qed.

Lemma filter_upstream_len qname up_qname answers :
  len (filter_upstream qname up_qname answers) =
  N.min MAX_RELAYED_RECORDS (len (List.filter (relayable up_qname) answers)).
Proof.
  unfold filter_upstream, len. rewrite length_fmap, length_take. lia.
Qed.

Lemma safe_record_mono q u ans ans' r :
  (∀ x, x ∈ ans → x ∈ ans') → safe_record q u ans r → safe_record q u ans' r.
Proof. unfold safe_record. naive_solver. Qed.
End Filter.

(** ** The circuit breaker *)

Module BreakerFacts.
Import Breaker.

(** Closed below the threshold, and open for at most the cooldown. *)
Definition breaker_inv (now : N) (b : t) : Prop :=
  poisoned b = false ∧
  match open_until (state b) with
  | None => consecutive_failures (state b) < BREAKER_THRESHOLD
  | Some until => until <= now + BREAKER_COOLDOWN
  end.

Lemma default_inv now : breaker_inv now default.
Proof. done. Qed.

Lemma inv_mono now now' b : now <= now' → breaker_inv now b → breaker_inv now' b.
Proof. intros Hn [Hp H]. split; [done|]. destruct (open_until _); lia. Qed.

Lemma is_open_inv now b : breaker_inv now b → breaker_inv now (snd (is_open now b)).
Proof.
  intros [Hp H]. unfold is_open. destruct (open_until (state b)) as [u|] eqn:E.
  - destruct (now <? u); unfold breaker_inv; simpl; by rewrite ?E.
  - unfold breaker_inv. simpl. by rewrite E.
Qed.

Lemma record_success_inv now b : breaker_inv now b → breaker_inv now (record_success b).
Proof. intros [Hp H]. unfold record_success. rewrite Hp. by split. Qed.

Lemma record_failure_inv now b : breaker_inv now b → breaker_inv now (snd (record_failure now b)).
Proof.
  intros [Hp H]. unfold record_failure. rewrite Hp.
  destruct (open_until (state b)) as [u|] eqn:E.
  - rewrite bool_decide_eq_false_2, andb_false_r by done. split; [done|]. done.
  - rewrite bool_decide_eq_true_2, andb_true_r by done.
    destruct (N.leb_spec BREAKER_THRESHOLD (u32_saturating_add (consecutive_failures (state b)) 1));
      (split; [done|simpl; lia]).
Qed.

(** The accesses to a breaker: a lookup asks whether it is open; it ends with a word
    from the upstream, or without. *)
Inductive Access :=
  | Asked (now : N)
  | Answered
  | TimedOut (now : N).

Definition access (a : Access) (b : t) : t :=
  match a with
  | Asked now => snd (is_open now b)
  | Answered => record_success b
  | TimedOut now => snd (record_failure now b)
  end.

(** The timeouts since the last reset.  The eighth of them begins a pause of ten
    seconds; an answer resets, and so does the first lookup that asks after the
    pause. *)
Definition count_access (fs : list N) (a : Access) : list N :=
  match a with
  | Asked now =>
      match fs !! 7%nat with
      | Some t => if t + from_secs 10 <=? now then [] else fs
      | None => fs
      end
  | Answered => []
  | TimedOut now => fs ++ [now]
  end.

Definition timeouts_since_reset (h : list Access) : list N := foldl count_access [] h.

(** A breaker that has seen these timeouts since it was reset. *)
Definition counts (fs : list N) (b : t) : Prop :=
  poisoned b = false ∧ consecutive_failures (state b) = N.min (len fs) u32_MAX ∧
  open_until (state b) = (λ t, t + from_secs 10) <$> fs !! 7%nat.

Lemma counts_is_open fs b now :
  counts fs b → fst (is_open now b) = match fs !! 7%nat with Some t => now <? t + from_secs 10 | None => false end.
Proof.
  intros (_ & _ & Ho). unfold is_open. rewrite Ho. destruct (fs !! 7%nat) as [t|]; simpl; [|done].
  by destruct (_ <? _).
Qed.

Lemma counts_record_failure fs b now :
  counts fs b → fst (record_failure now b) = bool_decide (length fs = 7%nat).
Proof.
  intros (Hp & Hc & Ho). unfold record_failure. rewrite Hp, Hc, Ho.
  unfold u32_saturating_add, u32_MAX, BREAKER_THRESHOLD, len. change (N.ones 32) with 4294967295.
  destruct (fs !! 7%nat) as [t|] eqn:E; simpl.
  - rewrite andb_false_r. simpl. symmetry. apply bool_decide_eq_false. apply lookup_lt_Some in E. lia.
  - rewrite andb_true_r. apply lookup_ge_None in E. case_bool_decide as Hl.
    + rewrite Hl. done.
    + destruct (N.leb_spec 8 (N.min (N.min (N.of_nat (length fs)) 4294967295 + 1) 4294967295)); [lia|done].
Qed.

Lemma counts_access fs b a : counts fs b → counts (count_access fs a) (access a b).
Proof.
  intros H. pose proof H as (Hp & Hc & Ho). destruct a as [now| |now]; simpl.
  - unfold is_open. rewrite Ho. destruct (fs !! 7%nat) as [t|]; simpl; [|done].
    rewrite N.ltb_antisym. by destruct (_ <=? _).
  - unfold record_success. by rewrite Hp.
  - pose proof (counts_record_failure fs b now H) as Hf. unfold record_failure in *. rewrite Hp in *.
    assert (u32_saturating_add (consecutive_failures (state b)) 1 = N.min (len (fs ++ [now])) u32_MAX) as Hn.
    { rewrite Hc, len_app. unfold u32_saturating_add. rewrite len_cons, len_nil. lia. }
    destruct (_ && _); simpl in *; (split; [done|]); (split; [done|]); simpl.
    + symmetry in Hf. apply bool_decide_eq_true in Hf. by rewrite lookup_app_r, Hf by lia.
    + rewrite Ho. symmetry in Hf. apply bool_decide_eq_false in Hf.
      destruct (Nat.lt_ge_cases 7 (length fs)); [by rewrite lookup_app_l|].
      rewrite !lookup_ge_None_2; [done|rewrite length_app; simpl; lia|done].
Qed.

Lemma counts_history h b fs : counts fs b → counts (foldl count_access fs h) (foldl (flip access) b h).
Proof. revert b fs. induction h as [|a h IH]; intros b fs H; [done|]. simpl. by apply IH, counts_access. Qed.

Lemma counts_default : counts [] default.
Proof. done. Qed.
End BreakerFacts.

Import BreakerFacts.

(** ** Overlapping lookups *)

Section Worlds.
Context {D : DnsOps} {L : DnsLaws D} {R : ResolverOps}.

(** A permit for every waiting lookup, a bounded breaker, and the right name
    asked for. *)
Record world_inv (w : World) : Prop := {
  wi_permits : inflight (w_upstream w) + len (w_waiting w) = MAX_INFLIGHT;
  wi_breaker : breaker_inv (w_now w) (breaker (w_upstream w));
  wi_names : Forall (λ p, upstream_qname (fst p) = Some (snd p)) (w_waiting w);
}.

Lemma lookup_begin_cases now q u o u' :
  lookup_begin now q u = (o, u') →
  breaker u' = snd (Breaker.is_open now (breaker u)) ∧
  match o with
  | Some up => inflight u' + 1 = inflight u ∧ upstream_qname q = Some up
  | None => inflight u' = inflight u
  end.
Proof.
  unfold lookup_begin. destruct (Breaker.is_open now (breaker u)) as [op b]. destruct op.
  { by intros [= <- <-]. }
  simpl. destruct (N.eqb_spec (inflight u) 0) as [|H0]; [by intros [= <- <-]|].
  destruct (upstream_qname q) as [up|]; intros [= <- <-]; simpl; (split; [done|]); [split; [lia|done]|lia].
Qed.

Lemma lookup_end_cases now q up o u kept u' :
  lookup_end now q up o u = (kept, u') →
  inflight u' = inflight u + 1 ∧
  (breaker_inv now (breaker u) → breaker_inv now (breaker u')) ∧
  kept = match o with Found answers => filter_upstream q up answers | _ => [] end.
Proof.
  unfold lookup_end. destruct o; intros [= <- <-]; simpl; (split; [done|]); (split; [|done]);
    auto using record_success_inv, record_failure_inv.
Qed.

Lemma up_step_inv w r w' : up_step w r w' → world_inv w → world_inv w'.
Proof.
  destruct 1 as [u ws now now' Hn|u ws now q up u' Hb|u ws now q u' Hb|u pre q up post now o kept u' He
                |u pre q post now]; intros [Hp Hb' Hq]; simpl in *.
  - split; simpl; [done| |done]. by eapply inv_mono.
  - apply lookup_begin_cases in Hb as (Hb & Hi & Hup). split; simpl; [rewrite len_cons; lia| |].
    + rewrite Hb. by apply is_open_inv.
    + by constructor.
  - apply lookup_begin_cases in Hb as (Hb & Hi). split; simpl; [lia| |done].
    rewrite Hb. by apply is_open_inv.
  - apply lookup_end_cases in He as (Hi & Hbr & _). rewrite len_app, len_cons in Hp.
    apply Forall_app in Hq as [Hq1 [_ Hq2]%Forall_cons].
    split; simpl; [rewrite len_app; lia|auto|by apply Forall_app].
  - rewrite len_app, len_cons in Hp. apply Forall_app in Hq as [Hq1 [_ Hq2]%Forall_cons].
    split; simpl; [rewrite len_app; lia|done|by apply Forall_app].
Qed.

Definition fresh_upstream (u : Upstream) : Prop :=
  inflight u = MAX_INFLIGHT ∧ breaker u = Breaker.default.

Lemma reachable_inv u0 w : fresh_upstream u0 → up_reachable u0 w → world_inv w.
Proof.
  intros [Hi Hb]. induction 1 as [now|w r w' _ IH Hs]; [|by eapply up_step_inv].
  split; simpl; [by rewrite Hi|by rewrite Hb|done].
Qed.

Lemma Upstream_new_fresh a t u : Upstream_new a t = Ok u → fresh_upstream u.
Proof. unfold Upstream_new. destruct (build_resolver _ _); [|done]. by intros [= <-]. Qed.

(** The states of overlapping lookups, with the accesses to the breaker that led to
    them: every lookup asks once when it begins, and records its outcome once if it
    ends. *)
Inductive up_history (u0 : Upstream) : list Access → World → Prop :=
  | history_init now : up_history u0 [] (mkWorld u0 [] now)
  | history_tick h u ws now now' :
      up_history u0 h (mkWorld u ws now) → now <= now' → up_history u0 h (mkWorld u ws now')
  | history_begin h u ws now q up u' :
      up_history u0 h (mkWorld u ws now) → lookup_begin now q u = (Some up, u') →
      up_history u0 (h ++ [Asked now]) (mkWorld u' ((q, up) :: ws) now)
  | history_skip h u ws now q u' :
      up_history u0 h (mkWorld u ws now) → lookup_begin now q u = (None, u') →
      up_history u0 (h ++ [Asked now]) (mkWorld u' ws now)
  | history_end h u pre q up post now o kept u' :
      up_history u0 h (mkWorld u (pre ++ (q, up) :: post) now) → lookup_end now q up o u = (kept, u') →
      up_history u0 (h ++ [match o with Elapsed => TimedOut now | _ => Answered end]) (mkWorld u' (pre ++ post) now)
  | history_cancel h u pre x post now :
      up_history u0 h (mkWorld u (pre ++ x :: post) now) →
      up_history u0 h (mkWorld (set_inflight (inflight u + 1) u) (pre ++ post) now).

Lemma reachable_history u0 w : up_reachable u0 w ↔ ∃ h, up_history u0 h w.
Proof.
  split.
  - induction 1 as [now|w r w' _ [h IH] Hs]; [exists []; constructor|].
    destruct Hs; eexists; by econstructor.
  - intros [h H]. induction H; [constructor|..]; (eapply reach_step; [done|]); by econstructor.
Qed.

Lemma history_breaker u0 h w :
  up_history u0 h w → breaker (w_upstream w) = foldl (flip access) (breaker u0) h.
Proof.
  induction 1 as [|h u ws now now' _ IH|h u ws now q up u' _ IH Hb|h u ws now q u' _ IH Hb
                 |h u pre q up post now o kept u' _ IH He|h u pre x post now _ IH]; simpl in *; try done;
    rewrite foldl_snoc, <- IH; simpl.
  - by apply lookup_begin_cases in Hb as [-> _].
  - by apply lookup_begin_cases in Hb as [-> _].
  - unfold lookup_end in He. by destruct o; injection He as <- <-.
Qed.

(** The sequential lookup. *)
Lemma lookup_ptr_spec e q u kept u' :
  lookup_ptr e q u = (kept, u') →
  inflight u' = inflight u ∧
  (kept = [] ∨ ∃ up answers, upstream_qname q = Some up ∧ env_outcome e up = Found answers ∧
     kept = filter_upstream q up answers).
Proof.
  unfold lookup_ptr. destruct (lookup_begin (env_begin e) q u) as [[up|] u1] eqn:Eb.
  - apply lookup_begin_cases in Eb as (_ & Hi & Hup). intros He.
    apply lookup_end_cases in He as (Hi' & _ & ->). split; [lia|].
    destruct (env_outcome e up) as [answers| |] eqn:Eo; [|by left..].
    right. by exists up, answers.
  - apply lookup_begin_cases in Eb as (_ & Hi). intros [= <- <-]. split; [done|by left].
Qed.
End Worlds.

(** The name asked for always fits: a reverse name of an address has room for
    one more label. *)
Lemma reverse_lengths (ls : list bytes) a :
  labels_ci ls (addr_labels a) →
  Forall2 (λ x y : bytes, length x = length y) (ls ++ [UPSTREAM_LABEL])
    (replicate 32 [x00] ++ arpa_suffix ++ [UPSTREAM_LABEL]).
Proof.
  unfold addr_labels. intros H. rewrite app_assoc. apply Forall2_app; [|by repeat constructor].
  apply Forall2_app_inv_r in H as (l1 & l2 & H1 & H2 & ->). apply Forall2_app.
  - unfold nibble_labels in H1. revert H1. pose proof (length_nibbles 32 a) as Hl. revert Hl.
    generalize (nibbles 32 a). generalize 32%nat. intros n vs <- H1. revert l1 H1.
    induction vs as [|v vs IH]; intros l1 H1; [by apply Forall2_nil_inv_r in H1 as ->|].
    apply Forall2_cons_inv_r in H1 as (l & l1' & Hl & H1 & ->). simpl. constructor; [|by apply IH].
    by apply ci_eq_length in Hl.
  - eapply Forall2_impl; [exact H2|]. intros x y. apply ci_eq_length.
Qed.

(** ** Properties *)

Section Properties.
Context {D : DnsOps} {L : DnsLaws D} {R : ResolverOps}.

(** C28.  The allowlist: whatever a foreign server answers, every record relayed
    is a PTR of class IN that the answer holds for the very name asked,
    re-owned by the client's query name, with its TTL clamped to 30..3600
    seconds; and as many of them are relayed as the answer has, up to 8. *)
Theorem filter_upstream_allowlist (qname up_qname : DName) (answers : list DRecord) :
  (∀ r, r ∈ filter_upstream qname up_qname answers → safe_record qname up_qname answers r) ∧
  len (filter_upstream qname up_qname answers) =
    N.min 8 (len (List.filter (relayable up_qname) answers)).
Proof.
  split; [intros r; apply filter_upstream_safe|]. apply filter_upstream_len.
Qed.

(** Every reverse name can be asked upstream: for a query name that denotes
    an address, [upstream_qname] succeeds and appends one label. *)
Theorem upstream_qname_total (q : DName) (a : N) :
  ptr_name_to_addr q = Some a →
  ∃ u, upstream_qname q = Some u ∧ labels u = labels q ++ [bs "upstream"] ∧ is_fqdn u = is_fqdn q.
Proof.
  intros [_ Hl%reverse_lengths]%ptr_name_to_addr_Some.
  assert (valid_labels (labels q ++ [UPSTREAM_LABEL]) = true) as Hv.
  { rewrite (valid_labels_lengths _ _ Hl). by vm_compute. }
  unfold valid_labels in Hv. apply andb_true_iff in Hv as [_ Hv%N.leb_le].
  destruct (proj2 (append_label_valid UPSTREAM_LABEL q)) as [u Hu]; [done|].
  exists u. unfold upstream_qname. rewrite Hu. split; [done|]. by apply append_label_labels.
Qed.

(** C29.  An upstream never has more than 64 lookups outstanding, returns every
    permit, also of lookups that are dropped while they wait, and is never
    skipped for longer than the cooldown: in every reachable state the free
    permits and the waiting lookups add up to 64, and ten seconds later the
    breaker lets the next lookup through. *)
Theorem upstream_permits_and_cooldown (addr : IpAddr) (timeout : N) (u0 : Upstream) (w : World) :
  Upstream_new addr timeout = Ok u0 → up_reachable u0 w →
  inflight (w_upstream w) + len (w_waiting w) = 64 ∧
  fst (Breaker.is_open (w_now w + from_secs 10) (breaker (w_upstream w))) = false.
Proof.
  intros Hu Hw. apply Upstream_new_fresh in Hu.
  pose proof (reachable_inv u0 w Hu Hw) as [Hp [_ Hb] _]. split; [done|].
  unfold Breaker.is_open. destruct (Breaker.open_until _); [|done].
  by rewrite (proj2 (N.ltb_ge _ _)).
Qed.

(** Every result of a lookup is safe, in any interleaving: what it returns
    is empty, or it answers a lookup that was waiting, and then every record is
    an allowed one for that lookup's query and at most 8 are returned. *)
Theorem upstream_results_safe (addr : IpAddr) (timeout : N) (u0 : Upstream) (w w' : World)
    (kept : list DRecord) :
  Upstream_new addr timeout = Ok u0 → up_reachable u0 w → up_step w (Some kept) w' →
  kept = [] ∨
  ∃ q up answers, (q, up) ∈ w_waiting w ∧ upstream_qname q = Some up ∧ len kept <= 8 ∧
    ∀ r, r ∈ kept → safe_record q up answers r.
Proof.
  intros Hu Hw Hs. apply Upstream_new_fresh in Hu.
  pose proof (wi_names _ (reachable_inv u0 w Hu Hw)) as Hq. rewrite Forall_forall in Hq.
  inversion Hs as [| |u ws now q u' Hb|u pre q up post now o k u' He|]; subst; [by left|].
  simpl in Hq. apply lookup_end_cases in He as (_ & _ & ->).
  destruct o as [answers| |]; [|by left..]. right. exists q, up, answers.
  assert ((q, up) ∈ pre ++ (q, up) :: post) as Hin by set_solver.
  split; [done|]. split; [by apply (Hq (q, up))|]. split.
  - rewrite filter_upstream_len. unfold MAX_RELAYED_RECORDS. lia.
  - intros r. apply filter_upstream_safe.
Qed.
End Properties.

(** C30.  When an upstream is skipped.  Whatever lookups overlap, its breaker is
    determined by the timeouts since the last reset, where an answer resets, and so
    does the first lookup that begins after a pause.  The eighth of these timeouts
    trips the breaker and no other does; from then on lookups are skipped for
    exactly ten seconds, which no later timeout extends. *)
Theorem breaker_trips_at_threshold {D : DnsOps} {R : ResolverOps} (addr : IpAddr) (timeout : N) (u0 : Upstream)
    (h : list Access) (w : World) :
  Upstream_new addr timeout = Ok u0 → up_history u0 h w →
  let ts := timeouts_since_reset h in
  let b := breaker (w_upstream w) in
  (∀ now, fst (Breaker.is_open now b) =
     match ts !! 7%nat with Some t => now <? t + from_secs 10 | None => false end) ∧
  (∀ now, fst (Breaker.record_failure now b) = bool_decide (length ts = 7%nat)).
Proof.
  intros [_ Hb]%Upstream_new_fresh Hh. cbv zeta.
  assert (counts (timeouts_since_reset h) (breaker (w_upstream w))) as Hc.
  { rewrite (history_breaker _ _ _ Hh), Hb. apply counts_history, counts_default. }
  split; intros now; [by apply counts_is_open|by apply counts_record_failure].
Qed.

(** ** Instances *)

#[local] Existing Instance LabelName.ops.
#[local] Existing Instance LabelName.laws.

(** A resolver that is its own configuration. *)
Module EchoResolver.
#[export] Instance ops : ResolverOps := {
  Resolver := IpAddr * ResolverSettings;
  build_resolver a s := Ok (a, s);
}.
End EchoResolver.
#[local] Existing Instance EchoResolver.ops.

Definition up_q : DName := LabelName.mk [bs "1"; bs "ip6"; bs "arpa"] true.
Definition up_uq : DName := LabelName.mk [bs "1"; bs "ip6"; bs "arpa"; bs "upstream"] true.

(** A hostile answer section: a foreign owner, a foreign class, a foreign type,
    and two records that qualify, with a short and a long TTL. *)
Definition up_answers : list DRecord :=
  let host := LabelName.mk [bs "host"; bs "example"] true in
  [mkRecord host DNSClass.IN 300 (RData.PTR host);
   mkRecord up_uq DNSClass.CH 300 (RData.PTR host);
   mkRecord up_uq DNSClass.IN 300 (RData.AAAA 1);
   mkRecord up_uq DNSClass.IN 1 (RData.PTR host);
   mkRecord up_uq DNSClass.IN 999999 (RData.PTR host)].

Lemma filter_upstream_allowlist_witness :
  ((∀ r, r ∈ filter_upstream up_q up_uq up_answers → safe_record up_q up_uq up_answers r) ∧
   len (filter_upstream up_q up_uq up_answers) =
     N.min 8 (len (List.filter (relayable up_uq) up_answers))) ∧
  (rec_ttl <$> filter_upstream up_q up_uq up_answers) = [30; 3600].
Proof. split; [apply (filter_upstream_allowlist up_q up_uq up_answers)|vm_refl]. Defined.

Definition up_reverse : DName :=
  LabelName.mk (nibble_labels 32 0x20010db8000000000000000000000001 ++ arpa_suffix) true.

Lemma upstream_qname_total_witness :
  ∃ u, upstream_qname up_reverse = Some u ∧ labels u = labels up_reverse ++ [bs "upstream"] ∧
       is_fqdn u = is_fqdn up_reverse.
Proof. apply (upstream_qname_total up_reverse 0x20010db8000000000000000000000001). vm_refl. Defined.

(** One lookup in flight. *)
Definition up_u0 : Upstream :=
  mkUpstream (V4 0xC0000201) (V4 0xC0000201, resolver_settings (from_millis 300)) 64 Breaker.default
    (from_millis 300).
Definition up_w1 : World := mkWorld (set_inflight 63 up_u0) [(up_q, up_uq)] 5.

Lemma up_w1_reachable : up_reachable up_u0 up_w1.
Proof.
  eapply reach_step; [apply (reach_init (D:=LabelName.ops) _ 5)|]. by apply (step_begin (D:=LabelName.ops) up_u0 [] 5 up_q up_uq).
Qed.

Lemma upstream_permits_and_cooldown_witness :
  Upstream_new (V4 0xC0000201) (from_millis 300) = Ok up_u0 ∧ len (w_waiting up_w1) = 1 ∧
  inflight (w_upstream up_w1) + len (w_waiting up_w1) = 64 ∧
  fst (Breaker.is_open (w_now up_w1 + from_secs 10) (breaker (w_upstream up_w1))) = false.
Proof.
  split; [done|]. split; [done|].
  apply (upstream_permits_and_cooldown (V4 0xC0000201) (from_millis 300) up_u0 up_w1);
    [done|apply up_w1_reachable].
Defined.

Lemma upstream_results_safe_witness :
  let kept := filter_upstream up_q up_uq up_answers in
  len kept = 2 ∧
  (kept = [] ∨
   ∃ q up answers, (q, up) ∈ w_waiting up_w1 ∧ upstream_qname q = Some up ∧ len kept <= 8 ∧
     ∀ r, r ∈ kept → safe_record q up answers r).
Proof.
  split; [vm_refl|].
  eapply (upstream_results_safe (V4 0xC0000201) (from_millis 300) up_u0 up_w1);
    [done|apply up_w1_reachable|].
  apply (step_end (D:=LabelName.ops) (set_inflight 63 up_u0) [] up_q up_uq [] 5 (Found up_answers)). done.
Defined.

(** Sixteen lookups, one after the other, that all time out, a second each, but that
    the ninth begins after the pause: the eighth trips the breaker, and so does the
    sixteenth. *)
Definition eight_timeouts (from : N) : list Access :=
  flat_map (λ i, [Asked (from_secs (from + i)); TimedOut (from_secs (from + i + 1))]) [0; 1; 2; 3; 4; 5; 6; 7].

Example sixteen_timeouts :
  len (timeouts_since_reset (eight_timeouts 0)) = 8 ∧
  timeouts_since_reset (eight_timeouts 0 ++ [Asked (from_secs 17)]) = timeouts_since_reset (eight_timeouts 0) ∧
  timeouts_since_reset (eight_timeouts 0 ++ [Asked (from_secs 18)]) = [] ∧
  timeouts_since_reset (eight_timeouts 0 ++ eight_timeouts 18) !! 7%nat = Some (from_secs 26).
Proof. split_and!; vm_refl. Qed.

(** Eight lookups that wait at once for an upstream that is dead. *)
Definition eight_dead : list Access := replicate 8 (Asked 5) ++ replicate 8 (TimedOut (from_secs 1)).

Lemma begin_waiting n :
  N.of_nat n <= 64 →
  up_history up_u0 (replicate n (Asked 5)) (mkWorld (set_inflight (64 - N.of_nat n) up_u0) (replicate n (up_q, up_uq)) 5).
Proof.
  induction n as [|n IH]; intros Hn; [constructor|]. rewrite replicate_S_end. simpl replicate.
  eapply (history_begin (D := LabelName.ops)); [apply IH; lia|].
  unfold lookup_begin. set (m := 64 - N.of_nat n).
  change (Breaker.is_open 5 (breaker (set_inflight m up_u0))) with (false, Breaker.default). cbv beta iota zeta.
  change (inflight (set_breaker Breaker.default (set_inflight m up_u0))) with m.
  rewrite (proj2 (N.eqb_neq _ _)) by lia. assert (upstream_qname up_q = Some up_uq) as -> by vm_refl.
  unfold set_inflight, set_breaker. cbn. do 2 f_equal. lia.
Qed.

Lemma end_waiting n h u now :
  up_history up_u0 h (mkWorld u (replicate n (up_q, up_uq)) now) →
  ∃ w, up_history up_u0 (h ++ replicate n (TimedOut now)) w.
Proof.
  revert h u. induction n as [|n IH]; intros h u H; [rewrite app_nil_r; by eexists|]. simpl.
  destruct (lookup_end now up_q up_uq Elapsed u) as [kept u'] eqn:E.
  apply (history_end (D := LabelName.ops) _ _ _ [] _ _ _ _ Elapsed kept u') in H; [|done].
  apply IH in H. by rewrite <- app_assoc in H.
Qed.

Lemma eight_dead_history : ∃ w, up_history up_u0 eight_dead w.
Proof.
  apply (end_waiting 8 _ (set_inflight (64 - N.of_nat 8) up_u0)).
  eapply (history_tick (D := LabelName.ops)); [by apply (begin_waiting 8)|done].
Qed.

Lemma breaker_trips_at_threshold_witness :
  ∃ w, up_history up_u0 eight_dead w ∧
  timeouts_since_reset eight_dead !! 7%nat = Some (from_secs 1) ∧
  let b := breaker (w_upstream w) in
  (∀ now, fst (Breaker.is_open now b) =
     match timeouts_since_reset eight_dead !! 7%nat with Some t => now <? t + from_secs 10 | None => false end) ∧
  (∀ now, fst (Breaker.record_failure now b) = bool_decide (length (timeouts_since_reset eight_dead) = 7%nat)).
Proof.
  destruct eight_dead_history as [w Hw]. exists w. split; [exact Hw|]. split; [vm_refl|].
  apply (breaker_trips_at_threshold (V4 0xC0000201) (from_millis 300) up_u0 eight_dead w); [done|exact Hw].
Defined.
