(* ===== verification/HandlerSpec.v ===== *)
(** * Correctness of [src/server/handler.rs]

    What the handler answers, that it neither panics nor answers twice, and how
    the zones, the upstreams and the rate limiter act together in one request. *)

From S2P Require Import Prelude RustText RustNet ConfigError Dns Nibble Config ConfigSpec Parse Compile Sample CompileSpec Zones ZoneSpec Rrl RrlSpec Upstream UpstreamSpec Handler.
Import Lookup Synth.

(** ** The upstream clients *)

Section Clients.
Context {D : DnsOps} {L : DnsLaws D} {R : ResolverOps} {G : LimiterOps}.

Lemma build_upstreams_spec zs timeout m m' :
  build_upstreams zs timeout m = Ok m' →
  (∀ a u, m' !! a = Some u → m !! a = Some u ∨
     Upstream_new a timeout = Ok u ∧ ∃ z, z ∈ zs ∧ upstream z = Some a) ∧
  (∀ a, is_Some (m !! a) → is_Some (m' !! a)) ∧
  (∀ z a, z ∈ zs → upstream z = Some a → is_Some (m' !! a)).
Proof.
  revert m. induction zs as [|z zs IH]; intros m; cbn [build_upstreams].
  { intros [= ->]. split; [auto|]. split; [auto|]. by intros ? ? ?%not_elem_of_nil. }
  destruct (upstream z) as [a|] eqn:Ez.
  2:{ intros (H1 & H2 & H3)%IH. split; [|split; [done|]].
      - intros b u [?|(? & z' & ? & ?)]%H1; [by left|]. right. split; [done|]. exists z'.
        split; [by right|done].
      - intros z' b [->|Hin]%elem_of_cons ?; [congruence|by eapply H3]. }
  destruct (m !! a) as [u0|] eqn:Em.
  - intros (H1 & H2 & H3)%IH. split; [|split; [done|]].
    + intros b u [?|(? & z' & ? & ?)]%H1; [by left|]. right. split; [done|]. exists z'.
      split; [by right|done].
    + intros z' b [->|Hin]%elem_of_cons ?; [|by eapply H3]. apply H2. simplify_eq. by eexists.
  - destruct (Upstream_new a timeout) as [u0|] eqn:Eu; [|done]. cbn [result_bind].
    intros (H1 & H2 & H3)%IH. split; [|split].
    + intros b u [Hb|(? & z' & ? & ?)]%H1.
      * apply lookup_insert_Some in Hb as [[<- <-]|[_ ?]]; [|by left].
        right. split; [done|]. exists z. split; [left|done].
      * right. split; [done|]. exists z'. split; [by right|done].
    + intros b Hb. apply H2. apply lookup_insert_is_Some'. by right.
    + intros z' b [->|Hin]%elem_of_cons ?; [|by eapply H3]. simplify_eq. apply H2.
      rewrite lookup_insert_eq. by eexists.
Qed.

(** The records of an upstream that replace the synthesized ones: up to eight
    records of one of its answers, all allowed. *)
Definition relayed_for (z : Zone) (q : DName) (relayed : list DRecord) : Prop :=
  relayed ≠ [] ∧ len relayed <= 8 ∧ is_Some (upstream z) ∧
  ∃ up answers, upstream_qname q = Some up ∧ ∀ r, r ∈ relayed → safe_record q up answers r.

(** What a lookup of one request leaves of the upstreams. *)
Lemma override_ptr_cases e zs z q t records records' zs' :
  override_ptr e zs z q t records = (records', zs') →
  config zs' = config zs ∧
  (records' = records ∨ t = RecordType.PTR ∧ records ≠ [] ∧ relayed_for z q records').
Proof.
  unfold override_ptr. destruct records as [|r0 rs]; [by intros [= <- <-]; auto|].
  case_bool_decide as Ht; simpl; [|by intros [= <- <-]; auto].
  destruct (upstream z) as [a|] eqn:Ea; [|by intros [= <- <-]; auto].
  destruct (upstreams zs !! a) as [u|]; [|by intros [= <- <-]; auto].
  destruct (lookup_ptr e q u) as [kept u'] eqn:El. apply lookup_ptr_spec in El as [_ Hk].
  intros [= <- <-]. split; [done|]. destruct kept as [|k ks]; [by left|]. right.
  split; [done|]. split; [done|]. split; [done|].
  destruct Hk as [?|(up & ans & Hup & _ & ->)]; [done|]. rewrite filter_upstream_len, Ea.
  split; [unfold MAX_RELAYED_RECORDS; lia|]. split; [by eexists|]. exists up, ans. split; [done|]. intros r.
  apply filter_upstream_safe.
Qed.
End Clients.

(** ** Replies *)

Section Replies.
Context {D : DnsOps} {L : DnsLaws D} {R : ResolverOps} {G : LimiterOps}.

(** The name lies at or below an apex of the configuration. *)
Definition served (c : Config) (q : DName) : Prop :=
  ∃ z, z ∈ zones c ∧ (zone_of (ptr_zone z) q = true ∨ zone_of (fwd_parent z) q = true).

Definition declined_class (cl : DNSClass.t) : bool :=
  negb (match cl with DNSClass.IN | DNSClass.ANY => true | _ => false end).
Definition zone_transfer (t : RecordType.t) : bool :=
  match t with RecordType.AXFR | RecordType.IXFR => true | _ => false end.

Lemma push_apex_in out n x : x ∈ push_apex out n → x ∈ out ∨ x = n.
Proof. unfold push_apex. case_match; [set_solver|auto]. Qed.

Lemma apexes_in c a : a ∈ apexes c → ∃ z, z ∈ zones c ∧ (a = ptr_zone z ∨ a = fwd_parent z).
Proof.
  unfold apexes. assert (∀ zs out, a ∈ foldl (λ out z, foldl push_apex out [ptr_zone z; fwd_parent z]) out zs →
    a ∈ out ∨ ∃ z, z ∈ zs ∧ (a = ptr_zone z ∨ a = fwd_parent z)) as H.
  { induction zs as [|z zs IH]; intros out Ha; [by left|]. simpl in Ha.
    apply IH in Ha as [Ha|(z' & ? & ?)]; [|right; exists z'; split; [by right|done]].
    apply push_apex_in in Ha as [Ha| ->]; [apply push_apex_in in Ha as [Ha| ->]|].
    - by left.
    - right. exists z. split; [left|by left].
    - right. exists z. split; [left|by right]. }
  intros [Ha|Ha]%H; [by apply not_elem_of_nil in Ha|done].
Qed.

Lemma apex_fqdn z : zone_wf z → is_fqdn (ptr_zone z) = true ∧ is_fqdn (fwd_parent z) = true.
Proof.
  intros Hz. split; [|by destruct (parent_labels _ _ (zwf_parent z Hz))].
  destruct (netmask_to_ptr_name_valid (prefix z) (mask z)) as (n & Hn & _ & Hf);
    [pose proof (zwf_mask z Hz); lia|apply Hz|]. pose proof (zwf_ptr z Hz). congruence.
Qed.

Lemma apex_served c a q :
  config_wf c → is_fqdn q = true → a ∈ apexes c → name_eq a q = true → served c q.
Proof.
  intros Hc Hq (z & Hz & Ha)%apexes_in Heq. exists z. split; [done|].
  pose proof (cwf_zones c Hc) as Hwf. rewrite Forall_forall in Hwf.
  destruct (apex_fqdn z (Hwf z Hz)) as [H1 H2].
  assert (is_fqdn a = true) as Hf by by destruct Ha as [-> | ->].
  apply name_eq_spec in Heq; [|done..].
  assert (zone_of a q = true) as Hzq.
  { apply zone_of_spec. exists [], (labels q). by split. }
  destruct Ha as [-> | ->]; auto.
Qed.

Lemma apex_reply_Some c q t rep :
  apex_reply c q t = Some rep →
  ∃ apex ttl, apex ∈ apexes c ∧ name_eq apex q = true ∧
    (ttl = match zones c with z :: _ => Config.ttl z | [] => 3600 end) ∧
    code rep = ResponseCode.NoError ∧ reply_authoritative rep = true ∧ authority rep = [] ∧
    reply_answers rep =
      (if is_soa_or_any t
       then match soa c with Some soa => [soa_record apex soa ttl] | None => [] end else []) ++
      (if is_ns_or_any t then ns_records apex c ttl else []).
Proof.
  unfold apex_reply. destruct (negb _); [done|].
  destruct (iter_find _ _) as [apex|] eqn:E; [|done]. cbn [mbind option_bind]. intros [= <-].
  apply iter_find_Some in E as (l1 & l2 & E & Hn & _). eexists apex, _.
  rewrite E. split; [set_solver|]. split; [done|]. by split.
Qed.

Lemma not_served c q :
  ¬ served c q ↔
  ∀ z, z ∈ zones c → zone_of (ptr_zone z) q = false ∧ zone_of (fwd_parent z) q = false.
Proof.
  unfold served. split.
  - intros H z Hz. destruct (zone_of (ptr_zone z) q) eqn:E1; [destruct H; eauto|].
    destruct (zone_of (fwd_parent z) q) eqn:E2; [destruct H; eauto|done].
  - intros H (z & Hz & Ho). destruct (H z Hz) as [H1 H2]. destruct Ho; congruence.
Qed.

(** The zones never change while a request is decided. *)
Lemma decide_reply_config e zs q t cl : config (snd (decide_reply e zs q t cl)) = config zs.
Proof.
  unfold decide_reply. fold (declined_class cl). fold (zone_transfer t).
  destruct (declined_class cl); [done|]. destruct (zone_transfer t); [done|].
  destruct (apex_reply _ _ _); [done|]. destruct (resolve _ _ _) as [z rs|z|]; [|done..].
  destruct (override_ptr e zs z q t rs) as [rs' zs'] eqn:E.
  by apply override_ptr_cases in E as [? _].
Qed.

Lemma resolve_Answer c q t z rs :
  resolve c q t = Answer z rs →
  z ∈ zones c ∧ ∀ r, r ∈ rs → rec_name r = q ∧ rec_class r = DNSClass.IN ∧ rec_ttl r = ttl z.
Proof.
  unfold resolve. destruct (if reverse_has_type t then _ else _) as [[z1 a1]|] eqn:E.
  - destruct (reverse_has_type t); [|done]. apply match_ptr_Some in E as [_ Ha].
    apply zone_for_addr_Some in Ha as (Hin & _). intros [= <- <-]. split; [done|].
    unfold ptr_record. destruct (forward_name z1 a1); cbn [mbind option_bind];
      [|by intros r ?%not_elem_of_nil].
    intros r ->%list_elem_of_singleton. by autorewrite with dns.
  - destruct (match_forward c q) as [[z1 a1]|] eqn:Ef; [|by destruct (zone_containing c q)].
    apply match_forward_Some in Ef as [Hin _]. intros [= <- <-]. split; [done|].
    intros r Hr. destruct (forward_has_type t); [|by apply not_elem_of_nil in Hr].
    apply list_elem_of_singleton in Hr as ->. unfold aaaa_record. by autorewrite with dns.
Qed.

Lemma resolve_NoName c q t z :
  resolve c q t = NoName z →
  z ∈ zones c ∧ (zone_of (ptr_zone z) q = true ∨ zone_of (fwd_parent z) q = true).
Proof.
  unfold resolve. destruct (if reverse_has_type t then _ else _) as [[z1 a1]|]; [done|].
  destruct (match_forward c q) as [[z1 a1]|]; [done|].
  destruct (zone_containing c q) eqn:E; [|done]. intros [= <-].
  unfold zone_containing in E. apply iter_find_Some in E as (l1 & l2 & -> & Hz & _).
  apply orb_true_iff in Hz. split; [set_solver|done].
Qed.

(** A reply by the branch that made it. *)
Inductive reply_case (zs : Zones) (q : DName) (t : RecordType.t) (rep : Reply) : Prop :=
  | case_apex :
      apex_reply (config zs) q t = Some rep → reply_case zs q t rep
  | case_answer z rs :
      apex_reply (config zs) q t = None → resolve (config zs) q t = Answer z rs →
      code rep = ResponseCode.NoError → reply_authoritative rep = true →
      authority rep = negative_authority (config zs) q (reply_kind rep) →
      reply_kind rep = match reply_answers rep with [] => Negative | _ => AnswerKind end →
      (reply_answers rep = rs ∨
       t = RecordType.PTR ∧ rs ≠ [] ∧ relayed_for z q (reply_answers rep)) →
      reply_case zs q t rep
  | case_no_name z :
      apex_reply (config zs) q t = None → resolve (config zs) q t = NoName z →
      code rep = ResponseCode.NXDomain → reply_authoritative rep = true →
      reply_answers rep = [] → reply_kind rep = Negative →
      authority rep = match soa (config zs) with
                      | Some soa => [soa_record (if zone_of (ptr_zone z) q then ptr_zone z
                                                 else fwd_parent z) soa (ttl z)]
                      | None => []
                      end →
      reply_case zs q t rep
  | case_no_zone :
      apex_reply (config zs) q t = None → resolve (config zs) q t = NoZone →
      rep = (match out_of_zone (params (config zs)) with
             | Refused => Reply_refused
             | NxDomain => mkReply ResponseCode.NXDomain false [] [] Negative
             end) →
      reply_case zs q t rep.

Lemma decide_reply_case e zs q t cl :
  let rep := fst (decide_reply e zs q t cl) in
  if declined_class cl || zone_transfer t then rep = Reply_refused else reply_case zs q t rep.
Proof.
  unfold decide_reply. fold (declined_class cl). fold (zone_transfer t).
  destruct (declined_class cl); [done|]. destruct (zone_transfer t); [done|]. simpl.
  destruct (apex_reply _ _ _) as [rep|] eqn:Ea; [by apply case_apex|].
  destruct (resolve _ _ _) as [z rs|z|] eqn:Er.
  - destruct (override_ptr e zs z q t rs) as [rs' zs'] eqn:Eo.
    apply override_ptr_cases in Eo as [_ Ho]. by eapply case_answer.
  - by eapply case_no_name.
  - by apply case_no_zone.
Qed.

Lemma resolve_Answer_served c q t z rs :
  config_wf c → resolve c q t = Answer z rs → served c q ∨ stray c q.
Proof.
  intros Hc Hr. destruct (base.decide (Exists (λ z, zone_of (ptr_zone z) q = true ∨
    zone_of (fwd_parent z) q = true) (zones c))) as [He|He].
  - left. apply Exists_exists in He as (z' & ? & ?). by exists z'.
  - right. unfold resolve in Hr. destruct (if reverse_has_type t then _ else _) as [[z1 a]|] eqn:E.
    { destruct (reverse_has_type t); [|done]. apply match_ptr_in_apex in E as [Hin H]; [|done].
      destruct He. apply Exists_exists. exists z1. auto. }
    destruct (match_forward c q) as [[z1 a]|] eqn:Ef; [|by destruct (zone_containing c q)].
    apply match_forward_stray in Ef as [Hin [H|H]]; [|done..]. destruct He. apply Exists_exists. exists z1. auto.
Qed.

(** The SOA of the first zone with an apex above the name. *)
Definition zone_soa (q : DName) (s : SoaParams) (z : Zone) : option (list DRecord) :=
  iter_find_map (λ apex, if zone_of apex q then Some [soa_record apex s (ttl z)] else None)
    [ptr_zone z; fwd_parent z].

Lemma zone_soa_Some q s z v :
  zone_soa q s z = Some v →
  ∃ apex, (apex = ptr_zone z ∨ apex = fwd_parent z) ∧ zone_of apex q = true ∧ v = [soa_record apex s (ttl z)].
Proof.
  intros (l1 & apex & l2 & E & Hv & _)%iter_find_map_Some.
  assert (apex ∈ [ptr_zone z; fwd_parent z]) as Ha by (rewrite E; set_solver).
  exists apex. split; [set_solver|]. destruct (zone_of apex q); [|done]. by injection Hv as <-.
Qed.

Lemma negative_authority_cases c q k :
  negative_authority c q k = [] ∨
  ∃ s z apex, soa c = Some s ∧ z ∈ zones c ∧ (apex = ptr_zone z ∨ apex = fwd_parent z) ∧
    zone_of apex q = true ∧ negative_authority c q k = [soa_record apex s (ttl z)].
Proof.
  unfold negative_authority. case_bool_decide; [by left|]. destruct (soa c) as [s|]; [|by left].
  change (iter_find_map _ (zones c)) with (iter_find_map (zone_soa q s) (zones c)).
  destruct (iter_find_map (zone_soa q s) (zones c)) as [v|] eqn:E; [right|by left].
  apply iter_find_map_Some in E as (l1 & y & l2 & E & (apex & Ha & Ho & ->)%zone_soa_Some & _).
  exists s, y, apex. rewrite E. split; [done|]. split; [set_solver|]. by do 2 (split; [done|]).
Qed.

Lemma negative_authority_served c q s :
  soa c = Some s → served c q →
  ∃ z apex, z ∈ zones c ∧ (apex = ptr_zone z ∨ apex = fwd_parent z) ∧ zone_of apex q = true ∧
    negative_authority c q Negative = [soa_record apex s (ttl z)].
Proof.
  intros Hs (z & Hz & Ho).
  destruct (negative_authority_cases c q Negative) as [E|(s' & z' & apex & Hs' & H)]; [|exists z', apex; congruence].
  unfold negative_authority in E. rewrite bool_decide_eq_false_2, Hs in E by auto.
  change (iter_find_map _ (zones c)) with (iter_find_map (zone_soa q s) (zones c)) in E.
  destruct (iter_find_map (zone_soa q s) (zones c)) as [v|] eqn:Ef.
  - apply iter_find_map_Some in Ef as (_ & y & _ & _ & (apex & _ & _ & ->)%zone_soa_Some & _). done.
  - rewrite iter_find_map_None, Forall_forall in Ef. apply Ef in Hz.
    apply iter_find_map_None in Hz. apply Forall_cons in Hz as [H1 [H2 _]%Forall_cons].
    destruct Ho as [Ho|Ho]; [by rewrite Ho in H1|by rewrite Ho in H2].
Qed.
End Replies.

(** ** Sending *)

Section Sending.
Context {D : DnsOps} {R : ResolverOps} {G : LimiterOps} {M : MessageOps} {ML : MessageLaws M}.

Definition payload_wf (zs : Zones) : Prop :=
  512 <= max_udp_payload (params (config zs)) <= u16_MAX.

(** What every response to a request satisfies, under a payload limit. *)
Definition response_ok (request : Request) (max : N) (r : Response) : Prop :=
  is_response (resp_metadata r) = true ∧ id (resp_metadata r) = id (req_metadata request) ∧
  (truncation (resp_metadata r) = true → resp_answers r = [] ∧ resp_authority r = []) ∧
  match resp_edns r with
  | Some (payload, v) => v = 0 ∧ 512 <= payload <= max ∧ is_Some (req_edns request)
  | None => True
  end.

(** One response, built from the reply, and the transport's verdict. *)
Lemma send_spec transport zs reply request tcp :
  payload_wf zs →
  ∃ r, send transport zs (req_metadata request) reply request tcp =
         ([r], Returned (result_map_err (λ e, bs "send failed: " ++ e) (transport r))) ∧
    response_ok request (max_udp_payload (params (config zs))) r ∧
    resp_answers r = reply_answers reply ∧ resp_authority r = authority reply ∧
    response_code (resp_metadata r) = code reply ∧
    authoritative (resp_metadata r) = reply_authoritative reply ∧
    recursion_available (resp_metadata r) = false ∧ authentic_data (resp_metadata r) = false ∧
    (is_Some (req_edns request) → is_Some (resp_edns r)).
Proof.
  intros Hp. unfold send, send_response. set (m := response_from_request (req_metadata request)).
  assert (truncation m = false) as Htr by apply response_truncation.
  assert (∀ edns, match edns with
                  | Some (payload, v) => v = 0 ∧ 512 <= payload <= max_udp_payload (params (config zs))
                      ∧ is_Some (req_edns request)
                  | None => True
                  end →
    (is_Some (req_edns request) → is_Some edns) →
    let r := mkResponse (mkMetadata (id m) (is_response m) (op_code m) (reply_authoritative reply)
      (truncation m) (recursion_desired m) false false (checking_disabled m) (code reply))
      (reply_answers reply) (authority reply) edns in
    response_ok request (max_udp_payload (params (config zs))) r ∧
    (is_Some (req_edns request) → is_Some (resp_edns r))) as Hr.
  { intros edns He Hs. split; [|done]. split; [apply response_is_response|].
    split; [apply response_id|]. split; [|done]. simpl. by rewrite Htr. }
  destruct (req_edns request) as [[v p]|] eqn:Ee.
  - destruct (if tcp then _ else _) as [adv|] eqn:Ea.
    + destruct (Hr (Some (adv, 0))) as [H1 H2]; [|done|].
      { split; [done|]. split; [|done]. destruct tcp; [injection Ea as <-; split; [apply Hp|done]|].
        unfold clamp_checked in Ea. destruct Hp as [Hp _].
        rewrite (proj2 (N.ltb_ge _ _)) in Ea by done. injection Ea as <-.
        by apply clamp_bounds. }
      eexists. split; [done|]. split; [exact H1|]. do 6 (split; [done|]). done.
    + destruct tcp; [done|]. unfold clamp_checked in Ea. destruct Hp as [Hp _].
      by rewrite (proj2 (N.ltb_ge _ _)) in Ea by done.
  - destruct (Hr None) as [H1 H2]; [done|by intros []|].
    eexists. split; [done|]. split; [exact H1|]. do 6 (split; [done|]). by intros [].
Qed.

(** The configuration that is in force for the response. *)
Definition in_force (e : Env) (st : ServerState) (z : Zones) : Prop :=
  z = st_zones st ∨ ∃ z0, config z0 = config (st_zones st) ∧ z = env_reloaded e z0.

Definition forces_valid_payload (e : Env) (st : ServerState) : Prop :=
  payload_wf (st_zones st) ∧
  ∀ z, config z = config (st_zones st) → payload_wf (env_reloaded e z).

Definition within_limit (e : Env) (st : ServerState) (request : Request) (r : Response) : Prop :=
  ∃ z, in_force e st z ∧ response_ok request (max_udp_payload (params (config z))) r.
End Sending.

Section Handling.
Context {D : DnsOps} {L : DnsLaws D} {R : ResolverOps} {G : LimiterOps} {M : MessageOps}
  {ML : MessageLaws M}.

Definition sends_one (e : Env) (st : ServerState) (request : Request)
    (s : Sent (result ResponseInfo bytes)) : Prop :=
  ∃ r, s = ([r], Returned (result_map_err (λ x, bs "send failed: " ++ x) (env_transport e r))) ∧
    within_limit e st request r.

(** The inner handler either fails on a malformed request, or sends one
    response, or drops the request; it never panics. *)
Lemma handle_inner_cases e request st :
  forces_valid_payload e st →
  let '(s, st') := handle_inner e request st in
  (∃ reason, req_info request = Err reason ∧ s = ([], Returned (Err (bs "malformed request: " ++ reason)))) ∨
  sends_one e st request s ∨
  (∃ info zs rep, req_info request = Ok info ∧
     decide_reply (env_lookup e) (st_zones st) (query_name info) (query_type info) (query_class info) = (rep, zs) ∧
     fst (decide (env_now e) (src info) (reply_kind rep) (is_tcp info) (st_rrl st)) = Drop ∧
     s = ([], Returned (Ok (response_info (response_from_request (req_metadata request)))))).
Proof.
  intros [Hp Hre]. unfold handle_inner. destruct (req_info request) as [info|reason] eqn:Ei; [|by left; exists reason].
  assert (∀ z rep tcp, in_force e st z → payload_wf z →
    sends_one e st request (send (env_transport e) z (req_metadata request) rep request tcp)) as Hsend.
  { intros z rep tcp Hz Hpz. destruct (send_spec (env_transport e) z rep request tcp Hpz) as (r & -> & Hr & _).
    exists r. split; [done|]. by exists z. }
  destruct (negb (bool_decide (op_code _ = _))).
  { right; left. apply Hsend; [by left|done]. }
  destruct (0 <? version request).
  { right; left. apply Hsend; [by left|done]. }
  pose proof (decide_reply_config (env_lookup e) (st_zones st) (query_name info) (query_type info) (query_class info)) as Hc.
  destruct (decide_reply _ _ _ _ _) as [rep zs] eqn:Ed. simpl in Hc.
  destruct (decide _ _ _ _ _) as [d rr] eqn:Er. destruct d.
  - right; left. apply Hsend; [right; by exists zs|by apply Hre].
  - right; right. exists info, zs, rep. split; [done|]. split; [done|]. by rewrite Er.
  - right; left. unfold send_response. eexists. split; [done|]. exists (st_zones st). split; [by left|].
    split; [apply response_is_response|]. split; [apply response_id|]. by split.
Qed.

Lemma servfail_ok transport request max : Forall (response_ok request max) (fst (servfail transport request)).
Proof.
  unfold servfail. constructor; [|done]. split; [apply metadata_new_response|].
  split; [apply metadata_new_id|]. by split.
Qed.
End Handling.

(** ** Properties *)

Section ReplyProperties.
Context {D : DnsOps} {L : DnsLaws D} {R : ResolverOps} {G : LimiterOps}.

(** C19.  When a reply is authoritative, for every accepted configuration and
    absolute name: exactly when the class is IN or ANY, the type is not a zone
    transfer, and the name lies at or below an apex of the configuration, or is a
    host name with one label appended, of a template that begins with the label
    [*].  Without such a template authority is never overstated. *)
Theorem authoritative_iff_served (e : LookupEnv) (zs : Zones) (q : DName)
    (t : RecordType.t) (cl : DNSClass.t) :
  config_wf (config zs) → is_fqdn q = true →
  (reply_authoritative (fst (decide_reply e zs q t cl)) = true ↔
   declined_class cl = false ∧ zone_transfer t = false ∧ (served (config zs) q ∨ stray (config zs) q)) ∧
  (Forall (λ z, wildcard_free (fwd z)) (zones (config zs)) → ¬ stray (config zs) q).
Proof.
  intros Hc Hq. split; [|apply no_stray]. pose proof (decide_reply_case e zs q t cl) as Hcase. cbv zeta in Hcase.
  set (rep := fst (decide_reply e zs q t cl)) in *.
  destruct (declined_class cl); simpl in Hcase; [rewrite Hcase; naive_solver|].
  destruct (zone_transfer t); simpl in Hcase; [rewrite Hcase; naive_solver|].
  destruct Hcase as [Ha|z rs _ Hr _ Hauth _ _ _|z _ Hr _ Hauth _ _ _|_ Hr ->].
  - apply apex_reply_Some in Ha as (apex & tt & Hin & Hn & _ & _ & Hauth & _).
    split; [|done]. intros _. do 2 (split; [done|]). left. by eapply apex_served.
  - split; [|done]. intros _. do 2 (split; [done|]). by eapply resolve_Answer_served.
  - split; [|done]. intros _. do 2 (split; [done|]).
    apply resolve_NoName in Hr as [Hz Ho]. left. by exists z.
  - apply resolve_NoZone in Hr as [Hr%not_served Hns]; [|done]. split; [|naive_solver].
    by destruct (out_of_zone _).
Qed.

(** A record that an answer section may hold: of the type asked for, unless that
    was ANY, and owned by the name asked for, or by the apex that equals it. *)
Record answer_fits (c : Config) (q : DName) (t : RecordType.t) (r : DRecord) : Prop := {
  fits_class : rec_class r = DNSClass.IN;
  fits_ttl : rec_ttl r <= 0x7FFFFFFF;
  fits_type : t = RecordType.ANY ∨ RData.record_type (rec_data r) = t;
  fits_owner : rec_name r = q ∨ rec_name r ∈ apexes c ∧ name_eq (rec_name r) q = true;
}.

(** A record that an authority section may hold: the SOA of an apex above the name. *)
Record authority_fits (c : Config) (q : DName) (r : DRecord) : Prop := {
  auth_class : rec_class r = DNSClass.IN;
  auth_ttl : rec_ttl r <= 0x7FFFFFFF;
  auth_type : RData.record_type (rec_data r) = RecordType.SOA;
  auth_owner : ∃ z, z ∈ zones c ∧ (rec_name r = ptr_zone z ∨ rec_name r = fwd_parent z);
  auth_above : zone_of (rec_name r) q = true;
}.

Lemma soa_record_data apex s tt : RData.record_type (rec_data (soa_record apex s tt)) = RecordType.SOA.
Proof. unfold soa_record. by rewrite from_rdata_data. Qed.

Lemma apex_answer_fits c q t rep r :
  config_wf c → apex_reply c q t = Some rep → r ∈ reply_answers rep → answer_fits c q t r.
Proof.
  intros Hc (apex & tt & Hin & Hn & Htt & _ & _ & _ & Hans)%apex_reply_Some Hr.
  rewrite Hans in Hr. assert (tt <= 0x7FFFFFFF) as Hle.
  { rewrite Htt. pose proof (cwf_zones _ Hc) as Hz. destruct (zones c) as [|z0 ?]; [done|]. by apply (Forall_inv Hz). }
  apply elem_of_app in Hr as [Hr|Hr].
  - destruct (is_soa_or_any t) eqn:Et; [|by apply not_elem_of_nil in Hr].
    destruct (soa c) as [s|]; [|by apply not_elem_of_nil in Hr]. apply list_elem_of_singleton in Hr as ->.
    assert (t = RecordType.ANY ∨ RecordType.SOA = t) by (destruct t; try discriminate; auto).
    unfold soa_record. split; autorewrite with dns; rewrite ?from_rdata_data; [done|lia|done|by right].
  - destruct (is_ns_or_any t) eqn:Et; [|by apply not_elem_of_nil in Hr].
    unfold ns_records in Hr. apply list_elem_of_fmap in Hr as (ns & -> & _).
    assert (t = RecordType.ANY ∨ RecordType.NS = t) by (destruct t; try discriminate; auto).
    split; autorewrite with dns; rewrite ?from_rdata_data; [done|done|done|by right].
Qed.

(** The type of a synthesized record, and that there is at most one. *)
Lemma resolve_Answer_type c q t z rs :
  resolve c q t = Answer z rs →
  len rs <= 1 ∧ ∀ r, r ∈ rs → t = RecordType.ANY ∨ RData.record_type (rec_data r) = t.
Proof.
  unfold resolve. destruct (if reverse_has_type t then _ else _) as [[z1 a1]|] eqn:E.
  - assert (t = RecordType.ANY ∨ RecordType.PTR = t) as Ht by (destruct t; try discriminate; auto).
    unfold ptr_record. intros [= _ <-]. destruct (forward_name z1 a1) as [n|]; cbn [mbind option_bind];
      split; try done; intros r Hr; [|by apply not_elem_of_nil in Hr].
    apply list_elem_of_singleton in Hr as ->. by rewrite from_rdata_data.
  - destruct (match_forward c q) as [[z1 a1]|]; [|by destruct (zone_containing c q)]. intros [= _ <-].
    destruct (forward_has_type t) eqn:Et; split; try done; intros r Hr; [|by apply not_elem_of_nil in Hr].
    assert (t = RecordType.ANY ∨ RecordType.AAAA = t) by (destruct t; try discriminate; auto).
    apply list_elem_of_singleton in Hr as ->. unfold aaaa_record. by rewrite from_rdata_data.
Qed.

Lemma relayed_fits c z q r relayed :
  relayed_for z q relayed → r ∈ relayed → answer_fits c q RecordType.PTR r.
Proof.
  intros (_ & _ & _ & up & ans & _ & Ho) Hr.
  destruct (Ho r Hr) as (Hn & Hcl & _ & Hmax & r0 & target & _ & _ & _ & _ & Hd & _).
  unfold MAX_RELAY_TTL in Hmax. split; [done|lia|right; by rewrite Hd|by left].
Qed.

(** The authority section is empty, or one SOA record on a reply without answers. *)
Lemma soa_fits c q z apex s :
  config_wf c → z ∈ zones c → apex = ptr_zone z ∨ apex = fwd_parent z → zone_of apex q = true →
  authority_fits c q (soa_record apex s (ttl z)).
Proof.
  intros Hc Hz Ha Ho. pose proof (cwf_zones _ Hc) as Hzs. rewrite Forall_forall in Hzs.
  pose proof (zwf_ttl z (Hzs z Hz)) as Ht.
  split; [| |apply soa_record_data| |]; unfold soa_record; autorewrite with dns; [done|lia|eauto|done].
Qed.

Lemma reply_authority_fits zs q t rep :
  config_wf (config zs) → reply_case zs q t rep →
  authority rep = [] ∨ reply_answers rep = [] ∧ ∃ r, authority rep = [r] ∧ authority_fits (config zs) q r.
Proof.
  intros Hc [Ha|z rs _ Hres _ _ Hau Hk _|z _ Hres _ _ Hno _ Hau|_ _ ->].
  - apply apex_reply_Some in Ha as (_ & _ & _ & _ & _ & _ & _ & -> & _). by left.
  - rewrite Hau, Hk. destruct (reply_answers rep) as [|? ?]; [|by left].
    destruct (negative_authority_cases (config zs) q Negative) as [?|(s & z' & apex & _ & Hz & Hap & Ho & ->)];
      [by left|]. right. split; [done|]. eexists. split; [done|]. by apply soa_fits.
  - rewrite Hau. destruct (soa (config zs)) as [s|]; [|by left]. right. split; [done|]. eexists. split; [done|].
    apply resolve_NoName in Hres as [Hz Ho].
    destruct (zone_of (ptr_zone z) q) eqn:E; (apply soa_fits; [done|done|auto|]); [done|]. by destruct Ho.
  - destruct (out_of_zone _); by left.
Qed.

(** C40.  What a reply may hold.  Every record of the answer section has class IN, a
    TTL of at most 2^31 - 1, the type asked for (unless that was ANY) and as its
    owner the name asked for, or the apex that equals it; there are no more than
    eight, or the SOA and the name servers.  The authority section is empty, or one
    SOA record, of an apex at or above the name, in a reply without answers. *)
Theorem decide_reply_records (e : LookupEnv) (zs : Zones) (q : DName)
    (t : RecordType.t) (cl : DNSClass.t) :
  config_wf (config zs) →
  let rep := fst (decide_reply e zs q t cl) in
  Forall (answer_fits (config zs) q t) (reply_answers rep) ∧
  len (reply_answers rep) <= N.max MAX_RELAYED_RECORDS (1 + len (nameservers (config zs))) ∧
  (authority rep = [] ∨
   reply_answers rep = [] ∧ ∃ r, authority rep = [r] ∧ authority_fits (config zs) q r).
Proof.
  intros Hc. pose proof (decide_reply_case e zs q t cl) as Hcase. cbv zeta in *.
  set (rep := fst (decide_reply e zs q t cl)) in *.
  destruct (declined_class cl || zone_transfer t);
    [rewrite Hcase; simpl; split; [done|]; split; [apply N.le_0_l|by left]|].
  pose proof (reply_authority_fits zs q t rep Hc Hcase) as Hau. rewrite Forall_forall.
  unfold MAX_RELAYED_RECORDS. split; [|split; [|exact Hau]].
  - intros r Hr. destruct Hcase as [Ha|z rs _ Hres _ _ _ _ [Ho|(-> & _ & Ho)]|z _ _ _ _ Hno _ _|_ _ ->].
    + by eapply apex_answer_fits.
    + rewrite Ho in Hr. destruct (resolve_Answer_type _ _ _ _ _ Hres) as [_ Ht].
      apply resolve_Answer in Hres as [Hin Hrs]. destruct (Hrs r Hr) as (Hn & Hcl & Httl).
      pose proof (cwf_zones _ Hc) as Hz. rewrite Forall_forall in Hz.
      split; [done|rewrite Httl; by apply Hz|by apply Ht|by left].
    + by eapply relayed_fits.
    + rewrite Hno in Hr. by apply not_elem_of_nil in Hr.
    + destruct (out_of_zone _); by apply not_elem_of_nil in Hr.
  - destruct Hcase as [Ha|z rs _ Hres _ _ _ _ [->|(_ & _ & Ho)]|z _ _ _ _ -> _ _|_ _ ->].
    + apply apex_reply_Some in Ha as (apex & tt & _ & _ & _ & _ & _ & _ & ->). rewrite len_app.
      assert (len (ns_records apex (config zs) tt) = len (nameservers (config zs))) as El
        by (unfold ns_records, len; by rewrite length_fmap).
      destruct (is_soa_or_any t), (is_ns_or_any t), (soa (config zs)); unfold len in *; simpl length; lia.
    + destruct (resolve_Answer_type _ _ _ _ _ Hres) as [Hl _]. lia.
    + destruct Ho as (_ & Hl & _). lia.
    + apply N.le_0_l.
    + destruct (out_of_zone _); apply N.le_0_l.
Qed.

(** Negative answers can be cached: with a SOA configured, an authoritative
    reply without records, other than to a query for the apex itself, carries
    exactly the SOA record of an apex above the name, whose TTL is at most the
    negative-caching TTL. *)
Theorem negative_reply_has_soa (e : LookupEnv) (zs : Zones) (q : DName)
    (t : RecordType.t) (cl : DNSClass.t) (s : SoaParams) :
  config_wf (config zs) → Forall (λ z, wildcard_free (fwd z)) (zones (config zs)) →
  soa (config zs) = Some s → apex_reply (config zs) q t = None →
  let rep := fst (decide_reply e zs q t cl) in
  reply_authoritative rep = true → reply_answers rep = [] →
  ∃ z apex, z ∈ zones (config zs) ∧ (apex = ptr_zone z ∨ apex = fwd_parent z) ∧
    zone_of apex q = true ∧ authority rep = [soa_record apex s (ttl z)] ∧
    rec_ttl (soa_record apex s (ttl z)) <= minimum s.
Proof.
  intros Hc Hw Hs Hapex rep Hauth Hans.
  assert (∀ apex x, rec_ttl (soa_record apex s x) <= minimum s) as Hmin.
  { intros apex x. unfold soa_record. autorewrite with dns. lia. }
  pose proof (decide_reply_case e zs q t cl) as Hcase. cbv zeta in Hcase. fold rep in Hcase.
  destruct (declined_class cl || zone_transfer t); [by rewrite Hcase in Hauth|].
  destruct Hcase as [Ha|z rs _ Hres _ _ Hneg Hkind _|z _ Hres _ _ _ _ Hneg|_ _ Hrep].
  - congruence.
  - rewrite Hans in Hkind. rewrite Hkind in Hneg.
    destruct (resolve_Answer_served _ _ _ _ _ Hc Hres) as [Hserved|Hstray]; [|by apply no_stray in Hstray].
    destruct (negative_authority_served _ q s Hs Hserved)
      as (z' & apex & Hz & Ha & Ho & E). exists z', apex. rewrite Hneg. by repeat split.
  - apply resolve_NoName in Hres as [Hz Ho]. rewrite Hs in Hneg. exists z.
    destruct (zone_of (ptr_zone z) q) eqn:Ep.
    + exists (ptr_zone z). split; [done|]. split; [by left|]. by repeat split.
    + exists (fwd_parent z). split; [done|]. split; [by right|]. destruct Ho as [?|Ho]; [done|].
      by repeat split.
  - rewrite Hrep in Hauth. by destruct (out_of_zone _).
Qed.

(** An exception to negative caching: an NS query for an apex of a
    configuration with a SOA but no name servers is answered NOERROR without
    records and without the SOA. *)
Theorem apex_ns_nodata_without_soa (e : LookupEnv) (zs : Zones) (apex : DName) :
  config_wf (config zs) → apex ∈ apexes (config zs) → nameservers (config zs) = [] →
  let rep := fst (decide_reply e zs apex RecordType.NS DNSClass.IN) in
  code rep = ResponseCode.NoError ∧ reply_authoritative rep = true ∧
  reply_answers rep = [] ∧ authority rep = [].
Proof.
  intros Hc Hin Hns rep. subst rep. unfold decide_reply. cbn [negb].
  pose proof (apexes_in _ _ Hin) as (z & Hz & Ha). pose proof (cwf_zones _ Hc) as Hwf.
  rewrite Forall_forall in Hwf. destruct (apex_fqdn z (Hwf z Hz)) as [H1 H2].
  assert (is_fqdn apex = true) as Hf by by destruct Ha as [-> | ->].
  destruct (apex_reply (config zs) apex RecordType.NS) as [rep|] eqn:E.
  - apply apex_reply_Some in E as (a & tt & _ & _ & _ & Hcode & Hauth & Hempty & Hans).
    simpl. unfold ns_records in Hans. rewrite Hns in Hans. by repeat split.
  - unfold apex_reply in E. cbn [is_soa_or_any is_ns_or_any negb orb] in E.
    destruct (iter_find _ (apexes (config zs))) as [a|] eqn:Ef; [done|].
    rewrite iter_find_None, Forall_forall in Ef. apply Ef in Hin.
    rewrite (proj2 (name_eq_spec apex apex Hf Hf)) in Hin; done.
Qed.

(** C18.  A PTR query for an address of a configured network always gets an
    authoritative answer with records, whatever state its upstream is in:
    either the one synthesized record, or, if the zone has an upstream, up to
    eight of its records, all of which pass the allowlist. *)
Theorem ptr_answer_never_lost (e : LookupEnv) (zs : Zones) (q : DName) (z : Zone) (a : N) :
  config_wf (config zs) → match_ptr (config zs) q = Some (z, a) →
  let rep := fst (decide_reply e zs q RecordType.PTR DNSClass.IN) in
  code rep = ResponseCode.NoError ∧ reply_authoritative rep = true ∧ reply_kind rep = AnswerKind ∧
  ((∃ n, forward_name z a = Some n ∧ reply_answers rep = [from_rdata q (ttl z) (RData.PTR n)]) ∨
   relayed_for z q (reply_answers rep)).
Proof.
  intros Hc Hm rep. pose proof (decide_reply_case e zs q RecordType.PTR DNSClass.IN) as Hcase.
  cbv zeta in Hcase. fold rep in Hcase. simpl in Hcase.
  pose proof (match_ptr_in_apex _ q z a Hc Hm) as [Hin _]. pose proof (cwf_zones _ Hc) as Hwf.
  rewrite Forall_forall in Hwf. destruct (ptr_record_total z q a (Hwf z Hin)) as (n & Hn & _ & Hrec).
  assert (resolve (config zs) q RecordType.PTR = Answer z [from_rdata q (ttl z) (RData.PTR n)]) as Hres.
  { unfold resolve. simpl. by rewrite Hm, Hrec. }
  destruct Hcase as [Ha|z' rs _ Hr Hcode Hauth _ Hkind Ho|z' _ Hr|_ Hr]; [done| |congruence..].
  rewrite Hr in Hres. injection Hres as -> ->. split; [done|]. split; [done|].
  destruct Ho as [Ho|(_ & _ & Ho)].
  - rewrite Hkind, Ho. split; [done|]. left. by exists n.
  - split; [|by right]. destruct Ho as [Hne _]. rewrite Hkind. by destruct (reply_answers rep).
Qed.
End ReplyProperties.

Section ClientProperties.
Context {D : DnsOps} {R : ResolverOps} {G : LimiterOps}.

(** One client per upstream: the server starts only if every configured
    upstream address has a resolver, and then holds exactly one fresh client
    for each such address and none for any other. *)
Theorem Zones_new_clients (c : Config) (zs : Zones) :
  Zones_new c = Ok zs →
  config zs = c ∧
  (∀ z a, z ∈ zones c → upstream z = Some a → is_Some (upstreams zs !! a)) ∧
  (∀ a u, upstreams zs !! a = Some u →
     Upstream_new a (upstream_timeout (params c)) = Ok u ∧ ∃ z, z ∈ zones c ∧ upstream z = Some a).
Proof.
  unfold Zones_new. destruct (build_upstreams _ _ _) as [m|] eqn:E; [|done]. intros [= <-].
  apply build_upstreams_spec in E as (H1 & _ & H3). split; [done|]. split; [exact H3|].
  intros a u [Hu|Hu]%H1; [by rewrite lookup_empty in Hu|done].
Qed.
End ClientProperties.

Section RequestProperties.
Context {D : DnsOps} {L : DnsLaws D} {R : ResolverOps} {G : LimiterOps} {M : MessageOps}
  {ML : MessageLaws M}.

(** C21.  Every response is well-formed: it answers this request's id, a
    truncated one carries no records, its OPT record is version 0, is there
    only if the request has one, and advertises between 512 bytes and the
    configured maximum. *)
Theorem handle_request_responses (e : Env) (request : Request) (st : ServerState) (r : Response) :
  forces_valid_payload e st →
  r ∈ fst (fst (handle_request e request st)) → within_limit e st request r.
Proof.
  intros Hv. pose proof (handle_inner_cases e request st Hv) as Hc. unfold handle_request.
  assert (∀ x, x ∈ fst (servfail (env_transport e) request) → within_limit e st request x) as Hsf.
  { intros x Hx. exists (st_zones st). split; [by left|].
    pose proof (servfail_ok (env_transport e) request (max_udp_payload (params (config (st_zones st))))) as Hf.
    rewrite Forall_forall in Hf. by apply Hf. }
  destruct (handle_inner e request st) as [s st']. destruct (servfail (env_transport e) request) as [more info].
  destruct Hc as [(reason & _ & ->)|[(r0 & -> & Hr0)|(? & ? & ? & _ & _ & _ & ->)]]; simpl.
  - apply Hsf.
  - destruct (env_transport e r0); simpl.
    + by intros ->%list_elem_of_singleton.
    + intros [->|Hr]%elem_of_cons; [done|by apply Hsf].
  - by intros ?%not_elem_of_nil.
Qed.

(** One answer per request: while the transport works, every request gets
    exactly one response, except one the rate limiter decides to drop; and
    even if it fails, only a SERVFAIL follows the first response. *)
Theorem handle_request_one_response (e : Env) (request : Request) (st : ServerState) :
  forces_valid_payload e st →
  let sent := fst (fst (handle_request e request st)) in
  len sent <= 2 ∧
  ((∀ r, ∃ i, env_transport e r = Ok i) →
   len sent = 1 ∨
   sent = [] ∧ ∃ info zs rep, req_info request = Ok info ∧
     decide_reply (env_lookup e) (st_zones st) (query_name info) (query_type info)
       (query_class info) = (rep, zs) ∧
     fst (decide (env_now e) (src info) (reply_kind rep) (is_tcp info) (st_rrl st)) = Drop).
Proof.
  intros Hv. pose proof (handle_inner_cases e request st Hv) as Hc. unfold handle_request.
  assert (len (fst (servfail (env_transport e) request)) = 1) as Hs by done.
  destruct (handle_inner e request st) as [s st']. destruct (servfail (env_transport e) request) as [more info].
  simpl in Hs. destruct Hc as [(reason & _ & ->)|[(r0 & -> & _)|(i & z & rep & Hi & Hd & Hdrop & ->)]]; simpl.
  - split; [lia|]. by left.
  - destruct (env_transport e r0) as [i|x] eqn:Et; simpl.
    + split; [done|]. by left.
    + rewrite len_cons. split; [lia|]. intros Ht. destruct (Ht r0). congruence.
  - split; [done|]. intros _. right. split; [done|]. by exists i, z, rep.
Qed.

(** What a client receives: over TCP, or with rate limiting off, a query
    of operation QUERY and EDNS version 0 gets exactly the reply that was
    decided, with recursion not available and data not authenticated, and with
    an OPT record if it sent one; the rate limiter is not consulted. *)
Theorem handle_request_answers (e : Env) (request : Request) (st : ServerState) (info : RequestInfo) :
  forces_valid_payload e st → (∀ r, ∃ i, env_transport e r = Ok i) →
  req_info request = Ok info → op_code (req_metadata request) = OpCode.Query →
  version request = 0 → exempt (st_rrl st) (is_tcp info) = true →
  let rep := fst (decide_reply (env_lookup e) (st_zones st) (query_name info) (query_type info)
               (query_class info)) in
  ∃ r i zs, handle_request e request st = ([r], i, mkServerState zs (st_rrl st)) ∧
    resp_answers r = reply_answers rep ∧ resp_authority r = authority rep ∧
    response_code (resp_metadata r) = code rep ∧
    authoritative (resp_metadata r) = reply_authoritative rep ∧
    recursion_available (resp_metadata r) = false ∧ authentic_data (resp_metadata r) = false ∧
    (is_Some (req_edns request) → is_Some (resp_edns r)).
Proof.
  intros [_ Hre] Ht Hi Hop Hver Hex rep. unfold handle_request, handle_inner. rewrite Hi.
  rewrite bool_decide_eq_true_2, Hver by done. cbn [negb N.ltb N.compare].
  pose proof (decide_reply_config (env_lookup e) (st_zones st) (query_name info) (query_type info)
    (query_class info)) as Hc.
  subst rep. destruct (decide_reply _ _ _ _ _) as [rep zs]. simpl in Hc |- *.
  unfold decide. rewrite Hex.
  destruct (send_spec (env_transport e) (env_reloaded e zs) rep request (is_tcp info) (Hre zs Hc))
    as (r & -> & _ & H). destruct (Ht r) as [i Hti]. rewrite Hti. simpl.
  by exists r, i, (env_reloaded e zs).
Qed.

(** Requests the server does not implement, another operation or a later
    EDNS version, are answered NOTIMP or BADVERS without records, and change
    neither the upstreams nor the rate limiter, so no limit applies to them. *)
Theorem handle_request_unsupported (e : Env) (request : Request) (st : ServerState) (info : RequestInfo) :
  forces_valid_payload e st → (∀ r, ∃ i, env_transport e r = Ok i) →
  req_info request = Ok info →
  op_code (req_metadata request) ≠ OpCode.Query ∨ 0 < version request →
  ∃ r i, handle_request e request st = ([r], i, st) ∧ resp_answers r = [] ∧ resp_authority r = [] ∧
    authoritative (resp_metadata r) = false ∧
    response_code (resp_metadata r) =
      if bool_decide (op_code (req_metadata request) = OpCode.Query)
      then ResponseCode.BADVERS else ResponseCode.NotImp.
Proof.
  intros [Hp _] Ht Hi Hcase. unfold handle_request, handle_inner. rewrite Hi.
  assert (∀ c, ∃ r i, (let '(s, st) := (send (env_transport e) (st_zones st) (req_metadata request)
      (Reply_error c) request (is_tcp info), st) in
    let '(sent, guarded) := s in
    match guarded with
    | Returned (Ok i) => (sent, i, st)
    | _ => let '(more, i) := servfail (env_transport e) request in (sent ++ more, i, st)
    end) = ([r], i, st) ∧ resp_answers r = [] ∧ resp_authority r = [] ∧
    authoritative (resp_metadata r) = false ∧ response_code (resp_metadata r) = c) as Hsend.
  { intros c. destruct (send_spec (env_transport e) (st_zones st) (Reply_error c) request (is_tcp info) Hp)
      as (r & -> & _ & H1 & H2 & H3 & H4 & _). destruct (Ht r) as [i Hti]. rewrite Hti. simpl.
    by exists r, i. }
  case_bool_decide as Hop; simpl.
  - destruct Hcase as [?|Hver]; [done|]. rewrite (proj2 (N.ltb_lt _ _) Hver). apply Hsend.
  - apply Hsend.
Qed.
End RequestProperties.

(** ** Instances *)

#[local] Existing Instance LabelName.ops.
#[local] Existing Instance LabelName.laws.
#[local] Existing Instance EchoResolver.ops.
#[local] Existing Instance TokenBucket.ops.

(** A message library whose response header copies what it must. *)
Module EchoMessages.
#[export] Instance ops : MessageOps := {
  response_from_request m := mkMetadata (id m) true (op_code m) false false
    (recursion_desired m) true true (checking_disabled m) ResponseCode.NoError;
  metadata_new i o := mkMetadata i true o false false false false false false ResponseCode.NoError;
  ResponseInfo := Metadata;
  response_info m := m;
}.

#[export] Instance laws : MessageLaws ops.
Proof. by split. Qed.
End EchoMessages.
#[local] Existing Instance EchoMessages.ops.
#[local] Existing Instance EchoMessages.laws.

Definition sample_zs : Zones :=
  match Zones_new sample_config with Ok zs => zs | Err _ => mkZones sample_config ∅ end.

Lemma sample_zs_new : Zones_new sample_config = Ok sample_zs.
Proof. vm_refl. Qed.

Lemma sample_zs_config : config sample_zs = sample_config.
Proof. vm_refl. Qed.

Lemma sample_zs_wf : config_wf (config sample_zs).
Proof. rewrite sample_zs_config. apply sample_wf. Qed.

Lemma sample_zs_wildcard_free : Forall (λ z, wildcard_free (fwd z)) (zones (config sample_zs)).
Proof. rewrite sample_zs_config. apply sample_wildcard_free. Qed.

(** An upstream that overrides the reverse name, and one that times out. *)
Definition host_name : DName := LabelName.mk [bs "host"; bs "example"; bs "net"] true.
Definition override_env : LookupEnv :=
  mkLookupEnv 0 1 (λ up, Found [mkRecord up DNSClass.IN 60 (RData.PTR host_name)]).
Definition timeout_env : LookupEnv := mkLookupEnv 0 1 (λ _, Elapsed).

Definition outside_name : DName := LabelName.mk [bs "example"; bs "org"] true.
Definition ns1_name : DName := LabelName.mk [bs "ns1"; bs "example"; bs "net"] true.
Definition hostmaster_name : DName := LabelName.mk [bs "hostmaster"; bs "example"; bs "net"] true.
Definition sample_rev : DName := sample_reverse.
Definition sample_fwd : DName := sample_forward.
Definition lan_apex : DName := LabelName.mk [bs "lan"; bs "example"; bs "net"] true.
Definition lan_other : DName := LabelName.mk [bs "nobody"; bs "lan"; bs "example"; bs "net"] true.

Lemma Zones_new_clients_witness :
  Zones_new sample_config = Ok sample_zs ∧
  config sample_zs = sample_config ∧
  (∀ z a, z ∈ zones sample_config → upstream z = Some a → is_Some (upstreams sample_zs !! a)) ∧
  (∀ a u, upstreams sample_zs !! a = Some u →
     Upstream_new a (upstream_timeout (params sample_config)) = Ok u ∧
     ∃ z, z ∈ zones sample_config ∧ upstream z = Some a).
Proof. split; [apply sample_zs_new|]. apply (Zones_new_clients sample_config), sample_zs_new. Defined.

Lemma authoritative_iff_served_witness :
  ((reply_authoritative (fst (decide_reply timeout_env sample_zs outside_name RecordType.A DNSClass.IN)) = true ↔
    declined_class DNSClass.IN = false ∧ zone_transfer RecordType.A = false ∧
    (served (config sample_zs) outside_name ∨ stray (config sample_zs) outside_name)) ∧
   (Forall (λ z, wildcard_free (fwd z)) (zones (config sample_zs)) → ¬ stray (config sample_zs) outside_name)) ∧
  reply_authoritative (fst (decide_reply timeout_env sample_zs outside_name RecordType.A DNSClass.IN)) = false.
Proof.
  split; [|vm_refl].
  apply (authoritative_iff_served timeout_env sample_zs outside_name RecordType.A DNSClass.IN);
    [apply sample_zs_wf|vm_refl].
Defined.

Lemma decide_reply_records_witness :
  let rep := fst (decide_reply timeout_env sample_zs lan_apex RecordType.ANY DNSClass.IN) in
  length (reply_answers rep) = 2%nat ∧
  Forall (answer_fits (config sample_zs) lan_apex RecordType.ANY) (reply_answers rep) ∧
  len (reply_answers rep) <= N.max MAX_RELAYED_RECORDS (1 + len (nameservers (config sample_zs))) ∧
  (authority rep = [] ∨
   reply_answers rep = [] ∧ ∃ r, authority rep = [r] ∧ authority_fits (config sample_zs) lan_apex r).
Proof.
  split; [vm_refl|].
  apply (decide_reply_records timeout_env sample_zs lan_apex RecordType.ANY DNSClass.IN), sample_zs_wf.
Defined.

Lemma negative_reply_has_soa_witness :
  ∃ s, soa (config sample_zs) = Some s ∧
  let rep := fst (decide_reply timeout_env sample_zs lan_other RecordType.A DNSClass.IN) in
  code rep = ResponseCode.NXDomain ∧
  ∃ z apex, z ∈ zones (config sample_zs) ∧ (apex = ptr_zone z ∨ apex = fwd_parent z) ∧
    zone_of apex lan_other = true ∧ authority rep = [soa_record apex s (ttl z)] ∧
    rec_ttl (soa_record apex s (ttl z)) <= minimum s.
Proof.
  exists (mkSoaParams ns1_name hostmaster_name 1 604800 86400 2419200 60).
  split; [vm_refl|]. split; [vm_refl|].
  apply (negative_reply_has_soa timeout_env sample_zs lan_other RecordType.A DNSClass.IN);
    [apply sample_zs_wf|apply sample_zs_wildcard_free|vm_refl..].
Defined.

(** A SOA without name servers. *)
Definition no_ns_input : bytes := bs "primary ns1.example.net
hostmaster hostmaster.example.net
network 2001:db8::/64
  resolves to %DIGITS%.lan.example.net
".
Definition no_ns_zs : Zones := mkZones (config_of no_ns_input) ∅.

Lemma no_ns_wf : config_wf (config no_ns_zs).
Proof. apply (Config_parse_wf no_ns_input). vm_refl. Qed.

Lemma apex_ns_nodata_without_soa_witness :
  soa (config no_ns_zs) = Some (mkSoaParams ns1_name hostmaster_name 1 604800 86400 2419200 60) ∧
  let rep := fst (decide_reply timeout_env no_ns_zs lan_apex RecordType.NS DNSClass.IN) in
  code rep = ResponseCode.NoError ∧ reply_authoritative rep = true ∧
  reply_answers rep = [] ∧ authority rep = [].
Proof.
  split; [vm_refl|].
  apply (apex_ns_nodata_without_soa timeout_env no_ns_zs lan_apex); [apply no_ns_wf| |vm_refl].
  apply (list_elem_of_lookup_2 _ 1%nat). vm_refl.
Defined.

Lemma ptr_answer_never_lost_witness :
  let rep := fst (decide_reply override_env sample_zs sample_rev RecordType.PTR DNSClass.IN) in
  (rec_data <$> reply_answers rep) = [RData.PTR host_name] ∧
  code rep = ResponseCode.NoError ∧ reply_authoritative rep = true ∧ reply_kind rep = AnswerKind ∧
  ((∃ n, forward_name sample_zone sample_addr = Some n ∧
      reply_answers rep = [from_rdata sample_rev (ttl sample_zone) (RData.PTR n)]) ∨
   relayed_for sample_zone sample_rev (reply_answers rep)).
Proof.
  split; [vm_refl|].
  apply (ptr_answer_never_lost override_env sample_zs sample_rev sample_zone sample_addr);
    [apply sample_zs_wf|vm_refl].
Defined.

(** A server, and a UDP query with an OPT record. *)
Definition sample_state : ServerState :=
  mkServerState sample_zs (Rrl_new (mkRrlParams true 1 1 0 24 64)).
Definition sample_env : Env := mkEnv 0 timeout_env (λ r, Ok (resp_metadata r)) (λ z, z).
Definition query_header (op : OpCode.t) : Metadata :=
  mkMetadata 4242 false op false false true false false false ResponseCode.NoError.
Definition sample_request (tcp : bool) (op : OpCode.t) : Request :=
  mkRequest (Ok (mkRequestInfo (V4 0xC0000201) tcp sample_fwd RecordType.AAAA DNSClass.IN))
    (query_header op) (Some (0, 4096)) 4096.

Lemma sample_payload : forces_valid_payload sample_env sample_state.
Proof.
  assert (payload_wf sample_zs) as H.
  { unfold payload_wf. rewrite sample_zs_config. apply (cwf_params _ sample_wf). }
  split; [exact H|]. intros z Hz. change (payload_wf z).
  unfold payload_wf. rewrite Hz. exact H.
Qed.

Lemma handle_request_responses_witness :
  let sent := fst (fst (handle_request sample_env (sample_request false OpCode.Query) sample_state)) in
  ((λ r, (resp_edns r, len (resp_answers r))) <$> sent) = [(Some (1232, 0), 1)] ∧
  ∀ r, r ∈ sent → within_limit sample_env sample_state (sample_request false OpCode.Query) r.
Proof.
  split; [vm_refl|]. intros r.
  apply (handle_request_responses sample_env (sample_request false OpCode.Query) sample_state r sample_payload).
Defined.

Lemma handle_request_one_response_witness :
  let request := sample_request false OpCode.Query in
  let sent := fst (fst (handle_request sample_env request sample_state)) in
  len sent <= 2 ∧
  ((∀ r, ∃ i, env_transport sample_env r = Ok i) →
   len sent = 1 ∨
   sent = [] ∧ ∃ info zs rep, req_info request = Ok info ∧
     decide_reply (env_lookup sample_env) (st_zones sample_state) (query_name info) (query_type info)
       (query_class info) = (rep, zs) ∧
     fst (decide (env_now sample_env) (src info) (reply_kind rep) (is_tcp info) (st_rrl sample_state)) = Drop).
Proof.
  apply (handle_request_one_response sample_env (sample_request false OpCode.Query) sample_state sample_payload).
Defined.

Lemma handle_request_answers_witness :
  let rep := fst (decide_reply timeout_env sample_zs sample_fwd RecordType.AAAA DNSClass.IN) in
  len (reply_answers rep) = 1 ∧
  ∃ r i zs, handle_request sample_env (sample_request true OpCode.Query) sample_state =
      ([r], i, mkServerState zs (st_rrl sample_state)) ∧
    resp_answers r = reply_answers rep ∧ resp_authority r = authority rep ∧
    response_code (resp_metadata r) = code rep ∧
    authoritative (resp_metadata r) = reply_authoritative rep ∧
    recursion_available (resp_metadata r) = false ∧ authentic_data (resp_metadata r) = false ∧
    (is_Some (req_edns (sample_request true OpCode.Query)) → is_Some (resp_edns r)).
Proof.
  split; [vm_refl|].
  apply (handle_request_answers sample_env (sample_request true OpCode.Query) sample_state
    (mkRequestInfo (V4 0xC0000201) true sample_fwd RecordType.AAAA DNSClass.IN) sample_payload);
    [intros r; by eexists|done..].
Defined.

Lemma handle_request_unsupported_witness :
  ∃ r i, handle_request sample_env (sample_request false OpCode.Update) sample_state =
      ([r], i, sample_state) ∧ resp_answers r = [] ∧ resp_authority r = [] ∧
    authoritative (resp_metadata r) = false ∧
    response_code (resp_metadata r) =
      if bool_decide (op_code (req_metadata (sample_request false OpCode.Update)) = OpCode.Query)
      then ResponseCode.BADVERS else ResponseCode.NotImp.
Proof.
  apply (handle_request_unsupported sample_env (sample_request false OpCode.Update) sample_state
    (mkRequestInfo (V4 0xC0000201) false sample_fwd RecordType.AAAA DNSClass.IN) sample_payload);
    [intros r; by eexists|done|by left].
Defined.
