(* ===== verification/Journal.v ===== *)
(** * What a request writes to the log

    The handler and the upstream lookups report what they do through [tracing].
    Here are [handle_request] and the functions it calls once more, with the lines
    they log; [handle_request_erase] says that without the lines they are the
    functions of Upstream.v and Handler.v.  A line has the fields of its macro; of a
    client only the IP address is kept, and the request that is rejected is known
    to the reader of the theorem. *)

From S2P Require Import Prelude RustNet Dns Config Zones Rrl RrlSpec Upstream Handler UpstreamSpec Sample HandlerSpec.

Inductive Severity := DEBUG | INFO | WARN | ERROR.

#[export] Instance Severity_eq_dec : EqDecision Severity.
Proof. solve_decision. Defined.

Section Journal.
Context {D : DnsOps} {R : ResolverOps} {G : LimiterOps} {M : MessageOps}.

Inductive LogLine :=
  | LogQuery (src : IpAddr) (is_tcp : bool) (query : DName) (type : RecordType.t)
  | LogBreakerOpen (upstream : IpAddr)
  | LogSaturated (upstream : IpAddr)
  | LogDiscarded (upstream : IpAddr) (seen kept : N)
  | LogTripped (upstream : IpAddr) (cooldown_secs : N)
  | LogDropping (src : IpAddr)
  | LogTruncating (src : IpAddr)
  | LogRejected (reason : bytes)
  | LogPanic
  | LogServfailFailed (error : bytes).

Definition severity (l : LogLine) : Severity :=
  match l with
  | LogQuery _ _ _ _ => INFO
  | LogTripped _ _ | LogRejected _ | LogServfailFailed _ => WARN
  | LogPanic => ERROR
  | _ => DEBUG
  end.

(** A result, and the lines written on the way to it. *)
Definition Logged (A : Type) : Type := list LogLine * A.

Definition silent {A} (a : A) : Logged A := ([], a).
Definition and_then {A B} (m : Logged A) (f : A → Logged B) : Logged B :=
  let '(ls, a) := m in let '(ls', b) := f a in (ls ++ ls', b).
Definition note (ls : list LogLine) : Logged unit := (ls, tt).

Notation "'log!' x ':=' m 'in' k" := (and_then m (λ x, k))
  (at level 10, x pattern, m at level 100, k at level 200).

(** ** [Upstream::lookup_ptr] *)

Definition lookup_ptr_logged (e : LookupEnv) (qname : DName) (u : Upstream)
    : Logged (list DRecord * Upstream) :=
  let '(is_open, b) := Breaker.is_open (env_begin e) (breaker u) in
  let u := set_breaker b u in
  if is_open then log! _ := note [LogBreakerOpen (up_addr u)] in silent ([], u) else
  if inflight u =? 0 then log! _ := note [LogSaturated (up_addr u)] in silent ([], u) else
  let u := set_inflight (inflight u - 1) u in
  match upstream_qname qname with
  | None => silent ([], set_inflight (inflight u + 1) u)
  | Some up_qname =>
      let finish kept b := silent (kept, set_inflight (inflight u + 1) (set_breaker b u)) in
      match env_outcome e up_qname with
      | Found answers =>
          let b := Breaker.record_success (breaker u) in
          let kept := filter_upstream qname up_qname answers in
          let seen := len answers in
          log! _ := note (if len kept =? seen then [] else [LogDiscarded (up_addr u) seen (len kept)]) in
          finish kept b
      | Failed => finish [] (Breaker.record_success (breaker u))
      | Elapsed =>
          let '(tripped, b) := Breaker.record_failure (env_end e) (breaker u) in
          log! _ := note (if tripped : bool
                          then [LogTripped (up_addr u) (BREAKER_COOLDOWN / from_millis 1000)] else []) in
          finish [] b
      end
  end.

(** ** [Handler::decide] *)

Definition override_ptr_logged (e : LookupEnv) (zs : Zones) (zone : Zone) (qname : DName)
    (qtype : RecordType.t) (records : list DRecord) : Logged (list DRecord * Zones) :=
  match records with
  | [] => silent (records, zs)
  | _ =>
      if negb (bool_decide (qtype = RecordType.PTR)) then silent (records, zs) else
      match upstream zone with
      | None => silent (records, zs)
      | Some addr =>
          match upstreams zs !! addr with
          | None => silent (records, zs)
          | Some u =>
              log! (relayed, u) := lookup_ptr_logged e qname u in
              let zs := mkZones (config zs) (<[addr := u]> (upstreams zs)) in
              silent (match relayed with [] => records | _ => relayed end, zs)
          end
      end
  end.

Definition decide_reply_logged (e : LookupEnv) (zs : Zones) (qname : DName) (qtype : RecordType.t)
    (qclass : DNSClass.t) : Logged (Reply * Zones) :=
  let c := config zs in
  if negb (match qclass with DNSClass.IN | DNSClass.ANY => true | _ => false end)
  then silent (Reply_refused, zs) else
  if match qtype with RecordType.AXFR | RecordType.IXFR => true | _ => false end
  then silent (Reply_refused, zs) else
  match apex_reply c qname qtype with
  | Some reply => silent (reply, zs)
  | None =>
      match resolve c qname qtype with
      | Answer zone records =>
          log! (records, zs) := override_ptr_logged e zs zone qname qtype records in
          let kind := match records with [] => Negative | _ => AnswerKind end in
          silent (mkReply ResponseCode.NoError true records (negative_authority c qname kind) kind, zs)
      | NoName zone =>
          let apex := if zone_of (ptr_zone zone) qname then ptr_zone zone else fwd_parent zone in
          let authority := match soa c with
                           | Some soa => [soa_record apex soa (ttl zone)]
                           | None => []
                           end in
          silent (mkReply ResponseCode.NXDomain true [] authority Negative, zs)
      | NoZone =>
          silent (match out_of_zone (params c) with
                  | Refused => Reply_refused
                  | NxDomain => mkReply ResponseCode.NXDomain false [] [] Negative
                  end, zs)
      end
  end.

(** ** [Handler::handle_inner] *)

Definition handle_inner_logged (querylog : bool) (e : Env) (request : Request) (st : ServerState)
    : Logged (Sent (result ResponseInfo bytes) * ServerState) :=
  match req_info request with
  | Err reason => silent (([], Returned (Err (bs "malformed request: " ++ reason))), st)
  | Ok info =>
      let meta := req_metadata request in
      let respond zs reply := send (env_transport e) zs meta reply request (is_tcp info) in
      log! _ := note (if querylog
                      then [LogQuery (src info) (is_tcp info) (query_name info) (query_type info)]
                      else []) in
      if negb (bool_decide (op_code meta = OpCode.Query)) then
        silent (respond (st_zones st) (Reply_error ResponseCode.NotImp), st)
      else if 0 <? version request then
        silent (respond (st_zones st) (Reply_error ResponseCode.BADVERS), st)
      else
        log! (reply, zs) := decide_reply_logged (env_lookup e) (st_zones st)
                              (query_name info) (query_type info) (query_class info) in
        let zs := env_reloaded e zs in
        let '(decision, rrl) := decide (env_now e) (src info) (reply_kind reply)
                                  (is_tcp info) (st_rrl st) in
        let st := mkServerState zs rrl in
        match decision with
        | Allow => silent (respond zs reply, st)
        | Drop =>
            log! _ := note [LogDropping (src info)] in
            silent (([], Returned (Ok (response_info (response_from_request meta)))), st)
        | Truncate =>
            log! _ := note [LogTruncating (src info)] in
            silent (send_response (env_transport e) (truncated_response meta), st)
        end
  end.

Definition servfail_logged (transport : Response → result ResponseInfo bytes) (request : Request)
    : Logged (list Response * ResponseInfo) :=
  let m := metadata_new (id (req_metadata request)) OpCode.Query in
  let metadata := mkMetadata (id m) (is_response m) (op_code m)
    (authoritative m) (truncation m) (recursion_desired m) (recursion_available m)
    (authentic_data m) (checking_disabled m) ResponseCode.ServFail in
  let response := mkResponse metadata [] [] None in
  match transport response with
  | Ok info => silent ([response], info)
  | Err e => log! _ := note [LogServfailFailed e] in silent ([response], response_info metadata)
  end.

(** ** [Handler::handle_request] *)

Definition handle_request_logged (querylog : bool) (e : Env) (request : Request) (st : ServerState)
    : Logged (list Response * ResponseInfo * ServerState) :=
  log! ((sent, guarded), st) := handle_inner_logged querylog e request st in
  match guarded with
  | Returned (Ok info) => silent (sent, info, st)
  | Returned (Err reason) =>
      log! _ := note [LogRejected reason] in
      log! (more, info) := servfail_logged (env_transport e) request in
      silent (sent ++ more, info, st)
  | Panicked =>
      log! _ := note [LogPanic] in
      log! (more, info) := servfail_logged (env_transport e) request in
      silent (sent ++ more, info, st)
  end.

(** ** The lines change nothing *)

Lemma snd_and_then {A B} (m : Logged A) (f : A → Logged B) : snd (and_then m f) = snd (f (snd m)).
Proof. unfold and_then. destruct m as [ls a]. simpl. by destruct (f a). Qed.

Lemma fst_and_then {A B} (m : Logged A) (f : A → Logged B) :
  fst (and_then m f) = fst m ++ fst (f (snd m)).
Proof. unfold and_then. destruct m as [ls a]. simpl. by destruct (f a). Qed.

(** Only the first part logs. *)
Lemma fst_then_silent {A B} (m : Logged A) (f : A → Logged B) :
  (∀ a, fst (f a) = []) → fst (and_then m f) = fst m.
Proof. intros Hf. by rewrite fst_and_then, Hf, app_nil_r. Qed.

Lemma lookup_ptr_erase e q u : snd (lookup_ptr_logged e q u) = lookup_ptr e q u.
Proof.
  unfold lookup_ptr_logged, lookup_ptr, lookup_begin. destruct (Breaker.is_open _ _) as [[] b]; [done|].
  case_match; [done|]. destruct (upstream_qname q) as [up|]; [|done].
  unfold lookup_end. destruct (env_outcome e up) as [answers| |]; [by rewrite snd_and_then|done|].
  destruct (Breaker.record_failure _ _) as [tripped b']. by rewrite snd_and_then.
Qed.

Lemma override_ptr_erase e zs z q t rs : snd (override_ptr_logged e zs z q t rs) = override_ptr e zs z q t rs.
Proof.
  unfold override_ptr_logged, override_ptr. destruct rs as [|r rs]; [done|]. destruct (negb _); [done|].
  destruct (upstream z) as [a|]; [|done]. destruct (upstreams zs !! a) as [u|]; [|done].
  rewrite snd_and_then, lookup_ptr_erase. by destruct (lookup_ptr e q u).
Qed.

Lemma decide_reply_erase e zs q t cl : snd (decide_reply_logged e zs q t cl) = decide_reply e zs q t cl.
Proof.
  unfold decide_reply_logged, decide_reply. destruct (negb _); [done|].
  destruct (match t with RecordType.AXFR | RecordType.IXFR => true | _ => false end); [done|].
  destruct (apex_reply _ _ _); [done|]. destruct (resolve _ _ _) as [z rs|z|]; [|done..].
  rewrite snd_and_then, override_ptr_erase. by destruct (override_ptr e zs z q t rs).
Qed.

Lemma handle_inner_erase querylog e request st :
  snd (handle_inner_logged querylog e request st) = handle_inner e request st.
Proof.
  unfold handle_inner_logged, handle_inner. destruct (req_info request) as [info|]; [|done].
  rewrite snd_and_then. destruct (negb _); [done|]. destruct (0 <? _); [done|].
  rewrite snd_and_then, decide_reply_erase. destruct (decide_reply _ _ _ _ _) as [rep zs].
  by destruct (decide _ _ _ _ _) as [[] rr].
Qed.

Lemma servfail_erase transport request : snd (servfail_logged transport request) = servfail transport request.
Proof. unfold servfail_logged, servfail. by destruct (transport _). Qed.

Lemma handle_request_erase querylog e request st :
  snd (handle_request_logged querylog e request st) = handle_request e request st.
Proof.
  unfold handle_request_logged, handle_request. rewrite snd_and_then, handle_inner_erase.
  destruct (handle_inner e request st) as [[sent [[i|reason]|]] st']; [done|..];
    rewrite !snd_and_then, servfail_erase; by destruct (servfail (env_transport e) request).
Qed.

(** ** What the lines say *)

Definition is_query (l : LogLine) : bool := match l with LogQuery _ _ _ _ => true | _ => false end.

(** The lines of a lookup. *)
Definition is_upstream (l : LogLine) : bool :=
  match l with
  | LogBreakerOpen _ | LogSaturated _ | LogDiscarded _ _ _ | LogTripped _ _ => true
  | _ => false
  end.

Definition query_lines (querylog : bool) (info : RequestInfo) : list LogLine :=
  if querylog then [LogQuery (src info) (is_tcp info) (query_name info) (query_type info)] else [].

Definition from_upstream (ls : list LogLine) : Prop := len ls <= 1 ∧ forallb is_upstream ls = true.

Lemma lookup_lines e q u : from_upstream (fst (lookup_ptr_logged e q u)).
Proof.
  unfold lookup_ptr_logged, from_upstream. destruct (Breaker.is_open _ _) as [[] b]; [done|].
  case_match; [done|]. destruct (upstream_qname q) as [up|]; [|done].
  destruct (env_outcome e up) as [answers| |]; [|done|].
  - rewrite fst_and_then, app_nil_r. simpl. by case_match.
  - destruct (Breaker.record_failure _ _) as [[] b']; by rewrite fst_and_then, app_nil_r.
Qed.

Lemma decide_lines e zs q t cl : from_upstream (fst (decide_reply_logged e zs q t cl)).
Proof.
  assert (from_upstream []) as H0 by done.
  unfold decide_reply_logged. destruct (negb _); [done|].
  destruct (match t with RecordType.AXFR | RecordType.IXFR => true | _ => false end); [done|].
  destruct (apex_reply _ _ _); [done|]. destruct (resolve _ _ _) as [z rs|z|]; [|done..].
  rewrite fst_then_silent by by intros [].
  unfold override_ptr_logged. destruct rs as [|r rs]; [done|]. destruct (negb _); [done|].
  destruct (upstream z) as [a|]; [|done]. destruct (upstreams zs !! a) as [u|]; [|done].
  rewrite fst_then_silent by by intros []. apply lookup_lines.
Qed.

(** The inner handler: what it logs with what it does. *)
Inductive inner_log (querylog : bool) (e : Env) (request : Request)
    : list LogLine → Sent (result ResponseInfo bytes) → Prop :=
  | log_malformed reason :
      req_info request = Err reason →
      inner_log querylog e request [] ([], Returned (Err (bs "malformed request: " ++ reason)))
  | log_sent info up lim r :
      req_info request = Ok info → from_upstream up → lim = [] ∨ lim = [LogTruncating (src info)] →
      inner_log querylog e request (query_lines querylog info ++ up ++ lim)
        ([r], Returned (result_map_err (λ x, bs "send failed: " ++ x) (env_transport e r)))
  | log_dropped info up i :
      req_info request = Ok info → from_upstream up →
      inner_log querylog e request (query_lines querylog info ++ up ++ [LogDropping (src info)])
        ([], Returned (Ok i)).

Context {L : DnsLaws D} {ML : MessageLaws M}.

Lemma handle_inner_log querylog e request st :
  forces_valid_payload e st →
  inner_log querylog e request (fst (handle_inner_logged querylog e request st)) (fst (handle_inner e request st)).
Proof.
  intros [Hp Hre]. unfold handle_inner_logged, handle_inner.
  destruct (req_info request) as [info|reason] eqn:Ei; [|by apply log_malformed].
  assert (∀ up lim z rep, from_upstream up → lim = [] ∨ lim = [LogTruncating (src info)] → payload_wf z →
    inner_log querylog e request (query_lines querylog info ++ up ++ lim)
      (send (env_transport e) z (req_metadata request) rep request (is_tcp info))) as Hsend.
  { intros up lim z rep Hup Hlim Hz.
    destruct (send_spec (env_transport e) z rep request (is_tcp info) Hz) as (r & -> & _). by eapply log_sent. }
  rewrite fst_and_then. fold (query_lines querylog info).
  destruct (negb _); [apply (Hsend [] []); [done|by left|exact Hp]|].
  destruct (0 <? _); [apply (Hsend [] []); [done|by left|exact Hp]|].
  rewrite fst_and_then, decide_reply_erase. cbn [fst note].
  pose proof (decide_lines (env_lookup e) (st_zones st) (query_name info) (query_type info) (query_class info)) as Hl.
  pose proof (decide_reply_config (env_lookup e) (st_zones st) (query_name info) (query_type info) (query_class info)) as Hc.
  destruct (decide_reply _ _ _ _ _) as [rep zs]. destruct (decide _ _ _ _ _) as [[] rr]; simpl in *.
  - apply Hsend; [done|by left|by apply Hre].
  - by apply log_dropped.
  - eapply log_sent; [done..|by right].
Qed.

(** The lines of a whole request with what it sent: those of the inner handler, and
    what is added when it fails. *)
Inductive request_log (querylog : bool) (e : Env) (request : Request) (lines : list LogLine)
    (sent : list Response) : Prop :=
  | log_answered ls s i :
      inner_log querylog e request ls (s, Returned (Ok i)) → lines = ls → sent = s →
      request_log querylog e request lines sent
  | log_refused ls s reason :
      inner_log querylog e request ls (s, Returned (Err reason)) →
      lines = ls ++ LogRejected reason :: fst (servfail_logged (env_transport e) request) →
      sent = s ++ fst (servfail (env_transport e) request) →
      request_log querylog e request lines sent.

Lemma handle_request_log querylog e request st :
  forces_valid_payload e st →
  request_log querylog e request (fst (handle_request_logged querylog e request st))
    (fst (fst (handle_request e request st))).
Proof.
  intros Hv. pose proof (handle_inner_log querylog e request st Hv) as Hl.
  unfold handle_request_logged, handle_request. rewrite fst_and_then, handle_inner_erase.
  destruct (handle_inner e request st) as [[sent [[i|reason]|]] st']; cbn [fst] in *; [..|by inversion Hl].
  - eapply log_answered; [exact Hl|apply app_nil_r|done].
  - eapply log_refused; [exact Hl| |by destruct (servfail (env_transport e) request)].
    f_equal. rewrite fst_and_then, fst_then_silent by by intros []. done.
Qed.

Lemma servfail_lines transport request :
  fst (servfail_logged transport request) = [] ∨ ∃ x, fst (servfail_logged transport request) = [LogServfailFailed x].
Proof. unfold servfail_logged. destruct (transport _); [by left|right; by eexists]. Qed.

Definition is_dropping (l : LogLine) : bool := match l with LogDropping _ => true | _ => false end.
Definition is_rejected (l : LogLine) : bool := match l with LogRejected _ => true | _ => false end.
Definition is_panic (l : LogLine) : bool := match l with LogPanic => true | _ => false end.
Definition is_info (l : LogLine) : bool := bool_decide (severity l = INFO).

(** Lines of a lookup are no others. *)
Lemma upstream_none f up :
  (∀ l, is_upstream l = true → f l = false) → from_upstream up → existsb f up = false.
Proof.
  intros Hf [_ Hup]. induction up as [|l up IH]; [done|]. simpl in *. apply andb_true_iff in Hup as [Hl Hup].
  rewrite Hf by done. by apply IH.
Qed.

Lemma filter_none (f : LogLine → bool) ls : existsb f ls = false → List.filter f ls = [].
Proof. induction ls as [|l ls IH]; [done|]. simpl. destruct (f l); [done|]. apply IH. Qed.

(** What the lines say about what was sent. *)
Record truthful (querylog : bool) (transport : Response → result ResponseInfo bytes) (request : Request)
    (lines : list LogLine) (sent : list Response) : Prop := {
  log_query : List.filter is_query lines =
    match req_info request with Ok info => query_lines querylog info | Err _ => [] end;
  log_quiet : querylog = false → existsb is_info lines = false;
  log_no_panic : existsb is_panic lines = false;
  log_drops : existsb is_dropping lines = true ↔ sent = [];
  log_rejects : existsb is_rejected lines = true ↔
    match req_info request with
    | Err _ => True
    | Ok _ => ∃ r x, head sent = Some r ∧ transport r = Err x
    end;
  log_short : len lines <= 5;
}.

Ltac log_case :=
  simpl; unfold len in *; simpl length;
  first [done | lia | split; [done|intros (? & ? & [= <-] & ?); congruence] | naive_solver].

Lemma request_log_truthful querylog e request lines sent :
  request_log querylog e request lines sent → truthful querylog (env_transport e) request lines sent.
Proof.
  intros Hl.
  assert (∃ ls s more, inner_log querylog e request ls s ∧ lines = ls ++ more ∧
    match snd s with
    | Returned (Ok _) => more = [] ∧ sent = fst s
    | Returned (Err reason) => sent = fst s ++ fst (servfail (env_transport e) request) ∧
        (more = [LogRejected reason] ∨ ∃ x, more = [LogRejected reason; LogServfailFailed x])
    | Panicked => False
    end) as (ls & s & more & Hi & -> & Hmore).
  { destruct Hl as [ls s i Hi -> ->|ls s reason Hi -> ->]; eexists ls, _, _; (split; [exact Hi|]).
    - split; [by rewrite app_nil_r|done].
    - split; [done|]. split; [done|]. destruct (servfail_lines (env_transport e) request) as [->|[x ->]]; [by left|].
      right. by exists x. }
  destruct Hi as [reason Hi|info up lim r Hi Hup Hlim|info up i Hi Hup]; cbn [fst snd] in *.
  { destruct Hmore as (-> & [->|[x ->]]); split; rewrite ?Hi; done. }
  all: assert (List.filter is_query up = []) as Eq by (apply filter_none, upstream_none; [by intros []|done]).
  all: assert (existsb is_info up = false ∧ existsb is_panic up = false ∧ existsb is_dropping up = false ∧
         existsb is_rejected up = false) as (E1 & E2 & E3 & E4)
         by (repeat split; (apply upstream_none; [by intros []|done])).
  all: destruct Hup as [Hn _].
  - destruct (env_transport e r) as [i|x] eqn:Et; simpl in Hmore;
      [destruct Hmore as [-> ->]|destruct Hmore as (-> & [->|[y ->]])];
      split; rewrite ?Hi, ?List.filter_app, ?existsb_app, ?len_app, ?Eq, ?E1, ?E2, ?E3, ?E4; clear Hi;
      destruct Hlim as [->| ->], querylog; log_case.
  - destruct Hmore as [-> ->]; split; rewrite ?Hi, ?List.filter_app, ?existsb_app, ?len_app, ?Eq, ?E1, ?E2, ?E3, ?E4;
      clear Hi; destruct querylog; log_case.
Qed.

(** The log tells what happened, and does not change it.  Logged or not, a
    request is handled the same.  With query logging on, a request that can be
    decoded is logged exactly once, with its question; with it off no line is of
    level INFO.  A line that a response is dropped is there exactly if nothing is
    sent, one that the request was rejected exactly if it could not be decoded or
    the first response could not be sent, and one about a panic never.  No request
    writes more than five lines. *)
Theorem log_is_truthful (querylog : bool) (e : Env) (request : Request) (st : ServerState) :
  forces_valid_payload e st →
  snd (handle_request_logged querylog e request st) = handle_request e request st ∧
  truthful querylog (env_transport e) request (fst (handle_request_logged querylog e request st))
    (fst (fst (handle_request e request st))).
Proof.
  intros Hv. split; [apply handle_request_erase|]. by apply request_log_truthful, handle_request_log.
Qed.
End Journal.

(** ** Instance *)

#[local] Existing Instance LabelName.ops.
#[local] Existing Instance LabelName.laws.
#[local] Existing Instance EchoResolver.ops.
#[local] Existing Instance EchoMessages.ops.
#[local] Existing Instance EchoMessages.laws.
#[local] Existing Instance TokenBucket.ops.

(** An upstream that answers about another name, and a client that is gone. *)
Definition gone_env : Env :=
  mkEnv 0 (mkLookupEnv 0 1 (λ _, Found [mkRecord host_name DNSClass.IN 60 (RData.PTR host_name)]))
    (λ _, Err (bs "unreachable")) (λ z, z).

Definition ptr_request : Request :=
  mkRequest (Ok (mkRequestInfo (V4 0xC0000201) false sample_rev RecordType.PTR DNSClass.IN))
    (query_header OpCode.Query) None 512.

Lemma log_is_truthful_witness :
  let lines := fst (handle_request_logged true gone_env ptr_request sample_state) in
  let sent := fst (fst (handle_request gone_env ptr_request sample_state)) in
  (severity <$> lines, existsb is_rejected lines, length sent) = ([INFO; DEBUG; WARN; WARN], true, 2%nat) ∧
  snd (handle_request_logged true gone_env ptr_request sample_state) =
    handle_request gone_env ptr_request sample_state ∧
  truthful true (env_transport gone_env) ptr_request lines sent.
Proof.
  cbv zeta. split; [vm_refl|]. apply (log_is_truthful true gone_env ptr_request sample_state).
  destruct sample_payload as [Hp _]. split; [exact Hp|].
  intros z Hz. change (payload_wf z). unfold payload_wf in *. by rewrite Hz.
Defined.
