(* ===== verification/ServerSpec.v ===== *)
(** * Correctness of [src/main.rs] and [src/server/bind.rs]

    The running server always holds a valid configuration, whatever files and
    requests it sees; and binding opens exactly the sockets it should. *)

From S2P Require Import Prelude RustText RustNet ConfigError Dns Config ConfigSpec Parse Compile Sample CompileSpec Zones Rrl RrlSpec Upstream UpstreamSpec Handler HandlerSpec Server.

(** ** The process *)

Section Process.
Context {D : DnsOps} {L : DnsLaws D} {R : ResolverOps} {G : LimiterOps} {M : MessageOps}.

Lemma load_config_wf path read c : load_config path read = Ok c → config_wf c.
Proof.
  unfold load_config. destruct read as [body|e]; [|done]. cbn [result_map_err result_bind].
  destruct (Config_parse body) as [c'|] eqn:E; [|done]. intros [= ->]. by eapply Config_parse_wf.
Qed.

Lemma Zones_new_config c zs : Zones_new c = Ok zs → config zs = c.
Proof. unfold Zones_new. destruct (build_upstreams _ _ _); [|done]. by intros [= <-]. Qed.

Definition zones_valid (zs : Zones) : Prop := config_wf (config zs).

Lemma reload_valid path read zs : zones_valid zs → zones_valid (reload path read zs).
Proof.
  intros Hz. unfold reload. destruct (load_config path read) as [c|] eqn:E; [|done].
  cbn [result_bind]. destruct (Zones_new c) as [next|] eqn:En; [|done].
  unfold zones_valid. rewrite (Zones_new_config _ _ En). by eapply load_config_wf.
Qed.

Lemma reloads_valid path reads zs : zones_valid zs → zones_valid (reloads path reads zs).
Proof.
  unfold reloads. revert zs. induction reads as [|r reads IH]; intros zs Hz; [done|].
  apply IH. by apply reload_valid.
Qed.

Lemma zones_valid_payload zs : zones_valid zs → payload_wf zs.
Proof. intros [_ _ _ _ [H _ _ _ _ _ _]]. exact H. Qed.

Lemma valid_forces path reads e st :
  zones_valid (st_zones st) → forces_valid_payload (with_reloads path reads e) st.
Proof.
  intros Hz. split; [by apply zones_valid_payload|]. intros z Hc. apply zones_valid_payload.
  apply (reloads_valid path). unfold zones_valid. by rewrite Hc.
Qed.

(** What a request can do to the shared state. *)
Lemma handle_request_state e request st :
  let st' := snd (handle_request e request st) in
  (st_zones st' = st_zones st ∨
   ∃ z, config z = config (st_zones st) ∧ st_zones st' = env_reloaded e z) ∧
  rrl_params (st_rrl st') = rrl_params (st_rrl st).
Proof.
  assert (let st' := snd (handle_inner e request st) in
    (st_zones st' = st_zones st ∨
     ∃ z, config z = config (st_zones st) ∧ st_zones st' = env_reloaded e z) ∧
    rrl_params (st_rrl st') = rrl_params (st_rrl st)) as H.
  { unfold handle_inner. destruct (req_info request) as [info|]; [|by split; [left|]].
    destruct (negb _); [by split; [left|]|]. destruct (0 <? _); [by split; [left|]|].
    pose proof (decide_reply_config (env_lookup e) (st_zones st) (query_name info)
      (query_type info) (query_class info)) as Hc.
    destruct (decide_reply _ _ _ _ _) as [rep zs]. simpl in Hc.
    pose proof (decide_cases (env_now e) (src info) (reply_kind rep) (is_tcp info) (st_rrl st)) as Hd.
    destruct (decide _ _ _ _ _) as [d rr]. destruct Hd as [Hp _].
    destruct d; cbn [snd st_zones st_rrl]; (split; [right; by exists zs|done]). }
  unfold handle_request. destruct (handle_inner e request st) as [[sent g] st'].
  destruct g as [[i|x]|]; [done|..]; by destruct (servfail (env_transport e) request).
Qed.

Lemma process_event_valid path ev st :
  zones_valid (st_zones st) →
  zones_valid (st_zones (snd (process_event path ev st))) ∧
  rrl_params (st_rrl (snd (process_event path ev st))) = rrl_params (st_rrl st).
Proof.
  intros Hz. destruct ev as [read|now|e reads request]; simpl.
  - split; [by apply reload_valid|done].
  - done.
  - pose proof (handle_request_state (with_reloads path reads e) request st) as [H1 H2].
    destruct (handle_request _ _ _) as [[sent i] st']. cbn [snd] in *. split; [|done].
    destruct H1 as [-> |(z & Hc & ->)]; [done|]. apply (reloads_valid path).
    unfold zones_valid. by rewrite Hc.
Qed.

Lemma process_events_valid path evs st :
  zones_valid (st_zones st) →
  zones_valid (st_zones (process_events path evs st)) ∧
  rrl_params (st_rrl (process_events path evs st)) = rrl_params (st_rrl st).
Proof.
  revert st. induction evs as [|ev evs IH]; intros st Hz; [done|]. simpl.
  destruct (process_event_valid path ev st Hz) as [H1 H2]. destruct (IH _ H1) as [H3 H4].
  split; [done|congruence].
Qed.

Lemma serve_state_inv cli c l st :
  serve_state cli c = Ok (l, st) →
  effective_listen cli c = Ok l ∧ config (st_zones st) = c ∧ st_rrl st = Rrl_new (rrl (params c)).
Proof.
  unfold serve_state. destruct (effective_listen cli c); [|done]. cbn [result_bind].
  destruct (Zones_new c) as [zs|] eqn:E; [|done]. intros [= <- <-].
  split; [done|]. split; [by apply Zones_new_config|done].
Qed.
End Process.

(** ** Binding *)

Section Binding.
Context {S : Bind.SocketOps}.
Import Bind.

(** The calls that set up one socket. *)
Definition configure_calls (addr : SocketAddr) (kind : SockType) (proto : SockProtocol)
    (s : Socket) : list Call :=
  [CNew (match ip addr with V4 _ => IPV4 | V6 _ => IPV6 end) kind proto] ++
  (if is_ipv6 addr then [COnlyV6 s] else []) ++
  [CReuseAddress s; CNonblocking s; CBind s addr].

(** The calls for one requested address: the UDP socket [u] at the address,
    found to be bound to [actual], and the TCP socket [t] at the same port. *)
Definition target_calls (target : ListenAddr) (r : Socket * Socket * SocketAddr) : list Call :=
  let '(u, t, actual) := r in
  let requested := mkSocketAddr (listen_addr target) (listen_port target) in
  let tcp_target := mkSocketAddr (listen_addr target) (port actual) in
  configure_calls requested DGRAM UDP u ++ [CRegisterUdp u; CLocalAddr u] ++
  configure_calls tcp_target STREAM TCP t ++ [CListen t 128; CRegisterTcp t].

Lemma io_bind_Ok {A B} (m : Io A) (f : A → Io B) h b h' :
  io_bind m f h = (Ok b, h') → ∃ a h1, m h = (Ok a, h1) ∧ f a h1 = (Ok b, h').
Proof. unfold io_bind. destruct (m h) as [[a|e] h1]; [|done]. by exists a, h1. Qed.

Lemma call_Ok {A} (answer : list Call → Call → result A IoError) c msg h a h' :
  call answer c msg h = (Ok a, h') → h' = h ++ [c].
Proof. unfold call. destruct (answer h c); [|done]. by intros [= _ <-]. Qed.

Lemma configure_Ok os addr kind proto h s h' :
  configure os addr kind proto h = (Ok s, h') → h' = h ++ configure_calls addr kind proto s.
Proof.
  unfold configure, configure_calls.
  intros (x & h1 & H1%call_Ok & H)%io_bind_Ok.
  apply io_bind_Ok in H as ([] & h2 & H2 & H).
  apply io_bind_Ok in H as ([] & h3 & H3%call_Ok & H).
  apply io_bind_Ok in H as ([] & h4 & H4%call_Ok & H).
  apply io_bind_Ok in H as ([] & h5 & H5%call_Ok & H). injection H as <- <-.
  assert (h2 = h1 ++ if is_ipv6 addr then [COnlyV6 x] else []) as E2.
  { revert H2. destruct (is_ipv6 addr); [by intros H2%call_Ok|]. intros [= <-]. by rewrite app_nil_r. }
  subst. by rewrite <- !app_assoc.
Qed.

Lemma bind_targets_Ok os listen b0 h b h' :
  bind_targets os listen b0 h = (Ok b, h') →
  ∃ rs, length rs = length listen ∧
    udp b = udp b0 ++ ((λ r, fst (fst r)) <$> rs) ∧ tcp b = tcp b0 ++ ((λ r, snd (fst r)) <$> rs) ∧
    addrs b = addrs b0 ++ (snd <$> rs) ∧ h' = h ++ concat (zip_with target_calls listen rs).
Proof.
  revert b0 h. induction listen as [|target listen IH]; intros b0 h; cbn [bind_targets].
  { intros [= <- <-]. exists []. by rewrite !app_nil_r. }
  intros (u & h1 & H1%configure_Ok & H)%io_bind_Ok.
  apply io_bind_Ok in H as ([] & h2 & H2%call_Ok & H).
  apply io_bind_Ok in H as (actual & h3 & H3%call_Ok & H).
  apply io_bind_Ok in H as (t & h4 & H4%configure_Ok & H).
  apply io_bind_Ok in H as ([] & h5 & H5%call_Ok & H).
  apply io_bind_Ok in H as ([] & h6 & H6%call_Ok & H).
  apply IH in H as (rs & Hl & Hu & Ht & Ha & Hh). exists ((u, t, actual) :: rs).
  cbn [udp tcp addrs] in *. rewrite <- app_assoc in Hu, Ht, Ha.
  split; [simpl; by rewrite Hl|]. do 3 (split; [done|]).
  rewrite Hh. subst. cbn [zip_with concat target_calls]. unfold TCP_BACKLOG. by rewrite <- !app_assoc.
Qed.
End Binding.

(** ** Properties *)

Section Properties.
Context {D : DnsOps} {L : DnsLaws D} {R : ResolverOps} {G : LimiterOps} {M : MessageOps}.

(** C20.  The service survives its operator: from a start with a loaded
    configuration, after any sequence of reloads of arbitrary files, sweeps and
    requests, the configuration in force is well-formed, the response limits
    that the handler relies on to never panic hold, also if reloads land in the
    middle of a request, and the rate limits are those of the start. *)
Theorem server_always_valid (cli : Cli) (read : FileResult) (c : Config)
    (l : list ListenAddr) (st0 : ServerState) (evs : list Event) :
  load_config (cli_config cli) read = Ok c → serve_state cli c = Ok (l, st0) →
  let st := process_events (cli_config cli) evs st0 in
  config_wf (config (st_zones st)) ∧
  (∀ e reads, forces_valid_payload (with_reloads (cli_config cli) reads e) st) ∧
  rrl_params (st_rrl st) = rrl (params c).
Proof.
  intros Hc%load_config_wf (_ & Hz & Hr)%serve_state_inv st.
  assert (zones_valid (st_zones st0)) as Hv by (unfold zones_valid; by rewrite Hz).
  destruct (process_events_valid (cli_config cli) evs st0 Hv) as [H1 H2].
  split; [done|]. split; [intros e reads; by apply valid_forces|].
  unfold st. rewrite H2, Hr. done.
Qed.
End Properties.

Section ReloadProperties.
Context {D : DnsOps} {R : ResolverOps} {G : LimiterOps} {M : MessageOps}.

(** A reload is all or nothing: if the file can be read, validates and all
    its upstreams get a client, the zones are replaced by it; in every other
    case the state is exactly what it was.  Nothing is sent and the rate
    limiter is never touched. *)
Theorem reload_all_or_nothing (path : bytes) (read : FileResult) (st : ServerState) :
  process_event path (Hangup read) st =
  ([], match load_config path read with
       | Ok c => match Zones_new c with
                 | Ok next => mkServerState next (st_rrl st)
                 | Err _ => st
                 end
       | Err _ => st
       end).
Proof.
  simpl. unfold reload. destruct st as [zs rr]. destruct (load_config path read) as [c|]; [|done].
  cbn [result_bind]. by destruct (Zones_new c).
Qed.

(** The addresses: the command line wins over the file and both over the
    default; with neither, both wildcards on port 53; and one malformed address
    on the command line stops the start with a message naming it. *)
Theorem effective_listen_precedence (cli : Cli) (c : Config) :
  match effective_listen cli c with
  | Ok l =>
      match cli_listen cli, listen c with
      | _ :: _, _ => Forall2 (λ s a, parse_listen (str_trim s) = Ok a) (cli_listen cli) l
      | [], _ :: _ => l = listen c
      | [], [] => l = [mkListenAddr (V4 0) 53; mkListenAddr (V6 0) 53]
      end
  | Err e => ∃ s, s ∈ cli_listen cli ∧
               e = bs "--listen " ++ str_trim s ++ bs ": not an IP address or address:port"
  end.
Proof.
  unfold effective_listen. destruct (cli_listen cli) as [|s0 ss] eqn:E; [by destruct (listen c)|].
  set (ls := s0 :: ss). clearbody ls. clear E s0 ss. induction ls as [|s ls IH]; [constructor|].
  cbn [collect_results]. destruct (parse_listen (str_trim s)) as [a|e] eqn:Ep; cbn [result_bind].
  - destruct (collect_results _ ls) as [l|e]; cbn [result_bind]; [by constructor|].
    destruct IH as (s' & Hs & ->). exists s'. split; [by right|done].
  - exists s. split; [left|]. unfold parse_listen in Ep.
    destruct (SocketAddr_from_str _); [done|]. destruct (IpAddr_from_str _); [done|].
    by injection Ep as <-.
Qed.
End ReloadProperties.

(** C37.  Binding: on success there is, for every requested address and in that
    order, one UDP and one TCP socket and the address really bound; TCP is bound
    to the port that UDP got, also when port 0 was asked for; and the system
    calls are exactly those that set up each socket, with every IPv6 socket made
    IPv6-only before it is bound, so that both wildcards can be bound. *)
Theorem bind_all_calls `{S : Bind.SocketOps} (os : Bind.Os) (listen : list ListenAddr)
    (h h' : list Bind.Call) (b : Bind.Bound) :
  Bind.bind_all os listen h = (Ok b, h') →
  ∃ rs, length rs = length listen ∧
    Bind.udp b = ((λ r, fst (fst r)) <$> rs) ∧ Bind.tcp b = ((λ r, snd (fst r)) <$> rs) ∧
    Bind.addrs b = (snd <$> rs) ∧ h' = h ++ concat (zip_with target_calls listen rs).
Proof. intros H. by apply bind_targets_Ok in H. Qed.

(** ** Instances *)

#[local] Existing Instance LabelName.ops.
#[local] Existing Instance LabelName.laws.
#[local] Existing Instance EchoResolver.ops.
#[local] Existing Instance TokenBucket.ops.
#[local] Existing Instance EchoMessages.ops.

Definition sample_cli : Cli := mkCli (bs "panoptidns.conf") false [] false false false 53.

Definition sample_events : list Event :=
  [Hangup (Ok broken_input); Tick 5 6; Hangup (Err (bs "gone"));
   Query sample_env [Ok sample_input] (sample_request false OpCode.Query); Hangup (Ok sample_input)].

Definition sample_start : ServerState := mkServerState sample_zs (Rrl_new (rrl (params sample_config))).

Lemma server_always_valid_witness :
  load_config (cli_config sample_cli) (Ok sample_input) = Ok sample_config ∧
  let st := process_events (cli_config sample_cli) sample_events sample_start in
  config_wf (config (st_zones st)) ∧
  (∀ e reads, forces_valid_payload (with_reloads (cli_config sample_cli) reads e) st) ∧
  rrl_params (st_rrl st) = rrl (params sample_config).
Proof.
  assert (load_config (cli_config sample_cli) (Ok sample_input) = Ok sample_config) as H by vm_refl.
  split; [exact H|].
  apply (server_always_valid sample_cli (Ok sample_input) sample_config
    [mkListenAddr (V6 1) 5353] sample_start sample_events H). vm_refl.
Defined.

(** An operating system that numbers its sockets and picks port 40000 for 0. *)
#[export] Instance counting_sockets : Bind.SocketOps := {
  Bind.Socket := N;
  Bind.IoError := bytes;
  Bind.io_kind _ := Bind.AddrNotAvailable;
  Bind.io_to_string e := e;
}.

Definition counting_os : Bind.Os := Bind.mkOs
  (λ h _, Ok (len h)) (λ _ _, Ok tt) (λ _ _, Ok (mkSocketAddr (V4 0x7F000001) 40000)).

Definition counting_bound : Bind.Bound :=
  match fst (Bind.bind_all counting_os [mkListenAddr (V4 0x7F000001) 0] []) with
  | Ok b => b
  | Err _ => Bind.mkBound [] [] []
  end.

Lemma bind_all_calls_witness :
  Bind.addrs counting_bound = [mkSocketAddr (V4 0x7F000001) 40000] ∧
  ∃ rs, length rs = 1%nat ∧
    Bind.udp counting_bound = ((λ r, fst (fst r)) <$> rs) ∧
    Bind.tcp counting_bound = ((λ r, snd (fst r)) <$> rs) ∧
    Bind.addrs counting_bound = (snd <$> rs) ∧
    snd (Bind.bind_all counting_os [mkListenAddr (V4 0x7F000001) 0] []) =
      [] ++ concat (zip_with target_calls [mkListenAddr (V4 0x7F000001) 0] rs).
Proof.
  split; [vm_refl|].
  apply (bind_all_calls counting_os [mkListenAddr (V4 0x7F000001) 0] []). vm_refl.
Defined.
