(* ===== verification/Contract.v ===== *)
(** * What the server promises

    An abstract server whose state is the configuration alone.  What a question
    may be answered is stated on labels and addresses, without lookup order,
    digit parsing, upstream state or rate limits ([spec_reply]); what the running
    server may do is a transition relation over such states ([abs_step]).  The
    theorems show that the handler and the process implement both. *)

From S2P Require Import Prelude RustText RustNet ConfigError Dns Nibble Config ConfigSpec Parse Compile Sample CompileSpec Zones ZoneSpec Rrl RrlSpec Upstream UpstreamSpec Handler HandlerSpec Server ServerSpec.
Import Lookup Synth.

(** ** The namespace of a configuration *)

(** A label of a host name, with the digits in place. *)
Definition label_text (digits : bytes) (l : FwdLabel) : bytes :=
  match l with
  | Literal verbatim _ => verbatim
  | Digits pre _ post _ dashed =>
      pre ++ (if dashed then join_dashes (chunks4 digits) else digits) ++ post
  end.

(** The labels behind the digits label. *)
Fixpoint behind_digits (ls : list FwdLabel) : list bytes :=
  match ls with
  | [] => []
  | Literal _ _ :: ls => behind_digits ls
  | Digits _ _ _ _ _ :: ls => label_text [] <$> ls
  end.

Section Answers.
Context {D : DnsOps} {R : ResolverOps} {G : LimiterOps}.

Definition contains (z : Zone) (a : N) : Prop :=
  a < 2 ^ 128 ∧ a / 2 ^ (128 - mask z) = prefix z / 2 ^ (128 - mask z).

(** The labels of the host name of [a] in the zone, and those of its apexes. *)
Definition host_labels (z : Zone) (a : N) : list bytes :=
  label_text (host_text (N.to_nat (host_nibbles z)) a) <$> fwd_labels (fwd z).

Definition apex_of (z : Zone) (apex : list bytes) : Prop :=
  apex = zone_labels (mask z / 4) (prefix z) ∨ apex = behind_digits (fwd_labels (fwd z)).

Definition longest_match (c : Config) (z : Zone) (a : N) : Prop :=
  z ∈ zones c ∧ contains z a ∧ ∀ z', z' ∈ zones c → contains z' a → mask z' <= mask z.

(** The name is the reverse name of the address; the host name of the address in
    the zone, with a label more if its template begins with [*]; an apex; at or
    below an apex; of the namespace served. *)
Definition is_reverse (q : DName) (a : N) : Prop :=
  a < 2 ^ 128 ∧ labels_ci (labels q) (addr_labels a).

Definition is_host (z : Zone) (q : DName) (a : N) : Prop :=
  contains z a ∧ ∃ extra, length extra = spare_labels (fwd z) ∧ labels_ci (labels q) (host_labels z a ++ extra).

Definition is_apex (c : Config) (q : DName) : Prop :=
  ∃ z apex, z ∈ zones c ∧ apex_of z apex ∧ labels_ci (labels q) apex.

Definition below (c : Config) (q : DName) : Prop :=
  ∃ z apex, z ∈ zones c ∧ apex_of z apex ∧ suffix_ci apex (labels q).

Definition inside (c : Config) (q : DName) : Prop :=
  below c q ∨ ∃ z a, z ∈ zones c ∧ is_host z q a.

Definition no_reverse (c : Config) (q : DName) : Prop :=
  ∀ a z, is_reverse q a → ¬ longest_match c z a.

(** ** What a question may be answered *)

Record Verdict := mkVerdict {
  v_code : ResponseCode.t;
  v_authoritative : bool;
  v_answers : list DRecord;
  v_authority : list DRecord;
}.

Definition asks (t : RecordType.t) (types : list RecordType.t) : Prop := t ∈ types.

(** The SOA of an apex, if the configuration has one, and its name servers. *)
Inductive soa_at (c : Config) (apex : list bytes) (ttl : N) : list DRecord → Prop :=
  | soa_none : soa c = None → soa_at c apex ttl []
  | soa_some s r :
      soa c = Some s → labels (rec_name r) = apex → rec_class r = DNSClass.IN →
      rec_ttl r = N.min ttl (minimum s) →
      rec_data r = RData.SOA (primary s) (hostmaster s) (serial s) (N.min (refresh s) i32_MAX)
        (N.min (retry s) i32_MAX) (N.min (expire s) i32_MAX) (minimum s) →
      soa_at c apex ttl [r].

(** The authority section of an answer without data: the SOA of an apex above the
    name, if there is one. *)
Inductive soa_above (c : Config) (q : DName) : list DRecord → Prop :=
  | above_apex z apex soas :
      z ∈ zones c → apex_of z apex → suffix_ci apex (labels q) → soa_at c apex (ttl z) soas →
      soa_above c q soas
  | above_none : ¬ below c q → soa_above c q [].

Definition ns_at (c : Config) (apex : list bytes) (ttl : N) (rs : list DRecord) : Prop :=
  Forall2 (λ ns r, labels (rec_name r) = apex ∧ rec_class r = DNSClass.IN ∧ rec_ttl r = ttl ∧
                   rec_data r = RData.NS ns) (nameservers c) rs.

Inductive spec_answer (c : Config) (q : DName) (t : RecordType.t) : Verdict → Prop :=
  (** The apex: its SOA and NS records, with the TTL of the first zone. *)
  | spec_apex z0 rest z apex soas nss :
      asks t [RecordType.SOA; RecordType.NS; RecordType.ANY] →
      zones c = z0 :: rest → z ∈ zones c → apex_of z apex → labels_ci (labels q) apex →
      (if bool_decide (asks t [RecordType.SOA; RecordType.ANY])
       then soa_at c apex (ttl z0) soas else soas = []) →
      (if bool_decide (asks t [RecordType.NS; RecordType.ANY])
       then ns_at c apex (ttl z0) nss else nss = []) →
      spec_answer c q t (mkVerdict ResponseCode.NoError true (soas ++ nss) [])
  (** A reverse name: the host name of its address in the longest network. *)
  | spec_ptr z a n r :
      asks t [RecordType.PTR; RecordType.ANY] → is_reverse q a → longest_match c z a →
      labels n = host_labels z a →
      rec_name r = q → rec_class r = DNSClass.IN → rec_ttl r = ttl z → rec_data r = RData.PTR n →
      spec_answer c q t (mkVerdict ResponseCode.NoError true [r] [])
  (** Or what the upstream of that network says instead. *)
  | spec_relayed z a relayed :
      t = RecordType.PTR → is_reverse q a → longest_match c z a → relayed_for z q relayed →
      spec_answer c q t (mkVerdict ResponseCode.NoError true relayed [])
  (** A host name: its address. *)
  | spec_address z a r :
      asks t [RecordType.AAAA; RecordType.ANY] → z ∈ zones c → is_host z q a →
      rec_name r = q → rec_class r = DNSClass.IN → rec_ttl r = ttl z → rec_data r = RData.AAAA a →
      spec_answer c q t (mkVerdict ResponseCode.NoError true [r] [])
  (** A host name, asked for another type: no data. *)
  | spec_no_data z a soas :
      ¬ asks t [RecordType.AAAA; RecordType.ANY] → z ∈ zones c → is_host z q a → soa_above c q soas →
      spec_answer c q t (mkVerdict ResponseCode.NoError true [] soas)
  (** Any other name of the namespace does not exist. *)
  | spec_no_name z apex soas :
      (∀ z' a, z' ∈ zones c → ¬ is_host z' q a) →
      (asks t [RecordType.PTR; RecordType.ANY] → no_reverse c q) →
      (asks t [RecordType.SOA; RecordType.NS; RecordType.ANY] → ¬ is_apex c q) →
      z ∈ zones c → apex_of z apex → suffix_ci apex (labels q) → soa_at c apex (ttl z) soas →
      spec_answer c q t (mkVerdict ResponseCode.NXDomain true [] soas)
  (** A name outside it is declined, the way the configuration says. *)
  | spec_outside code :
      ¬ inside c q →
      code = match out_of_zone (params c) with
             | Refused => ResponseCode.Refused
             | NxDomain => ResponseCode.NXDomain
             end →
      spec_answer c q t (mkVerdict code false [] []).

(** Other classes and zone transfers are refused. *)
Inductive spec_reply (c : Config) (q : DName) (t : RecordType.t) (cl : DNSClass.t) : Verdict → Prop :=
  | spec_refused :
      cl ∉ [DNSClass.IN; DNSClass.ANY] ∨ t ∈ [RecordType.AXFR; RecordType.IXFR] →
      spec_reply c q t cl (mkVerdict ResponseCode.Refused false [] [])
  | spec_served v :
      cl ∈ [DNSClass.IN; DNSClass.ANY] → t ∉ [RecordType.AXFR; RecordType.IXFR] →
      spec_answer c q t v → spec_reply c q t cl v.

Definition verdict_of (rep : Reply) : Verdict :=
  mkVerdict (code rep) (reply_authoritative rep) (reply_answers rep) (authority rep).
End Answers.

(** ** What the server may do *)

Section Server.
Context {D : DnsOps} {R : ResolverOps} {G : LimiterOps} {M : MessageOps}.

Definition no_records (r : Response) : Prop := resp_answers r = [] ∧ resp_authority r = [].

(** A response to a request under a configuration: an allowed reply, for absolute
    names, as all names of decoded messages are; a truncated message, over
    UDP and under rate limiting only; or an error without records, of which
    SERVFAIL is for a malformed request or after a failure to send. *)
Inductive response_for (limits : bool) (c : Config) (transport : Response → result ResponseInfo bytes)
    (request : Request) (r : Response) : Prop :=
  | for_reply info v :
      req_info request = Ok info → op_code (req_metadata request) = OpCode.Query →
      version request = 0 →
      (is_fqdn (query_name info) = true →
       spec_reply c (query_name info) (query_type info) (query_class info) v) →
      v = mkVerdict (response_code (resp_metadata r)) (authoritative (resp_metadata r))
            (resp_answers r) (resp_authority r) →
      recursion_available (resp_metadata r) = false →
      authentic_data (resp_metadata r) = false →
      response_for limits c transport request r
  | for_truncated info :
      limits = true → req_info request = Ok info → is_tcp info = false →
      truncation (resp_metadata r) = true → no_records r →
      response_for limits c transport request r
  | for_unsupported :
      op_code (req_metadata request) ≠ OpCode.Query ∧
        response_code (resp_metadata r) = ResponseCode.NotImp ∨
      0 < version request ∧ response_code (resp_metadata r) = ResponseCode.BADVERS →
      no_records r → response_for limits c transport request r
  | for_failure :
      (∃ reason, req_info request = Err reason) ∨ (∃ sent x, transport sent = Err x) →
      response_code (resp_metadata r) = ResponseCode.ServFail → no_records r →
      response_for limits c transport request r.

Definition conforms (limits : bool) (c : Config) (transport : Response → result ResponseInfo bytes)
    (request : Request) (r : Response) : Prop :=
  is_response (resp_metadata r) = true ∧ id (resp_metadata r) = id (req_metadata request) ∧
  response_for limits c transport request r.

(** A request is answered once; twice only if sending fails; not at all only if
    it came over UDP and rate limiting is on. *)
Definition answered (limits : bool) (transport : Response → result ResponseInfo bytes)
    (request : Request) (rs : list Response) : Prop :=
  len rs <= 2 ∧ ((∀ r, ∃ i, transport r = Ok i) → len rs <= 1) ∧
  (rs = [] → limits = true ∧ ∃ info, req_info request = Ok info ∧ is_tcp info = false).

(** A reload installs what one of the files says, or nothing. *)
Inductive reloaded (reads : list FileResult) (c : Config) : Config → Prop :=
  | reload_kept : reloaded reads c c
  | reload_replaced body c' :
      Ok body ∈ reads → Config_parse body = Ok c' → reloaded reads c c'.

(** One event of the abstract server, whose state is its configuration, and which
    limits rates or does not. *)
Inductive abs_step (limits : bool) (c : Config) : Event → list Response → Config → Prop :=
  | abs_hangup read c' : reloaded [read] c c' → abs_step limits c (Hangup read) [] c'
  | abs_tick now now' : abs_step limits c (Tick now now') [] c
  | abs_query e reads request rs c' :
      reloaded reads c c' → Forall (conforms limits c (env_transport e) request) rs →
      answered limits (env_transport e) request rs →
      abs_step limits c (Query e reads request) rs c'.

Inductive abs_run (limits : bool) (c : Config) : list Event → list (list Response) → Config → Prop :=
  | run_nil : abs_run limits c [] [] c
  | run_cons ev evs rs rss c' c'' :
      abs_step limits c ev rs c' → abs_run limits c' evs rss c'' → abs_run limits c (ev :: evs) (rs :: rss) c''.

(** The responses of the concrete server, event by event. *)
Fixpoint responses (path : bytes) (evs : list Event) (st : ServerState) : list (list Response) :=
  match evs with
  | [] => []
  | ev :: evs =>
      let '(rs, st) := process_event path ev st in rs :: responses path evs st
  end.
End Server.

(** ** The code's notions are the contract's *)

Section Correspondence.
Context {D : DnsOps} {L : DnsLaws D} {R : ResolverOps} {G : LimiterOps}.

Lemma contains_in_network z a : zone_wf z → contains z a ↔ in_network a (prefix z) (mask z).
Proof.
  intros Hz. destruct (zwf_prefix z Hz) as [Hp Hpp]. pose proof (zwf_mask z Hz).
  unfold contains, in_network. split; intros [Ha H1]; (split; [done|]).
  - rewrite <- Hpp. apply same_network_div; [lia|done..].
  - apply same_network_div; [lia|done..|]. by rewrite Hpp.
Qed.

Lemma zone_in_wf c z : config_wf c → z ∈ zones c → zone_wf z.
Proof. intros Hc. pose proof (cwf_zones c Hc) as H. rewrite Forall_forall in H. apply H. Qed.

Lemma zone_for_addr_longest c z a :
  config_wf c → a < 2 ^ 128 → zone_for_addr c a = Some z → longest_match c z a.
Proof.
  intros Hc Ha (Hin & Hp & Hl)%zone_for_addr_Some. split; [done|].
  split; [apply contains_in_network; [by eapply zone_in_wf|done]|].
  intros z' Hz' [_ H]%contains_in_network; [|by eapply zone_in_wf]. apply Hl; [apply Hc|done..].
Qed.

Lemma match_ptr_longest c q z a :
  config_wf c → match_ptr c q = Some (z, a) → is_reverse q a ∧ longest_match c z a.
Proof.
  intros Hc [Hq Hz]%match_ptr_Some. apply ptr_name_to_addr_Some in Hq as [Ha Hq].
  split; [done|]. by apply zone_for_addr_longest.
Qed.

Lemma match_ptr_no_reverse c q : config_wf c → match_ptr c q = None → no_reverse c q.
Proof.
  intros Hc Hm a z [Ha Hq] (Hin & Hz & _).
  assert (ptr_name_to_addr q = Some a) as Hp by by apply ptr_name_to_addr_Some.
  destruct (zone_for_addr c a) as [z'|] eqn:E.
  - assert (match_ptr c q = Some (z', a)); [by apply match_ptr_Some|congruence].
  - apply contains_in_network in Hz as [_ Hz]; [|by eapply zone_in_wf].
    by eapply zone_for_addr_None in E.
Qed.

Lemma host_labels_forward z a :
  zone_wf z → ∃ n, forward_name z a = Some n ∧ is_fqdn n = true ∧ labels n = host_labels z a.
Proof.
  intros Hz. destruct (forward_name_labels z a Hz) as (n & Hn & Hf & Hl). exists n.
  split; [done|]. split; [done|]. rewrite Hl. apply list_fmap_ext. intros i [|pre ? post ? []] _; [done| |done].
  simpl. by rewrite dash_group_join by apply host_text_ascii.
Qed.

Lemma is_host_match z q a : zone_wf z → match_zone_forward z q = Some a ↔ is_host z q a.
Proof.
  intros Hz. rewrite match_zone_forward_names by done. unfold is_host.
  rewrite contains_in_network by done. apply and_iff_compat_l.
  destruct (host_labels_forward z a Hz) as (n & Hn & Hf & <-). rewrite Hn. split.
  - intros (n' & [= <-] & _ & H). exact H.
  - intros H. by exists n.
Qed.

Lemma match_forward_no_host c q :
  config_wf c → match_forward c q = None → ∀ z a, z ∈ zones c → ¬ is_host z q a.
Proof.
  intros Hc Hm z a Hz Hh. apply is_host_match in Hh; [|by eapply zone_in_wf].
  destruct (match_forward_total c q z a Hz Hh) as (z' & a' & H & _). congruence.
Qed.

Lemma behind_digits_split before l after :
  Forall (λ l, is_literal l = true) before → is_literal l = false →
  behind_digits (before ++ l :: after) = label_text [] <$> after.
Proof.
  intros Hb Hl. induction Hb as [|x before Hx _ IH]; [by destruct l|]. by destruct x.
Qed.

Lemma apex_labels z :
  zone_wf z →
  labels (ptr_zone z) = zone_labels (mask z / 4) (prefix z) ∧
  labels (fwd_parent z) = behind_digits (fwd_labels (fwd z)).
Proof.
  intros Hz. split.
  - destruct (netmask_to_ptr_name_valid (prefix z) (mask z)) as (n & Hn & Hl & _);
      [pose proof (zwf_mask z Hz); lia|apply Hz|]. pose proof (zwf_ptr z Hz). congruence.
  - destruct (twf_digits _ _ (zwf_fwd z Hz)) as (bef & pre & prl & post & pol & d & aft & E & Hb & Ha & Hat & _).
    destruct (parent_labels _ _ (zwf_parent z Hz)) as [-> _].
    destruct (labels_behind_digits _ _ (zwf_fwd z Hz)) as (bef' & d' & aft' & E' & Hb' & _ & ->).
    rewrite E, behind_digits_split by done. rewrite E in E'.
    assert (length bef = length bef') as Hlen by (unfold len in *; lia).
    apply app_inj_1 in E' as [-> [= <- ->]]; [|done].
    apply list_fmap_ext. intros i l Hi. rewrite Forall_lookup in Ha. by specialize (Ha i l Hi); destruct l.
Qed.

Lemma apex_of_iff z ls :
  zone_wf z → apex_of z ls ↔ ∃ apex, apex ∈ [ptr_zone z; fwd_parent z] ∧ labels apex = ls.
Proof.
  intros Hz. destruct (apex_labels z Hz) as [Hp Hf]. unfold apex_of. rewrite <- Hp, <- Hf.
  set_solver.
Qed.

Lemma below_served c q : config_wf c → below c q ↔ served c q.
Proof.
  intros Hc. split.
  - intros (z & ls & Hz & (apex & Hin & <-)%apex_of_iff & Hs); [|by eapply zone_in_wf].
    exists z. split; [done|]. apply zone_of_spec in Hs. set_solver.
  - intros (z & Hz & Ho). assert (∃ apex, apex ∈ [ptr_zone z; fwd_parent z] ∧ zone_of apex q = true)
      as (apex & Ha & Hq%zone_of_spec) by (destruct Ho; eexists; (split; [|done]); set_solver).
    exists z, (labels apex). split; [done|]. split; [|done].
    apply apex_of_iff; [by eapply zone_in_wf|by exists apex].
Qed.

(** A stray name is a host name. *)
Lemma stray_host c q : config_wf c → stray c q → ∃ z a, z ∈ zones c ∧ is_host z q a.
Proof.
  intros Hc (z & a & n & x & Hin & Hw & Hnet & Hn & Hci). pose proof (zone_in_wf _ _ Hc Hin) as Hz. exists z, a.
  split; [done|]. apply is_host_match; [done|]. apply match_zone_forward_names; [done|]. split; [done|].
  destruct (forward_name_labels z a Hz) as (n' & Hn' & Hf & _). assert (n' = n) as -> by congruence.
  exists n. do 2 (split; [done|]). exists [x]. by rewrite spare_wildcard.
Qed.

Lemma host_stray c q z a : config_wf c → z ∈ zones c → is_host z q a → below c q ∨ stray c q.
Proof.
  intros Hc Hin Hh%is_host_match; [|by eapply zone_in_wf].
  destruct (match_forward_total c q z a Hin Hh) as (z' & a' & Hm & _).
  apply match_forward_stray in Hm as [Hz' [H|H]]; [left|by right|done].
  apply below_served; [done|]. exists z'. auto.
Qed.

(** What [resolve] declines is outside. *)
Lemma NoZone_outside c q : config_wf c → below_none c q ∧ ¬ stray c q ↔ ¬ inside c q.
Proof.
  intros Hc. unfold inside. assert (below_none c q ↔ ¬ below c q) as -> by by rewrite below_served, not_served.
  split.
  - intros [Hb Hs] [H|(z & a & Hz & Hh)]; [done|]. by destruct (host_stray c q z a Hc Hz Hh).
  - intros H. split; [by auto|]. intros Hs%stray_host; [|done]. auto.
Qed.

(** The deduplicated list of apexes misses none. *)
Definition listed (x : DName) (l : list DName) : Prop := ∃ y, y ∈ l ∧ name_eq y x = true.

Lemma push_apex_listed out n x : listed x out → listed x (push_apex out n).
Proof.
  intros (y & Hy & Hx). exists y. split; [|done]. unfold push_apex. case_match; set_solver.
Qed.

Lemma push_apex_self out n : name_eq n n = true → listed n (push_apex out n).
Proof.
  intros Hn. unfold push_apex, name_in. destruct (existsb _ out) eqn:E; simpl.
  - apply existsb_exists in E as (y & Hy%list_elem_of_In & Hyn). by exists y.
  - exists n. split; [set_solver|done].
Qed.

Lemma apexes_listed c z apex :
  config_wf c → z ∈ zones c → apex ∈ [ptr_zone z; fwd_parent z] → listed apex (apexes c).
Proof.
  intros Hc Hz Ha. assert (name_eq apex apex = true) as Hself.
  { destruct (apex_fqdn z (zone_in_wf _ _ Hc Hz)) as [H1 H2].
    assert (is_fqdn apex = true) by set_solver. by apply name_eq_spec. }
  unfold apexes. apply list_elem_of_split in Hz as (l1 & l2 & ->). clear Hc.
  assert (∀ zs out, listed apex out →
    listed apex (foldl (λ out z, foldl push_apex out [ptr_zone z; fwd_parent z]) out zs)) as Hmono.
  { induction zs as [|y zs IH]; intros out Hl; [done|]. simpl. apply IH. by do 2 apply push_apex_listed. }
  rewrite foldl_app. set (acc := foldl _ [] l1).
  apply (Hmono l2 (foldl push_apex acc [ptr_zone z; fwd_parent z])). cbn [foldl].
  apply elem_of_cons in Ha as [-> |Ha%list_elem_of_singleton].
  - by apply push_apex_listed, push_apex_self.
  - subst. by apply push_apex_self.
Qed.

Lemma apex_reply_None c q t :
  config_wf c → is_fqdn q = true → apex_reply c q t = None →
  asks t [RecordType.SOA; RecordType.NS; RecordType.ANY] → ¬ is_apex c q.
Proof.
  intros Hc Hq Hr Ht (z & ls & Hz & Ha & Hci). pose proof (zone_in_wf _ _ Hc Hz) as Hwf.
  apply apex_of_iff in Ha as (apex & Ha & <-); [|done].
  destruct (apexes_listed c z apex Hc Hz Ha) as (y & Hy & Hya).
  assert (is_soa_or_any t || is_ns_or_any t = true) as Hty by (unfold asks in Ht; set_solver).
  unfold apex_reply in Hr. rewrite Hty in Hr. cbn [negb] in Hr.
  destruct (iter_find _ (apexes c)) as [a|] eqn:E; [done|].
  rewrite iter_find_None, Forall_forall in E. specialize (E y Hy). simpl in E.
  apply apexes_in in Hy as (z' & Hz' & Hy).
  destruct (apex_fqdn z Hwf) as [H1 H2], (apex_fqdn z' (zone_in_wf _ _ Hc Hz')) as [H3 H4].
  assert (is_fqdn apex = true) as Hfa by set_solver.
  assert (is_fqdn y = true) as Hfy by (by destruct Hy as [-> | ->]).
  apply name_eq_spec in Hya; [|done..].
  assert (name_eq y q = true); [|congruence]. apply name_eq_spec; [done..|].
  by rewrite Hya, Hci.
Qed.

(** The record types of the code's predicates. *)
Lemma asks_types t :
  bool_decide (asks t [RecordType.SOA; RecordType.ANY]) = is_soa_or_any t ∧
  bool_decide (asks t [RecordType.NS; RecordType.ANY]) = is_ns_or_any t ∧
  bool_decide (asks t [RecordType.PTR; RecordType.ANY]) = reverse_has_type t ∧
  bool_decide (asks t [RecordType.AAAA; RecordType.ANY]) = forward_has_type t ∧
  bool_decide (asks t [RecordType.SOA; RecordType.NS; RecordType.ANY]) = is_soa_or_any t || is_ns_or_any t ∧
  bool_decide (t ∈ [RecordType.AXFR; RecordType.IXFR]) = zone_transfer t.
Proof. by destruct t. Qed.

Lemma asks_class cl : bool_decide (cl ∉ [DNSClass.IN; DNSClass.ANY]) = declined_class cl.
Proof. by destruct cl. Qed.

Lemma soa_at_record c apex ttl :
  soa_at c (labels apex) ttl (match soa c with Some s => [soa_record apex s ttl] | None => [] end).
Proof.
  assert (∀ x, to_i32 x = N.min x i32_MAX) as Hi.
  { intros x. unfold to_i32. destruct (N.leb_spec x i32_MAX); lia. }
  destruct (soa c) as [s|] eqn:Es; [|by constructor]. unfold soa_record.
  eapply soa_some; [done|..]; autorewrite with dns; try done. by rewrite !Hi.
Qed.

Lemma ns_at_records c apex ttl : ns_at c (labels apex) ttl (ns_records apex c ttl).
Proof.
  unfold ns_at, ns_records. induction (nameservers c) as [|n ns IH]; constructor; [|done].
  by autorewrite with dns.
Qed.

(** A negative answer carries the SOA of an enclosing apex. *)
Lemma negative_authority_soa_at c q :
  config_wf c → served c q →
  ∃ z apex, z ∈ zones c ∧ apex_of z apex ∧ suffix_ci apex (labels q) ∧
    soa_at c apex (ttl z) (negative_authority c q Negative).
Proof.
  intros Hc Hs. destruct (soa c) as [s|] eqn:Es.
  - destruct (negative_authority_served c q s Es Hs) as (z & apex & Hz & Ha & Ho & E).
    exists z, (labels apex). split; [done|]. split; [|split].
    + apply apex_of_iff; [by eapply zone_in_wf|]. exists apex. split; [set_solver|done].
    + by apply zone_of_spec.
    + rewrite E. pose proof (soa_at_record c apex (ttl z)) as H. by rewrite Es in H.
  - apply below_served in Hs as (z & apex & Hz & Ha & Hq); [|done]. exists z, apex.
    do 3 (split; [done|]). unfold negative_authority. rewrite bool_decide_eq_false_2, Es by auto.
    by constructor.
Qed.

Lemma match_forward_host c q z a :
  config_wf c → match_forward c q = Some (z, a) → z ∈ zones c ∧ is_host z q a.
Proof.
  intros Hc [Hz Hm]%match_forward_Some. split; [done|]. apply is_host_match in Hm; [done|by eapply zone_in_wf].
Qed.

(** The authority of an answer without data. *)
Lemma negative_authority_above c q :
  config_wf c → soa_above c q (negative_authority c q Negative).
Proof.
  intros Hc. destruct (base.decide (Exists (λ z, zone_of (ptr_zone z) q = true ∨
    zone_of (fwd_parent z) q = true) (zones c))) as [(z' & ? & ?)%Exists_exists|He].
  - destruct (negative_authority_soa_at c q Hc) as (z & apex & ? & ? & ? & ?); [by exists z'|].
    by apply (above_apex c q z apex).
  - assert (¬ served c q) as Hno.
    { intros (z & ? & ?). destruct He. apply Exists_exists. by exists z. }
    destruct (negative_authority_cases c q Negative) as [->|(s & z & apex & _ & Hz & Ha & Ho & _)].
    + apply above_none. by rewrite below_served.
    + destruct Hno. exists z. split; [done|]. destruct Ha as [-> | ->]; auto.
Qed.

(** What [resolve] finds, in the terms of the contract. *)
Lemma resolve_contract c q t :
  config_wf c →
  match resolve c q t with
  | Answer z rs =>
      asks t [RecordType.PTR; RecordType.ANY] ∧
        (∃ a n, is_reverse q a ∧ longest_match c z a ∧ labels n = host_labels z a ∧
                rs = [from_rdata q (ttl z) (RData.PTR n)]) ∨
      z ∈ zones c ∧
        ∃ a, is_host z q a ∧
             rs = if bool_decide (asks t [RecordType.AAAA; RecordType.ANY])
                  then [from_rdata q (ttl z) (RData.AAAA a)] else []
  | NoName z =>
      z ∈ zones c ∧ (∀ z' a, z' ∈ zones c → ¬ is_host z' q a) ∧
      (asks t [RecordType.PTR; RecordType.ANY] → no_reverse c q)
  | NoZone => ¬ inside c q
  end.
Proof.
  intros Hc.
  destruct (asks_types t) as (_ & _ & Hrev & Hfwd & _).
  assert (asks t [RecordType.PTR; RecordType.ANY] → reverse_has_type t = true) as Hask
    by by rewrite <- Hrev, bool_decide_eq_true.
  destruct (resolve c q t) as [z rs|z|] eqn:E;
    [| |by apply NoZone_outside, (resolve_NoZone c q t)].
  - unfold resolve in E. destruct (reverse_has_type t) eqn:Et.
    2:{ destruct (match_forward c q) as [[z' a]|] eqn:Ef; [|by destruct (zone_containing c q)].
        injection E as -> <-. right.
      apply match_forward_host in Ef as [Hz Hh]; [|done..]. split; [done|].
      exists a. by rewrite Hfwd. }
    destruct (match_ptr c q) as [[z' a]|] eqn:Ep.
    + injection E as -> <-. left. apply bool_decide_eq_true in Hrev. split; [done|].
      apply match_ptr_longest in Ep as [Hr Hl]; [|done].
      destruct (host_labels_forward z a) as (n & Hn & _ & Hln);
        [eapply zone_in_wf; [done|]; apply Hl|].
      exists a, n. do 3 (split; [done|]). unfold ptr_record. by rewrite Hn.
    + destruct (match_forward c q) as [[z' a]|] eqn:Ef; [|by destruct (zone_containing c q)].
      injection E as -> <-. right.
      apply match_forward_host in Ef as [Hz Hh]; [|done..]. split; [done|].
      exists a. by rewrite Hfwd.
  - split; [by apply resolve_NoName in E as [? _]|]. unfold resolve in E.
    destruct (if reverse_has_type t then _ else _) as [[z1 a1]|] eqn:Ep; [done|].
    destruct (match_forward c q) as [[z1 a1]|] eqn:Ef; [done|].
    split; [by apply match_forward_no_host|]. intros Ha%Hask. rewrite Ha in Ep.
    by apply match_ptr_no_reverse.
Qed.
(** The branches of a reply. *)
Lemma apex_reply_contract c q t rep :
  config_wf c → is_fqdn q = true → apex_reply c q t = Some rep →
  spec_answer c q t (verdict_of rep).
Proof.
  intros Hc Hq Ha. destruct (asks_types t) as (Hsoa & Hns & _ & _ & Hapex & _).
  assert (asks t [RecordType.SOA; RecordType.NS; RecordType.ANY]) as Ht.
  { eapply bool_decide_eq_true_1. rewrite Hapex. unfold apex_reply in Ha. by destruct (is_soa_or_any t || _). }
  apply apex_reply_Some in Ha as (apex & tt & Hin & Hn & Htt & Hcode & Hauth & Hempty & Hans).
  apply apexes_in in Hin as (z & Hz & Hap). pose proof (zone_in_wf _ _ Hc Hz) as Hwf.
  unfold verdict_of. rewrite Hcode, Hauth, Hempty, Hans.
  destruct (zones c) as [|z0 rest] eqn:Ez; [by apply not_elem_of_nil in Hz|]. subst tt.
  destruct (apex_fqdn z Hwf) as [H1 H2].
  apply (spec_apex c q t z0 rest z (labels apex)); [done|done|by rewrite Ez| | | |].
  - apply apex_of_iff; [done|]. exists apex. split; [set_solver|done].
  - symmetry. apply name_eq_spec; [by destruct Hap as [-> | ->]|done..].
  - rewrite Hsoa. destruct (is_soa_or_any t); [|done]. apply soa_at_record.
  - rewrite Hns. destruct (is_ns_or_any t); [|done]. apply ns_at_records.
Qed.

Lemma answer_contract c q t z rs rep :
  config_wf c →
  code rep = ResponseCode.NoError → reply_authoritative rep = true →
  authority rep = negative_authority c q (reply_kind rep) →
  reply_kind rep = match reply_answers rep with [] => Negative | _ => AnswerKind end →
  reply_answers rep = rs ∨ t = RecordType.PTR ∧ rs ≠ [] ∧ relayed_for z q (reply_answers rep) →
  asks t [RecordType.PTR; RecordType.ANY] ∧
    (∃ a n, is_reverse q a ∧ longest_match c z a ∧ labels n = host_labels z a ∧
            rs = [from_rdata q (ttl z) (RData.PTR n)]) ∨
  z ∈ zones c ∧
    (∃ a, is_host z q a ∧
       rs = if bool_decide (asks t [RecordType.AAAA; RecordType.ANY])
            then [from_rdata q (ttl z) (RData.AAAA a)] else []) →
  spec_answer c q t (verdict_of rep).
Proof.
  intros Hc Hcode Hauth Hneg Hkind Ho Hs. unfold verdict_of. rewrite Hcode, Hauth, Hneg, Hkind.
  assert (∀ x, negative_authority c q (match reply_answers rep with [] => x | _ => AnswerKind end) =
    match reply_answers rep with [] => negative_authority c q x | _ => [] end) as ->
    by (intros x; by destruct (reply_answers rep)).
  destruct Hs as [(Ht & a & n & Hrev & Hl & Hn & Hrs)|(Hz & a & Hh & Hrs)].
  - destruct Ho as [Ho|(Hp & _ & Ho)].
    + rewrite Ho, Hrs. eapply (spec_ptr c q t z a n); try done; by autorewrite with dns.
    + destruct (reply_answers rep) as [|r rs'] eqn:E; [by destruct Ho|]. by apply (spec_relayed c q t z a).
  - destruct Ho as [Ho|(-> & Hne & _)]; [|by subst].
    rewrite Ho, Hrs. case_bool_decide as Ht.
    + eapply (spec_address c q t z a); try done; by autorewrite with dns.
    + apply (spec_no_data c q t z a); [done..|]. by apply negative_authority_above.
Qed.

Lemma decide_reply_contract e zs q t cl :
  config_wf (config zs) → is_fqdn q = true →
  spec_reply (config zs) q t cl (verdict_of (fst (decide_reply e zs q t cl))).
Proof.
  intros Hc Hq. pose proof (decide_reply_case e zs q t cl) as Hcase. cbv zeta in Hcase.
  set (rep := fst (decide_reply e zs q t cl)) in *.
  destruct (asks_types t) as (Hsoa & Hns & _ & Hfwd & Hapex & Htr). pose proof (asks_class cl) as Hcl.
  destruct (declined_class cl) eqn:Ec; simpl in Hcase.
  { rewrite Hcase. apply spec_refused. left. by apply bool_decide_eq_true in Hcl. }
  destruct (zone_transfer t) eqn:Et; simpl in Hcase.
  { rewrite Hcase. apply spec_refused. right. by apply bool_decide_eq_true in Htr. }
  apply bool_decide_eq_false, dec_stable in Hcl. apply bool_decide_eq_false in Htr.
  apply spec_served; [done|done|].
  destruct Hcase as [Ha|z rs Hn Hr Hcode Hauth Hneg Hkind Ho|z Hn Hr Hcode Hauth Hans _ Hneg|Hn Hr ->].
  - by apply (apex_reply_contract (config zs) q t rep).
  - pose proof (resolve_contract (config zs) q t Hc) as Hs. rewrite Hr in Hs.
    by eapply answer_contract.
  - pose proof (resolve_contract (config zs) q t Hc) as Hs. rewrite Hr in Hs.
    destruct Hs as (Hz & Hh & Hrev). unfold verdict_of. rewrite Hcode, Hauth, Hans, Hneg.
    apply resolve_NoName in Hr as [_ Hzo]. set (apex := if zone_of (ptr_zone z) q then _ else _).
    assert (apex ∈ [ptr_zone z; fwd_parent z] ∧ zone_of apex q = true) as [Hin Hb].
    { unfold apex. destruct (zone_of (ptr_zone z) q) eqn:Ep; [split; [set_solver|done]|].
      destruct Hzo as [?|?]; [done|]. split; [set_solver|done]. }
    apply (spec_no_name (config zs) q t z (labels apex)); try done.
    + by eapply apex_reply_None.
    + apply apex_of_iff; [by eapply zone_in_wf|by exists apex].
    + by apply zone_of_spec.
    + apply soa_at_record.
  - pose proof (resolve_contract (config zs) q t Hc) as Hs. rewrite Hr in Hs.
    unfold verdict_of. destruct (out_of_zone (params (config zs))) eqn:Eo; by apply spec_outside; [|rewrite Eo].
Qed.
End Correspondence.

(** ** One request, one event *)

Section Steps.
Context {D : DnsOps} {L : DnsLaws D} {R : ResolverOps} {G : LimiterOps} {M : MessageOps}
  {ML : MessageLaws M}.

Lemma send_conforms limits c transport zs reply request tcp :
  payload_wf zs →
  (∀ r, response_code (resp_metadata r) = code reply →
     authoritative (resp_metadata r) = reply_authoritative reply →
     resp_answers r = reply_answers reply → resp_authority r = authority reply →
     recursion_available (resp_metadata r) = false → authentic_data (resp_metadata r) = false →
     response_for limits c transport request r) →
  ∃ r, send transport zs (req_metadata request) reply request tcp =
         ([r], Returned (result_map_err (λ e, bs "send failed: " ++ e) (transport r))) ∧
       conforms limits c transport request r.
Proof.
  intros Hp Hr. destruct (send_spec transport zs reply request tcp Hp)
    as (r & -> & (Hresp & Hid & _) & Ha & Hb & Hc & Hd & He & Hf & _).
  exists r. split; [done|]. split; [done|]. split; [done|]. by apply Hr.
Qed.

(** The inner handler: fails on a malformed request, sends one conforming
    response, or drops a UDP request. *)
Lemma handle_inner_conforms e request st :
  forces_valid_payload e st → config_wf (config (st_zones st)) →
  let s := fst (handle_inner e request st) in
  (∃ reason x, req_info request = Err x ∧ s = ([], Returned (Err reason))) ∨
  (∃ r, s = ([r], Returned (result_map_err (λ x, bs "send failed: " ++ x) (env_transport e r))) ∧
        conforms (enabled (rrl_params (st_rrl st))) (config (st_zones st)) (env_transport e) request r) ∨
  (∃ info i, enabled (rrl_params (st_rrl st)) = true ∧ req_info request = Ok info ∧
     is_tcp info = false ∧ s = ([], Returned (Ok i))).
Proof.
  intros [Hp Hre] Hc. unfold handle_inner.
  destruct (req_info request) as [info|reason] eqn:Ei; [|by left; eexists _, _].
  case_bool_decide as Hop; simpl negb; cbv iota.
  2:{ right; left. apply send_conforms; [done|]. intros r H1 _ H2 H3 _ _. apply for_unsupported; [by left|by split]. }
  destruct (N.ltb_spec 0 (version request)) as [Hv|Hv].
  { right; left. apply send_conforms; [done|]. intros r H1 _ H2 H3 _ _. apply for_unsupported; [by right|by split]. }
  pose proof (decide_reply_config (env_lookup e) (st_zones st) (query_name info) (query_type info) (query_class info)) as Hz.
  pose proof (decide_reply_contract (env_lookup e) (st_zones st) (query_name info) (query_type info) (query_class info) Hc) as Hspec.
  destruct (decide_reply _ _ _ _ _) as [rep zs]. simpl in Hz, Hspec.
  assert (exempt (st_rrl st) (is_tcp info) = true →
    fst (decide (env_now e) (src info) (reply_kind rep) (is_tcp info) (st_rrl st)) = Allow) as Hexempt.
  { intros Ht. unfold decide. by rewrite Ht. }
  destruct (decide _ _ _ _ _) as [d rr]. simpl in Hexempt.
  assert (d ≠ Allow → enabled (rrl_params (st_rrl st)) = true ∧ is_tcp info = false) as Hudp.
  { unfold exempt in Hexempt. destruct (enabled _), (is_tcp info); naive_solver. }
  destruct d; simpl fst.
  - right; left. apply send_conforms; [by apply Hre|]. intros r H1 H2 H3 H4 H5 H6.
    apply (for_reply _ _ _ _ _ info (verdict_of rep)); try done; [lia|]. unfold verdict_of. by rewrite H1, H2, H3, H4.
  - right; right. exists info. eexists. destruct Hudp as [? ?]; [done|]. by repeat split.
  - right; left. unfold send_response. eexists. split; [done|]. split; [apply response_is_response|].
    split; [apply response_id|]. by apply (for_truncated _ _ _ _ _ info); [apply Hudp| |apply Hudp|..].
Qed.

Lemma servfail_conforms limits c transport request :
  (∃ reason, req_info request = Err reason) ∨ (∃ sent x, transport sent = Err x) →
  Forall (conforms limits c transport request) (fst (servfail transport request)).
Proof.
  intros Hf. unfold servfail. constructor; [|done]. split; [apply metadata_new_response|].
  split; [apply metadata_new_id|]. by apply for_failure.
Qed.

Lemma handle_request_conforms e request st :
  forces_valid_payload e st → config_wf (config (st_zones st)) →
  Forall (conforms (enabled (rrl_params (st_rrl st))) (config (st_zones st)) (env_transport e) request) (fst (fst (handle_request e request st))) ∧
  answered (enabled (rrl_params (st_rrl st))) (env_transport e) request (fst (fst (handle_request e request st))).
Proof.
  intros Hv Hc. pose proof (handle_inner_conforms e request st Hv Hc) as Hs. cbv zeta in Hs.
  pose proof (servfail_conforms (enabled (rrl_params (st_rrl st))) (config (st_zones st)) (env_transport e) request) as Hf.
  unfold handle_request, answered. destruct (handle_inner e request st) as [s st']. simpl in Hs.
  assert (len (fst (servfail (env_transport e) request)) = 1) as Hone by done.
  destruct (servfail (env_transport e) request) as [more info]. simpl in Hf, Hone.
  destruct Hs as [(reason & x & Hx & ->)|[(r & -> & Hr)|(info' & i & Hl & Hi & Ht & ->)]]; simpl.
  - rewrite Hone. split; [apply Hf; left; by exists x|]. split; [lia|]. split; [lia|]. by intros ->.
  - destruct (env_transport e r) as [i|x] eqn:Et; simpl.
    + repeat split; [by constructor|done..].
    + rewrite len_cons, Hone. split; [constructor; [done|]; apply Hf; right; by exists r, x|].
      split; [lia|]. split; [|done].
      intros Hok. destruct (Hok r). congruence.
  - repeat split; [done..|]. by exists info'.
Qed.

Lemma reloads_reloaded path reads zs : reloaded reads (config zs) (config (reloads path reads zs)).
Proof.
  unfold reloads. revert zs. induction reads as [|read reads IH]; intros zs; [constructor|]. simpl.
  assert (config (reload path read zs) = config zs ∨
    ∃ body, read = Ok body ∧ Config_parse body = Ok (config (reload path read zs))) as Hr.
  { unfold reload, load_config. destruct read as [body|?]; [|by left]. cbn [result_map_err result_bind].
    destruct (Config_parse body) as [c|] eqn:Ec; [|by left]. cbn [result_map_err result_bind].
    destruct (Zones_new c) as [next|] eqn:En; [|by left]. right. exists body.
    by rewrite (Zones_new_config _ _ En). }
  destruct (IH (reload path read zs)) as [|body c' Hin Hc'].
  - destruct Hr as [-> |(body & -> & Hb)]; [constructor|]. apply (reload_replaced _ _ body); [left|done].
  - apply (reload_replaced _ _ body); [by right|done].
Qed.

(** Every event of the concrete server is one of the abstract server. *)
Lemma process_event_simulates path ev st :
  config_wf (config (st_zones st)) →
  abs_step (enabled (rrl_params (st_rrl st))) (config (st_zones st)) ev (fst (process_event path ev st))
    (config (st_zones (snd (process_event path ev st)))).
Proof.
  intros Hc. destruct ev as [read|now|e reads request]; simpl.
  - constructor. apply (reloads_reloaded path [read]).
  - constructor.
  - set (e' := with_reloads path reads e).
    destruct (handle_request_conforms e' request st) as [H1 H2]; [by apply valid_forces|done|].
    destruct (handle_request_state e' request st) as [Hst _].
    destruct (handle_request e' request st) as [[sent i] st']. cbn [fst snd] in *.
    constructor; [|done|exact H2]. destruct Hst as [-> |(z & Hz & ->)]; [constructor|].
    simpl. rewrite <- Hz. apply reloads_reloaded.
Qed.

Lemma process_events_simulate path evs st :
  config_wf (config (st_zones st)) →
  abs_run (enabled (rrl_params (st_rrl st))) (config (st_zones st)) evs (responses path evs st)
    (config (st_zones (process_events path evs st))).
Proof.
  revert st. induction evs as [|ev evs IH]; intros st Hc; [constructor|]. simpl.
  pose proof (process_event_simulates path ev st Hc) as Hs.
  pose proof (process_event_valid path ev st Hc) as [Hv Hr].
  destruct (process_event path ev st) as [rs st']. simpl in *. econstructor; [exact Hs|].
  rewrite <- Hr. by apply IH.
Qed.
End Steps.

(** ** Properties *)

Section Refinement.
Context {D : DnsOps} {L : DnsLaws D} {R : ResolverOps} {G : LimiterOps}.

(** C4.  The handler implements the contract: for every configuration the
    compiler accepts, every question for an absolute name, as a decoded message
    has, and every state of the upstreams, the reply decided is one that the
    contract allows, in code, authority, answer section and authority section. *)
Theorem decide_reply_refines (e : LookupEnv) (zs : Zones) (q : DName)
    (t : RecordType.t) (cl : DNSClass.t) :
  config_wf (config zs) → is_fqdn q = true →
  spec_reply (config zs) q t cl (verdict_of (fst (decide_reply e zs q t cl))).
Proof. apply decide_reply_contract. Qed.
End Refinement.

Section ServerRefinement.
Context {D : DnsOps} {L : DnsLaws D} {R : ResolverOps} {G : LimiterOps} {M : MessageOps}
  {ML : MessageLaws M}.

(** C1.  The process refines the abstract server: started with a loaded
    configuration, every run of it, over any reloads, sweeps and requests, is a
    run of the abstract server, whose only state is the configuration: each
    request is answered as the contract allows under the configuration in force
    when it arrived, and the configuration changes only to what a reloaded file
    says. *)
Theorem server_refines (cli : Cli) (read : FileResult) (c : Config)
    (l : list ListenAddr) (st0 : ServerState) (evs : list Event) :
  load_config (cli_config cli) read = Ok c → serve_state cli c = Ok (l, st0) →
  abs_run (enabled (rrl (params c))) c evs (responses (cli_config cli) evs st0)
    (config (st_zones (process_events (cli_config cli) evs st0))).
Proof.
  intros Hc%load_config_wf (_ & Hz & Hr)%serve_state_inv. rewrite <- Hz in Hc.
  pose proof (process_events_simulate (cli_config cli) evs st0 Hc) as H.
  by rewrite Hz, Hr in H.
Qed.
End ServerRefinement.

(** ** Instances *)

#[local] Existing Instance LabelName.ops.
#[local] Existing Instance LabelName.laws.
#[local] Existing Instance EchoResolver.ops.
#[local] Existing Instance TokenBucket.ops.
#[local] Existing Instance EchoMessages.ops.
#[local] Existing Instance EchoMessages.laws.

Lemma decide_reply_refines_witness :
  let rep := fst (decide_reply override_env sample_zs sample_rev RecordType.PTR DNSClass.IN) in
  (rec_data <$> reply_answers rep) = [RData.PTR host_name] ∧
  spec_reply (config sample_zs) sample_rev RecordType.PTR DNSClass.IN (verdict_of rep).
Proof.
  split; [vm_refl|].
  apply (decide_reply_refines override_env sample_zs sample_rev RecordType.PTR DNSClass.IN);
    [apply sample_zs_wf|vm_refl].
Defined.

(** A query, a reload of a broken file, a query during which the file is
    reloaded, a sweep, and an unreadable file. *)
Definition contract_events : list Event :=
  [Query sample_env [] (sample_request false OpCode.Query); Hangup (Ok broken_input);
   Query sample_env [Ok sample_input] (sample_request true OpCode.Query); Tick 5 6;
   Hangup (Err (bs "gone"))].

Lemma server_refines_witness :
  let rss := responses (cli_config sample_cli) contract_events sample_start in
  (len <$> rss) = [1; 0; 1; 0; 0] ∧
  load_config (cli_config sample_cli) (Ok sample_input) = Ok sample_config ∧
  abs_run (enabled (rrl (params sample_config))) sample_config contract_events rss
    (config (st_zones (process_events (cli_config sample_cli) contract_events sample_start))).
Proof.
  assert (load_config (cli_config sample_cli) (Ok sample_input) = Ok sample_config) as H by vm_refl.
  split; [vm_refl|]. split; [exact H|].
  apply (server_refines sample_cli (Ok sample_input) sample_config
    [mkListenAddr (V6 1) 5353] sample_start contract_events H). vm_refl.
Defined.
