(* ===== verification/Concurrent.v ===== *)
(** * The server with its requests interleaved

    [handle_request] in Handler.v runs a request without interruption.  The
    program runs many at once, on several threads, and reloads while they run.
    Here a request is a thread that stops between any two accesses to shared
    state: the load of the configuration, the circuit breaker, the semaphore, the
    wait for the upstream, the rate limiter, its counter, and the second load in
    [send].  [advance] is one step of one request and [exec] one step of the
    server.  Every configuration that was ever loaded stays in the store, since a
    request keeps the one it loaded, and the upstream clients in it, until it
    ends. *)

From S2P Require Import Prelude RustText RustNet Dns Config Compile Zones Rrl Upstream Handler Server.

Section Concurrent.
Context {D : DnsOps} {R : ResolverOps} {G : LimiterOps} {M : MessageOps}.

(** ** [Handler::decide] around its [await] *)

(** The reply to a name that was found, with the records it gets. *)
Definition answer_reply (c : Config) (qname : DName) (records : list DRecord) : Reply :=
  let kind := match records with [] => Negative | _ => AnswerKind end in
  mkReply ResponseCode.NoError true records (negative_authority c qname kind) kind.

Inductive Begun :=
  | Settled (reply : Reply)
  | Consult (addr : IpAddr) (records : list DRecord).

(** What [decide] does before it consults an upstream, or all that it does. *)
Definition decide_begin (zs : Zones) (qname : DName) (qtype : RecordType.t)
    (qclass : DNSClass.t) : Begun :=
  let c := config zs in
  if negb (match qclass with DNSClass.IN | DNSClass.ANY => true | _ => false end)
  then Settled Reply_refused else
  if match qtype with RecordType.AXFR | RecordType.IXFR => true | _ => false end
  then Settled Reply_refused else
  match apex_reply c qname qtype with
  | Some reply => Settled reply
  | None =>
      match resolve c qname qtype with
      | Answer zone records =>
          let settled := Settled (answer_reply c qname records) in
          match records with
          | [] => settled
          | _ =>
              if negb (bool_decide (qtype = RecordType.PTR)) then settled else
              match upstream zone with
              | None => settled
              | Some addr =>
                  match upstreams zs !! addr with
                  | None => settled
                  | Some _ => Consult addr records
                  end
              end
          end
      | NoName zone =>
          let apex := if zone_of (ptr_zone zone) qname then ptr_zone zone
                      else fwd_parent zone in
          let authority := match soa c with
                           | Some soa => [soa_record apex soa (ttl zone)]
                           | None => []
                           end in
          Settled (mkReply ResponseCode.NXDomain true [] authority Negative)
      | NoZone =>
          Settled (match out_of_zone (params c) with
                   | Refused => Reply_refused
                   | NxDomain => mkReply ResponseCode.NXDomain false [] [] Negative
                   end)
      end
  end.

(** What it does with the records of the upstream. *)
Definition decide_end (c : Config) (qname : DName) (records relayed : list DRecord) : Reply :=
  answer_reply c qname (match relayed with [] => records | _ => relayed end).

(** ** Requests in flight *)

(** A reverse lookup that an upstream may override. *)
Record Job := mkJob {
  j_info : RequestInfo;
  j_addr : IpAddr;
  j_records : list DRecord;
}.

Definition j_qname (j : Job) : DName := query_name (j_info j).

(** Where a request is.  From [AtUpstream] to [AtRelease] it holds a permit. *)
Inductive Stage :=
  | AtStart
  | AtBreaker (j : Job)
  | AtSemaphore (j : Job)
  | AtUpstream (j : Job) (up_qname : DName) (deadline : N)
  | AtRelease (j : Job) (kept : list DRecord)
  | AtLimiter (info : RequestInfo) (reply : Reply)
  | AtCounter (info : RequestInfo) (reply : Reply)
  | AtSend (info : RequestInfo) (reply : Reply)
  | AtEnd (guarded : outcome (result ResponseInfo bytes))
  | Finished (info : ResponseInfo)
  | Dropped.

(** A request with its transport, the configuration it loaded last, its stage,
    and the responses it has sent. *)
Record Thread := mkThread {
  t_request : Request;
  t_transport : Response → result ResponseInfo bytes;
  t_gen : nat;
  t_stage : Stage;
  t_sent : list Response;
}.

(** What the requests share: every configuration loaded so far, the last one
    being current, with its upstream clients; the rate limiter; and the clock. *)
Record Shared := mkShared {
  s_store : list Zones;
  s_rrl : Rrl;
  s_now : N;
}.

Record System := mkSystem {
  sys_shared : Shared;
  sys_threads : list Thread;
}.

Definition current (s : Shared) : nat := pred (length (s_store s)).

Definition client (s : Shared) (g : nat) (addr : IpAddr) : option Upstream :=
  zs ← s_store s !! g; upstreams zs !! addr.

Definition set_client (g : nat) (addr : IpAddr) (u : Upstream) (s : Shared) : Shared :=
  mkShared (alter (λ zs, mkZones (config zs) (<[addr := u]> (upstreams zs))) g (s_store s))
    (s_rrl s) (s_now s).

Definition set_rrl (r : Rrl) (s : Shared) : Shared := mkShared (s_store s) r (s_now s).

Definition goto (stage : Stage) (t : Thread) : Thread :=
  mkThread (t_request t) (t_transport t) (t_gen t) stage (t_sent t).
Definition load (g : nat) (t : Thread) : Thread :=
  mkThread (t_request t) (t_transport t) g (t_stage t) (t_sent t).
Definition emit (sent : list Response) (t : Thread) : Thread :=
  mkThread (t_request t) (t_transport t) (t_gen t) (t_stage t) (t_sent t ++ sent).

(** ** One step of one request *)

(** What the step is given: the upstream's answer, and the rate limiter's clock. *)
Record Choice := mkChoice {
  ch_outcome : LookupOutcome;
  ch_instant : N;
}.

(** The lookup is over: the reply follows. *)
Definition conclude (j : Job) (kept : list DRecord) (t : Thread) (s : Shared)
    : option (Thread * Shared) :=
  zs ← s_store s !! t_gen t;
  Some (goto (AtLimiter (j_info j) (decide_end (config zs) (j_qname j) (j_records j) kept)) t, s).

(** The load of the configuration and [decide] up to its [await]. *)
Definition begin_request (info : RequestInfo) (t : Thread) (s : Shared)
    : option (Thread * Shared) :=
  let meta := req_metadata (t_request t) in
  if negb (bool_decide (op_code meta = OpCode.Query)) then
    Some (goto (AtSend info (Reply_error ResponseCode.NotImp)) t, s)
  else if 0 <? version (t_request t) then
    Some (goto (AtSend info (Reply_error ResponseCode.BADVERS)) t, s)
  else
    zs ← s_store s !! current s;
    let stage :=
      match decide_begin zs (query_name info) (query_type info) (query_class info) with
      | Settled reply => AtLimiter info reply
      | Consult addr records => AtBreaker (mkJob info addr records)
      end in
    Some (goto stage (load (current s) t), s).

(** [self.breaker.is_open()]. *)
Definition check_breaker (j : Job) (t : Thread) (s : Shared) : option (Thread * Shared) :=
  u ← client s (t_gen t) (j_addr j);
  let '(is_open, b) := Breaker.is_open (s_now s) (breaker u) in
  let s := set_client (t_gen t) (j_addr j) (set_breaker b u) s in
  if (is_open : bool) then conclude j [] t s else Some (goto (AtSemaphore j) t, s).

(** [try_acquire_owned], the name to ask for, and the start of the wait. *)
Definition acquire (j : Job) (t : Thread) (s : Shared) : option (Thread * Shared) :=
  u ← client s (t_gen t) (j_addr j);
  if inflight u =? 0 then conclude j [] t s else
  let stage := match upstream_qname (j_qname j) with
               | None => AtRelease j []
               | Some up_qname => AtUpstream j up_qname (s_now s + timeout u)
               end in
  Some (goto stage t, set_client (t_gen t) (j_addr j) (set_inflight (inflight u - 1) u) s).

(** The resolver answers, or the deadline passes. *)
Definition answered_by (outcome : LookupOutcome) (j : Job) (up_qname : DName) (deadline : N)
    (t : Thread) (s : Shared) : option (Thread * Shared) :=
  u ← client s (t_gen t) (j_addr j);
  let recorded kept b :=
    Some (goto (AtRelease j kept) t, set_client (t_gen t) (j_addr j) (set_breaker b u) s) in
  match outcome with
  | Found answers =>
      recorded (filter_upstream (j_qname j) up_qname answers) (Breaker.record_success (breaker u))
  | Failed => recorded [] (Breaker.record_success (breaker u))
  | Elapsed =>
      if s_now s <? deadline then None
      else recorded [] (snd (Breaker.record_failure (s_now s) (breaker u)))
  end.

(** The permit is dropped when [lookup_ptr] returns. *)
Definition release (j : Job) (kept : list DRecord) (t : Thread) (s : Shared)
    : option (Thread * Shared) :=
  u ← client s (t_gen t) (j_addr j);
  conclude j kept t (set_client (t_gen t) (j_addr j) (set_inflight (inflight u + 1) u) s).

(** [Rrl::decide] up to the bucket check. *)
Definition limit (instant : N) (info : RequestInfo) (reply : Reply) (t : Thread) (s : Shared)
    : Thread * Shared :=
  if exempt (s_rrl s) (is_tcp info) then (goto (AtSend info reply) t, s) else
  let '(ok, rrl) := check_limit instant (src info) (reply_kind reply) (s_rrl s) in
  (goto (if (ok : bool) then AtSend info reply else AtCounter info reply) t, set_rrl rrl s).

(** The counter of suppressed responses, and what the handler does then. *)
Definition suppress (info : RequestInfo) (reply : Reply) (t : Thread) (s : Shared)
    : Thread * Shared :=
  let '(n, rrl) := count_suppressed (s_rrl s) in
  let meta := req_metadata (t_request t) in
  (match slip_decision (rrl_params rrl) n with
   | Allow => goto (AtSend info reply) t
   | Drop => goto (AtEnd (Returned (Ok (response_info (response_from_request meta))))) t
   | Truncate =>
       let '(sent, guarded) := send_response (t_transport t) (truncated_response meta) in
       emit sent (goto (AtEnd guarded) t)
   end, set_rrl rrl s).

(** [Handler::send], on the configuration that is current then. *)
Definition deliver (info : RequestInfo) (reply : Reply) (t : Thread) (s : Shared)
    : option (Thread * Shared) :=
  zs ← s_store s !! current s;
  let '(sent, guarded) := send (t_transport t) zs (req_metadata (t_request t)) reply
                            (t_request t) (is_tcp info) in
  Some (emit sent (goto (AtEnd guarded) t), s).

(** The end of [handle_request]. *)
Definition conclude_request (guarded : outcome (result ResponseInfo bytes)) (t : Thread) : Thread :=
  match guarded with
  | Returned (Ok info) => goto (Finished info) t
  | Returned (Err _) | Panicked =>
      let '(sent, info) := servfail (t_transport t) (t_request t) in
      emit sent (goto (Finished info) t)
  end.

Definition advance (ch : Choice) (t : Thread) (s : Shared) : option (Thread * Shared) :=
  match t_stage t with
  | AtStart =>
      match req_info (t_request t) with
      | Err reason =>
          Some (goto (AtEnd (Returned (Err (bs "malformed request: " ++ reason)))) t, s)
      | Ok info => begin_request info t s
      end
  | AtBreaker j => check_breaker j t s
  | AtSemaphore j => acquire j t s
  | AtUpstream j up_qname deadline => answered_by (ch_outcome ch) j up_qname deadline t s
  | AtRelease j kept => release j kept t s
  | AtLimiter info reply => Some (limit (ch_instant ch) info reply t s)
  | AtCounter info reply => Some (suppress info reply t s)
  | AtSend info reply => deliver info reply t s
  | AtEnd guarded => Some (conclude_request guarded t, s)
  | Finished _ | Dropped => None
  end.

(** A request whose future is dropped where it waits gives its permit back. *)
Definition cancel (t : Thread) (s : Shared) : option (Thread * Shared) :=
  match t_stage t with
  | AtStart | AtEnd _ => Some (goto Dropped t, s)
  | AtUpstream j _ _ =>
      u ← client s (t_gen t) (j_addr j);
      Some (goto Dropped t,
            set_client (t_gen t) (j_addr j) (set_inflight (inflight u + 1) u) s)
  | _ => None
  end.

(** ** One step of the server *)

Inductive Label :=
  | LTick (now : N)
  | LArrive (request : Request) (transport : Response → result ResponseInfo bytes)
  | LAdvance (i : nat) (ch : Choice)
  | LCancel (i : nat)
  | LHangup (read : FileResult)
  | LSweep (kind : Kind) (instant : N).

(** A step of the [i]-th request. *)
Definition on_thread (i : nat) (step : Thread → Shared → option (Thread * Shared)) (s : System)
    : option System :=
  t ← sys_threads s !! i;
  '(t, sh) ← step t (sys_shared s);
  Some (mkSystem sh (<[i := t]> (sys_threads s))).

Definition exec (path : bytes) (l : Label) (s : System) : option System :=
  let sh := sys_shared s in
  match l with
  | LTick now =>
      if s_now sh <=? now
      then Some (mkSystem (mkShared (s_store sh) (s_rrl sh) now) (sys_threads s)) else None
  | LArrive request transport =>
      Some (mkSystem sh (sys_threads s ++ [mkThread request transport (current sh) AtStart []]))
  | LAdvance i ch => on_thread i (advance ch) s
  | LCancel i => on_thread i cancel s
  | LHangup read =>
      match result_bind (load_config path read) Zones_new with
      | Ok next =>
          Some (mkSystem (mkShared (s_store sh ++ [next]) (s_rrl sh) (s_now sh)) (sys_threads s))
      | Err _ => Some s
      end
  | LSweep kind instant =>
      Some (mkSystem (set_rrl (sweep_limiter instant kind (s_rrl sh)) sh) (sys_threads s))
  end.

Fixpoint run_labels (path : bytes) (ls : list Label) (s : System) : option System :=
  match ls with
  | [] => Some s
  | l :: ls => s ← exec path l s; run_labels path ls s
  end.

(** The server as [serve] starts it. *)
Definition start (st : ServerState) (now : N) : System :=
  mkSystem (mkShared [st_zones st] (st_rrl st) now) [].

Definition reachable (path : bytes) (st : ServerState) (s : System) : Prop :=
  ∃ now ls, run_labels path ls (start st now) = Some s.

(** ** Measures of a run *)

(** The steps a request has left, at most. *)
Definition stage_rank (stage : Stage) : N :=
  match stage with
  | AtStart => 9
  | AtBreaker _ => 8
  | AtSemaphore _ => 7
  | AtUpstream _ _ _ => 6
  | AtRelease _ _ => 5
  | AtLimiter _ _ => 4
  | AtCounter _ _ => 3
  | AtSend _ _ => 2
  | AtEnd _ => 1
  | Finished _ | Dropped => 0
  end.

(** The request holds a permit of the upstream [addr] of generation [g]. *)
Definition holds (g : nat) (addr : IpAddr) (t : Thread) : bool :=
  match t_stage t with
  | AtUpstream j _ _ | AtRelease j _ => bool_decide (t_gen t = g ∧ j_addr j = addr)
  | _ => false
  end.

Definition holders (g : nat) (addr : IpAddr) (ts : list Thread) : N :=
  len (List.filter (holds g addr) ts).

Definition is_over (t : Thread) : bool :=
  match t_stage t with Finished _ | Dropped => true | _ => false end.

(** The deadline of a request that waits for an upstream. *)
Definition waits_until (t : Thread) : option N :=
  match t_stage t with AtUpstream _ _ deadline => Some deadline | _ => None end.

Definition advances (i : nat) (l : Label) : bool :=
  match l with LAdvance j _ => bool_decide (i = j) | _ => false end.
Definition is_advance (l : Label) : bool := match l with LAdvance _ _ => true | _ => false end.
Definition is_arrival (l : Label) : bool := match l with LArrive _ _ => true | _ => false end.
Definition concerns (i : nat) (l : Label) : bool :=
  match l with LAdvance j _ | LCancel j => bool_decide (i = j) | _ => false end.

Definition count_labels (f : Label → bool) (ls : list Label) : N := len (List.filter f ls).
End Concurrent.
