(* ===== verification/ConcurrentLog.v ===== *)
(** * What interleaved requests write to the log

    Journal.v has the lines of a request that runs alone.  Here are those of the
    steps of Concurrent.v: what [advance] logs before it sends anything, and what
    after. *)

From S2P Require Import Prelude RustNet Dns Config Rrl Upstream Handler Journal Concurrent.

Section ConcurrentLog.
Context {D : DnsOps} {R : ResolverOps} {G : LimiterOps} {M : MessageOps}.

(** A lookup that is skipped or comes back. *)
Definition breaker_log (u : Upstream) (s : Shared) : list LogLine :=
  if fst (Breaker.is_open (s_now s) (breaker u)) then [LogBreakerOpen (up_addr u)] else [].

Definition semaphore_log (u : Upstream) : list LogLine :=
  if inflight u =? 0 then [LogSaturated (up_addr u)] else [].

Definition outcome_log (outcome : LookupOutcome) (qname up_qname : DName) (u : Upstream) (s : Shared)
    : list LogLine :=
  match outcome with
  | Found answers =>
      let kept := len (filter_upstream qname up_qname answers) in
      let seen := len answers in
      if kept =? seen then [] else [LogDiscarded (up_addr u) seen kept]
  | Failed => []
  | Elapsed =>
      if fst (Breaker.record_failure (s_now s) (breaker u))
      then [LogTripped (up_addr u) (BREAKER_COOLDOWN / from_millis 1000)] else []
  end.

(** A response that the rate limiter suppresses. *)
Definition suppress_log (info : RequestInfo) (s : Shared) : list LogLine :=
  let '(n, rrl) := count_suppressed (s_rrl s) in
  match slip_decision (rrl_params rrl) n with
  | Allow => []
  | Drop => [LogDropping (src info)]
  | Truncate => [LogTruncating (src info)]
  end.

Definition with_client (f : Upstream → list LogLine) (j : Job) (t : Thread) (s : Shared) : list LogLine :=
  match client s (t_gen t) (j_addr j) with Some u => f u | None => [] end.

(** What a step of a request logs before it sends. *)
Definition advance_log (querylog : bool) (ch : Choice) (t : Thread) (s : Shared) : list LogLine :=
  match t_stage t with
  | AtStart => match req_info (t_request t) with Err _ => [] | Ok info => query_lines querylog info end
  | AtBreaker j => with_client (λ u, breaker_log u s) j t s
  | AtSemaphore j => with_client semaphore_log j t s
  | AtUpstream j up_qname _ => with_client (λ u, outcome_log (ch_outcome ch) (j_qname j) up_qname u s) j t s
  | AtCounter info _ => suppress_log info s
  | AtEnd (Returned (Err reason)) => [LogRejected reason]
  | AtEnd Panicked => [LogPanic]
  | _ => []
  end.

(** What it logs after the SERVFAIL that it sends. *)
Definition failure_log (t : Thread) : list LogLine :=
  match t_stage t with
  | AtEnd (Returned (Err _)) | AtEnd Panicked => fst (servfail_logged (t_transport t) (t_request t))
  | _ => []
  end.

(** The lines of the [i]-th request in one step, and in a run. *)
Definition step_lines (querylog : bool) (i : nat) (l : Label) (s : System) : list LogLine :=
  match l with
  | LAdvance k ch =>
      if bool_decide (i = k) then
        match sys_threads s !! i with
        | Some t => advance_log querylog ch t (sys_shared s) ++ failure_log t
        | None => []
        end
      else []
  | _ => []
  end.

Fixpoint request_lines (querylog : bool) (path : bytes) (i : nat) (ls : list Label) (s : System) : list LogLine :=
  match ls with
  | [] => []
  | l :: ls =>
      step_lines querylog i l s ++
      match exec path l s with Some s => request_lines querylog path i ls s | None => [] end
  end.
End ConcurrentLog.
