(* ===== verification/Process.v ===== *)
(** * [src/main.rs]: the process, from its command line to its exit code

    Server.v has what [serve] works with; here is [main] itself, as a computation
    that yields an exit code and the sequence of its effects: what it prints and
    logs, the sockets it opens and hands to the server, the tasks it starts, the
    responses it sends and how it stops.  What the outside does is a [World]: the
    file, the operating system, the signals, requests and schedule, and, for the
    health check, the other end.  The tasks that [serve] starts run from then on,
    interleaved with what [serve] still does and with each other; the requests among
    them are those of Concurrent.v. *)

From S2P Require Import Prelude RustText RustNet ConfigError Dns Config Compile Rrl Upstream Handler Journal Server Concurrent ConcurrentLog.

(** ** Constants *)

Definition DEFAULT_CONFIG : bytes := bs "/etc/panoptidns/panoptidns.conf".
Definition TCP_IDLE : N := from_millis 5000.
Definition TCP_RESPONSE_BUFFER : N := 4096.
Definition RRL_SWEEP_INTERVAL : N := from_millis 10000.

(** The command line without arguments, in an environment that sets nothing. *)
Definition Cli_default : Cli :=
  mkCli DEFAULT_CONFIG false [] false false false DEFAULT_PORT.

Inductive ExitCode := SUCCESS | FAILURE.
Inductive SignalKind := HANGUP | TERMINATE | INTERRUPT.
Inductive Level := LevelInfo | LevelWarn | LevelError.

Section Main.
Context {D : DnsOps} {R : ResolverOps} {G : LimiterOps} {M : MessageOps} {S : Bind.SocketOps}.

(** [EnvFilter::new] of tracing_subscriber. *)
Context {EnvFilter : Type} (filter_new : bytes → EnvFilter).

(** ** Effects *)

Inductive Effect :=
  | InitLogging (filter : EnvFilter) (json : bool)
  | Stdout (text : bytes)
  | Stderr (text : bytes)
  | Log (level : Level) (fields : list (bytes * bytes)) (message : bytes)
  | LogRequest (i : nat) (line : LogLine)
  | Sys (c : Bind.Call)
  | RegisterSocket (s : Bind.Socket)
  | RegisterListener (s : Bind.Socket) (idle buffer : N)
  | SpawnSweeper (interval : N)
  | SpawnReloader
  | Install (s : SignalKind)
  | Respond (i : nat) (r : Response)
  | StopSweeper
  | StopReloader
  | Shutdown
  | ProbeBind (addr : SocketAddr)
  | ProbeSend (payload : bytes) (to : SocketAddr)
  | ProbeWait (buffer deadline : N).

(** A computation that has effects and may end with a message. *)
Definition Proc (A : Type) : Type := result A bytes * list Effect.

Definition proc_ret {A} (a : A) : Proc A := (Ok a, []).
Definition proc_bind {A B} (m : Proc A) (f : A → Proc B) : Proc B :=
  match m with
  | (Ok a, es) => let '(r, es') := f a in (r, es ++ es')
  | (Err e, es) => (Err e, es)
  end.

Definition lift {A} (r : result A bytes) : Proc A := (r, []).
Definition tell (es : list Effect) : Proc unit := (Ok tt, es).

(** An attempt that is visible, and may fail. *)
Definition attempt {A} (e : Effect) (r : result A bytes) (what : bytes) : Proc A :=
  (result_map_err (λ x, what ++ x) r, [e]).

Notation "'run!' x ':=' m 'in' k" := (proc_bind m (λ x, k))
  (at level 10, x pattern, m at level 100, k at level 200).

(** ** The world around the process *)

(** Why [serve] stops waiting. *)
Inductive Stop :=
  | ServerDone (r : result unit bytes)
  | GotTerminate
  | GotInterrupt.

(** The health check's surroundings: [Name::from_ascii], the encoding of a
    message with one query, and the socket calls. *)
Record Probe := mkProbe {
  p_from_ascii : bytes → result DName bytes;
  p_to_bytes : DName → RecordType.t → DNSClass.t → result bytes bytes;
  p_bind : SocketAddr → result unit bytes;
  p_send_to : bytes → SocketAddr → result N bytes;
  p_received : N → N → Received;
}.

(** What goes on beside [serve]: a request arrives or takes a step, the clock moves,
    the sweeper or the reloader does its work; or the reloader's task gets to run for
    the first time. *)
Inductive TaskEvent :=
  | Happens (l : Label)
  | ReloaderRuns.

(** [w_now] is the clock at the start; [w_events] has, for each thing that [serve]
    does from the binding on, what goes on between it and the next. *)
Record World := mkWorld {
  w_filter : option EnvFilter;
  w_runtime : result unit bytes;
  w_file : FileResult;
  w_os : Bind.Os;
  w_signal : SignalKind → result unit bytes;
  w_now : N;
  w_events : list (list TaskEvent);
  w_stop : Stop;
  w_probe : Probe;
}.

(** ** Logging *)

Definition log_filter (from_env : option EnvFilter) (cli : Cli) : EnvFilter :=
  match from_env with
  | Some filter => filter
  | None => filter_new (if querylog cli then bs "info" else bs "warn")
  end.

Definition init_logging (w : World) (cli : Cli) : Effect :=
  InitLogging (log_filter (w_filter w) cli) (log_json cli).

Definition warn (message : bytes) : Effect := Log LevelWarn [] message.
Definition info (message : bytes) : Effect := Log LevelInfo [] message.

Definition listening (addr : SocketAddr) : Effect :=
  Log LevelInfo [(bs "addr", SocketAddr_to_string addr)] (bs "listening (UDP and TCP)").

Definition limiting (p : RrlParams) : Effect :=
  Log LevelInfo [(bs "responses_per_second", to_decimal (responses_per_second p));
                 (bs "burst", to_decimal (burst p)); (bs "slip", to_decimal (slip p))]
    (bs "response rate limiting active").

(** ** The running server *)

(** What a SIGHUP makes the reloader log. *)
Definition reload_log (path : bytes) (read : FileResult) : list Effect :=
  match result_bind (load_config path read) Zones_new with
  | Ok next => (warn <$> warnings (config next)) ++ [info (bs "configuration reloaded")]
  | Err e => [Log LevelError [] (bs "reload failed, keeping previous config:" ++ newline ++ e)]
  end.

(** What a step logs, and the responses it sends, each with the number of its
    request.  Of a request that fails the last line follows its SERVFAIL. *)
Definition step_log (path : bytes) (l : Label) : list Effect :=
  match l with LHangup read => reload_log path read | _ => [] end.

Definition begun_log (querylog : bool) (l : Label) (s : System) : list Effect :=
  match l with
  | LAdvance i ch =>
      match sys_threads s !! i with
      | Some t => LogRequest i <$> advance_log querylog ch t (sys_shared s)
      | None => []
      end
  | _ => []
  end.

Definition ended_log (l : Label) (s : System) : list Effect :=
  match l with
  | LAdvance i _ =>
      match sys_threads s !! i with Some t => LogRequest i <$> failure_log t | None => [] end
  | _ => []
  end.

Definition newly_sent (l : Label) (s s' : System) : list Effect :=
  match l with
  | LAdvance i _ =>
      match sys_threads s !! i, sys_threads s' !! i with
      | Some t, Some t' => Respond i <$> drop (length (t_sent t)) (t_sent t')
      | _, _ => []
      end
  | _ => []
  end.

(** The reloader's task: not spawned, spawned, waiting for SIGHUP, or over. *)
Inductive Reloader := NotSpawned | Spawned | Listening | Over.

(** What is running: the server, the kinds of socket it has been given, and the two
    tasks. *)
Record Running := mkRunning {
  sys : System;
  udp_open : bool;
  tcp_open : bool;
  sweeping : bool;
  reloader : Reloader;
}.

Definition set_sys (s : System) (b : Running) : Running :=
  mkRunning s (udp_open b) (tcp_open b) (sweeping b) (reloader b).
Definition set_reloader (r : Reloader) (b : Running) : Running :=
  mkRunning (sys b) (udp_open b) (tcp_open b) (sweeping b) r.

Definition not_running (st : ServerState) (now : N) : Running :=
  mkRunning (start st now) false false false NotSpawned.

(** What an action of [serve] sets off.  Its end does not stop anything at once:
    [abort] takes effect when the task next waits, and the server answers what it
    has begun while it shuts down. *)
Definition set_off (e : Effect) (b : Running) : Running :=
  match e with
  | RegisterSocket _ => mkRunning (sys b) true (tcp_open b) (sweeping b) (reloader b)
  | RegisterListener _ _ _ => mkRunning (sys b) (udp_open b) true (sweeping b) (reloader b)
  | SpawnSweeper _ => mkRunning (sys b) (udp_open b) (tcp_open b) true (reloader b)
  | SpawnReloader => set_reloader Spawned b
  | _ => b
  end.

(** A request needs a socket to come in by, a sweep the sweeper, and a SIGHUP a
    reloader that waits for it. *)
Definition can_happen (l : Label) (b : Running) : bool :=
  match l with
  | LArrive request _ =>
      match req_info request with
      | Ok info => if is_tcp info then tcp_open b else udp_open b
      | Err _ => udp_open b || tcp_open b
      end
  | LHangup _ => match reloader b with Listening => true | _ => false end
  | LSweep _ _ => sweeping b
  | _ => true
  end.

(** The start of the reloader's task. *)
Definition start_reloader (w : World) : list Effect * Reloader :=
  match w_signal w HANGUP with
  | Ok _ => ([Install HANGUP], Listening)
  | Err _ => ([Install HANGUP; warn (bs "cannot install SIGHUP handler; reload unavailable")], Over)
  end.

(** One event.  What cannot happen does not. *)
Definition happen (w : World) (cli : Cli) (ev : TaskEvent) (b : Running) : list Effect * Running :=
  match ev with
  | Happens l =>
      if can_happen l b then
        match exec (cli_config cli) l (sys b) with
        | Some s =>
            (step_log (cli_config cli) l ++ begun_log (querylog cli) l (sys b) ++ newly_sent l (sys b) s ++
               ended_log l (sys b), set_sys s b)
        | None => ([], b)
        end
      else ([], b)
  | ReloaderRuns =>
      match reloader b with
      | Spawned => let '(es, r) := start_reloader w in (es, set_reloader r b)
      | _ => ([], b)
      end
  end.

Fixpoint live (w : World) (cli : Cli) (evs : list TaskEvent) (b : Running) : list Effect * Running :=
  match evs with
  | [] => ([], b)
  | ev :: evs =>
      let '(es, b) := happen w cli ev b in
      let '(es', b) := live w cli evs b in
      (es ++ es', b)
  end.

(** After each action of [serve], what goes on until the next. *)
Fixpoint interleave (w : World) (cli : Cli) (es : list Effect) (evs : list (list TaskEvent)) (b : Running)
    : list Effect :=
  match es with
  | [] => []
  | e :: es =>
      let '(meanwhile, b) := live w cli (default [] (head evs)) (set_off e b) in
      e :: meanwhile ++ interleave w cli es (tail evs) b
  end.

(** The arms of the [select!], and what they log. *)
Definition stopped (s : Stop) : result unit bytes * list Effect :=
  match s with
  | ServerDone r => (result_map_err (λ e, bs "server stopped: " ++ e) r, [])
  | GotTerminate => (Ok tt, [info (bs "SIGTERM received, shutting down")])
  | GotInterrupt => (Ok tt, [info (bs "SIGINT received, shutting down")])
  end.

Definition bind_sockets (os : Bind.Os) (listen : list ListenAddr) : Proc Bind.Bound :=
  let '(r, calls) := Bind.bind_all os listen [] in (r, Sys <$> calls).

(** [serve] from the binding on: its own actions, and the tasks beside it. *)
Definition serve_actions (w : World) (st : ServerState) (bound : Bind.Bound) : Proc unit :=
  run! _ := tell (listening <$> Bind.addrs bound) in
  run! _ := tell (if Rrl_enabled (st_rrl st) then [limiting (rrl_params (st_rrl st))] else []) in
  run! _ := tell (RegisterSocket <$> Bind.udp bound) in
  run! _ := tell ((λ s, RegisterListener s TCP_IDLE TCP_RESPONSE_BUFFER) <$> Bind.tcp bound) in
  run! _ := tell [SpawnSweeper RRL_SWEEP_INTERVAL; SpawnReloader] in
  run! _ := attempt (Install TERMINATE) (w_signal w TERMINATE) (bs "cannot install SIGTERM handler: ") in
  run! _ := attempt (Install INTERRUPT) (w_signal w INTERRUPT) (bs "cannot install SIGINT handler: ") in
  let '(outcome, note) := stopped (w_stop w) in
  run! _ := tell (note ++ [StopSweeper; StopReloader; Shutdown]) in
  lift outcome.

Definition serve_bound (w : World) (cli : Cli) (st : ServerState) (bound : Bind.Bound) : Proc unit :=
  let '(outcome, es) := serve_actions w st bound in
  (outcome, interleave w cli es (w_events w) (not_running st (w_now w))).

Definition serve (w : World) (cli : Cli) (c : Config) : Proc unit :=
  run! _ := tell (warn <$> warnings c) in
  run! s := lift (serve_state cli c) in
  let '(listen, st) := s in
  run! bound := bind_sockets (w_os w) listen in
  serve_bound w cli st bound.

(** ** The health check *)

Definition HEALTH_NAME : bytes := bs "health-check.panoptidns.invalid.".
Definition LOOPBACK : IpAddr := V4 0x7F000001.

Definition healthcheck_query (p : Probe) : result bytes bytes :=
  let? name := result_map_err (λ e, bs "cannot build health-check name: " ++ e)
                 (p_from_ascii p HEALTH_NAME) in
  result_map_err (λ e, bs "cannot encode health-check query: " ++ e)
    (p_to_bytes p name RecordType.SOA DNSClass.IN).

Definition probe (p : Probe) (port : N) : Proc unit :=
  run! payload := lift (healthcheck_query p) in
  let local := mkSocketAddr LOOPBACK 0 in
  run! _ := attempt (ProbeBind local) (p_bind p local) (bs "health check cannot bind a socket: ") in
  let remote := mkSocketAddr LOOPBACK port in
  run! _ := attempt (ProbeSend payload remote) (p_send_to p payload remote) (bs "health check cannot send: ") in
  let deadline := from_millis 2000 in
  run! _ := tell [ProbeWait 512 deadline] in
  lift (healthcheck_verdict (p_received p 512 deadline)).

(** ** [run] and [main] *)

Definition perform (w : World) (cli : Cli) (a : Action) : Proc unit :=
  match a with
  | RunHealthcheck port => probe (w_probe w) port
  | Report err out => tell ((Stderr <$> err) ++ [Stdout out])
  | Serve c => serve w cli c
  end.

Definition run_process (w : World) (cli : Cli) : Proc unit :=
  run! _ := lift (result_map_err (λ e, bs "cannot start the async runtime: " ++ e) (w_runtime w)) in
  run! a := lift (run cli (w_file w)) in
  perform w cli a.

Definition main (w : World) (cli : Cli) : ExitCode * list Effect :=
  let '(r, es) := run_process w cli in
  match r with
  | Ok _ => (SUCCESS, init_logging w cli :: es)
  | Err message => (FAILURE, init_logging w cli :: es ++ [Stderr message])
  end.
End Main.
