(* ===== verification/ConcurrentSpec.v ===== *)
(** * Correctness of the interleaved server

    Whatever the interleaving of requests, reloads, sweeps and cancellations:
    what every request sends is what the contract allows, and permits are never
    lost. *)

From S2P Require Import Prelude RustText RustNet ConfigError Dns Nibble Config ConfigSpec Parse Compile Sample CompileSpec Zones ZoneSpec Rrl RrlSpec Upstream UpstreamSpec Handler HandlerSpec Server ServerSpec Contract Concurrent.

(** ** [decide] and its two halves *)

Section Halves.
Context {D : DnsOps} {L : DnsLaws D} {R : ResolverOps} {G : LimiterOps}.

Lemma decide_begin_spec e zs q t cl :
  decide_reply e zs q t cl =
  match decide_begin zs q t cl with
  | Settled reply => (reply, zs)
  | Consult addr records =>
      match upstreams zs !! addr with
      | None => (answer_reply (config zs) q records, zs)
      | Some u =>
          let '(kept, u) := lookup_ptr e q u in
          (decide_end (config zs) q records kept,
           mkZones (config zs) (<[addr := u]> (upstreams zs)))
      end
  end.
Proof.
  unfold decide_reply, decide_begin. destruct (negb _); [done|].
  destruct (match t with RecordType.AXFR | RecordType.IXFR => true | _ => false end); [done|].
  destruct (apex_reply _ _ _); [done|]. destruct (resolve _ _ _) as [z rs|z|]; [|done..].
  unfold override_ptr. destruct rs as [|r rs]; [done|]. destruct (negb _); [done|].
  destruct (upstream z) as [a|]; [|done]. destruct (upstreams zs !! a) as [u|] eqn:Eu; [|done].
  rewrite Eu. by destruct (lookup_ptr e q u).
Qed.

Lemma decide_begin_client zs q t cl addr records :
  decide_begin zs q t cl = Consult addr records → is_Some (upstreams zs !! addr).
Proof.
  unfold decide_begin. destruct (negb _); [done|].
  destruct (match t with RecordType.AXFR | RecordType.IXFR => true | _ => false end); [done|].
  destruct (apex_reply _ _ _); [done|]. destruct (resolve _ _ _) as [z [|r rs]|z|]; [done| |done..].
  destruct (negb _); [done|]. destruct (upstream z) as [a|]; [|done].
  destruct (upstreams zs !! a) eqn:E; [|done]. intros [= <- _]. by rewrite E.
Qed.

(** Only the addresses of the clients matter. *)
Lemma decide_begin_ext zs zs' q t cl :
  config zs' = config zs →
  (∀ a, is_Some (upstreams zs' !! a) ↔ is_Some (upstreams zs !! a)) →
  decide_begin zs' q t cl = decide_begin zs q t cl.
Proof.
  intros Hc Hu. unfold decide_begin. rewrite Hc. destruct (negb _); [done|].
  destruct (match t with RecordType.AXFR | RecordType.IXFR => true | _ => false end); [done|].
  destruct (apex_reply _ _ _); [done|]. destruct (resolve _ _ _) as [z [|r rs]|z|]; [done| |done..].
  destruct (negb _); [done|]. destruct (upstream z) as [a|]; [|done]. specialize (Hu a).
  destruct (upstreams zs' !! a), (upstreams zs !! a); [done| | |done].
  - by destruct Hu as [[] _].
  - by destruct Hu as [_ []].
Qed.

(** What a lookup may return. *)
Definition kept_by (q : DName) (kept : list DRecord) : Prop :=
  kept = [] ∨ ∃ up answers, upstream_qname q = Some up ∧ kept = filter_upstream q up answers.

(** A reply of [decide] on this configuration, for some upstream. *)
Definition decided_on (c : Config) (q : DName) (t : RecordType.t) (cl : DNSClass.t) (reply : Reply) : Prop :=
  ∃ e zs, config zs = c ∧ reply = fst (decide_reply e zs q t cl).

Lemma settled_decided zs q t cl reply :
  decide_begin zs q t cl = Settled reply → decided_on (config zs) q t cl reply.
Proof.
  intros H. exists (mkLookupEnv 0 0 (λ _, Failed)), zs. by rewrite decide_begin_spec, H.
Qed.

Lemma consulted_decided zs q t cl addr records kept :
  decide_begin zs q t cl = Consult addr records → kept_by q kept →
  decided_on (config zs) q t cl (decide_end (config zs) q records kept).
Proof.
  intros Hb Hk. destruct (decide_begin_client _ _ _ _ _ _ Hb) as [u Hu].
  set (u' := mkUpstream (up_addr u) (resolver u) 1 Breaker.default (timeout u)).
  set (zs' := mkZones (config zs) (<[addr := u']> (upstreams zs))).
  assert (decide_begin zs' q t cl = Consult addr records) as Hb'.
  { rewrite <- Hb. apply decide_begin_ext; [done|]. intros a. simpl.
    rewrite lookup_insert_is_Some'. split; [|by right]. by intros [<-|?]. }
  assert (∀ o, fst (decide_reply (mkLookupEnv 0 0 (λ _, o)) zs' q t cl) =
    decide_end (config zs) q records (match upstream_qname q, o with
      | Some up, Found answers => filter_upstream q up answers | _, _ => [] end)) as Ho.
  { intros o. rewrite decide_begin_spec, Hb'. simpl. rewrite lookup_insert_eq.
    unfold lookup_ptr, lookup_begin. simpl. destruct (upstream_qname q); [|done]. by destruct o. }
  destruct Hk as [-> |(up & answers & Hup & ->)].
  - exists (mkLookupEnv 0 0 (λ _, Failed)), zs'. split; [done|]. rewrite Ho. by destruct (upstream_qname q).
  - exists (mkLookupEnv 0 0 (λ _, Found answers)), zs'. split; [done|]. by rewrite Ho, Hup.
Qed.
End Halves.

(** ** The shared state *)

Section SharedState.
Context {D : DnsOps} {L : DnsLaws D} {R : ResolverOps} {G : LimiterOps} {M : MessageOps}.

Lemma client_set_eq s g a u u' : client s g a = Some u → client (set_client g a u' s) g a = Some u'.
Proof.
  unfold client, set_client. simpl. rewrite list_lookup_alter_eq.
  destruct (s_store s !! g) as [zs|]; [|done]. simpl. by rewrite lookup_insert_eq.
Qed.

Lemma client_set_ne s g a g' a' u' :
  (g, a) ≠ (g', a') → client (set_client g a u' s) g' a' = client s g' a'.
Proof.
  unfold client, set_client. simpl. intros Hne. destruct (base.decide (g = g')) as [<-|Hg].
  - rewrite list_lookup_alter_eq. destruct (s_store s !! g) as [zs|]; [|done]. simpl.
    rewrite lookup_insert_ne; [done|congruence].
  - by rewrite list_lookup_alter_ne.
Qed.

(** Steps of requests change clients and nothing else of the store. *)
Definition same_store (s s' : Shared) : Prop :=
  s_store s' = s_store s ∨
  ∃ g a u u', client s g a = Some u ∧ s_store s' = s_store (set_client g a u' s).

Lemma same_store_configs s s' : same_store s s' → (config <$> s_store s') = (config <$> s_store s).
Proof.
  intros [->|(g & a & u & u' & _ & ->)]; [done|]. apply list_eq. intros i. unfold set_client. simpl.
  rewrite !list_lookup_fmap. destruct (base.decide (g = i)) as [<-|Hg].
  - rewrite list_lookup_alter_eq. by destruct (s_store s !! g).
  - by rewrite list_lookup_alter_ne.
Qed.

Lemma same_store_current s s' : same_store s s' → current s' = current s.
Proof.
  intros H%same_store_configs. apply (f_equal length) in H. rewrite !length_fmap in H.
  unfold current. by rewrite H.
Qed.

(** What a request relies on: the configurations stay, and so do the clients. *)
Definition shared_le (s s' : Shared) : Prop :=
  rrl_params (s_rrl s') = rrl_params (s_rrl s) ∧
  ∀ g zs, s_store s !! g = Some zs →
    ∃ zs', s_store s' !! g = Some zs' ∧ config zs' = config zs ∧
      ∀ a, is_Some (upstreams zs !! a) → is_Some (upstreams zs' !! a).

#[export] Instance shared_le_preorder : PreOrder shared_le.
Proof.
  split.
  - intros s. split; [done|]. intros g zs Hg. by exists zs.
  - intros s1 s2 s3 [Hp1 H1] [Hp2 H2]. split; [congruence|]. intros g zs Hg.
    apply H1 in Hg as (zs2 & Hg & Hc & Hu). apply H2 in Hg as (zs3 & Hg & Hc' & Hu').
    exists zs3. split; [done|]. split; [congruence|]. auto.
Qed.

Lemma same_store_le s s' :
  same_store s s' → rrl_params (s_rrl s') = rrl_params (s_rrl s) → shared_le s s'.
Proof.
  intros Hs Hp. split; [done|]. intros g zs Hg. destruct Hs as [->|(g' & a & u & u' & Hu & ->)]; [by exists zs|].
  unfold set_client. simpl. destruct (base.decide (g' = g)) as [<-|Hne].
  - exists (mkZones (config zs) (<[a := u']> (upstreams zs))). rewrite list_lookup_alter_eq, Hg.
    do 2 (split; [done|]). intros b Hb. simpl. apply lookup_insert_is_Some'. by right.
  - exists zs. by rewrite list_lookup_alter_ne.
Qed.

(** There is a current configuration, and all are valid. *)
Record shared_wf (s : Shared) : Prop := {
  swf_current : is_Some (s_store s !! current s);
  swf_valid : Forall (λ c, config_wf c) (config <$> s_store s);
}.

Lemma shared_wf_lookup s g zs : shared_wf s → s_store s !! g = Some zs → config_wf (config zs).
Proof.
  intros Hs Hg. pose proof (swf_valid s Hs) as H. rewrite Forall_fmap, Forall_lookup in H. by eapply H.
Qed.

Lemma same_store_wf s s' : same_store s s' → shared_wf s → shared_wf s'.
Proof.
  intros Hs [Hc Hv]. split.
  - rewrite (same_store_current _ _ Hs). apply same_store_configs in Hs.
    apply (f_equal (lookup (current s))) in Hs. rewrite !list_lookup_fmap in Hs.
    destruct Hc as [zs Hc]. rewrite Hc in Hs. by destruct (s_store s' !! current s).
  - by rewrite (same_store_configs _ _ Hs).
Qed.

Lemma append_store_le s next :
  shared_le s (mkShared (s_store s ++ [next]) (s_rrl s) (s_now s)).
Proof.
  split; [done|]. intros g zs Hg. exists zs. split; [by apply lookup_app_l_Some|done].
Qed.

Lemma append_store_wf s next :
  config_wf (config next) → shared_wf s → shared_wf (mkShared (s_store s ++ [next]) (s_rrl s) (s_now s)).
Proof.
  intros Hn [_ Hv]. split.
  - unfold current. simpl. rewrite length_app, Nat.add_comm. simpl.
    rewrite lookup_app_r, Nat.sub_diag by lia. by eexists.
  - simpl. rewrite fmap_app, Forall_app. split; [done|]. by apply Forall_singleton.
Qed.

(** The frame of a step of a request. *)
Lemma advance_frame ch t s t' s' :
  advance ch t s = Some (t', s') →
  t_request t' = t_request t ∧ t_transport t' = t_transport t ∧
  (t_gen t' = t_gen t ∨ t_stage t = AtStart ∧ t_gen t' = current s) ∧
  same_store s s' ∧ rrl_params (s_rrl s') = rrl_params (s_rrl s) ∧ s_now s' = s_now s.
Proof.
  assert (∀ g a u u', client s g a = Some u → same_store s (set_client g a u' s)) as Hset.
  { intros g a u u' Hu. right. by exists g, a, u, u'. }
  assert (same_store s s) as Hrefl by by left.
  assert (∀ j kept s1, conclude j kept t s1 = Some (t', s') →
    t_request t' = t_request t ∧ t_transport t' = t_transport t ∧ t_gen t' = t_gen t ∧ s' = s1) as Hcon.
  { intros j kept s1. unfold conclude. destruct (s_store s1 !! t_gen t); [|done]. by intros [= <- <-]. }
  unfold advance. destruct (t_stage t) as [|j|j|j up dl|j kept|info reply|info reply|info reply|g|i|].
  - destruct (req_info (t_request t)) as [info|x]; [|intros [= <- <-]; naive_solver].
    unfold begin_request. destruct (negb _); [intros [= <- <-]; naive_solver|].
    destruct (0 <? _); [intros [= <- <-]; naive_solver|].
    destruct (s_store s !! current s); [|done]. intros [= <- <-]. naive_solver.
  - unfold check_breaker. destruct (client s _ _) as [u|] eqn:Eu; [|done]. cbn [mbind option_bind].
    destruct (Breaker.is_open _ _) as [[] b].
    + intros (? & ? & ? & ->)%Hcon. naive_solver.
    + intros [= <- <-]. naive_solver.
  - unfold acquire. destruct (client s _ _) as [u|] eqn:Eu; [|done]. cbn [mbind option_bind].
    destruct (inflight u =? 0).
    + intros (? & ? & ? & ->)%Hcon. naive_solver.
    + intros [= <- <-]. naive_solver.
  - unfold answered_by. destruct (client s _ _) as [u|] eqn:Eu; [|done]. cbn [mbind option_bind].
    destruct (ch_outcome ch); [intros [= <- <-]; naive_solver..|].
    destruct (_ <? _); [done|]. intros [= <- <-]. naive_solver.
  - unfold release. destruct (client s _ _) as [u|] eqn:Eu; [|done]. cbn [mbind option_bind].
    intros (? & ? & ? & ->)%Hcon. naive_solver.
  - unfold limit, check_limit. destruct (exempt _ _); [intros [= <- <-]; naive_solver|].
    destruct (check_key _ _ _) as [ok l]. intros [= <- <-]. destruct ok, (reply_kind reply); naive_solver.
  - unfold suppress, count_suppressed. simpl. destruct (slip_decision _ _); intros [= <- <-]; naive_solver.
  - unfold deliver. destruct (s_store s !! current s); [|done]. cbn [mbind option_bind].
    destruct (send _ _ _ _ _ _) as [sent g]. intros [= <- <-]. naive_solver.
  - unfold conclude_request. destruct g as [[]|]; intros [= <- <-]; naive_solver.
  - done.
  - done.
Qed.

(** A step only adds to what was sent. *)
Lemma advance_sent ch t s t' s' : advance ch t s = Some (t', s') → ∃ new, t_sent t' = t_sent t ++ new.
Proof.
  assert (∀ u, t_sent u = t_sent t → ∃ new, t_sent u = t_sent t ++ new) as Hsame.
  { intros u ->. exists []. by rewrite app_nil_r. }
  assert (∀ sent stage, ∃ new, t_sent (emit sent (goto stage t)) = t_sent t ++ new) as Hemit.
  { intros sent stage. by exists sent. }
  assert (∀ j kept s1, conclude j kept t s1 = Some (t', s') → ∃ new, t_sent t' = t_sent t ++ new) as Hcon.
  { intros j kept s1. unfold conclude. destruct (s_store s1 !! t_gen t); [|done]. intros [= <- <-]. by apply Hsame. }
  unfold advance. destruct (t_stage t) as [|j|j|j up dl|j kept|info reply|info reply|info reply|g|i|]; [..|done|done].
  - destruct (req_info (t_request t)) as [info|x]; [|intros [= <- <-]; by apply Hsame].
    unfold begin_request. destruct (negb _); [intros [= <- <-]; by apply Hsame|].
    destruct (0 <? _); [intros [= <- <-]; by apply Hsame|].
    destruct (s_store s !! current s); [|done]. intros [= <- <-]. by apply Hsame.
  - unfold check_breaker. destruct (client s _ _); [|done]. cbn [mbind option_bind].
    destruct (Breaker.is_open _ _) as [[] b]; [apply Hcon|]. intros [= <- <-]. by apply Hsame.
  - unfold acquire. destruct (client s _ _); [|done]. cbn [mbind option_bind].
    destruct (_ =? 0); [apply Hcon|]. intros [= <- <-]. by apply Hsame.
  - unfold answered_by. destruct (client s _ _); [|done]. cbn [mbind option_bind].
    destruct (ch_outcome ch); [intros [= <- <-]; by apply Hsame..|].
    destruct (_ <? _); [done|]. intros [= <- <-]. by apply Hsame.
  - unfold release. destruct (client s _ _); [|done]. apply Hcon.
  - unfold limit. destruct (exempt _ _); [intros [= <- <-]; by apply Hsame|].
    destruct (check_limit _ _ _ _) as [[] l]; intros [= <- <-]; by apply Hsame.
  - unfold suppress, count_suppressed. destruct (slip_decision _ _); intros [= <- <-];
      [by apply Hsame|by apply Hsame|apply Hemit].
  - unfold deliver. destruct (s_store s !! current s); [|done]. cbn [mbind option_bind].
    destruct (send _ _ _ _ _ _) as [sent g]. intros [= <- <-]. apply Hemit.
  - unfold conclude_request. destruct g as [[]|]; intros [= <- <-]; [by apply Hsame|apply Hemit|apply Hemit].
Qed.

Lemma cancel_frame t s t' s' :
  cancel t s = Some (t', s') →
  t' = goto Dropped t ∧ same_store s s' ∧ s_rrl s' = s_rrl s ∧ s_now s' = s_now s.
Proof.
  unfold cancel. destruct (t_stage t); try done; try (intros [= <- <-]; by repeat split; left).
  destruct (client s _ _) as [u|] eqn:Eu; [|done]. intros [= <- <-]. split; [done|].
  split; [|done]. right. by eexists _, _, u, _.
Qed.
End SharedState.

(** ** What holds of a request in flight *)

Section Threads.
Context {D : DnsOps} {L : DnsLaws D} {R : ResolverOps} {G : LimiterOps} {M : MessageOps}
  {ML : MessageLaws M}.

Definition query_ok (request : Request) (info : RequestInfo) : Prop :=
  req_info request = Ok info ∧ op_code (req_metadata request) = OpCode.Query ∧ version request = 0.

Definition reply_ok (c : Config) (request : Request) (info : RequestInfo) (reply : Reply) : Prop :=
  query_ok request info ∧ decided_on c (query_name info) (query_type info) (query_class info) reply.

Definition job_ok (zs : Zones) (request : Request) (j : Job) : Prop :=
  query_ok request (j_info j) ∧ is_Some (upstreams zs !! j_addr j) ∧
  ∃ zs0, config zs0 = config zs ∧
    decide_begin zs0 (query_name (j_info j)) (query_type (j_info j)) (query_class (j_info j)) =
    Consult (j_addr j) (j_records j).

(** A refusal of what is not a query. *)
Definition error_ok (request : Request) (reply : Reply) : Prop :=
  op_code (req_metadata request) ≠ OpCode.Query ∧ reply = Reply_error ResponseCode.NotImp ∨
  0 < version request ∧ reply = Reply_error ResponseCode.BADVERS.

Definition stage_ok (limits : bool) (zs : Zones) (t : Thread) : Prop :=
  let request := t_request t in
  let sent := t_sent t in
  match t_stage t with
  | AtStart => sent = []
  | AtBreaker j | AtSemaphore j => sent = [] ∧ job_ok zs request j
  | AtUpstream j up _ => sent = [] ∧ job_ok zs request j ∧ upstream_qname (j_qname j) = Some up
  | AtRelease j kept => sent = [] ∧ job_ok zs request j ∧ kept_by (j_qname j) kept
  | AtLimiter info reply => sent = [] ∧ reply_ok (config zs) request info reply
  | AtCounter info reply =>
      sent = [] ∧ reply_ok (config zs) request info reply ∧ limits = true ∧ is_tcp info = false
  | AtSend info reply =>
      sent = [] ∧ req_info request = Ok info ∧
      (reply_ok (config zs) request info reply ∨ error_ok request reply)
  | AtEnd (Returned (Ok _)) =>
      (∃ r, sent = [r]) ∨
      sent = [] ∧ limits = true ∧ ∃ info, req_info request = Ok info ∧ is_tcp info = false
  | AtEnd (Returned (Err _)) =>
      sent = [] ∧ (∃ x, req_info request = Err x) ∨ ∃ r x, sent = [r] ∧ t_transport t r = Err x
  | AtEnd Panicked => False
  | Finished _ => answered limits (t_transport t) request sent
  | Dropped => len sent <= 1
  end.

Definition thread_inv (s : Shared) (t : Thread) : Prop :=
  let limits := enabled (rrl_params (s_rrl s)) in
  ∃ zs, s_store s !! t_gen t = Some zs ∧ stage_ok limits zs t ∧
    Forall (conforms limits (config zs) (t_transport t) (t_request t)) (t_sent t).

Definition sent_ok (limits : bool) (zs : Zones) (t : Thread) : Prop :=
  stage_ok limits zs t ∧ Forall (conforms limits (config zs) (t_transport t) (t_request t)) (t_sent t).

Lemma thread_inv_mono s s' t zs :
  shared_le s s' → s_store s !! t_gen t = Some zs →
  sent_ok (enabled (rrl_params (s_rrl s))) zs t → thread_inv s' t.
Proof.
  intros [Hp Hs] Hg [Hst Hsent]. destruct (Hs _ _ Hg) as (zs' & Hg' & Hc & Hu).
  exists zs'. split; [done|]. rewrite Hp, Hc. split; [|done].
  assert (∀ j, job_ok zs (t_request t) j → job_ok zs' (t_request t) j) as Hj.
  { intros j (Hq & Hi & zs0 & H0 & Hb). split; [done|]. split; [auto|]. exists zs0. by rewrite Hc. }
  unfold stage_ok in *. rewrite Hc. destruct (t_stage t); naive_solver.
Qed.

(** The stages between which nothing is sent. *)
Lemma goto_ok limits zs t stage :
  t_sent t = [] → stage_ok limits zs (goto stage t) → sent_ok limits zs (goto stage t).
Proof. intros Hn Hs. split; [done|]. simpl. by rewrite Hn. Qed.

(** The end of a lookup: the reply of [decide] with what the upstream gave. *)
Lemma conclude_ok limits j kept t s t' s' zs :
  (config <$> s_store s !! t_gen t) = Some (config zs) → t_sent t = [] → job_ok zs (t_request t) j →
  kept_by (j_qname j) kept → conclude j kept t s = Some (t', s') → sent_ok limits zs t'.
Proof.
  intros Hg Hn (Hq & _ & zs0 & H0 & Hb) Hk. unfold conclude.
  destruct (s_store s !! t_gen t) as [zs'|]; [|done]. simpl in Hg. injection Hg as Hg.
  intros [= <- <-]. apply goto_ok; [done|]. split; [done|]. split; [done|].
  rewrite Hg, <- H0. by eapply consulted_decided.
Qed.

Lemma set_client_config s g a u zs :
  s_store s !! g = Some zs → (config <$> s_store (set_client g a u s) !! g) = Some (config zs).
Proof. intros Hg. unfold set_client. simpl. by rewrite list_lookup_alter_eq, Hg. Qed.

(** One response to a reply, as the contract allows it. *)
Lemma deliver_inv limits zs zs' t info reply :
  config_wf (config zs) → payload_wf zs' → req_info (t_request t) = Ok info →
  reply_ok (config zs) (t_request t) info reply ∨ error_ok (t_request t) reply →
  ∃ r, send (t_transport t) zs' (req_metadata (t_request t)) reply (t_request t) (is_tcp info) =
         ([r], Returned (result_map_err (λ e, bs "send failed: " ++ e) (t_transport t r))) ∧
       conforms limits (config zs) (t_transport t) (t_request t) r.
Proof.
  intros Hc Hp Hi Hr. apply send_conforms; [done|]. intros r Hcode Hauth Hans Hautho Hra Had.
  destruct Hr as [[(_ & Hop & Hv) (e & zs0 & H0 & ->)]|[[Hop ->]|[Hv ->]]].
  - apply (for_reply _ _ _ _ _ info (verdict_of (fst (decide_reply e zs0 (query_name info)
      (query_type info) (query_class info))))); try done.
    + intros Hq. rewrite <- H0 in *. by apply decide_reply_contract.
    + unfold verdict_of. by rewrite <- Hcode, <- Hauth, <- Hans, <- Hautho.
  - apply for_unsupported; [by left|by split].
  - apply for_unsupported; [by right|by split].
Qed.

(** The lookup. *)
Lemma lookup_steps_ok ch limits zs t s t' s' :
  s_store s !! t_gen t = Some zs → stage_ok limits zs t → advance ch t s = Some (t', s') →
  match t_stage t with
  | AtBreaker _ | AtSemaphore _ | AtUpstream _ _ _ | AtRelease _ _ => sent_ok limits zs t'
  | _ => True
  end.
Proof.
  intros Hg Hst Ha. unfold advance in Ha. unfold stage_ok in Hst.
  destruct (t_stage t) as [|j|j|j up dl|j kept|info reply|info reply|info reply|g|i|]; try done.
  - destruct Hst as [Hn Hj]. unfold check_breaker in Ha.
    destruct (client s _ _) as [u|] eqn:Eu; [|done]. cbn [mbind option_bind] in Ha.
    destruct (Breaker.is_open _ _) as [[] b].
    + eapply conclude_ok; [|done..|by left|done]. by apply set_client_config.
    + injection Ha as <- <-. by apply goto_ok.
  - destruct Hst as [Hn Hj]. unfold acquire in Ha.
    destruct (client s _ _) as [u|] eqn:Eu; [|done]. cbn [mbind option_bind] in Ha.
    destruct (inflight u =? 0).
    + eapply conclude_ok; [|done..|by left|done]. by rewrite Hg.
    + injection Ha as <- <-. apply goto_ok; [done|].
      destruct (upstream_qname (j_qname j)) eqn:Eq; (split; [done|]); (split; [done|]); [done|by left].
  - destruct Hst as (Hn & Hj & Hup). unfold answered_by in Ha.
    destruct (client s _ _) as [u|] eqn:Eu; [|done]. cbn [mbind option_bind] in Ha.
    destruct (ch_outcome ch) as [answers| |]; [..|destruct (_ <? _); [done|]];
      injection Ha as <- <-; (apply goto_ok; [done|]); (split; [done|]); (split; [done|]); [|by left..].
    right. by exists up, answers.
  - destruct Hst as (Hn & Hj & Hk). unfold release in Ha.
    destruct (client s _ _) as [u|] eqn:Eu; [|done]. cbn [mbind option_bind] in Ha.
    eapply conclude_ok; [|done..]. by apply set_client_config.
Qed.

(** The rate limiter. *)
Lemma limiter_steps_ok ch zs t s t' s' :
  let limits := enabled (rrl_params (s_rrl s)) in
  stage_ok limits zs t → advance ch t s = Some (t', s') →
  match t_stage t with AtLimiter _ _ | AtCounter _ _ => sent_ok limits zs t' | _ => True end.
Proof.
  intros limits Hst Ha. unfold advance in Ha. unfold stage_ok in Hst.
  destruct (t_stage t) as [|j|j|j up dl|j kept|info reply|info reply|info reply|g|i|]; try done.
  - destruct Hst as (Hn & Hr). unfold limit in Ha. destruct (exempt _ _) eqn:Ex.
    + injection Ha as <- <-. apply goto_ok; [done|]. split; [done|]. split; [apply Hr|by left].
    + destruct (check_limit _ _ _ _) as [ok rr]. injection Ha as <- <-. apply goto_ok; [done|].
      destruct ok; (split; [done|]); [split; [apply Hr|by left]|]. split; [done|].
      unfold exempt in Ex. unfold limits. by destruct (enabled _), (is_tcp info).
  - destruct Hst as (Hn & Hr & Hl & Ht). unfold suppress in Ha. destruct (count_suppressed _) as [n rr].
    destruct (slip_decision _ _); injection Ha as <- <-.
    + apply goto_ok; [done|]. split; [done|]. split; [apply Hr|by left].
    + apply goto_ok; [done|]. right. split; [done|]. split; [done|]. exists info. split; [apply Hr|done].
    + split.
      * unfold stage_ok. simpl. rewrite Hn. simpl.
        destruct (t_transport t _) as [i|x] eqn:Et; simpl; [left; by eexists|right; by eexists _, _].
      * simpl. rewrite Hn. constructor; [|done]. split; [apply response_is_response|].
        split; [apply response_id|]. by apply (for_truncated _ _ _ _ _ info); [|apply Hr|..].
Qed.

(** The end of [handle_request]: SERVFAIL after a failure. *)
Lemma conclude_request_ok limits zs t guarded :
  t_stage t = AtEnd guarded → sent_ok limits zs t → sent_ok limits zs (conclude_request guarded t).
Proof.
  intros Est [Hst Hsent]. unfold stage_ok in Hst. rewrite Est in Hst.
  destruct guarded as [[i|x]|]; [|destruct Hst as [[Hn (y & Hy)]|(r & y & Hn & Hy)]|done].
  - split; [|done]. unfold stage_ok, answered. simpl.
    destruct Hst as [(r & ->)|(-> & Hl & Hu)]; rewrite ?len_cons, ?len_nil; (split; [lia|]); (split; [lia|]); [done|by intros _].
  - split.
    + unfold stage_ok, answered. simpl. rewrite Hn. simpl. rewrite len_cons, len_nil.
      split; [lia|]. by split; [lia|].
    + simpl. rewrite Hn. apply servfail_conforms. left. by exists y.
  - split.
    + unfold stage_ok, answered. simpl. rewrite Hn. simpl. rewrite !len_cons, len_nil.
      split; [lia|]. split; [|done]. intros Hok. destruct (Hok r). congruence.
    + simpl. apply Forall_app. split; [done|]. apply servfail_conforms. right. by exists r, y.
Qed.

(** The load of the configuration. *)
Lemma start_step_ok ch t s t' s' zs :
  t_stage t = AtStart → s_store s !! t_gen t = Some zs → t_sent t = [] →
  advance ch t s = Some (t', s') →
  ∃ zs', s_store s !! t_gen t' = Some zs' ∧ sent_ok (enabled (rrl_params (s_rrl s))) zs' t'.
Proof.
  intros Est Hg Hn Ha. unfold advance in Ha. rewrite Est in Ha.
  destruct (req_info (t_request t)) as [info|x] eqn:Ei.
  2:{ injection Ha as <- <-. exists zs. split; [done|]. apply goto_ok; [done|]. left. split; [done|]. by exists x. }
  unfold begin_request in Ha. case_bool_decide as Hop; simpl in Ha.
  2:{ injection Ha as <- <-. exists zs. split; [done|]. apply goto_ok; [done|]. split; [done|]. split; [done|]. right; left; done. }
  destruct (N.ltb_spec 0 (version (t_request t))) as [Hv|Hv].
  { injection Ha as <- <-. exists zs. split; [done|]. apply goto_ok; [done|]. split; [done|]. split; [done|]. right; right; done. }
  destruct (s_store s !! current s) as [zc|] eqn:Ec; [|done]. injection Ha as <- <-.
  assert (query_ok (t_request t) info) as Hq by (repeat split; [done..|lia]).
  exists zc. split; [done|]. apply goto_ok; [done|].
  destruct (decide_begin zc _ _ _) as [reply|addr records] eqn:Eb; (split; [done|]); (split; [done|]).
  - by eapply settled_decided.
  - split; [by eapply decide_begin_client|]. by exists zc.
Qed.

Lemma advance_inv ch t s t' s' :
  shared_wf s → thread_inv s t → advance ch t s = Some (t', s') → thread_inv s' t'.
Proof.
  intros Hw (zs & Hg & Hok) Ha. pose proof Hok as [Hst Hsent].
  destruct (advance_frame _ _ _ _ _ Ha) as (_ & _ & Hgen & Hss & Hp & _).
  pose proof (same_store_le _ _ Hss Hp) as Hle.
  pose proof (lookup_steps_ok _ _ _ _ _ _ _ Hg Hst Ha) as H1.
  pose proof (limiter_steps_ok _ _ _ _ _ _ Hst Ha) as H2.
    assert (t_stage t ≠ AtStart → sent_ok (enabled (rrl_params (s_rrl s))) zs t' → thread_inv s' t') as Hfin.
  { intros Hne Ht'. apply (thread_inv_mono s s' t' zs Hle); [|done]. by destruct Hgen as [->|[? _]]. }
  destruct (t_stage t) as [|j|j|j up dl|j kept|info reply|info reply|info reply|g|i|] eqn:Est;
    try (apply Hfin; [done|]; done).
  - unfold stage_ok in Hst. rewrite Est in Hst.
    destruct (start_step_ok _ _ _ _ _ _ Est Hg Hst Ha) as (zs' & Hg' & Hok').
    by apply (thread_inv_mono s s' t' zs' Hle).
  - apply Hfin; [done|]. unfold stage_ok in Hst. rewrite Est in Hst. destruct Hst as (Hn & Hi & Hr).
    unfold advance in Ha. rewrite Est in Ha. unfold deliver in Ha.
    destruct (s_store s !! current s) as [zc|] eqn:Ec; [|done]. cbn [mbind option_bind] in Ha.
    destruct (deliver_inv (enabled (rrl_params (s_rrl s))) zs zc t info reply) as (r & Hs & Hr');
      [by eapply shared_wf_lookup|by eapply zones_valid_payload, shared_wf_lookup|done..|].
    rewrite Hs in Ha. injection Ha as <- <-. split; [|simpl; rewrite Hn; by constructor].
    unfold stage_ok. simpl. rewrite Hn. simpl.
    destruct (t_transport t r) as [i|x] eqn:Et; simpl; [left; by exists r|right; by exists r, x].
  - apply Hfin; [done|]. unfold advance in Ha. rewrite Est in Ha. injection Ha as <- <-.
    by apply conclude_request_ok.
  - unfold advance in Ha. by rewrite Est in Ha.
  - unfold advance in Ha. by rewrite Est in Ha.
Qed.

Lemma cancel_inv t s t' s' : thread_inv s t → cancel t s = Some (t', s') → thread_inv s' t'.
Proof.
  intros (zs & Hg & Hst & Hsent) Ha. pose proof (cancel_frame _ _ _ _ Ha) as (-> & Hss & Hr & _).
  apply (thread_inv_mono s s' _ zs); [by apply same_store_le; [|rewrite Hr]|done|]. split; [|done].
  unfold cancel in Ha. unfold stage_ok in *. simpl. destruct (t_stage t) as [| | | | | | | |g| |]; try done.
  - by rewrite Hst.
  - by destruct Hst as [-> _].
  - destruct g as [[]|]; [| |done].
    + by destruct Hst as [(r & ->)|(-> & _)].
    + by destruct Hst as [(-> & _)|(r & y & -> & _)].
Qed.
End Threads.

(** ** What holds of the whole server *)

Section Systems.
Context {D : DnsOps} {L : DnsLaws D} {R : ResolverOps} {G : LimiterOps} {M : MessageOps}
  {ML : MessageLaws M}.

Record sys_inv (s : System) : Prop := {
  si_shared : shared_wf (sys_shared s);
  si_threads : Forall (thread_inv (sys_shared s)) (sys_threads s);
}.

Lemma threads_mono s s' ts : shared_le s s' → Forall (thread_inv s) ts → Forall (thread_inv s') ts.
Proof.
  intros Hle Hts. eapply Forall_impl; [exact Hts|]. intros t (zs & Hg & Ht).
  by apply (thread_inv_mono s s' t zs).
Qed.

Lemma on_thread_Some i step s s' :
  on_thread i step s = Some s' →
  ∃ t t' sh', sys_threads s !! i = Some t ∧ step t (sys_shared s) = Some (t', sh') ∧
    s' = mkSystem sh' (<[i := t']> (sys_threads s)).
Proof.
  unfold on_thread. destruct (sys_threads s !! i) as [t|] eqn:Et; [|done]. cbn [mbind option_bind].
  destruct (step t _) as [[t' sh']|] eqn:E; [|done]. intros [= <-]. by exists t, t', sh'.
Qed.

Lemma load_new_config path read next :
  result_bind (load_config path read) Zones_new = Ok next →
  ∃ body, read = Ok body ∧ Config_parse body = Ok (config next) ∧ Zones_new (config next) = Ok next.
Proof.
  unfold load_config. destruct read as [body|]; [|done]. cbn [result_map_err result_bind].
  destruct (Config_parse body) as [c|] eqn:Ec; [|done]. cbn [result_map_err result_bind].
  intros Hn. exists body. by rewrite (Zones_new_config _ _ Hn).
Qed.

(** What a step of the server does to the store. *)
Lemma exec_shared path l s s' :
  exec path l s = Some s' →
  rrl_params (s_rrl (sys_shared s')) = rrl_params (s_rrl (sys_shared s)) ∧
  (same_store (sys_shared s) (sys_shared s') ∨
   ∃ body next, l = LHangup (Ok body) ∧ Config_parse body = Ok (config next) ∧ Zones_new (config next) = Ok next ∧
     s' = mkSystem (mkShared (s_store (sys_shared s) ++ [next]) (s_rrl (sys_shared s)) (s_now (sys_shared s))) (sys_threads s)).
Proof.
  destruct l as [now|request transport|i ch|i|read|kind instant]; simpl.
  - destruct (_ <=? _); [|done]. intros [= <-]. split; [done|]. by left; left.
  - intros [= <-]. split; [done|]. by left; left.
  - intros (t & t' & sh' & _ & Ha & ->)%on_thread_Some.
    destruct (advance_frame _ _ _ _ _ Ha) as (_ & _ & _ & ? & ? & _). split; [done|]. by left.
  - intros (t & t' & sh' & _ & Ha & ->)%on_thread_Some.
    destruct (cancel_frame _ _ _ _ Ha) as (_ & ? & Hr & _). simpl. rewrite Hr. split; [done|]. by left.
  - destruct (result_bind _ _) as [next|] eqn:En; intros [= <-]; (split; [done|]); [|by left; left].
    right. apply load_new_config in En as (body & -> & Hb & Hn). by exists body, next.
  - intros [= <-]. split; [by destruct kind|]. by left; left.
Qed.

Lemma exec_le path l s s' : exec path l s = Some s' → shared_le (sys_shared s) (sys_shared s').
Proof.
  intros [Hp [Hs|(body & next & _ & _ & _ & ->)]]%exec_shared; [by apply same_store_le|apply append_store_le].
Qed.

Lemma exec_current path l s s' : exec path l s = Some s' → (current (sys_shared s) <= current (sys_shared s'))%nat.
Proof.
  intros [Hp [Hs|(body & next & _ & _ & _ & ->)]]%exec_shared; [by rewrite (same_store_current _ _ Hs)|].
  unfold current. simpl. rewrite length_app. lia.
Qed.

Lemma exec_inv path l s s' : sys_inv s → exec path l s = Some s' → sys_inv s'.
Proof.
  intros [Hw Ht] He. pose proof (exec_le _ _ _ _ He) as Hle. split.
  - apply exec_shared in He as [_ [Hs|(body & next & _ & Hb & _ & ->)]].
    + by apply (same_store_wf (sys_shared s)).
    + apply append_store_wf; [by eapply Config_parse_wf|done].
  - pose proof (threads_mono _ _ _ Hle Ht) as Ht'.
    assert (∀ i t t', sys_threads s !! i = Some t → (thread_inv (sys_shared s) t → thread_inv (sys_shared s') t') →
      Forall (thread_inv (sys_shared s')) (<[i := t']> (sys_threads s))) as Hins.
    { intros i t t' Hi Hinv. apply Forall_insert; [done|]. apply Hinv. by eapply Forall_lookup_1. }
    destruct l as [now|request transport|i ch|i|read|kind instant]; simpl in He.
    + destruct (_ <=? _); [|done]. by injection He as <-.
    + injection He as <-. apply Forall_app. split; [done|]. apply Forall_singleton.
      destruct (swf_current _ Hw) as [zs Hz]. exists zs. by repeat split.
    + apply on_thread_Some in He as (t & t' & sh' & Hi & Ha & ->). simpl in *.
      apply (Hins i t t'); [done|]. intros Hinv. by eapply advance_inv.
    + apply on_thread_Some in He as (t & t' & sh' & Hi & Ha & ->). simpl in *.
      apply (Hins i t t'); [done|]. intros Hinv. by eapply cancel_inv.
    + destruct (result_bind _ _); by injection He as <-.
    + by injection He as <-.
Qed.

Lemma run_app path ls ls' s :
  run_labels path (ls ++ ls') s = s' ← run_labels path ls s; run_labels path ls' s'.
Proof.
  revert s. induction ls as [|l ls IH]; intros s; [done|]. simpl.
  destruct (exec path l s) as [s'|]; [|done]. apply IH.
Qed.

(** Induction over a run, from its start. *)
Lemma run_invariant path (P : System → Prop) ls s s' :
  (∀ l x y, P x → exec path l x = Some y → P y) → P s → run_labels path ls s = Some s' → P s'.
Proof.
  intros Hstep. revert s. induction ls as [|l ls IH]; intros s Hs; [by intros [= <-]|]. simpl.
  destruct (exec path l s) as [y|] eqn:E; [|done]. apply IH. by eapply Hstep.
Qed.

Lemma run_inv path ls s s' : sys_inv s → run_labels path ls s = Some s' → sys_inv s'.
Proof. apply run_invariant. intros l x y. apply exec_inv. Qed.

Lemma start_inv st now : config_wf (config (st_zones st)) → sys_inv (start st now).
Proof.
  intros Hc. split; [|done]. split; [by exists (st_zones st)|]. by apply Forall_singleton.
Qed.

Lemma system_reachable_inv path st s : config_wf (config (st_zones st)) → reachable path st s → sys_inv s.
Proof. intros Hc (now & ls & Hr). eapply run_inv; [by apply start_inv|done]. Qed.

(** What the configurations in the store say: the first, or a file read later. *)
Definition from_files (c : Config) (ls : list Label) (cs : list Config) : Prop :=
  Forall (λ c', c' = c ∨ ∃ body, LHangup (Ok body) ∈ ls ∧ Config_parse body = Ok c') cs.

Lemma from_files_weaken c ls ls' cs : from_files c ls cs → (∀ l, l ∈ ls → l ∈ ls') → from_files c ls' cs.
Proof. intros Hf Hin. eapply Forall_impl; [exact Hf|]. naive_solver. Qed.

Lemma run_from_files path c ls s s' :
  run_labels path ls s = Some s' →
  from_files c [] (config <$> s_store (sys_shared s)) →
  from_files c ls (config <$> s_store (sys_shared s')).
Proof.
  revert s s'. induction ls as [|l ls IH] using rev_ind; intros s s'.
  - by intros [= <-].
  - rewrite run_app. destruct (run_labels path ls s) as [y|] eqn:Ey; [|done]. simpl.
    destruct (exec path l y) as [z|] eqn:Ez; [|done]. intros [= ->] Hf.
    apply (IH _ _ Ey) in Hf. apply (from_files_weaken _ _ (ls ++ [l])) in Hf; [|set_solver].
    apply exec_shared in Ez as [_ [Hs|(body & next & -> & Hb & _ & ->)]].
    + by rewrite (same_store_configs _ _ Hs).
    + simpl. rewrite fmap_app. apply Forall_app. split; [done|]. apply Forall_singleton. right.
      exists body. split; [set_solver|done].
Qed.

(** A request from its arrival on: its thread, and the configuration it uses. *)
Definition thread_at (i : nat) (request : Request) (transport : Response → result ResponseInfo bytes)
    (g0 : nat) (s : System) : Prop :=
  ∃ t, sys_threads s !! i = Some t ∧ t_request t = request ∧ t_transport t = transport ∧ (g0 <= t_gen t)%nat.

Lemma exec_thread_at path l i request transport g0 s s' :
  (g0 <= current (sys_shared s))%nat → thread_at i request transport g0 s → exec path l s = Some s' →
  thread_at i request transport g0 s'.
Proof.
  intros Hc (t & Hi & Hreq & Htr & Hg) He. pose proof (lookup_lt_Some _ _ _ Hi) as Hlen.
  destruct l as [now|request' transport'|k ch|k|read|kind instant]; simpl in He.
  - destruct (_ <=? _); [|done]. injection He as <-. by exists t.
  - injection He as <-. exists t. split; [by apply lookup_app_l_Some|done].
  - apply on_thread_Some in He as (u & u' & sh' & Hk & Ha & ->). unfold thread_at. simpl.
    destruct (base.decide (k = i)) as [->|Hne].
    + simplify_eq. destruct (advance_frame _ _ _ _ _ Ha) as (Hr & Htp & Hgen & _).
      exists u'. split; [by apply list_lookup_insert_eq|]. split; [done|]. split; [done|].
      destruct Hgen as [->|[_ ->]]; lia.
    + exists t. split; [by rewrite list_lookup_insert_ne|done].
  - apply on_thread_Some in He as (u & u' & sh' & Hk & Ha & ->). unfold thread_at. simpl.
    destruct (base.decide (k = i)) as [->|Hne].
    + simplify_eq. destruct (cancel_frame _ _ _ _ Ha) as (-> & _).
      eexists. split; [by apply list_lookup_insert_eq|done].
    + exists t. split; [by rewrite list_lookup_insert_ne|done].
  - destruct (result_bind _ _); injection He as <-; by exists t.
  - injection He as <-. by exists t.
Qed.

Lemma run_thread_at path ls i request transport g0 s s' :
  (g0 <= current (sys_shared s))%nat → thread_at i request transport g0 s → run_labels path ls s = Some s' →
  thread_at i request transport g0 s'.
Proof.
  intros Hc Ht Hr. apply (run_invariant path (λ s, (g0 <= current (sys_shared s))%nat ∧
    thread_at i request transport g0 s) ls s s'); [|done|done].
  intros l x y [H1 H2] He. split; [|by eapply exec_thread_at].
  pose proof (exec_current _ _ _ _ He). lia.
Qed.
End Systems.

(** ** Permits and deadlines *)

Section Permits.
Context {D : DnsOps} {L : DnsLaws D} {R : ResolverOps} {G : LimiterOps} {M : MessageOps}
  {ML : MessageLaws M}.

(** A step moves a permit between a client and the request, at most. *)
Definition permit_frame (t t' : Thread) (s s' : Shared) : Prop :=
  ∀ g a u', client s' g a = Some u' →
    ∃ u, client s g a = Some u ∧ timeout u' = timeout u ∧
      inflight u' + N.b2n (holds g a t') = inflight u + N.b2n (holds g a t).

Lemma permit_frame_same t t' s s' :
  s_store s' = s_store s → (∀ g a, holds g a t' = holds g a t) → permit_frame t t' s s'.
Proof. intros Hs Hh g a u'. unfold client. rewrite Hs, Hh. intros Hu. by exists u'. Qed.

Lemma permit_frame_set t t' s g0 a0 u0 u1 :
  client s g0 a0 = Some u0 → timeout u1 = timeout u0 →
  (∀ g a, (g0, a0) ≠ (g, a) → holds g a t' = holds g a t) →
  inflight u1 + N.b2n (holds g0 a0 t') = inflight u0 + N.b2n (holds g0 a0 t) →
  permit_frame t t' s (set_client g0 a0 u1 s).
Proof.
  intros Hu Ht Hh Hi g a u'. destruct (base.decide ((g0, a0) = (g, a))) as [[= <- <-]|Hne].
  - rewrite (client_set_eq _ _ _ _ _ Hu). intros [= <-]. by exists u0.
  - rewrite client_set_ne by done. intros Hu'. exists u'. by rewrite Hh.
Qed.

Lemma conclude_frame j kept t s t' s' :
  conclude j kept t s = Some (t', s') → s' = s ∧ t_gen t' = t_gen t ∧ ∀ g a, holds g a t' = false.
Proof. unfold conclude. destruct (_ !! _); [|done]. by intros [= <- <-]. Qed.

Lemma advance_permits ch t s t' s' : advance ch t s = Some (t', s') → permit_frame t t' s s'.
Proof.
  unfold advance. destruct (t_stage t) as [|j|j|j up dl|j kept|info reply|info reply|info reply|g|i|] eqn:Est; try done.
  - assert (∀ g a, holds g a t = false) as Hno by (intros; unfold holds; by rewrite Est).
    destruct (req_info _) as [info|]; [|intros [= <- <-]; by apply permit_frame_same].
    unfold begin_request. destruct (negb _); [intros [= <- <-]; by apply permit_frame_same|].
    destruct (0 <? _); [intros [= <- <-]; by apply permit_frame_same|].
    destruct (s_store s !! _) as [zs|]; [|done]. intros [= <- <-]. apply permit_frame_same; [done|].
    intros g a. rewrite Hno. unfold holds. simpl. by destruct (decide_begin _ _ _ _).
  - assert (∀ g a, holds g a t = false) as Hno by (intros; unfold holds; by rewrite Est).
    unfold check_breaker. destruct (client s _ _) as [u|] eqn:Eu; [|done]. cbn [mbind option_bind].
    destruct (Breaker.is_open _ _) as [[] b].
    + intros (-> & _ & Hh)%conclude_frame. apply (permit_frame_set _ _ _ _ _ u); [done..| |].
      * intros. by rewrite Hh, Hno.
      * by rewrite Hh, Hno.
    + intros [= <- <-]. apply (permit_frame_set _ _ _ _ _ u); [done..| |]; intros; by rewrite Hno.
  - assert (∀ g a, holds g a t = false) as Hno by (intros; unfold holds; by rewrite Est).
    unfold acquire. destruct (client s _ _) as [u|] eqn:Eu; [|done]. cbn [mbind option_bind].
    destruct (N.eqb_spec (inflight u) 0) as [H0|H0].
    + intros (-> & _ & Hh)%conclude_frame. apply permit_frame_same; [done|]. intros. by rewrite Hh, Hno.
    + intros [= <- <-]. set (t' := goto _ t).
      assert (∀ g a, holds g a t' = bool_decide (t_gen t = g ∧ j_addr j = a)) as Hh.
      { intros g a. unfold t', holds. simpl. by destruct (upstream_qname _). }
      apply (permit_frame_set _ _ _ _ _ u); [done..| |].
      * intros g a Hne. rewrite Hno, Hh. apply bool_decide_eq_false. intros [<- <-]. by apply Hne.
      * rewrite Hno, Hh, bool_decide_eq_true_2 by done. simpl. lia.
  - unfold answered_by. destruct (client s _ _) as [u|] eqn:Eu; [|done]. cbn [mbind option_bind].
    assert (∀ kept b, permit_frame t (goto (AtRelease j kept) t) s
      (set_client (t_gen t) (j_addr j) (set_breaker b u) s)) as Hk.
    { intros kept b. apply (permit_frame_set _ _ _ _ _ u); [done..| |]; intros; unfold holds; simpl; by rewrite Est. }
    destruct (ch_outcome ch); [..|destruct (_ <? _); [done|]]; intros [= <- <-]; apply Hk.
  - assert (∀ g a, holds g a t = bool_decide (t_gen t = g ∧ j_addr j = a)) as Hh by (intros; unfold holds; by rewrite Est).
    unfold release. destruct (client s _ _) as [u|] eqn:Eu; [|done]. cbn [mbind option_bind].
    intros (-> & _ & Hno)%conclude_frame. apply (permit_frame_set _ _ _ _ _ u); [done..| |].
    + intros g a Hne. rewrite Hno, Hh. symmetry. apply bool_decide_eq_false. intros [<- <-]. by apply Hne.
    + rewrite Hno, Hh, bool_decide_eq_true_2 by done. simpl. lia.
  - intros H. apply permit_frame_same; [|intros g a; unfold holds; rewrite Est];
      unfold limit, check_limit in H; destruct (exempt _ _); [by injection H as <- <-| |by injection H as <- <-|];
      destruct (check_key _ _ _) as [[] ?], (reply_kind reply); by injection H as <- <-.
  - intros H. apply permit_frame_same; [|intros g a; unfold holds; rewrite Est];
      unfold suppress in H; destruct (count_suppressed _), (slip_decision _ _); by injection H as <- <-.
  - unfold deliver. destruct (s_store s !! _); [|done]. cbn [mbind option_bind].
    destruct (send _ _ _ _ _ _). intros [= <- <-]. apply permit_frame_same; [done|].
    intros g a; unfold holds; by rewrite Est.
  - intros [= <- <-]. apply permit_frame_same; [done|]. intros g' a; unfold holds; rewrite Est.
    unfold conclude_request. by destruct g as [[]|].
Qed.

Lemma cancel_permits t s t' s' : cancel t s = Some (t', s') → permit_frame t t' s s'.
Proof.
  unfold cancel. destruct (t_stage t) as [| | |j up dl| | | | |g| |] eqn:Est; try done.
  - intros [= <- <-]. apply permit_frame_same; [done|]. intros; unfold holds; by rewrite Est.
  - assert (∀ g a, holds g a t = bool_decide (t_gen t = g ∧ j_addr j = a)) as Hh by (intros; unfold holds; by rewrite Est).
    destruct (client s _ _) as [u|] eqn:Eu; [|done]. intros [= <- <-].
    apply (permit_frame_set _ _ _ _ _ u); [done..| |].
    + intros g a Hne. rewrite Hh. symmetry. apply bool_decide_eq_false. intros [<- <-]. by apply Hne.
    + rewrite Hh, bool_decide_eq_true_2 by done. simpl. lia.
  - intros [= <- <-]. apply permit_frame_same; [done|]. intros; unfold holds; by rewrite Est.
Qed.

Definition permits_ok (s : System) : Prop :=
  ∀ g a u, client (sys_shared s) g a = Some u → inflight u + holders g a (sys_threads s) = MAX_INFLIGHT.

Definition timeouts_ok (s : Shared) : Prop :=
  ∀ g zs a u, s_store s !! g = Some zs → client s g a = Some u → timeout u = upstream_timeout (params (config zs)).

(** Who waits for an upstream waits for the configured time at most. *)
Definition deadline_ok (s : Shared) (t : Thread) : Prop :=
  match t_stage t with
  | AtUpstream j _ deadline =>
      ∃ zs, s_store s !! t_gen t = Some zs ∧ deadline <= s_now s + upstream_timeout (params (config zs))
  | _ => True
  end.

Lemma deadline_ok_mono s s' t : shared_le s s' → s_now s <= s_now s' → deadline_ok s t → deadline_ok s' t.
Proof.
  intros [_ Hle] Hn. unfold deadline_ok. destruct (t_stage t); try done. intros (zs & Hg & Hd).
  destruct (Hle _ _ Hg) as (zs' & Hg' & Hc & _). exists zs'. split; [done|]. rewrite Hc. lia.
Qed.

Lemma advance_deadline ch t s t' s' :
  timeouts_ok s → thread_inv s t → advance ch t s = Some (t', s') → deadline_ok s' t'.
Proof.
  intros Hto (zs & Hg & _) Ha.
  assert (∀ info reply, deadline_ok s' (goto (AtLimiter info reply) t)) as Hl by done.
  assert (∀ j kept s1, conclude j kept t s1 = Some (t', s') → deadline_ok s' t') as Hcon.
  { intros j kept s1. unfold conclude. destruct (s_store s1 !! _); [|done]. by intros [= <- <-]. }
  unfold advance in Ha. destruct (t_stage t) as [|j|j|j up dl|j kept|info reply|info reply|info reply|g|i|]; try done.
  - destruct (req_info _) as [info|]; [|by injection Ha as <- <-]. unfold begin_request in Ha.
    destruct (negb _); [by injection Ha as <- <-|]. destruct (0 <? _); [by injection Ha as <- <-|].
    destruct (s_store s !! current s) as [zc|]; [|done]. cbn [mbind option_bind] in Ha. injection Ha as <- <-. unfold deadline_ok. simpl.
    by destruct (decide_begin _ _ _ _).
  - unfold check_breaker in Ha. destruct (client s _ _) as [u|]; [|done]. cbn [mbind option_bind] in Ha.
    destruct (Breaker.is_open _ _) as [[] b]; [by eapply Hcon|by injection Ha as <- <-].
  - unfold acquire in Ha. destruct (client s _ _) as [u|] eqn:Eu; [|done]. cbn [mbind option_bind] in Ha.
    destruct (inflight u =? 0); [by eapply Hcon|]. injection Ha as <- <-.
    destruct (upstream_qname _); [|done]. unfold deadline_ok. simpl.
    rewrite list_lookup_alter_eq, Hg. eexists. split; [done|]. simpl. rewrite (Hto _ _ _ _ Hg Eu). lia.
  - unfold answered_by in Ha. destruct (client s _ _) as [u|] eqn:Eu; [|done]. cbn [mbind option_bind] in Ha.
    destruct (ch_outcome ch); [..|destruct (_ <? _); [done|]]; by injection Ha as <- <-.
  - unfold release in Ha. destruct (client s _ _) as [u|] eqn:Eu; [|done]. cbn [mbind option_bind] in Ha.
    by eapply Hcon.
  - apply (inj Some) in Ha. unfold limit in Ha. destruct (exempt _ _); [by injection Ha as <- <-|].
    destruct (check_limit _ _ _ _) as [[] ?]; by injection Ha as <- <-.
  - apply (inj Some) in Ha. unfold suppress in Ha. destruct (count_suppressed _), (slip_decision _ _); by injection Ha as <- <-.
  - unfold deliver in Ha. destruct (s_store s !! current s); [|done]. cbn [mbind option_bind] in Ha.
    destruct (send _ _ _ _ _ _). by injection Ha as <- <-.
  - injection Ha as <- <-. unfold conclude_request. by destruct g as [[]|].
Qed.

Lemma exec_now path l s s' : exec path l s = Some s' → s_now (sys_shared s) <= s_now (sys_shared s').
Proof.
  destruct l as [now|request transport|i ch|i|read|kind instant]; simpl.
  - destruct (N.leb_spec (s_now (sys_shared s)) now); [|done]. by intros [= <-].
  - by intros [= <-].
  - intros (t & t' & sh' & _ & Ha & ->)%on_thread_Some. simpl.
    destruct (advance_frame _ _ _ _ _ Ha) as (_ & _ & _ & _ & _ & ->). done.
  - intros (t & t' & sh' & _ & Ha & ->)%on_thread_Some. simpl.
    destruct (cancel_frame _ _ _ _ Ha) as (_ & _ & _ & ->). done.
  - destruct (result_bind _ _); by intros [= <-].
  - by intros [= <-].
Qed.

(** The invariant of the clients. *)
Record clients_inv (s : System) : Prop := {
  ci_sys : sys_inv s;
  ci_permits : permits_ok s;
  ci_timeouts : timeouts_ok (sys_shared s);
  ci_deadlines : Forall (deadline_ok (sys_shared s)) (sys_threads s);
}.

Lemma permit_frame_timeouts t t' s s' :
  permit_frame t t' s s' → (config <$> s_store s') = (config <$> s_store s) → timeouts_ok s → timeouts_ok s'.
Proof.
  intros Hf Hc Ht g zs' a u' Hg Hu. destruct (Hf _ _ _ Hu) as (u & Hu0 & -> & _).
  apply (f_equal (lookup g)) in Hc. rewrite !list_lookup_fmap, Hg in Hc.
  destruct (s_store s !! g) as [zs|] eqn:Eg; [|done]. injection Hc as ->. by eapply Ht.
Qed.

Lemma permit_frame_permits i t t' s sh' :
  sys_threads s !! i = Some t → permit_frame t t' (sys_shared s) sh' → permits_ok s →
  permits_ok (mkSystem sh' (<[i := t']> (sys_threads s))).
Proof.
  intros Hi Hf Hp g a u' Hu. destruct (Hf _ _ _ Hu) as (u & Hu0 & _ & Hin). specialize (Hp _ _ _ Hu0).
  pose proof (len_filter_insert (holds g a) _ _ _ t' Hi). unfold holders in *. simpl. lia.
Qed.

Lemma fresh_clients s next :
  Zones_new (config next) = Ok next →
  Forall (λ t, (t_gen t < length (s_store (sys_shared s)))%nat) (sys_threads s) →
  permits_ok s → timeouts_ok (sys_shared s) →
  let sh' := mkShared (s_store (sys_shared s) ++ [next]) (s_rrl (sys_shared s)) (s_now (sys_shared s)) in
  permits_ok (mkSystem sh' (sys_threads s)) ∧ timeouts_ok sh'.
Proof.
  intros Hn Hinv Hp Ht sh'. set (n := length (s_store (sys_shared s))).
  assert (∀ a u, upstreams next !! a = Some u → inflight u = MAX_INFLIGHT ∧
    timeout u = upstream_timeout (params (config next))) as Hfresh.
  { intros a u Hu. unfold Zones_new in Hn. destruct (build_upstreams _ _ _) as [m|] eqn:E; [|done].
    injection Hn as Hn. rewrite <- Hn in Hu. simpl in Hu. apply build_upstreams_spec in E as (H1 & _).
    destruct (H1 _ _ Hu) as [Hm|[Hnew _]]; [by rewrite lookup_empty in Hm|].
    unfold Upstream_new in Hnew. destruct (build_resolver _ _); [|done]. by injection Hnew as <-. }
  assert (∀ g a u, client sh' g a = Some u → client (sys_shared s) g a = Some u ∨
    g = n ∧ upstreams next !! a = Some u) as Hcl.
  { intros g a u. unfold client, sh'. simpl. destruct (base.decide (g < n)%nat).
    - rewrite lookup_app_l by done. by left.
    - rewrite lookup_app_r by (unfold n in *; lia). destruct (g - length (s_store (sys_shared s)))%nat eqn:Eg; [|done].
      simpl. right. split; [unfold n in *; lia|done]. }
  split.
  - intros g a u [Hu|[-> Hu]]%Hcl; [by apply Hp|]. destruct (Hfresh _ _ Hu) as [-> _].
    assert (holders n a (sys_threads s) = 0) as H0; [|simpl; lia].
    unfold holders. assert (List.filter (holds n a) (sys_threads s) = []) as ->; [|done].
    induction Hinv as [|t ts Hg _ IH]; [done|]. simpl. fold n in Hg.
    assert (holds n a t = false) as ->; [|apply IH].
    unfold holds. destruct (t_stage t); try done; apply bool_decide_eq_false; intros [Hn' _]; lia.
  - intros g zs a u Hg [Hu|[-> Hu]]%Hcl.
    + unfold client in Hu. destruct (s_store (sys_shared s) !! g) as [zs0|] eqn:E0; [|done].
      unfold sh' in Hg. simpl in Hg. rewrite (lookup_app_l_Some _ _ _ _ E0) in Hg. injection Hg as <-.
      eapply Ht; [exact E0|]. unfold client. by rewrite E0.
    + unfold sh', n in Hg. simpl in Hg. rewrite lookup_app_r, Nat.sub_diag in Hg by lia. injection Hg as <-.
      by apply Hfresh in Hu as [_ ->].
Qed.

Lemma exec_clients path l s s' : clients_inv s → exec path l s = Some s' → clients_inv s'.
Proof.
  intros [Hs Hp Ht Hd] He. pose proof (exec_inv _ _ _ _ Hs He) as Hs'.
  pose proof (exec_le _ _ _ _ He) as Hle. pose proof (exec_now _ _ _ _ He) as Hnow.
  assert (Forall (deadline_ok (sys_shared s')) (sys_threads s)) as Hd'.
  { eapply Forall_impl; [exact Hd|]. intros t. by apply deadline_ok_mono. }
  destruct l as [now|request transport|i ch|i|read|kind instant]; simpl in He.
  - destruct (_ <=? _); [|done]. injection He as <-. by split.
  - injection He as <-. split; [done| |done|].
    + intros g a u Hu. specialize (Hp g a u Hu). unfold holders in *. simpl.
      rewrite List.filter_app. simpl. by rewrite app_nil_r.
    + apply Forall_app. split; [done|]. by apply Forall_singleton.
  - apply on_thread_Some in He as (t & t' & sh' & Hi & Ha & ->). pose proof (advance_permits _ _ _ _ _ Ha) as Hf.
    destruct (advance_frame _ _ _ _ _ Ha) as (_ & _ & _ & Hss & _). split; [done|..].
    + by eapply permit_frame_permits.
    + eapply permit_frame_timeouts; [done|by apply same_store_configs|done].
    + apply Forall_insert; [done|]. eapply advance_deadline; [done| |done].
      destruct Hs as [_ Hs]. by eapply Forall_lookup_1.
  - apply on_thread_Some in He as (t & t' & sh' & Hi & Ha & ->). pose proof (cancel_permits _ _ _ _ Ha) as Hf.
    destruct (cancel_frame _ _ _ _ Ha) as (-> & Hss & _). split; [done|..].
    + by eapply permit_frame_permits.
    + eapply permit_frame_timeouts; [done|by apply same_store_configs|done].
    + by apply Forall_insert.
  - destruct (result_bind _ _) as [next|] eqn:En; injection He as <-; [|by split].
    apply load_new_config in En as (body & _ & _ & En). destruct (fresh_clients s next En) as [H1 H2]; [|done|done|by split].
    destruct Hs as [_ Hs]. eapply Forall_impl; [exact Hs|]. intros t (zs & Hg & _). by eapply lookup_lt_Some.
  - injection He as <-. by split.
Qed.

(** The server as [serve] starts it, with its clients. *)
Lemma start_clients cli c l st now :
  config_wf c → serve_state cli c = Ok (l, st) → clients_inv (start st now).
Proof.
  intros Hc Hs. destruct (serve_state_inv _ _ _ _ Hs) as (_ & Hz & _). rewrite <- Hz in Hc.
  unfold serve_state in Hs. destruct (effective_listen cli c); [|done]. cbn [result_bind] in Hs.
  destruct (Zones_new c) as [zs|] eqn:E; [|done]. cbn [result_bind] in Hs. injection Hs as _ <-. simpl in Hz.
  set (s0 := mkSystem (mkShared [] (Rrl_new (rrl (params c))) now) []).
  destruct (fresh_clients s0 zs) as [H1 H2]; [by rewrite Hz|done|by intros ???|by intros ????|].
  split; [by apply start_inv|done..].
Qed.

Lemma run_clients path ls s s' : clients_inv s → run_labels path ls s = Some s' → clients_inv s'.
Proof. apply run_invariant. intros l x y. apply exec_clients. Qed.
End Permits.

(** ** What a request of a running server has sent *)

Section Conformance.
Context {D : DnsOps} {L : DnsLaws D} {R : ResolverOps} {G : LimiterOps} {M : MessageOps}
  {ML : MessageLaws M}.

(** [t], in the state [s] of a run over [ls] of a server started with [c], has sent
    what the contract allows under one configuration that a file says. *)
Definition conforming (c : Config) (ls : list Label) (s : System) (t : Thread) : Prop :=
  let limits := enabled (rrl (params c)) in
  ∃ zs, s_store (sys_shared s) !! t_gen t = Some zs ∧
    (config zs = c ∨ ∃ body, LHangup (Ok body) ∈ ls ∧ Config_parse body = Ok (config zs)) ∧
    Forall (conforms limits (config zs) (t_transport t) (t_request t)) (t_sent t) ∧
    (∀ i, t_stage t = Finished i → answered limits (t_transport t) (t_request t) (t_sent t)).

Lemma run_conforming cli read c l st now ls s i t :
  load_config (cli_config cli) read = Ok c → serve_state cli c = Ok (l, st) →
  run_labels (cli_config cli) ls (start st now) = Some s →
  sys_threads s !! i = Some t → conforming c ls s t.
Proof.
  intros Hload%load_config_wf (_ & Hz & Hrrl)%serve_state_inv Hrun Hi. rewrite <- Hz in Hload.
  pose proof (run_inv _ _ _ _ (start_inv st now Hload) Hrun) as [_ Hinv].
  assert (rrl_params (s_rrl (sys_shared s)) = rrl (params c)) as Hp.
  { apply (run_invariant (cli_config cli) (λ x, rrl_params (s_rrl (sys_shared x)) = rrl (params c)) _ _ _) in Hrun; [done| |].
    - intros l0 x y Hx [Hy _]%exec_shared. congruence.
    - simpl. by rewrite Hrrl. }
  apply (run_from_files _ c) in Hrun as Hfiles; [|apply Forall_singleton; by left].
  destruct (Forall_lookup_1 _ _ _ _ Hinv Hi) as (zs & Hzs & Hst & Hsent). rewrite Hp in *.
  exists zs. split; [done|]. split; [|split; [done|]].
  - pose proof (Forall_lookup_1 _ _ (t_gen t) (config zs) Hfiles) as Hf.
    rewrite list_lookup_fmap, Hzs in Hf. exact (Hf eq_refl).
  - intros x Hx. unfold stage_ok in Hst. by rewrite Hx in Hst.
Qed.
End Conformance.

(** ** Properties *)

Section Properties.
Context {D : DnsOps} {L : DnsLaws D} {R : ResolverOps} {G : LimiterOps} {M : MessageOps}
  {ML : MessageLaws M}.

(** C3.  The contract holds under every interleaving.  Start the server, let it
    run, let a request arrive, and let it run on, with any other requests,
    reloads, sweeps and cancellations in between, each thread stopping between
    any two accesses to shared state.  What the request has sent by then is what
    the contract allows under one configuration, no older than the one in force
    at its arrival, that some loaded file says; and when the request is over it
    has been answered once, twice only if sending failed, and left unanswered
    only over UDP under rate limiting. *)
Theorem interleaved_requests_conform (cli : Cli) (read : FileResult) (c : Config)
    (l : list ListenAddr) (st : ServerState) (now : N) (ls ls' : list Label) (s s' : System)
    (request : Request) (transport : Response → result ResponseInfo bytes) :
  load_config (cli_config cli) read = Ok c → serve_state cli c = Ok (l, st) →
  run_labels (cli_config cli) ls (start st now) = Some s →
  run_labels (cli_config cli) (LArrive request transport :: ls') s = Some s' →
  ∃ t zs, sys_threads s' !! length (sys_threads s) = Some t ∧ t_request t = request ∧
    (current (sys_shared s) <= t_gen t)%nat ∧ s_store (sys_shared s') !! t_gen t = Some zs ∧
    (config zs = c ∨ ∃ body, LHangup (Ok body) ∈ ls ++ ls' ∧ Config_parse body = Ok (config zs)) ∧
    Forall (conforms (enabled (rrl (params c))) (config zs) transport request) (t_sent t) ∧
    (∀ i, t_stage t = Finished i → answered (enabled (rrl (params c))) transport request (t_sent t)).
Proof.
  intros Hload Hs Hr1 Hr2.
  assert (run_labels (cli_config cli) (ls ++ LArrive request transport :: ls') (start st now) = Some s') as Hrun
    by (rewrite run_app, Hr1; exact Hr2).
  cbn [run_labels exec mbind option_bind] in Hr2.
  apply (run_thread_at _ _ (length (sys_threads s)) request transport (current (sys_shared s))) in Hr2
    as (t & Hi & <- & <- & Hg); [|done|].
  2: { eexists. split; [by apply list_lookup_middle|done]. }
  destruct (run_conforming _ _ _ _ _ _ _ _ _ _ Hload Hs Hrun Hi) as (zs & Hzs & Hfile & Hsent & Hend).
  exists t, zs. do 4 (split; [done|]). split; [|done].
  destruct Hfile as [Hc|(body & [Hin|[[=]|Hin]%elem_of_cons]%elem_of_app & Hb)]; [by left|right..];
    exists body; (split; [apply elem_of_app|done]); [by left|by right].
Qed.
End Properties.

(** ** Running samples *)

Section Samples.
Context {D : DnsOps} {R : ResolverOps} {G : LimiterOps} {M : MessageOps}.

(** The state a run ends in, given that it can be run. *)
Definition run_or (path : bytes) (ls : list Label) (s : System) : System :=
  default s (run_labels path ls s).

Definition runs (path : bytes) (ls : list Label) (s : System) : bool :=
  match run_labels path ls s with Some _ => true | None => false end.

Lemma run_or_runs path ls s : runs path ls s = true → run_labels path ls s = Some (run_or path ls s).
Proof. unfold runs, run_or. by destruct (run_labels path ls s). Qed.

Lemma run_or_continues path ls ls' s :
  runs path (ls ++ ls') s = true →
  run_labels path ls' (run_or path ls s) = Some (run_or path (ls ++ ls') s).
Proof.
  unfold runs, run_or. rewrite !run_app.
  destruct (run_labels path ls s) as [s1|]; [|done]. simpl. by destruct (run_labels path ls' s1).
Qed.
End Samples.

(** ** Instances *)

#[local] Existing Instance LabelName.ops.
#[local] Existing Instance LabelName.laws.
#[local] Existing Instance EchoResolver.ops.
#[local] Existing Instance TokenBucket.ops.
#[local] Existing Instance EchoMessages.ops.
#[local] Existing Instance EchoMessages.laws.

(** A reverse query that an upstream may override. *)
Definition ptr_request (tcp : bool) : Request :=
  mkRequest (Ok (mkRequestInfo (V4 0xC0000201) tcp sample_rev RecordType.PTR DNSClass.IN))
    (query_header OpCode.Query) (Some (0, 4096)) 4096.
Definition ptr_transport : Response → result ResponseInfo bytes := λ r, Ok (resp_metadata r).

Definition silence : Choice := mkChoice Elapsed 5.
Definition override_choice : Choice := mkChoice (env_outcome override_env
  (LabelName.mk (LabelName.lbls sample_rev ++ [bs "upstream"]) true)) 5.

Definition run_sample (ls : list Label) : System := run_or (cli_config sample_cli) ls (start sample_start 0).

(** One request waits for the upstream; the file is reloaded; another request
    arrives, waits as well and is answered; then the first times out. *)
Definition first_waits : list Label :=
  [LArrive (ptr_request false) ptr_transport; LAdvance 0 silence; LAdvance 0 silence; LAdvance 0 silence;
   LHangup (Ok sample_input)].
Definition second_overtakes : list Label :=
  [LAdvance 1 silence; LAdvance 1 silence; LAdvance 1 silence; LTick (from_millis 300);
   LAdvance 1 override_choice; LAdvance 0 silence; LSweep AnswerKind 5; LSweep Negative 6; LAdvance 0 silence; LAdvance 1 silence;
   LAdvance 1 silence; LAdvance 1 silence; LAdvance 1 silence].

Definition overtaken : System :=
  run_sample (first_waits ++ LArrive (ptr_request true) ptr_transport :: second_overtakes).

Lemma interleaved_requests_conform_witness :
  let s := run_sample first_waits in
  ((λ t, (t_gen t, (λ r, rec_data <$> resp_answers r) <$> t_sent t)) <$> sys_threads overtaken) =
    [(0%nat, []); (1%nat, [[RData.PTR host_name]])] ∧
  ∃ t zs, sys_threads overtaken !! length (sys_threads s) = Some t ∧ t_request t = ptr_request true ∧
    (current (sys_shared s) <= t_gen t)%nat ∧ s_store (sys_shared overtaken) !! t_gen t = Some zs ∧
    (config zs = sample_config ∨
       ∃ body, LHangup (Ok body) ∈ first_waits ++ second_overtakes ∧ Config_parse body = Ok (config zs)) ∧
    Forall (conforms (enabled (rrl (params sample_config))) (config zs) ptr_transport (ptr_request true)) (t_sent t) ∧
    (∀ i, t_stage t = Finished i →
       answered (enabled (rrl (params sample_config))) ptr_transport (ptr_request true) (t_sent t)).
Proof.
  cbv zeta. split; [vm_refl|].
  apply (interleaved_requests_conform sample_cli (Ok sample_input) sample_config [mkListenAddr (V6 1) 5353]
    sample_start 0 first_waits second_overtakes (run_sample first_waits) overtaken (ptr_request true) ptr_transport);
    [vm_refl|vm_refl|apply run_or_runs; vm_refl|apply run_or_continues; vm_refl].
Defined.

Definition both_wait : list Label :=
  first_waits ++ [LArrive (ptr_request true) ptr_transport; LAdvance 1 silence; LAdvance 1 silence; LAdvance 1 silence].
Definition waiting_system : System := run_sample both_wait.
