(* ===== verification/RrlService.v ===== *)
(** * The rate limiter in the running server

    RrlMemory.v is about a limiter on its own.  Here it is the one that the
    requests of Concurrent.v share: a run of the server, however its requests are
    interleaved, does to the buckets what the sequence of its checks and sweeps
    does ([limiter_ops]).  So what holds of any such sequence holds of the server. *)

From S2P Require Import Prelude RustText RustNet ConfigError Dns Config ConfigSpec Parse Compile Sample CompileSpec Zones Rrl RrlSpec RrlMemory Upstream UpstreamSpec Handler HandlerSpec Server ServerSpec Contract Concurrent ConcurrentSpec.

Section Service.
Context {D : DnsOps} {L : DnsLaws D} {R : ResolverOps} {G : LimiterOps} {M : MessageOps} {ML : MessageLaws M}
  {S : LimiterStore G}.

(** What one step of the server does to the limiter. *)
Definition limiter_step (l : Label) (s : System) : list RrlOp :=
  match l with
  | LSweep kind instant => [Sweeps instant kind]
  | LAdvance i ch =>
      match t_stage <$> sys_threads s !! i with
      | Some (AtLimiter info reply) => [Decides (ch_instant ch) (src info) (reply_kind reply) (is_tcp info)]
      | _ => []
      end
  | _ => []
  end.

Fixpoint limiter_ops (path : bytes) (ls : list Label) (s : System) : list RrlOp :=
  match ls with
  | [] => []
  | l :: ls =>
      limiter_step l s ++
      match exec path l s with Some s => limiter_ops path ls s | None => [] end
  end.

(** The check of a request is that of a decision; the counter comes later. *)
Lemma limit_buckets instant info reply t s :
  same_buckets (s_rrl (snd (limit instant info reply t s)))
    (snd (decide instant (src info) (reply_kind reply) (is_tcp info) (s_rrl s))).
Proof.
  unfold limit, decide. destruct (exempt _ _); [done|]. destruct (check_limit _ _ _ _) as [[] r]; done.
Qed.

(** Every other step of a request leaves the buckets alone. *)
Lemma advance_buckets ch t s t' s' :
  advance ch t s = Some (t', s') →
  same_buckets (s_rrl s')
    (match t_stage t with
     | AtLimiter info reply => snd (decide (ch_instant ch) (src info) (reply_kind reply) (is_tcp info) (s_rrl s))
     | _ => s_rrl s
     end).
Proof.
  assert (∀ j kept s1, conclude j kept t s1 = Some (t', s') → s_rrl s' = s_rrl s1) as Hcon.
  { intros j kept s1. unfold conclude. destruct (s_store s1 !! t_gen t); [|done]. by intros [= _ <-]. }
  unfold advance. destruct (t_stage t) as [|j|j|j up dl|j kept|info reply|info reply|info reply|g|i|]; [..|done|done].
  - destruct (req_info (t_request t)) as [info|x]; [|by intros [= _ <-]].
    unfold begin_request. destruct (negb _); [by intros [= _ <-]|]. destruct (0 <? _); [by intros [= _ <-]|].
    destruct (s_store s !! current s); [|done]. by intros [= _ <-].
  - unfold check_breaker. destruct (client s _ _); [|done]. cbn [mbind option_bind].
    destruct (Breaker.is_open _ _) as [[] b]; [by intros ->%Hcon|by intros [= _ <-]].
  - unfold acquire. destruct (client s _ _); [|done]. cbn [mbind option_bind].
    destruct (_ =? 0); [by intros ->%Hcon|by intros [= _ <-]].
  - unfold answered_by. destruct (client s _ _); [|done]. cbn [mbind option_bind].
    destruct (ch_outcome ch); [by intros [= _ <-]..|]. destruct (_ <? _); [done|by intros [= _ <-]].
  - unfold release. destruct (client s _ _); [|done]. by intros ->%Hcon.
  - intros [= E]. pose proof (limit_buckets (ch_instant ch) info reply t s) as H. by rewrite E in H.
  - unfold suppress, count_suppressed. simpl. by destruct (slip_decision _ _); intros [= _ <-].
  - unfold deliver. destruct (s_store s !! current s); [|done]. cbn [mbind option_bind].
    destruct (send _ _ _ _ _ _). by intros [= _ <-].
  - by intros [= _ <-].
Qed.

Lemma exec_buckets path l s s' :
  exec path l s = Some s' →
  same_buckets (s_rrl (sys_shared s')) (run_ops (limiter_step l s) (s_rrl (sys_shared s))).
Proof.
  destruct l as [now|request transport|i ch|i|read|kind instant]; simpl.
  - case_match; [|done]. by intros [= <-].
  - by intros [= <-].
  - intros (t & t' & sh' & Hi & Ha & ->)%on_thread_Some. rewrite Hi. simpl.
    apply advance_buckets in Ha. etrans; [exact Ha|]. by destruct (t_stage t).
  - intros (t & t' & sh' & Hi & Ha & ->)%on_thread_Some. simpl. by apply cancel_frame in Ha as (_ & _ & -> & _).
  - destruct (result_bind _ _); by intros [= <-].
  - by intros [= <-].
Qed.

Lemma run_buckets path ls s s' :
  run_labels path ls s = Some s' →
  same_buckets (s_rrl (sys_shared s')) (run_ops (limiter_ops path ls s) (s_rrl (sys_shared s))).
Proof.
  revert s. induction ls as [|l ls IH]; intros s; [by intros [= <-]|]. simpl.
  destruct (exec path l s) as [y|] eqn:E; [|done]. simpl. intros H%IH. etrans; [exact H|].
  unfold run_ops. rewrite foldl_app. eapply run_ops_proper, exec_buckets. exact E.
Qed.

(** ** Whose checks they are *)

(** Every request in flight arrived in the run. *)
Definition arrived (ls : list Label) (s : System) : Prop :=
  Forall (λ t, LArrive (t_request t) (t_transport t) ∈ ls) (sys_threads s).

Lemma exec_arrived path ls l s s' : arrived ls s → exec path l s = Some s' → arrived (ls ++ [l]) s'.
Proof.
  unfold arrived. intros Ha He.
  assert (Forall (λ t, LArrive (t_request t) (t_transport t) ∈ ls ++ [l]) (sys_threads s)) as Hold.
  { eapply Forall_impl; [exact Ha|]. intros t Ht. apply elem_of_app. by left. }
  assert (∀ i (t t' : Thread) sh, sys_threads s !! i = Some t → t_request t' = t_request t →
    t_transport t' = t_transport t →
    Forall (λ t, LArrive (t_request t) (t_transport t) ∈ ls ++ [l]) (sys_threads (mkSystem sh (<[i := t']> (sys_threads s))))) as Hins.
  { intros i t t' sh Hi Hr Ht. simpl. apply Forall_insert; [done|]. rewrite Hr, Ht. by eapply (Forall_lookup_1 _ _ i t Hold). }
  destruct l as [now|request transport|i ch|i|read|kind instant]; simpl in He.
  - case_match; [|done]. by injection He as <-.
  - injection He as <-. simpl. apply Forall_app. split; [done|]. apply Forall_singleton. simpl.
    apply elem_of_app. right. by apply list_elem_of_singleton.
  - apply on_thread_Some in He as (t & t' & sh' & Hi & Hadv & ->). apply advance_frame in Hadv as (Hr & Ht & _).
    by eapply Hins.
  - apply on_thread_Some in He as (t & t' & sh' & Hi & Hc & ->). apply cancel_frame in Hc as (-> & _).
    by eapply Hins.
  - destruct (result_bind _ _); by injection He as <-.
  - by injection He as <-.
Qed.

(** A check is made for a request that arrived, in its name. *)
Definition from_request (ls : list Label) (op : RrlOp) : Prop :=
  match op with
  | Decides _ addr _ tcp => ∃ request transport info,
      LArrive request transport ∈ ls ∧ req_info request = Ok info ∧ src info = addr ∧ is_tcp info = tcp
  | Sweeps instant kind => LSweep kind instant ∈ ls
  end.

Lemma from_request_weaken ls ls' op : from_request ls op → from_request (ls ++ ls') op.
Proof.
  destruct op; simpl; [|intros H; apply elem_of_app; by left].
  intros (request & transport & info & H & ?). exists request, transport, info.
  split; [apply elem_of_app; by left|done].
Qed.

Lemma limiter_step_from ls l s : sys_inv s → arrived ls s → Forall (from_request (ls ++ [l])) (limiter_step l s).
Proof.
  intros [_ Hinv] Ha. destruct l as [now|request transport|i ch|i|read|kind instant]; simpl; try by constructor.
  - destruct (sys_threads s !! i) as [t|] eqn:Hi; simpl; [|by constructor].
    destruct (t_stage t) as [| | | | |info reply| | | | |] eqn:Est; try by constructor.
    apply Forall_singleton. simpl. pose proof (Forall_lookup_1 _ _ _ _ Ha Hi) as Ht.
    destruct (Forall_lookup_1 _ _ _ _ Hinv Hi) as (zs & _ & Hst & _). unfold stage_ok in Hst.
    rewrite Est in Hst. destruct Hst as [_ [[Hr _] _]].
    exists (t_request t), (t_transport t), info. split; [apply elem_of_app; by left|done].
  - apply Forall_singleton. simpl. apply elem_of_app. right. by apply list_elem_of_singleton.
Qed.

Lemma limiter_ops_from path pre ls s s' :
  sys_inv s → arrived pre s → run_labels path ls s = Some s' →
  Forall (from_request (pre ++ ls)) (limiter_ops path ls s).
Proof.
  revert pre s. induction ls as [|l ls IH]; intros pre s Hinv Ha; [by constructor|]. simpl.
  destruct (exec path l s) as [y|] eqn:E; [|done]. simpl. intros Hrun. rewrite cons_middle, app_assoc.
  apply Forall_app. split.
  - eapply Forall_impl; [by apply limiter_step_from|]. intros op. apply from_request_weaken.
  - apply (IH _ y); [by eapply exec_inv|by eapply exec_arrived|done].
Qed.

(** C33.  The rate limiter of the running server.  Whatever requests run at the same
    time, are cancelled or outlive a reload: every check of the limiter is made for
    a request that arrived, in the name of its client; after any sweep of the run,
    first of the one limiter and later of the other, there are at most two buckets
    for each client network that was checked since the sweep began, or less than the
    refill time of a bucket before; and a request whose
    network was not checked for the refill time is not suppressed. *)
Theorem limiter_in_service (cli : Cli) (read : FileResult) (c : Config) (l : list ListenAddr)
    (st : ServerState) (now : N) (ls : list Label) (s : System) :
  load_config (cli_config cli) read = Ok c → serve_state cli c = Ok (l, st) →
  run_labels (cli_config cli) ls (start st now) = Some s →
  let p := rrl (params c) in
  let w := window (Rrl_new p) in
  let ops := limiter_ops (cli_config cli) ls (start st now) in
  Forall (from_request ls) ops ∧
  (∀ before t mid t' after, ops = before ++ Sweeps t AnswerKind :: mid ++ Sweeps t' Negative :: after → t <= t' →
     tracked (s_rrl (sys_shared s)) <=
       2 * N.of_nat (size (clients_since p (later_than t w) before ∪ clients_since p ever (mid ++ after)))) ∧
  (∀ i t info reply ch, sys_threads s !! i = Some t → t_stage t = AtLimiter info reply →
     ClientKey_new (src info) (ipv4_prefix p) (ipv6_prefix p) ∉ clients_since p (later_than (ch_instant ch) w) ops →
     ∃ s', exec (cli_config cli) (LAdvance i ch) s = Some s' ∧
       (t_stage <$> sys_threads s' !! i) = Some (AtSend info reply)).
Proof.
  intros Hload%load_config_wf (_ & Hz & Hrrl)%serve_state_inv Hrun. cbv zeta. rewrite <- Hz in Hload.
  set (ops := limiter_ops _ _ _). pose proof (run_buckets _ _ _ _ Hrun) as Hb. fold ops in Hb.
  simpl in Hb. rewrite Hrrl in Hb. split; [|split].
  - apply (limiter_ops_from _ [] _ _ s); [by apply start_inv|by constructor|done].
  - intros before t mid t' after E Ht. rewrite Hb, E. by apply swept_bound.
  - intros i t info reply ch Hi Hst Hk. simpl. unfold on_thread. rewrite Hi. cbn [mbind option_bind].
    unfold advance, limit. rewrite Hst.
    assert (fst (check_limit (ch_instant ch) (src info) (reply_kind reply) (s_rrl (sys_shared s))) = true) as Hok.
    { eapply quiet_checked; [|exact Hk]. symmetry in Hb. rewrite <- Hb. apply explains_start. }
    destruct (exempt _ _); [|destruct (check_limit _ _ _ _) as [ok r]; simpl in Hok; subst ok];
      (eexists; split; [done|]; simpl; rewrite list_lookup_insert_eq; [done|by eapply lookup_lt_Some]).
Qed.
End Service.

(** ** Instance *)

#[local] Existing Instance LabelName.ops.
#[local] Existing Instance LabelName.laws.
#[local] Existing Instance EchoResolver.ops.
#[local] Existing Instance TokenBucket.ops.
#[local] Existing Instance EchoMessages.ops.
#[local] Existing Instance EchoMessages.laws.

(** A question for the apex, over UDP. *)
Definition apex_request (client : N) : Request :=
  mkRequest (Ok (mkRequestInfo (V4 client) false lan_apex RecordType.NS DNSClass.IN))
    (query_header OpCode.Query) None 512.

Definition at_instant (t : N) : Choice := mkChoice Elapsed t.

(** One client asks and is forgotten; another stands before the limiter. *)
Definition quiet_run : list Label :=
  [LArrive (apex_request 0xC0000201) ptr_transport; LArrive (apex_request 0xC6336401) ptr_transport;
   LAdvance 1 (at_instant 0); LAdvance 0 (at_instant 0); LAdvance 0 (at_instant 7); LAdvance 0 (at_instant 7);
   LSweep AnswerKind (from_millis 60000); LSweep Negative (from_millis 60001)].

Definition quiet_system : System := run_sample quiet_run.

Definition sample_ops : list RrlOp := limiter_ops (cli_config sample_cli) quiet_run (start sample_start 0).

Lemma limiter_in_service_witness :
  let p := rrl (params sample_config) in
  let w := window (Rrl_new p) in
  (length sample_ops, tracked (s_rrl (sys_shared quiet_system)),
   tracked (s_rrl (sys_shared (run_sample (take 6 quiet_run))))) = (3%nat, 0, 1) ∧
  Forall (from_request quiet_run) sample_ops ∧
  (∀ before t mid t' after,
     sample_ops = before ++ Sweeps t AnswerKind :: mid ++ Sweeps t' Negative :: after → t <= t' →
     tracked (s_rrl (sys_shared quiet_system)) <=
       2 * N.of_nat (size (clients_since p (later_than t w) before ∪ clients_since p ever (mid ++ after)))) ∧
  (∀ i t info reply ch, sys_threads quiet_system !! i = Some t → t_stage t = AtLimiter info reply →
     ClientKey_new (src info) (ipv4_prefix p) (ipv6_prefix p) ∉
       clients_since p (later_than (ch_instant ch) w) sample_ops →
     ∃ s', exec (cli_config sample_cli) (LAdvance i ch) quiet_system = Some s' ∧
       (t_stage <$> sys_threads s' !! i) = Some (AtSend info reply)).
Proof.
  cbv zeta. split; [vm_refl|].
  apply (limiter_in_service sample_cli (Ok sample_input) sample_config [mkListenAddr (V6 1) 5353]
    sample_start 0 quiet_run quiet_system); [vm_refl|vm_refl|apply run_or_runs; vm_refl].
Defined.
