(* ===== verification/ConcurrentLogSpec.v ===== *)
(** * Correctness of the log of interleaved requests

    The lines of a request are those that Journal.v describes, however its steps
    are interleaved with those of others, with reloads and with sweeps. *)

From S2P Require Import Prelude RustText RustNet ConfigError Dns Config ConfigSpec Parse Compile Sample CompileSpec Zones Rrl RrlSpec Upstream UpstreamSpec Handler HandlerSpec Journal Server ServerSpec Contract Concurrent ConcurrentLog ConcurrentSpec.

Section Lines.
Context {D : DnsOps} {L : DnsLaws D} {R : ResolverOps} {G : LimiterOps} {M : MessageOps} {ML : MessageLaws M}.

(** Of a request's surroundings only the transport matters to its lines. *)
Definition env_of (transport : Response → result ResponseInfo bytes) : Env :=
  mkEnv 0 (mkLookupEnv 0 0 (λ _, Elapsed)) transport (λ z, z).

(** The question, and what the upstream is reported for. *)
Definition looked_up (querylog : bool) (info : RequestInfo) (lines : list LogLine) : Prop :=
  ∃ up, lines = query_lines querylog info ++ up ∧ from_upstream up.

(** What a request has logged where it is. *)
Definition stage_log (querylog : bool) (lines : list LogLine) (t : Thread) : Prop :=
  match t_stage t with
  | AtStart => lines = []
  | AtBreaker j | AtSemaphore j | AtUpstream j _ _ => lines = query_lines querylog (j_info j)
  | AtRelease j _ => looked_up querylog (j_info j) lines
  | AtLimiter info _ | AtCounter info _ | AtSend info _ => looked_up querylog info lines
  | AtEnd g => inner_log querylog (env_of (t_transport t)) (t_request t) lines (t_sent t, g)
  | Finished _ => request_log querylog (env_of (t_transport t)) (t_request t) lines (t_sent t)
  | Dropped =>
      lines = [] ∨ (∃ info, lines = query_lines querylog info) ∨
      ∃ s, inner_log querylog (env_of (t_transport t)) (t_request t) lines s
  end.

Lemma looked_up_nothing querylog info : looked_up querylog info (query_lines querylog info).
Proof. exists []. split; [by rewrite app_nil_r|done]. Qed.

Lemma looked_up_one querylog info up :
  from_upstream up → looked_up querylog info (query_lines querylog info ++ up).
Proof. intros H. by exists up. Qed.

Lemma outcome_lines o q up u s : from_upstream (outcome_log o q up u s).
Proof. unfold outcome_log. destruct o as [answers| |]; [case_match|..]; try done. by destruct (fst _). Qed.

(** The stage after a lookup that returned [kept]. *)
Lemma conclude_log querylog j kept t s t' s' lines :
  conclude j kept t s = Some (t', s') → looked_up querylog (j_info j) lines → stage_log querylog lines t'.
Proof. unfold conclude. destruct (s_store s !! t_gen t); [|done]. by intros [= <- _]. Qed.

Lemma advance_stage_log querylog ch t s t' s' lines :
  shared_wf s → thread_inv s t → stage_log querylog lines t → advance ch t s = Some (t', s') →
  stage_log querylog (lines ++ advance_log querylog ch t s ++ failure_log t) t'.
Proof.
  intros Hs (zs & Hzs & Hst & _). unfold stage_ok in Hst. unfold stage_log at 1, advance, advance_log, failure_log.
  destruct (t_stage t) as [|j|j|j up dl|j kept|info reply|info reply|info reply|g|i|] eqn:Est; rewrite ?app_nil_r.
  - intros ->. destruct (req_info (t_request t)) as [info|x] eqn:Ei.
    2: { intros [= <- <-]. unfold stage_log. simpl. rewrite Hst. by apply log_malformed. }
    simpl. unfold begin_request.
    pose proof (looked_up_nothing querylog info) as Hn.
    destruct (negb _); [by intros [= <- <-]|]. destruct (0 <? _); [by intros [= <- <-]|].
    destruct (s_store s !! current s) as [z|]; [|done]. simpl. intros [= <- <-].
    unfold stage_log. simpl. by destruct (decide_begin _ _ _ _).
  - intros ->. unfold check_breaker, with_client, breaker_log. destruct (client s _ _) as [u|]; [|done].
    cbn [mbind option_bind]. destruct (Breaker.is_open _ _) as [[] b]; simpl.
    + intros H. eapply conclude_log; [exact H|]. by apply looked_up_one.
    + intros [= <- <-]. unfold stage_log. simpl. by rewrite app_nil_r.
  - intros ->. unfold acquire, with_client, semaphore_log. destruct (client s _ _) as [u|]; [|done].
    cbn [mbind option_bind]. destruct (inflight u =? 0).
    + intros H. eapply conclude_log; [exact H|]. by apply looked_up_one.
    + intros [= <- <-]. unfold stage_log. simpl. rewrite app_nil_r.
      destruct (upstream_qname _); [done|]. apply looked_up_nothing.
  - intros ->. unfold answered_by, with_client. destruct (client s _ _) as [u|]; [|done].
    cbn [mbind option_bind]. pose proof (outcome_lines (ch_outcome ch) (j_qname j) up u s) as Ho.
    destruct (ch_outcome ch) as [answers| |]; [..|destruct (_ <? _); [done|]];
      intros [= <- <-]; unfold stage_log; by apply looked_up_one.
  - intros Hl H. unfold release in H. destruct (client s _ _); [|done]. by eapply conclude_log.
  - intros Hl [= E]. unfold limit in E. destruct (exempt _ _); [by injection E as <- <-|].
    destruct (check_limit _ _ _ _) as [[] r]; by injection E as <- <-.
  - intros (ul & -> & Hul). destruct Hst as (Hsent & [[Hi _] _] & _). rewrite <- app_assoc.
    unfold suppress, suppress_log. destruct (count_suppressed _) as [n r].
    destruct (slip_decision _ _); intros [= <- <-]; unfold stage_log; simpl; rewrite ?Hsent.
    + rewrite app_nil_r. by exists ul.
    + by apply log_dropped.
    + eapply (log_sent _ (env_of (t_transport t))); [done|done|by right].
  - intros (ul & -> & Hul). destruct Hst as (Hsent & Hi & _). unfold deliver.
    destruct (s_store s !! current s) as [z|] eqn:Ez; [|done]. cbn [mbind option_bind].
    assert (payload_wf z) as Hp by (apply (shared_wf_lookup s _ z Hs) in Ez; by apply (cwf_params _ Ez)).
    destruct (send_spec (t_transport t) z reply (t_request t) (is_tcp info) Hp) as (r & -> & _).
    intros [= <- <-]. unfold stage_log. simpl. rewrite Hsent. simpl.
    pose proof (log_sent querylog (env_of (t_transport t)) (t_request t) info ul [] r Hi Hul) as H.
    rewrite app_nil_r in H. apply H. by left.
  - intros Hl [= <- <-]. unfold stage_log, conclude_request. destruct g as [[i|reason]|]; [| |by inversion Hl].
    + simpl. rewrite !app_nil_r. by eapply log_answered.
    + eapply (log_refused _ (env_of (t_transport t))); [exact Hl|done|done].
  - done.
  - done.
Qed.

Lemma cancel_stage_log querylog t s t' s' lines :
  stage_log querylog lines t → cancel t s = Some (t', s') → stage_log querylog lines t'.
Proof.
  unfold stage_log at 1, cancel. destruct (t_stage t) as [| | |j up dl| | | | |g| |]; try done.
  - intros -> [= <- _]. by left.
  - intros ->. destruct (client s _ _); [|done]. intros [= <- _]. right. left. by eexists.
  - intros Hl [= <- _]. right. right. by eexists.
Qed.

(** ** Over a run *)

(** The [i]-th request, as it arrived, has logged [lines]. *)
Definition logged (querylog : bool) (i : nat) (request : Request)
    (transport : Response → result ResponseInfo bytes) (lines : list LogLine) (s : System) : Prop :=
  ∃ t, sys_threads s !! i = Some t ∧ t_request t = request ∧ t_transport t = transport ∧
    stage_log querylog lines t.

Lemma exec_logged path querylog i request transport lines l s s' :
  sys_inv s → logged querylog i request transport lines s → exec path l s = Some s' →
  logged querylog i request transport (lines ++ step_lines querylog i l s) s'.
Proof.
  intros [Hs Hts] (t & Hi & Hr & Ht & Hl) He.
  assert (∀ sh ts, sys_threads s `prefix_of` ts →
    logged querylog i request transport (lines ++ []) (mkSystem sh ts)) as Hsame.
  { intros sh ts Hp. exists t. rewrite app_nil_r. split; [by eapply prefix_lookup_Some|done]. }
  destruct l as [now|request' transport'|k ch|k|read|kind instant]; simpl in He |- *.
  - case_match; [|done]. injection He as <-. by apply Hsame.
  - injection He as <-. apply Hsame. by apply prefix_app_r.
  - apply on_thread_Some in He as (tk & t' & sh' & Hk & Ha & ->). case_bool_decide as Hik.
    + subst k. rewrite Hi in Hk |- *. injection Hk as <-. exists t'. simpl.
      rewrite list_lookup_insert_eq by by eapply lookup_lt_Some.
      destruct (advance_frame _ _ _ _ _ Ha) as (Hr' & Ht' & _). split; [done|]. split; [congruence|]. split; [congruence|].
      eapply advance_stage_log; [done| |done|done]. by eapply (Forall_lookup_1 _ _ i).
    + exists t. rewrite app_nil_r. simpl. by rewrite list_lookup_insert_ne.
  - apply on_thread_Some in He as (tk & t' & sh' & Hk & Ha & ->). rewrite app_nil_r.
    destruct (base.decide (i = k)) as [<-|Hik].
    + rewrite Hi in Hk. injection Hk as <-. exists t'. simpl.
      rewrite list_lookup_insert_eq by by eapply lookup_lt_Some.
      pose proof (cancel_stage_log _ _ _ _ _ _ Hl Ha). by apply cancel_frame in Ha as (-> & _).
    + exists t. simpl. by rewrite list_lookup_insert_ne.
  - destruct (result_bind _ _); injection He as <-; [by apply Hsame|]. destruct s. by apply Hsame.
  - injection He as <-. by apply Hsame.
Qed.

Lemma run_logged path querylog i request transport lines ls s s' :
  sys_inv s → logged querylog i request transport lines s → run_labels path ls s = Some s' →
  logged querylog i request transport (lines ++ request_lines querylog path i ls s) s'.
Proof.
  revert lines s. induction ls as [|l ls IH]; intros lines s Hs Hl; simpl.
  { intros [= <-]. by rewrite app_nil_r. }
  destruct (exec path l s) as [y|] eqn:E; [|done]. simpl. intros Hr. rewrite app_assoc.
  apply IH; [by eapply exec_inv|by eapply exec_logged|done].
Qed.

Lemma request_lines_app querylog path i ls ls' s s' :
  run_labels path ls s = Some s' →
  request_lines querylog path i (ls ++ ls') s =
    request_lines querylog path i ls s ++ request_lines querylog path i ls' s'.
Proof.
  revert s. induction ls as [|l ls IH]; intros s; simpl; [by intros [= <-]|].
  destruct (exec path l s) as [y|]; [|done]. simpl. intros Hr. by rewrite (IH y Hr), app_assoc.
Qed.

Lemma exec_threads_grow path l s s' :
  exec path l s = Some s' → (length (sys_threads s) <= length (sys_threads s'))%nat.
Proof.
  destruct l as [now|request transport|i ch|i|read|kind instant]; simpl.
  - case_match; [|done]. by intros [= <-].
  - intros [= <-]. simpl. rewrite length_app. lia.
  - intros (? & ? & ? & _ & _ & ->)%on_thread_Some. simpl. by rewrite length_insert.
  - intros (? & ? & ? & _ & _ & ->)%on_thread_Some. simpl. by rewrite length_insert.
  - destruct (result_bind _ _); by intros [= <-].
  - by intros [= <-].
Qed.

(** A request logs nothing before it arrives. *)
Lemma no_lines querylog path i ls s s' :
  run_labels path ls s = Some s' → (length (sys_threads s') <= i)%nat →
  request_lines querylog path i ls s = [].
Proof.
  intros Hr Hi. assert (∀ ls s, run_labels path ls s = Some s' → (length (sys_threads s) <= length (sys_threads s'))%nat) as Hle.
  { clear Hr ls s. induction ls as [|l ls IH]; intros s; [by intros [= <-]|]. simpl.
    destruct (exec path l s) as [y|] eqn:E; [|done]. intros H%IH. apply exec_threads_grow in E. lia. }
  revert s Hr. induction ls as [|l ls IH]; intros s; [done|]. simpl.
  destruct (exec path l s) as [y|] eqn:E; [|done]. simpl. intros Hr. rewrite (IH y Hr), app_nil_r.
  apply Hle in Hr. apply exec_threads_grow in E. unfold step_lines. destruct l; try done. case_bool_decide; [|done].
  by rewrite (proj2 (lookup_ge_None (sys_threads s) i)) by lia.
Qed.

(** Every request of a run from the start. *)
Lemma start_logged querylog path st now ls s i t :
  config_wf (config (st_zones st)) → run_labels path ls (start st now) = Some s →
  sys_threads s !! i = Some t →
  stage_log querylog (request_lines querylog path i ls (start st now)) t.
Proof.
  intros Hc. revert s t. induction ls as [|l ls IH] using rev_ind; intros s t; [by intros [= <-]|].
  rewrite run_app. destruct (run_labels path ls (start st now)) as [y|] eqn:Ey; [|done]. simpl.
  destruct (exec path l y) as [z|] eqn:Ez; [|done]. intros [= ->] Hi.
  rewrite (request_lines_app _ _ _ _ _ _ y Ey). simpl. rewrite Ez, app_nil_r.
  destruct (sys_threads y !! i) as [t0|] eqn:Hy.
  - destruct (exec_logged path querylog i (t_request t0) (t_transport t0)
      (request_lines querylog path i ls (start st now)) l y s) as (t1 & H1 & _ & _ & Hl); [| |done|congruence].
    + by eapply run_inv; [apply start_inv|].
    + exists t0. split; [done|]. do 2 (split; [done|]). by apply (IH y).
  - rewrite (no_lines _ _ _ _ _ _ Ey) by by apply lookup_ge_None. unfold step_lines.
    assert (t_stage t = AtStart ∧ ∃ request transport, l = LArrive request transport) as [Ht (request & transport & ->)].
    { destruct l as [now'|request transport|k ch|k|read|kind instant]; simpl in Ez.
      - case_match; [|done]. injection Ez as <-. simpl in Hi. congruence.
      - injection Ez as <-. simpl in Hi. apply lookup_ge_None in Hy. rewrite lookup_app_r in Hi by done.
        apply list_lookup_singleton_Some in Hi as [_ <-]. split; [done|]. by eexists _, _.
      - apply on_thread_Some in Ez as (? & ? & ? & _ & _ & ->). simpl in Hi. apply lookup_lt_Some in Hi.
        rewrite length_insert in Hi. apply lookup_ge_None in Hy. lia.
      - apply on_thread_Some in Ez as (? & ? & ? & _ & _ & ->). simpl in Hi. apply lookup_lt_Some in Hi.
        rewrite length_insert in Hi. apply lookup_ge_None in Hy. lia.
      - destruct (result_bind _ _); injection Ez as <-; simpl in Hi; congruence.
      - injection Ez as <-. simpl in Hi. congruence. }
    unfold stage_log. by rewrite Ht.
Qed.

(** Of no request in flight a panic is logged, or a question that is not to be. *)
Lemma inner_log_quiet querylog e request lines s :
  inner_log querylog e request lines s →
  existsb is_panic lines = false ∧ (querylog = false → existsb is_info lines = false).
Proof.
  intros [reason _|info up lim r _ Hup Hlim|info up i _ Hup]; [done|..]; rewrite !existsb_app;
    rewrite !(upstream_none _ up) by (done || by intros []); destruct querylog; simpl; try done;
    by destruct Hlim as [->| ->].
Qed.

Lemma stage_log_quiet querylog lines t :
  stage_log querylog lines t →
  existsb is_panic lines = false ∧ (querylog = false → existsb is_info lines = false).
Proof.
  assert (∀ info, existsb is_panic (query_lines querylog info) = false ∧
    (querylog = false → existsb is_info (query_lines querylog info) = false)) as Hq.
  { intros info. split; [by destruct querylog|by intros ->]. }
  assert (∀ info, looked_up querylog info lines → existsb is_panic lines = false ∧
    (querylog = false → existsb is_info lines = false)) as Hu.
  { intros info (up & -> & Hup). rewrite !existsb_app.
    rewrite !(upstream_none _ up) by (done || by intros []). rewrite !orb_false_r. apply Hq. }
  unfold stage_log. destruct (t_stage t); try (intros ->; done); try apply Hu.
  - apply inner_log_quiet.
  - intros H%request_log_truthful. by destruct H.
  - intros [->|[(info & ->)|(s & H)]]; [done|apply Hq|by eapply inner_log_quiet].
Qed.

(** C23.  The log of the running server.  Whatever else happens at the same time,
    when a request is finished its lines tell what was done: its question, once, if
    query logging is on, a dropped response exactly if nothing was sent, a
    rejection exactly if it could not be decoded or its first response not be sent;
    at most five lines.  And at no time is a panic logged, or a line of level INFO
    without query logging. *)
Theorem interleaved_log_truthful (querylog : bool) (cli : Cli) (read : FileResult) (c : Config)
    (l : list ListenAddr) (st : ServerState) (now : N) (ls ls' : list Label) (s s' : System)
    (request : Request) (transport : Response → result ResponseInfo bytes) :
  load_config (cli_config cli) read = Ok c → serve_state cli c = Ok (l, st) →
  run_labels (cli_config cli) ls (start st now) = Some s →
  run_labels (cli_config cli) (LArrive request transport :: ls') s = Some s' →
  let i := length (sys_threads s) in
  let lines := request_lines querylog (cli_config cli) i (LArrive request transport :: ls') s in
  ∃ t, sys_threads s' !! i = Some t ∧
    existsb is_panic lines = false ∧ (querylog = false → existsb is_info lines = false) ∧
    (∀ x, t_stage t = Finished x → truthful querylog transport request lines (t_sent t)).
Proof.
  intros Hload%load_config_wf (_ & Hz & _)%serve_state_inv Hr1 Hr2. cbv zeta. rewrite <- Hz in Hload.
  pose proof (run_inv _ _ _ _ (start_inv st now Hload) Hr1) as Hinv.
  cbn [run_labels exec mbind option_bind request_lines step_lines app] in Hr2 |- *.
  set (s0 := mkSystem _ _) in *.
  assert (sys_inv s0) as H0 by by eapply (exec_inv (cli_config cli) (LArrive request transport) s).
  assert (logged querylog (length (sys_threads s)) request transport [] s0) as Hl.
  { eexists. split; [by apply list_lookup_middle|done]. }
  destruct (run_logged _ _ _ _ _ _ _ _ _ H0 Hl Hr2) as (t & Hi & <- & <- & Ht). simpl in Ht.
  exists t. split; [done|]. pose proof (stage_log_quiet _ _ _ Ht) as [H1 H2]. do 2 (split; [done|]).
  intros x Hx. unfold stage_log in Ht. rewrite Hx in Ht. by apply request_log_truthful in Ht.
Qed.
End Lines.

(** ** Instance *)

#[local] Existing Instance LabelName.ops.
#[local] Existing Instance LabelName.laws.
#[local] Existing Instance EchoResolver.ops.
#[local] Existing Instance TokenBucket.ops.
#[local] Existing Instance EchoMessages.ops.
#[local] Existing Instance EchoMessages.laws.

(** A question while another request waits for an upstream, over a transport that
    is gone. *)
Definition gone_transport (_ : Response) : result ResponseInfo bytes := Err (bs "unreachable").

Definition gone_steps : list Label :=
  [LAdvance 1 silence; LSweep AnswerKind 5; LAdvance 1 silence; LAdvance 1 silence; LTick (from_millis 300);
   LAdvance 1 override_choice; LAdvance 0 silence; LAdvance 1 silence; LAdvance 1 silence;
   LAdvance 1 silence; LAdvance 1 silence].

Definition gone_system : System :=
  run_sample (first_waits ++ LArrive (ConcurrentSpec.ptr_request true) gone_transport :: gone_steps).

Lemma interleaved_log_truthful_witness :
  let s := run_sample first_waits in
  let lines := request_lines true (cli_config sample_cli) 1
                 (LArrive (ConcurrentSpec.ptr_request true) gone_transport :: gone_steps) s in
  (severity <$> lines) = [INFO; WARN; WARN] ∧
  ∃ t, sys_threads gone_system !! 1%nat = Some t ∧
    existsb is_panic lines = false ∧ (true = false → existsb is_info lines = false) ∧
    (∀ x, t_stage t = Finished x →
       truthful true gone_transport (ConcurrentSpec.ptr_request true) lines (t_sent t)).
Proof.
  cbv zeta. split; [vm_refl|].
  apply (interleaved_log_truthful true sample_cli (Ok sample_input) sample_config [mkListenAddr (V6 1) 5353]
    sample_start 0 first_waits gone_steps (run_sample first_waits) gone_system
    (ConcurrentSpec.ptr_request true) gone_transport);
    [vm_refl|vm_refl|apply run_or_runs; vm_refl|apply run_or_continues; vm_refl].
Defined.
