(* ===== verification/ProcessSpec.v ===== *)
(** * Correctness of the process as a whole

    What [main] does, in which order, and with which exit code, for every command
    line and every behaviour of the outside: the order of its own actions, what each
    effect of the tasks beside it must be preceded by, the exit code, the responses
    of the whole program against the contract, and the health check against the
    server it queries. *)

From S2P Require Import Prelude RustText RustNet ConfigError Dns Config ConfigSpec Parse Compile Sample CompileSpec Zones Rrl RrlSpec Upstream UpstreamSpec Handler HandlerSpec Journal Server ServerSpec Contract Concurrent ConcurrentLog Process ConcurrentSpec ConcurrentLogSpec.

Lemma list_nil_or {A} (l : list A) : l = [] ∨ l ≠ [].
Proof. destruct l; [by left|by right]. Qed.

(** Effects given one by one. *)
Ltac placed :=
  repeat first [apply List.Forall_nil | apply List.Forall_cons; [first [by left | by right]|]].

(** An effect of another kind. *)
Ltac inert := split_and!; try done; try (by intros []); try (by intros [|[? ?]]).

Section Main.
Context {D : DnsOps} {R : ResolverOps} {G : LimiterOps} {M : MessageOps} {S : Bind.SocketOps}.
Context {EnvFilter : Type}.

(** ** The order of effects *)

(** The place of what [main] does itself in the life of the process; logging, and what
    the tasks do beside it, have none. *)
Definition place (e : Effect (EnvFilter := EnvFilter)) : option N :=
  match e with
  | InitLogging _ _ => Some 0
  | Sys _ | ProbeBind _ => Some 1
  | RegisterSocket _ | ProbeSend _ _ => Some 2
  | RegisterListener _ _ _ | ProbeWait _ _ => Some 3
  | SpawnSweeper _ => Some 4
  | SpawnReloader => Some 5
  | Install TERMINATE => Some 6
  | Install INTERRUPT => Some 7
  | StopSweeper => Some 8
  | StopReloader => Some 9
  | Shutdown => Some 10
  | Stdout _ | Stderr _ => Some 11
  | Log _ _ _ | Respond _ _ | LogRequest _ _ | Install HANGUP => None
  end.

(** The effects are in order, between two places. *)
Definition ordered (lo hi : N) (es : list (Effect (EnvFilter := EnvFilter))) : Prop :=
  Sorted N.le (omap place es) ∧ Forall (λ p, lo <= p <= hi) (omap place es) ∧ lo <= hi.

Lemma Sorted_app_le (a b : list N) mid :
  Sorted N.le a → Sorted N.le b → Forall (λ p, p <= mid) a → Forall (λ p, mid <= p) b →
  Sorted N.le (a ++ b).
Proof.
  intros Ha Hb Fa Fb. induction a as [|x a IH]; [done|]. simpl.
  apply Sorted_inv in Ha as [Ha Hx]. inversion Fa as [|? ? Hxm Fa']; subst.
  constructor; [by apply IH|]. destruct a as [|y a]; simpl.
  - destruct b as [|z b]; [constructor|]. apply Forall_inv in Fb. constructor. lia.
  - inversion Hx; subst. by constructor.
Qed.

Lemma ordered_app lo mid hi a b : ordered lo mid a → ordered mid hi b → ordered lo hi (a ++ b).
Proof.
  intros (Sa & Fa & La) (Sb & Fb & Lb). unfold ordered. rewrite omap_app.
  split; [|split; [|lia]].
  - apply (Sorted_app_le _ _ mid); [done|done| |].
    + eapply Forall_impl; [exact Fa|]. simpl. lia.
    + eapply Forall_impl; [exact Fb|]. simpl. lia.
  - apply Forall_app. split; [eapply Forall_impl; [exact Fa|]|eapply Forall_impl; [exact Fb|]]; simpl; lia.
Qed.

Lemma ordered_widen lo hi lo' hi' es :
  lo' <= lo → hi <= hi' → ordered lo hi es → ordered lo' hi' es.
Proof.
  intros ? ? (HS & HF & ?). split; [done|]. split; [|lia].
  eapply Forall_impl; [exact HF|]. simpl. lia.
Qed.

Lemma ordered_nil lo : ordered lo lo [].
Proof. split; [constructor|]. split; [constructor|lia]. Qed.

(** Effects of one place only, logging aside. *)
Lemma ordered_same n es :
  Forall (λ e, place e = None ∨ place e = Some n) es → ordered n n es.
Proof.
  intros H. induction H as [|e es He H IH]; [apply ordered_nil|].
  change (e :: es) with ([e] ++ es). apply (ordered_app n n); [|done].
  unfold ordered. cbn [omap list_omap]. destruct He as [-> | ->]; split; try lia; repeat constructor; lia.
Qed.

Lemma ordered_fmap {A} n (f : A → Effect) l :
  (∀ a, place (f a) = None ∨ place (f a) = Some n) → ordered n n (f <$> l).
Proof. intros H. apply ordered_same, Forall_fmap, Forall_true. exact H. Qed.

Definition in_order {A} (lo hi : N) (m : Proc A) : Prop := ordered lo hi (snd m).

Lemma in_order_bind {A B} lo mid hi (m : Proc A) (f : A → Proc B) :
  in_order lo mid m → mid <= hi → (∀ a, fst m = Ok a → in_order mid hi (f a)) → in_order lo hi (proc_bind m f).
Proof.
  unfold in_order, proc_bind. destruct m as [[a|e] es]; simpl; intros Hm Hle Hf.
  - specialize (Hf a eq_refl). destruct (f a) as [r es']. by apply (ordered_app lo mid).
  - revert Hm. by apply ordered_widen; [lia|].
Qed.

Lemma in_order_tell lo hi es : ordered lo hi es → in_order lo hi (tell es).
Proof. done. Qed.

Lemma in_order_lift {A} lo (r : result A bytes) : in_order lo lo (lift r).
Proof. apply ordered_nil. Qed.

Lemma serve_actions_order w st bound : in_order 2 10 (serve_actions (EnvFilter := EnvFilter) w st bound).
Proof.
  unfold serve_actions.
  apply (in_order_bind 2 2 10); [by apply in_order_tell, ordered_fmap; left|done|intros _ _].
  apply (in_order_bind 2 2 10); [|done|intros _ _].
  { apply in_order_tell, ordered_same. destruct (Rrl_enabled _); placed. }
  apply (in_order_bind 2 2 10); [by apply in_order_tell, ordered_fmap; right|done|intros _ _].
  apply (in_order_bind 2 3 10); [|done|intros _ _].
  { apply in_order_tell, (ordered_widen 3 3); [done|done|]. by apply ordered_fmap; right. }
  apply (in_order_bind 3 5 10); [|done|intros _ _].
  { split; [|split; [|done]]; repeat constructor; simpl; lia. }
  apply (in_order_bind 5 6 10); [apply (ordered_widen 6 6); [done|done|]; apply (ordered_same 6); placed|done|intros _ _].
  apply (in_order_bind 6 7 10); [apply (ordered_widen 7 7); [done|done|]; apply (ordered_same 7); placed|done|intros _ _].
  assert (Forall (λ e, place e = None) (snd (stopped (EnvFilter := EnvFilter) (w_stop w)))) as Hn.
  { destruct (w_stop w); by repeat constructor. }
  destruct (stopped (w_stop w)) as [outcome note].
  apply (in_order_bind 7 10 10); [|done|intros _ _; apply in_order_lift].
  apply in_order_tell, (ordered_app 7 7); [apply ordered_same; eapply Forall_impl; [exact Hn|auto]|].
  split; [|split; [|done]]; repeat constructor; simpl; lia.
Qed.

(** *** What the tasks do has no place *)

Lemma reload_log_place path read :
  Forall (λ e, place e = None) (reload_log (EnvFilter := EnvFilter) path read).
Proof.
  unfold reload_log. destruct (result_bind _ _); [|by repeat constructor].
  apply Forall_app. split; [apply Forall_fmap, Forall_true; done|by repeat constructor].
Qed.

Lemma newly_sent_about l s s' (P : Effect → Prop) :
  (∀ i r, P (Respond i r)) → Forall P (newly_sent (EnvFilter := EnvFilter) l s s').
Proof.
  intros H. unfold newly_sent. destruct l as [|? ?|i ch| | |]; try constructor.
  destruct (sys_threads s !! i), (sys_threads s' !! i); try constructor. apply Forall_fmap, Forall_true. intros r. apply H.
Qed.

Lemma request_log_about querylog l s (P : Effect → Prop) :
  (∀ i x, P (LogRequest i x)) →
  Forall P (begun_log (EnvFilter := EnvFilter) querylog l s) ∧ Forall P (ended_log (EnvFilter := EnvFilter) l s).
Proof.
  intros H. unfold begun_log, ended_log. destruct l as [|? ?|i ch| | |]; try by split; constructor.
  destruct (sys_threads s !! i); split; try constructor; apply Forall_fmap, Forall_true; intros x; apply H.
Qed.

Lemma happen_place w cli ev b : Forall (λ e, place e = None) (fst (happen (EnvFilter := EnvFilter) w cli ev b)).
Proof.
  destruct ev as [l|]; simpl.
  - destruct (can_happen l b); [|constructor]. destruct (exec _ l (sys b)) as [s|]; [|constructor]. cbn [fst].
    destruct (request_log_about (querylog cli) l (sys b) (λ e, place e = None)) as [Hb He]; [done|].
    rewrite !Forall_app. split_and!; [|done|by apply newly_sent_about|done].
    destruct l; try constructor. apply reload_log_place.
  - unfold start_reloader. destruct (reloader b); try constructor. destruct (w_signal w HANGUP); by repeat constructor.
Qed.

Lemma live_place w cli evs b : Forall (λ e, place e = None) (fst (live (EnvFilter := EnvFilter) w cli evs b)).
Proof.
  revert b. induction evs as [|ev evs IH]; intros b; [constructor|]. simpl.
  pose proof (happen_place w cli ev b) as H. destruct (happen w cli ev b) as [es b1]. specialize (IH b1).
  destruct (live w cli evs b1) as [es' b2]. by apply Forall_app.
Qed.

Lemma omap_none {A B} (f : A → option B) l : Forall (λ a, f a = None) l → omap f l = [].
Proof. induction 1 as [|a l Ha _ IH]; [done|]. simpl. by rewrite Ha. Qed.

Lemma interleave_place w cli es evs b :
  omap place (interleave (EnvFilter := EnvFilter) w cli es evs b) = omap place es.
Proof.
  revert evs b. induction es as [|e es IH]; intros evs b; [done|]. cbn [interleave].
  pose proof (live_place w cli (default [] (head evs)) (set_off e b)) as H. destruct (live _ _ _ _) as [es' b']. cbn [fst] in H.
  simpl. rewrite omap_app, (omap_none _ _ H), IH. by destruct (place e).
Qed.

Lemma serve_bound_order w cli st bound : in_order 2 10 (serve_bound (EnvFilter := EnvFilter) w cli st bound).
Proof.
  pose proof (serve_actions_order w st bound) as H. unfold in_order, ordered, serve_bound in *.
  destruct (serve_actions w st bound) as [r es]. cbn [snd] in *. by rewrite interleave_place.
Qed.

Lemma run_process_order w cli : in_order 1 11 (run_process w cli).
Proof.
  unfold run_process.
  apply (in_order_bind 1 1 11); [apply in_order_lift|done|intros _ _].
  apply (in_order_bind 1 1 11); [apply in_order_lift|done|intros a _].
  destruct a as [port|err out|c]; simpl.
  - apply (ordered_widen 1 3); [done|done|]. unfold probe.
    apply (in_order_bind 1 1 3); [apply in_order_lift|done|intros payload _].
    apply (in_order_bind 1 1 3); [apply (ordered_same 1); placed|done|intros _ _].
    apply (in_order_bind 1 2 3).
    { apply (ordered_widen 2 2); [done|done|]. apply (ordered_same 2). placed. }
    { done. }
    intros _ _. apply (in_order_bind 2 3 3); [|done|intros _ _; apply in_order_lift].
    apply (ordered_widen 3 3); [done|done|]. apply (ordered_same 3). placed.
  - apply (ordered_widen 11 11); [done|done|]. apply ordered_same, Forall_app. split.
    + apply Forall_fmap, Forall_true. by right.
    + placed.
  - apply (ordered_widen 1 10); [done|done|]. unfold serve.
    apply (in_order_bind 1 1 10); [by apply in_order_tell, ordered_fmap; left|done|intros _ _].
    apply (in_order_bind 1 1 10); [apply in_order_lift|done|intros [l st] _].
    apply (in_order_bind 1 2 10); [|done|intros bound _; apply serve_bound_order].
    apply (ordered_widen 1 1); [done|done|]. unfold in_order, bind_sockets.
    destruct (Bind.bind_all _ _ _) as [r calls]. by apply ordered_fmap; right.
Qed.
(** ** What is sent *)

(** The responses sent, each with the number of its request, and those of one
    request. *)
Definition sends_of (es : list (Effect (EnvFilter := EnvFilter))) : list (nat * Response) :=
  omap (λ e, match e with Respond i r => Some (i, r) | _ => None end) es.

Definition sent_to (i : nat) (l : list (nat * Response)) : list Response :=
  omap (λ p, if base.decide (fst p = i) then Some (snd p) else None) l.

(** The lines logged for one request. *)
Definition lines_to (i : nat) (es : list (Effect (EnvFilter := EnvFilter))) : list LogLine :=
  omap (λ e, match e with LogRequest k l => if base.decide (k = i) then Some l else None | _ => None end) es.

(** What concerns requests: responses and their log. *)
Definition traffic_of (es : list (Effect (EnvFilter := EnvFilter))) : list (Effect (EnvFilter := EnvFilter)) :=
  List.filter (λ e, match e with Respond _ _ | LogRequest _ _ => true | _ => false end) es.

(** What a request has sent, in a state of the server. *)
Definition outbox (i : nat) (s : System) : list Response := default [] (t_sent <$> sys_threads s !! i).

Lemma sends_of_app a b : sends_of (a ++ b) = sends_of a ++ sends_of b.
Proof. apply omap_app. Qed.

Lemma sent_to_app i a b : sent_to i (a ++ b) = sent_to i a ++ sent_to i b.
Proof. apply omap_app. Qed.

Lemma lines_to_app i a b : lines_to i (a ++ b) = lines_to i a ++ lines_to i b.
Proof. apply omap_app. Qed.

Lemma traffic_of_app a b : traffic_of (a ++ b) = traffic_of a ++ traffic_of b.
Proof. apply List.filter_app. Qed.

Lemma traffic_of_none {A} (f : A → Effect) l :
  (∀ a, traffic_of [f a] = []) → traffic_of (f <$> l) = [].
Proof.
  intros H. induction l as [|a l IH]; [done|]. rewrite fmap_cons.
  change (f a :: (f <$> l)) with ([f a] ++ (f <$> l)). by rewrite traffic_of_app, H, IH.
Qed.

Lemma sends_of_traffic es : sends_of (traffic_of es) = sends_of es.
Proof.
  induction es as [|e es IH]; [done|]. change (e :: es) with ([e] ++ es).
  rewrite traffic_of_app, !sends_of_app, IH. by destruct e.
Qed.

Lemma lines_to_traffic i es : lines_to i (traffic_of es) = lines_to i es.
Proof.
  induction es as [|e es IH]; [done|]. change (e :: es) with ([e] ++ es).
  rewrite traffic_of_app, !lines_to_app, IH. by destruct e.
Qed.

Lemma no_traffic es : traffic_of es = [] → sends_of es = [] ∧ ∀ i, lines_to i es = [].
Proof.
  intros H. split; [by rewrite <- sends_of_traffic, H|]. intros i. by rewrite <- lines_to_traffic, H.
Qed.

Lemma sends_of_sent i k (rs : list Response) :
  sent_to i (sends_of (Respond k <$> rs)) = if base.decide (k = i) then rs else [].
Proof.
  induction rs as [|r rs IH]; [by destruct (base.decide _)|]. rewrite fmap_cons. cbn.
  destruct (base.decide (k = i)); [by f_equal|done].
Qed.

Lemma lines_to_lines i k (ls : list LogLine) :
  lines_to i (LogRequest k <$> ls) = if base.decide (k = i) then ls else [].
Proof.
  induction ls as [|l ls IH]; [by destruct (base.decide _)|]. rewrite fmap_cons. cbn.
  destruct (base.decide (k = i)); [by f_equal|done].
Qed.

Lemma lines_to_sent i k (rs : list Response) : lines_to i (Respond k <$> rs) = [].
Proof. by induction rs. Qed.

Lemma sends_of_lines k (ls : list LogLine) : sends_of (LogRequest k <$> ls) = [].
Proof. by induction ls. Qed.

Lemma step_log_traffic path l : traffic_of (step_log path l) = [].
Proof.
  destruct l; try done. unfold step_log, reload_log. destruct (result_bind _ _); [|done].
  by rewrite traffic_of_app, traffic_of_none.
Qed.

(** A step sends what it adds to the outbox of its request, and nothing else. *)
Lemma exec_outbox path l s s' i :
  exec path l s = Some s' → outbox i s' = outbox i s ++ sent_to i (sends_of (newly_sent l s s')).
Proof.
  assert (∀ ts : list Thread, ts = sys_threads s → default [] (t_sent <$> ts !! i) = outbox i s ++ []) as Hsame.
  { intros ts ->. by rewrite app_nil_r. }
  destruct l as [now|request transport|k ch|k|read|kind instant]; simpl; unfold outbox.
  - destruct (_ <=? _); [|done]. intros [= <-]. by apply Hsame.
  - intros [= <-]. simpl. rewrite app_nil_r. destruct (sys_threads s !! i) as [t|] eqn:E.
    + by rewrite (lookup_app_l_Some _ _ _ _ E).
    + apply lookup_ge_None in E. rewrite lookup_app_r by done. by destruct (i - _)%nat as [|[]].
  - intros (t & t' & sh & Hk & Ha & ->)%on_thread_Some. apply advance_sent in Ha as [new Hnew].
    simpl. rewrite Hk. pose proof (lookup_lt_Some _ _ _ Hk) as Hlt.
    rewrite list_lookup_insert_eq by done. rewrite Hnew, drop_app_length, sends_of_sent.
    destruct (base.decide (k = i)) as [->|Hne].
    + by rewrite list_lookup_insert_eq, Hk by done.
    + rewrite list_lookup_insert_ne by done. by rewrite app_nil_r.
  - intros (t & t' & sh & Hk & Ha & ->)%on_thread_Some. apply cancel_frame in Ha as (-> & _).
    simpl. rewrite app_nil_r. pose proof (lookup_lt_Some _ _ _ Hk) as Hlt. destruct (base.decide (k = i)) as [->|Hne].
    + by rewrite list_lookup_insert_eq, Hk by done.
    + by rewrite list_lookup_insert_ne by done.
  - destruct (result_bind _ _); intros [= <-]; by apply Hsame.
  - intros [= <-]. by apply Hsame.
Qed.

Lemma request_log_sends querylog l s : sends_of (begun_log querylog l s) = [] ∧ sends_of (ended_log l s) = [].
Proof.
  unfold begun_log, ended_log. destruct l as [|? ?|i ch| | |]; try done.
  destruct (sys_threads s !! i); split; try done; apply sends_of_lines.
Qed.

(** The lines of a step, for each request. *)
Lemma exec_lines querylog i l s s' :
  lines_to i (begun_log querylog l s ++ newly_sent l s s' ++ ended_log l s) = step_lines querylog i l s.
Proof.
  rewrite !lines_to_app. unfold begun_log, newly_sent, ended_log, step_lines.
  destruct l as [|? ?|k ch| | |]; try done.
  assert (lines_to i (match sys_threads s !! k, sys_threads s' !! k with
    | Some t, Some t' => Respond k <$> drop (length (t_sent t)) (t_sent t') | _, _ => [] end) = []) as ->.
  { destruct (sys_threads s !! k), (sys_threads s' !! k); try done. apply lines_to_sent. }
  case_bool_decide as Hik; [subst k|]; destruct (sys_threads s !! _) as [t|]; try done;
    rewrite !lines_to_lines; destruct (base.decide _); done.
Qed.

(** The signals the reloader hears. *)
Definition hears (w : World (EnvFilter := EnvFilter)) : bool :=
  match w_signal w HANGUP with Ok _ => true | Err _ => false end.

(** Without a SIGHUP handler the reloader has returned, and nothing is reloaded. *)
Definition heard (hup : bool) (ev : TaskEvent) : list Label :=
  match ev with
  | Happens (LHangup read) => if hup then [LHangup read] else []
  | Happens l => [l]
  | ReloaderRuns => []
  end.

Definition heard_labels (w : World (EnvFilter := EnvFilter)) : list Label :=
  concat (w_events w) ≫= heard (hears w).

(** The reloader waits only for signals that it hears. *)
Definition attentive (w : World (EnvFilter := EnvFilter)) (b : Running) : Prop :=
  reloader b = Listening → hears w = true.

(** These events are a run over some of the labels, and what they send and log is
    what its steps add to the outboxes and log. *)
Definition ran (w : World (EnvFilter := EnvFilter)) (cli : Cli) (labels : list Label)
    (b : Running) (es : list (Effect (EnvFilter := EnvFilter))) (b' : Running) : Prop :=
  attentive w b' ∧
  ∃ taken, taken `sublist_of` labels ∧ run_labels (cli_config cli) taken (sys b) = Some (sys b') ∧
    ∀ i, outbox i (sys b') = outbox i (sys b) ++ sent_to i (sends_of es) ∧
      lines_to i es = request_lines (querylog cli) (cli_config cli) i taken (sys b).

Lemma ran_nothing w cli labels b es b' :
  attentive w b' → sys b' = sys b → traffic_of es = [] → ran w cli labels b es b'.
Proof.
  intros Ha Hs Ht. split; [done|]. exists []. split; [apply sublist_nil_l|]. rewrite Hs. split; [done|].
  intros i. destruct (no_traffic _ Ht) as [-> Hl]. split; [by rewrite app_nil_r|apply Hl].
Qed.

Lemma ran_app w cli l1 l2 b es b1 es' b2 :
  ran w cli l1 b es b1 → ran w cli l2 b1 es' b2 → ran w cli (l1 ++ l2) b (es ++ es') b2.
Proof.
  intros [_ (t1 & Hs1 & Hr1 & Ho1)] [Ha (t2 & Hs2 & Hr2 & Ho2)]. split; [done|]. exists (t1 ++ t2).
  split; [by apply sublist_app|]. split; [by rewrite run_app, Hr1|]. intros i.
  destruct (Ho1 i) as [E3 E4], (Ho2 i) as [E5 E6]. rewrite E5, E3, sends_of_app, sent_to_app, lines_to_app, E4, E6.
  split; [by rewrite app_assoc|]. by rewrite (request_lines_app _ _ _ _ _ _ _ Hr1).
Qed.

Lemma happen_ran w cli ev b :
  attentive w b → let '(es, b') := happen w cli ev b in ran w cli (heard (hears w) ev) b es b'.
Proof.
  intros Ha. destruct ev as [l|]; unfold happen.
  2:{ destruct (reloader b) eqn:Er; try by apply ran_nothing.
      unfold start_reloader. destruct (w_signal w HANGUP) eqn:Eh; apply ran_nothing; try done.
      intros _. unfold hears. by rewrite Eh. }
  destruct (can_happen l b) eqn:Ec; [|by apply ran_nothing].
  destruct (exec _ l (sys b)) as [s|] eqn:E; [|by apply ran_nothing].
  split; [done|]. exists [l]. split; [|split].
  - unfold heard. destruct l; try done. simpl in Ec. unfold attentive in Ha.
    destruct (reloader b); try done. by rewrite Ha.
  - simpl. by rewrite E.
  - intros i. destruct (request_log_sends (querylog cli) l (sys b)) as [E1 E2].
    destruct (no_traffic _ (step_log_traffic (cli_config cli) l)) as [E3 E4]. split.
    + change (sys (set_sys s b)) with s. by rewrite (exec_outbox _ _ _ _ i E), !sends_of_app, E1, E2, E3, !app_nil_l, app_nil_r.
    + rewrite lines_to_app, E4, app_nil_l, (exec_lines (querylog cli) i l (sys b) s).
      simpl. rewrite E. simpl. by rewrite app_nil_r.
Qed.

Lemma live_ran w cli evs b :
  attentive w b → let '(es, b') := live w cli evs b in ran w cli (evs ≫= heard (hears w)) b es b'.
Proof.
  revert b. induction evs as [|ev evs IH]; intros b Ha; [by apply ran_nothing|]. cbn [live].
  pose proof (happen_ran w cli ev b Ha) as H. destruct (happen w cli ev b) as [es b1].
  specialize (IH b1 (proj1 H)). destruct (live w cli evs b1) as [es' b2]. by apply (ran_app _ _ _ _ _ _ b1).
Qed.

(** Actions of [serve] itself: no traffic of their own. *)
Lemma interleave_ran w cli es evs b :
  attentive w b → Forall (λ e, traffic_of [e] = []) es →
  ∃ b', ran w cli (concat evs ≫= heard (hears w)) b (interleave w cli es evs b) b'.
Proof.
  intros Ha Hes. revert evs b Ha. induction Hes as [|e es He _ IH]; intros evs b Ha.
  { exists b. by apply ran_nothing. }
  cbn [interleave]. assert (attentive w (set_off e b)) as Ha0 by (by destruct e).
  pose proof (live_ran w cli (default [] (head evs)) _ Ha0) as H. destruct (live _ _ _ _) as [meanwhile b1].
  destruct (IH (tail evs) b1 (proj1 H)) as [b' H']. exists b'.
  assert (concat evs = default [] (head evs) ++ concat (tail evs)) as -> by (by destruct evs).
  rewrite bind_app. assert (∀ rest, e :: meanwhile ++ rest = [e] ++ meanwhile ++ rest) as -> by done.
  apply (ran_app _ _ [] _ _ [e] (set_off e b)); [by apply ran_nothing; [| by destruct e|]|].
  by apply (ran_app _ _ _ _ _ _ b1).
Qed.

Lemma interleave_incl w cli es evs b (e : Effect (EnvFilter := EnvFilter)) :
  e ∈ es → e ∈ interleave w cli es evs b.
Proof.
  revert evs b. induction es as [|x es IH]; intros evs b; [by rewrite elem_of_nil|]. cbn [interleave].
  destruct (live _ _ _ _) as [meanwhile b1]. rewrite !elem_of_cons, elem_of_app.
  intros [->|He]; [by left|]. right. right. by apply IH.
Qed.

(** The sockets are all handed to the server. *)
Definition registered (bound : Bind.Bound) (es : list (Effect (EnvFilter := EnvFilter))) : Prop :=
  (∀ s, s ∈ Bind.udp bound → RegisterSocket s ∈ es) ∧
  (∀ s, s ∈ Bind.tcp bound → RegisterListener s TCP_IDLE TCP_RESPONSE_BUFFER ∈ es).

(** What [serve] does itself: it opens, starts and stops. *)
Inductive own_action : Effect (EnvFilter := EnvFilter) → Prop :=
  | own_listening a : own_action (listening a)
  | own_limiting p : own_action (limiting p)
  | own_socket s : own_action (RegisterSocket s)
  | own_listener s : own_action (RegisterListener s TCP_IDLE TCP_RESPONSE_BUFFER)
  | own_sweeper : own_action (SpawnSweeper RRL_SWEEP_INTERVAL)
  | own_reloader : own_action SpawnReloader
  | own_terminate : own_action (Install TERMINATE)
  | own_interrupt : own_action (Install INTERRUPT)
  | own_note s e : e ∈ snd (stopped s) → own_action e
  | own_stop e : e ∈ [StopSweeper; StopReloader; Shutdown] → own_action e.

(** The reloader is not spawned again. *)
Fixpoint spawns_once (es : list (Effect (EnvFilter := EnvFilter))) : Prop :=
  match es with
  | [] => True
  | e :: es => (e = SpawnReloader → SpawnReloader ∉ es) ∧ spawns_once es
  end.

Lemma spawns_once_app a b : SpawnReloader ∉ a → spawns_once b → spawns_once (a ++ b).
Proof.
  intros Ha Hb. induction a as [|e a IH]; [done|]. apply not_elem_of_cons in Ha as [He Ha].
  split; [by intros ->|by apply IH].
Qed.

Lemma serve_actions_own w st bound :
  Forall own_action (snd (serve_actions w st bound)) ∧ registered bound (snd (serve_actions w st bound)) ∧
  spawns_once (snd (serve_actions w st bound)).
Proof.
  unfold serve_actions. set (opening := _ <$> Bind.addrs bound). set (limits := if Rrl_enabled _ then _ else _).
  set (us := _ <$> Bind.udp bound). set (ts := _ <$> Bind.tcp bound).
  assert (∀ rest, Forall own_action rest → SpawnReloader ∉ rest →
    let es := opening ++ limits ++ us ++ ts ++ [SpawnSweeper RRL_SWEEP_INTERVAL; SpawnReloader] ++ rest in
    Forall own_action es ∧ registered bound es ∧ spawns_once es) as H.
  { intros rest Hr Hn es. subst es. split; [|split].
    - rewrite !Forall_app. split_and!; [..|done].
      + apply Forall_fmap, Forall_true. apply own_listening.
      + unfold limits. destruct (Rrl_enabled _); repeat constructor.
      + apply Forall_fmap, Forall_true. apply own_socket.
      + apply Forall_fmap, Forall_true. apply own_listener.
      + repeat constructor.
    - split; intros s Hs; rewrite !elem_of_app; do 2 right; [left|right; left]; apply list_elem_of_fmap; by exists s.
    - assert (∀ {A} (f : A → Effect (EnvFilter := EnvFilter)) (l : list A), (∀ a, f a ≠ SpawnReloader) → SpawnReloader ∉ (f <$> l)) as Hf.
      { intros A f l Hf (a & Ha & _)%list_elem_of_fmap. by apply (Hf a). }
      apply spawns_once_app; [by apply Hf|]. apply spawns_once_app.
      2: do 2 (apply spawns_once_app; [by apply Hf|]).
      + unfold limits. destruct (Rrl_enabled _); [by intros [=]%list_elem_of_singleton|apply not_elem_of_nil].
      + split; [done|]. split; [done|]. rewrite <- (app_nil_r rest). by apply (spawns_once_app rest []). }
  assert (∀ s, Forall own_action (snd (stopped s)) ∧ SpawnReloader ∉ snd (stopped (EnvFilter := EnvFilter) s)) as Hn.
  { intros s. split; [apply Forall_forall; intros e; apply own_note|].
    destruct s; [apply not_elem_of_nil|by intros [=]%list_elem_of_singleton..]. }
  specialize (Hn (w_stop w)). unfold proc_bind, tell, attempt, lift. destruct (stopped (w_stop w)) as [outcome note].
  destruct Hn as [Ho Hn].
  destruct (w_signal w TERMINATE) as [[]|x]; [destruct (w_signal w INTERRUPT) as [[]|x]|]; apply H; cbn [app result_map_err].
  - repeat constructor. apply Forall_app. split; [apply Forall_app; split; [done|]|done].
    apply Forall_forall. intros e. apply own_stop.
  - rewrite !elem_of_cons, !elem_of_app, !elem_of_cons, !elem_of_nil. naive_solver.
  - by repeat constructor.
  - rewrite !elem_of_cons, !elem_of_nil. naive_solver.
  - by repeat constructor.
  - rewrite !elem_of_cons, !elem_of_nil. naive_solver.
Qed.

Lemma own_action_traffic e : own_action e → traffic_of [e] = [].
Proof.
  intros [| | | | | | | |s e' He|e' He]; try done.
  - destruct s as [r| |]; simpl in He; [by apply elem_of_nil in He|by apply list_elem_of_singleton in He as ->..].
  - repeat (apply elem_of_cons in He as [->|He]; [done|]). by apply elem_of_nil in He.
Qed.

Lemma serve_bound_spec w cli st bound :
  let es := snd (serve_bound w cli st bound) in
  registered bound es ∧
  ∃ ls s, ls `sublist_of` heard_labels w ∧ run_labels (cli_config cli) ls (start st (w_now w)) = Some s ∧
    ∀ i, outbox i s = sent_to i (sends_of es) ∧
      lines_to i es = request_lines (querylog cli) (cli_config cli) i ls (start st (w_now w)).
Proof.
  unfold serve_bound. destruct (serve_actions_own w st bound) as (Hown & [Hu Ht] & _).
  destruct (serve_actions w st bound) as [outcome es]. cbn [snd] in *. split.
  { split; intros x Hx; apply interleave_incl; auto. }
  destruct (interleave_ran w cli es (w_events w) (not_running st (w_now w))) as [b [_ (ls & Hs & Hr & Ho)]]; [done| |].
  { eapply Forall_impl; [exact Hown|apply own_action_traffic]. }
  by exists ls, (sys b).
Qed.

(** ** What the tasks wait for *)


Definition about_request (e : Effect (EnvFilter := EnvFilter)) : Prop :=
  match e with Respond _ _ | LogRequest _ _ => True | _ => False end.

Definition registers (e : Effect (EnvFilter := EnvFilter)) : Prop :=
  match e with RegisterSocket _ | RegisterListener _ _ _ => True | _ => False end.

Definition prints (e : Effect (EnvFilter := EnvFilter)) : Prop :=
  match e with Stdout _ | Stderr _ => True | _ => False end.

(** The reloader tells how a reload went. *)
Definition reload_notice (e : Effect (EnvFilter := EnvFilter)) : Prop :=
  e = info (bs "configuration reloaded") ∨
  ∃ x, e = Log LevelError [] (bs "reload failed, keeping previous config:" ++ newline ++ x).

(** What must have come before an effect. *)
Definition justified (w : World (EnvFilter := EnvFilter)) (before : list Effect) (e : Effect) : Prop :=
  (about_request e → Exists registers before) ∧
  (e = Install HANGUP → SpawnReloader ∈ before ∧ Install HANGUP ∉ before) ∧
  (reload_notice e → w_signal w HANGUP = Ok tt ∧ Install HANGUP ∈ before) ∧
  (prints e ∨ Forall (λ x, ¬ prints x) before).

(** A property of each effect and those before it, after some others. *)
Fixpoint all_after (P : list Effect → Effect → Prop) (before es : list (Effect (EnvFilter := EnvFilter))) : Prop :=
  match es with
  | [] => True
  | e :: es => P before e ∧ all_after P (before ++ [e]) es
  end.

Lemma all_after_app P before a b :
  all_after P before (a ++ b) ↔ all_after P before a ∧ all_after P (before ++ a) b.
Proof.
  revert before. induction a as [|e a IH]; intros before; simpl; [rewrite app_nil_r; tauto|].
  rewrite IH, <- app_assoc. simpl. tauto.
Qed.

Lemma all_after_at P before es a e b : all_after P before es → es = a ++ e :: b → P (before ++ a) e.
Proof. intros H ->. apply all_after_app in H as [_ [H _]]. exact H. Qed.

Lemma all_after_Forall P before es :
  Forall (λ e, ∀ a, Forall (λ x, x ∈ es) a → P (before ++ a) e) es → all_after P before es.
Proof.
  assert (∀ a rest, es = a ++ rest → Forall (λ e, ∀ a, Forall (λ x, x ∈ es) a → P (before ++ a) e) rest →
    all_after P (before ++ a) rest) as H.
  { intros a rest. revert a. induction rest as [|e rest IH]; intros a He Hf; [done|].
    apply Forall_cons in Hf as [Hp Hf]. split.
    - apply Hp. apply Forall_forall. intros x Hx. rewrite He. apply elem_of_app. by left.
    - rewrite <- app_assoc. apply IH; [by rewrite He, <- app_assoc|done]. }
  intros Hf. specialize (H [] es eq_refl Hf). by rewrite app_nil_r in H.
Qed.

(** An effect that needs nothing, and is nothing that others wait for. *)
Definition plain (e : Effect (EnvFilter := EnvFilter)) : Prop :=
  ¬ about_request e ∧ e ≠ Install HANGUP ∧ ¬ reload_notice e ∧ ¬ prints e.

Lemma justified_plain w before e : plain e → Forall (λ x, ¬ prints x) before → justified w before e.
Proof. intros (H1 & H2 & H3 & H4) Hb. split_and!; [done..|by right]. Qed.

Lemma all_justified_plain w before es :
  Forall plain es → Forall (λ x, ¬ prints x) before → all_after (justified w) before es.
Proof.
  intros Hes Hb. apply all_after_Forall. eapply Forall_impl; [exact Hes|]. intros e He a Ha.
  apply justified_plain; [done|]. apply Forall_app. split; [done|]. eapply Forall_impl; [exact Ha|]. intros x Hx.
  rewrite Forall_forall in Hes. by destruct (Hes x Hx) as (_ & _ & _ & ?).
Qed.

(** The effects so far account for what is running. *)
Definition accounted (w : World (EnvFilter := EnvFilter)) (before : list Effect) (b : Running) : Prop :=
  (udp_open b || tcp_open b = true ∨ sys_threads (sys b) ≠ [] → Exists registers before) ∧
  match reloader b with
  | NotSpawned => Install HANGUP ∉ before
  | Spawned => SpawnReloader ∈ before ∧ Install HANGUP ∉ before
  | Listening => w_signal w HANGUP = Ok tt ∧ Install HANGUP ∈ before
  | Over => True
  end ∧
  Forall (λ x, ¬ prints x) before.

(** More effects, none of which installs the SIGHUP handler or prints. *)
Lemma accounted_more w before es b :
  accounted w before b → Forall (λ e, e ≠ Install HANGUP ∧ ¬ prints e) es → accounted w (before ++ es) b.
Proof.
  intros (Hr & Hl & Hp) Hes. split; [|split].
  - intros H. apply Exists_app. left. by apply Hr.
  - assert (Install HANGUP ∉ es) as Hn.
    { intros He. rewrite Forall_forall in Hes. by destruct (Hes _ He). }
    destruct (reloader b); rewrite ?elem_of_app; tauto.
  - apply Forall_app. split; [done|]. eapply Forall_impl; [exact Hes|]. by intros x [_ ?].
Qed.

Lemma exec_threads path l s s' :
  exec path l s = Some s' →
  sys_threads s' ≠ [] → sys_threads s ≠ [] ∨ ∃ request transport, l = LArrive request transport.
Proof.
  destruct l as [now|request transport|k ch|k|read|kind instant]; simpl.
  - destruct (_ <=? _); [|done]. intros [= <-]. by left.
  - intros _ _. right. by eexists _, _.
  - intros (t & t' & sh & Hk & _)%on_thread_Some _. left. by intros E; rewrite E in Hk.
  - intros (t & t' & sh & Hk & _)%on_thread_Some _. left. by intros E; rewrite E in Hk.
  - destruct (result_bind _ _); intros [= <-]; by left.
  - intros [= <-]. by left.
Qed.

(** A step of a request needs one that has arrived, and a reload one that is heard. *)
Lemma step_justified w querylog path l s s' before b :
  accounted w before b → sys b = s → can_happen l b = true → exec path l s = Some s' →
  all_after (justified w) before (step_log path l ++ begun_log querylog l s ++ newly_sent l s s' ++ ended_log l s) ∧
  Forall (λ e, e ≠ Install HANGUP ∧ ¬ prints e) (step_log path l ++ begun_log querylog l s ++ newly_sent l s s' ++ ended_log l s).
Proof.
  intros (Hr & Hl & Hp) Hs Hc He. set (es := _ ++ _).
  assert (Forall (λ e, e ≠ Install HANGUP ∧ ¬ prints e ∧ (about_request e → Exists registers before) ∧
    (reload_notice e → w_signal w HANGUP = Ok tt ∧ Install HANGUP ∈ before)) es) as H.
  { subst es. destruct l as [now|request transport|k ch|k|read|kind instant]; try by (repeat constructor).
    - cbn [step_log app].
      assert (sys_threads s = [] → begun_log (EnvFilter := EnvFilter) querylog (LAdvance k ch) s = [] ∧
        newly_sent (EnvFilter := EnvFilter) (LAdvance k ch) s s' = [] ∧ ended_log (EnvFilter := EnvFilter) (LAdvance k ch) s = []) as Hn.
      { intros E. unfold begun_log, newly_sent, ended_log. by rewrite E. }
      destruct (list_nil_or (sys_threads s)) as [E|E]; [destruct (Hn E) as (-> & -> & ->); constructor|].
      assert (Exists registers before) as Hreg by (apply Hr; right; by rewrite Hs).
      destruct (request_log_about querylog (LAdvance k ch) s (λ e, e ≠ Install HANGUP ∧ ¬ prints e ∧
        (about_request e → Exists registers before) ∧
        (reload_notice e → w_signal w HANGUP = Ok tt ∧ Install HANGUP ∈ before))) as [Hb Hd].
      { intros i x. inert. }
      rewrite !Forall_app. split_and!; [done| |done]. apply newly_sent_about. intros i r. inert.
    - simpl in Hc. destruct (reloader b); try done. destruct Hl as [Hg Hi].
      cbn [begun_log newly_sent ended_log]. rewrite !app_nil_r. cbn [step_log]. unfold reload_log.
      destruct (result_bind _ _).
      + apply Forall_app. split; [apply Forall_fmap, Forall_true; intros x; inert|].
        apply List.Forall_cons; [inert|constructor].
      + apply List.Forall_cons; [inert|constructor]. }
  split; [|eapply Forall_impl; [exact H|]; by intros e (? & ? & _)].
  apply all_after_Forall. eapply Forall_impl; [exact H|]. intros e (H1 & H2 & H3 & H4) a Ha. split_and!.
  - intros Hx. apply Exists_app. left. by apply H3.
  - done.
  - intros Hx. destruct (H4 Hx). split; [done|]. apply elem_of_app. by left.
  - right. apply Forall_app. split; [done|]. eapply Forall_impl; [exact Ha|]. intros x Hx.
    rewrite Forall_forall in H. by destruct (H x Hx) as (_ & ? & _).
Qed.

Lemma happen_justified w cli ev before b :
  accounted w before b →
  let '(es, b') := happen w cli ev b in all_after (justified w) before es ∧ accounted w (before ++ es) b'.
Proof.
  intros Ha. assert (all_after (justified w) before [] ∧ accounted w (before ++ []) b) as Hnil by (by rewrite app_nil_r).
  destruct ev as [l|]; unfold happen.
  - destruct (can_happen l b) eqn:Ec; [|done]. destruct (exec _ l (sys b)) as [s|] eqn:E; [|done].
    destruct (step_justified w (querylog cli) _ _ _ _ before b Ha eq_refl Ec E) as [H1 H2]. split; [done|].
    apply (accounted_more _ before); [|done]. destruct Ha as (Hr & Hl & Hp). split; [|done].
    intros [Ho|Ht]; [apply Hr; by left|]. apply (exec_threads _ _ _ _ E) in Ht as [Ht|(request & transport & ->)].
    + apply Hr. by right.
    + apply Hr. left. simpl in Ec. destruct (req_info request) as [i|]; [|done].
      destruct (is_tcp i); rewrite Ec; by rewrite ?orb_true_r.
  - destruct (reloader b) eqn:Er; try done. destruct Ha as (Hr & Hl & Hp). rewrite Er in Hl. destruct Hl as [Hs Hi].
    assert (justified w before (Install HANGUP)) as Hj.
    { inert. by right. }
    assert (∀ es, Forall (λ x, ¬ prints x) es → Forall (λ x, ¬ prints x) (before ++ Install HANGUP :: es)) as Hq.
    { intros es H. apply Forall_app. split; [done|]. constructor; [by intros []|done]. }
    assert (∀ es, Exists registers before → Exists registers (before ++ es)) as Hx.
    { intros es H. apply Exists_app. by left. }
    unfold start_reloader. destruct (w_signal w HANGUP) as [[]|x] eqn:Eh; (split; [|split; [|split]]);
      try (by intros H; apply Hx, Hr); try (by apply Hq; repeat constructor).
    + by split.
    + simpl. split; [done|]. apply elem_of_app. right. by left.
    + split; [done|]. split; [|done]. apply justified_plain; [|apply Hq; constructor].
      inert.
    + done.
    + apply Hq. repeat (constructor; [by intros []|]). constructor.
Qed.

Lemma live_justified w cli evs before b :
  accounted w before b →
  let '(es, b') := live w cli evs b in all_after (justified w) before es ∧ accounted w (before ++ es) b'.
Proof.
  revert before b. induction evs as [|ev evs IH]; intros before b Ha; [by simpl; rewrite app_nil_r|]. cbn [live].
  pose proof (happen_justified w cli ev before b Ha) as H. destruct (happen w cli ev b) as [es b1]. destruct H as [H1 H2].
  specialize (IH _ b1 H2). destruct (live w cli evs b1) as [es' b2]. rewrite all_after_app, app_assoc. tauto.
Qed.

Lemma own_action_plain e : own_action e → plain e.
Proof.
  intros [| | | | | | | |s e' He|e' He]; try solve [unfold plain; inert].
  - destruct s as [r| |]; simpl in He; [by apply elem_of_nil in He|..]; apply list_elem_of_singleton in He as ->;
      (unfold plain; split; [by intros []|]; split; [done|]; split; [|by intros []]; intros [[=]|[? [=]]]).
  - repeat (apply elem_of_cons in He as [->|He]; [unfold plain; inert|]). by apply elem_of_nil in He.
Qed.

Lemma accounted_set_off w before e b :
  accounted w before b → own_action e → (e = SpawnReloader → reloader b = NotSpawned) →
  accounted w (before ++ [e]) (set_off e b).
Proof.
  intros Ha Ho Hs. pose proof (own_action_plain _ Ho) as (_ & H1 & _ & H2).
  assert (accounted w (before ++ [e]) b) as (Hr & Hl & Hp) by (apply accounted_more; [done|]; by constructor).
  assert (registers e → Exists registers (before ++ [e])) as Hx.
  { intros H. apply Exists_app. right. by constructor. }
  destruct e; try done; try (split; [intros _; by apply Hx|done]).
  specialize (Hs eq_refl). rewrite Hs in Hl. split; [done|]. split; [|done]. simpl. split; [|done].
  apply elem_of_app. right. by left.
Qed.

Lemma live_not_spawned w cli evs b :
  reloader b = NotSpawned → reloader (snd (live (EnvFilter := EnvFilter) w cli evs b)) = NotSpawned.
Proof.
  revert b. induction evs as [|ev evs IH]; intros b Hb; [done|]. cbn [live].
  assert (reloader (snd (happen w cli ev b)) = NotSpawned) as H.
  { destruct ev as [l|]; simpl; [|by rewrite Hb]. destruct (can_happen l b); [|done]. by destruct (exec _ _ _). }
  destruct (happen w cli ev b) as [es b1]. specialize (IH b1 H). by destruct (live w cli evs b1).
Qed.

Lemma interleave_justified w cli es evs before b :
  accounted w before b → Forall own_action es → spawns_once es → (SpawnReloader ∈ es → reloader b = NotSpawned) →
  all_after (justified w) before (interleave w cli es evs b).
Proof.
  intros Ha Hes. revert evs before b Ha. induction Hes as [|e es He _ IH]; intros evs before b Ha Hss Hn; [done|].
  destruct Hss as [Hs Hss]. cbn [interleave].
  assert (accounted w (before ++ [e]) (set_off e b)) as Ha0.
  { apply accounted_set_off; [done|done|]. intros ->. apply Hn. by left. }
  assert (SpawnReloader ∈ es → reloader (set_off e b) = NotSpawned) as Hn0.
  { intros Hin. specialize (Hn ltac:(by right)). destruct e; try done. by specialize (Hs eq_refl). }
  pose proof (live_justified w cli (default [] (head evs)) _ _ Ha0) as H.
  pose proof (live_not_spawned w cli (default [] (head evs)) (set_off e b)) as Hk.
  destruct (live _ _ _ _) as [meanwhile b1]. destruct H as [H1 H2]. split.
  - apply justified_plain; [by apply own_action_plain|apply Ha].
  - apply all_after_app. split; [done|]. apply IH; [done|done|]. intros Hin. by apply Hk, Hn0.
Qed.

Lemma serve_bound_justified w cli st bound before :
  Install HANGUP ∉ before → Forall (λ x, ¬ prints x) before →
  all_after (justified w) before (snd (serve_bound w cli st bound)).
Proof.
  intros Hi Hp. unfold serve_bound. destruct (serve_actions_own w st bound) as (Hown & _ & Hs).
  destruct (serve_actions w st bound) as [outcome es]. apply interleave_justified; try done.
  split; [|done]. by intros [|].
Qed.

(** What comes before the sockets is plain. *)
Lemma run_process_justified w cli before :
  Forall plain before → all_after (justified w) before (snd (run_process w cli)).
Proof.
  intros Hb. assert (Forall (λ x, ¬ prints x) before) as Hp by (eapply Forall_impl; [exact Hb|]; by intros x (_ & _ & _ & ?)).
  assert (∀ es, Forall plain es → all_after (justified w) before es) as Hplain by (intros es Hes; by apply all_justified_plain).
  assert (∀ {A} (m : Proc (EnvFilter := EnvFilter) A), snd (let '(r, es) := m in (r, [] ++ es)) = snd m) as Hnil.
  { by intros A [r es]. }
  unfold run_process. destruct (w_runtime w) as [[]|]; [|done]. cbn [result_map_err lift proc_bind].
  destruct (run cli (w_file w)) as [a|]; [|done]. cbn [lift proc_bind]. rewrite !Hnil. destruct a as [port|err out|c].
  - cbn [perform]. unfold probe. destruct (healthcheck_query _); [|done]. simpl.
    destruct (p_bind _ _); simpl; [|split; [|done]; apply justified_plain; [unfold plain; inert|done]].
    destruct (p_send_to _ _ _); apply Hplain; repeat (apply List.Forall_cons; [unfold plain; inert|]); constructor.
  - apply all_after_Forall, Forall_forall. intros e He a _. assert (prints e) as H.
    { cbn [perform tell snd] in He. apply elem_of_app in He as [He|He]; [by apply list_elem_of_fmap in He as (x & -> & _)|].
      by apply list_elem_of_singleton in He as ->. }
    split_and!; [by destruct e|by intros ->|by intros [->|[? ->]]|by left].
  - cbn [perform]. unfold serve. cbn [tell proc_bind].
    assert (Forall plain ((warn : bytes → Effect (EnvFilter := EnvFilter)) <$> warnings c)) as Hw.
    { apply Forall_fmap, Forall_true. intros x. unfold plain. inert. }
    destruct (serve_state cli c) as [[l st]|]; cbn [lift proc_bind].
    2: { cbn [snd]. rewrite app_nil_r. by apply Hplain. }
    unfold bind_sockets. destruct (Bind.bind_all (w_os w) l []) as [[bound|] calls]; cbn [proc_bind].
    all: assert (Forall plain ((Sys : Bind.Call → Effect (EnvFilter := EnvFilter)) <$> calls)) as Hc
      by (apply Forall_fmap, Forall_true; intros x; unfold plain; inert).
    2: { cbn [snd app]. apply Hplain, Forall_app. done. }
    assert (Forall plain (before ++ ((warn <$> warnings c) ++ (Sys <$> calls)))) as Hall by (rewrite !Forall_app; done).
    pose proof (serve_bound_justified w cli st bound (before ++ ((warn <$> warnings c) ++ (Sys <$> calls)))) as H.
    destruct (serve_bound w cli st bound) as [r es]. cbn [snd app] in *. rewrite app_assoc. apply all_after_app.
    split; [by apply Hplain, Forall_app|]. apply H.
    + intros Hin. rewrite Forall_forall in Hall. by destruct (Hall _ Hin) as (_ & ? & _).
    + eapply Forall_impl; [exact Hall|]. by intros x (_ & _ & _ & ?).
Qed.

(** ** The exit code *)

(** The health check got something back. *)
Definition probe_answered (p : Probe) (port : N) : Prop :=
  ∃ payload n k, healthcheck_query p = Ok payload ∧
    p_bind p (mkSocketAddr LOOPBACK 0) = Ok tt ∧
    p_send_to p payload (mkSocketAddr LOOPBACK port) = Ok k ∧
    p_received p 512 (from_millis 2000) = GotBytes n ∧ 0 < n.

(** The server came up, and was not stopped by an error of its own. *)
Definition served (w : World (EnvFilter := EnvFilter)) (cli : Cli) (c : Config) : Prop :=
  ∃ l st bound calls, serve_state cli c = Ok (l, st) ∧ Bind.bind_all (w_os w) l [] = (Ok bound, calls) ∧
    w_signal w TERMINATE = Ok tt ∧ w_signal w INTERRUPT = Ok tt ∧ ∀ e, w_stop w ≠ ServerDone (Err e).

Definition succeeds (w : World (EnvFilter := EnvFilter)) (cli : Cli) : Prop :=
  w_runtime w = Ok tt ∧
  if healthcheck cli then probe_answered (w_probe w) (healthcheck_port cli) else
  ∃ c, load_config (cli_config cli) (w_file w) = Ok c ∧ (check_config cli = true ∨ served w cli c).

Definition ends_well {A} (m : Proc (EnvFilter := EnvFilter) A) : Prop := ∃ a, fst m = Ok a.

Lemma ends_well_bind {A B} (m : Proc A) (f : A → Proc B) :
  ends_well (proc_bind m f) ↔ ∃ a, fst m = Ok a ∧ ends_well (f a).
Proof.
  unfold ends_well, proc_bind. destruct m as [[a|e] es]; simpl.
  - destruct (f a) as [r es'] eqn:E. simpl. split; [intros [b ->]; exists a; split; [done|]; exists b; by rewrite E|].
    intros (x & [= <-] & b & Hb). exists b. by rewrite E in Hb.
  - split; [by intros [? ?]|by intros (? & ? & _)].
Qed.

Lemma ends_well_tell {B} es (f : unit → Proc B) : ends_well (proc_bind (tell es) f) ↔ ends_well (f tt).
Proof. rewrite ends_well_bind. split; [by intros ([] & _ & H)|]. intros H. by exists tt. Qed.

Lemma ends_well_attempt {A B} e (r : result A bytes) what (f : A → Proc B) :
  ends_well (proc_bind (attempt e r what) f) ↔ ∃ a, r = Ok a ∧ ends_well (f a).
Proof.
  rewrite ends_well_bind. unfold attempt. simpl. destruct r as [a|x]; simpl; [|naive_solver].
  split; [intros (b & [= <-] & H); by exists a|intros (b & [= <-] & H); by exists a].
Qed.

Lemma ends_well_lift {A B} (r : result A bytes) (f : A → Proc B) :
  ends_well (proc_bind (lift r) f) ↔ ∃ a, r = Ok a ∧ ends_well (f a).
Proof. apply ends_well_bind. Qed.

Lemma serve_bound_ends w cli st bound :
  ends_well (serve_bound w cli st bound) ↔
  w_signal w TERMINATE = Ok tt ∧ w_signal w INTERRUPT = Ok tt ∧ ∀ e, w_stop w ≠ ServerDone (Err e).
Proof.
  assert (ends_well (serve_bound w cli st bound) ↔ ends_well (serve_actions w st bound)) as ->.
  { unfold ends_well, serve_bound. by destruct (serve_actions w st bound). }
  unfold serve_actions. rewrite !ends_well_tell, ends_well_attempt. setoid_rewrite ends_well_attempt.
  assert (ends_well (lift (EnvFilter := EnvFilter) (fst (stopped (EnvFilter := EnvFilter) (w_stop w)))) ↔ ∀ e, w_stop w ≠ ServerDone (Err e)) as Hs.
  { unfold ends_well, lift. destruct (w_stop w) as [[[]|e]| |]; simpl; split; try done; intros H.
    - by exists tt.
    - by destruct H as [? [=]].
    - by destruct (H e).
    - by exists tt.
    - by exists tt. }
  destruct (stopped (w_stop w)) as [outcome note]. setoid_rewrite ends_well_tell. simpl in Hs.
  setoid_rewrite Hs. split.
  - intros ([] & H1 & [] & H2 & H3). done.
  - intros (H1 & H2 & H3). exists tt. split; [done|]. by exists tt.
Qed.

Lemma serve_ends w cli c : ends_well (serve w cli c) ↔ served w cli c.
Proof.
  unfold serve, served. rewrite ends_well_tell, ends_well_lift. split.
  - intros ([l st] & Hs & H). apply ends_well_bind in H as (bound & Hb & H%serve_bound_ends).
    unfold bind_sockets in Hb. destruct (Bind.bind_all _ _ _) as [r calls] eqn:E. simpl in Hb. subst r.
    by exists l, st, bound, calls.
  - intros (l & st & bound & calls & Hs & Hb & H). exists (l, st). split; [done|].
    apply ends_well_bind. exists bound. unfold bind_sockets. rewrite Hb. split; [done|].
    by apply serve_bound_ends.
Qed.

Lemma probe_ends p port : ends_well (probe p port) ↔ probe_answered p port.
Proof.
  unfold probe, probe_answered. rewrite ends_well_lift. setoid_rewrite ends_well_attempt.
  setoid_rewrite ends_well_attempt. setoid_rewrite ends_well_tell. split.
  - intros (payload & Hq & [] & Hb & k & Hs & [[] Hv]). simpl in Hv.
    destruct (p_received _ _ _) as [n|x|] eqn:E; [|done|done]. simpl in Hv.
    exists payload, n, k. destruct (N.ltb_spec 0 n); [|done]. done.
  - intros (payload & n & k & Hq & Hb & Hs & Hr & Hn). exists payload. split; [done|]. exists tt. split; [done|].
    exists k. split; [done|]. exists tt. simpl. rewrite Hr. simpl. by rewrite (proj2 (N.ltb_lt _ _)).
Qed.

Lemma run_process_ends w cli : ends_well (run_process w cli) ↔ succeeds w cli.
Proof.
  unfold run_process, succeeds. rewrite ends_well_lift. setoid_rewrite ends_well_lift.
  assert ((∃ a, run cli (w_file w) = Ok a ∧ ends_well (perform w cli a)) ↔
    if healthcheck cli then probe_answered (w_probe w) (healthcheck_port cli) else
    ∃ c, load_config (cli_config cli) (w_file w) = Ok c ∧ (check_config cli = true ∨ served w cli c)) as H.
  { unfold run. destruct (healthcheck cli).
    { rewrite <- probe_ends. split; [by intros (a & [= <-] & H)|]. intros H. by eexists. }
    destruct (load_config _ _) as [c|e]; simpl; [|naive_solver]. destruct (check_config cli).
    - split; [intros _; exists c; split; [done|by left]|]. intros _. eexists. split; [done|]. by exists tt.
    - setoid_rewrite <- serve_ends. split; [intros (a & [= <-] & H); exists c; split; [done|by right]|].
      intros (c' & [= <-] & [?|H]); [done|]. by eexists. }
  rewrite <- H. destruct (w_runtime w) as [[]|x]; simpl; [|naive_solver]. split.
  - by intros ([] & _ & H').
  - intros [_ H']. by exists tt.
Qed.
(** A run with any traffic is one that serves, and its traffic is that of
    [serve_bound]. *)
Lemma run_process_serves w cli :
  traffic_of (snd (run_process w cli)) ≠ [] →
  ∃ c l st bound calls, load_config (cli_config cli) (w_file w) = Ok c ∧ serve_state cli c = Ok (l, st) ∧
    Bind.bind_all (w_os w) l [] = (Ok bound, calls) ∧
    traffic_of (snd (run_process w cli)) = traffic_of (snd (serve_bound w cli st bound)) ∧
    ∀ e, e ∈ snd (serve_bound w cli st bound) → e ∈ snd (run_process w cli).
Proof.
  unfold run_process. destruct (w_runtime w) as [[]|]; [|done]. cbn [result_map_err lift proc_bind app].
  destruct (run cli (w_file w)) as [a|] eqn:Ea; [|done]. cbn [lift proc_bind].
  assert (∀ {A} (m : Proc (EnvFilter := EnvFilter) A), snd (let '(r, es) := m in (r, [] ++ es)) = snd m) as Hnil.
  { by intros A [r es]. }
  rewrite !Hnil. unfold run in Ea. destruct (healthcheck cli).
  { injection Ea as <-. simpl. unfold probe. destruct (healthcheck_query _); [|done]. simpl.
    destruct (p_bind _ _); [|done]. simpl. by destruct (p_send_to _ _ _). }
  destruct (load_config _ _) as [c|]; [|done]. simpl in Ea. destruct (check_config cli).
  { injection Ea as <-. cbn [perform tell snd]. rewrite traffic_of_app, traffic_of_none; done. }
  injection Ea as <-. cbn [perform]. unfold serve. cbn [tell proc_bind].
  destruct (serve_state cli c) as [[l st]|] eqn:Es; cbn [lift proc_bind].
  2: { cbn [snd]. rewrite app_nil_r, traffic_of_none; done. }
  unfold bind_sockets. destruct (Bind.bind_all (w_os w) l []) as [[bound|] calls] eqn:Eb; cbn [proc_bind].
  2: { cbn [snd app]. rewrite traffic_of_app, !traffic_of_none; done. }
  destruct (serve_bound w cli st bound) as [r es] eqn:Er. cbn [snd app]. intros _.
  exists c, l, st, bound, calls. do 3 (split; [done|]). rewrite Er.
  split; [rewrite !traffic_of_app, !traffic_of_none; done|].
  intros e He. rewrite !elem_of_app. by right; right.
Qed.
End Main.

Section MainRun.
Context {D : DnsOps} {R : ResolverOps} {G : LimiterOps} {M : MessageOps} {S : Bind.SocketOps}.
Context {EnvFilter : Type} (filter_new : bytes → EnvFilter).

Lemma main_run w cli :
  (∃ a, fst (run_process w cli) = Ok a ∧ main filter_new w cli = (SUCCESS, init_logging filter_new w cli :: snd (run_process w cli))) ∨
  (∃ e, fst (run_process w cli) = Err e ∧
     main filter_new w cli = (FAILURE, init_logging filter_new w cli :: snd (run_process w cli) ++ [Stderr e])).
Proof.
  unfold main. destruct (run_process w cli) as [[a|e] es]; [left|right]; [by exists a|by exists e].
Qed.

Lemma run_process_traffic w cli :
  traffic_of (snd (main filter_new w cli)) = traffic_of (snd (run_process w cli)).
Proof.
  destruct (main_run w cli) as [(a & _ & ->)|(e & _ & ->)]; simpl; [done|].
  rewrite traffic_of_app. by rewrite app_nil_r.
Qed.

Lemma main_incl w cli e : e ∈ snd (run_process w cli) → e ∈ snd (main filter_new w cli).
Proof.
  destruct (main_run w cli) as [(a & _ & ->)|(x & _ & ->)]; simpl; intros H.
  - by right.
  - right. apply elem_of_app. by left.
Qed.

Lemma main_succeeds w cli : fst (main filter_new w cli) = SUCCESS ↔ succeeds w cli.
Proof.
  rewrite <- run_process_ends. unfold ends_well.
  destruct (main_run w cli) as [(a & Ha & ->)|(e & He & ->)]; cbn [fst]; [|rewrite He]; naive_solver.
Qed.
End MainRun.

(** ** The health check and a server *)

Section Loopback.
Context {D : DnsOps} {L : DnsLaws D} {R : ResolverOps} {G : LimiterOps} {M : MessageOps}
  {ML : MessageLaws M} {S : Bind.SocketOps}.

(** A datagram to an IPv4 address reaches the sockets bound to its port at that
    address or at the IPv4 wildcard; an IPv6 socket takes IPv6 only. *)
Definition bound_at (bound : Bind.Bound) (to : SocketAddr) : bool :=
  existsb (λ a, (port a =? port to) && (bool_decide (ip a = ip to) || bool_decide (ip a = V4 0))) (Bind.addrs bound).

(** What comes back, when the server sends these responses to what it received. *)
Definition delivered (bound : Bind.Bound) (to : SocketAddr) (responses : list Response) (size : Response → N)
    (r : Received) : Prop :=
  if bound_at bound to
  then r = match responses with response :: _ => GotBytes (size response) | [] => TimedOut end
  else ∀ n, r ≠ GotBytes n.

(** A query over UDP from this host, with one question and no EDNS. *)
Definition decodes_to (request : Request) (name : DName) (t : RecordType.t) (cl : DNSClass.t) : Prop :=
  req_info request = Ok (mkRequestInfo LOOPBACK false name t cl) ∧
  op_code (req_metadata request) = OpCode.Query ∧ version request = 0.

(** Exactly the requests that the limiter drops get no response. *)
Lemma sends_unless_dropped e request st name t cl :
  decodes_to request name t cl → forces_valid_payload e st → (∀ r, ∃ i, env_transport e r = Ok i) →
  fst (fst (handle_request e request st)) ≠ [] ↔
  fst (Rrl.decide (env_now e) LOOPBACK (reply_kind (fst (decide_reply (env_lookup e) (st_zones st) name t cl)))
    false (st_rrl st)) ≠ Drop.
Proof.
  intros (Hi & Ho & Hver) Hv Ht. split.
  - intros Hs Hd. apply Hs. unfold handle_request, handle_inner. rewrite Hi, Ho, Hver. cbn [query_name query_type query_class src is_tcp].
    rewrite bool_decide_true by done. simpl negb. cbn iota. change (0 <? 0) with false. cbn iota.
    destruct (decide_reply _ _ _ _ _) as [rep zs]. cbn [fst] in Hd. destruct (Rrl.decide _ _ _ _ _) as [d rrl].
    cbn [fst] in Hd. by subst d.
  - intros Hd Hs. destruct (handle_request_one_response e request st Hv) as [_ H]. destruct (H Ht) as [H1|(_ & info & zs & rep & H1 & H2 & H3)].
    + by rewrite Hs in H1.
    + rewrite Hi in H1. injection H1 as <-. cbn in H2, H3. rewrite H2 in Hd. by apply Hd.
Qed.
End Loopback.

(** ** Properties *)

Section Properties.
Context {D : DnsOps} {L : DnsLaws D} {R : ResolverOps} {G : LimiterOps} {M : MessageOps}
  {ML : MessageLaws M} {S : Bind.SocketOps} {EnvFilter : Type} (filter_new : bytes → EnvFilter).

(** C2.  The whole program.  For every command line and everything that may come
    from outside, what the process sends and logs for requests is what the requests
    of a server started with the configuration in the file send and log, with every
    socket of every address bound and handed over, in a run over some of the steps
    offered to it, however its requests are interleaved with each other and with
    reloads.  Each of them sends only what the contract allows, and when it is
    finished its log tells what was sent. *)
Theorem main_responses_conform (w : World) (cli : Cli) :
  let es := snd (main filter_new w cli) in
  traffic_of es = [] ∨
  ∃ c l st bound calls ls s,
    load_config (cli_config cli) (w_file w) = Ok c ∧ serve_state cli c = Ok (l, st) ∧
    Bind.bind_all (w_os w) l [] = (Ok bound, calls) ∧ length (Bind.udp bound) = length l ∧ registered bound es ∧
    ls `sublist_of` heard_labels w ∧ run_labels (cli_config cli) ls (start st (w_now w)) = Some s ∧
    ∀ i, match sys_threads s !! i with
         | Some t => sent_to i (sends_of es) = t_sent t ∧ conforming c ls s t ∧
             ∀ x, t_stage t = Finished x →
               truthful (querylog cli) (t_transport t) (t_request t) (lines_to i es) (sent_to i (sends_of es))
         | None => sent_to i (sends_of es) = [] ∧ lines_to i es = []
         end.
Proof.
  cbv zeta. destruct (list_nil_or (traffic_of (snd (main filter_new w cli)))) as [H|H]; [by left|right].
  rewrite (run_process_traffic filter_new) in H.
  destruct (run_process_serves _ _ H) as (c & l & st & bound & calls & Hc & Hs & Hb & Htr & Hin).
  destruct (serve_bound_spec w cli st bound) as [[Hu Ht] (ls & s & Hsub & Hrun & Hout)].
  exists c, l, st, bound, calls, ls, s. do 3 (split; [done|]).
  apply bind_targets_Ok in Hb as (rs & Hl & Hub & _).
  split; [by rewrite Hub, length_app, length_fmap|].
  split; [split; intros x Hx; apply main_incl, Hin; auto|]. do 2 (split; [done|]).
  rewrite <- (run_process_traffic filter_new) in Htr. intros i. destruct (Hout i) as [Ho Hl'].
  rewrite <- sends_of_traffic, <- (lines_to_traffic i (snd (main _ _ _))), Htr, sends_of_traffic, lines_to_traffic, <- Ho, Hl'.
  assert (config_wf (config (st_zones st))) as Hwf.
  { apply load_config_wf in Hc. by destruct (serve_state_inv _ _ _ _ Hs) as (_ & -> & _). }
  unfold outbox. destruct (sys_threads s !! i) as [t|] eqn:Ei; simpl.
  - split; [done|]. split; [by apply (run_conforming cli (w_file w) c l st (w_now w) ls s i)|]. intros x Hx.
    pose proof (start_logged (querylog cli) _ _ _ _ _ _ _ Hwf Hrun Ei) as Hlog.
    unfold stage_log in Hlog. rewrite Hx in Hlog. by apply request_log_truthful in Hlog.
  - split; [done|]. apply (no_lines _ _ _ _ _ _ Hrun). by apply lookup_ge_None.
Qed.

(** C14.  The exit code tells the truth.  The process exits with success exactly when
    the health check got a non-empty datagram, or the configuration was only to be
    checked and is accepted, or the server came up completely and was stopped by a
    signal or without an error; otherwise it exits with failure and a message on
    standard error, as its last effect.  And a configuration check opens and sends
    nothing. *)
Theorem exit_code_exact (w : World) (cli : Cli) :
  (fst (main filter_new w cli) = SUCCESS ↔ succeeds w cli) ∧
  (fst (main filter_new w cli) = FAILURE ↔ ∃ es message,
     snd (main filter_new w cli) = es ++ [Stderr message] ∧ ¬ succeeds w cli) ∧
  (healthcheck cli = false → check_config cli = true →
   Forall (λ e, match e with InitLogging _ _ | Stdout _ | Stderr _ => True | _ => False end)
     (snd (main filter_new w cli))).
Proof.
  setoid_rewrite <- run_process_ends. unfold ends_well.
  assert (healthcheck cli = false → check_config cli = true →
    Forall (λ e, match e with Stdout _ | Stderr _ => True | _ => False end) (snd (run_process w cli))) as Hq.
  { intros Hh Hck. unfold run_process, run. rewrite Hh, Hck. destruct (w_runtime w); simpl; [|constructor].
    destruct (load_config _ _); simpl; [|constructor].
    apply Forall_app. split; [by apply Forall_fmap, Forall_true|by repeat constructor]. }
  destruct (main_run filter_new w cli) as [(a & Ha & ->)|(e & He & ->)]; cbn [fst snd].
  - split; [split; [by exists a|done]|]. split; [split; [done|intros (? & ? & _ & Hn); exfalso; apply Hn; by exists a]|].
    intros Hh Hck. constructor; [done|]. eapply Forall_impl; [by apply Hq|]. by intros [].
  - split; [split; [done|intros [a Ha]; congruence]|]. split.
    + split; [|done]. intros _. eexists (_ :: _), e. split; [done|]. intros [a Ha]. congruence.
    + intros Hh Hck. constructor; [done|]. apply Forall_app. split; [|by repeat constructor].
      eapply Forall_impl; [by apply Hq|]. by intros [].
Qed.

(** C15.  What the process does is in order, though its tasks run at the same time.
    What [main] does itself comes as the source has it: logging, the sockets, their
    registration, the tasks, the SIGTERM and SIGINT handlers, the tasks told to stop,
    the server shut down, and last what is printed.  Of what the tasks do in between,
    and until the process ends, nothing is answered or logged for a request before
    some socket has been registered; the SIGHUP handler is installed once at most,
    after the reloader was spawned; no reload is reported unless that handler is
    installed; and nothing else follows once something is printed. *)
Theorem lifecycle_order (w : World) (cli : Cli) :
  let es := snd (main filter_new w cli) in
  Sorted N.le (omap place es) ∧
  ∀ before e after, es = before ++ e :: after →
    (about_request e → Exists registers before) ∧
    (e = Install HANGUP → SpawnReloader ∈ before ∧ Install HANGUP ∉ before) ∧
    (reload_notice e → w_signal w HANGUP = Ok tt ∧ Install HANGUP ∈ before) ∧
    (prints e ∨ Forall (λ x, ¬ prints x) before).
Proof.
  split.
  - pose proof (run_process_order w cli) as Ho. unfold in_order in Ho.
    assert (ordered 0 0 [init_logging filter_new w cli]) as Hi by (apply ordered_same; placed).
    assert (ordered 0 11 (init_logging filter_new w cli :: snd (run_process w cli))) as H.
    { apply (ordered_app 0 1 11 [_]); [by apply (ordered_widen 0 0)|done]. }
    destruct (main_run filter_new w cli) as [(a & _ & ->)|(e & _ & ->)]; simpl snd; [by apply H|].
    apply (ordered_app 0 11 11 (_ :: _)); [done|]. apply ordered_same. placed.
  - intros before e after He. apply (all_after_at (justified w) [] (snd (main filter_new w cli)) before e after); [|exact He].
    assert (Forall plain [init_logging filter_new w cli]) as Hi by (apply List.Forall_cons; [unfold plain; inert|constructor]).
    pose proof (run_process_justified w cli _ Hi) as H. pose proof (all_justified_plain w [] _ Hi (List.Forall_nil _)) as H0.
    destruct (main_run filter_new w cli) as [(a & _ & ->)|(x & _ & ->)]; simpl snd; [by apply (all_after_app _ [] [_])|].
    apply (all_after_app _ [] [_]). split; [done|]. apply all_after_app. split; [done|]. split; [|done]. inert. by left.
Qed.

(** C38.  The health check against a server.  Let a server have bound these addresses,
    and let a datagram that is sent to a loopback port reach it if one of its sockets
    is bound there; let the datagram of the health check decode to the question that
    was encoded, and let the responses get back.  Then the check succeeds exactly when
    the server is bound to the port that is asked, at 127.0.0.1 or 0.0.0.0, and the
    rate limiter does not drop the response: in every other respect any state and any
    valid configuration of the server will do, whatever its zones are. *)
Theorem healthcheck_of_server (w : World) (cli : Cli) (name : DName) (payload : bytes) (k : N)
    (bound : Bind.Bound) (e : Env) (st : ServerState) (decode : bytes → Request) (size : Response → N) :
  let remote := mkSocketAddr LOOPBACK (healthcheck_port cli) in
  let rep := fst (decide_reply (env_lookup e) (st_zones st) name RecordType.SOA DNSClass.IN) in
  w_runtime w = Ok tt → healthcheck cli = true →
  p_from_ascii (w_probe w) HEALTH_NAME = Ok name →
  p_to_bytes (w_probe w) name RecordType.SOA DNSClass.IN = Ok payload →
  p_bind (w_probe w) (mkSocketAddr LOOPBACK 0) = Ok tt → p_send_to (w_probe w) payload remote = Ok k →
  decodes_to (decode payload) name RecordType.SOA DNSClass.IN →
  delivered bound remote (fst (fst (handle_request e (decode payload) st))) size
    (p_received (w_probe w) 512 (from_millis 2000)) →
  forces_valid_payload e st → (∀ r, ∃ i, env_transport e r = Ok i) → (∀ r, 0 < size r) →
  fst (main filter_new w cli) = SUCCESS ↔
  bound_at bound remote = true ∧ fst (Rrl.decide (env_now e) LOOPBACK (reply_kind rep) false (st_rrl st)) ≠ Drop.
Proof.
  intros remote rep Hrt Hh Hn Hq Hb Hs Hd Hdel Hv Ht Hsize.
  assert (fst (main filter_new w cli) = SUCCESS ↔
    ∃ n, p_received (w_probe w) 512 (from_millis 2000) = GotBytes n ∧ 0 < n) as ->.
  { rewrite (main_succeeds filter_new). unfold succeeds, probe_answered, healthcheck_query. rewrite Hh, Hn. simpl. rewrite Hq. simpl.
    split; [by intros (_ & ? & n & ? & _ & _ & _ & ? & ?); exists n|]. intros (n & ? & ?). split; [done|]. by exists payload, n, k. }
  unfold rep. rewrite <- (sends_unless_dropped e (decode payload) st name RecordType.SOA DNSClass.IN Hd Hv Ht).
  unfold delivered in Hdel. destruct (bound_at bound remote).
  - rewrite Hdel. destruct (fst (fst (handle_request e (decode payload) st))) as [|r rs].
    + split; [by intros (? & ? & _)|by intros [_ ?]].
    + split; [done|]. intros _. by exists (size r).
  - split; [intros (n & Hn' & _); by destruct (Hdel n)|by intros [? _]].
Qed.
End Properties.

(** ** Instances *)

#[local] Existing Instance LabelName.ops.
#[local] Existing Instance LabelName.laws.
#[local] Existing Instance EchoResolver.ops.
#[local] Existing Instance TokenBucket.ops.
#[local] Existing Instance EchoMessages.ops.
#[local] Existing Instance EchoMessages.laws.

(** The health check's query, as the server receives it. *)
Definition health_request : Request :=
  mkRequest (Ok (mkRequestInfo (V4 0x7F000001) false (LabelName.mk [bs "health-check"; bs "panoptidns"; bs "invalid"] true)
      RecordType.SOA DNSClass.IN)) (query_header OpCode.Query) None 512.

(** The other end is the sample server, whose responses take twelve bytes. *)
Definition sample_probe : Probe := mkProbe
  (λ s, LabelName.parse s) (λ _ _ _, Ok (bs "query")) (λ _, Ok tt) (λ payload _, Ok (len payload))
  (λ _ _, match fst (fst (handle_request sample_env health_request sample_state)) with
          | _ :: _ => GotBytes 12
          | [] => TimedOut
          end).

(** A query that is refused before the server listens for TCP; then another, that is
    still waiting when the server is reloaded and told to stop. *)
Definition sample_events : list (list TaskEvent) :=
  let step i := Happens (LAdvance i silence) in
  [[]; [];
   [ReloaderRuns; Happens (LArrive health_request (λ r, Ok (resp_metadata r))); step 0%nat; step 0%nat; step 0%nat; step 0%nat];
   [Happens (LSweep AnswerKind 5)];
   [Happens (LHangup (Ok broken_input)); Happens (LArrive (ptr_request false) ptr_transport)];
   [ReloaderRuns; ReloaderRuns; step 1%nat; step 1%nat; step 1%nat];
   []; [Happens (LHangup (Ok sample_input)); Happens (LHangup (Ok broken_input))];
   []; []; [Happens (LTick (from_millis 300)); step 1%nat; step 1%nat; step 1%nat; step 1%nat; step 1%nat; step 1%nat]].

Definition sample_world : World (EnvFilter := bytes) := mkWorld None (Ok tt) (Ok sample_input) counting_os
  (λ _, Ok tt) 0 sample_events GotTerminate sample_probe.

(** The sample process answers. *)
Example sample_process_answers :
  (λ p, (fst p, response_code (resp_metadata (snd p)))) <$> sends_of (snd (main (λ s, s) sample_world sample_cli)) =
    [(0%nat, ResponseCode.Refused); (1%nat, ResponseCode.NoError)].
Proof. vm_refl. Qed.

(** Its effects from the sockets on, each told by its place, the responses by the
    number of their request: the first is answered before the TCP listener is
    registered, the second while the server shuts down. *)
Example sample_process_overlaps :
  omap (λ e, match e with
             | Respond i _ => Some (inl i)
             | Install HANGUP => Some (inr 100)
             | _ => match place e with Some p => if 1 <? p then Some (inr p) else None | None => None end
             end) (snd (main (λ s, s) sample_world sample_cli)) =
    [inr 2; inl 0%nat; inr 3; inr 4; inr 5; inr 100; inr 6; inr 7; inr 8; inr 9; inl 1%nat; inr 10].
Proof. vm_refl. Qed.

Lemma exit_code_exact_witness :
  fst (main (λ s, s) sample_world sample_cli) = SUCCESS ∧ succeeds sample_world sample_cli.
Proof.
  assert (fst (main (λ s, s) sample_world sample_cli) = SUCCESS) as E by vm_refl.
  split; [exact E|]. exact (proj1 (proj1 (exit_code_exact (λ s, s) sample_world sample_cli)) E).
Defined.

(** A health check of a server that listens on 127.0.0.1:40000. *)
Definition health_cli : Cli := mkCli DEFAULT_CONFIG false [] false false true 40000.

Definition health_name : LabelName.t := LabelName.mk [bs "health-check"; bs "panoptidns"; bs "invalid"] true.

Lemma healthcheck_of_server_witness :
  let remote := mkSocketAddr LOOPBACK 40000 in
  let rep := fst (decide_reply (env_lookup sample_env) (st_zones sample_state) health_name RecordType.SOA DNSClass.IN) in
  fst (main (λ s, s) sample_world health_cli) = SUCCESS ∧
  (fst (main (λ s, s) sample_world health_cli) = SUCCESS ↔
   bound_at counting_bound remote = true ∧
   fst (Rrl.decide (env_now sample_env) LOOPBACK (reply_kind rep) false (st_rrl sample_state)) ≠ Drop).
Proof.
  cbv zeta. split; [vm_refl|].
  apply (healthcheck_of_server (λ s, s) sample_world health_cli health_name (bs "query") 5 counting_bound sample_env
    sample_state (λ _, health_request) (λ _, 12));
    [reflexivity|reflexivity|vm_refl|reflexivity|reflexivity|reflexivity|by repeat split| |exact sample_payload|by eexists|done].
  by vm_compute.
Defined.

Lemma main_responses_conform_witness :
  let es := snd (main (λ s, s) sample_world sample_cli) in
  len (sends_of es) = 2 ∧
  (traffic_of es = [] ∨
   ∃ c l st bound calls ls s,
     load_config (cli_config sample_cli) (w_file sample_world) = Ok c ∧ serve_state sample_cli c = Ok (l, st) ∧
     Bind.bind_all (w_os sample_world) l [] = (Ok bound, calls) ∧ length (Bind.udp bound) = length l ∧
     registered bound es ∧ ls `sublist_of` heard_labels sample_world ∧
     run_labels (cli_config sample_cli) ls (start st (w_now sample_world)) = Some s ∧
     ∀ i, match sys_threads s !! i with
          | Some t => sent_to i (sends_of es) = t_sent t ∧ conforming c ls s t ∧
              ∀ x, t_stage t = Finished x →
                truthful (querylog sample_cli) (t_transport t) (t_request t) (lines_to i es) (sent_to i (sends_of es))
          | None => sent_to i (sends_of es) = [] ∧ lines_to i es = []
          end).
Proof.
  cbv zeta. split; [vm_refl|]. exact (main_responses_conform (λ s, s) sample_world sample_cli).
Defined.
