(* ===== verification/Progress.v ===== *)
(** * Progress of the interleaved server

    Every step of a request brings it closer to its end ([stage_rank]), no
    request is ever stuck, and so under a fair scheduler every request ends.  The
    wait for an upstream has a deadline that does not move. *)

From S2P Require Import Prelude RustText RustNet ConfigError Dns Nibble Config ConfigSpec Parse Compile Sample CompileSpec Zones ZoneSpec Rrl RrlSpec Upstream UpstreamSpec Handler HandlerSpec Server ServerSpec Contract Concurrent ConcurrentSpec.

(** ** The measure *)

Section Measure.
Context {D : DnsOps} {L : DnsLaws D} {R : ResolverOps} {G : LimiterOps} {M : MessageOps}
  {ML : MessageLaws M}.

Definition rank (t : Thread) : N := stage_rank (t_stage t).

Lemma advance_rank ch t s t' s' : advance ch t s = Some (t', s') → rank t' < rank t.
Proof.
  assert (∀ j kept s1, conclude j kept t s1 = Some (t', s') → rank t' = 4) as Hcon.
  { intros j kept s1. unfold conclude. destruct (s_store s1 !! t_gen t); [|done]. by intros [= <- _]. }
  unfold advance, rank. destruct (t_stage t) as [|j|j|j up dl|j kept|info reply|info reply|info reply|g|i|]; try done.
  - destruct (req_info _) as [info|]; [|by intros [= <- _]]. unfold begin_request.
    destruct (negb _); [by intros [= <- _]|]. destruct (0 <? _); [by intros [= <- _]|].
    destruct (s_store s !! current s); [|done]. intros [= <- _]. simpl. by destruct (decide_begin _ _ _ _).
  - unfold check_breaker. destruct (client s _ _); [|done]. cbn [mbind option_bind].
    destruct (Breaker.is_open _ _) as [[] b]; [|by intros [= <- _]]. intros H%Hcon. unfold rank in H. by rewrite H.
  - unfold acquire. destruct (client s _ _); [|done]. cbn [mbind option_bind].
    destruct (_ =? 0); [intros H%Hcon; unfold rank in H; by rewrite H|]. intros [= <- _]. simpl. by destruct (upstream_qname _).
  - unfold answered_by. destruct (client s _ _); [|done]. cbn [mbind option_bind].
    destruct (ch_outcome ch); [..|destruct (_ <? _); [done|]]; by intros [= <- _].
  - unfold release. destruct (client s _ _); [|done]. cbn [mbind option_bind]. intros H%Hcon.
    unfold rank in H. by rewrite H.
  - intros H%(inj Some). unfold limit in H. destruct (exempt _ _); [by injection H as <- _|].
    destruct (check_limit _ _ _ _) as [[] ?]; by injection H as <- _.
  - intros H%(inj Some). unfold suppress in H. destruct (count_suppressed _), (slip_decision _ _); by injection H as <- _.
  - unfold deliver. destruct (s_store s !! current s); [|done]. cbn [mbind option_bind].
    destruct (send _ _ _ _ _ _). by intros [= <- _].
  - intros [= <- _]. unfold conclude_request. by destruct g as [[]|].
Qed.

(** The steps of all requests together. *)
Fixpoint total_rank (ts : list Thread) : N :=
  match ts with [] => 0 | t :: ts => rank t + total_rank ts end.

Lemma total_rank_insert ts i t t' :
  ts !! i = Some t → total_rank (<[i := t']> ts) + rank t = total_rank ts + rank t'.
Proof.
  revert i. induction ts as [|x ts IH]; intros [|i]; simpl; try done.
  - intros [= ->]. lia.
  - intros H%IH. lia.
Qed.

Lemma total_rank_app ts ts' : total_rank (ts ++ ts') = total_rank ts + total_rank ts'.
Proof. induction ts as [|t ts IH]; simpl; [done|]. rewrite IH. lia. Qed.

Lemma cancel_rank t s t' s' : cancel t s = Some (t', s') → rank t' = 0.
Proof. by intros (-> & _)%cancel_frame. Qed.

Lemma exec_total_rank path l s s' :
  exec path l s = Some s' →
  total_rank (sys_threads s') + N.b2n (is_advance l) <= total_rank (sys_threads s) + 9 * N.b2n (is_arrival l).
Proof.
  destruct l as [now|request transport|i ch|i|read|kind instant]; simpl.
  - destruct (_ <=? _); [|done]. intros [= <-]. simpl. lia.
  - intros [= <-]. simpl. rewrite total_rank_app. simpl. unfold rank. simpl. lia.
  - intros (t & t' & sh' & Hi & Ha & ->)%on_thread_Some. simpl.
    pose proof (total_rank_insert _ _ _ t' Hi). apply advance_rank in Ha. lia.
  - intros (t & t' & sh' & Hi & Ha & ->)%on_thread_Some. simpl.
    pose proof (total_rank_insert _ _ _ t' Hi). apply cancel_rank in Ha. lia.
  - destruct (result_bind _ _); intros [= <-]; simpl; lia.
  - intros [= <-]. simpl. lia.
Qed.

Lemma count_labels_cons f l ls : count_labels f (l :: ls) = N.b2n (f l) + count_labels f ls.
Proof. unfold count_labels. simpl. destruct (f l); rewrite ?len_cons; simpl; lia. Qed.

Lemma run_total_rank path ls s s' :
  run_labels path ls s = Some s' →
  total_rank (sys_threads s') + count_labels is_advance ls <=
  total_rank (sys_threads s) + 9 * count_labels is_arrival ls.
Proof.
  revert s. induction ls as [|l ls IH]; intros s; [intros [= <-]; unfold count_labels; simpl; rewrite len_nil; lia|]. simpl.
  destruct (exec path l s) as [y|] eqn:E; [|done]. intros H%IH. apply exec_total_rank in E.
  rewrite !count_labels_cons. lia.
Qed.

(** No step takes a request further from its end. *)
Lemma exec_rank path l s s' i t :
  exec path l s = Some s' → sys_threads s !! i = Some t →
  ∃ t', sys_threads s' !! i = Some t' ∧ if concerns i l then rank t' < rank t else t' = t.
Proof.
  intros He Hi. pose proof (lookup_lt_Some _ _ _ Hi) as Hlen.
  destruct l as [now|request transport|k ch|k|read|kind instant]; simpl in *.
  - destruct (_ <=? _); [|done]. injection He as <-. by exists t.
  - injection He as <-. exists t. split; [by apply lookup_app_l_Some|done].
  - apply on_thread_Some in He as (u & u' & sh' & Hk & Ha & ->). simpl. destruct (base.decide (i = k)) as [<-|Hik].
    + rewrite Hi in Hk. injection Hk as <-. exists u'. split; [by apply list_lookup_insert_eq|].
      rewrite bool_decide_eq_true_2 by done. by apply advance_rank in Ha.
    + exists t. by rewrite list_lookup_insert_ne, bool_decide_eq_false_2.
  - apply on_thread_Some in He as (u & u' & sh' & Hk & Ha & ->). simpl. destruct (base.decide (i = k)) as [<-|Hik].
    + rewrite Hi in Hk. injection Hk as <-. exists u'. split; [by apply list_lookup_insert_eq|].
      assert (0 < rank t) by (unfold cancel in Ha; unfold rank; by destruct (t_stage t)).
      rewrite bool_decide_eq_true_2 by done. apply cancel_rank in Ha. lia.
    + exists t. by rewrite list_lookup_insert_ne, bool_decide_eq_false_2.
  - destruct (result_bind _ _); injection He as <-; by exists t.
  - injection He as <-. by exists t.
Qed.

(** The steps of one request. *)
Lemma run_rank path i ls s s' :
  run_labels path ls s = Some s' →
  count_labels (advances i) ls <= match sys_threads s !! i with Some t => rank t | None => 9 end.
Proof.
  revert s. induction ls as [|l ls IH]; intros s; [intros _; unfold count_labels; simpl; rewrite len_nil; lia|]. simpl.
  destruct (exec path l s) as [y|] eqn:E; [|done]. intros H%IH. rewrite count_labels_cons.
  destruct (sys_threads s !! i) as [t|] eqn:Hi.
  - destruct (exec_rank _ _ _ _ _ _ E Hi) as (t' & Hi' & Hr). rewrite Hi' in H.
    destruct l; simpl in *; try (subst; simpl; lia); [case_bool_decide; simpl; subst; lia|].
    case_bool_decide; subst; simpl; lia.
  - assert (advances i l = false) as ->.
    { destruct l as [| |k ch| | |]; try done. simpl in E |- *. apply on_thread_Some in E as (t & _ & _ & Hk & _).
      apply bool_decide_eq_false. congruence. }
    assert (∀ t, rank t <= 9) as H9 by (intros t; unfold rank; destruct (t_stage t); simpl; lia).
    destruct (sys_threads y !! i) as [t|]; [specialize (H9 t)|]; simpl; lia.
Qed.

(** The steps that the [i]-th request takes from one of its stages. *)
Fixpoint steps_at (path : bytes) (i : nat) (stage : N) (ls : list Label) (s : System) : N :=
  match ls with
  | [] => 0
  | l :: ls =>
      match exec path l s with
      | None => 0
      | Some s' =>
          (if advances i l && bool_decide ((rank <$> sys_threads s !! i) = Some stage) then 1 else 0) +
          steps_at path i stage ls s'
      end
  end.

Lemma steps_at_once path i stage ls s :
  steps_at path i stage ls s <=
  match sys_threads s !! i with Some t => if rank t <? stage then 0 else 1 | None => 1 end.
Proof.
  revert s. induction ls as [|l ls IH]; intros s; [simpl; lia|]. cbn [steps_at].
  destruct (exec path l s) as [y|] eqn:E; [|lia]. specialize (IH y).
  destruct (sys_threads s !! i) as [t|] eqn:Hi; simpl fmap.
  - destruct (exec_rank _ _ _ _ _ _ E Hi) as (t' & Hi' & Hr). rewrite Hi' in IH.
    destruct (advances i l) eqn:Ea; simpl andb.
    + assert (concerns i l = true) as Hc by (by destruct l). rewrite Hc in Hr.
      case_bool_decide as Hst; [injection Hst as <-|];
        repeat match goal with H : context [?a <? ?b] |- _ => destruct (N.ltb_spec a b)
               | |- context [?a <? ?b] => destruct (N.ltb_spec a b) end; lia.
    + assert (rank t' <= rank t) by (destruct (concerns i l); [lia|by subst]).
      repeat match goal with H : context [?a <? ?b] |- _ => destruct (N.ltb_spec a b)
             | |- context [?a <? ?b] => destruct (N.ltb_spec a b) end; lia.
  - rewrite (bool_decide_eq_false_2 (None = Some stage)), andb_false_r by done.
    destruct (sys_threads y !! i) as [t|]; [destruct (_ <? _)|]; lia.
Qed.

Lemma run_wait path i ls s s' t :
  run_labels path ls s = Some s' → sys_threads s !! i = Some t →
  ∃ t', sys_threads s' !! i = Some t' ∧ (t' = t ∨ rank t' < rank t).
Proof.
  revert s t. induction ls as [|l ls IH]; intros s t; [intros [= ->]; exists t; auto|]. simpl.
  destruct (exec path l s) as [y|] eqn:E; [|done]. intros Hr Hi.
  destruct (exec_rank _ _ _ _ _ _ E Hi) as (t1 & H1 & Hr1). destruct (IH y t1 Hr H1) as (t2 & H2 & Hr2).
  exists t2. split; [done|]. destruct (concerns i l); [right|subst; done]. destruct Hr2 as [->|]; lia.
Qed.

Lemma is_over_rank t : is_over t = true ↔ rank t = 0.
Proof. unfold is_over, rank. by destruct (t_stage t). Qed.
End Measure.

(** ** No request is stuck *)

Section Enabled.
Context {D : DnsOps} {L : DnsLaws D} {R : ResolverOps} {G : LimiterOps} {M : MessageOps}
  {ML : MessageLaws M}.

(** The program can take a step of the request, without a word from the
    upstream: a wait ends only by its deadline. *)
Definition can_step (path : bytes) (i : nat) (s : System) : Prop :=
  ∀ instant, ∃ s', exec path (LAdvance i (mkChoice Elapsed instant)) s = Some s'.

Lemma conclude_enabled j kept t s : is_Some (s_store s !! t_gen t) → is_Some (conclude j kept t s).
Proof. unfold conclude. intros [zs ->]. by eexists. Qed.

Lemma job_client zs request j s t :
  s_store s !! t_gen t = Some zs → job_ok zs request j → is_Some (client s (t_gen t) (j_addr j)).
Proof. unfold client. intros -> (_ & H & _). exact H. Qed.

Lemma advance_enabled instant t s :
  shared_wf s → thread_inv s t → is_over t = false →
  (∀ j up deadline, t_stage t = AtUpstream j up deadline → deadline <= s_now s) →
  is_Some (advance (mkChoice Elapsed instant) t s).
Proof.
  intros Hw (zs & Hg & Hst & _) Ho Hd. unfold advance, is_over in *. unfold stage_ok in Hst.
  assert (∀ g a u, is_Some (s_store (set_client g a u s) !! t_gen t)) as Hset.
  { intros g a u. unfold set_client. simpl. destruct (base.decide (g = t_gen t)) as [->|Hne].
    - rewrite list_lookup_alter_eq, Hg. by eexists.
    - rewrite list_lookup_alter_ne, Hg by done. by eexists. }
  destruct (swf_current s Hw) as [zc Hc].
  destruct (t_stage t) as [|j|j|j up dl|j kept|info reply|info reply|info reply|g|i|]; try done.
  - destruct (req_info _) as [info|]; [|by eexists]. unfold begin_request.
    destruct (negb _); [by eexists|]. destruct (0 <? _); [by eexists|]. rewrite Hc. by eexists.
  - destruct Hst as [_ Hj]. destruct (job_client _ _ _ _ _ Hg Hj) as [u Hu].
    unfold check_breaker. rewrite Hu. cbn [mbind option_bind].
    destruct (Breaker.is_open _ _) as [[] b]; [by apply conclude_enabled|by eexists].
  - destruct Hst as [_ Hj]. destruct (job_client _ _ _ _ _ Hg Hj) as [u Hu].
    unfold acquire. rewrite Hu. cbn [mbind option_bind].
    destruct (_ =? 0); [by apply conclude_enabled|by eexists].
  - destruct Hst as (_ & Hj & _). destruct (job_client _ _ _ _ _ Hg Hj) as [u Hu].
    unfold answered_by. rewrite Hu. cbn [mbind option_bind ch_outcome].
    destruct (N.ltb_spec (s_now s) dl); [|by eexists]. specialize (Hd _ _ _ eq_refl). lia.
  - destruct Hst as (_ & Hj & _). destruct (job_client _ _ _ _ _ Hg Hj) as [u Hu].
    unfold release. rewrite Hu. cbn [mbind option_bind]. by apply conclude_enabled.
  - unfold deliver. rewrite Hc. cbn [mbind option_bind]. destruct (send _ _ _ _ _ _). by eexists.
Qed.

(** At its deadline the wait ends, whatever the upstream does. *)
Lemma wait_ends path i s t dl :
  sys_inv s → sys_threads s !! i = Some t → waits_until t = Some dl → dl <= s_now (sys_shared s) →
  ∀ ch, ∃ s', exec path (LAdvance i ch) s = Some s' ∧
    ∃ t', sys_threads s' !! i = Some t' ∧ waits_until t' = None.
Proof.
  intros [Hw Ht] Hi Hdl Hnow ch. destruct (Forall_lookup_1 _ _ _ _ Ht Hi) as (zs & Hg & Hst & _).
  unfold waits_until, stage_ok in *. destruct (t_stage t) as [| | |j up d| | | | | | |] eqn:Es; try done.
  injection Hdl as ->. destruct Hst as (_ & Hj & _). destruct (job_client _ _ _ _ _ Hg Hj) as [u Hu].
  cbn [exec]. unfold on_thread. rewrite Hi. cbn [mbind option_bind]. unfold advance. rewrite Es. unfold answered_by.
  rewrite Hu. cbn [mbind option_bind]. rewrite (proj2 (N.ltb_ge _ _) Hnow).
  destruct (ch_outcome ch); (eexists; split; [done|]; simpl;
    rewrite list_lookup_insert_eq by (by eapply lookup_lt_Some); by eexists).
Qed.

Lemma over_cannot_step path i s :
  Forall (λ t, is_over t = true) (sys_threads s) → ¬ can_step path i s.
Proof.
  intros Ho Hc. destruct (Hc 0) as [s' Hs]. apply on_thread_Some in Hs as (t & t' & sh' & Hi & Ha & _).
  pose proof (Forall_lookup_1 _ _ _ _ Ho Hi) as Ht. apply is_over_rank in Ht. apply advance_rank in Ha. lia.
Qed.

(** The deadline of a request, if it waits. *)
Definition due (t : Thread) : N := match t_stage t with AtUpstream _ _ deadline => deadline | _ => 0 end.

Lemma can_step_due path i s t :
  sys_inv s → sys_threads s !! i = Some t → is_over t = false → due t <= s_now (sys_shared s) →
  can_step path i s.
Proof.
  intros [Hw Ht] Hi Ho Hd instant. pose proof (Forall_lookup_1 _ _ _ _ Ht Hi) as Hinv.
  destruct (advance_enabled instant t _ Hw Hinv Ho) as [[t' s'] Ha].
  { intros j up dl Hs. unfold due in Hd. by rewrite Hs in Hd. }
  simpl. unfold on_thread. rewrite Hi. cbn [mbind option_bind]. rewrite Ha. by eexists.
Qed.
End Enabled.

(** ** Schedules *)

Section Schedules.
Context {D : DnsOps} {L : DnsLaws D} {R : ResolverOps} {G : LimiterOps} {M : MessageOps}
  {ML : MessageLaws M}.

(** An infinite run of the server: its states, and the step after each. *)
Definition is_schedule (path : bytes) (st : ServerState) (states : nat → System) (steps : nat → Label) : Prop :=
  (∃ now, states 0%nat = start st now) ∧ ∀ n, exec path (steps n) (states n) = Some (states (S n)).

Definition time_passes (states : nat → System) : Prop :=
  ∀ T, ∃ n, T <= s_now (sys_shared (states n)).

(** A request that can take a step again and again takes one: at some time after
    any other, it moves, or it cannot. *)
Definition fair (path : bytes) (states : nat → System) (steps : nat → Label) : Prop :=
  ∀ i n, ∃ m, (n <= m)%nat ∧ (concerns i (steps m) = true ∨ ¬ can_step path i (states m)).

Section Liveness.
Variables (path : bytes) (st : ServerState) (states : nat → System) (steps : nat → Label).
Hypothesis Hvalid : config_wf (config (st_zones st)).
Hypothesis Hsched : is_schedule path st states steps.

Lemma schedule_inv n : sys_inv (states n).
Proof.
  destruct Hsched as [[now H0] Hs]. induction n as [|n IH].
  - rewrite H0. by apply start_inv.
  - by eapply exec_inv.
Qed.

Lemma schedule_now n m : (n <= m)%nat → s_now (sys_shared (states n)) <= s_now (sys_shared (states m)).
Proof.
  destruct Hsched as [_ Hs]. induction 1 as [|m Hm IH]; [lia|].
  pose proof (exec_now _ _ _ _ (Hs m)). lia.
Qed.

(** A request stays as it is or comes closer to its end. *)
Lemma schedule_thread n m i t :
  (n <= m)%nat → sys_threads (states n) !! i = Some t →
  ∃ t', sys_threads (states m) !! i = Some t' ∧ (t' = t ∨ rank t' < rank t).
Proof.
  destruct Hsched as [_ Hs]. induction 1 as [|m Hm IH]; intros Hi; [exists t; auto|].
  destruct (IH Hi) as (t1 & H1 & Hr). destruct (exec_rank _ _ _ _ _ _ (Hs m) H1) as (t2 & H2 & Hr2).
  exists t2. split; [done|]. destruct (concerns i (steps m)).
  - destruct Hr as [->|?]; right; lia.
  - by subst.
Qed.

Lemma requests_end i : time_passes states → fair path states steps →
  ∀ n t, sys_threads (states n) !! i = Some t →
  ∃ m t', (n <= m)%nat ∧ sys_threads (states m) !! i = Some t' ∧ is_over t' = true.
Proof.
  intros Htime Hfair n t. remember (rank t) as k eqn:Hk. revert n t Hk.
  induction k as [k IH] using (well_founded_induction N.lt_wf_0). intros n t -> Hi.
  destruct (is_over t) eqn:Ho; [by exists n, t|].
  assert (∀ m t', (n <= m)%nat → sys_threads (states m) !! i = Some t' → rank t' < rank t →
    ∃ m' t'', (n <= m')%nat ∧ sys_threads (states m') !! i = Some t'' ∧ is_over t'' = true) as Hnext.
  { intros m t' Hm Ht' Hr. destruct (IH (rank t') Hr m t' eq_refl Ht') as (m' & t'' & Hm' & H).
    exists m', t''. split; [lia|done]. }
  destruct (Htime (due t)) as [n0 Hn0]. destruct (Hfair i (Nat.max n n0)) as (m & Hm & Hmove).
  destruct (schedule_thread n m i t) as (t1 & H1 & [->|Hr]); [lia|done| |by apply (Hnext m t1); [lia|..]].
  destruct Hmove as [Hmove|Hno].
  - destruct (exec_rank _ _ _ _ _ _ (proj2 Hsched m) H1) as (t2 & H2 & Hr2). rewrite Hmove in Hr2.
    by apply (Hnext (S m) t2); [lia|..].
  - destruct Hno. apply (can_step_due path i _ t); [apply schedule_inv|done..|].
    pose proof (schedule_now n0 m ltac:(lia)). lia.
Qed.
End Liveness.
End Schedules.

(** ** Properties *)

Section Properties.
Context {D : DnsOps} {L : DnsLaws D} {R : ResolverOps} {G : LimiterOps} {M : MessageOps}
  {ML : MessageLaws M}.

(** C13.  The work of the server is bounded by the requests it gets: in every run,
    whatever the interleaving, a request goes through each of its stages once at
    most, so that it looks at one breaker, takes one permit, asks an upstream once
    and is counted once by the rate limiter; it takes at most nine steps, and all
    requests together take at most nine for each that arrived.  None loops, retries
    or waits twice. *)
Theorem requests_terminate (path : bytes) (st : ServerState) (now : N) (ls : list Label) (s : System) :
  run_labels path ls (start st now) = Some s →
  (∀ i stage, steps_at path i stage ls (start st now) <= 1) ∧
  (∀ i, count_labels (advances i) ls <= 9) ∧
  count_labels is_advance ls <= 9 * count_labels is_arrival ls.
Proof.
  intros H. split; [intros i stage; apply steps_at_once|]. split; [intros i; apply (run_rank _ i) in H; exact H|].
  apply run_total_rank in H. simpl in H. lia.
Qed.

(** C12.  Permits and deadlines over the whole server.  Whatever requests run at the
    same time, are cancelled, or outlive a reload, every upstream client of every
    configuration still has 64 permits less the requests that are between the
    semaphore and the return of the lookup; so at most 64 wait for it.  A request
    that waits has a deadline, at most the configured timeout away, which never
    moves: as long as it waits the deadline is the same, when the clock has reached
    it any step of the request ends the wait, and it does not wait again. *)
Theorem interleaved_permits (cli : Cli) (c : Config) (l : list ListenAddr) (st : ServerState)
    (read : FileResult) (s : System) :
  load_config (cli_config cli) read = Ok c → serve_state cli c = Ok (l, st) →
  reachable (cli_config cli) st s →
  (∀ g addr u, client (sys_shared s) g addr = Some u →
     inflight u + holders g addr (sys_threads s) = 64) ∧
  (∀ i t deadline, sys_threads s !! i = Some t → waits_until t = Some deadline →
     (∃ zs, s_store (sys_shared s) !! t_gen t = Some zs ∧
        deadline <= s_now (sys_shared s) + upstream_timeout (params (config zs))) ∧
     ∀ ls s', run_labels (cli_config cli) ls s = Some s' →
     ∃ t', sys_threads s' !! i = Some t' ∧
       (waits_until t' = None ∨
        waits_until t' = Some deadline ∧
        (deadline <= s_now (sys_shared s') → ∀ ch, ∃ s'', exec (cli_config cli) (LAdvance i ch) s' = Some s'' ∧
           ∃ t'', sys_threads s'' !! i = Some t'' ∧ waits_until t'' = None))).
Proof.
  intros Hload%load_config_wf Hs (now & ls0 & Hr).
  pose proof (run_clients _ _ _ _ (start_clients _ _ _ _ now Hload Hs) Hr) as [_ Hp _ Hd]. split; [exact Hp|].
  intros i t dl Hi Hw. split.
  { pose proof (Forall_lookup_1 _ _ _ _ Hd Hi) as Ht. unfold deadline_ok, waits_until in *.
    destruct (t_stage t); try done. injection Hw as ->. exact Ht. }
  apply serve_state_inv in Hs as (_ & Hz & _). rewrite <- Hz in Hload.
  pose proof (run_inv _ _ _ _ (start_inv st now Hload) Hr) as Hinv.
  intros ls s' Hr'. destruct (run_wait _ _ _ _ _ _ Hr' Hi) as (t' & Hi' & [->|Hrank]).
  - exists t. split; [done|]. right. split; [done|]. intros Hdl ch.
    apply (wait_ends _ i s' t dl); [by eapply run_inv|done..].
  - exists t'. split; [done|]. left. unfold waits_until, rank in *.
    destruct (t_stage t); try done. by destruct (t_stage t').
Qed.

(** C7.  Every request ends.  Take any infinite run of a started server in which
    time passes and no request that can take a step is passed over forever; the
    upstreams may never answer, the configuration may be reloaded at any time, and
    requests may be cancelled.  Then every request that arrives is finished or
    cancelled at some point; in particular none is ever stuck. *)
Theorem every_request_ends (cli : Cli) (read : FileResult) (c : Config) (l : list ListenAddr)
    (st : ServerState) (states : nat → System) (steps : nat → Label) :
  load_config (cli_config cli) read = Ok c → serve_state cli c = Ok (l, st) →
  is_schedule (cli_config cli) st states steps → time_passes states →
  fair (cli_config cli) states steps →
  ∀ n i t, sys_threads (states n) !! i = Some t →
  ∃ m t', (n <= m)%nat ∧ sys_threads (states m) !! i = Some t' ∧ is_over t' = true.
Proof.
  intros Hc%load_config_wf (_ & Hz & _)%serve_state_inv Hs Ht Hf n i t Hi. rewrite <- Hz in Hc.
  by apply (requests_end (cli_config cli) st states steps Hc Hs i Ht Hf n t).
Qed.

End Properties.

(** ** Instances *)

#[local] Existing Instance LabelName.ops.
#[local] Existing Instance LabelName.laws.
#[local] Existing Instance EchoResolver.ops.
#[local] Existing Instance TokenBucket.ops.
#[local] Existing Instance EchoMessages.ops.
#[local] Existing Instance EchoMessages.laws.

Lemma requests_terminate_witness :
  let ls := first_waits ++ LArrive (ptr_request true) ptr_transport :: second_overtakes in
  (count_labels is_advance ls, count_labels is_arrival ls) = (13, 2) ∧
  (∀ i stage, steps_at (cli_config sample_cli) i stage ls (start sample_start 0) <= 1) ∧
  (∀ i, count_labels (advances i) ls <= 9) ∧
  count_labels is_advance ls <= 9 * count_labels is_arrival ls.
Proof.
  cbv zeta. split; [vm_refl|].
  apply (requests_terminate (cli_config sample_cli) sample_start 0 _ overtaken).
  apply run_or_runs. vm_refl.
Defined.

(** Both requests hold a permit, of different clients of the same address. *)
Lemma interleaved_permits_witness :
  let s := waiting_system in
  ((λ g, inflight <$> client (sys_shared s) g (V4 0xC0000201)) <$> [0%nat; 1%nat]) = [Some 63; Some 63] ∧
  (waits_until <$> sys_threads s) = [Some (from_millis 300); Some (from_millis 300)] ∧
  (∀ g addr u, client (sys_shared s) g addr = Some u →
     inflight u + holders g addr (sys_threads s) = 64) ∧
  (∀ i t deadline, sys_threads s !! i = Some t → waits_until t = Some deadline →
     (∃ zs, s_store (sys_shared s) !! t_gen t = Some zs ∧
        deadline <= s_now (sys_shared s) + upstream_timeout (params (config zs))) ∧
     ∀ ls s', run_labels (cli_config sample_cli) ls s = Some s' →
     ∃ t', sys_threads s' !! i = Some t' ∧
       (waits_until t' = None ∨
        waits_until t' = Some deadline ∧
        (deadline <= s_now (sys_shared s') → ∀ ch, ∃ s'', exec (cli_config sample_cli) (LAdvance i ch) s' = Some s'' ∧
           ∃ t'', sys_threads s'' !! i = Some t'' ∧ waits_until t'' = None))).
Proof.
  cbv zeta. split; [vm_refl|]. split; [vm_refl|].
  apply (interleaved_permits sample_cli sample_config [mkListenAddr (V6 1) 5353] sample_start (Ok sample_input)
    waiting_system); [vm_refl|vm_refl|].
  exists 0, both_wait. apply run_or_runs. vm_refl.
Defined.

(** A request to a dead upstream, run to its end; then only the clock moves. *)
Definition deadline : N := from_millis 300.
Definition one_request : list Label :=
  [LArrive (ptr_request false) ptr_transport; LAdvance 0 silence; LAdvance 0 silence; LAdvance 0 silence;
   LTick deadline; LAdvance 0 silence; LAdvance 0 silence; LAdvance 0 silence; LAdvance 0 silence; LAdvance 0 silence].

Definition idle_after (n : nat) : Label :=
  match one_request !! n with
  | Some l => l
  | None => LTick (deadline + N.of_nat (S n - length one_request))
  end.

Fixpoint idle_states (n : nat) : System :=
  match n with
  | O => start sample_start 0
  | S n => run_or (cli_config sample_cli) [idle_after n] (idle_states n)
  end.

Lemma run_or_step path l s : runs path [l] s = true → exec path l s = Some (run_or path [l] s).
Proof. intros H%run_or_runs. simpl in *. by destruct (exec path l s). Qed.

Lemma run_or_exec path l s s' : exec path l s = Some s' → run_or path [l] s = s'.
Proof. intros H. unfold run_or. cbn [run_labels mbind option_bind]. by rewrite H. Qed.

Lemma idle_step n :
  runs (cli_config sample_cli) [idle_after n] (idle_states n) = true →
  exec (cli_config sample_cli) (idle_after n) (idle_states n) = Some (idle_states (S n)).
Proof. cbn [idle_states]. apply run_or_step. Qed.

(** The states after the request are the same but for the clock. *)
Definition at_clock (now : N) (s : System) : System :=
  mkSystem (mkShared (s_store (sys_shared s)) (s_rrl (sys_shared s)) now) (sys_threads s).

Lemma at_own_clock s : at_clock (s_now (sys_shared s)) s = s.
Proof. by destruct s as [[] ?]. Qed.

Lemma tick_step path now now' s :
  now <= now' → exec path (LTick now') (at_clock now s) = Some (at_clock now' s).
Proof. intros Hn. unfold exec, at_clock. simpl. by rewrite (proj2 (N.leb_le _ _)). Qed.

Lemma over_at_clock path i now s :
  Forall (λ t, is_over t = true) (sys_threads s) → ¬ can_step path i (at_clock now s).
Proof. apply (over_cannot_step path i (at_clock now s)). Qed.

Definition quiet (k : nat) : System := at_clock (deadline + N.of_nat k) (idle_states (length one_request)).

Lemma idle_label k : idle_after (length one_request + k) = LTick (deadline + N.of_nat (S k)).
Proof.
  unfold idle_after. rewrite (lookup_ge_None_2 one_request) by lia.
  by replace (S (length one_request + k) - length one_request)%nat with (S k) by lia.
Qed.

Lemma quiet_step k :
  exec (cli_config sample_cli) (idle_after (length one_request + k)) (quiet k) = Some (quiet (S k)).
Proof. rewrite idle_label. apply tick_step. lia. Qed.

Lemma idle_quiet k : idle_states (length one_request + k) = quiet k.
Proof.
  induction k as [|k IH].
  - rewrite Nat.add_0_r. unfold quiet. set (s := idle_states _).
    assert (s_now (sys_shared s) = deadline) as E by vm_refl.
    by rewrite N.add_0_r, <- E, at_own_clock.
  - rewrite Nat.add_succ_r. cbn [idle_states]. rewrite IH. apply run_or_exec, quiet_step.
Qed.

Lemma idle_schedule : is_schedule (cli_config sample_cli) sample_start idle_states idle_after.
Proof.
  split; [by exists 0|]. intros n. destruct (Nat.lt_ge_cases n (length one_request)) as [Hn|Hn].
  - do 10 (destruct n as [|n]; [apply idle_step; vm_refl|]). simpl in Hn. lia.
  - replace n with (length one_request + (n - length one_request))%nat by lia.
    rewrite <- Nat.add_succ_r, !idle_quiet. apply quiet_step.
Qed.

Lemma idle_time : time_passes idle_states.
Proof.
  intros T. exists (length one_request + N.to_nat T)%nat. rewrite idle_quiet. simpl. lia.
Qed.

Lemma idle_over : Forall (λ t, is_over t = true) (sys_threads (idle_states (length one_request))).
Proof. apply forallb_Forall_true. vm_refl. Qed.

Lemma idle_fair : fair (cli_config sample_cli) idle_states idle_after.
Proof.
  intros i n. exists (length one_request + n)%nat. split; [lia|]. right. rewrite idle_quiet.
  unfold quiet. apply over_at_clock, idle_over.
Qed.

Lemma every_request_ends_witness :
  let waiting := idle_states 4 in
  (is_over <$> sys_threads waiting) = [false] ∧
  ∀ t, sys_threads waiting !! 0%nat = Some t →
  ∃ m t', (4 <= m)%nat ∧ sys_threads (idle_states m) !! 0%nat = Some t' ∧ is_over t' = true.
Proof.
  cbv zeta. split; [vm_refl|]. intros t.
  apply (every_request_ends sample_cli (Ok sample_input) sample_config [mkListenAddr (V6 1) 5353]
    sample_start idle_states idle_after); [vm_refl|vm_refl|apply idle_schedule|apply idle_time|apply idle_fair].
Defined.
