(* ===== verification/Alone.v ===== *)
(** * A request that runs alone

    [handle_request] of Handler.v runs without interruption; Concurrent.v runs a
    request in steps.  When nothing else happens the two are the same, in both
    directions: every run of [handle_request] in an environment that the clock
    allows is one of the steps, and every run of the steps to the end of the request
    is one of [handle_request] in such an environment. *)

From S2P Require Import Prelude RustText RustNet ConfigError Dns Nibble Config ConfigSpec Parse Compile Sample CompileSpec Zones ZoneSpec Rrl RrlSpec Upstream UpstreamSpec Handler HandlerSpec Server ServerSpec Contract Concurrent ConcurrentSpec Progress.

(** ** The handler as steps *)

Section Alone.
Context {D : DnsOps} {L : DnsLaws D} {R : ResolverOps} {G : LimiterOps} {M : MessageOps}
  {ML : MessageLaws M}.
Variables (path : bytes) (e : Env) (request : Request).

(** Steps of the first request and of the clock. *)
Definition own_step (l : Label) : Prop :=
  match l with LTick _ => True | LAdvance i _ => i = 0%nat | _ => False end.

(** The request runs to its end, to this outcome. *)
Definition ends_as (s : System) (outcome : list Response * ResponseInfo * ServerState) : Prop :=
  let '(sent, info, st) := outcome in
  ∃ ls t s', Forall own_step ls ∧ run_labels path ls s = Some s' ∧ sys_threads s' = [t] ∧
    t_stage t = Finished info ∧ t_sent t = sent ∧
    s_store (sys_shared s') = [st_zones st] ∧ s_rrl (sys_shared s') = st_rrl st.

(** The end of [handle_request], after [handle_inner]. *)
Definition conclude_with (transport : Response → result ResponseInfo bytes) (inner : Sent (result ResponseInfo bytes) * ServerState)
    : list Response * ResponseInfo * ServerState :=
  let '((sent, guarded), st) := inner in
  match guarded with
  | Returned (Ok info) => (sent, info, st)
  | Returned (Err _) | Panicked =>
      let '(more, info) := servfail transport request in (sent ++ more, info, st)
  end.

Lemma ends_label l s s' out : own_step l → exec path l s = Some s' → ends_as s' out → ends_as s out.
Proof.
  intros Hl He. destruct out as [[sent info] st]. intros (ls & t & s'' & Hls & Hr & H).
  exists (l :: ls), t, s''. split; [by constructor|]. split; [|done]. simpl. by rewrite He.
Qed.

Lemma ends_advance ch t sh t' sh' out :
  advance ch t sh = Some (t', sh') → ends_as (mkSystem sh' [t']) out → ends_as (mkSystem sh [t]) out.
Proof.
  intros Ha. apply (ends_label (LAdvance 0 ch)); [done|]. simpl. unfold on_thread. simpl. by rewrite Ha.
Qed.

Lemma ends_end t sh zs sent guarded :
  t_stage t = AtEnd guarded → t_sent t = sent → t_request t = request → t_transport t = env_transport e →
  s_store sh = [zs] →
  ends_as (mkSystem sh [t]) (conclude_with (env_transport e) ((sent, guarded), mkServerState zs (s_rrl sh))).
Proof.
  intros Hs <- Hr Ht Hz. eapply (ends_advance (mkChoice Elapsed 0)); [unfold advance; by rewrite Hs|].
  destruct guarded as [[i|x]|]; unfold conclude_request, conclude_with; rewrite ?Hr, ?Ht;
    (exists []; eexists _, _; by repeat split).
Qed.

Lemma ends_send t sh zs info reply :
  t_stage t = AtSend info reply → t_sent t = [] → t_request t = request → t_transport t = env_transport e →
  s_store sh = [zs] →
  ends_as (mkSystem sh [t]) (conclude_with (env_transport e)
    (send (env_transport e) zs (req_metadata request) reply request (is_tcp info), mkServerState zs (s_rrl sh))).
Proof.
  intros Hs Hn Hr Ht Hz. destruct (send _ _ _ _ _ _) as [sent guarded] eqn:Es.
  eapply (ends_advance (mkChoice Elapsed 0)).
  { unfold advance. rewrite Hs. unfold deliver, current. rewrite Hz. simpl. by rewrite Hr, Ht, Es. }
  apply ends_end; [done| |done..]. simpl. by rewrite Hn.
Qed.

(** From the rate limiter on. *)
Lemma ends_limiter t sh zs info reply :
  t_stage t = AtLimiter info reply → t_sent t = [] → t_request t = request → t_transport t = env_transport e →
  s_store sh = [zs] →
  ends_as (mkSystem sh [t]) (conclude_with (env_transport e)
    (let '(decision, rrl) := decide (env_now e) (src info) (reply_kind reply) (is_tcp info) (s_rrl sh) in
     let st := mkServerState zs rrl in
     match decision with
     | Allow => (send (env_transport e) zs (req_metadata request) reply request (is_tcp info), st)
     | Drop => (([], Returned (Ok (response_info (response_from_request (req_metadata request))))), st)
     | Truncate => (send_response (env_transport e) (truncated_response (req_metadata request)), st)
     end)).
Proof.
  intros Hs Hn Hr Ht Hz. unfold decide. destruct (exempt _ _) eqn:Ex.
  { eapply (ends_advance (mkChoice Elapsed 0)).
    - unfold advance, limit. by rewrite Hs, Ex.
    - by apply ends_send. }
  destruct (check_limit _ _ _ _) as [ok rr] eqn:Ec.
  eapply (ends_advance (mkChoice Elapsed (env_now e))).
  { unfold advance, limit. simpl. by rewrite Hs, Ex, Ec. }
  destruct ok; [by apply (ends_send _ (set_rrl rr sh))|].
  eapply (ends_advance (mkChoice Elapsed 0)); [done|]. simpl. rewrite Hr, Ht.
  set (d := slip_decision _ _). set (rr' := mkRrl _ _ _ _). destruct d.
  - by apply (ends_send _ (set_rrl rr' (set_rrl rr sh))).
  - by apply (ends_end _ (set_rrl rr' (set_rrl rr sh))).
  - unfold send_response. apply (ends_end _ (set_rrl rr' (set_rrl rr sh))); [done| |done..]. simpl. by rewrite Hn.
Qed.

(** The store with one configuration, after a change of one client. *)
Definition one_store (zs : Zones) (addr : IpAddr) (u : Upstream) (r : Rrl) (now : N) : Shared :=
  mkShared [mkZones (config zs) (<[addr := u]> (upstreams zs))] r now.

Lemma one_store_client zs addr u r now : client (one_store zs addr u r now) 0 addr = Some u.
Proof. unfold client, one_store. simpl. by rewrite lookup_insert_eq. Qed.

Lemma one_store_set zs addr u u' r now :
  set_client 0 addr u' (one_store zs addr u r now) = one_store zs addr u' r now.
Proof. unfold set_client, one_store. simpl. by rewrite insert_insert_eq. Qed.

Lemma conclude_one j kept t zs u r now :
  t_gen t = 0%nat →
  conclude j kept t (one_store zs (j_addr j) u r now) =
  Some (goto (AtLimiter (j_info j) (decide_end (config zs) (j_qname j) (j_records j) kept)) t,
        one_store zs (j_addr j) u r now).
Proof. intros Hg. unfold conclude. by rewrite Hg. Qed.

(** The lookup, from the breaker to the return of the permit. *)
Lemma ends_lookup t zs r j u out :
  let le := env_lookup e in
  t_stage t = AtBreaker j → t_gen t = 0%nat → upstreams zs !! j_addr j = Some u →
  env_begin le <= env_end le →
  (∀ up, upstream_qname (j_qname j) = Some up → env_outcome le up = Elapsed → env_begin le + timeout u <= env_end le) →
  (let '(kept, u') := lookup_ptr le (j_qname j) u in
   ∀ now, ends_as (mkSystem (one_store zs (j_addr j) u' r now)
     [goto (AtLimiter (j_info j) (decide_end (config zs) (j_qname j) (j_records j) kept)) t]) out) →
  ends_as (mkSystem (mkShared [zs] r (env_begin le)) [t]) out.
Proof.
  intros le Hs Hg Hu Hle Hto. unfold lookup_ptr, lookup_begin.
  destruct (Breaker.is_open (env_begin le) (breaker u)) as [open b] eqn:Eo. intros Hend.
  set (a := j_addr j) in *. set (u1 := set_breaker b u) in *.
  assert (advance (mkChoice Elapsed 0) t (mkShared [zs] r (env_begin le)) =
    if open then Some (goto (AtLimiter (j_info j) (decide_end (config zs) (j_qname j) (j_records j) [])) t,
                       one_store zs a u1 r (env_begin le))
    else Some (goto (AtSemaphore j) t, one_store zs a u1 r (env_begin le))) as Hstep.
  { unfold advance. rewrite Hs. unfold check_breaker, client. simpl. rewrite Hg. simpl. fold a.
    rewrite Hu. simpl. rewrite Eo. destruct open; [by rewrite <- (conclude_one j [])|done]. }
  destruct open; (eapply ends_advance; [exact Hstep|]); [apply Hend|]. clear Hstep.
  assert (∀ u2 now kept, ends_as (mkSystem (one_store zs a (set_inflight (inflight u2 + 1) u2) r now)
      [goto (AtLimiter (j_info j) (decide_end (config zs) (j_qname j) (j_records j) kept)) t]) out →
    ends_as (mkSystem (one_store zs a u2 r now) [goto (AtRelease j kept) t]) out) as Hrel.
  { intros u2 now kept. apply (ends_advance (mkChoice Elapsed 0)). unfold advance. simpl. unfold release. simpl. rewrite Hg.
    fold a. rewrite one_store_client. simpl. rewrite one_store_set. by apply (conclude_one j kept (goto (AtRelease j kept) t)). }
  destruct (inflight u1 =? 0) eqn:Ei.
  { eapply (ends_advance (mkChoice Elapsed 0)); [|apply Hend]. unfold advance. simpl. unfold acquire. simpl. rewrite Hg.
    fold a. rewrite one_store_client. cbn [mbind option_bind]. rewrite Ei. by apply (conclude_one j [] (goto (AtSemaphore j) t)). }
  set (u2 := set_inflight (inflight u1 - 1) u1) in *.
  assert (advance (mkChoice Elapsed 0) (goto (AtSemaphore j) t) (one_store zs a u1 r (env_begin le)) =
    Some (goto match upstream_qname (j_qname j) with
               | None => AtRelease j [] | Some up => AtUpstream j up (env_begin le + timeout u1) end t,
          one_store zs a u2 r (env_begin le))) as Hacq.
  { unfold advance. simpl. unfold acquire. simpl. rewrite Hg. fold a. rewrite one_store_client. cbn [mbind option_bind]. rewrite Ei.
    by rewrite one_store_set. }
  eapply ends_advance; [exact Hacq|]. clear Hacq.
  destruct (upstream_qname (j_qname j)) as [up|]; [|by apply Hrel]. specialize (Hto up eq_refl).
  apply (ends_label (LTick (env_end le)) _ (mkSystem (one_store zs a u2 r (env_end le))
    [goto (AtUpstream j up (env_begin le + timeout u1)) t])); [done| |].
  { simpl. by rewrite (proj2 (N.leb_le _ _)). }
  assert (∀ kept b', ends_as (mkSystem (one_store zs a (set_inflight (inflight u2 + 1) (set_breaker b' u2)) r (env_end le))
      [goto (AtLimiter (j_info j) (decide_end (config zs) (j_qname j) (j_records j) kept)) t]) out →
    ends_as (mkSystem (one_store zs a (set_breaker b' u2) r (env_end le)) [goto (AtRelease j kept) t]) out) as Hrec.
  { intros kept b' H. apply Hrel. exact H. }
  assert (∀ o, advance (mkChoice o 0) (goto (AtUpstream j up (env_begin le + timeout u1)) t)
      (one_store zs a u2 r (env_end le)) =
    answered_by o j up (env_begin le + timeout u1) (goto (AtUpstream j up (env_begin le + timeout u1)) t)
      (one_store zs a u2 r (env_end le))) as Hadv by done.
  assert (client (one_store zs a u2 r (env_end le)) (t_gen t) a = Some u2) as Hcl by (rewrite Hg; apply one_store_client).
  unfold lookup_end in Hend.
  apply (ends_advance (mkChoice (env_outcome le up) 0) _ _
    (goto (AtRelease j (fst (lookup_end (env_end le) (j_qname j) up (env_outcome le up) u2))) t)
    (one_store zs a (set_breaker (match env_outcome le up with
       | Elapsed => snd (Breaker.record_failure (env_end le) (breaker u2))
       | _ => Breaker.record_success (breaker u2) end) u2) r (env_end le))).
  - rewrite Hadv. unfold answered_by, lookup_end. cbn [t_gen goto]. fold a. rewrite Hcl. cbn [mbind option_bind].
    destruct (env_outcome le up); rewrite ?Hg, ?one_store_set; [done..|].
    by rewrite (proj2 (N.ltb_ge (s_now _) _)) by (by apply Hto).
  - unfold lookup_end. by destruct (env_outcome le up); apply Hrec, Hend.
Qed.

(** The environment is one that the clock allows: a lookup takes no negative time,
    and fails by its deadline only after the timeout. *)
Definition plausible (st : ServerState) : Prop :=
  let le := env_lookup e in
  env_begin le <= env_end le ∧
  ∀ info addr records u up, req_info request = Ok info →
    decide_begin (st_zones st) (query_name info) (query_type info) (query_class info) = Consult addr records →
    upstreams (st_zones st) !! addr = Some u → upstream_qname (query_name info) = Some up →
    env_outcome le up = Elapsed → env_begin le + timeout u <= env_end le.

Lemma alone_handle_request st :
  (∀ z, env_reloaded e z = z) → plausible st →
  ends_as (mkSystem (mkShared [st_zones st] (st_rrl st) (env_begin (env_lookup e)))
    [mkThread request (env_transport e) 0 AtStart []]) (handle_request e request st).
Proof.
  intros Hre [Hle Hto]. destruct st as [zs r]. simpl in Hto.
  assert (handle_request e request (mkServerState zs r) =
    conclude_with (env_transport e) (handle_inner e request (mkServerState zs r))) as -> by done.
  unfold handle_inner. set (sh := mkShared [zs] r (env_begin (env_lookup e))).
  set (t := mkThread request (env_transport e) 0 AtStart []).
  destruct (req_info request) as [info|reason] eqn:Ei.
  2:{ eapply (ends_advance (mkChoice Elapsed 0)); [unfold advance; simpl; by rewrite Ei|]. by apply (ends_end _ sh). }
  assert (∀ ch, advance ch t sh = begin_request info t sh) as Hadv.
  { intros ch. unfold advance, t. simpl. by rewrite Ei. }
  cbn [st_zones st_rrl]. destruct (negb _) eqn:Eop.
  { eapply (ends_advance (mkChoice Elapsed 0)); [rewrite Hadv; unfold begin_request; simpl; by rewrite Eop|].
    by apply (ends_send _ sh zs info (Reply_error ResponseCode.NotImp)). }
  destruct (0 <? version request) eqn:Ev.
  { eapply (ends_advance (mkChoice Elapsed 0)); [rewrite Hadv; unfold begin_request; simpl; by rewrite Eop, Ev|].
    by apply (ends_send _ sh zs info (Reply_error ResponseCode.BADVERS)). }
  eapply (ends_advance (mkChoice Elapsed 0)); [rewrite Hadv; unfold begin_request; simpl; by rewrite Eop, Ev|].
  rewrite decide_begin_spec.
  destruct (decide_begin zs _ _ _) as [reply|addr records] eqn:Eb.
  { rewrite Hre. by apply (ends_limiter _ sh zs info reply). }
  destruct (decide_begin_client _ _ _ _ _ _ Eb) as [u Hu]. rewrite Hu.
  eapply (ends_lookup _ zs r (mkJob info addr records) u); [done|done|done|done|by intros; eapply Hto|].
  unfold j_qname. simpl. destruct (lookup_ptr _ _ _) as [kept u']. intros now. rewrite Hre.
  by apply (ends_limiter _ (one_store zs addr u' r now)).
Qed.
End Alone.

(** ** Every run of the steps is one of the handler *)

Section Every.
Context {D : DnsOps} {L : DnsLaws D} {R : ResolverOps} {G : LimiterOps} {M : MessageOps}
  {ML : MessageLaws M}.
Variables (path : bytes) (request : Request) (transport : Response → result ResponseInfo bytes).

Definition Post : Type := list Response → ResponseInfo → list Zones → Rrl → Prop.

(** However the request is run to its end, [P] holds of what it sent and returned,
    and of what it left. *)
Definition always_ends (s : System) (P : Post) : Prop :=
  ∀ ls s' t info, Forall own_step ls → run_labels path ls s = Some s' → sys_threads s' = [t] →
    t_stage t = Finished info → P (t_sent t) info (s_store (sys_shared s')) (s_rrl (sys_shared s')).

Definition meets (P : Post) (out : list Response * ResponseInfo * ServerState) : Prop :=
  let '(sent, info, st) := out in P sent info [st_zones st] (st_rrl st).

Definition at_now (now : N) (s : Shared) : Shared := mkShared (s_store s) (s_rrl s) now.

(** The clock moves, and then the request takes a step. *)
Lemma always_step t sh P :
  is_over t = false →
  (∀ now ch t' sh', s_now sh <= now → advance ch t (at_now now sh) = Some (t', sh') →
     always_ends (mkSystem sh' [t']) P) →
  always_ends (mkSystem sh [t]) P.
Proof.
  intros Ho H ls. revert sh H. induction ls as [|l ls IH]; intros sh H s' t0 info Hls Hr Ht Hi.
  - injection Hr as <-. injection Ht as ->. unfold is_over in Ho. by rewrite Hi in Ho.
  - apply Forall_cons in Hls as [Hl Hls]. destruct l as [now|request' tr|i ch|i|read|kind instant]; try done; simpl in Hr.
    + destruct (N.leb_spec (s_now sh) now) as [Hle|]; [|done]. simpl in Hr.
      apply (IH (at_now now sh)) with (s' := s'); try done. intros now' ch t' sh' Hn. simpl in Hn. apply H. lia.
    + simpl in Hl. subst i. unfold on_thread in Hr. simpl in Hr.
      destruct (advance ch t sh) as [[t' sh']|] eqn:E; [|done]. simpl in Hr.
      by apply (H (s_now sh) ch t' sh') with (ls := ls) (s' := s'); [lia|destruct sh|..].
Qed.

Lemma always_over t sh P info :
  t_stage t = Finished info → P (t_sent t) info (s_store sh) (s_rrl sh) → always_ends (mkSystem sh [t]) P.
Proof.
  intros Hs HP ls. revert sh HP. induction ls as [|l ls IH]; intros sh HP s' t0 i Hls Hr Ht Hi.
  - injection Hr as <-. injection Ht as <-. simpl. congruence.
  - apply Forall_cons in Hls as [Hl Hls]. destruct l as [now|request' tr|k ch|k|read|kind instant]; try done; simpl in Hr.
    + destruct (_ <=? _); [|done]. simpl in Hr. by apply (IH (mkShared (s_store sh) (s_rrl sh) now) HP s' t0).
    + simpl in Hl. subst k. unfold on_thread in Hr. simpl in Hr. unfold advance in Hr. by rewrite Hs in Hr.
Qed.

Lemma always_end t sh zs guarded P :
  t_stage t = AtEnd guarded → t_request t = request → t_transport t = transport → s_store sh = [zs] →
  meets P (conclude_with request transport ((t_sent t, guarded), mkServerState zs (s_rrl sh))) →
  always_ends (mkSystem sh [t]) P.
Proof.
  intros Hs Hr Ht Hz HP. apply always_step; [unfold is_over; by rewrite Hs|].
  intros now ch t' sh' _. unfold advance. rewrite Hs. intros [= <- <-].
  destruct guarded as [[i|x]|]; unfold conclude_request, conclude_with in *; rewrite ?Hr, ?Ht; cbn [fst snd] in *;
    (eapply always_over; [done|]; simpl; rewrite Hz; exact HP).
Qed.

Lemma always_send t sh zs info reply P :
  t_stage t = AtSend info reply → t_sent t = [] → t_request t = request → t_transport t = transport →
  s_store sh = [zs] →
  meets P (conclude_with request transport
    (send transport zs (req_metadata request) reply request (is_tcp info), mkServerState zs (s_rrl sh))) →
  always_ends (mkSystem sh [t]) P.
Proof.
  intros Hs Hn Hr Ht Hz HP. apply always_step; [unfold is_over; by rewrite Hs|].
  intros now ch t' sh' _. unfold advance. rewrite Hs. unfold deliver, current, at_now. simpl. rewrite Hz. simpl.
  rewrite Hr, Ht. destruct (send _ _ _ _ _ _) as [sent guarded]. intros [= <- <-].
  eapply (always_end _ _ zs guarded); [done..|]. simpl. by rewrite Hn.
Qed.

Lemma always_limiter t sh zs info reply P :
  t_stage t = AtLimiter info reply → t_sent t = [] → t_request t = request → t_transport t = transport →
  s_store sh = [zs] →
  (∀ instant, meets P (conclude_with request transport
    (let '(decision, rrl) := decide instant (src info) (reply_kind reply) (is_tcp info) (s_rrl sh) in
     let st := mkServerState zs rrl in
     match decision with
     | Allow => (send transport zs (req_metadata request) reply request (is_tcp info), st)
     | Drop => (([], Returned (Ok (response_info (response_from_request (req_metadata request))))), st)
     | Truncate => (send_response transport (truncated_response (req_metadata request)), st)
     end))) →
  always_ends (mkSystem sh [t]) P.
Proof.
  intros Hs Hn Hr Ht Hz HP. apply always_step; [unfold is_over; by rewrite Hs|].
  intros now ch t' sh' _. unfold advance. rewrite Hs. specialize (HP (ch_instant ch)).
  unfold limit, decide in *. cbn [s_rrl at_now]. destruct (exempt _ _).
  { intros [= <- <-]. by apply (always_send _ _ zs info reply). }
  destruct (check_limit _ _ _ _) as [ok rr]. intros [= <- <-].
  destruct ok; [by apply (always_send _ _ zs info reply)|].
  apply always_step; [done|]. intros now' ch' t' sh' _. unfold advance. cbn [t_stage goto]. intros E%(inj Some).
  unfold suppress in E. cbn [count_suppressed s_rrl set_rrl at_now] in E, HP. cbn [t_request t_transport goto] in E.
  rewrite Hr, Ht in E. destruct (slip_decision _ _); cbn [send_response] in E; injection E as <- <-.
  - by apply (always_send _ _ zs info reply).
  - eapply (always_end _ _ zs); [done..|]. simpl. by rewrite Hn.
  - eapply (always_end _ _ zs); [done..|]. simpl. by rewrite Hn.
Qed.

(** The lookup, in an environment that the clock allows. *)
Lemma always_lookup t zs r now0 j u P :
  t_stage t = AtBreaker j → t_gen t = 0%nat → upstreams zs !! j_addr j = Some u →
  (∀ le, env_begin le <= env_end le →
     (∀ up, upstream_qname (j_qname j) = Some up → env_outcome le up = Elapsed →
        env_begin le + timeout u <= env_end le) →
     let '(kept, u') := lookup_ptr le (j_qname j) u in
     ∀ now, always_ends (mkSystem (one_store zs (j_addr j) u' r now)
       [goto (AtLimiter (j_info j) (decide_end (config zs) (j_qname j) (j_records j) kept)) t]) P) →
  always_ends (mkSystem (mkShared [zs] r now0) [t]) P.
Proof.
  intros Hs Hg Hu H. set (a := j_addr j) in *.
  set (limited kept := goto (AtLimiter (j_info j) (decide_end (config zs) (j_qname j) (j_records j) kept)) t).
  apply always_step; [unfold is_over; by rewrite Hs|].
  intros tb ch t' sh' _. unfold advance. rewrite Hs. unfold check_breaker, client, at_now. simpl. rewrite Hg. simpl.
  fold a. rewrite Hu. simpl. destruct (Breaker.is_open tb (breaker u)) as [open b] eqn:Eo.
  set (u1 := set_breaker b u) in *. change (set_client 0 a u1 _) with (one_store zs a u1 r tb).
  assert (∀ te o, tb <= te →
    (∀ up, upstream_qname (j_qname j) = Some up → o = Elapsed → tb + timeout u <= te) →
    let '(kept, u') := match lookup_begin tb (j_qname j) u with
                       | (None, u) => ([], u)
                       | (Some up, u) => lookup_end te (j_qname j) up o u
                       end in
    ∀ now, always_ends (mkSystem (one_store zs a u' r now) [limited kept]) P) as Hle.
  { intros te o Hte Ho. apply (H (mkLookupEnv tb te (λ _, o)) Hte). intros up Hup. by apply (Ho up). }
  clear H. unfold lookup_begin in Hle. rewrite Eo in Hle. fold u1 in Hle. destruct open.
  { subst a; rewrite conclude_one by done. intros [= <- <-]. apply (Hle tb Failed); [lia|done]. }
  intros [= <- <-]. apply always_step; [done|]. intros ta ch1 t' sh' Hta. simpl in Hta. unfold advance. cbn [t_stage goto].
  unfold acquire. cbn [t_gen goto]. rewrite Hg. fold a. change (at_now ta _) with (one_store zs a u1 r ta).
  rewrite one_store_client. cbn [mbind option_bind]. destruct (inflight u1 =? 0) eqn:Ei.
  { subst a; rewrite conclude_one by done. intros [= <- <-]. apply (Hle tb Failed); [lia|done]. }
  rewrite one_store_set. set (u2 := set_inflight (inflight u1 - 1) u1) in *. intros [= <- <-].
  assert (∀ now kept u3, (∀ now, always_ends (mkSystem (one_store zs a (set_inflight (inflight u3 + 1) u3) r now) [limited kept]) P) →
    always_ends (mkSystem (one_store zs a u3 r now) [goto (AtRelease j kept) t]) P) as Hrel.
  { intros now kept u3 H. apply always_step; [done|]. intros tr ch2 t' sh' _. unfold advance. cbn [t_stage goto].
    unfold release. cbn [t_gen goto]. rewrite Hg. fold a. change (at_now tr _) with (one_store zs a u3 r tr).
    rewrite one_store_client. cbn [mbind option_bind]. rewrite one_store_set. subst a. rewrite conclude_one by done. intros [= <- <-]. apply H. }
  destruct (upstream_qname (j_qname j)) as [up|] eqn:Eup; [|apply Hrel, (Hle tb Failed); [lia|done]].
  apply always_step; [done|]. intros te ch2 t' sh' Hte. simpl in Hte. unfold advance. cbn [t_stage goto].
  unfold answered_by. cbn [t_gen goto]. rewrite Hg. fold a. change (at_now te _) with (one_store zs a u2 r te).
  rewrite one_store_client. cbn [mbind option_bind]. unfold lookup_end in Hle.
  destruct (ch_outcome ch2) as [answers| |].
  - rewrite one_store_set. intros [= <- <-]. apply Hrel, (Hle te (Found answers)); [lia|done].
  - rewrite one_store_set. intros [= <- <-]. apply Hrel, (Hle te Failed); [lia|done].
  - destruct (N.ltb_spec (s_now (one_store zs a u2 r te)) (ta + timeout u)) as [|Hdl]; [done|].
    rewrite one_store_set. intros [= <- <-]. apply Hrel, (Hle te Elapsed); [lia|].
    intros _ _ _. simpl in Hdl. lia.
Qed.

Lemma every_run_handled st now :
  always_ends (mkSystem (mkShared [st_zones st] (st_rrl st) now) [mkThread request transport 0 AtStart []])
    (λ sent info store rrl, ∃ e st', env_transport e = transport ∧ (∀ z, env_reloaded e z = z) ∧
       plausible e request st ∧ handle_request e request st = (sent, info, st') ∧
       store = [st_zones st'] ∧ rrl = st_rrl st').
Proof.
  destruct st as [zs r]. set (P := λ sent info store rrl, _). set (sh := mkShared _ _ _).
  set (t := mkThread _ _ _ _ _). set (env le instant := mkEnv instant le transport (λ z, z)).
  assert (∀ le instant, plausible (env le instant) request (mkServerState zs r) →
    meets P (conclude_with request transport (handle_inner (env le instant) request (mkServerState zs r)))) as HP.
  { intros le instant Hp. change (conclude_with _ _ _) with (handle_request (env le instant) request (mkServerState zs r)).
    destruct (handle_request (env le instant) request (mkServerState zs r)) as [[sent info] st'] eqn:E.
    exists (env le instant), st'. by rewrite E. }
  set (idle := mkLookupEnv 0 0 (λ _, Failed)).
  assert (plausible (env idle 0) request (mkServerState zs r)) as Hidle by (by split).
  unfold handle_inner in HP. cbn [env_transport env_lookup env_now env_reloaded env st_zones st_rrl] in HP.
  apply always_step; [done|]. intros now1 ch t' sh' _. unfold advance. cbn [t_stage t_request t].
  destruct (req_info request) as [info|reason] eqn:Ei.
  2:{ intros [= <- <-]. eapply (always_end _ _ zs); [done..|]. by apply (HP idle 0). }
  unfold begin_request. cbn [t_request t]. destruct (negb _).
  { intros [= <- <-]. eapply (always_send _ _ zs); [done..|]. by apply (HP idle 0). }
  destruct (0 <? version request).
  { intros [= <- <-]. eapply (always_send _ _ zs); [done..|]. by apply (HP idle 0). }
  cbn [current s_store at_now sh length pred lookup list_lookup mbind option_bind]. intros [= <- <-].
  destruct (decide_begin zs _ _ _) as [reply|addr records] eqn:Eb.
  { eapply (always_limiter _ _ zs); [done..|]. intros instant. specialize (HP idle instant Hidle).
    by rewrite decide_begin_spec, Eb in HP. }
  destruct (decide_begin_client _ _ _ _ _ _ Eb) as [u Hu].
  apply (always_lookup _ _ _ _ (mkJob info addr records) u); [done..|]. intros le Hle Hto.
  destruct (lookup_ptr _ _ _) as [kept u'] eqn:El. intros now2. eapply (always_limiter _ _ (mkZones _ _)); [done..|].
  intros instant. assert (plausible (env le instant) request (mkServerState zs r)) as Hp.
  { split; [done|]. intros info' addr' records' u0 up Hi Hb Hu0. cbn [st_zones] in Hb, Hu0. rewrite Ei in Hi. injection Hi as <-.
    rewrite Eb in Hb. injection Hb as <- <-. rewrite Hu in Hu0. injection Hu0 as <-. apply Hto. }
  specialize (HP le instant Hp). change (lookup_ptr le (query_name info) u = (kept, u')) in El. by rewrite decide_begin_spec, Eb, Hu, El in HP.
Qed.
End Every.

(** ** Properties *)

Section Properties.
Context {D : DnsOps} {L : DnsLaws D} {R : ResolverOps} {G : LimiterOps} {M : MessageOps}
  {ML : MessageLaws M}.

(** C11.  A request that overlaps with nothing is handled by [handle_request].  Take
    a server that does nothing but let the clock move and run one request, and an
    environment whose clock is possible: a lookup ends no earlier than it began, and
    fails by its deadline only after the timeout.  In every such environment there is
    a run of the request to its end that sends the responses of [handle_request],
    returns its result and leaves the configuration, the breakers, the permits and
    the rate limiter as it does.  And every run of the request to its end, however
    the steps fall and whatever the clock does between them, is one of
    [handle_request] in such an environment, so what is proved of [handle_request]
    for all environments holds of it. *)
Theorem handle_request_alone (path : bytes) (request : Request) (st : ServerState) :
  (∀ e, (∀ z, env_reloaded e z = z) → plausible e request st →
     let '(sent, info, st') := handle_request e request st in
     ∃ ls t s', Forall own_step ls ∧
       run_labels path (LArrive request (env_transport e) :: ls) (start st (env_begin (env_lookup e))) = Some s' ∧
       sys_threads s' = [t] ∧ t_stage t = Finished info ∧ t_sent t = sent ∧
       s_store (sys_shared s') = [st_zones st'] ∧ s_rrl (sys_shared s') = st_rrl st') ∧
  (∀ transport now ls t s' info,
     Forall own_step ls → run_labels path (LArrive request transport :: ls) (start st now) = Some s' →
     sys_threads s' = [t] → t_stage t = Finished info →
     ∃ e st', env_transport e = transport ∧ (∀ z, env_reloaded e z = z) ∧ plausible e request st ∧
       handle_request e request st = (t_sent t, info, st') ∧
       s_store (sys_shared s') = [st_zones st'] ∧ s_rrl (sys_shared s') = st_rrl st').
Proof.
  split.
  - intros e Hre Hp. pose proof (alone_handle_request path e request st Hre Hp) as H.
    by destruct (handle_request e request st) as [[sent info] st'].
  - intros transport now ls t s' info Hls Hr Ht Hi.
    exact (every_run_handled path request transport st now ls s' t info Hls Hr Ht Hi).
Qed.
End Properties.

(** ** Instances *)

#[local] Existing Instance LabelName.ops.
#[local] Existing Instance LabelName.laws.
#[local] Existing Instance EchoResolver.ops.
#[local] Existing Instance TokenBucket.ops.
#[local] Existing Instance EchoMessages.ops.
#[local] Existing Instance EchoMessages.laws.

Definition patient_env : Env :=
  mkEnv 0 (mkLookupEnv 0 (from_millis 300) (λ _, Elapsed)) ptr_transport (λ z, z).

(** The breaker, the permit, the timeout, its recording, the permit returned, the
    limiter, the response and the end. *)
Definition patient_steps : list Label :=
  let step := LAdvance 0 (mkChoice Elapsed 0) in
  [step; step; step; LTick (from_millis 300); step; step; step; step; step].

Definition patient_run : option System :=
  run_labels (cli_config sample_cli) (LArrive (ptr_request false) ptr_transport :: patient_steps) (start sample_start 0).

(** A run that ended with its one request handled. *)
Definition handled (o : option System) : bool :=
  match o with
  | Some (mkSystem _ [t]) => match t_stage t with Finished _ => true | _ => false end
  | _ => false
  end.

Lemma handled_ends o :
  handled o = true → ∃ s t info, o = Some s ∧ sys_threads s = [t] ∧ t_stage t = Finished info.
Proof.
  destruct o as [[sh [|t [|]]]|]; try done. unfold handled. destruct (t_stage t) eqn:E; try done. by eexists (mkSystem sh [t]), t, _.
Qed.

Lemma handle_request_alone_witness :
  (let '(sent, info, st') := handle_request patient_env (ptr_request false) sample_start in
   ∃ ls t s', Forall own_step ls ∧
     run_labels (cli_config sample_cli) (LArrive (ptr_request false) (env_transport patient_env) :: ls)
       (start sample_start (env_begin (env_lookup patient_env))) = Some s' ∧
     sys_threads s' = [t] ∧ t_stage t = Finished info ∧ t_sent t = sent ∧
     s_store (sys_shared s') = [st_zones st'] ∧ s_rrl (sys_shared s') = st_rrl st') ∧
  ∃ s' t info e st', patient_run = Some s' ∧ sys_threads s' = [t] ∧ t_stage t = Finished info ∧
    env_transport e = ptr_transport ∧ (∀ z, env_reloaded e z = z) ∧
    plausible e (ptr_request false) sample_start ∧
    handle_request e (ptr_request false) sample_start = (t_sent t, info, st') ∧
    s_store (sys_shared s') = [st_zones st'] ∧ s_rrl (sys_shared s') = st_rrl st'.
Proof.
  pose proof (handle_request_alone (cli_config sample_cli) (ptr_request false) sample_start) as [Hf Hb]. split.
  - apply (Hf patient_env); [done|]. split; [by vm_compute|]. intros info addr records u n _ _ Hu _ _.
    assert (timeout u = from_millis 300) as ->; [|done].
    assert (map_Forall (λ _ u, timeout u = from_millis 300) (upstreams (st_zones sample_start))) as H; [|by eapply H].
    apply (bool_decide_unpack _). by vm_compute.
  - destruct (handled_ends patient_run) as (s' & t & info & Hr & Ht & Hi); [by vm_compute|].
    assert (Forall own_step patient_steps) as Hls by by repeat constructor.
    pose proof Hr as Hrun. unfold patient_run in Hrun.
    destruct (Hb ptr_transport 0 patient_steps t s' info Hls Hrun Ht Hi) as (e & st' & H).
    exists s', t, info, e, st'. exact (conj Hr (conj Ht (conj Hi H))).
Defined.
