(* ===== verification/Vectors.v ===== *)
(** * The repository's own unit tests, on the model

    Every test of the [#[cfg(test)]] modules of nibble.rs, rrl.rs, upstream.rs and
    bind.rs that needs no network is a definition here, true when all its
    assertions hold, and each is evaluated.  The property tests take the values
    that proptest would choose; they are proved for all of them.  Names are those
    of [LabelName]; the limiter is [TokenBucket], within one instant, as the tests
    take no measurable time. *)

From S2P Require Import Prelude RustText RustNet ConfigError Dns Nibble Config Rrl RrlSpec Upstream Handler Server.

(** An assertion of equality. *)
Definition asserted {A} `{!EqDecision A} (a b : A) : bool := bool_decide (a = b).
Infix "≟" := asserted (at level 70, no associativity) : pdns_scope.

(** [unwrap], and an assertion on what it yields. *)
Definition unwrapped {A} (o : option A) (f : A → bool) : bool :=
  match o with Some a => f a | None => false end.

Definition is_none {A} (o : option A) : bool := match o with Some _ => false | None => true end.
Definition is_some {A} (o : option A) : bool := negb (is_none o).

(** [str::contains]. *)
Definition contains_str (s pat : bytes) : bool := is_some (str_find s pat).

Definition repeat_byte (b : byte) (n : nat) : bytes := replicate n b.

(** [s.parse::<Ipv6Addr>().unwrap()] as a number, and [s.parse::<IpAddr>().unwrap()]. *)
Definition addr_lit (s : string) : N := default 0 (Ipv6Addr_from_str (bs s)).
Definition ip_lit (s : string) : IpAddr := default (V4 0) (IpAddr_from_str (bs s)).

(** ** Property tests of nibble.rs, for every input *)

Section NibbleProperties.
Context {D : DnsOps}.

Definition ptr_name_roundtrip_is_identity (raw : N) : bool :=
  unwrapped (netmask_to_ptr_name raw 128) (λ n, ptr_name_to_addr n ≟ Some raw).

Definition host_digit_roundtrip_is_identity (raw nibbles : N) : bool :=
  unwrapped (host_digits raw nibbles) (λ digits,
    (len digits ≟ nibbles) &&
    unwrapped (digits_to_host digits nibbles) (λ host,
      host ≟ N.land raw (u128_not (mask_bits (128 - nibbles * 4))))).

Definition ptr_zone_has_one_label_per_network_nibble (raw q : N) : bool :=
  unwrapped (netmask_to_ptr_name raw (q * 4)) (λ n, num_labels n ≟ q + 2).

Definition arbitrary_labels_never_panic (ls : list bytes) : bool :=
  match from_labels ls with
  | Err _ => true
  | Ok n =>
      let n := set_fqdn true n in
      match ptr_name_to_addr n with
      | None => true
      | Some parsed => unwrapped (netmask_to_ptr_name parsed 128) (λ rebuilt, name_eq rebuilt n)
      end
  end.

Definition synthesized_address_stays_in_prefix (prefix_raw q host_raw : N) : bool :=
  let mask := q * 4 in
  let prefix := N.land prefix_raw (mask_bits mask) in
  let host_nibbles := (128 - mask) / 4 in
  let host := N.land host_raw (u128_not (mask_bits mask)) in
  let addr := N.lor prefix host in
  unwrapped (host_digits addr host_nibbles) (λ digits,
    unwrapped (digits_to_host digits host_nibbles) (λ decoded,
      (N.lor prefix decoded ≟ addr) && (N.land addr (mask_bits mask) ≟ prefix))).

Definition dash_group_roundtrip_is_identity (raw groups : N) : bool :=
  let host_nibbles := groups * 4 in
  unwrapped (host_digits raw host_nibbles) (λ digits,
    undash_group (dash_group digits) host_nibbles ≟ Some digits).
End NibbleProperties.

Section NibblePropertyTheorems.
Context {D : DnsOps} {L : DnsLaws D}.

Lemma asserted_true {A} `{!EqDecision A} (a b : A) : ((a ≟ b) = true) ↔ a = b.
Proof. apply bool_decide_eq_true. Qed.

Lemma host_part a nibbles :
  nibbles <= 32 → N.land a (u128_not (mask_bits (128 - nibbles * 4))) = a mod 2 ^ (4 * nibbles).
Proof. intros Hn. rewrite host_mask, N.land_ones by lia. do 2 f_equal. lia. Qed.

Lemma host_digits_decode a nibbles :
  nibbles <= 32 → ∃ d, host_digits a nibbles = Some d ∧ d = host_text (N.to_nat nibbles) a ∧
    len d = nibbles ∧ digits_to_host d nibbles = Some (a mod 2 ^ (4 * nibbles)).
Proof.
  intros Hn. exists (host_text (N.to_nat nibbles) a). split; [by apply host_digits_text|]. split; [done|].
  assert (len (host_text (N.to_nat nibbles) a) = nibbles) as El by (unfold len; rewrite length_host_text; lia).
  split; [done|]. rewrite <- pow16. apply digits_to_host_Some; [done|].
  split; [done|]. split; [apply N.mod_lt; by apply N.pow_nonzero|].
  rewrite host_text_lower. rewrite <- (host_text_mod (N.to_nat nibbles) a). by rewrite N2Nat.id.
Qed.

Lemma reverse_name_parses raw :
  raw < 2 ^ 128 → ∃ n, netmask_to_ptr_name raw 128 = Some n ∧ is_fqdn n = true ∧ labels n = addr_labels raw.
Proof.
  intros Hr. destruct (netmask_to_ptr_name_valid raw 128) as (n & Hn & Hl & Hf); [done..|].
  change (128 / 4) with 32 in Hl. rewrite zone_labels_128 in Hl. by exists n.
Qed.

Lemma arbitrary_labels_hold ls : arbitrary_labels_never_panic ls = true.
Proof.
  unfold arbitrary_labels_never_panic. destruct (from_labels ls) as [n|]; [|done].
  destruct (ptr_name_to_addr (set_fqdn true n)) as [a|] eqn:Ea; [|done].
  apply ptr_name_to_addr_Some in Ea as [Ha Hl].
  destruct (reverse_name_parses a Ha) as (z & -> & Hz & Hzl). simpl.
  apply name_eq_spec; [done|apply set_fqdn_is_fqdn|]. by rewrite Hzl.
Qed.

Lemma synthesized_address_holds raw q host :
  raw < 2 ^ 128 → 1 <= q <= 32 → synthesized_address_stays_in_prefix raw q host = true.
Proof.
  intros Hr Hq. unfold synthesized_address_stays_in_prefix. cbv zeta.
  assert ((128 - q * 4) / 4 = 32 - q) as E by lia.
  rewrite E, host_mask, N.land_ones by lia.
  set (p := N.land raw (mask_bits (q * 4))). set (h := host mod 2 ^ (128 - q * 4)).
  destruct (prefix_lor_host p h (q * 4)) as (H1 & H2 & H3);
    [lia|apply N.mod_lt; by apply N.pow_nonzero|apply land_mask_idemp|].
  destruct (host_digits_decode (N.lor p h) (32 - q)) as (d & -> & _ & _ & Hd); [lia|]. simpl. rewrite Hd. simpl.
  replace (4 * (32 - q)) with (128 - q * 4) by lia. rewrite H3.
  apply andb_true_iff. split; by apply asserted_true.
Qed.

(** C26.  The property tests of nibble.rs hold for every input, and not only for the
    ones that proptest draws: addresses survive the way to an ip6.arpa name and
    back, host digits have the advertised width and decode to the host part, zone
    names have a label per nibble, whatever labels are accepted rebuild to an equal
    name, synthesized addresses stay in their network, and dashes are undone. *)
Theorem nibble_property_tests (raw host nibbles q groups : N) (ls : list bytes) :
  raw < 2 ^ 128 → 1 <= nibbles <= 32 → q <= 32 → 1 <= groups <= 8 →
  ptr_name_roundtrip_is_identity raw = true ∧
  host_digit_roundtrip_is_identity raw nibbles = true ∧
  ptr_zone_has_one_label_per_network_nibble raw q = true ∧
  arbitrary_labels_never_panic ls = true ∧
  (1 <= q → synthesized_address_stays_in_prefix raw q host = true) ∧
  dash_group_roundtrip_is_identity raw groups = true.
Proof.
  intros Hr Hn Hq Hg. split.
  { unfold ptr_name_roundtrip_is_identity. destruct (reverse_name_parses raw Hr) as (n & -> & _ & Hl).
    apply asserted_true, ptr_name_to_addr_Some. by rewrite Hl. }
  split.
  { unfold host_digit_roundtrip_is_identity.
    destruct (host_digits_decode raw nibbles) as (d & -> & _ & El & Hd); [lia|]. simpl. rewrite Hd. simpl.
    apply andb_true_iff. split; apply asserted_true; [done|]. symmetry. apply host_part. lia. }
  split.
  { unfold ptr_zone_has_one_label_per_network_nibble.
    destruct (netmask_to_ptr_name_valid raw (q * 4)) as (n & -> & Hl & _); [lia..|]. simpl.
    apply asserted_true. rewrite num_labels_spec, Hl, label_count_zone. lia. }
  split; [apply arbitrary_labels_hold|].
  split; [intros Hq1; by apply synthesized_address_holds|].
  unfold dash_group_roundtrip_is_identity.
  destruct (host_digits_decode raw (groups * 4)) as (d & -> & -> & El & _); [lia|]. simpl.
  apply asserted_true, undash_group_Some. rewrite dash_group_join by apply host_text_ascii.
  rewrite El. split; [lia|]. split; [lia|done].
Qed.
End NibblePropertyTheorems.

(** ** Unit tests of nibble.rs *)

Module NibbleTests.
#[local] Existing Instance LabelName.ops.

(** [Name::from_ascii(s).unwrap()]. *)
Definition name (s : string) : LabelName.t :=
  match LabelName.parse (bs s) with Ok n => n | Err _ => LabelName.mk [] true end.

(** [Name::to_ascii] without its final dot, of a name of plain labels. *)
Fixpoint to_ascii (ls : list bytes) : bytes :=
  match ls with
  | [] => []
  | [l] => l
  | l :: ls => l ++ bs "." ++ to_ascii ls
  end.

Definition ptr_zone_display (prefix mask : N) : bytes :=
  match netmask_to_ptr_name prefix mask with
  | Some n => to_ascii (labels n)
  | None => bs "panicked"
  end.

Definition netmask_to_ptrzone_vectors_from_perl_suite : bool :=
  let net := addr_lit "2001:4d88:100e:ccc0::" in
  (ptr_zone_display net 64 ≟ bs "0.c.c.c.e.0.0.1.8.8.d.4.1.0.0.2.ip6.arpa") &&
  (ptr_zone_display net 48 ≟ bs "e.0.0.1.8.8.d.4.1.0.0.2.ip6.arpa") &&
  (ptr_zone_display net 80 ≟ bs "0.0.0.0.0.c.c.c.e.0.0.1.8.8.d.4.1.0.0.2.ip6.arpa").

Definition netmask_rejects_non_nibble_aligned_prefix : bool :=
  let net := addr_lit "2001:db8::" in
  forallb (λ mask, is_none (netmask_to_ptr_name net mask)) [1; 2; 3; 63; 65; 127] &&
  forallb (λ mask, is_some (netmask_to_ptr_name net mask)) [4; 20; 60; 68; 124].

Definition netmask_edge_masks : bool :=
  (ptr_zone_display (addr_lit "::") 0 ≟ bs "ip6.arpa") &&
  (ptr_zone_display (addr_lit "2001:4d88:100e:ccc0:219:dbff:fe43:2ec7") 128 ≟
   bs "7.c.e.2.3.4.e.f.f.f.b.d.9.1.2.0.0.c.c.c.e.0.0.1.8.8.d.4.1.0.0.2.ip6.arpa") &&
  is_none (netmask_to_ptr_name (addr_lit "::") 129).

Definition parses_full_ptr_query : bool :=
  let q := name "7.c.e.2.3.4.e.f.f.f.b.d.9.1.2.0.0.c.c.c.e.0.0.1.8.8.d.4.1.0.0.2.ip6.arpa." in
  ptr_name_to_addr q ≟ Some (addr_lit "2001:4d88:100e:ccc0:219:dbff:fe43:2ec7").

Definition ptr_query_is_case_insensitive : bool :=
  let lower := name "7.c.e.2.3.4.e.f.f.f.b.d.9.1.2.0.0.c.c.c.e.0.0.1.8.8.d.4.1.0.0.2.ip6.arpa." in
  let upper := name "7.C.E.2.3.4.E.F.F.F.B.D.9.1.2.0.0.C.C.C.E.0.0.1.8.8.D.4.1.0.0.2.IP6.ARPA." in
  (ptr_name_to_addr lower ≟ ptr_name_to_addr upper) && is_some (ptr_name_to_addr upper).

Definition rejects_partial_and_overlong_ptr_queries : bool :=
  is_none (ptr_name_to_addr (name "0.c.c.c.e.0.0.1.8.8.d.4.1.0.0.2.ip6.arpa.")) &&
  is_none (ptr_name_to_addr
    (name "1.7.c.e.2.3.4.e.f.f.f.b.d.9.1.2.0.0.c.c.c.e.0.0.1.8.8.d.4.1.0.0.2.ip6.arpa.")) &&
  is_none (ptr_name_to_addr (name "ip6.arpa.")).

Definition rejects_wrong_suffix : bool :=
  match from_labels (replicate 32 (bs "0") ++ [bs "ip6"; bs "example"]) with
  | Ok n => is_none (ptr_name_to_addr (set_fqdn true n))
  | Err _ => false
  end.

Definition rejects_non_hex_and_multibyte_nibble_labels : bool :=
  let with_g := name "g.c.e.2.3.4.e.f.f.f.b.d.9.1.2.0.0.c.c.c.e.0.0.1.8.8.d.4.1.0.0.2.ip6.arpa." in
  let two_byte := name "7c.e.2.3.4.e.f.f.f.b.d.9.1.2.0.0.c.c.c.e.0.0.1.8.8.d.4.1.0.0.2.ip6.arpa." in
  is_none (ptr_name_to_addr with_g) && is_none (ptr_name_to_addr two_byte).

Definition evil_labels : list bytes :=
  [bs ";"; ["034"%byte]; bs "a;b"; bs "("; ["092"%byte]; ["010"%byte]; ["000"%byte]; [Byte.xff];
   repeat_byte "a"%byte 63].

Definition rejects_master_file_metacharacters_without_panicking : bool :=
  forallb (λ evil,
    match from_labels (evil :: replicate 31 (bs "0") ++ [bs "ip6"; bs "arpa"]) with
    | Ok n => is_none (ptr_name_to_addr (set_fqdn true n))
    | Err _ => true
    end) evil_labels.

(** The half of the differential test that runs this code. *)
Definition agrees_with_hickory_arpa_parser : bool :=
  forallb (λ sample,
    let expected := addr_lit sample in
    match LabelName.parse (ptr_zone_display expected 128 ++ bs ".") with
    | Ok n => ptr_name_to_addr n ≟ Some expected
    | Err _ => false
    end)
    ["2001:4d88:100e:ccc0:219:dbff:fe43:2ec7"; "::"; "::1"; "2a00:15a0:2:0:0:0:192:1";
     "ffff:ffff:ffff:ffff:ffff:ffff:ffff:ffff"]%string.

Definition host_digits_vectors_from_perl_suite : bool :=
  (host_digits (addr_lit "2001:4d88:100e:ccc0:219:dbff:fe43:2ec7") 16 ≟ Some (bs "0219dbfffe432ec7")) &&
  (host_digits (addr_lit "2a00:15a0:2:0:0:0:192:1") 16 ≟ Some (bs "0000000001920001")) &&
  (host_digits (addr_lit "2001:4d88:100e:ccc0:1111:2222:3333:aaff") 4 ≟ Some (bs "aaff")).

Definition host_digits_ignores_network_part : bool :=
  let a := addr_lit "2001:4d88:100e:ccc0:219:dbff:fe43:2ec7" in
  let b := addr_lit "fe80::219:dbff:fe43:2ec7" in
  unwrapped (host_digits a 16) (λ d, host_digits b 16 ≟ Some d).

Definition host_digits_edges : bool :=
  (host_digits u128_MAX 0 ≟ Some []) &&
  (host_digits u128_MAX 32 ≟ Some (repeat_byte "f"%byte 32)) &&
  (host_digits 0 32 ≟ Some (repeat_byte "0"%byte 32)) &&
  is_none (host_digits 0 33).

Definition digits_to_host_rejects_wrong_length_and_non_hex : bool :=
  (digits_to_host (bs "aaff") 4 ≟ Some 0xaaff) && (digits_to_host (bs "AAFF") 4 ≟ Some 0xaaff) &&
  is_none (digits_to_host (bs "aaf") 4) && is_none (digits_to_host (bs "aaffa") 4) &&
  is_none (digits_to_host (bs "zzzz") 4) && (digits_to_host [] 0 ≟ Some 0).

Definition dash_group_inserts_every_4_digits : bool :=
  (dash_group [] ≟ []) && (dash_group (bs "aaff") ≟ bs "aaff") &&
  (dash_group (bs "8e896f21cc770ca0c324") ≟ bs "8e89-6f21-cc77-0ca0-c324").

Definition undash_group_roundtrips : bool :=
  (undash_group (bs "aaff") 4 ≟ Some (bs "aaff")) &&
  (undash_group (bs "8e89-6f21-cc77-0ca0-c324") 20 ≟ Some (bs "8e896f21cc770ca0c324")).

Definition undash_group_rejects_malformed_input : bool :=
  is_none (undash_group (bs "aaffbbcc") 8) && is_none (undash_group (bs "aaf-fbbcc") 8) &&
  is_none (undash_group (bs "aaff-bbcc-") 8) && is_none (undash_group (bs "-aaffbbcc") 8) &&
  is_none (undash_group (bs "aaff--bbcc") 8) && is_none (undash_group (bs "aaff-bbc") 8) &&
  is_none (undash_group [] 0).

Definition mask_bits_boundaries : bool :=
  (mask_bits 0 ≟ 0) && (mask_bits 128 ≟ u128_MAX) &&
  (mask_bits 64 ≟ 0xFFFFFFFFFFFFFFFF0000000000000000) && (mask_bits 255 ≟ u128_MAX).

Definition all : list bool :=
  [netmask_to_ptrzone_vectors_from_perl_suite; netmask_rejects_non_nibble_aligned_prefix;
   netmask_edge_masks; parses_full_ptr_query; ptr_query_is_case_insensitive;
   rejects_partial_and_overlong_ptr_queries; rejects_wrong_suffix;
   rejects_non_hex_and_multibyte_nibble_labels; rejects_master_file_metacharacters_without_panicking;
   agrees_with_hickory_arpa_parser; host_digits_vectors_from_perl_suite;
   host_digits_ignores_network_part; host_digits_edges; digits_to_host_rejects_wrong_length_and_non_hex;
   dash_group_inserts_every_4_digits; undash_group_roundtrips; undash_group_rejects_malformed_input;
   mask_bits_boundaries].

Example nibble_tests_pass : forallb (λ b, b) all = true.
Proof. vm_refl. Qed.

#[local] Existing Instance LabelName.laws.

Lemma nibble_property_tests_witness :
  let raw := addr_lit "2001:4d88:100e:ccc0:219:dbff:fe43:2ec7" in
  host_digits raw 16 = Some (bs "0219dbfffe432ec7") ∧
  ptr_name_roundtrip_is_identity raw = true ∧
  host_digit_roundtrip_is_identity raw 16 = true ∧
  ptr_zone_has_one_label_per_network_nibble raw 16 = true ∧
  arbitrary_labels_never_panic [bs "a"; bs "b"] = true ∧
  (1 <= 16 → synthesized_address_stays_in_prefix raw 16 77 = true) ∧
  dash_group_roundtrip_is_identity raw 4 = true.
Proof.
  cbv zeta. split; [vm_refl|].
  apply (nibble_property_tests _ 77 16 16 4); [by vm_compute|by vm_compute|by vm_compute|by vm_compute].
Defined.
End NibbleTests.

(** ** Unit tests of rrl.rs *)

Module RrlTests.
#[local] Existing Instance TokenBucket.ops.

(** The tests' instant. *)
Definition t0 : N := 0.

Definition with_limits (rps burst slip : N) : RrlParams :=
  mkRrlParams true rps burst slip (ipv4_prefix RrlParams_default) (ipv6_prefix RrlParams_default).

Definition v4_aggregates_to_prefix : bool :=
  let a := ClientKey_new (ip_lit "192.0.2.7") 24 64 in
  let b := ClientKey_new (ip_lit "192.0.2.200") 24 64 in
  let c := ClientKey_new (ip_lit "192.0.3.7") 24 64 in
  (a ≟ b) && negb (a ≟ c).

Definition v6_aggregates_to_prefix : bool :=
  let a := ClientKey_new (ip_lit "2001:db8:1:2::1") 24 64 in
  let b := ClientKey_new (ip_lit "2001:db8:1:2::ffff") 24 64 in
  let c := ClientKey_new (ip_lit "2001:db8:1:3::1") 24 64 in
  (a ≟ b) && negb (a ≟ c) &&
  (ClientKey_new (ip_lit "2001:db8:1:2::1") 24 32 ≟ ClientKey_new (ip_lit "2001:db8:9:9::1") 24 32).

Definition prefix_zero_collapses_everything : bool :=
  ClientKey_new (ip_lit "192.0.2.1") 0 0 ≟ ClientKey_new (ip_lit "198.51.100.1") 0 0.

(** [n] responses of one kind to one client, and what becomes of them. *)
Fixpoint decisions (n : nat) (addr : IpAddr) (kind : Kind) (is_tcp : bool) (r : Rrl)
    : list Decision * Rrl :=
  match n with
  | O => ([], r)
  | S n =>
      let '(d, r) := Rrl.decide t0 addr kind is_tcp r in
      let '(ds, r) := decisions n addr kind is_tcp r in
      (d :: ds, r)
  end.

Definition is_allowed (d : Decision) : bool := d ≟ Allow.
Definition count (d : Decision) (ds : list Decision) : N := len (List.filter (λ x, x ≟ d) ds).

Definition disabled_always_allows : bool :=
  let rrl := Rrl_new (mkRrlParams false (responses_per_second RrlParams_default) (burst RrlParams_default)
    (slip RrlParams_default) (ipv4_prefix RrlParams_default) (ipv6_prefix RrlParams_default)) in
  forallb is_allowed (fst (decisions 1000 (ip_lit "192.0.2.1") AnswerKind false rrl)).

Definition tcp_is_never_limited : bool :=
  let rrl := Rrl_new (with_limits 1 1 (slip RrlParams_default)) in
  forallb is_allowed (fst (decisions 100 (ip_lit "192.0.2.1") AnswerKind true rrl)).

Definition burst_is_allowed_then_suppressed : bool :=
  let rrl := Rrl_new (with_limits 1 5 0) in
  let allowed := count Allow (fst (decisions 20 (ip_lit "192.0.2.1") AnswerKind false rrl)) in
  (1 <=? allowed) && (allowed <=? 6).

(** [while rrl.decide(..) == Allow {}], for at most [n] turns. *)
Fixpoint exhaust (n : nat) (addr : IpAddr) (kind : Kind) (r : Rrl) : option Rrl :=
  match n with
  | O => None
  | S n => let '(d, r) := Rrl.decide t0 addr kind false r in
           if is_allowed d then exhaust n addr kind r else Some r
  end.

Definition answer_and_negative_budgets_are_independent : bool :=
  let addr := ip_lit "192.0.2.1" in
  unwrapped (exhaust 100 addr Negative (Rrl_new (with_limits 1 2 0)))
    (λ rrl, is_allowed (fst (Rrl.decide t0 addr AnswerKind false rrl))).

Definition slip_yields_periodic_truncation : bool :=
  let ds := fst (decisions 12 (ip_lit "192.0.2.1") AnswerKind false (Rrl_new (with_limits 1 1 2))) in
  (0 <? count Truncate ds) && (0 <? count Drop ds).

Definition separate_clients_have_separate_budgets : bool :=
  let '(d, rrl) := Rrl.decide t0 (ip_lit "192.0.2.1") AnswerKind false (Rrl_new (with_limits 1 1 0)) in
  is_allowed d && is_allowed (fst (Rrl.decide t0 (ip_lit "198.51.100.1") AnswerKind false rrl)).

Definition sweep_is_safe_on_an_empty_limiter : bool :=
  tracked (sweep t0 t0 (Rrl_new RrlParams_default)) ≟ 0.

Definition all : list bool :=
  [v4_aggregates_to_prefix; v6_aggregates_to_prefix; prefix_zero_collapses_everything;
   disabled_always_allows; tcp_is_never_limited; burst_is_allowed_then_suppressed;
   answer_and_negative_budgets_are_independent; slip_yields_periodic_truncation;
   separate_clients_have_separate_budgets; sweep_is_safe_on_an_empty_limiter].

Example rrl_tests_pass : forallb (λ b, b) all = true.
Proof. vm_refl. Qed.
End RrlTests.

(** ** Unit tests of upstream.rs *)

Module UpstreamTests.
#[local] Existing Instance LabelName.ops.

Definition ptr (owner target : bytes) (ttl : N) : DRecord :=
  let name s := match LabelName.parse s with Ok n => n | Err _ => LabelName.mk [] true end in
  from_rdata (name owner) ttl (RData.PTR (name target)).

Definition QNAME : string :=
  "1.0.0.0.0.0.0.0.0.0.0.0.0.0.0.0.0.c.c.c.e.0.0.1.8.8.d.4.1.0.0.2.ip6.arpa.".

Definition q : LabelName.t := NibbleTests.name QNAME.

Definition up (qname : LabelName.t) : LabelName.t := default (LabelName.mk [] true) (upstream_qname qname).

Definition uq : LabelName.t := up q.
Definition uq_str : bytes := NibbleTests.to_ascii (labels uq) ++ bs ".".

Definition appends_upstream_label : bool := uq_str ≟ bs QNAME ++ bs "upstream.".

Definition keeps_a_well_formed_override : bool :=
  match filter_upstream q uq [ptr uq_str (bs "real-host.example.net.") 600] with
  | [kept] =>
      name_eq (rec_name kept) q && (rec_ttl kept ≟ 600) &&
      match rec_data kept with
      | RData.PTR p => name_eq p (NibbleTests.name "real-host.example.net.")
      | _ => false
      end
  | _ => false
  end.

Definition rejects_everything_not_explicitly_allowed : bool :=
  let answers :=
    [ptr (bs "victim.example.com.") (bs "attacker.example.net.") 600;
     ptr (bs QNAME) (bs "sneaky.example.net.") 600;
     from_rdata uq 600 (RData.Other RecordType.A [Byte.xc0; Byte.x00; Byte.x02; Byte.x01]);
     from_rdata uq 600 (RData.AAAA 1);
     from_rdata uq 600 (RData.Other RecordType.CNAME (bs "elsewhere.example.net."));
     ptr (bs "extra." ++ uq_str) (bs "nope.example.net.") 600] in
  len (filter_upstream q uq answers) ≟ 0.

Definition to_uppercase (s : bytes) : bytes :=
  (λ b, let n := Byte.to_N b in
        if (97 <=? n) && (n <=? 122) then default b (Byte.of_N (n - 32)) else b) <$> s.

Definition owner_match_is_case_insensitive_but_exact : bool :=
  len (filter_upstream q uq [ptr (to_uppercase uq_str) (bs "host.example.net.") 600]) ≟ 1.

Definition clamps_ttl : bool :=
  let kept ttl := rec_ttl <$> filter_upstream q uq [ptr uq_str (bs "a.example.net.") ttl] in
  (kept 0 ≟ [MIN_RELAY_TTL]) && (kept u32_MAX ≟ [MAX_RELAY_TTL]).

Definition caps_record_count : bool :=
  let answers := (λ i, ptr uq_str (bs "h" ++ to_decimal i ++ bs ".example.net.") 600) <$> range 0 100 in
  len (filter_upstream q uq answers) ≟ MAX_RELAYED_RECORDS.

Definition empty_answers_yield_nothing : bool := len (filter_upstream q uq []) ≟ 0.

(** [n] failures at one instant, none of which is to report a trip. *)
Fixpoint quiet_failures (n : nat) (b : Breaker.t) : option Breaker.t :=
  match n with
  | O => Some b
  | S n => let '(tripped, b) := Breaker.record_failure 0 b in
           if (tripped : bool) then None else quiet_failures n b
  end.

Definition breaker_opens_after_threshold_failures_and_is_idempotent : bool :=
  let '(o0, b) := Breaker.is_open 0 Breaker.default in
  unwrapped (quiet_failures (N.to_nat (BREAKER_THRESHOLD - 1)) b) (λ b,
    let '(trips, b) := Breaker.record_failure 0 b in
    let '(o1, b) := Breaker.is_open 0 b in
    let '(again, b) := Breaker.record_failure 0 b in
    let '(o2, _) := Breaker.is_open 0 (Breaker.record_success b) in
    negb o0 && trips && o1 && negb again && negb o2).

Definition all : list bool :=
  [appends_upstream_label; keeps_a_well_formed_override; rejects_everything_not_explicitly_allowed;
   owner_match_is_case_insensitive_but_exact; clamps_ttl; caps_record_count; empty_answers_yield_nothing;
   breaker_opens_after_threshold_failures_and_is_idempotent].

Example upstream_tests_pass : forallb (λ b, b) all = true.
Proof. vm_refl. Qed.
End UpstreamTests.

(** ** Unit tests of bind.rs *)

Module BindTests.
Import Bind.

(** Errors are their kind; a socket is the number of calls before it was made. *)
#[local] Instance kinds : SocketOps := {
  Socket := N;
  IoError := ErrorKind;
  io_kind e := e;
  io_to_string e := match e with
                    | PermissionDenied => bs "permission denied"
                    | AddrNotAvailable => bs "address not available"
                    | OtherError _ => bs "other error"
                    end;
}.

Definition is_bind_of (s : Socket) (c : Call) : option SocketAddr :=
  match c with CBind s' a => if s =? s' then Some a else None | _ => None end.

(** The port a socket is bound to: 40000 stands for any port the kernel picks. *)
Definition bound_port (h : list Call) (s : Socket) : N :=
  match iter_find_map (is_bind_of s) h with
  | Some a => if port a =? 0 then 40000 else port a
  | None => 0
  end.

Definition is_dgram (h : list Call) (s : Socket) : bool :=
  match h !! N.to_nat s with Some (CNew _ DGRAM _) => true | _ => false end.

Definition v6_only (h : list Call) (s : Socket) : bool :=
  match iter_find (λ c, match c with COnlyV6 s' => s =? s' | _ => false end) h with
  | Some _ => true
  | None => false
  end.

(** Two sockets of one transport on one port are in each other's way if they are of
    one family, or an IPv6 one is not confined to IPv6. *)
Definition clashes (h : list Call) (s : Socket) (a : SocketAddr) (c : Call) : bool :=
  match c with
  | CBind s' a' =>
      Bool.eqb (is_dgram h s) (is_dgram h s') && negb (port a =? 0) && (bound_port h s' =? port a) &&
      (if is_ipv6 a then is_ipv6 a' || negb (v6_only h s) else negb (is_ipv6 a') || negb (v6_only h s'))
  | _ => false
  end.

Definition linux : Os := mkOs
  (λ h _, Ok (len h))
  (λ h c, match c with
          | CBind s a => match iter_find (clashes h s a) h with Some _ => Err (OtherError 98) | None => Ok tt end
          | _ => Ok tt
          end)
  (λ h c, match c with
          | CLocalAddr s => Ok (mkSocketAddr (V4 0x7F000001) (bound_port h s))
          | _ => Err (OtherError 9)
          end).

Definition binds_ephemeral_and_reports_the_real_port : bool :=
  match bind_all linux [mkListenAddr (V4 0x7F000001) 0] [] with
  | (Ok bound, h) =>
      match addrs bound, tcp bound with
      | [a], [t] =>
          negb (port a ≟ 0) &&
          match os_addr linux h (CLocalAddr t) with Ok tcp_addr => port a ≟ port tcp_addr | Err _ => false end
      | _, _ => false
      end
  | (Err _, _) => false
  end.

Definition both_wildcards_can_share_a_port : bool :=
  match bind_all linux [mkListenAddr (V6 0) 0] [] with
  | (Ok probe, _) =>
      match addrs probe with
      | [a] => match bind_all linux (default_listen (port a)) [] with
               | (Ok bound, _) => len (addrs bound) ≟ 2
               | (Err e, _) => contains_str e (bs "cannot bind")
               end
      | _ => false
      end
  | (Err _, _) => false
  end.

Definition privileged_port_error_is_actionable : bool :=
  unwrapped (SocketAddr_from_str (bs "0.0.0.0:53")) (λ a,
    contains_str (bind_error a PermissionDenied) (bs "CAP_NET_BIND_SERVICE")).

Definition missing_address_error_mentions_the_listen_override : bool :=
  unwrapped (SocketAddr_from_str (bs "192.0.2.99:53")) (λ a,
    contains_str (bind_error a AddrNotAvailable) (bs "--listen")).

Definition all : list bool :=
  [binds_ephemeral_and_reports_the_real_port; both_wildcards_can_share_a_port;
   privileged_port_error_is_actionable; missing_address_error_mentions_the_listen_override].

Example bind_tests_pass : forallb (λ b, b) all = true.
Proof. vm_refl. Qed.

(** Without [IPV6_V6ONLY] the second wildcard could not be bound. *)
Example v6only_matters :
  let h := [CNew IPV4 DGRAM UDP; CBind 0 (mkSocketAddr (V4 0) 53); CNew IPV6 DGRAM UDP] in
  (os_unit linux h (CBind 2 (mkSocketAddr (V6 0) 53)),
   os_unit linux (h ++ [COnlyV6 2]) (CBind 2 (mkSocketAddr (V6 0) 53))) = (Err (OtherError 98), Ok tt).
Proof. cbv zeta. vm_refl. Qed.
End BindTests.
