(* ===== verification/Acceptance.v ===== *)
(** * The repository's acceptance tests, on the model

    The tests under [src/tests/]: what configuration files mean
    (config_parse.rs), what is answered (vectors_zone.rs), and the server from end
    to end (integration_server.rs).  As in Vectors.v every test is a definition
    that is true when all its assertions hold, and each is evaluated, on the names
    of [LabelName].

    The end-to-end tests start a server on a loopback socket and talk to it.  Here
    the request goes to [handle_request], and what the handler passes to the
    response builder is what the client sees; decoding and encoding messages is
    code outside the repository, so the test with undecodable datagrams has no
    counterpart.  The hostile query names are the most important test of the
    repository; [queries_leave_no_trace] proves its point for every query. *)

From S2P Require Import Prelude RustText RustNet ConfigError Dns Nibble Config Parse Compile Zones Rrl RrlSpec Upstream UpstreamSpec Handler HandlerSpec Server Vectors.

#[local] Existing Instance LabelName.ops.

(** A file of lines, and an indented line. *)
Definition file (ls : list string) : bytes := concat ((λ l, bs l ++ newline) <$> ls).
Definition tab (l : string) : string := String.append "	" l.

(** [matches!] and the like. *)
Definition is_digits (l : FwdLabel) : bool := match l with Digits _ _ _ _ _ => true | _ => false end.

Definition digits_label (z : Zone) : option FwdLabel := fwd_labels (fwd z) !! N.to_nat (digits_at (fwd z)).

(** [Name::to_ascii] of a name of plain labels. *)
Definition ascii (n : LabelName.t) : bytes :=
  NibbleTests.to_ascii (labels n) ++ if is_fqdn n then bs "." else [].

Definition name : string → LabelName.t := NibbleTests.name.

(** ** config_parse.rs *)

Module ConfigTests.

(** [parse_ok] with assertions on the configuration, and [parse_err]. *)
Definition parses (input : bytes) (f : Config → bool) : bool :=
  match Config_parse input with Ok cfg => f cfg | Err _ => false end.

Definition fails_with (input : bytes) (kinds : list ConfigErrorKind) : bool :=
  match Config_parse input with Ok _ => false | Err errs => (kind <$> errors errs) ≟ kinds end.

Definition zone_at (cfg : Config) (i : nat) (f : Zone → bool) : bool := unwrapped (zones cfg !! i) f.

(** [ptr_zone.to_ascii().trim_end_matches('.')]. *)
Definition ptr_zone_text (z : Zone) : bytes := NibbleTests.to_ascii (labels (ptr_zone z)).

Definition empty_config_has_no_zones : bool := parses [] (λ cfg, negb (has_zones cfg)).
Definition comment_only_config_has_no_zones : bool := parses (bs "# meh") (λ cfg, negb (has_zones cfg)).

Definition single_zone_fixture : bool :=
  parses (file [
    "# RaumZeitLabor";
    "network 2001:4d88:100e:ccc0::/64";
    tab "resolves to ipv6-%DIGITS%.nutzer.raumzeitlabor.de";
    tab "with upstream 2001:4d88:100e:1::2"]%string) (λ cfg,
  (len (zones cfg) ≟ 1) && zone_at cfg 0 (λ zone,
    (mask zone ≟ 64) && (host_nibbles zone ≟ 16) &&
    (resolves_to zone ≟ bs "ipv6-%DIGITS%.nutzer.raumzeitlabor.de") &&
    ((IpAddr_to_string <$> upstream zone) ≟ Some (bs "2001:4d88:100e:1::2")) &&
    (ptr_zone_text zone ≟ bs "0.c.c.c.e.0.0.1.8.8.d.4.1.0.0.2.ip6.arpa"))).

Definition mixed_case_keywords_and_selective_lowercasing : bool :=
  parses (file [
    "# RaumZeitLabor";
    "network 2001:4d88:100e:ccc0::/64";
    tab "resolves to ipv6-%DIGITS%.nutzer.raumzeitlabor.de";
    tab "with upstream 2001:4d88:100e:1::2";
    "";
    "# Chaostreff (spaces instead of tabs, uppercase keywords)";
    "NETWORK 2001:4D88:100E:CD1::/64";
    "ReSoLvEs tO IPV6-%DIGITS%.treff.noname-ev.de";
    "WiTh UpStReAm 2001:4d88:100e:1::2"]%string) (λ cfg,
  (len (zones cfg) ≟ 2) &&
  zone_at cfg 0 (λ z1, resolves_to z1 ≟ bs "ipv6-%DIGITS%.nutzer.raumzeitlabor.de") &&
  zone_at cfg 1 (λ z2,
    (ptr_zone_text z2 ≟ bs "1.d.c.0.e.0.0.1.8.8.d.4.1.0.0.2.ip6.arpa") &&
    (resolves_to z2 ≟ bs "IPV6-%DIGITS%.treff.noname-ev.de") &&
    unwrapped (digits_label z2) (λ l,
      match l with
      | Digits pre pre_lower _ _ _ => (pre ≟ bs "IPV6-") && (pre_lower ≟ bs "ipv6-")
      | Literal _ _ => false
      end))).

Definition listen_addresses_keep_order_and_accept_both_families : bool :=
  parses (file ["listen 2001:4d88:100e:1::3"; "listen 79.140.39.197"]%string) (λ cfg,
  negb (has_zones cfg) &&
  (((λ l, IpAddr_to_string (listen_addr l) ++ bs ":" ++ to_decimal (listen_port l)) <$> listen cfg) ≟
   [bs "2001:4d88:100e:1::3:53"; bs "79.140.39.197:53"])).

Definition listen_accepts_explicit_port : bool :=
  parses (file ["listen [::]:5353"; "listen 0.0.0.0:5354"]%string) (λ cfg,
  (listen_port <$> listen cfg) ≟ [5353; 5354]).

Definition indentation_and_inner_whitespace_are_irrelevant : bool :=
  parses (file [
    tab "   network 2001:db8::/32";
    tab (tab (tab "resolves    to    host-%DIGITS%.example.net"))]%string) (λ cfg,
  (len (zones cfg) ≟ 1) && zone_at cfg 0 (λ z, resolves_to z ≟ bs "host-%DIGITS%.example.net")).

Definition crlf_line_endings_are_accepted : bool :=
  let cr := ["013"%byte] in
  parses (bs "network 2001:db8::/32" ++ cr ++ newline ++
          bs (tab "resolves to h-%DIGITS%.example.net") ++ cr ++ newline) (λ cfg,
  len (zones cfg) ≟ 1).

Definition original_shipped_config_parses : bool :=
  parses (file [
    "# Configuration file for AllKnowingDNS v1.3";
    "";
    "# RaumZeitLabor";
    "network 2001:4d88:100e:ccc0::/64";
    tab "resolves to ipv6-%DIGITS%.nutzer.raumzeitlabor.de";
    tab "with upstream 2001:4d88:100e:1::2"]%string) (λ cfg,
  len (zones cfg) ≟ 1).

(** One network and its template. *)
Definition zone_file (network template : string) : bytes :=
  file [("network " ++ network)%string; tab ("resolves to " ++ template)].

Definition H : string := "h-%DIGITS%.example.net".

Definition network_without_prefix_length_is_fatal : bool :=
  fails_with (zone_file "2001:db8::" H) [NetworkMissingPrefixLen].

Definition no_zone_can_claim_all_of_ip6_arpa : bool :=
  forallb (λ network,
    match Config_parse (zone_file network H) with
    | Err _ => true
    | Ok cfg => forallb (λ z, negb (mask z ≟ 0) && (2 <? num_labels (ptr_zone z))) (zones cfg)
    end) ["2001:db8::"; "::/0"; "garbage"; "/64"]%string.

Definition prefix_must_be_nibble_aligned : bool :=
  fails_with (zone_file "2001:db8::/63" H) [NetworkPrefixNotNibbleAligned 63] &&
  parses (zone_file "2001:db8:8000::/36" H) (λ cfg, zone_at cfg 0 (λ z, mask z ≟ 36)).

Definition prefix_length_range_is_checked : bool :=
  fails_with (zone_file "2001:db8::/129" H) [NetworkPrefixLenOutOfRange 129] &&
  fails_with (zone_file "2001:db8::/64x" H) [NetworkPrefixLenNotANumber] &&
  fails_with (zone_file "2001:db8::1/128" H) [NetworkIsSingleAddress].

Definition host_bits_below_the_prefix_are_fatal_with_a_suggestion : bool :=
  fails_with (zone_file "2a00:15a0::192:1/64" H) [NetworkHostBitsSet (bs "2a00:15a0::/64")].

Definition trailing_colon_address_from_perl_suite_is_rejected : bool :=
  fails_with (zone_file "2a00:15a0::192:/64" H) [NetworkInvalidAddress].

Definition placeholder_must_appear_exactly_once : bool :=
  fails_with (zone_file "2001:db8::/64" "static.example.net") [PlaceholderMissing] &&
  fails_with (zone_file "2001:db8::/64" "a-%DIGITS%-%DIGITS%.example.net") [PlaceholderRepeated 2].

Definition placeholder_is_case_insensitive : bool :=
  parses (zone_file "2001:db8::/64" "h-%digits%.example.net") (λ cfg,
  zone_at cfg 0 (λ z, unwrapped (digits_label z) is_digits)).

Definition dashed_label (z : Zone) : bool :=
  unwrapped (digits_label z) (λ l, match l with Digits _ _ _ _ dashed => dashed | Literal _ _ => false end).

Definition dashed_placeholder_parses_and_flags_the_label : bool :=
  parses (zone_file "2001:db8::/64" "h-%DIGITS-DASHED%.example.net") (λ cfg, zone_at cfg 0 dashed_label).

Definition dashed_placeholder_is_case_insensitive : bool :=
  parses (zone_file "2001:db8::/64" "h-%digits-dashed%.example.net") (λ cfg, zone_at cfg 0 dashed_label).

Definition dashed_and_plain_placeholder_together_is_repeated : bool :=
  fails_with (zone_file "2001:db8::/64" "a-%DIGITS%-%DIGITS-DASHED%.example.net") [PlaceholderRepeated 2].

Definition dashed_placeholder_requires_nibble_count_multiple_of_4 : bool :=
  fails_with (zone_file "2001:db8::/60" "h-%DIGITS-DASHED%.example.net")
    [DashedDigitsNotNibbleMultipleOfFour 17] &&
  parses (zone_file "2001:db8::/64" "h-%DIGITS-DASHED%.example.net") has_zones.

Definition zone_without_resolves_to_is_fatal : bool :=
  fails_with (file ["network 2001:db8::/64"]%string) [MissingResolvesTo].

Definition directive_before_any_network_is_fatal : bool :=
  fails_with (file ["resolves to h-%DIGITS%.example.net"]%string) [DirectiveBeforeNetwork (bs "resolves to")].

Definition unknown_directive_is_fatal : bool :=
  fails_with (file ["netwrok 2001:db8::/64"]%string) [UnknownDirective (bs "netwrok")].

Definition keyword_without_value_is_reported_as_such : bool :=
  fails_with (file ["network"]%string) [MissingValue (bs "network")].

Definition duplicates_are_reported : bool :=
  let a := "a-%DIGITS%.example.net"%string in let b := "b-%DIGITS%.example.net"%string in
  fails_with (zone_file "2001:db8::/64" a ++ file [tab ("resolves to " ++ b)])
    [DuplicateDirective (bs "resolves to") 2] &&
  fails_with (zone_file "2001:db8::/64" a ++ zone_file "2001:db8::/64" b) [DuplicateNetwork 1] &&
  fails_with (zone_file "2001:db8::/64" a ++ zone_file "2001:db9::/64" a) [DuplicateForwardPattern 2].

Definition invalid_upstream_is_fatal : bool :=
  fails_with (zone_file "2001:db8::/64" H ++ file [tab "with upstream nope"]) [InvalidUpstreamAddress].

Definition oversized_label_template_is_rejected_at_startup : bool :=
  let long := replicate 40 "x"%byte in
  match Config_parse (file ["network 2000::/4"]%string ++ bs (tab "resolves to ") ++ long ++
                      file ["%DIGITS%.example.net"]%string) with
  | Err errs => match kind <$> errors errs with [ForwardNameTooLong _] => true | _ => false end
  | Ok _ => false
  end.

Definition every_error_is_reported_at_once : bool :=
  match Config_parse (file ["listen not-an-address"]%string ++ zone_file "2001:db8::/63" H ++
                      file ["netwrok typo"]%string) with
  | Err errs => len (errors errs) ≟ 3
  | Ok _ => false
  end.

Definition zones_are_sorted_longest_prefix_first : bool :=
  parses (zone_file "2001:db8::/32" "a-%DIGITS%.example.net" ++
          zone_file "2001:db8:1:2::/64" "b-%DIGITS%.example.net" ++
          zone_file "2001:db8:1::/48" "c-%DIGITS%.example.net") (λ cfg,
  (mask <$> zones cfg) ≟ [64; 48; 32]).

Definition diagnostics_are_rustc_shaped_and_point_at_the_value : bool :=
  match Config_parse (zone_file "2001:db8::/64" H ++ newline ++
                      zone_file "2001:db8::/63" "i-%DIGITS%.example.net") with
  | Err errs =>
      let rendered := ConfigErrors_to_string (with_path (bs "/etc/panoptidns/panoptidns.conf") errs) in
      contains_str rendered (bs "not nibble-aligned") &&
      contains_str rendered (bs "--> /etc/panoptidns/panoptidns.conf:4") &&
      contains_str rendered (bs "^") && contains_str rendered (bs "expected /0, /4, /8")
  | Ok _ => false
  end.

Definition all : list bool :=
  [empty_config_has_no_zones; comment_only_config_has_no_zones; single_zone_fixture;
   mixed_case_keywords_and_selective_lowercasing;
   listen_addresses_keep_order_and_accept_both_families; listen_accepts_explicit_port;
   indentation_and_inner_whitespace_are_irrelevant; crlf_line_endings_are_accepted;
   original_shipped_config_parses; network_without_prefix_length_is_fatal;
   no_zone_can_claim_all_of_ip6_arpa; prefix_must_be_nibble_aligned;
   prefix_length_range_is_checked; host_bits_below_the_prefix_are_fatal_with_a_suggestion;
   trailing_colon_address_from_perl_suite_is_rejected; placeholder_must_appear_exactly_once;
   placeholder_is_case_insensitive; dashed_placeholder_parses_and_flags_the_label;
   dashed_placeholder_is_case_insensitive; dashed_and_plain_placeholder_together_is_repeated;
   dashed_placeholder_requires_nibble_count_multiple_of_4; zone_without_resolves_to_is_fatal;
   directive_before_any_network_is_fatal; unknown_directive_is_fatal;
   keyword_without_value_is_reported_as_such; duplicates_are_reported; invalid_upstream_is_fatal;
   oversized_label_template_is_rejected_at_startup; every_error_is_reported_at_once;
   zones_are_sorted_longest_prefix_first; diagnostics_are_rustc_shaped_and_point_at_the_value].

Example config_tests_pass : forallb (λ b, b) all = true.
Proof. vm_refl. Qed.
End ConfigTests.

(** ** vectors_zone.rs *)

Module ZoneTests.

Definition cfg (input : bytes) (f : Config → bool) : bool := ConfigTests.parses input f.

(** The single zone of the first vectors. *)
Definition rzl : bytes := ConfigTests.zone_file "2001:4d88:100e:ccc0::/64" "ipv6-%DIGITS%-blah.nutzer.raumzeitlabor.de".

(** The data of a record as the assertions show it. *)
Definition shown (r : DRecord) : option bytes :=
  match rec_data r with
  | RData.PTR target => Some (ascii target)
  | RData.AAAA a => Some (Ipv6Addr_to_string a)
  | _ => None
  end.

Definition answers (config : Config) (qname : string) (qtype : RecordType.t) : option (list (option bytes)) :=
  match resolve config (name qname) qtype with
  | Answer _ records => Some (shown <$> records)
  | NoName _ | NoZone => None
  end.

(** The answer is exactly these records. *)
Definition answered (config : Config) (qname : string) (qtype : RecordType.t) (expected : list string) : bool :=
  answers config qname qtype ≟ Some ((λ s, Some (bs s)) <$> expected).

Definition is_no_name (o : Outcome) : bool := match o with NoName _ => true | _ => false end.
Definition is_no_zone (o : Outcome) : bool := match o with NoZone => true | _ => false end.

Definition RZL_PTR_QUERY : string :=
  "7.c.e.2.3.4.e.f.f.f.b.d.9.1.2.0.0.c.c.c.e.0.0.1.8.8.d.4.1.0.0.2.ip6.arpa.".
Definition RZL_NAME : string := "ipv6-0219dbfffe432ec7-blah.nutzer.raumzeitlabor.de.".
Definition RZL_ADDR : string := "2001:4d88:100e:ccc0:219:dbff:fe43:2ec7".

Definition empty_config_matches_nothing : bool :=
  let empty := Config_default in
  is_none (Lookup.match_ptr empty (name RZL_PTR_QUERY)) &&
  is_none (Lookup.match_forward empty (name "ipv6-a-blah.nutzer.raumzeitlabor.de.")) &&
  is_no_zone (resolve empty (name RZL_PTR_QUERY) RecordType.PTR).

Definition ptr_matches_configured_network_only : bool :=
  cfg rzl (λ config,
  is_some (Lookup.match_ptr config (name RZL_PTR_QUERY)) &&
  is_none (Lookup.match_ptr config
    (name "7.c.e.2.3.4.e.f.f.f.b.d.9.1.2.0.1.c.c.c.e.0.0.1.8.8.d.4.1.0.0.2.ip6.arpa."))).

Definition forward_requires_the_exact_digit_count : bool :=
  cfg rzl (λ config,
  is_none (Lookup.match_forward config (name "ipv6-a-blah.nutzer.raumzeitlabor.de.")) &&
  is_some (Lookup.match_forward config (name RZL_NAME)) &&
  is_none (Lookup.match_forward config (name "ipv6-0219dbfffe432ec7-blah.servers.raumzeitlabor.de."))).

Definition empty_config_ptr_query_has_no_zone : bool :=
  is_none (answers Config_default RZL_PTR_QUERY RecordType.PTR).

Definition ptr_answer_matches_perl_vector : bool :=
  cfg rzl (λ config, answered config RZL_PTR_QUERY RecordType.PTR [RZL_NAME]).

Definition ptr_answer_carries_ttl_3600_from_the_original : bool :=
  cfg rzl (λ config,
  match resolve config (name RZL_PTR_QUERY) RecordType.PTR with
  | Answer _ [r] => (RData.record_type (rec_data r) ≟ RecordType.PTR) && (rec_ttl r ≟ 3600)
  | _ => false
  end).

Definition aaaa_answer_matches_perl_vector : bool :=
  cfg rzl (λ config, answered config RZL_NAME RecordType.AAAA [RZL_ADDR]).

Definition a_query_on_a_matching_name_is_empty_noerror : bool :=
  cfg rzl (λ config, answered config RZL_NAME RecordType.A []).

Definition non_64_prefix_aaaa_vector : bool :=
  cfg (ConfigTests.zone_file "2001:4d88:100e:ccc0:1111:2222:3333:0000/112"
         "ipv6-%DIGITS%-blah.nutzer.raumzeitlabor.de") (λ config,
  ConfigTests.zone_at config 0 (λ z, host_nibbles z ≟ 4) &&
  answered config "ipv6-aaff-blah.nutzer.raumzeitlabor.de." RecordType.AAAA
    ["2001:4d88:100e:ccc0:1111:2222:3333:aaff"]).

(** Three zones with one parent, told apart by the prefix of a label. *)
Definition monsternett : bytes :=
  ConfigTests.zone_file "2001:840:5000:2::/64" "oslo-%DIGITS%.ipv6.monsternett.net" ++
  ConfigTests.zone_file "2a00:15a0::/64" "mail-%DIGITS%.ipv6.monsternett.net" ++
  ConfigTests.zone_file "2a00:15a0:2::/64" "web-%DIGITS%.ipv6.monsternett.net".

Definition MONSTERNETT_PTR_QUERY : string :=
  "1.0.0.0.2.9.1.0.0.0.0.0.0.0.0.0.0.0.0.0.2.0.0.0.0.a.5.1.0.0.a.2.ip6.arpa.".

Definition same_domain_empty_config_has_no_zone : bool :=
  is_none (answers Config_default MONSTERNETT_PTR_QUERY RecordType.PTR).

Definition same_domain_ptr_selects_the_right_zone : bool :=
  cfg monsternett (λ config,
  answered config MONSTERNETT_PTR_QUERY RecordType.PTR ["web-0000000001920001.ipv6.monsternett.net."]).

Definition same_domain_aaaa_round_trips : bool :=
  cfg monsternett (λ config,
  answered config "web-0000000001920001.ipv6.monsternett.net." RecordType.AAAA ["2a00:15a0:2::192:1"]).

Definition same_domain_each_prefix_resolves_to_its_own_zone : bool :=
  cfg monsternett (λ config,
  forallb (λ '(qname, expected), answered config qname RecordType.AAAA [expected])
    [("oslo-0000000000000001.ipv6.monsternett.net.", "2001:840:5000:2::1");
     ("mail-0000000000000002.ipv6.monsternett.net.", "2a00:15a0::2");
     ("web-0000000000000003.ipv6.monsternett.net.", "2a00:15a0:2::3")]%string).

Definition appended_labels_never_match : bool :=
  cfg rzl (λ config,
  forallb (λ qname, is_none (Lookup.match_forward config (name qname)))
    ["ipv6-0219dbfffe432ec7-blah.nutzer.raumzeitlabor.de.evil.com.";
     "prefix.ipv6-0219dbfffe432ec7-blah.nutzer.raumzeitlabor.de."]%string).

Definition non_hex_digits_never_match : bool :=
  cfg rzl (λ config,
  is_none (Lookup.match_forward config (name "ipv6-zzzzzzzzzzzzzzzz-blah.nutzer.raumzeitlabor.de."))).

Definition uppercase_hex_resolves_identically : bool :=
  cfg rzl (λ config,
  answered config "IPV6-0219DBFFFE432EC7-BLAH.NUTZER.RAUMZEITLABOR.DE." RecordType.AAAA [RZL_ADDR]).

Definition partial_reverse_name_is_in_zone_but_nameless : bool :=
  cfg rzl (λ config,
  is_no_name (resolve config (name "0.c.c.c.e.0.0.1.8.8.d.4.1.0.0.2.ip6.arpa.") RecordType.PTR) &&
  is_no_name (resolve config (name "something-else.nutzer.raumzeitlabor.de.") RecordType.AAAA) &&
  is_no_zone (resolve config (name "www.example.com.") RecordType.A)).

Definition overlapping_networks_use_longest_prefix : bool :=
  cfg (ConfigTests.zone_file "2001:db8::/32" "wide-%DIGITS%.example.net" ++
       ConfigTests.zone_file "2001:db8:1:2::/64" "narrow-%DIGITS%.example.net") (λ config,
  unwrapped (Lookup.zone_for_addr config (addr_lit "2001:db8:1:2::1")) (λ zone,
    (mask zone ≟ 64) && (resolves_to zone ≟ bs "narrow-%DIGITS%.example.net")) &&
  ((mask <$> Lookup.zone_for_addr config (addr_lit "2001:db8:9:9::1")) ≟ Some 32)).

Definition dashed_digits_render_grouped_and_round_trip : bool :=
  cfg (ConfigTests.zone_file "2001:4d88:100e:ccc0::/64" "host-%DIGITS-DASHED%.example.net") (λ config,
  ConfigTests.zone_at config 0 (λ zone,
    let addr := addr_lit RZL_ADDR in
    unwrapped (Synth.forward_name zone addr) (λ fwd,
      (ascii fwd ≟ bs "host-0219-dbff-fe43-2ec7.example.net.") &&
      unwrapped (Lookup.match_forward config fwd) (λ '(matched_zone, matched_addr),
        (prefix matched_zone ≟ prefix zone) && (matched_addr ≟ addr)))) &&
  forallb (λ bad, is_none (Lookup.match_forward config (name bad)))
    ["host-0219dbfffe432ec7.example.net.";
     "host-02-19dbff-fe43-2ec7.example.net.";
     "host-0219-dbff-fe43-2ec7-.example.net."]%string).

Definition ptr_to_aaaa_round_trip_is_identity : bool :=
  cfg monsternett (λ config,
  forallb (λ zone,
    forallb (λ host,
      let addr := N.lor (prefix zone) (N.land host (u128_not (mask_bits (mask zone)))) in
      unwrapped (Synth.forward_name zone addr) (λ fwd,
        ((λ '(z, a), (prefix z, a)) <$> Lookup.match_forward config fwd) ≟ Some (prefix zone, addr)))
      [0; 1; 0x01920001; 0xdeadbeefcafebabe]) (zones config)).

Definition all : list bool :=
  [empty_config_matches_nothing; ptr_matches_configured_network_only;
   forward_requires_the_exact_digit_count; empty_config_ptr_query_has_no_zone;
   ptr_answer_matches_perl_vector; ptr_answer_carries_ttl_3600_from_the_original;
   aaaa_answer_matches_perl_vector; a_query_on_a_matching_name_is_empty_noerror;
   non_64_prefix_aaaa_vector; same_domain_empty_config_has_no_zone;
   same_domain_ptr_selects_the_right_zone; same_domain_aaaa_round_trips;
   same_domain_each_prefix_resolves_to_its_own_zone; appended_labels_never_match;
   non_hex_digits_never_match; uppercase_hex_resolves_identically;
   partial_reverse_name_is_in_zone_but_nameless; overlapping_networks_use_longest_prefix;
   dashed_digits_render_grouped_and_round_trip; ptr_to_aaaa_round_trip_is_identity].

Example zone_tests_pass : forallb (λ b, b) all = true.
Proof. vm_refl. Qed.
End ZoneTests.

(** ** A server that has seen anything answers as if it had seen nothing *)

Section History.
Context {D : DnsOps} {L : DnsLaws D} {R : ResolverOps} {G : LimiterOps} {M : MessageOps}.

(** The server after some requests, each with its own surroundings. *)
Definition after_requests (history : list (Env * Request)) (st : ServerState) : ServerState :=
  foldl (λ st '(e, request), snd (handle_request e request st)) st history.

(** No reload changes the configuration during the request. *)
Definition keeps_config (e : Env) : Prop := ∀ zs, config (env_reloaded e zs) = config zs.

(** The request is not rate limited, and asks nothing of an upstream. *)
Definition self_contained (c : Config) (limits : RrlParams) (request : Request) : Prop :=
  ∀ info, req_info request = Ok info →
    (is_tcp info = true ∨ enabled limits = false) ∧
    (query_type info = RecordType.PTR →
     ∀ z a, Lookup.match_ptr c (query_name info) = Some (z, a) → upstream z = None).

(** What the answers depend on. *)
Definition same_answers (st st' : ServerState) : Prop :=
  config (st_zones st) = config (st_zones st') ∧
  rrl_params (st_rrl st) = rrl_params (st_rrl st').

#[local] Instance same_answers_equiv : Equivalence same_answers.
Proof. split; unfold same_answers; [done|intros ?? []; done|intros ??? [] []; split; congruence]. Qed.

Lemma decide_params now addr k tcp r : rrl_params (snd (Rrl.decide now addr k tcp r)) = rrl_params r.
Proof.
  unfold Rrl.decide, check_limit. destruct (exempt r tcp); [done|].
  destruct (check_key _ _ _) as [ok l]. destruct ok; by destruct k.
Qed.

Lemma handle_inner_keeps e request st :
  keeps_config e → same_answers (snd (handle_inner e request st)) st.
Proof.
  intros He. unfold handle_inner. destruct (req_info request) as [info|]; [|done].
  destruct (negb _); [done|]. destruct (0 <? _); [done|].
  pose proof (decide_reply_config (env_lookup e) (st_zones st) (query_name info) (query_type info) (query_class info)) as Hc.
  destruct (decide_reply _ _ _ _ _) as [rep zs].
  pose proof (decide_params (env_now e) (src info) (reply_kind rep) (is_tcp info) (st_rrl st)) as Hp.
  destruct (Rrl.decide _ _ _ _ _) as [d rr]. simpl in *.
  assert (same_answers (mkServerState (env_reloaded e zs) rr) st) as H by (split; simpl; [by rewrite He|done]).
  by destruct d.
Qed.

Lemma handle_request_inner e request st :
  snd (handle_request e request st) = snd (handle_inner e request st).
Proof.
  unfold handle_request. destruct (handle_inner e request st) as [[sent [[?|?]|]] st']; simpl; [done|..];
    by destruct (servfail (env_transport e) request).
Qed.

Lemma after_requests_keeps history st :
  Forall (λ er, keeps_config (fst er)) history → same_answers (after_requests history st) st.
Proof.
  revert st. induction history as [|[e request] history IH]; intros st; [done|].
  intros [He Hh]%Forall_cons. simpl. etrans; [by apply IH|].
  rewrite handle_request_inner. by apply handle_inner_keeps.
Qed.

Lemma override_nothing e zs z q t rs : upstream z = None ∨ t ≠ RecordType.PTR → override_ptr e zs z q t rs = (rs, zs).
Proof.
  intros H. unfold override_ptr. destruct rs; [done|]. case_bool_decide; simpl; [|done].
  destruct H as [->|?]; done.
Qed.

(** Without an upstream the reply is a function of configuration and question. *)
Lemma decide_reply_same e zs zs' q t cl :
  config zs = config zs' →
  (t = RecordType.PTR → ∀ z a, Lookup.match_ptr (config zs) q = Some (z, a) → upstream z = None) →
  fst (decide_reply e zs q t cl) = fst (decide_reply e zs' q t cl).
Proof.
  intros Hc Hu. unfold decide_reply. rewrite <- Hc. destruct (negb _); [done|].
  destruct (match t with RecordType.AXFR | RecordType.IXFR => true | _ => false end); [done|].
  destruct (apex_reply _ _ _); [done|]. destruct (resolve (config zs) q t) as [z rs|z|] eqn:Er; [|done..].
  destruct rs as [|r rs]; [done|].
  assert (upstream z = None ∨ t ≠ RecordType.PTR) as Hz.
  { destruct (base.decide (t = RecordType.PTR)) as [Et|]; [left|by right]. specialize (Hu Et).
    unfold resolve in Er. rewrite Et in Er. simpl in Er.
    destruct (Lookup.match_ptr (config zs) q) as [[z' a]|]; [injection Er as <- _; by eapply Hu|].
    by destruct (Lookup.match_forward _ _) as [[? ?]|]; [|destruct (Lookup.zone_containing _ _)]. }
  by rewrite !override_nothing.
Qed.

Lemma handle_inner_same e request st st' :
  keeps_config e → same_answers st st' →
  self_contained (config (st_zones st)) (rrl_params (st_rrl st)) request →
  fst (handle_inner e request st) = fst (handle_inner e request st').
Proof.
  intros He [Hc Hp] Hs. unfold handle_inner. destruct (req_info request) as [info|] eqn:Ei; [|done].
  destruct (Hs info Ei) as [Hx Hu]. unfold send. rewrite <- Hc.
  destruct (negb _); [done|]. destruct (0 <? _); [done|].
  pose proof (decide_reply_same (env_lookup e) (st_zones st) (st_zones st') (query_name info)
    (query_type info) (query_class info) Hc Hu) as Hr.
  pose proof (decide_reply_config (env_lookup e) (st_zones st) (query_name info) (query_type info) (query_class info)) as H1.
  pose proof (decide_reply_config (env_lookup e) (st_zones st') (query_name info) (query_type info) (query_class info)) as H2.
  destruct (decide_reply _ (st_zones st) _ _ _) as [rep zs], (decide_reply _ (st_zones st') _ _ _) as [rep' zs'].
  simpl in *. subst rep'. unfold Rrl.decide, exempt. rewrite <- Hp.
  assert (negb (enabled (rrl_params (st_rrl st))) || is_tcp info = true) as ->.
  { apply orb_true_iff. destruct Hx as [->| ->]; auto. }
  simpl. by rewrite !He, H1, H2, Hc.
Qed.

(** C22.  No query leaves a trace in the answers.  Whatever requests a server has
    handled (malformed, hostile, refused, limited or relayed ones, with upstreams
    in any state), it answers a request that is not rate limited and asks nothing
    of an upstream exactly as it did before them: the same responses and the same
    result. *)
Theorem queries_leave_no_trace (history : list (Env * Request)) (e : Env) (request : Request) (st : ServerState) :
  Forall (λ er, keeps_config (fst er)) history → keeps_config e →
  self_contained (config (st_zones st)) (rrl_params (st_rrl st)) request →
  fst (handle_request e request (after_requests history st)) = fst (handle_request e request st).
Proof.
  intros Hh He Hs. pose proof (after_requests_keeps history st Hh) as [Hc Hp].
  pose proof (handle_inner_same e request (after_requests history st) st He (conj Hc Hp)) as H.
  rewrite Hc, Hp in H. specialize (H Hs). unfold handle_request.
  destruct (handle_inner e request (after_requests history st)) as [[s g] st1].
  destruct (handle_inner e request st) as [[s' g'] st2]. injection H as <- <-.
  destruct g as [[?|?]|]; simpl; [done|..]; by destruct (servfail (env_transport e) request).
Qed.
End History.

(** ** integration_server.rs *)

Module ServerTests.
#[local] Existing Instance EchoResolver.ops.
#[local] Existing Instance EchoMessages.ops.
#[local] Existing Instance TokenBucket.ops.

Definition CONFIG : list string := [
  "primary ns1.example.net.";
  "hostmaster hostmaster.example.net.";
  "ns ns1.example.net.";
  "ns ns2.example.net.";
  "rrl off";
  "";
  "network 2001:4d88:100e:ccc0::/64";
  tab "resolves to ipv6-%DIGITS%-blah.nutzer.raumzeitlabor.de"]%string.

Definition PTR_QUERY : string := ZoneTests.RZL_PTR_QUERY.
Definition FWD_NAME : string := ZoneTests.RZL_NAME.

(** A running server: its state behind the sockets. *)
Definition start (config_text : bytes) : option ServerState :=
  match Config_parse config_text with
  | Ok config =>
      match Zones_new config with
      | Ok zones => Some (mkServerState zones (Rrl_new (rrl (params config))))
      | Err _ => None
      end
  | Err _ => None
  end.

(** The header of [Message::query], and [query_bytes]: a question of class IN. *)
Definition header (op : OpCode.t) : Metadata :=
  mkMetadata 0x1234 false op false false true false false false ResponseCode.NoError.

Definition query (tcp : bool) (op : OpCode.t) (edns : option (N * N)) (n : LabelName.t)
    (qtype : RecordType.t) : Request :=
  mkRequest (Ok (mkRequestInfo (V4 0x7F000001) tcp n qtype DNSClass.IN)) (header op) edns
    (match edns with Some (_, max_payload) => max_payload | None => 512 end).

(** No upstream is configured, nothing reloads, and every send succeeds. *)
Definition env : Env :=
  mkEnv 0 (mkLookupEnv 0 0 (λ _, Elapsed)) (λ r, Ok (resp_metadata r)) (λ z, z).

(** [ask_raw] and its variants: the response, if one is sent, and the server after it. *)
Definition ask_raw (request : Request) (h : ServerState) : option Response * ServerState :=
  let '(sent, _, h) := handle_request env request h in (head sent, h).

Definition ask (h : ServerState) (n : string) (qtype : RecordType.t) : option Response :=
  fst (ask_raw (query false OpCode.Query None (name n) qtype) h).

Definition ask_tcp (h : ServerState) (n : string) (qtype : RecordType.t) : option Response :=
  fst (ask_raw (query true OpCode.Query None (name n) qtype) h).

(** Start a server and make assertions about it, or about a response. *)
Definition serving (config_text : bytes) (f : ServerState → bool) : bool := unwrapped (start config_text) f.

Definition response_code_of (r : Response) : ResponseCode.t := response_code (resp_metadata r).

Definition is_code (code : ResponseCode.t) (r : Response) : bool := response_code_of r ≟ code.

Definition count_type (t : RecordType.t) (rs : list DRecord) : N :=
  len (List.filter (λ r, RData.record_type (rec_data r) ≟ t) rs).

Definition ptr_query_answers_over_udp : bool :=
  serving (file CONFIG) (λ h, unwrapped (ask h PTR_QUERY RecordType.PTR) (λ response,
  is_code ResponseCode.NoError response && authoritative (resp_metadata response) &&
  negb (recursion_available (resp_metadata response)) &&
  match rec_data <$> resp_answers response with
  | [RData.PTR target] => ascii target ≟ bs FWD_NAME
  | _ => false
  end)).

Definition aaaa_query_answers_over_udp : bool :=
  serving (file CONFIG) (λ h, unwrapped (ask h FWD_NAME RecordType.AAAA) (λ response,
  is_code ResponseCode.NoError response &&
  match rec_data <$> resp_answers response with
  | [RData.AAAA a] => Ipv6Addr_to_string a ≟ bs ZoneTests.RZL_ADDR
  | _ => false
  end)).

Definition tcp_and_udp_agree : bool :=
  serving (file CONFIG) (λ h,
  unwrapped (ask h PTR_QUERY RecordType.PTR) (λ over_udp,
  unwrapped (ask_tcp h PTR_QUERY RecordType.PTR) (λ over_tcp,
  ((ZoneTests.shown <$> resp_answers over_udp) ≟ (ZoneTests.shown <$> resp_answers over_tcp)) &&
  is_code (response_code_of over_tcp) over_udp))).

Definition a_query_on_a_synthesized_name_is_empty_noerror : bool :=
  serving (file CONFIG) (λ h, unwrapped (ask h FWD_NAME RecordType.A) (λ response,
  is_code ResponseCode.NoError response && (len (resp_answers response) ≟ 0) &&
  authoritative (resp_metadata response))).

Definition out_of_zone_is_refused_by_default : bool :=
  serving (file CONFIG) (λ h, unwrapped (ask h "www.example.com." RecordType.A) (λ response,
  is_code ResponseCode.Refused response && negb (authoritative (resp_metadata response)))).

Definition out_of_zone_can_be_nxdomain_for_compatibility : bool :=
  serving (file ("out-of-zone nxdomain"%string :: CONFIG)) (λ h,
  unwrapped (ask h "www.example.com." RecordType.A) (is_code ResponseCode.NXDomain)).

Definition in_zone_nxdomain_carries_a_soa : bool :=
  serving (file CONFIG) (λ h,
  unwrapped (ask h "does-not-exist.nutzer.raumzeitlabor.de." RecordType.AAAA) (λ response,
  is_code ResponseCode.NXDomain response && authoritative (resp_metadata response) &&
  (count_type RecordType.SOA (resp_authority response) ≟ 1))).

Definition apex_soa_and_ns_are_served : bool :=
  serving (file CONFIG) (λ h,
  unwrapped (ask h "nutzer.raumzeitlabor.de." RecordType.SOA) (λ soa,
    is_code ResponseCode.NoError soa && (len (resp_answers soa) ≟ 1) &&
    (count_type RecordType.SOA (resp_answers soa) ≟ 1)) &&
  unwrapped (ask h "nutzer.raumzeitlabor.de." RecordType.NS) (λ ns, len (resp_answers ns) ≟ 2) &&
  unwrapped (ask h "0.c.c.c.e.0.0.1.8.8.d.4.1.0.0.2.ip6.arpa." RecordType.SOA) (λ rev,
    len (resp_answers rev) ≟ 1)).

Definition zone_transfer_is_refused : bool :=
  serving (file CONFIG) (λ h,
  unwrapped (ask_tcp h "nutzer.raumzeitlabor.de." RecordType.AXFR) (is_code ResponseCode.Refused)).

(** The extended code 16 is BADVERS where the handler sets it. *)
Definition unknown_edns_version_gets_badvers : bool :=
  serving (file CONFIG) (λ h,
  unwrapped (fst (ask_raw (query false OpCode.Query (Some (1, 4096)) (name PTR_QUERY) RecordType.PTR) h))
    (is_code ResponseCode.BADVERS)).

Definition edns_opt_is_echoed_and_payload_clamped : bool :=
  serving (file CONFIG) (λ h,
  unwrapped (fst (ask_raw (query false OpCode.Query (Some (0, 65535)) (name PTR_QUERY) RecordType.PTR) h))
    (λ response, unwrapped (resp_edns response) (λ '(max_payload, version),
      (version ≟ 0) && (max_payload <=? 1232)))).

(** The ordinary query that must still be answered. *)
Definition followup_answered (h : ServerState) : bool :=
  unwrapped (ask h PTR_QUERY RecordType.PTR) (λ followup,
    is_code ResponseCode.NoError followup && (len (resp_answers followup) ≟ 1)).

Definition zone_labels : list bytes :=
  LabelName.split_dots (bs "0.c.c.c.e.0.0.1.8.8.d.4.1.0.0.2.ip6.arpa") [].

Definition hostile : list bytes :=
  [bs ";"; bs "a;b"; ["034"%byte]; ["a"%byte; "034"%byte; "b"%byte]; bs "("; bs ")"; ["092"%byte];
   ["010"%byte]; ["009"%byte]; bs " "; ["000"%byte]; [Byte.xff]; [Byte.x80; Byte.x81; Byte.x82];
   replicate 63 "a"%byte].

(** One server meets all of them, each followed by the ordinary query. *)
Fixpoint survives (evils : list bytes) (h : ServerState) : bool :=
  match evils with
  | [] => true
  | evil :: evils =>
      match from_labels (evil :: zone_labels) with
      | Err _ => survives evils h
      | Ok n =>
          let '(_, h) := ask_raw (query false OpCode.Query None (set_fqdn true n) RecordType.PTR) h in
          followup_answered h && survives evils h
      end
  end.

Definition hostile_query_bytes_do_not_kill_the_server : bool := serving (file CONFIG) (survives hostile).

Definition overlong_reverse_names_are_declined_not_truncated : bool :=
  serving (file CONFIG) (λ h,
  match from_labels (replicate 200 (bs "a") ++ zone_labels) with
  | Ok n =>
      let '(response, h) := ask_raw (query false OpCode.Query None (set_fqdn true n) RecordType.PTR) h in
      match response with Some r => len (resp_answers r) ≟ 0 | None => true end && followup_answered h
  | Err _ => followup_answered h
  end).

Definition case_insensitive_but_strictly_hex : bool :=
  serving (file CONFIG) (λ h,
  unwrapped (ask h "IPV6-0219DBFFFE432EC7-BLAH.NUTZER.RAUMZEITLABOR.DE." RecordType.AAAA)
    (λ upper, len (resp_answers upper) ≟ 1) &&
  unwrapped (ask h "ipv6-zzzzzzzzzzzzzzzz-blah.nutzer.raumzeitlabor.de." RecordType.AAAA)
    (λ not_hex, len (resp_answers not_hex) ≟ 0) &&
  unwrapped (ask h "ipv6-0219dbfffe432ec7-blah.nutzer.raumzeitlabor.de.evil.com." RecordType.AAAA)
    (λ appended, len (resp_answers appended) ≟ 0)).

Definition notify_and_update_are_not_implemented_rather_than_fatal : bool :=
  serving (file CONFIG) (λ h,
  forallb (λ opcode,
    let '(response, h) := ask_raw (query false opcode None (name "nutzer.raumzeitlabor.de.") RecordType.SOA) h in
    match response with Some r => is_code ResponseCode.NotImp r | None => true end && followup_answered h)
    [OpCode.Update; OpCode.Notify]).

Definition original_v17_config_still_serves : bool :=
  serving (ConfigTests.zone_file "2001:4d88:100e:ccc0::/64" "ipv6-%DIGITS%.nutzer.raumzeitlabor.de") (λ h,
  unwrapped (ask h PTR_QUERY RecordType.PTR) (λ response,
  is_code ResponseCode.NoError response &&
  match rec_data <$> resp_answers response with
  | RData.PTR target :: _ => ascii target ≟ bs "ipv6-0219dbfffe432ec7.nutzer.raumzeitlabor.de."
  | _ => false
  end)).

Definition all : list bool :=
  [ptr_query_answers_over_udp; aaaa_query_answers_over_udp; tcp_and_udp_agree;
   a_query_on_a_synthesized_name_is_empty_noerror; out_of_zone_is_refused_by_default;
   out_of_zone_can_be_nxdomain_for_compatibility; in_zone_nxdomain_carries_a_soa;
   apex_soa_and_ns_are_served; zone_transfer_is_refused; unknown_edns_version_gets_badvers;
   edns_opt_is_echoed_and_payload_clamped; hostile_query_bytes_do_not_kill_the_server;
   overlong_reverse_names_are_declined_not_truncated; case_insensitive_but_strictly_hex;
   notify_and_update_are_not_implemented_rather_than_fatal; original_v17_config_still_serves].

Example server_tests_pass : forallb (λ b, b) all = true.
Proof. vm_refl. Qed.
End ServerTests.

(** The hostile queries, from a server to the next, do not change the ordinary answer. *)
Module Traces.
#[local] Existing Instance LabelName.laws.
#[local] Existing Instance EchoResolver.ops.
#[local] Existing Instance EchoMessages.ops.
#[local] Existing Instance TokenBucket.ops.
Import ServerTests.

Definition harness : ServerState :=
  default (mkServerState (mkZones Config_default ∅) (Rrl_new RrlParams_default)) (start (file CONFIG)).

Definition hostile_history : list (Env * Request) :=
  (λ evil, (env, query false OpCode.Query None (LabelName.mk (evil :: zone_labels) true) RecordType.PTR)) <$> hostile.

Definition ordinary : Request := query false OpCode.Query None (name PTR_QUERY) RecordType.PTR.

Lemma queries_leave_no_trace_witness :
  (response_code_of <$> fst (fst (handle_request env ordinary harness))) = [ResponseCode.NoError] ∧
  length hostile_history = 14%nat ∧
  fst (handle_request env ordinary (after_requests hostile_history harness)) = fst (handle_request env ordinary harness).
Proof.
  split; [vm_refl|]. split; [vm_refl|]. apply (queries_leave_no_trace hostile_history env ordinary harness).
  - apply Forall_fmap, Forall_true. done.
  - done.
  - intros info [= <-]. split; [by right|]. intros _ z a.
    assert ((λ '(z, _), upstream z) <$> Lookup.match_ptr (config (st_zones harness)) (name PTR_QUERY) = Some None) as H
      by vm_refl.
    intros Hm. simpl query_name in Hm. rewrite Hm in H. by injection H.
Defined.
End Traces.
